(* ===== verification/_CoqProject ===== *)
-Q . S2P
Prelude.v
Decimal.v
Rows.v
Ranges.v
DataFiles.v
LevelsProofs.v
IntervalPartition.v
Compaction.v
CompactionProofs.v
CompactionTasks.v
AsyncPipeline.v
AsyncPipelineProofs.v
Like.v
Predicates.v
KeyValues.v
Readers.v
LoserTree.v
LoserTreeProofs.v
SortMerge.v
SortMergeProofs.v
Streams.v
VarLengthInt.v
FloatBits.v
RowCompacted.v
Roaring.v
DeletionVectors.v
MergeFunctions.v
MergeRead.v
StateError.v
Paths.v
Manifests.v
RowTracking.v
ManifestFiles.v
ManifestFilesProofs.v
ManifestMerger.v
Snapshots.v
ConflictDetection.v
Scan.v
KeyValueScan.v
Commit.v
CommitTracking.v
RowIds.v
CommitProofs.v
CommitTable.v
CommitOutcomes.v
Rollback.v
LocalRename.v
Writers.v
WritersProofs.v
VisibleRows.v
Rewriter.v
RewriterProofs.v
TreeRows.v
TreeHistory.v
Changelog.v
TableTheorems.v
