(* ===== verification/Prelude.v ===== *)
(** * Apache Paimon C++: a verification development

    Paimon is a table format: a table is a sequence of snapshots, each of which
    lists data files in manifests; a table with a primary key keeps the files of
    a bucket in a merge tree. This library models the C++ implementation by
    functions that follow the source and proves what its parts promise to each
    other. Paths below are relative to src/ of the repository.

    ** The program and the files that model it

    _Common vocabulary._
    - Prelude.v (this file): [Status] and [Result] with early return
      (include/paimon/status.h), machine integers with their wrap-around, the
      class of comparators with its laws and the tactic [korder], lists, maps.
    - StateError.v: methods that change their object and may fail, with weakest
      preconditions and [ScopeGuard]; used by everything that touches files.

    _Values and encodings_ (paimon/common).
    - Decimal.v, Rows.v: decimals; rows of scalar values and [FieldsComparator].
    - Streams.v, VarLengthInt.v, FloatBits.v, RowCompacted.v: byte order and
      data streams, varints, IEEE bits, the compact row format.
    - Ranges.v: ranges of row ids, their index and the grouping of overlaps.
    - Roaring.v, DeletionVectors.v: bitmaps over an abstract CRoaring, deletion
      vectors and their records on disk.
    - Like.v, Predicates.v: LIKE patterns; predicates on rows and statistics.

    _Merge trees_ (paimon/core/mergetree, core/compact, core/io).
    - DataFiles.v, LevelsProofs.v: [DataFileMeta], [SortedRun], [Levels].
    - IntervalPartition.v: sections of files with overlapping keys.
    - Compaction.v, CompactionProofs.v, CompactionTasks.v: the strategies, the
      tasks and [MergeTreeCompactManager].
    - KeyValues.v, MergeFunctions.v, Changelog.v: records, merge functions and
      the wrappers that produce changelogs, as instances of one interface.
    - Readers.v, LoserTree.v, LoserTreeProofs.v, SortMerge.v,
      SortMergeProofs.v, MergeRead.v: reading sorted runs and merging them, with
      the loser tree and with the heap.
    - AsyncPipeline.v, AsyncPipelineProofs.v: the threads between the merging
      reader and the writer, as a transition system.
    - Paths.v, Writers.v, WritersProofs.v: names of files, single-file and
      rolling writers over a file system that may fail.
    - VisibleRows.v, Rewriter.v, RewriterProofs.v, TreeRows.v, TreeHistory.v:
      what a compaction does to the records, and all histories of a tree that is
      written to and compacted.

    _Tables_ (paimon/core/manifest, core/operation, core/catalog, core/utils).
    - Manifests.v, ManifestFiles.v, ManifestFilesProofs.v, ManifestMerger.v:
      logs of added and deleted files, the files that hold them, their merging.
    - Snapshots.v: the snapshot directory with its hints, and time travel.
    - Scan.v, KeyValueScan.v: plans of scans for both kinds of tables.
    - RowTracking.v, ConflictDetection.v, Commit.v: row ids of new files, the
      checks against the latest snapshot, commits and rollbacks.
    - CommitTracking.v, RowIds.v, CommitProofs.v, CommitTable.v,
      CommitOutcomes.v, Rollback.v: the proofs about commits, from the changes
      that a commit writes to the table that several writers share.
    - LocalRename.v: system calls of [LocalFileSystem::Rename], interleaved.
    - TableTheorems.v: the theorems about tables, with an example table.

    State is passed explicitly: an object is a record, a method that changes it
    returns the new record, and a method of the table works on the pair of the
    shared snapshot directory and the files, together with counters of its own.
    A fallible operation asks an oracle that may fail it at any time and may let
    a failed rename take effect. Other writers are a function that may change
    the shared state before each step that depends on it.

    ** What the theorems show

    - _Histories of a merge tree_ (TreeHistory): whatever is written and
      compacted in whatever order, the tree shows what was written, and no
      result of a compaction is refused.
    - _Reads_ (MergeRead, SortMergeProofs): both merging readers refine one
      specification; a read returns the latest version of every key that is
      not deleted; no assert of the loser tree is reached and no moved-from
      record is used, and the assert of its second comparator is kept if records
      of different runs differ in key or sequence.
    - _Compaction_ (CompactionProofs, CompactionTasks, LevelsProofs,
      IntervalPartition, RewriterProofs): what is picked, when deletions may be
      dropped, that no file is lost, that the merged records are stored.
    - _Commits_ (TableTheorems): a commit among other writers and failures keeps
      every snapshot; if it succeeds the new snapshot has the changed files; a
      lost race leaves nothing behind; the loop ends; a rollback restores the
      target; accepted changes keep the log, the row ids and, unless the sequence
      field is descending, the levels; the recorded sequence number bounds those
      of the live files.
    - _Scans_ (TableTheorems, Predicates): skipping manifests and files by
      statistics changes no answer.
    - _Concurrency_ (AsyncPipelineProofs, LocalRename): the pipeline delivers
      every batch once and ends with up to three consumers; with four, closing
      can wait forever; a rename can replace a file of another process.
    - _Encodings_ (Decimal, Streams, VarLengthInt, RowCompacted,
      DeletionVectors): round trips, orders and bounds.
    - _Changelogs, patterns, ranges_ (Changelog, MergeFunctions, Like, Ranges):
      each implements a function stated without its state.

    A theorem whose statement has hypotheses is applied at a concrete input by
    the lemma of the same name with the suffix _witness.

    ** Bounds

    Integers are [Z]; where the source can wrap around, [Int.wrap_s] and
    [Int.wrap_u] are written out. Loops that are not structural take fuel, and
    the theorems about them say that the fuel given is enough: the number of
    retries plus one for [commit_loop], the length of the interval for the
    binary searches of Snapshots.v and Ranges.v, the number of leaves for the
    loops of the loser tree, the length of the input for parsers, merging
    readers and [And_loop], the number of groups of seven bits for varints.

    The asserts of the merging readers and of [Timestamp] are errors of the
    model; others are on pointers and on configured values. The two that input
    can violate, on the sequence numbers that the loser tree compares and on the
    nanoseconds of a timestamp, depend on the parameter [asserts]: builds with
    [NDEBUG] do not have them, and the theorems hold of both kinds of builds.

    ** Parameters

    The formats of data files ([DataFormat] of Writers.v), CRoaring ([Roaring]
    of Roaring.v), the sizes and partition statistics of manifests, the clock,
    generated identifiers, the latest schema, the order of hash maps, the
    predicate built for a set of partitions, and files of other schemas and file
    indexes in the filters of scans. What is relied on is stated as laws or
    hypotheses.

    ** Not modelled

    - Adapters to libraries: Avro, ORC, Parquet, Lance, Vortex, Mosaic, Lucene,
      Lumina, Arrow arrays, JSON. Their behaviour is not in the sources.
    - Sorted lookup files, file indexes and global indexes, whose blocks and
      bitmaps are encoded by such libraries; index manifests and deletion-vector
      index files, so that commits here carry no index files.
    - Object stores, catalogs, REST, resolving file systems: the outcome of each
      operation is a parameter instead. Commit locks belong to catalogs; the
      publication by renaming takes none.
    - Splits and table APIs, system tables, options and schema parsing, casting,
      bucket selection, write buffers with spilling, real-time stores, partial
      update and aggregation, expiration and orphan files, caches and metrics.
      These call the modelled parts, or parse and convert values before them, and
      do not change what is proved here.
    - Texts of messages beyond a fixed part, logging, warming up of readers. *)

From stdpp Require Import base list gmap strings sorting.
From Stdlib Require Import ZArith Lia.
Local Open Scope Z_scope.

(** ** Status and Result *)

(** The codes of include/paimon/status.h. *)
Inductive StatusCode :=
| OutOfMemory | KeyError | TypeError | Invalid | IOError | CapacityError
| IndexError | Cancelled | UnknownError | NotImplemented | SerializationError
| NotExist | Exist.

(** A [Result<T>] holds a value or an error status with its message. *)
Inductive Result (A : Type) :=
| Ok (a : A)
| Err (c : StatusCode) (msg : string).
Arguments Ok {A} a.
Arguments Err {A} c msg.

#[export] Instance Result_ret : MRet Result := @Ok.
#[export] Instance Result_bind : MBind Result := λ A B f r,
  match r with Ok a => f a | Err c m => Err c m end.

(** Errors compare by code only where the message is not of interest. *)
Definition is_ok {A} (r : Result A) : bool :=
  match r with Ok _ => true | Err _ _ => false end.

Lemma Ok_inj {A} (a b : A) : Ok a = Ok b → a = b.
Proof. by intros [= ->]. Qed.

Lemma bind_Ok {A B} (r : Result A) (f : A → Result B) b :
  (r ≫= f) = Ok b ↔ ∃ a, r = Ok a ∧ f a = Ok b.
Proof. destruct r; cbn; [|split; [done|by intros (?&?&?)]]. split; [eauto|by intros (?&[= ->]&?)]. Qed.

(** [PAIMON_RETURN_NOT_OK] in a loop: fold with early exit on error. *)
Fixpoint foldR {A S} (f : A → S → Result S) (l : list A) (s : S) : Result S :=
  match l with
  | [] => Ok s
  | x :: l' => s' ← f x s; foldR f l' s'
  end.

Lemma foldR_app {A S} (f : A → S → Result S) l1 l2 s :
  foldR f (l1 ++ l2) s = (s' ← foldR f l1 s; foldR f l2 s').
Proof. revert s; induction l1 as [|x l1 IH]; intros s; cbn; [done|]. destruct (f x s); cbn; auto. Qed.

(** A filter whose test may fail. *)
Fixpoint filterR {A} (f : A → Result bool) (l : list A) : Result (list A) :=
  match l with
  | [] => Ok []
  | x :: l' => keep ← f x; rest ← filterR f l'; Ok (if (keep : bool) then x :: rest else rest)
  end.

#[export] Instance result_true_dec (r : Result bool) : Decision (r = Ok true).
Proof. destruct r as [[]|]; [by left|by right|by right]. Defined.

Lemma filterR_Ok {A} (f : A → Result bool) (l out : list A) : filterR f l = Ok out → out = filter (λ x, f x = Ok true) l.
Proof.
  revert out. induction l as [|x l IH]; intros out; cbn [filterR]; [by intros [= <-]|].
  intros (b&Hb&H)%bind_Ok. apply bind_Ok in H as (rest&->%IH&[= <-]). rewrite filter_cons, Hb. by destruct b.
Qed.

Lemma filterR_defined {A} (f : A → Result bool) (l out : list A) : filterR f l = Ok out → Forall (λ x, is_ok (f x) = true) l.
Proof.
  revert out. induction l as [|x l IH]; intros out; cbn [filterR]; [by constructor|].
  intros (b&Hb&H)%bind_Ok. apply bind_Ok in H as (rest&Hr&_). constructor; [by rewrite Hb|by eapply IH].
Qed.

Lemma filterR_fails {A} (f : A → Result bool) (l : list A) : is_ok (filterR f l) = false → ∃ x, is_ok (f x) = false.
Proof.
  induction l as [|x l IH]; [done|]. cbn. destruct (f x) eqn:E; cbn; [|intros _; exists x; by rewrite E].
  destruct (filterR f l); [done|]. intros _. by apply IH.
Qed.

Lemma foldR_fails {A S} (f : A → S → Result S) (l : list A) s : is_ok (foldR f l s) = false → ∃ a s', is_ok (f a s') = false.
Proof.
  revert s. induction l as [|a l IH]; intros s; [done|]. cbn. destruct (f a s) eqn:E; [apply IH|]. intros _. exists a, s. by rewrite E.
Qed.

Lemma foldR_unit {A} (f : A → Result ()) (l : list A) : foldR (λ x _, f x) l () = Ok () → Forall (λ x, f x = Ok ()) l.
Proof. induction l as [|x l IH]; cbn; [constructor|]. intros ([]&Hx&Hl)%bind_Ok. constructor; [done|by apply IH]. Qed.

(** An invariant of every step is an invariant of the loop. *)
Lemma foldR_inv {A S} (f : A → S → Result S) (I : S → Prop) l s s' :
  (∀ x s s', x ∈ l → I s → f x s = Ok s' → I s') →
  I s → foldR f l s = Ok s' → I s'.
Proof.
  revert s; induction l as [|x l IH]; intros s Hstep Hi; cbn.
  - by intros [= <-].
  - intros (s1 & H1 & H2)%bind_Ok.
    eapply IH; [ | | exact H2].
    + intros y t t' Hin. apply Hstep. by right.
    + eapply Hstep; [by left | done | exact H1].
Qed.

(** ** Machine integers *)

Module Int.
Definition wrap_u (w : Z) (x : Z) : Z := x mod 2 ^ w.
Definition wrap_s (w : Z) (x : Z) : Z :=
  let m := x mod 2 ^ w in if m <? 2 ^ (w - 1) then m else m - 2 ^ w.
Definition in_u (w x : Z) : Prop := 0 ≤ x < 2 ^ w.
Definition in_s (w x : Z) : Prop := - 2 ^ (w - 1) ≤ x < 2 ^ (w - 1).

Lemma pow_half w : 0 < w → 2 ^ w = 2 * 2 ^ (w - 1).
Proof. intros. rewrite <-Z.pow_succ_r by lia. f_equal. lia. Qed.
Lemma wrap_s_id w x : 0 < w → in_s w x → wrap_s w x = x.
Proof.
  intros Hw. unfold in_s, wrap_s. rewrite (pow_half w Hw). set (p := 2 ^ (w - 1)). intros Hx.
  destruct (Z.ltb_spec x 0).
  - replace (x mod (2 * p)) with (x + 2 * p).
    + destruct (Z.ltb_spec (x + 2 * p) p); lia.
    + symmetry. rewrite <-(Z.mod_add x 1), Z.mul_1_l by lia. apply Z.mod_small. lia.
  - rewrite Z.mod_small by lia. by rewrite (proj2 (Z.ltb_lt _ _)) by lia.
Qed.
Lemma wrap_u_id w x : in_u w x → wrap_u w x = x.
Proof. apply Z.mod_small. Qed.
Lemma wrap_s_range w x : 0 < w → in_s w (wrap_s w x).
Proof.
  intros Hw. unfold in_s, wrap_s. rewrite (pow_half w Hw). set (p := 2 ^ (w - 1)).
  assert (0 < p) by (apply Z.pow_pos_nonneg; lia). pose proof (Z.mod_pos_bound x (2 * p)).
  destruct (Z.ltb_spec (x mod (2 * p)) p); lia.
Qed.
End Int.

(** Disjoint bits: [|] is addition. *)
Lemma lor_shiftl_add n k x : 0 ≤ n → 0 ≤ x < 2 ^ n → Z.lor (Z.shiftl k n) x = k * 2 ^ n + x.
Proof.
  intros Hn Hx. rewrite <-Z.shiftl_mul_pow2 by lia.
  assert (Hland : Z.land (Z.shiftl k n) x = 0).
  { apply Z.bits_inj'. intros i Hi. rewrite Z.land_spec, Z.bits_0.
    destruct (Z.ltb_spec i n); [by rewrite Z.shiftl_spec_low|].
    rewrite <-(Z.mod_small x (2 ^ n)), Z.mod_pow2_bits_high by lia. apply andb_false_r. }
  by rewrite Z.add_nocarry_lxor, Z.lxor_lor by done.
Qed.

(** ** Comparators

    [FieldsComparator::CompareTo] and its relatives return an [int32_t] whose
    sign is the order. The class states what the clients of a comparator rely
    on: the sign is a total preorder. *)
Class Comparator (K : Type) := CompareTo : K → K → Z.

Class ComparatorLaws (K : Type) {C : Comparator K} : Prop := {
  cmp_antisym : ∀ a b : K, Z.sgn (CompareTo b a) = - Z.sgn (CompareTo a b);
  cmp_trans : ∀ a b c : K, CompareTo a b ≤ 0 → CompareTo b c ≤ 0 → CompareTo a c ≤ 0
}.

Definition klt {K} `{Comparator K} (a b : K) : Prop := CompareTo a b < 0.
Definition kle {K} `{Comparator K} (a b : K) : Prop := CompareTo a b ≤ 0.
Definition keq {K} `{Comparator K} (a b : K) : Prop := CompareTo a b = 0.

Section Comparator.
Context {K : Type} `{ComparatorLaws K}.
Implicit Types a b c : K.

Lemma cmp_refl a : CompareTo a a = 0.
Proof. pose proof (cmp_antisym a a). destruct (CompareTo a a); cbn in *; lia. Qed.

Lemma cmp_flip a b : CompareTo b a ≤ 0 ↔ 0 ≤ CompareTo a b.
Proof. pose proof (cmp_antisym a b). destruct (CompareTo a b), (CompareTo b a); cbn in *; lia. Qed.

Lemma klt_flip a b : klt a b ↔ 0 < CompareTo b a.
Proof. unfold klt. pose proof (cmp_flip a b). pose proof (cmp_flip b a). lia. Qed.
Lemma kle_flip a b : kle a b ↔ 0 ≤ CompareTo b a.
Proof. unfold kle. pose proof (cmp_flip b a). lia. Qed.

Lemma kle_refl a : kle a a.
Proof. unfold kle. rewrite cmp_refl. lia. Qed.
Lemma kle_trans a b c : kle a b → kle b c → kle a c.
Proof. apply cmp_trans. Qed.
Lemma kle_lt_dec a b : kle a b ∨ klt b a.
Proof. rewrite klt_flip. unfold kle. lia. Qed.
Lemma klt_not_le a b : klt a b → ¬ kle b a.
Proof. rewrite klt_flip. unfold kle. lia. Qed.
Lemma klt_le a b : klt a b → kle a b.
Proof. unfold klt, kle. lia. Qed.
Lemma klt_irrefl a : ¬ klt a a.
Proof. intros Hlt%klt_not_le. by apply Hlt, kle_refl. Qed.
Lemma klt_le_trans a b c : klt a b → kle b c → klt a c.
Proof.
  intros Hab Hbc. destruct (kle_lt_dec c a) as [Hca|]; [|done].
  exfalso. eapply klt_not_le; [exact Hab|]. eauto using kle_trans.
Qed.
Lemma kle_lt_trans a b c : kle a b → klt b c → klt a c.
Proof.
  intros Hab Hbc. destruct (kle_lt_dec c a) as [Hca|]; [|done].
  exfalso. eapply klt_not_le; [exact Hbc|]. eauto using kle_trans.
Qed.
Lemma klt_trans a b c : klt a b → klt b c → klt a c.
Proof. eauto using klt_le_trans, klt_le. Qed.
Lemma keq_le a b : keq a b ↔ kle a b ∧ kle b a.
Proof. rewrite (kle_flip b a). unfold keq, kle. lia. Qed.

#[global] Instance kle_dec a b : Decision (kle a b).
Proof. unfold kle. apply _. Defined.
#[global] Instance klt_dec a b : Decision (klt a b).
Proof. unfold klt. apply _. Defined.
#[global] Instance keq_dec a b : Decision (keq a b).
Proof. unfold keq. apply _. Defined.
End Comparator.

#[export] Instance keq_equiv {K} `{ComparatorLaws K} : Equivalence (keq (K:=K)).
Proof.
  split.
  - intros a. apply cmp_refl.
  - intros a b. rewrite !keq_le. tauto.
  - intros a b c. rewrite !keq_le. intros [??] [??]. eauto using kle_trans.
Qed.

(** Comparing keys respects the equality the comparator induces. *)
#[export] Instance kle_proper {K} `{ComparatorLaws K} : Proper (keq ==> keq ==> iff) (kle (K:=K)).
Proof.
  intros a a' [??]%keq_le b b' [??]%keq_le. split; eauto using kle_trans.
Qed.
#[export] Instance klt_proper {K} `{ComparatorLaws K} : Proper (keq ==> keq ==> iff) (klt (K:=K)).
Proof.
  intros a a' [??]%keq_le b b' [??]%keq_le. split; eauto using kle_lt_trans, klt_le_trans.
Qed.

(** [korder] closes goals that follow from the facts on keys in the context:
    every fact is put in the form [kle] or [klt], the set is closed under
    transitivity, and a strict cycle refutes the negated goal. *)
Ltac knorm_step :=
  match goal with
  | H : keq ?a ?b |- _ => apply keq_le in H; destruct H
  | H : CompareTo _ _ < 0 |- _ => change (klt _ _) in H
  | H : CompareTo ?a ?b < 0 |- _ => fold (klt a b) in H
  | H : CompareTo ?a ?b ≤ 0 |- _ => fold (kle a b) in H
  | H : CompareTo ?a ?b = 0 |- _ => fold (keq a b) in H
  | H : 0 < CompareTo ?a ?b |- _ => apply klt_flip in H
  | H : 0 ≤ CompareTo ?a ?b |- _ => apply kle_flip in H
  | H : CompareTo ?a ?b > 0 |- _ => apply Z.gt_lt in H
  | H : CompareTo ?a ?b ≥ 0 |- _ => apply Z.ge_le in H
  | H : ¬ kle ?a ?b |- _ => destruct (kle_lt_dec a b) as [?|?]; [contradiction|clear H]
  | H : ¬ klt ?a ?b |- _ => destruct (kle_lt_dec b a) as [?|?]; [clear H|contradiction]
  end.
Ltac have_fact P := match goal with H : P |- _ => idtac end.
Ltac ksat_step :=
  match goal with
  | H1 : klt ?a ?b, H2 : klt ?b ?c |- _ =>
      tryif have_fact (klt a c) then fail else pose proof (klt_trans a b c H1 H2)
  | H1 : klt ?a ?b, H2 : kle ?b ?c |- _ =>
      tryif have_fact (klt a c) then fail else pose proof (klt_le_trans a b c H1 H2)
  | H1 : kle ?a ?b, H2 : klt ?b ?c |- _ =>
      tryif have_fact (klt a c) then fail else pose proof (kle_lt_trans a b c H1 H2)
  | H1 : kle ?a ?b, H2 : kle ?b ?c |- _ =>
      tryif have_fact (kle a c) then fail
      else tryif have_fact (klt a c) then fail
      else tryif constr_eq a c then fail
      else pose proof (kle_trans a b c H1 H2)
  end.
Ltac kgoal :=
  lazymatch goal with
  | |- False => idtac
  | |- ¬ _ => intro
  | |- keq _ _ => apply keq_le; split; kgoal
  | |- CompareTo ?a ?b < 0 => change (klt a b); kgoal
  | |- CompareTo ?a ?b ≤ 0 => change (kle a b); kgoal
  | |- CompareTo ?a ?b = 0 => change (keq a b); kgoal
  | |- 0 < CompareTo ?a ?b => apply klt_flip; kgoal
  | |- 0 ≤ CompareTo ?a ?b => apply kle_flip; kgoal
  | |- CompareTo ?a ?b > 0 => apply Z.lt_gt; kgoal
  | |- kle ?a ?b => destruct (kle_lt_dec a b) as [?|?]; [assumption|exfalso]
  | |- klt ?a ?b => destruct (kle_lt_dec b a) as [?|?]; [exfalso|assumption]
  | |- _ => exfalso
  end.
Ltac korder :=
  kgoal; repeat knorm_step; repeat ksat_step;
  match goal with
  | H : klt ?a ?a |- _ => exact (klt_irrefl a H)
  | _ => assumption
  end.

Example korder_test {K} `{ComparatorLaws K} (a b c d : K) :
  CompareTo a b ≤ 0 → 0 < CompareTo c b → ¬ klt d c → klt a d.
Proof. intros. korder. Qed.

(** Three-way comparison as the sources write it for machine integers:
    [l == r ? 0 : (l < r ? -1 : 1)]. *)
Definition cmpZ (l r : Z) : Z := if l =? r then 0 else if l <? r then -1 else 1.

(** Comparators built from comparators. *)
Section Build.
Context {A B : Type}.

Lemma laws_Z : @ComparatorLaws Z cmpZ.
Proof.
  split; unfold CompareTo, cmpZ; intros;
    repeat match goal with |- context [?x =? ?y] => destruct (Z.eqb_spec x y)
           | |- context [?x <? ?y] => destruct (Z.ltb_spec x y)
           | H : context [?x =? ?y] |- _ => destruct (Z.eqb_spec x y)
           | H : context [?x <? ?y] |- _ => destruct (Z.ltb_spec x y) end; cbn; lia.
Qed.

Lemma laws_proj (f : A → B) (c : B → B → Z) :
  @ComparatorLaws B c → @ComparatorLaws A (λ x y, c (f x) (f y)).
Proof. intros [Ha Ht]. split; unfold CompareTo in *; intros; [apply Ha|eapply Ht; eauto]. Qed.

Lemma laws_sgn (c c' : A → A → Z) :
  (∀ x y, Z.sgn (c' x y) = Z.sgn (c x y)) → @ComparatorLaws A c → @ComparatorLaws A c'.
Proof.
  intros Hs [Ha Ht]. split; unfold CompareTo in *; intros.
  - rewrite !Hs. apply Ha.
  - assert (Hle : ∀ x y, c' x y ≤ 0 ↔ c x y ≤ 0).
    { intros x y. pose proof (Hs x y). destruct (c x y), (c' x y); cbn in *; lia. }
    rewrite Hle in *. eapply Ht; eauto.
Qed.

Lemma laws_lex (c1 c2 : A → A → Z) :
  @ComparatorLaws A c1 → @ComparatorLaws A c2 →
  @ComparatorLaws A (λ x y, if c1 x y =? 0 then c2 x y else c1 x y).
Proof.
  intros L1 L2. split; unfold CompareTo; intros.
  - pose proof (@cmp_antisym A c1 L1 a b) as E1. pose proof (@cmp_antisym A c2 L2 a b) as E2.
    unfold CompareTo in *.
    destruct (Z.eqb_spec (c1 a b) 0) as [E|E], (Z.eqb_spec (c1 b a) 0) as [E'|E']; auto;
      rewrite ?E, ?E' in E1; cbn in E1; destruct (c1 a b), (c1 b a); cbn in *; lia.
  - pose proof (@kle_trans A c1 L1 a b c) as T1. pose proof (@kle_lt_trans A c1 L1 a b c) as T2.
    pose proof (@klt_le_trans A c1 L1 a b c) as T3. pose proof (@cmp_trans A c2 L2 a b c) as T4.
    assert (T5 : c1 a b = 0 → c1 b c = 0 → c1 a c = 0).
    { pose proof (@keq_equiv A c1 L1) as Heq. intros E1 E2. exact (@Equivalence_Transitive _ _ Heq a b c E1 E2). }
    unfold kle, klt, CompareTo in *.
    destruct (Z.eqb_spec (c1 a b) 0), (Z.eqb_spec (c1 b c) 0), (Z.eqb_spec (c1 a c) 0); lia.
Qed.

Lemma laws_opp (c : A → A → Z) :
  @ComparatorLaws A c → @ComparatorLaws A (λ x y, - c x y).
Proof.
  intros L. split; unfold CompareTo; intros.
  - rewrite !Z.sgn_opp. f_equal. apply (@cmp_antisym A c L).
  - assert (@kle A c b a) by (apply (@kle_flip A c L); unfold CompareTo; lia).
    assert (@kle A c c0 b) by (apply (@kle_flip A c L); unfold CompareTo; lia).
    assert (@kle A c c0 a) as Hk by (eapply (@kle_trans A c L); eauto).
    apply (@kle_flip A c L) in Hk. unfold CompareTo in Hk. lia.
Qed.

Lemma laws_const : @ComparatorLaws A (λ _ _, 0).
Proof. split; unfold CompareTo; intros; cbn; lia. Qed.
End Build.

(** ** std::sort

    [less] is the comparison function object; the result is a permutation of the
    input in which no element is [less] than an earlier one. [std::sort] leaves
    the order of equivalent elements open, this one keeps it. *)
Definition not_after {A} (less : A → A → bool) (a b : A) : Prop := less b a = false.
#[export] Instance not_after_dec {A} (less : A → A → bool) a b : Decision (not_after less a b).
Proof. unfold not_after. apply _. Defined.
#[global] Typeclasses Opaque not_after.
Definition std_sort {A} (less : A → A → bool) (l : list A) : list A := merge_sort (not_after less) l.

Lemma std_sort_Permutation {A} (less : A → A → bool) l : std_sort less l ≡ₚ l.
Proof. apply merge_sort_Permutation. Qed.
Lemma std_sort_sorted {A} (less : A → A → bool) l :
  Total (not_after less) → Transitive (not_after less) → StronglySorted (not_after less) (std_sort less l).
Proof. intros ??. by apply StronglySorted_merge_sort. Qed.

(** Two sorted permutations agree where the order is antisymmetric on the
    elements, so the result does not depend on the sorting algorithm. *)
Lemma sorted_perm_unique {A} (R : A → A → Prop) l1 l2 :
  (∀ x y, x ∈ l1 → y ∈ l1 → R x y → R y x → x = y) →
  StronglySorted R l1 → StronglySorted R l2 → l1 ≡ₚ l2 → l1 = l2.
Proof.
  intros Hanti Hs1. revert l2. induction Hs1 as [|x l1 Hs1 IH Hx]; intros l2 Hs2 Hp.
  { by apply Permutation_nil in Hp. }
  destruct Hs2 as [|y l2 Hs2 Hy]; [by symmetry in Hp; apply Permutation_nil in Hp|].
  assert (x = y) as <-.
  { rewrite Forall_forall in Hx, Hy.
    assert (y ∈ x :: l1) as Hyin by (rewrite Hp; by left).
    assert (x ∈ y :: l2) as Hxin by (rewrite <-Hp; by left).
    apply elem_of_cons in Hyin as [Hyin|Hyin]; [done|].
    apply elem_of_cons in Hxin as [Hxin|Hxin]; [done|].
    apply Hanti; [by left|by right|by apply Hx|by apply Hy]. }
  apply Permutation_cons_inv in Hp. f_equal. apply IH; try done.
  intros a b Ha Hb. apply Hanti; by right.
Qed.

(** Filtering keeps a list sorted, and the last element is the greatest. *)
Lemma sorted_filter {B} (R : B → B → Prop) (P : B → Prop) `{∀ x, Decision (P x)} l :
  StronglySorted R l → StronglySorted R (filter P l).
Proof.
  induction 1 as [|x l _ IH Hx]; [constructor|]. rewrite filter_cons. case_decide; [|done].
  constructor; [done|]. rewrite Forall_forall in Hx |- *. intros y [_ Hy]%list_elem_of_filter. by apply Hx.
Qed.

(** Filters that agree on the elements of a list, keep all of them or none. *)
Lemma filter_ext_in {B} (P Q : B → Prop) `{∀ x, Decision (P x)} `{∀ x, Decision (Q x)} (l : list B) :
  (∀ x, x ∈ l → P x ↔ Q x) → filter P l = filter Q l.
Proof.
  induction l as [|x l IH]; intros Heq; [done|]. rewrite !filter_cons, IH by (intros; apply Heq; by right).
  pose proof (Heq x (list_elem_of_here _ _)). by repeat case_decide; [|tauto|tauto|].
Qed.
Lemma filter_all {B} (P : B → Prop) `{∀ x, Decision (P x)} (l : list B) : (∀ x, x ∈ l → P x) → filter P l = l.
Proof.
  induction l as [|x l IH]; intros Hall; [done|]. rewrite filter_cons_True, IH; [done|intros; apply Hall; by right|apply Hall; by left].
Qed.
Lemma filter_none {B} (P : B → Prop) `{∀ x, Decision (P x)} (l : list B) : (∀ x, x ∈ l → ¬ P x) → filter P l = [].
Proof.
  induction l as [|x l IH]; intros Hall; [done|]. rewrite filter_cons_False, IH; [done|intros; apply Hall; by right|apply Hall; by left].
Qed.

Lemma sorted_last_max {B} (R : B → B → Prop) l x y :
  (∀ a, R a a) → StronglySorted R l → last l = Some x → y ∈ l → R y x.
Proof.
  intros Hr Hs. revert x. induction Hs as [|z l _ IH Hz]; intros x Hl Hy; [by apply elem_of_nil in Hy|].
  rewrite last_cons in Hl. destruct (last l) as [w|] eqn:El.
  - injection Hl as ->. apply elem_of_cons in Hy as [->|Hy]; [|by apply IH].
    rewrite Forall_forall in Hz. apply Hz. by apply last_Some_elem_of.
  - apply last_None in El as ->. injection Hl as ->. apply list_elem_of_singleton in Hy as ->. done.
Qed.

Lemma list_elem_of_option {B} (x : B) (o : option B) : x ∈ option_list o ↔ o = Some x.
Proof. destruct o as [y|]; cbn; [rewrite list_elem_of_singleton; naive_solver|]. by split; [intros ?%elem_of_nil|]. Qed.

Lemma sorted_lookup {B} (R : B → B → Prop) l i j x y :
  StronglySorted R l → (i < j)%nat → l !! i = Some x → l !! j = Some y → R x y.
Proof.
  intros Hs. revert i j. induction Hs as [|z l _ IH Hz]; intros i j Hij Hi Hj; [done|].
  destruct j as [|j]; [lia|]. cbn in Hj. destruct i as [|i]; cbn in Hi.
  - injection Hi as ->. rewrite Forall_lookup in Hz. by eapply Hz.
  - apply (IH i j); [lia|done..].
Qed.

Lemma sorted_impl_in {B} (R R' : B → B → Prop) l :
  (∀ x y, x ∈ l → y ∈ l → R x y → R' x y) → StronglySorted R l → StronglySorted R' l.
Proof.
  intros Himp Hs. induction Hs as [|x l _ IH Hx]; constructor.
  - apply IH. intros a b Ha Hb. apply Himp; by right.
  - rewrite Forall_forall in Hx |- *. intros y Hy. apply Himp; [by left|by right|auto].
Qed.

Lemma list_elem_of_concat {B} (x : B) ls : x ∈ concat ls ↔ ∃ l, l ∈ ls ∧ x ∈ l.
Proof. rewrite list_elem_of_In, in_concat. by setoid_rewrite list_elem_of_In. Qed.

Lemma sorted_concat {B} (R : B → B → Prop) ls l : StronglySorted R (concat ls) → l ∈ ls → StronglySorted R l.
Proof.
  induction ls as [|l' ls IH]; intros Hs Hl; [by apply elem_of_nil in Hl|]. cbn in Hs.
  apply elem_of_cons in Hl as [->|Hl]; [by apply StronglySorted_app_1_l in Hs|].
  apply IH; [by apply StronglySorted_app_1_r in Hs|done].
Qed.

(** ** std::set

    A set ordered by the comparison function [less], as the ascending list of
    its elements. Inserting an equivalent element has no effect. *)
Section OrderedSet.
Context {A : Type} (less : A → A → bool).

Fixpoint oset_insert (x : A) (l : list A) : list A :=
  match l with
  | [] => [x]
  | y :: l' => if less x y then x :: l else if less y x then y :: oset_insert x l' else l
  end.
Fixpoint oset_erase (x : A) (l : list A) : list A :=
  match l with
  | [] => []
  | y :: l' => if less x y then l else if less y x then y :: oset_erase x l' else l'
  end.

Context `{HC : Comparator A} {HL : ComparatorLaws A} (Hless : ∀ a b, less a b = (CompareTo a b <? 0)).

Lemma less_lt a b : less a b = true ↔ klt a b.
Proof. rewrite Hless. apply Z.ltb_lt. Qed.
Lemma less_cases a b :
  (less a b = true ∧ klt a b) ∨ (less a b = false ∧ less b a = true ∧ klt b a) ∨ (less a b = false ∧ less b a = false ∧ keq a b).
Proof.
  destruct (less a b) eqn:E1; [left; by rewrite <-less_lt|right]. destruct (less b a) eqn:E2; [left; by rewrite <-less_lt|right].
  split_and!; [done..|]. apply keq_le. rewrite Hless, Z.ltb_ge in E1, E2.
  split; by apply kle_flip.
Qed.

Lemma oset_insert_elem x y l : y ∈ oset_insert x l → y = x ∨ y ∈ l.
Proof.
  induction l as [|z l IH]; cbn; [rewrite list_elem_of_singleton; tauto|].
  destruct (less_cases x z) as [[-> _]|[(->&->&_)|(->&->&_)]]; rewrite ?elem_of_cons; tauto.
Qed.
Lemma oset_insert_sorted x l : StronglySorted klt l → StronglySorted klt (oset_insert x l).
Proof.
  induction 1 as [|z l Hs IH Hz]; cbn; [repeat constructor|].
  destruct (less_cases x z) as [[-> H]|[(->&->&H)|(->&->&H)]].
  - constructor; [by constructor|]. constructor; [done|]. eapply Forall_impl; [exact Hz|]. intros y ?. cbn. korder.
  - constructor; [done|]. apply Forall_forall. rewrite Forall_forall in Hz. intros y [->|Hy]%oset_insert_elem; auto.
  - by constructor.
Qed.
Lemma oset_insert_fresh x l : (∀ y, y ∈ l → ¬ keq x y) → oset_insert x l ≡ₚ x :: l.
Proof.
  induction l as [|z l IH]; intros Hx; cbn; [done|].
  destruct (less_cases x z) as [[-> H]|[(->&->&H)|(->&->&H)]]; [done| |].
  - rewrite IH; [by rewrite Permutation_swap|]. intros y Hy. apply Hx. by right.
  - destruct (Hx z); [by left|done].
Qed.
Lemma oset_insert_sub x l : oset_insert x l ⊆+ x :: l.
Proof.
  induction l as [|z l IH]; cbn; [done|].
  destruct (less_cases x z) as [[-> H]|[(->&->&H)|(->&->&H)]]; [done| |].
  - rewrite Permutation_swap. by apply submseteq_skip.
  - by apply submseteq_cons.
Qed.
Lemma oset_erase_sub x l : oset_erase x l `sublist_of` l.
Proof.
  induction l as [|z l IH]; cbn; [done|].
  destruct (less x z); [done|]. destruct (less z x); [by apply sublist_skip|by apply sublist_cons].
Qed.
Lemma oset_erase_sorted x l : StronglySorted klt l → StronglySorted klt (oset_erase x l).
Proof.
  induction 1 as [|z l Hs IH Hz]; cbn; [constructor|].
  destruct (less x z); [by constructor|]. destruct (less z x); [|done]. constructor; [done|].
  rewrite Forall_forall in Hz |- *. intros y Hy. apply Hz. eapply elem_of_sublist; [exact Hy|apply oset_erase_sub].
Qed.
Lemma oset_erase_in x l : StronglySorted klt l → x ∈ l → l ≡ₚ x :: oset_erase x l.
Proof.
  induction 1 as [|z l Hs IH Hz]; intros Hx; cbn; [by apply elem_of_nil in Hx|].
  rewrite Forall_forall in Hz. apply elem_of_cons in Hx as [<-|Hx].
  - destruct (less_cases x x) as [[_ H]|[(_&_&H)|(->&_)]]; [exfalso; korder..|done].
  - specialize (Hz x Hx). destruct (less_cases x z) as [[_ H]|[(->&->&H)|(_&_&H)]]; [exfalso; korder| |exfalso; korder].
    rewrite (IH Hx) at 1. apply Permutation_swap.
Qed.

(** Where equivalent elements are equal, the operations are those of sets. *)
Context (Heq : ∀ a b : A, keq a b → a = b).
Lemma oset_insert_iff x y l : y ∈ oset_insert x l ↔ y = x ∨ y ∈ l.
Proof.
  split; [apply oset_insert_elem|]. induction l as [|z l IH]; cbn; [rewrite list_elem_of_singleton, elem_of_nil; tauto|].
  destruct (less_cases x z) as [[-> _]|[(->&->&_)|(->&->&->%Heq)]]; rewrite ?elem_of_cons; tauto.
Qed.
Lemma oset_erase_iff x y l : StronglySorted klt l → y ∈ oset_erase x l ↔ y ≠ x ∧ y ∈ l.
Proof.
  induction 1 as [|z l Hs IH Hz]; cbn; [by rewrite elem_of_nil; tauto|]. rewrite Forall_forall in Hz.
  destruct (less_cases x z) as [[-> H]|[(->&->&H)|(->&->&H)]].
  - split; [|tauto]. intros Hy. split; [|done]. intros ->.
    apply elem_of_cons in Hy as [->|Hy]; [korder|]. specialize (Hz x Hy). korder.
  - rewrite !elem_of_cons, IH. assert (z ≠ x) by (intros ->; korder). split; [|tauto]. intros [->|[? ?]]; tauto.
  - apply Heq in H as ->. rewrite elem_of_cons. split; [|by intros [? [|]]].
    intros Hy. split; [|by right]. intros ->. specialize (Hz z Hy). korder.
Qed.
End OrderedSet.

(** ** std::priority_queue

    [after x e] is the comparison function object: [x] is served after [e]. The
    queue is the list of its elements in the order they are served; equivalent
    elements are served in the order of their insertion, which the library
    leaves open. *)
Section PriorityQueue.
Context {A : Type} (after : A → A → bool).

Fixpoint pq_push (e : A) (queue : list A) : list A :=
  match queue with
  | [] => [e]
  | x :: queue' => if after x e then e :: queue else x :: pq_push e queue'
  end.

Lemma pq_push_perm e q : pq_push e q ≡ₚ e :: q.
Proof. induction q as [|x q IH]; cbn; [done|]. destruct (after x e); [done|]. rewrite IH. apply Permutation_swap. Qed.

Lemma pq_push_sorted (P : A → Prop) (R : A → A → Prop) e q :
  (∀ x e, P x → P e → after x e = true → R e x) → (∀ x e, P x → P e → after x e = false → R x e) →
  (∀ a b c, R a b → R b c → R a c) →
  P e → Forall P q → StronglySorted R q → StronglySorted R (pq_push e q).
Proof.
  intros H1 H2 Htr He HP Hs. revert HP. induction Hs as [|x q Hs IH Hx]; intros HP; cbn; [repeat constructor|].
  inversion_clear HP as [|?? HPx HPq]. destruct (after x e) eqn:E.
  - constructor; [by constructor|]. constructor; [by apply H1|]. eapply Forall_impl; [exact Hx|]. intros y Hy. by eapply Htr; [apply H1|].
  - constructor; [by apply IH|]. rewrite pq_push_perm. constructor; [by apply H2|done].
Qed.
End PriorityQueue.
