(* ===== verification/Decimal.v ===== *)
(** * Decimals

    [Decimal] of include/paimon/data/decimal.h and
    src/paimon/common/data/decimal.cpp: an unscaled 128-bit integer with a
    precision and a scale; ordering of two decimals of any scales, and the
    minimal big-endian two's complement encoding shared with the Java
    implementation. The [memcpy]s are those of a little-endian machine. *)

From stdpp Require Import base list.
From Stdlib Require Import ZArith QArith.QArith_base Lia.
From S2P Require Import Prelude.
Local Open Scope Z_scope.

Module Decimal.

Record Decimal := mkDecimal { precision_ : Z; scale_ : Z; value_ : Z }.

Definition MAX_COMPACT_PRECISION : Z := 18.
Definition INT128_MAXIMUM_VALUE : Z := 2 ^ 127 - 1.
Definition INT128_MINIMUM_VALUE : Z := - 2 ^ 127.

Definition POWERS_OF_TEN (i : Z) : Z :=
  nth (Z.to_nat i)
    [1; 10; 100; 1000; 10000; 100000; 1000000; 10000000; 100000000; 1000000000;
     10000000000; 100000000000; 1000000000000; 10000000000000; 100000000000000;
     1000000000000000; 10000000000000000; 100000000000000000; 1000000000000000000] 0.

(** [while (scale > 0) { step = min(|scale|, 18); value /= 10^step; scale -= step; }];
    the fuel [scale] is enough because every step is at least one. *)
Fixpoint DownScale_loop (fuel : nat) (value scale : Z) : Z :=
  match fuel with
  | O => value
  | S fuel =>
      if 0 <? scale then
        let step := Z.min (Z.abs scale) MAX_COMPACT_PRECISION in
        DownScale_loop fuel (Z.quot value (POWERS_OF_TEN step)) (scale - step)
      else value
  end.
Definition DownScaleInt128 (value scale : Z) : Z :=
  DownScale_loop (Z.to_nat scale) value scale.

(** Returns the scaled value and the overflow flag. *)
Fixpoint Scale_loop (fuel : nat) (value scale : Z) : Z * bool :=
  match fuel with
  | O => (value, false)
  | S fuel =>
      if 0 <? scale then
        let step := Z.min scale MAX_COMPACT_PRECISION in
        if (0 <? value) && (Z.quot INT128_MAXIMUM_VALUE (POWERS_OF_TEN step) <? value)
        then (INT128_MAXIMUM_VALUE, true)
        else if (value <? 0) && (value <? Z.quot INT128_MINIMUM_VALUE (POWERS_OF_TEN step))
        then (INT128_MINIMUM_VALUE, true)
        else Scale_loop fuel (value * POWERS_OF_TEN step) (scale - step)
      else (value, false)
  end.
Definition ScaleInt128 (value scale : Z) : Z * bool :=
  Scale_loop (Z.to_nat scale) value scale.

Definition CompareTo (self other : Decimal) : Z :=
  let l_value := value_ self in let l_scale := scale_ self in
  let r_value := value_ other in let r_scale := scale_ other in
  let l_positive := 0 <=? l_value in
  let r_positive := 0 <=? r_value in
  if l_positive && negb r_positive then 1
  else if negb l_positive && r_positive then -1
  else
    let l_integral := DownScaleInt128 l_value l_scale in
    let r_integral := DownScaleInt128 r_value r_scale in
    if l_integral <? r_integral then -1
    else if r_integral <? l_integral then 1
    else
      let positive := 0 <=? l_value in
      let l_value := l_value - fst (ScaleInt128 l_integral l_scale) in
      let r_value := r_value - fst (ScaleInt128 r_integral r_scale) in
      let diff := l_scale - r_scale in
      if 0 <? diff then
        let '(r_value, overflow) := ScaleInt128 r_value diff in
        if overflow then (if positive then -1 else 1)
        else cmpZ l_value r_value
      else
        let '(l_value, overflow) := ScaleInt128 l_value (- diff) in
        if overflow then (if positive then 1 else -1)
        else cmpZ l_value r_value.

(** ** Unscaled bytes *)

Definition to_u128 (v : Z) : Z := Int.wrap_u 128 v.

(** [__builtin_clzll] of a non-zero 64-bit word. *)
Definition clzll (u : Z) : Z := 63 - Z.log2 u.

Definition clz_u128 (u : Z) : Z :=
  let hi := Z.shiftr u 64 in
  if negb (hi =? 0) then clzll hi
  else let lo := Int.wrap_u 64 u in
    if negb (lo =? 0) then clzll lo + 64 else 128.

Definition count_leading_zero_bytes (u : Z) : Z :=
  if u =? 0 then 16 else clz_u128 u / 8.

(** The loop runs over the byte indices [i], [i-1], ..., 0. *)
Fixpoint leading_ones_loop (u : Z) (n : nat) : Z :=
  match n with
  | O => 0
  | S i => if Z.land (Z.shiftr u (Z.of_nat i * 8)) 255 =? 255
           then 1 + leading_ones_loop u i else 0
  end.
Definition count_leading_all_ones_bytes (u : Z) : Z :=
  if u =? 0 then 0 else leading_ones_loop u 16.

(** The number of bytes the encoding of [v] takes. *)
Definition valid_bytes (v : Z) : Z :=
  let positive := 0 <=? v in
  let n := if positive then 16 - count_leading_zero_bytes (to_u128 v)
           else 16 - count_leading_all_ones_bytes (to_u128 v) in
  if n =? 0 then 1
  else
    let hsb := negb (Z.land (Z.shiftr (to_u128 v) ((n - 1) * 8)) 128 =? 0) in
    if (positive && hsb) || (negb positive && negb hsb) then n + 1 else n.

Definition byte_at (u : Z) (i : nat) : Z := Z.land (Z.shiftr u (8 * Z.of_nat i)) 255.

(** The low [valid_bytes] bytes of the value, reversed to big endian. *)
Definition ToUnscaledBytes (v : Z) : list Z :=
  reverse (map (byte_at (to_u128 v)) (seq 0 (Z.to_nat (valid_bytes v)))).

Fixpoint or_bytes (bs : list Z) (i : nat) (value : Z) : Z :=
  match bs with
  | [] => value
  | b :: bs => or_bytes bs (S i) (Z.lor value (Z.shiftl b (8 * Z.of_nat i)))
  end.

(** [bytes] is not empty; the accumulator is the bit pattern of the
    [int128_t]. *)
Definition FromUnscaledBytes (precision scale : Z) (bytes : list Z) : Decimal :=
  let bytes := reverse bytes in
  let n := length bytes in
  let value := or_bytes bytes 0 0 in
  let value :=
    if negb (Z.land (default 0 (last bytes)) 128 =? 0)
    then or_bytes (replicate (16 - n) 255) n value else value in
  mkDecimal precision scale (Int.wrap_s 128 value).

Definition in_range (d : Decimal) : Prop := Int.in_s 128 (value_ d).

(** ** Scaling *)

Lemma POWERS_OF_TEN_spec i : 0 ≤ i ≤ 18 → POWERS_OF_TEN i = 10 ^ i.
Proof.
  intros Hi. assert (Hn : ∃ n, (n ≤ 18)%nat ∧ i = Z.of_nat n) by (exists (Z.to_nat i); lia).
  destruct Hn as (n & Hn & ->). unfold POWERS_OF_TEN. rewrite Nat2Z.id.
  do 19 (destruct n as [|n]; [vm_compute; reflexivity|]). lia.
Qed.

(** One step of either loop splits the power of ten. *)
Lemma step_pow scale (step := Z.min scale MAX_COMPACT_PRECISION) :
  0 < scale → 1 ≤ step ≤ scale ∧ POWERS_OF_TEN step = 10 ^ step ∧
  10 ^ scale = 10 ^ step * 10 ^ (scale - step).
Proof.
  intros Hs. assert (Hr : 1 ≤ step ≤ scale ∧ step ≤ 18) by (subst step; unfold MAX_COMPACT_PRECISION; lia).
  clearbody step. split; [lia|]. rewrite POWERS_OF_TEN_spec by lia. split; [done|].
  rewrite <- Z.pow_add_r by lia. f_equal. lia.
Qed.

Lemma DownScale_loop_spec fuel v s :
  0 ≤ s ≤ Z.of_nat fuel → DownScale_loop fuel v s = Z.quot v (10 ^ s).
Proof.
  revert v s. induction fuel as [|fuel IH]; intros v s Hs.
  - assert (s = 0) as -> by lia. cbn [DownScale_loop]. by rewrite Z.pow_0_r, Z.quot_1_r.
  - cbn [DownScale_loop]. destruct (Z.ltb_spec 0 s).
    + rewrite Z.abs_eq by lia. destruct (step_pow s) as (Hst & -> & Hp); [lia|].
      rewrite IH by lia. rewrite Z.quot_quot by (apply Z.pow_nonzero; lia). by rewrite Hp.
    + assert (s = 0) as -> by lia. by rewrite Z.pow_0_r, Z.quot_1_r.
Qed.

Lemma DownScaleInt128_spec v s : 0 ≤ s → DownScaleInt128 v s = Z.quot v (10 ^ s).
Proof. intros. apply DownScale_loop_spec. lia. Qed.

(** The overflow checks compare against the truncated quotient. *)
Lemma max_quot_lt p v : 0 < p → Z.quot INT128_MAXIMUM_VALUE p < v ↔ INT128_MAXIMUM_VALUE < v * p.
Proof.
  intros Hp. rewrite Z.quot_div_nonneg by (unfold INT128_MAXIMUM_VALUE; lia).
  split; intros Hv.
  - pose proof (Z.mul_succ_div_gt INT128_MAXIMUM_VALUE p Hp). nia.
  - apply Z.div_lt_upper_bound; lia.
Qed.

Lemma min_quot_gt p v : 0 < p → v < Z.quot INT128_MINIMUM_VALUE p ↔ v * p < INT128_MINIMUM_VALUE.
Proof.
  intros Hp. replace INT128_MINIMUM_VALUE with (- 2 ^ 127) by reflexivity.
  rewrite Z.quot_opp_l by lia. rewrite Z.quot_div_nonneg by lia.
  pose proof (Z.mul_succ_div_gt (2 ^ 127) p Hp). pose proof (Z.mul_div_le (2 ^ 127) p Hp). nia.
Qed.

Definition in_s128 (v : Z) : bool := (INT128_MINIMUM_VALUE <=? v) && (v <=? INT128_MAXIMUM_VALUE).

Lemma in_s128_spec v : in_s128 v = true ↔ Int.in_s 128 v.
Proof. unfold in_s128, Int.in_s, INT128_MINIMUM_VALUE, INT128_MAXIMUM_VALUE. lia. Qed.

(** [ScaleInt128] multiplies by the power of ten, saturating exactly when the
    product leaves the 128-bit range. *)
Lemma Scale_loop_spec fuel v s :
  0 ≤ s ≤ Z.of_nat fuel → in_s128 v = true →
  Scale_loop fuel v s =
    if in_s128 (v * 10 ^ s) then (v * 10 ^ s, false)
    else (if 0 <? v then INT128_MAXIMUM_VALUE else INT128_MINIMUM_VALUE, true).
Proof.
  revert v s. induction fuel as [|fuel IH]; intros v s Hs Hv.
  - assert (s = 0) as -> by lia. cbn [Scale_loop]. by rewrite Z.pow_0_r, Z.mul_1_r, Hv.
  - cbn [Scale_loop]. destruct (Z.ltb_spec 0 s) as [Hpos|].
    2: { assert (s = 0) as -> by lia. by rewrite Z.pow_0_r, Z.mul_1_r, Hv. }
    destruct (step_pow s) as (Hst & -> & Hp); [lia|].
    set (step := Z.min s MAX_COMPACT_PRECISION) in *.
    assert (H1 : 0 < 10 ^ step) by (apply Z.pow_pos_nonneg; lia).
    assert (H2 : 1 ≤ 10 ^ (s - step)) by (pose proof (Z.pow_pos_nonneg 10 (s - step)); lia).
    pose proof (max_quot_lt (10 ^ step) v H1). pose proof (min_quot_gt (10 ^ step) v H1).
    rewrite Hp. set (a := 10 ^ step) in *. remember (10 ^ (s - step)) as b eqn:Hb. clearbody a.
    assert (Hmono : in_s128 (v * (a * b)) = true → in_s128 (v * a) = true).
    { clear - H1 H2. unfold in_s128, INT128_MINIMUM_VALUE, INT128_MAXIMUM_VALUE.
      rewrite !andb_true_iff, !Z.leb_le. intros. rewrite Z.mul_assoc in *.
      remember (v * a) as w. nia. }
    assert (Hq1 : (Z.quot INT128_MAXIMUM_VALUE a <? v) = (INT128_MAXIMUM_VALUE <? v * a))
      by (apply eq_true_iff_eq; rewrite !Z.ltb_lt; done).
    assert (Hq2 : (v <? Z.quot INT128_MINIMUM_VALUE a) = (v * a <? INT128_MINIMUM_VALUE))
      by (apply eq_true_iff_eq; rewrite !Z.ltb_lt; done).
    rewrite Hq1, Hq2. clear H H0 Hq1 Hq2.
    assert (Hsg : (0 < v → 0 < v * a) ∧ (v < 0 → v * a < 0) ∧ (v = 0 → v * a = 0)) by nia.
    assert (Hc : INT128_MINIMUM_VALUE < 0 < INT128_MAXIMUM_VALUE) by done.
    rewrite Z.mul_assoc in *. remember (v * a) as w eqn:Hw.
    destruct (Z.ltb_spec INT128_MAXIMUM_VALUE w), (Z.ltb_spec w INT128_MINIMUM_VALUE);
      destruct (Z.ltb_spec 0 v), (Z.ltb_spec v 0); cbn [andb]; try lia;
      try (destruct (in_s128 (w * b)); [|reflexivity]; exfalso;
           specialize (Hmono eq_refl); unfold in_s128 in Hmono; lia).
    all: assert (Hva : in_s128 w = true) by (clear IH; unfold in_s128; lia).
    all: rewrite IH by (done || lia);
      rewrite <- Hb; destruct (Z.ltb_spec 0 w), (in_s128 (w * b)) eqn:E; try done; try lia.
    all: assert (w = 0) as E0 by lia; rewrite E0 in *; rewrite Z.mul_0_l in E; done.
Qed.

Lemma ScaleInt128_spec v s :
  0 ≤ s → in_s128 v = true →
  ScaleInt128 v s =
    if in_s128 (v * 10 ^ s) then (v * 10 ^ s, false)
    else (if 0 <? v then INT128_MAXIMUM_VALUE else INT128_MINIMUM_VALUE, true).
Proof. intros. apply Scale_loop_spec; [lia|done]. Qed.
(** ** Ordering *)

Lemma rem_sign v p : 0 < p → (0 ≤ v → 0 ≤ Z.rem v p < p) ∧ (v < 0 → - p < Z.rem v p ≤ 0).
Proof.
  intros Hp. split; intros Hv.
  - apply Z.rem_bound_pos; lia.
  - pose proof (Z.rem_bound_pos (- v) p). rewrite Z.rem_opp_l' in *. lia.
Qed.

Lemma quot_bounds v p : 0 < p →
  (0 ≤ v → 0 ≤ Z.quot v p ≤ v ∧ 0 ≤ Z.quot v p * p ≤ v) ∧
  (v < 0 → v ≤ Z.quot v p ≤ 0 ∧ v ≤ Z.quot v p * p ≤ 0).
Proof.
  intros Hp. pose proof (Z.quot_rem' v p) as E. destruct (rem_sign v p Hp) as [B1 B2].
  set (q := Z.quot v p) in *. set (r := Z.rem v p) in *. clearbody q r. split; intros Hv.
  - specialize (B1 Hv). assert (0 ≤ q) by nia. nia.
  - specialize (B2 Hv). assert (q ≤ 0) by nia. nia.
Qed.

Lemma in_s128_between v x : in_s128 v = true → (0 ≤ x ≤ v ∨ v ≤ x ≤ 0) → in_s128 x = true.
Proof. unfold in_s128, INT128_MAXIMUM_VALUE, INT128_MINIMUM_VALUE. lia. Qed.

(** The integral part of an in-range value scales back without overflow,
    leaving the fractional part. *)
Lemma fraction_spec v s :
  0 ≤ s → in_s128 v = true →
  v - fst (ScaleInt128 (DownScaleInt128 v s) s) = Z.rem v (10 ^ s).
Proof.
  intros Hs Hv. rewrite DownScaleInt128_spec by done.
  assert (Hp : 0 < 10 ^ s) by (apply Z.pow_pos_nonneg; lia).
  pose proof (Z.quot_rem' v (10 ^ s)) as E. pose proof (quot_bounds v _ Hp) as B.
  rewrite ScaleInt128_spec; [|done|apply (in_s128_between v); [done|lia]].
  rewrite (in_s128_between v (Z.quot v (10 ^ s) * 10 ^ s)) by (done || lia).
  cbn [fst]. lia.
Qed.

(** Equal integral parts: the order of the values is the order of the
    fractional parts, and a smaller integral part is a smaller value. *)
Lemma cross_integral lv rv p q :
  0 < p → 0 < q → (0 ≤ lv ∧ 0 ≤ rv ∨ lv < 0 ∧ rv < 0) →
  (Z.quot lv p < Z.quot rv q → lv * q < rv * p) ∧
  (Z.quot lv p = Z.quot rv q → lv * q - rv * p = Z.rem lv p * q - Z.rem rv q * p).
Proof.
  intros Hp Hq Hs.
  pose proof (Z.quot_rem' lv p) as El. pose proof (Z.quot_rem' rv q) as Er.
  pose proof (rem_sign lv p Hp) as [? ?]. pose proof (rem_sign rv q Hq) as [? ?].
  set (a := Z.quot lv p) in *. set (b := Z.quot rv q) in *.
  set (x := Z.rem lv p) in *. set (y := Z.rem rv q) in *. clearbody a b x y. split; intros.
  - assert (Hpq : p * q * (a + 1) ≤ p * q * b) by (apply Z.mul_le_mono_nonneg_l; nia).
    assert (Hxq : x * q < p * q + Z.min 0 (y * p) ∨ (x * q ≤ 0 ∧ - (p * q) < y * p)) by (destruct Hs as [[??]|[??]]; nia).
    rewrite El, Er. lia.
  - subst b. rewrite El, Er. lia.
Qed.

Lemma cmpZ_sub a b c d : a - b = c - d → cmpZ a b = cmpZ c d.
Proof.
  intros. unfold cmpZ. destruct (Z.eqb_spec a b), (Z.eqb_spec c d); try lia.
  destruct (Z.ltb_spec a b), (Z.ltb_spec c d); lia.
Qed.

Lemma cmpZ_scale a b c : 0 < c → cmpZ (a * c) (b * c) = cmpZ a b.
Proof.
  intros. unfold cmpZ. destruct (Z.eqb_spec (a * c) (b * c)), (Z.eqb_spec a b); try nia.
  destruct (Z.ltb_spec (a * c) (b * c)), (Z.ltb_spec a b); nia.
Qed.

(** The fractional comparison after aligning the scales. *)
Lemma compare_fractions x y d (c := 10 ^ d) :
  0 ≤ d → in_s128 x = true → in_s128 y = true → (0 ≤ x ∧ 0 ≤ y ∨ x ≤ 0 ∧ y ≤ 0) →
  (let '(y', o) := ScaleInt128 y d in
   if o then (if 0 <? y then -1 else 1) else cmpZ x y') = cmpZ x (y * c).
Proof.
  intros Hd Hx Hy Hs. rewrite ScaleInt128_spec by done. fold c.
  assert (Hc : 0 < c) by (apply Z.pow_pos_nonneg; lia).
  destruct (in_s128 (y * c)) eqn:E; [done|].
  unfold in_s128, cmpZ in *.
  assert (Hy0 : y ≠ 0) by (intros ->; rewrite Z.mul_0_l in E; done).
  destruct (Z.ltb_spec 0 y), (Z.eqb_spec x (y * c)), (Z.ltb_spec x (y * c)); nia.
Qed.
Lemma cmpZ_opp a b : cmpZ b a = - cmpZ a b.
Proof.
  unfold cmpZ. destruct (Z.eqb_spec a b), (Z.eqb_spec b a), (Z.ltb_spec a b), (Z.ltb_spec b a); lia.
Qed.

(** The part of [CompareTo] after the integral parts are found equal. *)
Lemma compare_same_integral lv rv ls rs :
  0 ≤ ls → 0 ≤ rs → in_s128 lv = true → in_s128 rv = true → (0 ≤ lv ∧ 0 ≤ rv ∨ lv < 0 ∧ rv < 0) →
  (let x := Z.rem lv (10 ^ ls) in let y := Z.rem rv (10 ^ rs) in
   if 0 <? ls - rs then
     let '(r, o) := ScaleInt128 y (ls - rs) in
     if o then (if 0 <=? lv then -1 else 1) else cmpZ x r
   else
     let '(l, o) := ScaleInt128 x (- (ls - rs)) in
     if o then (if 0 <=? lv then 1 else -1) else cmpZ l y)
  = cmpZ (Z.rem lv (10 ^ ls) * 10 ^ rs) (Z.rem rv (10 ^ rs) * 10 ^ ls).
Proof.
  intros Hls Hrs Hl Hr Hs. cbv zeta.
  assert (Hp : 0 < 10 ^ ls) by (apply Z.pow_pos_nonneg; lia).
  assert (Hq : 0 < 10 ^ rs) by (apply Z.pow_pos_nonneg; lia).
  pose proof (rem_sign lv _ Hp). pose proof (rem_sign rv _ Hq).
  pose proof (Z.quot_rem' lv (10 ^ ls)). pose proof (Z.quot_rem' rv (10 ^ rs)).
  pose proof (quot_bounds lv _ Hp). pose proof (quot_bounds rv _ Hq).
  assert (Hx : in_s128 (Z.rem lv (10 ^ ls)) = true) by (apply (in_s128_between lv); [done|lia]).
  assert (Hy : in_s128 (Z.rem rv (10 ^ rs)) = true) by (apply (in_s128_between rv); [done|lia]).
  set (x := Z.rem lv (10 ^ ls)) in *. set (y := Z.rem rv (10 ^ rs)) in *.
  destruct (Z.ltb_spec 0 (ls - rs)).
  - replace (10 ^ ls) with (10 ^ (ls - rs) * 10 ^ rs) by (rewrite <- Z.pow_add_r by lia; f_equal; lia).
    rewrite Z.mul_assoc, cmpZ_scale by done. rewrite <- compare_fractions by (done || lia).
    rewrite ScaleInt128_spec by (done || lia).
    destruct (in_s128 (y * _)) eqn:E; [done|].
    assert (y ≠ 0) by (intros E0; rewrite E0, Z.mul_0_l in E; done).
    destruct (Z.leb_spec 0 lv), (Z.ltb_spec 0 y); lia.
  - replace (10 ^ rs) with (10 ^ (- (ls - rs)) * 10 ^ ls) by (rewrite <- Z.pow_add_r by lia; f_equal; lia).
    rewrite Z.mul_assoc, cmpZ_scale by done. rewrite cmpZ_opp, <- compare_fractions by (done || lia).
    rewrite ScaleInt128_spec by (done || lia).
    destruct (in_s128 (x * _)) eqn:E; [apply cmpZ_opp|].
    assert (x ≠ 0) by (intros E0; rewrite E0, Z.mul_0_l in E; done).
    destruct (Z.leb_spec 0 lv), (Z.ltb_spec 0 x); lia.
Qed.

(** [CompareTo] orders in-range decimals by the rational numbers
    [value / 10^scale] they denote, whatever their scales, without overflow. *)
Lemma CompareTo_spec l r :
  in_range l → in_range r → 0 ≤ scale_ l → 0 ≤ scale_ r →
  CompareTo l r = cmpZ (value_ l * 10 ^ scale_ r) (value_ r * 10 ^ scale_ l).
Proof.
  unfold in_range. rewrite <- !in_s128_spec. destruct l as [lp ls lv], r as [rp rs rv]; cbn.
  intros Hl Hr Hls Hrs. unfold CompareTo; cbn.
  assert (Hp : 0 < 10 ^ ls) by (apply Z.pow_pos_nonneg; lia).
  assert (Hq : 0 < 10 ^ rs) by (apply Z.pow_pos_nonneg; lia).
  destruct (Z.leb_spec 0 lv) as [Hlv|Hlv], (Z.leb_spec 0 rv) as [Hrv|Hrv]; cbn [andb negb].
  2, 3: unfold cmpZ; destruct (Z.eqb_spec (lv * 10 ^ rs) (rv * 10 ^ ls)),
    (Z.ltb_spec (lv * 10 ^ rs) (rv * 10 ^ ls)); nia.
  all: rewrite !fraction_spec, !DownScaleInt128_spec by done;
    destruct (cross_integral lv rv (10 ^ ls) (10 ^ rs)) as [Hlt Heq]; [lia|lia|lia|];
    destruct (cross_integral rv lv (10 ^ rs) (10 ^ ls)) as [Hlt' _]; [lia|lia|lia|];
    destruct (Z.ltb_spec (Z.quot lv (10 ^ ls)) (Z.quot rv (10 ^ rs)));
      [unfold cmpZ; destruct (Z.eqb_spec (lv * 10 ^ rs) (rv * 10 ^ ls)),
         (Z.ltb_spec (lv * 10 ^ rs) (rv * 10 ^ ls)); lia|];
    destruct (Z.ltb_spec (Z.quot rv (10 ^ rs)) (Z.quot lv (10 ^ ls)));
      [unfold cmpZ; destruct (Z.eqb_spec (lv * 10 ^ rs) (rv * 10 ^ ls)),
         (Z.ltb_spec (lv * 10 ^ rs) (rv * 10 ^ ls)); lia|];
    rewrite (cmpZ_sub _ _ _ _ (Heq ltac:(lia))), <- compare_same_integral by (done || lia);
    cbv zeta; destruct (Z.leb_spec 0 lv); done || lia.
Qed.
(** ** Bytes *)

(** Bounds by bits: the bits from [k] up are all clear, or all set. *)
Lemma bits_clear_above w k : 0 ≤ w → 0 ≤ k → (∀ i, k ≤ i → Z.testbit w i = false) → w < 2 ^ k.
Proof.
  intros Hw Hk Hb. assert (w = w mod 2 ^ k) as ->.
  { apply Z.bits_inj'. intros i Hi. destruct (Z.lt_ge_cases i k).
    - by rewrite Z.mod_pow2_bits_low.
    - rewrite Z.mod_pow2_bits_high by lia. by apply Hb. }
  apply Z.mod_pos_bound. lia.
Qed.

Lemma bits_set_above v k : v < 0 → 0 ≤ k → (∀ i, k ≤ i → Z.testbit v i = true) → - 2 ^ k ≤ v.
Proof.
  intros Hv Hk Hb. pose proof (bits_clear_above (Z.lnot v) k) as B. unfold Z.lnot in *.
  assert (Z.pred (- v) < 2 ^ k); [|lia]. apply B; [lia|done|].
  intros i Hi. change (Z.testbit (Z.lnot v) i = false). rewrite Z.lnot_spec by lia. by rewrite Hb.
Qed.

Lemma testbit_in_range v k i :
  0 ≤ k → - 2 ^ k ≤ v < 2 ^ k → k ≤ i → Z.testbit v i = (v <? 0).
Proof.
  intros Hk Hv Hi. assert (Hki : 2 ^ k ≤ 2 ^ i) by (apply Z.pow_le_mono_r; lia).
  destruct (Z.ltb_spec v 0).
  - rewrite <- (Z.opp_involutive v), Z.bits_opp by lia.
    rewrite <- Z.mod_small with (a := Z.pred (- v)) (b := 2 ^ i) by lia.
    by rewrite Z.mod_pow2_bits_high by lia.
  - rewrite <- Z.mod_small with (a := v) (b := 2 ^ i) by lia. by rewrite Z.mod_pow2_bits_high by lia.
Qed.

Lemma to_u128_bit v i : 0 ≤ i < 128 → Z.testbit (to_u128 v) i = Z.testbit v i.
Proof. intros. unfold to_u128, Int.wrap_u. by rewrite Z.mod_pow2_bits_low by lia. Qed.

Lemma land_128 x : negb (Z.land x 128 =? 0) = Z.testbit x 7.
Proof.
  destruct (Z.testbit x 7) eqn:E.
  - apply negb_true_iff, Z.eqb_neq. intros H0.
    assert (Z.testbit (Z.land x 128) 7 = true) by (rewrite Z.land_spec, E; done).
    rewrite H0 in H. done.
  - apply negb_false_iff, Z.eqb_eq. apply Z.bits_inj'. intros i Hi.
    rewrite Z.land_spec, Z.bits_0. change 128 with (2 ^ 7). rewrite Z.pow2_bits_eqb by lia.
    destruct (Z.eqb_spec 7 i); [subst; by rewrite E|]. apply andb_false_r.
Qed.

Lemma land_255_bits x i : 0 ≤ i → Z.testbit (Z.land x 255) i = Z.testbit x i && (i <? 8).
Proof.
  intros. change 255 with (Z.ones 8). rewrite Z.land_spec, Z.testbit_ones_nonneg by lia. done.
Qed.

(** A byte equals 0xFF exactly when its eight bits are set. *)
Lemma byte_ones x : (Z.land x 255 =? 255) = true ↔ ∀ i, 0 ≤ i < 8 → Z.testbit x i = true.
Proof.
  rewrite Z.eqb_eq. split.
  - intros E i Hi. pose proof (f_equal (λ z, Z.testbit z i) E) as Ei. cbn beta in Ei.
    rewrite land_255_bits in Ei by lia. change 255 with (Z.ones 8) in Ei.
    rewrite Z.testbit_ones_nonneg in Ei by lia. replace (i <? 8) with true in Ei by lia.
    by rewrite andb_true_r in Ei.
  - intros Hb. apply Z.bits_inj'. intros i Hi. rewrite land_255_bits by done.
    change 255 with (Z.ones 8). rewrite Z.testbit_ones_nonneg by lia.
    destruct (Z.ltb_spec i 8); [rewrite Hb by lia; done|apply andb_false_r].
Qed.

Lemma clz_u128_spec u : 0 < u < 2 ^ 128 → clz_u128 u = 127 - Z.log2 u.
Proof.
  intros Hu. unfold clz_u128, clzll. rewrite Z.log2_shiftr by lia.
  assert (HL : Z.log2 u < 128) by (apply Z.log2_lt_pow2; lia).
  assert (Hhi : Z.shiftr u 64 = 0 ↔ Z.log2 u < 64).
  { rewrite Z.shiftr_div_pow2 by lia. rewrite <- Z.log2_lt_pow2 by lia. split.
    - intros E%Z.div_small_iff; lia.
    - intros. apply Z.div_small. lia. }
  destruct (Z.eqb_spec (Z.shiftr u 64) 0) as [E|E]; cbn [negb].
  - unfold Int.wrap_u. assert (u < 2 ^ 64) by (apply Z.log2_lt_pow2; lia).
    rewrite Z.mod_small by lia. destruct (Z.eqb_spec u 0); cbn [negb]; lia.
  - lia.
Qed.

(** The loop stops at the highest byte that is not 0xFF. *)
Lemma leading_ones_spec u m (c := leading_ones_loop u m) :
  0 ≤ c ≤ Z.of_nat m ∧
  (∀ i, 8 * (Z.of_nat m - c) ≤ i < 8 * Z.of_nat m → Z.testbit u i = true) ∧
  (c < Z.of_nat m → ∃ i, 8 * (Z.of_nat m - c - 1) ≤ i < 8 * (Z.of_nat m - c) ∧ Z.testbit u i = false).
Proof.
  subst c. induction m as [|m IH]; cbn [leading_ones_loop].
  - split; [lia|]. split; intros; lia.
  - destruct (Z.land (Z.shiftr u (Z.of_nat m * 8)) 255 =? 255) eqn:E.
    + rewrite byte_ones in E. destruct IH as (H1 & H2 & H3). split; [lia|]. split.
      * intros i Hi. destruct (Z.lt_ge_cases i (8 * Z.of_nat m)); [apply H2; lia|].
        specialize (E (i - Z.of_nat m * 8)). rewrite Z.shiftr_spec in E by lia.
        rewrite <- E by lia. f_equal. lia.
      * intros. destruct H3 as (i & ? & ?); [lia|]. exists i. split; [lia|done].
    + split; [lia|]. split; [intros; lia|]. intros _.
      apply not_true_iff_false in E. rewrite byte_ones in E.
      destruct (decide (Exists (λ j, Z.testbit u (Z.of_nat j + Z.of_nat m * 8) = false) (seq 0 8)))
        as [(j & Hj%elem_of_seq & Hb)%Exists_exists|Hn].
      { exists (Z.of_nat j + Z.of_nat m * 8). split; [lia|done]. }
      exfalso. apply E. intros i Hi. rewrite Z.shiftr_spec by lia.
      destruct (Z.testbit u (i + Z.of_nat m * 8)) eqn:Eb; [done|]. exfalso. apply Hn, Exists_exists.
      exists (Z.to_nat i). rewrite Z2Nat.id, elem_of_seq by lia. split; [lia|done].
Qed.

(** The encoding's length: the value fits in the bytes, and in no fewer. *)
Definition fits (v n : Z) : Prop := - 2 ^ (8 * n - 1) ≤ v < 2 ^ (8 * n - 1).
Definition least_bytes (v n : Z) : Prop :=
  1 ≤ n ≤ 16 ∧ fits v n ∧ ∀ m, 1 ≤ m → fits v m → n ≤ m.

Lemma valid_bytes_nonneg v : 0 ≤ v < 2 ^ 127 → least_bytes v (valid_bytes v).
Proof.
  intros Hv. unfold least_bytes, fits, valid_bytes. rewrite land_128.
  replace (0 <=? v) with true by lia.
  assert (Hu : to_u128 v = v) by (unfold to_u128, Int.wrap_u; apply Z.mod_small; lia).
  rewrite Hu. unfold count_leading_zero_bytes. destruct (Z.eqb_spec v 0) as [->|Hnz].
  { change (16 - 16 =? 0) with true. cbv iota. split; [lia|]. split; [done|]. lia. }
  rewrite clz_u128_spec by lia. pose proof (Z.log2_spec v ltac:(lia)) as HL.
  set (L := Z.log2 v) in *.
  assert (HL' : 0 ≤ L < 127) by (split; [apply Z.log2_nonneg|apply Z.log2_lt_pow2; lia]).
  replace (16 - (127 - L) / 8) with (L / 8 + 1) by (Z.to_euclidean_division_equations; lia).
  assert (Hd : L = 8 * (L / 8) + L mod 8 ∧ 0 ≤ L mod 8 < 8)
    by (split; [apply Z.div_mod; lia|apply Z.mod_pos_bound; lia]).
  set (q := L / 8) in *. set (r := L mod 8) in *. clearbody q r.
  destruct (Z.eqb_spec (q + 1) 0); [lia|]. rewrite Z.shiftr_spec by lia. cbn [negb andb orb].
  rewrite orb_false_r.
  assert (Hbit : Z.testbit v (7 + (q + 1 - 1) * 8) = (r =? 7)).
  { destruct (Z.eqb_spec r 7).
    - replace (7 + (q + 1 - 1) * 8) with L by lia. apply Z.bit_log2. lia.
    - apply Z.bits_above_log2; [lia|]. fold L. lia. }
  rewrite Hbit.
  assert (Hmin : ∀ m, 1 ≤ m → v < 2 ^ (8 * m - 1) → L < 8 * m - 1).
  { intros m Hm Hlt. apply (Z.pow_lt_mono_r_iff 2); [lia|lia|]. lia. }
  assert (Hmax : ∀ k, L < k → v < 2 ^ k).
  { intros k Hk. apply Z.lt_le_trans with (2 ^ Z.succ L); [lia|]. apply Z.pow_le_mono_r; lia. }
  destruct (Z.eqb_spec r 7); (split; [lia|]; split;
    [split; [pose proof (Z.pow_nonneg 2 (8 * (q + 1 + 1) - 1)); pose proof (Z.pow_nonneg 2 (8 * (q + 1) - 1)); lia
            |apply Hmax; lia]
    |intros m Hm [_ Hlt]; specialize (Hmin m Hm Hlt); lia]).
Qed.

Lemma valid_bytes_neg v : - 2 ^ 127 ≤ v < 0 → least_bytes v (valid_bytes v).
Proof.
  intros [Hv Hneg]. unfold least_bytes, fits, valid_bytes. rewrite land_128.
  replace (0 <=? v) with false by lia.
  unfold count_leading_all_ones_bytes.
  assert (Hbits : ∀ i, 127 ≤ i → Z.testbit v i = true).
  { intros. rewrite (testbit_in_range v 127) by lia. lia. }
  destruct (Z.eqb_spec (to_u128 v) 0) as [Hz|_].
  { pose proof (to_u128_bit v 127 ltac:(lia)) as Hb. rewrite Hz, Z.bits_0, Hbits in Hb by lia. done. }
  destruct (leading_ones_spec (to_u128 v) 16) as (Hc & Hones & Hlow).
  set (c := leading_ones_loop (to_u128 v) 16) in *. change (Z.of_nat 16) with 16 in *. clearbody c.
  assert (Hset : ∀ i, 8 * (16 - c) ≤ i → Z.testbit v i = true).
  { intros i Hi. destruct (Z.lt_ge_cases i 128); [|apply Hbits; lia].
    rewrite <- to_u128_bit by lia. apply Hones. lia. }
  assert (Hmin : ∀ m i, 1 ≤ m → - 2 ^ (8 * m - 1) ≤ v < 2 ^ (8 * m - 1) →
                        Z.testbit v i = false → i < 8 * m - 1).
  { intros m i Hm Hr Hb. destruct (Z.lt_ge_cases i (8 * m - 1)); [done|].
    rewrite (testbit_in_range v (8 * m - 1)) in Hb by lia. lia. }
  destruct (Z.eqb_spec (16 - c) 0).
  { split; [lia|]. split; [|lia].
    pose proof (bits_set_above v 0 Hneg ltac:(lia) ltac:(intros; apply Hset; lia)). cbn. lia. }
  destruct Hlow as (j & Hj & Hjb); [lia|]. rewrite to_u128_bit in Hjb by lia.
  rewrite Z.shiftr_spec by lia. cbn [negb andb orb].
  replace (7 + (16 - c - 1) * 8) with (8 * (16 - c) - 1) by lia. rewrite to_u128_bit by lia.
  destruct (Z.testbit v (8 * (16 - c) - 1)) eqn:Eb; cbn [negb].
  + split; [lia|]. split.
    * split; [|pose proof (Z.pow_nonneg 2 (8 * (16 - c) - 1)); lia].
      apply bits_set_above; [done|lia|]. intros i Hi.
      destruct (Z.eq_dec i (8 * (16 - c) - 1)) as [->|]; [done|]. apply Hset. lia.
    * intros m Hm Hr. pose proof (Hmin m j Hm Hr Hjb).
      assert (j ≠ 8 * (16 - c) - 1) by (intros ->; congruence). lia.
  + assert (c ≠ 0). { intros ->. rewrite Hbits in Eb by lia. done. }
    split; [lia|]. split.
    * split; [|pose proof (Z.pow_nonneg 2 (8 * (16 - c + 1) - 1)); lia].
      assert (- 2 ^ (8 * (16 - c)) ≤ v) by (apply bits_set_above; [done|lia|done]).
      assert (2 ^ (8 * (16 - c)) ≤ 2 ^ (8 * (16 - c + 1) - 1)) by (apply Z.pow_le_mono_r; lia). lia.
    * intros m Hm Hr. pose proof (Hmin m _ Hm Hr Eb). lia.
Qed.

Lemma valid_bytes_spec v : Int.in_s 128 v → least_bytes v (valid_bytes v).
Proof.
  unfold Int.in_s. intros. destruct (Z.lt_ge_cases v 0);
    [apply valid_bytes_neg|apply valid_bytes_nonneg]; change (128 - 1) with 127 in *; lia.
Qed.
Lemma byte_at_bits u k i :
  0 ≤ i → Z.testbit (byte_at u k) i = Z.testbit u (i + 8 * Z.of_nat k) && (i <? 8).
Proof. intros. unfold byte_at. by rewrite land_255_bits, Z.shiftr_spec by lia. Qed.

(** Or-ing byte [k] extends the low [8 k] bits to the low [8 (k + 1)] bits. *)
Lemma or_byte u k :
  Z.lor (u mod 2 ^ (8 * Z.of_nat k)) (Z.shiftl (byte_at u k) (8 * Z.of_nat k))
  = u mod 2 ^ (8 * Z.of_nat (S k)).
Proof.
  apply Z.bits_inj'. intros i Hi. rewrite Z.lor_spec.
  destruct (Z.lt_ge_cases i (8 * Z.of_nat k)).
  - rewrite !Z.mod_pow2_bits_low by lia. rewrite Z.shiftl_spec_low by lia. apply orb_false_r.
  - rewrite (Z.mod_pow2_bits_high u (8 * Z.of_nat k)) by lia.
    rewrite Z.shiftl_spec_high, byte_at_bits by lia.
    replace (i - 8 * Z.of_nat k + 8 * Z.of_nat k) with i by lia. cbn [orb].
    destruct (Z.ltb_spec (i - 8 * Z.of_nat k) 8).
    + rewrite Z.mod_pow2_bits_low by lia. apply andb_true_r.
    + rewrite Z.mod_pow2_bits_high by lia. apply andb_false_r.
Qed.

Lemma or_bytes_spec u n k :
  or_bytes (map (byte_at u) (seq k n)) k (u mod 2 ^ (8 * Z.of_nat k)) = u mod 2 ^ (8 * Z.of_nat (k + n)).
Proof.
  revert k. induction n as [|n IH]; intros k; cbn [seq map or_bytes].
  - by rewrite Nat.add_0_r.
  - rewrite or_byte, IH. do 3 f_equal. lia.
Qed.

(** Above its encoding a negative value has only 0xFF bytes. *)
Lemma high_bytes_neg v n m :
  v < 0 → fits v (Z.of_nat n) → (n + m ≤ 16)%nat → (1 ≤ n)%nat →
  map (byte_at (to_u128 v)) (seq n m) = replicate m 255.
Proof.
  intros Hv Hf. revert n Hf. induction m as [|m IH]; intros n Hf Hm Hn; cbn [seq map replicate]; [done|].
  f_equal.
  - apply Z.eqb_eq, byte_ones. intros i Hi. rewrite Z.shiftr_spec, to_u128_bit by lia.
    rewrite (testbit_in_range v (8 * Z.of_nat n - 1)) by (done || lia). lia.
  - apply IH; [|lia|lia]. unfold fits in *.
    assert (2 ^ (8 * Z.of_nat n - 1) ≤ 2 ^ (8 * Z.of_nat (S n) - 1)) by (apply Z.pow_le_mono_r; lia). lia.
Qed.

Lemma wrap_s_to_u v : Int.in_s 128 v → Int.wrap_s 128 (to_u128 v) = v.
Proof.
  unfold Int.in_s, Int.wrap_s, to_u128, Int.wrap_u. change (2 ^ (128 - 1)) with (2 ^ 127).
  intros Hv. rewrite Z.mod_mod by lia. destruct (Z.lt_ge_cases v 0).
  - assert (E : v mod 2 ^ 128 = v + 2 ^ 128).
    { rewrite <- (Z.mod_add v 1) by lia. apply Z.mod_small. lia. }
    rewrite E. destruct (Z.ltb_spec (v + 2 ^ 128) (2 ^ 127)); lia.
  - rewrite Z.mod_small by lia. destruct (Z.ltb_spec v (2 ^ 127)); lia.
Qed.

Lemma bytes_value p s v n :
  Int.in_s 128 v → fits v (Z.of_nat n) → (1 ≤ n ≤ 16)%nat →
  FromUnscaledBytes p s (reverse (map (byte_at (to_u128 v)) (seq 0 n))) = mkDecimal p s v.
Proof.
  intros Hv Hf Hn. unfold FromUnscaledBytes. rewrite reverse_involutive, length_map, length_seq. f_equal.
  assert (Hlast : last (map (byte_at (to_u128 v)) (seq 0 n)) = Some (byte_at (to_u128 v) (n - 1))).
  { replace (seq 0 n) with (seq 0 (n - 1) ++ [(n - 1)%nat]).
    - rewrite map_app. cbn [map]. by rewrite last_snoc.
    - symmetry. replace n with ((n - 1) + 1)%nat at 1 by lia.
      by rewrite seq_app. }
  rewrite Hlast. cbn [from_option id]. rewrite land_128, byte_at_bits by lia.
  rewrite (to_u128_bit v) by lia. rewrite (testbit_in_range v (8 * Z.of_nat n - 1)) by (done || lia).
  rewrite andb_true_r.
  pose proof (or_bytes_spec (to_u128 v) n 0) as E. rewrite Z.mod_1_r in E. cbn [Nat.add] in E. rewrite E.
  destruct (Z.ltb_spec v 0).
  - rewrite <- (high_bytes_neg v n (16 - n)) by (done || lia). rewrite or_bytes_spec.
    replace (n + (16 - n))%nat with 16%nat by lia. change (8 * Z.of_nat 16) with 128.
    unfold to_u128, Int.wrap_u. rewrite Z.mod_mod by lia. by apply wrap_s_to_u.
  - assert (Hu : to_u128 v = v).
    { unfold to_u128, Int.wrap_u, Int.in_s in *. apply Z.mod_small. lia. }
    rewrite Hu. rewrite Z.mod_small. { rewrite <- Hu at 1. by apply wrap_s_to_u. }
    unfold fits in Hf. assert (2 ^ (8 * Z.of_nat n - 1) ≤ 2 ^ (8 * Z.of_nat n)) by (apply Z.pow_le_mono_r; lia). lia.
Qed.

Lemma FromUnscaledBytes_ToUnscaledBytes p s v : Int.in_s 128 v →
  FromUnscaledBytes p s (ToUnscaledBytes v) = mkDecimal p s v.
Proof.
  intros Hv. destruct (valid_bytes_spec v Hv) as (Hn & Hf & Hm). unfold ToUnscaledBytes.
  apply bytes_value; [done| |lia]. by rewrite Z2Nat.id by lia.
Qed.
Lemma ToUnscaledBytes_length v : Int.in_s 128 v → Z.of_nat (length (ToUnscaledBytes v)) = valid_bytes v.
Proof.
  intros Hv. destruct (valid_bytes_spec v Hv) as (Hn & _). unfold ToUnscaledBytes.
  by rewrite length_reverse, length_map, length_seq, Z2Nat.id by lia.
Qed.

(** The rational number a decimal denotes. *)
Definition toQ (d : Decimal) : Q := value_ d # Z.to_pos (10 ^ scale_ d).

(** C39. [Decimal::CompareTo] decides the order of the rational numbers the two
    decimals denote, for any in-range unscaled values and any non-negative
    scales: the aligning multiplications never change the answer by
    overflowing. *)
Theorem decimal_compare_rational l r :
  in_range l → in_range r → 0 ≤ scale_ l → 0 ≤ scale_ r →
  CompareTo l r = match (toQ l ?= toQ r)%Q with Lt => -1 | Eq => 0 | Gt => 1 end.
Proof.
  intros Hl Hr Hls Hrs. rewrite CompareTo_spec by done. unfold Qcompare, toQ; cbn.
  rewrite !Z2Pos.id by (apply Z.pow_pos_nonneg; lia). unfold cmpZ.
  destruct (Z.eqb_spec (value_ l * 10 ^ scale_ r) (value_ r * 10 ^ scale_ l)) as [->|];
    [by rewrite Z.compare_refl|].
  destruct (Z.ltb_spec (value_ l * 10 ^ scale_ r) (value_ r * 10 ^ scale_ l)) as [Hlt|Hge].
  - by rewrite (proj2 (Z.compare_lt_iff _ _) Hlt).
  - rewrite (proj2 (Z.compare_gt_iff _ _)); [done|lia].
Qed.

Lemma decimal_compare_rational_witness :
  CompareTo (mkDecimal 38 2 12345) (mkDecimal 38 3 (- 5)) = 1.
Proof.
  rewrite (decimal_compare_rational (mkDecimal 38 2 12345) (mkDecimal 38 3 (- 5)));
    [reflexivity|split; vm_compute; congruence|split; vm_compute; congruence|vm_compute; congruence|vm_compute; congruence].
Defined.

(** [ToUnscaledBytes] writes the shortest two's complement encoding (the one
    of Java's [BigInteger.toByteArray]) and [FromUnscaledBytes] reads it back,
    for every 128-bit unscaled value. *)
Theorem decimal_bytes_roundtrip p s v :
  Int.in_s 128 v →
  FromUnscaledBytes p s (ToUnscaledBytes v) = mkDecimal p s v ∧
  least_bytes v (Z.of_nat (length (ToUnscaledBytes v))).
Proof.
  intros Hv. split; [by apply FromUnscaledBytes_ToUnscaledBytes|].
  rewrite ToUnscaledBytes_length by done. by destruct (valid_bytes_spec v Hv) as (Hn & Hf & Hm).
Qed.

Lemma decimal_bytes_roundtrip_witness :
  FromUnscaledBytes 10 2 (ToUnscaledBytes (- 129)) = mkDecimal 10 2 (- 129).
Proof.
  refine (proj1 (decimal_bytes_roundtrip 10 2 (- 129) _)). split; vm_compute; congruence.
Defined.
End Decimal.
