(* ===== verification/Rows.v ===== *)
(** * Rows and the fields comparator

    The values of [VariantType] (src/paimon/common/data/data_define.h) of the
    scalar types, rows of them, and [FieldsComparator]
    (src/paimon/common/utils/fields_comparator.{h,cpp}), the order on keys and
    user-defined sequence fields that every merge relies on. The comparator is
    shown to satisfy the laws of [Prelude.ComparatorLaws], which is all the
    rest of the development assumes of it. *)

From stdpp Require Import base list strings.
From Stdlib Require Import ZArith Lia SpecFloat.
From S2P Require Import Prelude Decimal.
Local Open Scope Z_scope.

(** ** Values *)

Record Timestamp := mkTimestamp { millisecond_ : Z; nano_of_millisecond_ : Z }.

Definition Timestamp_eqb (a b : Timestamp) : bool :=
  (millisecond_ a =? millisecond_ b) && (nano_of_millisecond_ a =? nano_of_millisecond_ b).
Definition Timestamp_ltb (a b : Timestamp) : bool :=
  if millisecond_ a =? millisecond_ b
  then nano_of_millisecond_ a <? nano_of_millisecond_ b
  else millisecond_ a <? millisecond_ b.

(** [VNull] is [NullType]; floats are IEEE 754 data. *)
Inductive VariantType :=
| VNull
| VBool (b : bool)
| VByte (z : Z)
| VShort (z : Z)
| VInt (z : Z)
| VLong (z : Z)
| VFloat (f : spec_float)
| VDouble (f : spec_float)
| VString (s : string)
| VBytes (s : string)
| VTimestamp (t : Timestamp)
| VDecimal (d : Decimal.Decimal).

#[export] Instance spec_float_eq_dec : EqDecision spec_float.
Proof. solve_decision. Defined.
#[export] Instance Timestamp_eq_dec : EqDecision Timestamp.
Proof. solve_decision. Defined.
#[export] Instance Decimal_eq_dec : EqDecision Decimal.Decimal.
Proof. solve_decision. Defined.
#[export] Instance VariantType_eq_dec : EqDecision VariantType.
Proof. solve_decision. Defined.

Definition IsVariantNull (v : VariantType) : bool :=
  match v with VNull => true | _ => false end.

(** A row; [InternalRow], [GenericRow] and [BinaryRow] differ in how they store
    the fields, not in what the readers get. A position past the end reads as
    null. *)
Definition InternalRow := list VariantType.

Definition field_at (row : InternalRow) (i : nat) : VariantType := default VNull (row !! i).
Definition IsNullAt (row : InternalRow) (i : nat) : bool := IsVariantNull (field_at row i).

Definition GetBoolean (row : InternalRow) (i : nat) : bool :=
  match field_at row i with VBool b => b | _ => false end.
Definition GetInteger (row : InternalRow) (i : nat) : Z :=
  match field_at row i with VByte z | VShort z | VInt z | VLong z => z | _ => 0 end.
Definition GetFloating (row : InternalRow) (i : nat) : spec_float :=
  match field_at row i with VFloat f | VDouble f => f | _ => S754_zero false end.
Definition GetStringView (row : InternalRow) (i : nat) : string :=
  match field_at row i with VString s | VBytes s => s | _ => EmptyString end.
Definition GetTimestamp (row : InternalRow) (i : nat) : Timestamp :=
  match field_at row i with VTimestamp t => t | _ => mkTimestamp 0 0 end.
(** The stored unscaled value, an [int128_t], with the precision and scale of
    the type. *)
Definition GetDecimal (row : InternalRow) (i : nat) (precision scale : Z) : Decimal.Decimal :=
  let v := match field_at row i with VDecimal d => Decimal.value_ d | _ => 0 end in
  Decimal.mkDecimal precision scale (Int.wrap_s 128 v).

(** ** Field comparators *)

(** The arrow types [CompareField] tells apart. *)
Inductive ArrowType :=
| BOOL | INT8 | INT16 | DATE32 | INT32 | INT64 | FLOAT | DOUBLE | STRING | BINARY
| TIMESTAMP (precision : Z) | DECIMAL128 (precision scale : Z) | OTHER_TYPE (name : string).

Definition is_nan (f : spec_float) : bool :=
  match f with S754_nan => true | _ => false end.
Definition signbit (f : spec_float) : bool :=
  match f with
  | S754_zero s | S754_infinity s | S754_finite s _ _ => s
  | S754_nan => false
  end.

(** -infinity < -0.0 < +0.0 < +infinity < NaN == NaN *)
Definition CompareFloatingPoint (a b : spec_float) : Z :=
  if is_nan a && is_nan b then 0
  else if is_nan a then 1
  else if is_nan b then -1
  else if SFeqb a b then
    (if Bool.eqb (signbit a) (signbit b) then 0 else if signbit a then -1 else 1)
  else if SFltb a b then -1 else 1.

Definition cmp_bool (l r : bool) : Z :=
  if Bool.eqb l r then 0 else if negb l && r then -1 else 1.

(** [std::string_view::compare]: bytes as unsigned characters, then length. *)
Definition cmp_string (l r : string) : Z :=
  match String.compare l r with Eq => 0 | Lt => -1 | Gt => 1 end.

Definition cmp_timestamp (l r : Timestamp) : Z :=
  if Timestamp_eqb l r then 0 else if Timestamp_ltb l r then -1 else 1.

Definition FieldComparatorFunc := InternalRow → InternalRow → Z.

Definition CompareField (field_idx : nat) (type : ArrowType) : Result FieldComparatorFunc :=
  match type with
  | BOOL => Ok (λ l r, cmp_bool (GetBoolean l field_idx) (GetBoolean r field_idx))
  | INT8 | INT16 | DATE32 | INT32 | INT64 =>
      Ok (λ l r, cmpZ (GetInteger l field_idx) (GetInteger r field_idx))
  | FLOAT | DOUBLE =>
      Ok (λ l r, CompareFloatingPoint (GetFloating l field_idx) (GetFloating r field_idx))
  | STRING | BINARY =>
      Ok (λ l r, cmp_string (GetStringView l field_idx) (GetStringView r field_idx))
  | TIMESTAMP precision =>
      Ok (λ l r, cmp_timestamp (GetTimestamp l field_idx) (GetTimestamp r field_idx))
  | DECIMAL128 precision scale =>
      Ok (λ l r, let cmp := Decimal.CompareTo (GetDecimal l field_idx precision scale)
                                              (GetDecimal r field_idx precision scale) in
                 if cmp =? 0 then 0 else if 0 <? cmp then 1 else -1)
  | OTHER_TYPE name => Err NotImplemented "Do not support comparing type"
  end.

(** ** FieldsComparator *)

Record FieldsComparator := mkFieldsComparator {
  is_ascending_order_ : bool;
  sort_fields_ : list nat;
  comparators_ : list FieldComparatorFunc
}.

Fixpoint create_comparators (types : list ArrowType) (sort_fields : list nat)
    : Result (list FieldComparatorFunc) :=
  match sort_fields with
  | [] => Ok []
  | i :: rest =>
      cmp ← CompareField i (default (OTHER_TYPE "out of range") (types !! i));
      cmps ← create_comparators types rest;
      Ok (cmp :: cmps)
  end.

(** [FieldsComparator::Create] with explicit sort fields. *)
Definition CreateSorted (types : list ArrowType) (sort_fields : list nat) (is_ascending_order : bool)
    : Result FieldsComparator :=
  comparators ← create_comparators types sort_fields;
  Ok (mkFieldsComparator is_ascending_order sort_fields comparators).

(** [FieldsComparator::Create] over all fields in order. *)
Definition Create (types : list ArrowType) (is_ascending_order : bool) : Result FieldsComparator :=
  CreateSorted types (seq 0 (length types)) is_ascending_order.

Definition null_is_last_ret : Z := -1.

(** The body of the loop of [CompareTo] for one field: 0 means the next field
    decides. *)
Definition compare_one (asc : bool) (i : nat) (cmp : FieldComparatorFunc) (lhs rhs : InternalRow) : Z :=
  let lhs_null := IsNullAt lhs i in
  let rhs_null := IsNullAt rhs i in
  if lhs_null && rhs_null then 0
  else if lhs_null then null_is_last_ret
  else if rhs_null then - null_is_last_ret
  else let comp := cmp lhs rhs in if asc then comp else - comp.

Fixpoint compare_loop (asc : bool) (fields : list (nat * FieldComparatorFunc)) (lhs rhs : InternalRow) : Z :=
  match fields with
  | [] => 0
  | (i, cmp) :: rest =>
      let comp := compare_one asc i cmp lhs rhs in
      if comp =? 0 then compare_loop asc rest lhs rhs else comp
  end.

Definition CompareRows (c : FieldsComparator) (lhs rhs : InternalRow) : Z :=
  compare_loop (is_ascending_order_ c) (zip (sort_fields_ c) (comparators_ c)) lhs rhs.

(** ** Laws *)

Lemma laws_bool : @ComparatorLaws bool cmp_bool.
Proof. split; intros [] []; try intros []; unfold CompareTo, cmp_bool; cbn; lia. Qed.

Lemma string_compare_lt_trans (a b c : string) :
  String.compare a b = Lt → String.compare b c = Lt → String.compare a c = Lt.
Proof.
  revert b c. induction a as [|x a IH]; intros [|y b] [|z c]; cbn; try done.
  intros H1 H2. destruct (Ascii.compare x y) eqn:E1; try done; destruct (Ascii.compare y z) eqn:E2; try done.
  - apply Ascii.compare_eq_iff in E1 as ->. rewrite E2. eauto.
  - apply Ascii.compare_eq_iff in E1 as ->. by rewrite E2.
  - apply Ascii.compare_eq_iff in E2 as ->. by rewrite E1.
  - unfold Ascii.compare in *. apply N.compare_lt_iff in E1, E2.
    rewrite (proj2 (N.compare_lt_iff (Ascii.N_of_ascii x) (Ascii.N_of_ascii z))); [done|].
    by etransitivity.
Qed.

Lemma laws_string : @ComparatorLaws string cmp_string.
Proof.
  split; unfold CompareTo, cmp_string.
  - intros a b. rewrite (String.compare_antisym b a). destruct (String.compare a b); done.
  - intros a b c. destruct (String.compare a b) eqn:E1; try lia; destruct (String.compare b c) eqn:E2; try lia; intros _ _.
    + apply String.compare_eq_iff in E1 as ->. rewrite E2. lia.
    + apply String.compare_eq_iff in E1 as ->. rewrite E2. lia.
    + apply String.compare_eq_iff in E2 as ->. rewrite E1. lia.
    + rewrite (string_compare_lt_trans a b c) by done. lia.
Qed.

Lemma laws_timestamp : @ComparatorLaws Timestamp cmp_timestamp.
Proof.
  eapply laws_sgn; [|eapply laws_lex; [exact (laws_proj millisecond_ cmpZ laws_Z)
                                      |exact (laws_proj nano_of_millisecond_ cmpZ laws_Z)]].
  intros [m n] [m' n']. unfold cmp_timestamp, Timestamp_eqb, Timestamp_ltb, cmpZ; cbn.
  destruct (Z.eqb_spec m m'), (Z.eqb_spec n n'), (Z.ltb_spec m m'), (Z.ltb_spec n n'); cbn; try done; lia.
Qed.

(** The order on floats as a lexicographic order: the class (from -infinity up
    to NaN), then for finite non-zero numbers the signed exponent, then the
    signed mantissa. *)
Definition float_class (f : spec_float) : Z :=
  match f with
  | S754_infinity true => 0
  | S754_finite true _ _ => 1
  | S754_zero true => 2
  | S754_zero false => 3
  | S754_finite false _ _ => 4
  | S754_infinity false => 5
  | S754_nan => 6
  end.
Definition float_exp (f : spec_float) : Z :=
  match f with S754_finite s _ e => if s then - e else e | _ => 0 end.
Definition float_mantissa (f : spec_float) : Z :=
  match f with S754_finite s m _ => if s then Z.neg m else Z.pos m | _ => 0 end.

Lemma cmpZ_compare a b : cmpZ a b = match a ?= b with Eq => 0 | Lt => -1 | Gt => 1 end.
Proof.
  unfold cmpZ. destruct (Z.compare_spec a b), (Z.eqb_spec a b), (Z.ltb_spec a b); lia.
Qed.

Lemma laws_float : @ComparatorLaws spec_float CompareFloatingPoint.
Proof.
  eapply laws_sgn;
    [|eapply laws_lex; [exact (laws_proj float_class cmpZ laws_Z)
      |eapply laws_lex; [exact (laws_proj float_exp cmpZ laws_Z)
                        |exact (laws_proj float_mantissa cmpZ laws_Z)]]].
  intros [[]|[]| |[] m e] [[]|[]| |[] m' e']; try reflexivity;
    unfold CompareFloatingPoint, SFeqb, SFltb; cbn; rewrite !cmpZ_compare; cbn.
  - rewrite Z.compare_opp, (Z.compare_antisym e' e).
    destruct (e' ?= e) eqn:E; cbn; [|done|done].
    change (Pos.compare_cont Eq m m') with (m ?= m')%positive.
    destruct (m ?= m')%positive; done.
  - destruct (e ?= e') eqn:E; cbn; [|done|done].
    change (Pos.compare_cont Eq m m') with (m ?= m')%positive.
    destruct (m ?= m')%positive; done.
Qed.

(** Decimals of one scale order by their unscaled values. *)
Lemma GetDecimal_range row i p s : Decimal.in_range (GetDecimal row i p s).
Proof.
  unfold Decimal.in_range, GetDecimal, Int.in_s, Int.wrap_s; cbn [Decimal.value_].
  set (v := match field_at row i with VDecimal d => _ | _ => _ end). clearbody v.
  pose proof (Z.mod_pos_bound v (2 ^ 128) ltac:(lia)).
  change (2 ^ (128 - 1)) with (2 ^ 127). destruct (Z.ltb_spec (v mod 2 ^ 128) (2 ^ 127)); lia.
Qed.

(** Every comparator [CompareField] returns orders the rows, provided decimal
    types have a non-negative scale, as arrow's decimal types do. *)
Definition type_ok (t : ArrowType) : Prop :=
  match t with DECIMAL128 _ s => 0 ≤ s | _ => True end.

Lemma CompareField_laws i t cmp :
  type_ok t → CompareField i t = Ok cmp → @ComparatorLaws InternalRow cmp.
Proof.
  intros Ht. destruct t as [| | | | | | | | | | |p s|]; cbn in *; try discriminate;
    intros [= <-]; try apply (laws_proj _ _ laws_Z).
  - apply (laws_proj (λ r, GetBoolean r i) _ laws_bool).
  - apply (laws_proj (λ r, GetFloating r i) _ laws_float).
  - apply (laws_proj (λ r, GetFloating r i) _ laws_float).
  - apply (laws_proj (λ r, GetStringView r i) _ laws_string).
  - apply (laws_proj (λ r, GetStringView r i) _ laws_string).
  - apply (laws_proj (λ r, GetTimestamp r i) _ laws_timestamp).
  - eapply laws_sgn; [|exact (laws_proj (λ r, Decimal.value_ (GetDecimal r i p s)) _ laws_Z)].
    intros x y. cbn beta. rewrite Decimal.CompareTo_spec by (apply GetDecimal_range || done).
    cbn [Decimal.scale_ GetDecimal]. rewrite Decimal.cmpZ_scale by (apply Z.pow_pos_nonneg; lia).
    unfold cmpZ. destruct (Z.eqb_spec (Decimal.value_ (GetDecimal x i p s)) (Decimal.value_ (GetDecimal y i p s)));
      [done|]. by destruct (_ <? _).
Qed.

(** Nulls first, whatever the direction of the order. *)
Lemma compare_one_laws asc i cmp :
  @ComparatorLaws InternalRow cmp → @ComparatorLaws InternalRow (compare_one asc i cmp).
Proof.
  intros L.
  assert (Lc : @ComparatorLaws InternalRow (λ l r, if asc then cmp l r else - cmp l r)).
  { destruct asc; [done|]. by apply laws_opp. }
  pose proof (@cmp_antisym _ _ Lc) as Ha. pose proof (@cmp_trans _ _ Lc) as Htr.
  unfold CompareTo in Ha, Htr.
  split; unfold CompareTo, compare_one, null_is_last_ret.
  - intros a b. specialize (Ha a b). destruct (IsNullAt a i), (IsNullAt b i); cbn; done.
  - intros a b c. specialize (Htr a b c). destruct (IsNullAt a i), (IsNullAt b i), (IsNullAt c i); cbn in *; lia.
Qed.

Lemma compare_loop_laws asc fields :
  Forall (λ p, @ComparatorLaws InternalRow p.2) fields →
  @ComparatorLaws InternalRow (compare_loop asc fields).
Proof.
  induction 1 as [|[i cmp] fields Hc _ IH]; cbn.
  - apply laws_const.
  - eapply laws_lex; [|exact IH]. apply compare_one_laws, Hc.
Qed.

Lemma create_comparators_laws types sf cmps :
  Forall type_ok types → create_comparators types sf = Ok cmps →
  Forall (λ p, @ComparatorLaws InternalRow p.2) (zip sf cmps).
Proof.
  intros Ht. revert cmps. induction sf as [|i sf IH]; intros cmps; cbn.
  - intros [= <-]. constructor.
  - intros (cmp & Hc & (rest & Hr & [= <-])%bind_Ok)%bind_Ok. cbn. constructor; [|by apply IH].
    cbn. eapply CompareField_laws; [|exact Hc].
    destruct (types !! i) eqn:E; cbn; [|done]. rewrite Forall_lookup in Ht. eauto.
Qed.

(** Every comparator [Create] builds satisfies the laws the merges rely on. *)
Lemma CreateSorted_laws types sf asc c :
  Forall type_ok types → CreateSorted types sf asc = Ok c →
  @ComparatorLaws InternalRow (CompareRows c).
Proof.
  intros Ht (cmps & Hc & [= <-])%bind_Ok. unfold CompareRows; cbn.
  apply compare_loop_laws. by eapply create_comparators_laws.
Qed.

Lemma Create_laws types asc c :
  Forall type_ok types → Create types asc = Ok c → @ComparatorLaws InternalRow (CompareRows c).
Proof. apply CreateSorted_laws. Qed.

(** On rows without nulls in the fields, the descending order is the reversed
    ascending one. *)
Definition non_null (n : nat) (row : InternalRow) : Prop := ∀ i, (i < n)%nat → IsNullAt row i = false.

Lemma compare_loop_reversed fields a b :
  Forall (λ p, IsNullAt a p.1 = false ∧ IsNullAt b p.1 = false) fields →
  compare_loop false fields a b = - compare_loop true fields a b.
Proof.
  induction 1 as [|[i cmp] fields [Ha Hb] _ IH]; [done|]. cbn in Ha, Hb. cbn [compare_loop]. unfold compare_one.
  rewrite Ha, Hb. cbn [andb]. rewrite IH. destruct (Z.eqb_spec (cmp a b) 0), (Z.eqb_spec (- cmp a b) 0); lia.
Qed.
Lemma Create_reversed types c : Create types true = Ok c →
  ∃ c', Create types false = Ok c' ∧
    ∀ a b, non_null (length types) a → non_null (length types) b → CompareRows c' a b = - CompareRows c a b.
Proof.
  unfold Create, CreateSorted. intros (cmps&->&[= <-])%bind_Ok. eexists. split; [done|]. intros a b Ha Hb.
  unfold CompareRows. cbn [is_ascending_order_ sort_fields_ comparators_]. apply compare_loop_reversed, Forall_forall.
  intros [i cmp] Hin. apply elem_of_zip_l, elem_of_seq in Hin. cbn. split; [apply Ha|apply Hb]; lia.
Qed.

Lemma create_comparators_length types sf cmps :
  create_comparators types sf = Ok cmps → length cmps = length sf.
Proof.
  revert cmps. induction sf as [|i sf IH]; intros cmps; cbn; [by intros [= <-]|].
  intros (cmp & _ & (rest & Hr & [= <-])%bind_Ok)%bind_Ok. cbn. by rewrite (IH _ Hr).
Qed.

(** The value [compare_loop] returns is that of the first field which is not
    a tie. *)
Lemma compare_loop_first asc fields l r :
  compare_loop asc fields l r ≠ 0 →
  ∃ pre i cmp post, fields = pre ++ (i, cmp) :: post ∧
    Forall (λ p, compare_one asc p.1 p.2 l r = 0) pre ∧
    compare_loop asc fields l r = compare_one asc i cmp l r.
Proof.
  induction fields as [|[i cmp] fields IH]; cbn [compare_loop]; [done|].
  destruct (Z.eqb_spec (compare_one asc i cmp l r) 0) as [E|E].
  - intros (pre & j & cmp' & post & -> & Hpre & Hval)%IH.
    exists ((i, cmp) :: pre), j, cmp', post. split; [done|]. split; [by constructor|done].
  - intros _. exists [], i, cmp, fields. split; [done|]. split; [constructor|done].
Qed.

Lemma compare_one_null_first asc i cmp l r :
  IsNullAt l i = true → IsNullAt r i = false → compare_one asc i cmp l r < 0.
Proof. unfold compare_one. intros -> ->. cbn. unfold null_is_last_ret. lia. Qed.

(** A comparator built by [FieldsComparator::Create] is a total preorder
    on rows: opposite signs when the arguments are swapped, and transitive.
    It is lexicographic: a non-zero result is that of a sort field all of
    whose predecessors tie, and a null in the first sort field sorts before
    any value, in an ascending and in a descending order alike. *)
Theorem fields_comparator_total_preorder types sf asc c :
  Forall type_ok types → CreateSorted types sf asc = Ok c →
  (∀ l r, Z.sgn (CompareRows c r l) = - Z.sgn (CompareRows c l r)) ∧
  (∀ x y z, CompareRows c x y ≤ 0 → CompareRows c y z ≤ 0 → CompareRows c x z ≤ 0) ∧
  (∀ l r, CompareRows c l r ≠ 0 →
     ∃ pre i cmp post, zip (sort_fields_ c) (comparators_ c) = pre ++ (i, cmp) :: post ∧
       Forall (λ p, compare_one asc p.1 p.2 l r = 0) pre ∧
       CompareRows c l r = compare_one asc i cmp l r) ∧
  (∀ i rest l r, sf = i :: rest → IsNullAt l i = true → IsNullAt r i = false →
     CompareRows c l r < 0).
Proof.
  intros Ht Hc. pose proof (CreateSorted_laws _ _ _ _ Ht Hc) as L.
  pose proof (@cmp_antisym _ _ L) as La. pose proof (@cmp_trans _ _ L) as Lt.
  apply bind_Ok in Hc as (cmps & Hcmps & [= <-]). split_and!; [exact La|exact Lt| |].
  - intros l r Hne. by apply compare_loop_first.
  - intros i rest l r -> Hl Hr. apply create_comparators_length in Hcmps.
    destruct cmps as [|cmp cmps]; [done|]. unfold CompareRows. cbn [zip zip_with sort_fields_ comparators_ compare_loop is_ascending_order_].
    pose proof (compare_one_null_first asc i cmp l r Hl Hr). by destruct (Z.eqb_spec (compare_one asc i cmp l r) 0); lia.
Qed.

Lemma fields_comparator_total_preorder_witness :
  ∃ c, CreateSorted [INT32; DOUBLE; STRING] [2; 0; 1]%nat false = Ok c ∧
  CompareRows c [VInt 1; VDouble (S754_zero true); VNull]
                [VInt 1; VDouble (S754_zero false); VString "k"] < 0 ∧
  0 < CompareRows c [VInt 1; VDouble (S754_zero true); VString "k"]
                    [VInt 1; VDouble (S754_zero false); VString "k"].
Proof.
  eexists. split; [reflexivity|]. split.
  - eapply (fields_comparator_total_preorder [INT32; DOUBLE; STRING] [2; 0; 1]%nat false);
      [repeat constructor|reflexivity..].
  - vm_compute. done.
Defined.
