(* ===== verification/Ranges.v ===== *)
(** * Row ranges

    [Range] (src/paimon/common/utils/range.cpp), [RowRangeIndex]
    (src/paimon/common/utils/row_range_index.cpp) and [RangeHelper]
    (src/paimon/common/utils/range_helper.h). A list of ranges stands for the
    set of the integers in them; the operations are shown to compute the
    corresponding set operations. *)

From stdpp Require Import base list strings sorting.
From Stdlib Require Import ZArith Lia.
From S2P Require Import Prelude.
Local Open Scope Z_scope.

(** ** Range *)

(** Both ends are inclusive; the constructor asserts [from <= to]. *)
Record Range := mkRange { from : Z; to : Z }.

#[export] Instance Range_eq_dec : EqDecision Range.
Proof. solve_decision. Defined.

Definition int64 (x : Z) : Z := Int.wrap_s 64 x.

Definition Count (r : Range) : Z := int64 (int64 (to r - from r) + 1).

Definition Intersection (left right : Range) : option Range :=
  let start := Z.max (from left) (from right) in
  let end_ := Z.min (to left) (to right) in
  if end_ <? start then None else Some (mkRange start end_).

Definition HasIntersection (left right : Range) : bool :=
  let intersection_start := Z.max (from left) (from right) in
  let intersection_end := Z.min (to left) (to right) in
  intersection_start <=? intersection_end.

Definition from_less (left right : Range) : bool := from left <? from right.
Definition Range_ltb (a b : Range) : bool :=
  if from a =? from b then to a <? to b else from a <? from b.

(** The loop of [SortAndMergeOverlap] over the sorted ranges after the first. *)
Fixpoint merge_loop (adjacent : bool) (current : Range) (rest results : list Range) : list Range :=
  match rest with
  | [] => results ++ [current]
  | next :: rest' =>
      if from next <=? int64 (to current + (if adjacent then 1 else 0))
      then merge_loop adjacent (mkRange (from current) (Z.max (to current) (to next))) rest' results
      else merge_loop adjacent next rest' (results ++ [current])
  end.
Definition SortAndMergeOverlap (ranges : list Range) (adjacent : bool) : list Range :=
  match ranges with
  | [] | [_] => ranges
  | _ =>
      match std_sort from_less ranges with
      | [] => []
      | current :: rest => merge_loop adjacent current rest []
      end
  end.

(** [left] and [right] are the parts from the indexes [i] and [j] on. *)
Fixpoint And_loop (fuel : nat) (left right results : list Range) : Result (list Range) :=
  match fuel with
  | O => Err UnknownError "out of fuel"
  | S fuel' =>
      match left, right with
      | lhs :: left', rhs :: right' =>
          let results := results ++ option_list (Intersection lhs rhs) in
          if to lhs <=? to rhs then And_loop fuel' left' right results
          else And_loop fuel' left right' results
      | _, _ => Ok results
      end
  end.
Definition And (left right : list Range) : Result (list Range) :=
  match left, right with
  | [], _ | _, [] => Ok []
  | _, _ => And_loop (length left + length right) left right []
  end.

(** The loop of [Exclude]: the result so far and [current]. *)
Fixpoint Exclude_loop (to_ : Z) (sorted : list Range) (current : Z) (result : list Range) : Z * list Range :=
  match sorted with
  | [] => (current, result)
  | exclude :: sorted' =>
      match Intersection (mkRange current to_) exclude with
      | None => Exclude_loop to_ sorted' current result
      | Some i =>
          let result := if current <? from i then result ++ [mkRange current (int64 (from i - 1))] else result in
          let current := int64 (to i + 1) in
          if to_ <? current then (current, result) else Exclude_loop to_ sorted' current result
      end
  end.
Definition Exclude (this : Range) (ranges : list Range) : list Range :=
  match ranges with
  | [] => [this]
  | _ =>
      let '(current, result) := Exclude_loop (to this) (std_sort from_less ranges) (from this) [] in
      if current <=? to this then result ++ [mkRange current (to this)] else result
  end.

(** *** Sets of integers *)

Definition contains (r : Range) (x : Z) : Prop := from r ≤ x ≤ to r.
Definition covers (rs : list Range) (x : Z) : Prop := ∃ r, r ∈ rs ∧ contains r x.

(** A range of 64-bit integers whose successor is one, too. *)
Definition range_ok (r : Range) : Prop := - 2 ^ 63 ≤ from r ∧ from r ≤ to r ∧ to r < 2 ^ 63 - 1.

(** Ascending, with more than [gap] between one range and the next. *)
Definition separated (gap : Z) (rs : list Range) : Prop :=
  StronglySorted (λ a b, to a + gap < from b) rs.

#[export] Instance covers_perm : Proper ((≡ₚ) ==> eq ==> iff) covers.
Proof. intros rs rs' Hp x _ <-. unfold covers. by setoid_rewrite Hp. Qed.

Lemma covers_nil x : covers [] x ↔ False.
Proof. split; [by intros (?&?%elem_of_nil&_)|done]. Qed.
Lemma covers_cons r rs x : covers (r :: rs) x ↔ contains r x ∨ covers rs x.
Proof.
  unfold covers. setoid_rewrite elem_of_cons. split.
  - intros (r'&[->|H]&Hx); eauto.
  - intros [H|(r'&H&Hx)]; eauto.
Qed.
Lemma covers_app rs rs' x : covers (rs ++ rs') x ↔ covers rs x ∨ covers rs' x.
Proof. induction rs as [|r rs IH]; cbn; rewrite ?covers_nil, ?covers_cons, ?IH; tauto. Qed.

Create Rewrite HintDb ranges.
#[export] Hint Rewrite covers_nil covers_cons covers_app : ranges.

Lemma int64_id x : - 2 ^ 63 ≤ x < 2 ^ 63 → int64 x = x.
Proof. intros. by apply Int.wrap_s_id. Qed.

Lemma Intersection_spec l r x :
  (∃ i, Intersection l r = Some i ∧ contains i x) ↔ contains l x ∧ contains r x.
Proof.
  unfold Intersection, contains. destruct (Z.ltb_spec (Z.min (to l) (to r)) (Z.max (from l) (from r))); split.
  - by intros (i&[=]&_).
  - lia.
  - intros (i&[= <-]&Hi). cbn in Hi. lia.
  - intros. eexists. split; [done|]. cbn. lia.
Qed.
Lemma Intersection_ok l r i : range_ok l → Intersection l r = Some i → range_ok i ∧ from l ≤ from i ∧ to i ≤ to l.
Proof.
  unfold range_ok, Intersection. destruct (Z.ltb_spec (Z.min (to l) (to r)) (Z.max (from l) (from r))); [done|].
  intros Hl [= <-]. cbn. lia.
Qed.

Lemma from_less_sorted rs : StronglySorted (λ a b, from a ≤ from b) (std_sort from_less rs).
Proof.
  assert (E : ∀ a b, not_after from_less a b ↔ from a ≤ from b).
  { intros a b. unfold not_after, from_less. by rewrite Z.ltb_ge. }
  assert (Hs : StronglySorted (not_after from_less) (std_sort from_less rs)).
  { apply std_sort_sorted; [intros a b|intros a b c]; rewrite !E; lia. }
  induction Hs as [|x l _ IH Hx]; constructor; [done|]. eapply Forall_impl; [exact Hx|]. intros y. apply E.
Qed.

Lemma separated_snoc gap rs r :
  separated gap (rs ++ [r]) ↔ separated gap rs ∧ ∀ a, a ∈ rs → to a + gap < from r.
Proof.
  unfold separated. split.
  - intros H. split; [by eapply StronglySorted_app_1_l|]. intros a Ha.
    apply (StronglySorted_app_1_elem_of (λ a b, to a + gap < from b) rs [r]); [done..|by left].
  - intros [H1 H2]. induction H1 as [|x l _ IH Hx]; cbn; [repeat constructor|].
    constructor; [apply IH; intros; apply H2; by right|].
    apply Forall_app. split; [done|]. constructor; [apply H2; by left|done].
Qed.

Lemma merge_loop_spec (adjacent : bool) current rest results :
  let gap := if adjacent then 1 else 0 in
  range_ok current → Forall range_ok rest → Forall range_ok results →
  StronglySorted (λ a b, from a ≤ from b) (current :: rest) →
  separated gap results → (∀ a, a ∈ results → to a + gap < from current) →
  let out := merge_loop adjacent current rest results in
  Forall range_ok out ∧ separated gap out ∧
  ∀ x, covers out x ↔ covers results x ∨ contains current x ∨ covers rest x.
Proof.
  intros gap. revert current results. induction rest as [|next rest IH]; intros current results Hc Hr Hres Hs Hsep Hlt; cbn.
  - split_and!; [by apply Forall_app; split; [|constructor]|by apply separated_snoc|].
    intros x. autorewrite with ranges. tauto.
  - inversion_clear Hr as [|?? Hn Hr']. inversion_clear Hs as [|?? Hs' Hcn].
    inversion_clear Hcn as [|?? Hfn Hcr]. fold gap.
    assert (Hgap : 0 ≤ gap ≤ 1) by (subst gap; destruct adjacent; lia).
    unfold range_ok in Hc, Hn. rewrite int64_id by lia.
    inversion_clear Hs' as [|?? Hs2 Hnr].
    destruct (Z.leb_spec (from next) (to current + gap)) as [Hle|Hgt].
    + destruct (IH (mkRange (from current) (Z.max (to current) (to next))) results) as (H1&H2&H3); try done.
      * unfold range_ok. cbn. lia.
      * constructor; [done|]. exact Hcr.
      * split_and!; [done..|]. intros x. rewrite H3, covers_cons.
        assert (contains (mkRange (from current) (Z.max (to current) (to next))) x ↔ contains current x ∨ contains next x)
          by (unfold contains; cbn; lia). tauto.
    + destruct (IH next (results ++ [current])) as (H1&H2&H3); try done.
      * apply Forall_app. by split; [|constructor].
      * by constructor.
      * by apply separated_snoc.
      * intros a [Ha|Ha%list_elem_of_singleton]%elem_of_app; [specialize (Hlt a Ha); lia|by subst a].
      * split_and!; [done..|]. intros x. rewrite H3. autorewrite with ranges. tauto.
Qed.

Lemma SortAndMergeOverlap_spec ranges adjacent : Forall range_ok ranges →
  let out := SortAndMergeOverlap ranges adjacent in
  Forall range_ok out ∧ separated (if adjacent then 1 else 0) out ∧ ∀ x, covers out x ↔ covers ranges x.
Proof.
  intros Hr. cbn. unfold SortAndMergeOverlap. destruct ranges as [|r1 [|r2 rs]].
  - split_and!; [done|constructor|done].
  - split_and!; [done|repeat constructor|done].
  - set (ranges := r1 :: r2 :: rs) in *.
    pose proof (std_sort_Permutation from_less ranges) as Hp. pose proof (from_less_sorted ranges) as Hs.
    destruct (std_sort from_less ranges) as [|c rest]; [by apply Permutation_nil_l in Hp|].
    rewrite <-Hp in Hr. inversion_clear Hr as [|?? Hc Hrest].
    destruct (merge_loop_spec adjacent c rest []) as (H1&H2&H3); try done; [constructor|by intros a ?%elem_of_nil|].
    split_and!; [done..|]. intros x. rewrite H3, <-Hp. autorewrite with ranges. tauto.
Qed.

(** Ranges that are equal or have no integer in common are merged only with
    their equals. *)
Definition apart (a b : Range) : Prop := a = b ∨ to a < from b ∨ to b < from a.
Definition linked (ranges : list Range) (r : Range) : Prop :=
  (∃ a, a ∈ ranges ∧ from a = from r) ∧ (∃ b, b ∈ ranges ∧ to b = to r) ∧
  ∀ x, from r ≤ x < to r → ∃ c, c ∈ ranges ∧ contains c x ∧ contains c (x + 1).

Lemma linked_self ranges r : r ∈ ranges → linked ranges r.
Proof. intros Hr. split_and!; [by exists r..|]. intros x Hx. exists r. unfold contains. split_and!; [done|lia..]. Qed.
Lemma linked_merge ranges a b : linked ranges a → b ∈ ranges → from b ≤ to a → linked ranges (mkRange (from a) (Z.max (to a) (to b))).
Proof.
  intros (Hfrom&Hto&Hmid) Hb Hle. unfold linked. cbn. split_and!; [done| |].
  - destruct (Z.max_spec (to a) (to b)) as [[_ ->]|[_ ->]]; [by exists b|done].
  - intros x Hx. destruct (Z.lt_ge_cases x (to a)) as [Hlt|Hge]; [apply Hmid; lia|]. exists b. unfold contains. split_and!; [done|lia..].
Qed.
Lemma merge_loop_linked ranges current rest results : Forall range_ok ranges → Forall (linked ranges) results → linked ranges current →
  (∀ r, r ∈ rest → r ∈ ranges) → Forall (linked ranges) (merge_loop false current rest results).
Proof.
  intros Hok. rewrite Forall_forall in Hok. revert current results. induction rest as [|next rest IH]; intros current results Hres Hc Hin; cbn [merge_loop].
  { apply Forall_app. by split; [|constructor]. }
  assert (Hnext : next ∈ ranges) by (apply Hin; by left). assert (Hrest : ∀ r, r ∈ rest → r ∈ ranges) by (intros r Hr; apply Hin; by right).
  pose proof Hc as (_&(b&Hb&Eb)&_). destruct (Hok b Hb) as (?&?&?). rewrite Z.add_0_r, int64_id by lia.
  destruct (Z.leb_spec (from next) (to current)); apply IH; try done.
  - by apply linked_merge.
  - apply Forall_app. by split; [|constructor].
  - by apply linked_self.
Qed.
Lemma SortAndMergeOverlap_linked ranges : Forall range_ok ranges → Forall (linked ranges) (SortAndMergeOverlap ranges false).
Proof.
  intros Hok. unfold SortAndMergeOverlap. destruct ranges as [|r1 [|r2 rs]]; [constructor|constructor; [apply linked_self; by left|constructor]|].
  set (ranges := r1 :: r2 :: rs) in *. pose proof (std_sort_Permutation from_less ranges) as Hp.
  assert (Hin : ∀ r, r ∈ std_sort from_less ranges → r ∈ ranges) by (intros r; by rewrite Hp).
  destruct (std_sort from_less ranges) as [|c rest]; [constructor|].
  apply merge_loop_linked; [done|constructor|apply linked_self, Hin; by left|]. intros r Hr. apply Hin. by right.
Qed.
Lemma merged_exact ranges r : Forall range_ok ranges → (∀ a b, a ∈ ranges → b ∈ ranges → apart a b) →
  r ∈ SortAndMergeOverlap ranges false → r ∈ ranges.
Proof.
  intros Hok Hap Hr. pose proof (SortAndMergeOverlap_linked ranges Hok) as Hl. rewrite Forall_forall in Hl, Hok.
  destruct (Hl r Hr) as ((a&Ha&Ea)&(b&Hb&Eb)&Hmid). destruct (Hok a Ha) as (_&?&_). destruct (Hok b Hb) as (_&?&_).
  assert (from r ≤ to r).
  { pose proof (SortAndMergeOverlap_spec ranges false ltac:(by apply Forall_forall)) as (H1&_). rewrite Forall_forall in H1. by apply H1. }
  assert (Et : to a = to r).
  { destruct (Z.lt_trichotomy (to a) (to r)) as [Hlt|[?|Hgt]]; [exfalso|done|exfalso].
    - destruct (Hmid (to a)) as (c&Hc&[? ?]&[? ?]); [lia|]. destruct (Hap a c Ha Hc) as [<-|?]; lia.
    - destruct (Hap a b Ha Hb) as [<-|?]; lia. }
  destruct a, r. cbn in *. by subst.
Qed.

(** *** And *)

(** A range that ends before a sorted list begins meets none of it. *)
Lemma covers_after gap x y rs : 0 ≤ gap → separated gap (y :: rs) → x ≤ to y → covers rs x → False.
Proof.
  intros Hg Hs Hx (r&Hr&Hc). inversion_clear Hs as [|?? _ Hy]. rewrite Forall_forall in Hy.
  specialize (Hy r Hr). unfold contains in Hc. lia.
Qed.

Lemma And_loop_spec fuel left right results :
  (length left + length right ≤ fuel)%nat → (1 ≤ fuel)%nat →
  separated 0 left → separated 0 right → separated 0 results →
  (∀ a x, a ∈ results → covers left x → covers right x → to a < x) →
  ∃ out, And_loop fuel left right results = Ok out ∧ separated 0 out ∧
    ∀ x, covers out x ↔ covers results x ∨ covers left x ∧ covers right x.
Proof.
  revert left right results. induction fuel as [|fuel IH]; intros left right results Hf Hf1 Hl Hr Hres Hlt; [lia|].
  destruct left as [|lhs left'], right as [|rhs right'];
    try (exists results; split_and!; [done..|intros x; autorewrite with ranges; tauto]).
  cbn [And_loop]. set (out := results ++ option_list (Intersection lhs rhs)). cbn in Hf.
  assert (Hout : ∀ x, covers out x ↔ covers results x ∨ contains lhs x ∧ contains rhs x).
  { intros x. subst out. rewrite covers_app, <-Intersection_spec. unfold covers at 2. by setoid_rewrite list_elem_of_option. }
  assert (Hend : ∀ i, Intersection lhs rhs = Some i → contains lhs (from i) ∧ contains rhs (from i) ∧
            to i = Z.min (to lhs) (to rhs)).
  { intros i. unfold Intersection. destruct (Z.ltb_spec (Z.min (to lhs) (to rhs)) (Z.max (from lhs) (from rhs))); [done|].
    intros [= <-]. unfold contains. cbn. lia. }
  assert (Hsep : separated 0 out).
  { subst out. destruct (Intersection lhs rhs) as [i|] eqn:Ei; cbn; [|by rewrite app_nil_r].
    destruct (Hend i eq_refl) as (H1&H2&_). apply separated_snoc. split; [done|]. intros a Ha.
    rewrite Z.add_0_r. apply Hlt; rewrite ?covers_cons; auto. }
  assert (Hold : ∀ a x, a ∈ out → covers (lhs :: left') x → covers (rhs :: right') x →
            to a < x ∨ to a ≤ to lhs ∧ to a ≤ to rhs).
  { intros a x [Ha|Ha%list_elem_of_option]%elem_of_app H1 H2; [left; by apply Hlt|]. right.
    destruct (Hend a Ha) as (_&_&->). lia. }
  destruct (Z.leb_spec (to lhs) (to rhs)) as [Hle|Hgt].
  - destruct (IH left' (rhs :: right') out) as (o&E&Ho&Hx); [cbn; lia|cbn in *; lia|by inversion Hl|done|done| |].
    + intros a x Ha H1 H2. destruct (Z.le_gt_cases x (to lhs)); [by destruct (covers_after 0 x lhs left')|].
      destruct (Hold a x Ha) as [|[? ?]]; [rewrite covers_cons; by right|done|done|lia].
    + exists o. split_and!; [done..|]. intros x. rewrite Hx, Hout, !covers_cons.
      assert (contains lhs x → covers right' x → False).
      { intros [_ H]. apply (covers_after 0 x rhs); [done..|lia]. } tauto.
  - destruct (IH (lhs :: left') right' out) as (o&E&Ho&Hx); [cbn; lia|cbn in *; lia|done|by inversion Hr|done| |].
    + intros a x Ha H1 H2. destruct (Z.le_gt_cases x (to rhs)); [by destruct (covers_after 0 x rhs right')|].
      destruct (Hold a x Ha) as [|[? ?]]; [done|rewrite covers_cons; by right|done|lia].
    + exists o. split_and!; [done..|]. intros x. rewrite Hx, Hout, !covers_cons.
      assert (contains rhs x → covers left' x → False).
      { intros [_ H]. apply (covers_after 0 x lhs); [done..|lia]. } tauto.
Qed.

Lemma And_spec left right : separated 0 left → separated 0 right →
  ∃ out, And left right = Ok out ∧ separated 0 out ∧ ∀ x, covers out x ↔ covers left x ∧ covers right x.
Proof.
  intros Hl Hr. unfold And. destruct left as [|l ls], right as [|r rs];
    try (exists []; split_and!; [done|constructor|intros x; autorewrite with ranges; tauto]).
  destruct (And_loop_spec (length (l :: ls) + length (r :: rs)) (l :: ls) (r :: rs) []) as (out&E&Hs&Hx);
    [lia|cbn; lia|done|done|constructor|by intros a x ?%elem_of_nil|].
  exists out. split_and!; [done..|]. intros x. rewrite Hx, covers_nil. tauto.
Qed.

(** *** Exclude *)

(** One exclusion [e] of the part from [current] on, before the later ones. *)
Lemma Exclude_step hi current e sorted i :
  range_ok (mkRange current hi) → range_ok e → Forall (λ b, from e ≤ from b) sorted →
  Intersection (mkRange current hi) e = Some i →
  range_ok i ∧ current ≤ from i ∧ to i ≤ hi ∧
  (∀ x, current ≤ x ≤ to i → ¬ covers (e :: sorted) x ↔ x < from i) ∧
  (to i < hi → ∀ x, to i < x → covers (e :: sorted) x ↔ covers sorted x).
Proof.
  intros Hc He Hs Hi. destruct (Intersection_ok _ _ _ Hc Hi) as (Hok&H1&H2). cbn in H1, H2.
  split_and!; [done..| |]; unfold Intersection in Hi; cbn in Hi;
    destruct (Z.ltb_spec (Z.min hi (to e)) (Z.max current (from e))); try done; injection Hi as <-; cbn in *.
  - intros x Hx. rewrite covers_cons. unfold contains. split.
    + intros Hn. destruct (Z.lt_ge_cases x (Z.max current (from e))); [done|]. destruct Hn. left. lia.
    + intros Hlt [Hin|(r&Hr&Hin)]; [lia|]. rewrite Forall_forall in Hs. specialize (Hs r Hr). unfold contains in Hin. lia.
  - intros Hlt x Hx. rewrite covers_cons. unfold contains. intuition lia.
Qed.

Lemma Exclude_loop_spec hi sorted current result :
  range_ok (mkRange current hi) → Forall range_ok sorted →
  StronglySorted (λ a b, from a ≤ from b) sorted →
  separated 0 result → (∀ a, a ∈ result → to a < current) →
  let '(current', result') := Exclude_loop hi sorted current result in
  current ≤ current' ∧ separated 0 result' ∧ (∀ a, a ∈ result' → to a < current') ∧
  (∀ x, covers result' x ↔ covers result x ∨ current ≤ x < current' ∧ x ≤ hi ∧ ¬ covers sorted x) ∧
  (∀ x, current' ≤ x ≤ hi → ¬ covers sorted x) ∧ current' ≤ hi + 1.
Proof.
  revert current result. induction sorted as [|e sorted IH]; intros current result Hc Hok Hs Hsep Hres; cbn [Exclude_loop].
  { pose proof Hc as (_&?&_). cbn in *. split_and!; [lia|done|done|intros x; intuition lia|by intros x _ ?%covers_nil|lia]. }
  inversion_clear Hok as [|?? He Hok']. inversion_clear Hs as [|?? Hs' Hfrom].
  destruct (Intersection (mkRange current hi) e) as [i|] eqn:Ei.
  2: { specialize (IH current result Hc Hok' Hs' Hsep Hres).
       destruct (Exclude_loop hi sorted current result) as [c' r']. destruct IH as (H1&H2&H3&H4&H5&H6).
       assert (Hno : ∀ x, current ≤ x ≤ hi → covers (e :: sorted) x ↔ covers sorted x).
       { intros x Hx. rewrite covers_cons. split; [|by right]. intros [Hin|]; [|done].
         destruct (proj2 (Intersection_spec (mkRange current hi) e x)) as (j&Ej&_); [by split|congruence]. }
       split_and!; [done..| | |done].
       - intros x. rewrite H4. destruct (decide (current ≤ x ≤ hi)); [by rewrite Hno by lia|intuition lia].
       - intros x Hx. rewrite Hno by lia. by apply H5. }
  destruct (Exclude_step hi current e sorted i Hc He Hfrom Ei) as ((Hi1&Hi2&Hi3)&Hci&Hih&Hbefore&Hafter).
  destruct Hc as (Hc1&Hc2&Hc3). cbn in Hc1, Hc2, Hc3. rewrite (int64_id (to i + 1)) by lia.
  set (result1 := if current <? from i then result ++ [mkRange current (int64 (from i - 1))] else result).
  assert (H1 : separated 0 result1 ∧ (∀ a, a ∈ result1 → to a < to i + 1) ∧
               ∀ x, covers result1 x ↔ covers result x ∨ current ≤ x < from i).
  { subst result1. destruct (Z.ltb_spec current (from i)).
    - rewrite int64_id by lia. split_and!.
      + apply separated_snoc. split; [done|]. intros a Ha. specialize (Hres a Ha). cbn. lia.
      + intros a [Ha|Ha%list_elem_of_singleton]%elem_of_app; [specialize (Hres a Ha)|subst a; cbn]; lia.
      + intros x. autorewrite with ranges. unfold contains. cbn. intuition lia.
    - split_and!; [done|intros a Ha; specialize (Hres a Ha); lia|intros x; intuition lia]. }
  destruct H1 as (Hsep1&Hres1&Hcov1). destruct (Z.ltb_spec hi (to i + 1)) as [Hend|Hgo].
  - split_and!; [lia|done|done| |intros x; lia|lia]. intros x. rewrite Hcov1.
    destruct (decide (current ≤ x ≤ to i)) as [Hx|Hx]; [|intuition lia]. rewrite Hbefore by lia. intuition lia.
  - specialize (IH (to i + 1) result1). destruct (Exclude_loop hi sorted (to i + 1) result1) as [c' r'].
    destruct IH as (J1&J2&J3&J4&J5&J6); [unfold range_ok; cbn; lia|done..|].
    split_and!; [lia|done|done| | |done].
    + intros x. rewrite J4, Hcov1. destruct (decide (current ≤ x ≤ to i)) as [Hx|Hx]; [rewrite Hbefore by lia; intuition lia|].
      destruct (decide (to i < x)); [rewrite Hafter by lia; intuition lia|intuition lia].
    + intros x Hx. rewrite Hafter by lia. by apply J5.
Qed.

Lemma Exclude_spec this ranges : range_ok this → Forall range_ok ranges →
  let out := Exclude this ranges in
  separated 0 out ∧ ∀ x, covers out x ↔ contains this x ∧ ¬ covers ranges x.
Proof.
  intros Ht Hr. cbn. unfold Exclude. destruct ranges as [|r rs].
  { split; [repeat constructor|]. intros x. autorewrite with ranges. tauto. }
  set (ranges := r :: rs) in *. pose proof (std_sort_Permutation from_less ranges) as Hp.
  pose proof (Exclude_loop_spec (to this) (std_sort from_less ranges) (from this) []) as H.
  destruct this as [lo hi]. cbn [from to] in *.
  destruct (Exclude_loop hi (std_sort from_less ranges) lo []) as [c out].
  destruct H as (H1&H2&H3&H4&H5&H6); [done|by rewrite Hp|apply from_less_sorted|constructor|by intros a ?%elem_of_nil|].
  assert (Hx : ∀ x, covers out x ↔ lo ≤ x < c ∧ x ≤ hi ∧ ¬ covers ranges x).
  { intros x. rewrite H4, covers_nil, Hp. tauto. }
  assert (Hrest : ∀ x, c ≤ x ≤ hi → ¬ covers ranges x) by (intros x ?; rewrite <-Hp; by apply H5).
  destruct (Z.leb_spec c hi).
  - split; [apply separated_snoc; split; [done|]; intros a Ha; rewrite Z.add_0_r; by apply H3|].
    intros x. autorewrite with ranges. rewrite Hx. unfold contains. cbn. specialize (Hrest x). destruct (Z.le_gt_cases c x); intuition lia.
  - split; [done|]. intros x. rewrite Hx. unfold contains. cbn. intuition lia.
Qed.

(** ** RowRangeIndex *)

Module RowRangeIndex.
Record t := mk { ranges_ : list Range; starts_ : list Z; ends_ : list Z }.

Definition create (ranges : list Range) : t := mk ranges (from <$> ranges) (to <$> ranges).
Definition Create (ranges : list Range) (merge_adjacent : bool) : Result t :=
  Ok (create (SortAndMergeOverlap ranges merge_adjacent)).

(** [operator[]] of a vector; an index out of bounds is undefined. *)
Definition at_ {A} (l : list A) (i : nat) : Result A :=
  match l !! i with Some x => Ok x | None => Err UnknownError "index out of bounds" end.

Fixpoint LowerBound_loop (fuel : nat) (ends : list Z) (target : Z) (left right : nat) : Result nat :=
  match fuel with
  | O => Err UnknownError "out of fuel"
  | S fuel' =>
      if (left <? right)%nat then
        let mid := (left + (right - left) / 2)%nat in
        e ← at_ ends mid;
        if e <? target then LowerBound_loop fuel' ends target (mid + 1) right
        else LowerBound_loop fuel' ends target left mid
      else Ok left
  end.
Definition LowerBound (idx : t) (target : Z) : Result nat :=
  LowerBound_loop (S (length (ends_ idx))) (ends_ idx) target 0 (length (ends_ idx)).

Definition Intersects (idx : t) (start end_ : Z) : Result bool :=
  candidate ← LowerBound idx start;
  if (candidate <? length (starts_ idx))%nat then s ← at_ (starts_ idx) candidate; Ok (s <=? end_) else Ok false.

Definition Contains (idx : t) (range : Range) : Result bool :=
  candidate ← LowerBound idx (from range);
  if (candidate <? length (ranges_ idx))%nat then
    r ← at_ (ranges_ idx) candidate; Ok ((from r <=? from range) && (to range <=? to r))
  else Ok false.

Definition ContainsExactly (idx : t) (range : Range) : Result bool :=
  candidate ← LowerBound idx (from range);
  if (candidate <? length (ranges_ idx))%nat then
    r ← at_ (ranges_ idx) candidate; Ok (bool_decide (r = range))
  else Ok false.

Definition IntersectedRanges (idx : t) (start end_ : Z) : Result (list Range) :=
  left ← LowerBound idx start;
  if (length (ranges_ idx) <=? left)%nat then Ok []
  else
    right ← LowerBound idx end_;
    let right := if (length (ranges_ idx) <=? right)%nat then (length (ranges_ idx) - 1)%nat else right in
    s ← at_ (starts_ idx) left;
    if end_ <? s then Ok []
    else
      first_range ← at_ (ranges_ idx) left;
      let expected := [mkRange (Z.max start (from first_range)) (Z.min end_ (to first_range))] in
      let expected := expected ++ take (right - (left + 1)) (drop (left + 1) (ranges_ idx)) in
      if (right =? left)%nat then Ok expected
      else
        last_range ← at_ (ranges_ idx) right;
        if from last_range <=? end_
        then Ok (expected ++ [mkRange (Z.max start (from last_range)) (Z.min end_ (to last_range))])
        else Ok expected.

(** *** Binary search *)

Lemma at_lookup {A} (l : list A) i x : l !! i = Some x → at_ l i = Ok x.
Proof. unfold at_. by intros ->. Qed.

Lemma LowerBound_loop_spec fuel (ends : list Z) target left right :
  (right - left < fuel)%nat → (left ≤ right ≤ length ends)%nat →
  StronglySorted Z.le ends →
  (∀ j e, (j < left)%nat → ends !! j = Some e → e < target) →
  (∀ j e, (right ≤ j)%nat → ends !! j = Some e → target ≤ e) →
  ∃ i, LowerBound_loop fuel ends target left right = Ok i ∧ (left ≤ i ≤ right)%nat ∧
    (∀ j e, (j < i)%nat → ends !! j = Some e → e < target) ∧
    (∀ j e, (i ≤ j)%nat → ends !! j = Some e → target ≤ e).
Proof.
  revert left right. induction fuel as [|fuel IH]; intros left right Hf Hb Hs Hlo Hhi; [lia|].
  cbn [LowerBound_loop]. destruct (Nat.ltb_spec left right) as [Hlt|].
  2: { exists left. split_and!; [done|lia|lia|done|]. intros j e Hj. apply Hhi. lia. }
  pose proof (Nat.div_lt (right - left) 2 ltac:(lia) ltac:(lia)) as Hd.
  set (mid := (left + (right - left) / 2)%nat) in *. assert (Hm : (left ≤ mid < right)%nat) by (subst mid; lia).
  destruct (lookup_lt_is_Some_2 ends mid) as [e He]; [lia|]. rewrite (at_lookup _ _ _ He). cbn [mbind Result_bind].
  assert (Hmono : ∀ j1 j2 e1 e2, (j1 ≤ j2)%nat → ends !! j1 = Some e1 → ends !! j2 = Some e2 → e1 ≤ e2).
  { intros j1 j2 e1 e2 Hj H1 H2. destruct (decide (j1 = j2)) as [->|]; [simplify_eq; lia|].
    apply (sorted_lookup Z.le ends j1 j2); [done|lia|done..]. }
  destruct (Z.ltb_spec e target).
  - destruct (IH (mid + 1)%nat right) as (i&E&Hi&H1&H2); [lia|lia|done| |done|exists i; split_and!; (done || lia)].
    intros j e' Hj He'. specialize (Hmono j mid e' e ltac:(lia) He' He). lia.
  - destruct (IH left mid) as (i&E&Hi&H1&H2); [lia|lia|done|done| |exists i; split_and!; (done || lia)].
    intros j e' Hj He'. specialize (Hmono mid j e e' ltac:(lia) He He'). lia.
Qed.

Lemma ends_sorted rs : separated 0 rs → Forall range_ok rs → StronglySorted Z.le (to <$> rs).
Proof.
  unfold separated. induction 1 as [|r rs _ IH Hr]; intros Hok; cbn; [constructor|]. inversion_clear Hok as [|?? _ Hok'].
  constructor; [by apply IH|]. apply Forall_fmap, Forall_forall. intros b Hb.
  rewrite Forall_forall in Hr, Hok'. specialize (Hr b Hb). destruct (Hok' b Hb) as (_&?&_). cbn. lia.
Qed.

Section Index.
Context (rs : list Range) (Hsep : separated 0 rs) (Hok : Forall range_ok rs).

Lemma lookup_ok j r : rs !! j = Some r → range_ok r.
Proof. rewrite Forall_lookup in Hok. apply Hok. Qed.
Lemma lookup_before j j' r r' : (j < j')%nat → rs !! j = Some r → rs !! j' = Some r' → to r < from r'.
Proof.
  intros Hj Hr Hr'. pose proof (sorted_lookup _ rs j j' r r' Hsep Hj Hr Hr') as H. cbn in H. lia.
Qed.

(** [i] splits the ranges into those before [target] and the others. *)
Definition splits (target : Z) (i : nat) : Prop :=
  (i ≤ length rs)%nat ∧ (∀ j r, (j < i)%nat → rs !! j = Some r → to r < target) ∧
  (∀ j r, (i ≤ j)%nat → rs !! j = Some r → target ≤ to r).

Lemma LowerBound_spec target : ∃ i, LowerBound (create rs) target = Ok i ∧ splits target i.
Proof.
  unfold LowerBound. cbn [create ends_]. rewrite length_fmap.
  destruct (LowerBound_loop_spec (S (length rs)) (to <$> rs) target 0 (length rs)) as (i&E&Hi&H1&H2).
  - lia.
  - rewrite length_fmap. lia.
  - by apply ends_sorted.
  - lia.
  - intros j e Hj He%lookup_lt_Some. rewrite length_fmap in He. lia.
  - exists i. split; [done|]. split_and!; [lia| |].
    + intros j r Hj Hr. apply (H1 j); [done|]. by rewrite list_lookup_fmap, Hr.
    + intros j r Hj Hr. apply (H2 j); [done|]. by rewrite list_lookup_fmap, Hr.
Qed.

Lemma Intersects_spec start end_ : start ≤ end_ →
  ∃ b, Intersects (create rs) start end_ = Ok b ∧ (b = true ↔ ∃ x, start ≤ x ≤ end_ ∧ covers rs x).
Proof.
  intros Hse. unfold Intersects. destruct (LowerBound_spec start) as (i&->&Hi&Hlo&Hhi). cbn [mbind Result_bind create starts_].
  rewrite length_fmap. destruct (Nat.ltb_spec i (length rs)) as [Hlt|Hge].
  - destruct (lookup_lt_is_Some_2 rs i Hlt) as [r Hr]. rewrite (at_lookup _ _ (from r)) by (by rewrite list_lookup_fmap, Hr).
    cbn [mbind Result_bind]. eexists. split; [done|]. rewrite Z.leb_le. split.
    + intros Hf. exists (Z.max start (from r)). specialize (Hhi i r ltac:(lia) Hr).
      destruct (lookup_ok i r Hr) as (_&?&_). split; [lia|]. exists r. split; [by eapply list_elem_of_lookup_2|].
      unfold contains. lia.
    + intros (x&Hx&r'&[j Hj]%list_elem_of_lookup&Hc). unfold contains in Hc.
      destruct (Nat.lt_trichotomy i j) as [Hij|[->|Hij]].
      * pose proof (lookup_before i j r r' Hij Hr Hj). destruct (lookup_ok i r Hr) as (_&?&_). lia.
      * simplify_eq. lia.
      * specialize (Hlo j r' Hij Hj). lia.
  - exists false. split; [done|]. split; [done|]. intros (x&Hx&r&[j Hj]%list_elem_of_lookup&Hc).
    unfold contains in Hc. specialize (Hlo j r ltac:(apply lookup_lt_Some in Hj; lia) Hj). lia.
Qed.

(** The candidate is the only range that may contain [from range]. *)
Lemma candidate_only range i j r : splits (from range) i → range_ok range → rs !! j = Some r →
  from r ≤ from range → from range ≤ to r → i = j.
Proof.
  intros (Hi&Hlo&Hhi) Hr Hj Hf Ht. destruct (Nat.lt_trichotomy i j) as [Hij|[|Hij]]; [|done|].
  - destruct (lookup_lt_is_Some_2 rs i) as [r' Hr']; [apply lookup_lt_Some in Hj; lia|].
    specialize (Hhi i r' ltac:(lia) Hr'). pose proof (lookup_before i j r' r Hij Hr' Hj). lia.
  - specialize (Hlo j r Hij Hj). lia.
Qed.

Lemma Contains_spec range : range_ok range →
  ∃ b, Contains (create rs) range = Ok b ∧
    (b = true ↔ ∃ r, r ∈ rs ∧ from r ≤ from range ∧ to range ≤ to r).
Proof.
  intros Hr. unfold Contains. destruct (LowerBound_spec (from range)) as (i&->&Hs). cbn [mbind Result_bind create ranges_].
  pose proof Hr as (_&Hft&_).
  destruct (Nat.ltb_spec i (length rs)) as [Hlt|Hge].
  - destruct (lookup_lt_is_Some_2 rs i Hlt) as [r Hri]. rewrite (at_lookup _ _ _ Hri). cbn [mbind Result_bind].
    eexists. split; [done|]. rewrite andb_true_iff, !Z.leb_le. split.
    + intros. exists r. split; [by eapply list_elem_of_lookup_2|done].
    + intros (r'&[j Hj]%list_elem_of_lookup&H1&H2).
      assert (i = j) as -> by (eapply candidate_only; [done..|lia]). simplify_eq. done.
  - exists false. split; [done|]. split; [done|]. intros (r'&[j Hj]%list_elem_of_lookup&H1&H2).
    assert (i = j) as -> by (eapply candidate_only; [done..|lia]). apply lookup_lt_Some in Hj. lia.
Qed.

Lemma ContainsExactly_spec range : range_ok range →
  ∃ b, ContainsExactly (create rs) range = Ok b ∧ (b = true ↔ range ∈ rs).
Proof.
  intros Hr. unfold ContainsExactly. destruct (LowerBound_spec (from range)) as (i&->&Hs). cbn [mbind Result_bind create ranges_].
  pose proof Hr as (_&Hft&_).
  destruct (Nat.ltb_spec i (length rs)) as [Hlt|Hge].
  - destruct (lookup_lt_is_Some_2 rs i Hlt) as [r Hri]. rewrite (at_lookup _ _ _ Hri). cbn [mbind Result_bind].
    eexists. split; [done|]. rewrite bool_decide_eq_true. split.
    + intros ->. by eapply list_elem_of_lookup_2.
    + intros [j Hj]%list_elem_of_lookup.
      assert (i = j) as -> by (eapply candidate_only; [done..|lia]). congruence.
  - exists false. split; [done|]. split; [done|]. intros [j Hj]%list_elem_of_lookup.
    assert (i = j) as -> by (eapply candidate_only; [done..|lia]). apply lookup_lt_Some in Hj. lia.
Qed.

(** *** The sub-ranges within an interval *)

Context (start end_ : Z) (Hse : start ≤ end_).
Abbreviation clip := (Intersection (mkRange start end_)).

Lemma clip_none r : to r < start ∨ end_ < from r → clip r = None.
Proof. intros H. unfold Intersection. cbn. rewrite (proj2 (Z.ltb_lt _ _)); [done|lia]. Qed.
Lemma clip_some r : from r ≤ to r → start ≤ to r → from r ≤ end_ →
  clip r = Some (mkRange (Z.max start (from r)) (Z.min end_ (to r))).
Proof. intros. unfold Intersection. cbn. by rewrite (proj2 (Z.ltb_ge _ _)) by lia. Qed.

Lemma omap_clip_none (l : list Range) : (∀ r, r ∈ l → to r < start ∨ end_ < from r) → omap clip l = [].
Proof.
  induction l as [|r l IH]; intros H; [done|]. change (omap clip (r :: l)) with (match clip r with Some y => y :: omap clip l | None => omap clip l end).
  rewrite clip_none by (apply H; by left). apply IH. intros r' Hr'. apply H. by right.
Qed.
Lemma omap_clip_inside (l : list Range) : (∀ r, r ∈ l → start ≤ from r ∧ from r ≤ to r ∧ to r ≤ end_) → omap clip l = l.
Proof.
  induction l as [|r l IH]; intros H; [done|]. change (omap clip (r :: l)) with (match clip r with Some y => y :: omap clip l | None => omap clip l end).
  destruct (H r) as (H1&H2&H3); [by left|]. rewrite clip_some by lia. rewrite IH by (intros r' Hr'; apply H; by right).
  rewrite Z.max_r, Z.min_r by lia. by destruct r.
Qed.
Lemma omap_clip_cons r (l : list Range) : start ≤ to r → from r ≤ end_ → from r ≤ to r →
  omap clip (r :: l) = mkRange (Z.max start (from r)) (Z.min end_ (to r)) :: omap clip l.
Proof. intros. cbn. by rewrite clip_some by lia. Qed.

(** [R] is the last index that can meet the interval. *)
Definition last_index (R : nat) : Prop :=
  (R < length rs)%nat ∧ (∀ j r, (j < R)%nat → rs !! j = Some r → to r ≤ end_) ∧
  (∀ j r, (R < j)%nat → rs !! j = Some r → end_ < from r).

Lemma right_bound L R : splits start L → splits end_ R → (L < length rs)%nat →
  let R' := if (length rs <=? R)%nat then (length rs - 1)%nat else R in (L ≤ R')%nat ∧ last_index R'.
Proof.
  intros (HL&Llo&Lhi) (HR&Rlo&Rhi) HLl R'. assert (L ≤ R)%nat.
  { destruct (Nat.le_gt_cases L R) as [|Hlt]; [done|]. destruct (lookup_lt_is_Some_2 rs R) as [r Hr]; [lia|].
    specialize (Llo R r Hlt Hr). specialize (Rhi R r ltac:(lia) Hr). lia. }
  subst R'. destruct (Nat.leb_spec (length rs) R); (split; [lia|split_and!; [lia|..]]).
  - intros j r Hj Hr. specialize (Rlo j r ltac:(lia) Hr). lia.
  - intros j r Hj Hr%lookup_lt_Some. lia.
  - intros j r Hj Hr. specialize (Rlo j r Hj Hr). lia.
  - intros j r Hj Hr. destruct (lookup_lt_is_Some_2 rs R) as [rR HrR]; [lia|].
    specialize (Rhi R rR ltac:(lia) HrR). pose proof (lookup_before R j rR r Hj HrR Hr). lia.
Qed.

(** The ranges from [L + 1] on, up to the last index. *)
Lemma clip_middle L R rL : rs !! L = Some rL → start ≤ to rL → (L < R)%nat → last_index R →
  omap clip (drop (S L) rs) = take (R - S L) (drop (S L) rs) ++ omap clip (drop R rs).
Proof.
  intros HrL Hs HLR (HRl&Hle&_). rewrite <-(take_drop (R - S L) (drop (S L) rs)) at 1.
  rewrite omap_app, drop_drop, omap_clip_inside; [by replace (S L + (R - S L))%nat with R by lia|].
  intros r [j [Hj Hlt]%lookup_take_Some]%list_elem_of_lookup. rewrite lookup_drop in Hj.
  pose proof (lookup_before L (S L + j) rL r ltac:(lia) HrL Hj). pose proof (lookup_ok _ _ Hj) as (_&?&_).
  specialize (Hle (S L + j)%nat r ltac:(lia) Hj). lia.
Qed.

Lemma clip_after R k : last_index R → (R < k)%nat → omap clip (drop k rs) = [].
Proof.
  intros (_&_&Hgt) Hk. apply omap_clip_none. intros r [j Hj]%list_elem_of_lookup. rewrite lookup_drop in Hj.
  right. apply (Hgt (k + j)%nat); [lia|done].
Qed.

(** The reference: every range in turn, clipped to the interval. *)
Lemma IntersectedRanges_spec : IntersectedRanges (create rs) start end_ = Ok (omap clip rs).
Proof.
  unfold IntersectedRanges. destruct (LowerBound_spec start) as (L&->&HL). cbn [mbind Result_bind create ranges_ starts_].
  assert (E : omap clip rs = omap clip (drop L rs)).
  { rewrite <-(take_drop L rs) at 1. rewrite omap_app, (omap_clip_none (take L rs)); [done|].
    intros r [j [Hj ?]%lookup_take_Some]%list_elem_of_lookup. left. by apply (proj1 (proj2 HL) j). }
  rewrite E. destruct (Nat.leb_spec (length rs) L) as [|HLl]; [by rewrite drop_ge by lia|].
  destruct (lookup_lt_is_Some_2 rs L HLl) as [rL HrL].
  destruct (LowerBound_spec end_) as (R&->&HR). cbn [mbind Result_bind].
  destruct (right_bound L R HL HR HLl) as [HLR Hlast].
  set (R' := if (length rs <=? R)%nat then (length rs - 1)%nat else R) in *. clearbody R'.
  rewrite (at_lookup _ L (from rL)) by (by rewrite list_lookup_fmap, HrL). cbn [mbind Result_bind].
  pose proof (proj2 (proj2 HL) L rL ltac:(lia) HrL) as HtL. pose proof (lookup_ok L rL HrL) as (_&HfL&_).
  rewrite (drop_S _ _ _ HrL). destruct (Z.ltb_spec end_ (from rL)) as [Hout|Hin].
  { rewrite (omap_clip_none (rL :: _)); [done|]. intros r [->|[j Hj]%list_elem_of_lookup]%elem_of_cons; [by right|right].
    rewrite lookup_drop in Hj. pose proof (lookup_before L (S L + j) rL r ltac:(lia) HrL Hj). lia. }
  rewrite (at_lookup _ _ _ HrL). cbn [mbind Result_bind]. rewrite omap_clip_cons, Nat.add_1_r by lia.
  destruct (Nat.eqb_spec R' L) as [->|HneR].
  { rewrite (clip_after L (S L)) by (done || lia). by replace (L - S L)%nat with 0%nat by lia. }
  rewrite (clip_middle L R' rL) by (done || lia).
  destruct (lookup_lt_is_Some_2 rs R' (proj1 Hlast)) as [rR HrR]. rewrite (at_lookup _ _ _ HrR), (drop_S _ _ _ HrR).
  cbn [mbind Result_bind]. pose proof (lookup_ok _ _ HrR) as (_&?&_).
  pose proof (lookup_before L R' rL rR ltac:(lia) HrL HrR). destruct (Z.leb_spec (from rR) end_).
  - rewrite omap_clip_cons, (clip_after R') by (done || lia). done.
  - assert (omap clip (rR :: drop (S R') rs) = []) as ->; [|by rewrite app_nil_r].
    cbn. rewrite clip_none by (by right). apply (clip_after R'); [done|lia].
Qed.
End Index.
End RowRangeIndex.

(** ** RangeHelper *)

Module RangeHelper.
Section RangeHelper.
Context {T : Type} (start_func end_func : T → Result Z).

Fixpoint same_loop (first_start first_end : Z) (ranges : list T) : Result bool :=
  match ranges with
  | [] => Ok true
  | current :: rest =>
      current_start ← start_func current;
      current_end ← end_func current;
      if negb (current_start =? first_start) || negb (current_end =? first_end) then Ok false
      else same_loop first_start first_end rest
  end.
Definition AreAllRangesSame (ranges : list T) : Result bool :=
  match ranges with
  | [] => Ok true
  | first :: rest =>
      first_start ← start_func first;
      first_end ← end_func first;
      same_loop first_start first_end rest
  end.

Record IndexedValue := mkIndexed { value : T; original_idx : nat; start : Z; end_ : Z }.

Fixpoint index_ranges (i : nat) (ranges : list T) : Result (list IndexedValue) :=
  match ranges with
  | [] => Ok []
  | r :: rest =>
      s ← start_func r;
      e ← end_func r;
      l ← index_ranges (S i) rest;
      Ok (mkIndexed r i s e :: l)
  end.

Definition by_range (r1 r2 : IndexedValue) : bool :=
  if negb (start r1 =? start r2) then start r1 <? start r2 else end_ r1 <? end_ r2.
Definition by_idx (r1 r2 : IndexedValue) : bool := (original_idx r1 <? original_idx r2)%nat.

Fixpoint group_loop (current_group : list IndexedValue) (current_end : Z) (rest : list IndexedValue)
    (groups : list (list IndexedValue)) : list (list IndexedValue) :=
  match rest with
  | [] => groups ++ [current_group]
  | current :: rest' =>
      if start current <=? current_end
      then group_loop (current_group ++ [current]) (if current_end <? end_ current then end_ current else current_end)
             rest' groups
      else group_loop [current] (end_ current) rest' (groups ++ [current_group])
  end.

Definition MergeOverlappingRanges (ranges : list T) : Result (list (list T)) :=
  match ranges with
  | [] => Ok []
  | _ =>
      index ← index_ranges 0 ranges;
      match std_sort by_range index with
      | [] => Err UnknownError "index out of bounds"
      | first :: rest =>
          let groups := group_loop [first] (end_ first) rest [] in
          Ok (map (λ group, value <$> std_sort by_idx group) groups)
      end
  end.

(** *** Groups *)

Implicit Types iv : IndexedValue.

(** Between [lo] and [hi] there is no gap, and nothing of the group is outside. *)
Definition spans (g : list IndexedValue) (lo hi : Z) : Prop :=
  lo ≤ hi ∧ Forall (λ iv, start iv ≤ end_ iv) g ∧
  ∀ x, lo ≤ x ≤ hi ↔ ∃ iv, iv ∈ g ∧ start iv ≤ x ≤ end_ iv.
Definition ends_before (g g' : list IndexedValue) : Prop := ∀ iv iv', iv ∈ g → iv' ∈ g' → end_ iv < start iv'.

Lemma group_loop_spec group lo hi rest groups :
  spans group lo hi → Forall (λ iv, start iv ≤ end_ iv) rest → Forall (λ iv, lo ≤ start iv) rest →
  StronglySorted (λ a b, start a ≤ start b) rest →
  Forall (λ g, ∃ lo hi, spans g lo hi) groups → StronglySorted ends_before (groups ++ [group]) →
  (∀ g iv iv', g ∈ groups → iv ∈ g → iv' ∈ rest → end_ iv < start iv') →
  let out := group_loop group hi rest groups in
  concat out ≡ₚ concat groups ++ group ++ rest ∧ Forall (λ g, ∃ lo hi, spans g lo hi) out ∧
  StronglySorted ends_before out.
Proof.
  revert group lo hi groups. induction rest as [|c rest IH]; intros group lo hi groups Hsp Hok Hlo Hs Hgs Hsort Hb; cbn.
  { split_and!; [by rewrite concat_app; cbn; rewrite !app_nil_r| |done].
    apply Forall_app. split; [done|]. constructor; [by exists lo, hi|done]. }
  inversion_clear Hok as [|?? Hc Hok']. inversion_clear Hlo as [|?? Hlc Hlo']. inversion_clear Hs as [|?? Hs' Hcs].
  pose proof Hsp as (Hlh&Hgok&Hcov). destruct (Z.leb_spec (start c) hi) as [Hle|Hgt].
  - set (hi' := if hi <? end_ c then end_ c else hi).
    assert (Ehi : hi' = Z.max hi (end_ c)) by (subst hi'; destruct (Z.ltb_spec hi (end_ c)); lia).
    destruct (IH (group ++ [c]) lo hi' groups) as (H1&H2&H3); try done.
    + split_and!; [lia|by apply Forall_app; split; [|constructor]|].
      intros x. setoid_rewrite elem_of_app. setoid_rewrite list_elem_of_singleton. split.
      * intros Hx. destruct (decide (x ≤ hi)).
        -- destruct (proj1 (Hcov x)) as (iv&Hiv&Hin); [lia|]. eauto.
        -- exists c. split; [by right|lia].
      * intros (iv&[Hiv|Eiv]&Hin); [|subst iv; lia]. assert (lo ≤ x ≤ hi) by (apply Hcov; eauto). lia.
    + apply StronglySorted_app in Hsort as (Hx&Hsg&_). apply StronglySorted_app_2; [|done|repeat constructor].
      intros g g' Hg Hg'%list_elem_of_singleton iv iv' Hiv Hiv'. subst g'.
      apply elem_of_app in Hiv' as [Hiv'|Hiv'%list_elem_of_singleton].
      * apply (Hx g group); [done|by left|done|done].
      * subst iv'. apply (Hb g); [done|done|by left].
    + intros g iv iv' Hg Hiv Hiv'. apply (Hb g); [done|done|by right].
    + split_and!; [|done|done]. rewrite H1. by rewrite <-!app_assoc.
  - assert (Hgb : ∀ iv, iv ∈ group → end_ iv ≤ hi).
    { intros iv Hiv. rewrite Forall_forall in Hgok. specialize (Hgok iv Hiv).
      assert (lo ≤ end_ iv ≤ hi); [|lia]. apply Hcov. exists iv. split; [done|lia]. }
    destruct (IH [c] (start c) (end_ c) (groups ++ [group])) as (H1&H2&H3); try done.
    + split_and!; [done|by constructor|]. intros x. setoid_rewrite list_elem_of_singleton.
      split; [intros; by exists c|by intros (iv&->&?)].
    + apply Forall_app. split; [done|]. constructor; [by exists lo, hi|done].
    + apply StronglySorted_app_2; [|done|repeat constructor].
      intros g g' Hg Hg'%list_elem_of_singleton iv iv' Hiv Hiv'. subst g'. apply list_elem_of_singleton in Hiv'. subst iv'.
      apply elem_of_app in Hg as [Hg|Hg%list_elem_of_singleton]; [apply (Hb g); [done|done|by left]|].
      subst g. specialize (Hgb iv Hiv). lia.
    + intros g iv iv' Hg Hiv Hiv'. apply elem_of_app in Hg as [Hg|Hg%list_elem_of_singleton].
      * apply (Hb g); [done|done|by right].
      * subst g. specialize (Hgb iv Hiv). rewrite Forall_forall in Hcs. specialize (Hcs iv' Hiv'). lia.
    + split_and!; [|done|done]. rewrite H1. rewrite concat_app. cbn. by rewrite app_nil_r, <-!app_assoc.
Qed.

(** *** Input order *)

Lemma index_ranges_spec (s e : T → Z) i ranges :
  (∀ r, r ∈ ranges → start_func r = Ok (s r) ∧ end_func r = Ok (e r)) →
  ∃ l, index_ranges i ranges = Ok l ∧ value <$> l = ranges ∧ original_idx <$> l = seq i (length ranges) ∧
    Forall (λ iv, start iv = s (value iv) ∧ end_ iv = e (value iv)) l.
Proof.
  revert i. induction ranges as [|r ranges IH]; intros i Hf; cbn; [by exists []|].
  destruct (Hf r) as [-> ->]; [by left|]. destruct (IH (S i)) as (l&->&E1&E2&E3); [intros; apply Hf; by right|].
  cbn. eexists. split; [done|]. cbn. split_and!; [by f_equal|by f_equal|by constructor].
Qed.

(** Elements with ascending positions in [l] form a sublist of it. *)
Lemma idx_sublist (l : list T) g base :
  StronglySorted (λ a b, original_idx a < original_idx b)%nat g →
  (∀ iv, iv ∈ g → l !! original_idx iv = Some (value iv) ∧ (base ≤ original_idx iv)%nat) →
  (value <$> g) `sublist_of` (drop base l).
Proof.
  intros Hs. revert base. induction Hs as [|iv g _ IH Hiv]; intros base Hg; cbn; [apply sublist_nil_l|].
  destruct (Hg iv) as [Hv Hb]; [by left|]. set (i := original_idx iv) in *.
  transitivity (drop i l).
  - rewrite (drop_S _ _ _ Hv). apply sublist_skip, IH. intros iv' Hiv'. split; [apply Hg; by right|].
    rewrite Forall_forall in Hiv. specialize (Hiv iv' Hiv'). subst i. lia.
  - replace i with (base + (i - base))%nat by lia. rewrite <-drop_drop. apply sublist_drop.
Qed.

Lemma by_idx_sorted g : NoDup (original_idx <$> g) →
  StronglySorted (λ a b, original_idx a < original_idx b)%nat (std_sort by_idx g).
Proof.
  intros Hn. pose proof (std_sort_Permutation by_idx g) as Hp.
  assert (E : ∀ a b, not_after by_idx a b ↔ (original_idx a ≤ original_idx b)%nat).
  { intros a b. unfold not_after, by_idx. by rewrite Nat.ltb_ge. }
  assert (Hs : StronglySorted (not_after by_idx) (std_sort by_idx g)).
  { apply std_sort_sorted; [intros a b|intros a b c]; rewrite !E; lia. }
  assert (Hn' : NoDup (original_idx <$> std_sort by_idx g)) by (by rewrite Hp). clear Hn Hp.
  induction Hs as [|x l _ IH Hx]; [constructor|]. cbn in Hn'. apply NoDup_cons in Hn' as [Hnx Hn].
  constructor; [by apply IH|]. rewrite Forall_forall in Hx |- *. intros y Hy. specialize (Hx y Hy).
  apply E in Hx. assert (original_idx x ≠ original_idx y); [|lia].
  intros Hxy. apply Hnx. rewrite Hxy. by apply list_elem_of_fmap_2.
Qed.

Lemma by_range_sorted l : StronglySorted (λ a b, start a ≤ start b) (std_sort by_range l).
Proof.
  assert (E : ∀ a b, not_after by_range a b ↔ start a < start b ∨ start a = start b ∧ end_ a ≤ end_ b).
  { intros a b. unfold not_after, by_range. destruct (Z.eqb_spec (start b) (start a)); cbn; [rewrite Z.ltb_ge|rewrite Z.ltb_ge]; lia. }
  assert (Hs : StronglySorted (not_after by_range) (std_sort by_range l)).
  { apply std_sort_sorted; [intros a b|intros a b c]; rewrite !E; lia. }
  induction Hs as [|x l' _ IH Hx]; constructor; [done|]. eapply Forall_impl; [exact Hx|]. intros y ?%E. lia.
Qed.

Lemma grouped_index l : l ≠ [] → Forall (λ iv, start iv ≤ end_ iv) l →
  ∃ groups, match std_sort by_range l with
            | [] => False
            | first :: rest => group_loop [first] (end_ first) rest [] = groups
            end ∧
    concat groups ≡ₚ l ∧ Forall (λ g, ∃ lo hi, spans g lo hi) groups ∧ StronglySorted ends_before groups.
Proof.
  intros Hne Hok. pose proof (std_sort_Permutation by_range l) as Hp. pose proof (by_range_sorted l) as Hsort.
  destruct (std_sort by_range l) as [|first rest]; [by apply Permutation_nil_l in Hp|].
  rewrite <-Hp in Hok. inversion_clear Hok as [|?? H1 H2]. inversion_clear Hsort as [|?? Hs Hfr].
  eexists. split; [done|].
  destruct (group_loop_spec [first] (start first) (end_ first) rest []) as (E&Hsp&Hb); try done.
  - split_and!; [done|by constructor|]. intros x. setoid_rewrite list_elem_of_singleton.
    split; [intros; by exists first|by intros (iv&->&?)].
  - repeat constructor.
  - by intros g iv iv' ?%elem_of_nil.
  - by rewrite E, <-Hp.
Qed.

(** Each group in input order. *)
Lemma grouped_sublist ranges l groups g :
  value <$> l = ranges → original_idx <$> l = seq 0 (length ranges) → concat groups ≡ₚ l → g ∈ groups →
  (value <$> std_sort by_idx g) `sublist_of` ranges.
Proof.
  intros Hval Hidx Hperm Hg. apply (idx_sublist ranges _ 0).
  - apply by_idx_sorted. assert (Hn : NoDup (original_idx <$> concat groups)) by (rewrite Hperm, Hidx; apply NoDup_seq).
    apply elem_of_Permutation in Hg as [gs' Hgs]. rewrite Hgs in Hn. cbn in Hn. rewrite fmap_app in Hn. by apply NoDup_app in Hn as (?&_).
  - intros iv Hiv. rewrite (std_sort_Permutation by_idx g) in Hiv. split; [|lia].
    assert (Hl : iv ∈ l) by (rewrite <-Hperm; apply list_elem_of_concat; eauto).
    apply list_elem_of_lookup in Hl as [k Hk].
    assert (Ek : (original_idx <$> l) !! k = Some (original_idx iv)) by (by rewrite list_lookup_fmap, Hk).
    rewrite Hidx in Ek. apply lookup_seq in Ek as [-> _]. rewrite Nat.add_0_l. by rewrite <-Hval, list_lookup_fmap, Hk.
Qed.
End RangeHelper.

(** [MergeOverlappingRanges] partitions its input: every element is in
    exactly one group; a group keeps the input order; the groups are ascending
    and disjoint, so that overlapping elements are in the same group; and a
    group covers an interval without a gap. *)
Theorem merge_overlapping_ranges_groups {T} (start_func end_func : T → Result Z) (s e : T → Z) ranges :
  (∀ r, r ∈ ranges → start_func r = Ok (s r) ∧ end_func r = Ok (e r) ∧ s r ≤ e r) →
  ∃ groups, MergeOverlappingRanges start_func end_func ranges = Ok groups ∧
    concat groups ≡ₚ ranges ∧ Forall (λ g, g `sublist_of` ranges) groups ∧
    StronglySorted (λ g g', ∀ a b, a ∈ g → b ∈ g' → e a < s b) groups ∧
    Forall (λ g, ∃ lo hi, lo ≤ hi ∧ ∀ x, lo ≤ x ≤ hi ↔ ∃ a, a ∈ g ∧ s a ≤ x ≤ e a) groups.
Proof.
  intros Hf. destruct ranges as [|r0 rest0] eqn:Er; [exists []; split_and!; [done|done|constructor..]|].
  rewrite <-Er in *. assert (Hne : ranges ≠ []) by (by rewrite Er). clear Er r0 rest0.
  destruct (index_ranges_spec start_func end_func s e 0 ranges) as (l&El&Hval&Hidx&Hse);
    [intros r Hr; by destruct (Hf r Hr) as (?&?&_)|].
  assert (Hok : Forall (λ iv, start iv ≤ end_ iv) l).
  { rewrite Forall_forall in Hse |- *. intros iv Hiv. destruct (Hse iv Hiv) as [-> ->]. apply Hf.
    rewrite <-Hval. by apply list_elem_of_fmap_2. }
  destruct (grouped_index l) as (groups&Eg&Hperm&Hspan&Hbefore); [by intros ->|done|].
  exists (map (λ g, value <$> std_sort by_idx g) groups).
  assert (Hin : ∀ g iv, g ∈ groups → iv ∈ g → iv ∈ l).
  { intros g iv Hg Hiv. rewrite <-Hperm. apply list_elem_of_concat. eauto. }
  assert (Hmem : ∀ (g : list (@IndexedValue T)) a, a ∈ (value <$> std_sort by_idx g) ↔ ∃ iv, iv ∈ g ∧ a = value iv).
  { intros g a. rewrite list_elem_of_fmap. setoid_rewrite (std_sort_Permutation by_idx g). by split; intros (?&?&?); eauto. }
  split_and!.
  - unfold MergeOverlappingRanges. destruct ranges; [done|]. rewrite El. cbn [mbind Result_bind].
    destruct (std_sort by_range l) as [|first rest]; [done|]. by rewrite Eg.
  - rewrite <-Hval, <-Hperm. clear. induction groups as [|g groups IH]; cbn; [done|].
    by rewrite fmap_app, IH, (std_sort_Permutation by_idx g).
  - apply Forall_forall. intros g' [g [-> Hg]]%list_elem_of_fmap. by eapply (grouped_sublist _ l groups).
  - eapply (StronglySorted_fmap (λ g, value <$> std_sort by_idx g)); [intros g g' Hgg; exact Hgg|].
    eapply sorted_impl_in; [|exact Hbefore].
    intros g g' Hg Hg' Hgg a b [iv [Hiv ->]]%Hmem [iv' [Hiv' ->]]%Hmem. rewrite Forall_forall in Hse.
    destruct (Hse iv) as [_ <-]; [by apply (Hin g)|]. destruct (Hse iv') as [<- _]; [by apply (Hin g')|]. by apply Hgg.
  - apply Forall_forall. intros g' [g [-> Hg]]%list_elem_of_fmap. rewrite Forall_forall in Hspan. rewrite Forall_forall in Hse.
    destruct (Hspan g Hg) as (lo&hi&Hlh&_&Hx). exists lo, hi. split; [done|]. intros x. rewrite Hx. split.
    + intros (iv&Hiv&Hr). exists (value iv). destruct (Hse iv) as [<- <-]; [by apply (Hin g)|]. split; [apply Hmem; eauto|done].
    + intros (a&(iv&Hiv&->)%Hmem&Hr). exists iv. destruct (Hse iv) as [-> ->]; [by apply (Hin g)|]. done.
Qed.
End RangeHelper.

(** ** Theorems *)

(** C32. Set operations on ranges of 64-bit integers below the largest one:
    [SortAndMergeOverlap] keeps the set of integers and returns ascending ranges
    that do not overlap, nor touch if adjacent ranges are to be merged;
    [Exclude] is set difference; [And] of two ascending lists is set
    intersection and terminates. *)
Theorem range_set_operations (ranges other : list Range) (this : Range) (adjacent : bool) :
  Forall range_ok ranges → range_ok this → separated 0 other →
  (let out := SortAndMergeOverlap ranges adjacent in
   Forall range_ok out ∧ separated (if adjacent then 1 else 0) out ∧ ∀ x, covers out x ↔ covers ranges x) ∧
  (let out := Exclude this ranges in
   separated 0 out ∧ ∀ x, covers out x ↔ contains this x ∧ ¬ covers ranges x) ∧
  (∃ out, And (SortAndMergeOverlap ranges adjacent) other = Ok out ∧ separated 0 out ∧
     ∀ x, covers out x ↔ covers ranges x ∧ covers other x).
Proof.
  intros Hr Ht Ho. pose proof (SortAndMergeOverlap_spec ranges adjacent Hr) as (H1&H2&H3).
  split_and!; [done..| |]; [by apply Exclude_spec|].
  destruct (And_spec (SortAndMergeOverlap ranges adjacent) other) as (out&E&Hs&Hx); [|done|].
  - eapply sorted_impl_in; [|exact H2]. intros a b _ _. destruct adjacent; lia.
  - exists out. split_and!; [done..|]. intros x. by rewrite Hx, H3.
Qed.

Lemma range_set_operations_witness :
  (let out := SortAndMergeOverlap [mkRange 4 6; mkRange 1 3; mkRange 9 9] true in
   Forall range_ok out ∧ separated 1 out ∧ ∀ x, covers out x ↔ covers [mkRange 4 6; mkRange 1 3; mkRange 9 9] x) ∧
  (let out := Exclude (mkRange 0 20) [mkRange 4 6; mkRange 1 3; mkRange 9 9] in
   separated 0 out ∧ ∀ x, covers out x ↔ contains (mkRange 0 20) x ∧ ¬ covers [mkRange 4 6; mkRange 1 3; mkRange 9 9] x) ∧
  (∃ out, And (SortAndMergeOverlap [mkRange 4 6; mkRange 1 3; mkRange 9 9] true) [mkRange 2 5; mkRange 8 12] = Ok out ∧
     separated 0 out ∧ ∀ x, covers out x ↔ covers [mkRange 4 6; mkRange 1 3; mkRange 9 9] x ∧ covers [mkRange 2 5; mkRange 8 12] x).
Proof.
  apply (range_set_operations [mkRange 4 6; mkRange 1 3; mkRange 9 9] [mkRange 2 5; mkRange 8 12] (mkRange 0 20) true).
  - repeat constructor; cbn; lia.
  - repeat split; cbn; lia.
  - repeat constructor; cbn; lia.
Defined.

(** The binary searches of [RowRangeIndex] answer as a scan of the ranges
    would: an interval intersects the index iff it shares an integer with one of
    the ranges the index was created from; a range is contained iff one indexed
    range contains it, and exactly contained iff it is one of them; and the
    intersected ranges are the indexed ranges in order, each clipped to the
    interval. No index is out of bounds and the searches end. *)
Theorem row_range_index_correct (ranges : list Range) (merge_adjacent : bool) idx start end_ range :
  Forall range_ok ranges → RowRangeIndex.Create ranges merge_adjacent = Ok idx → start ≤ end_ → range_ok range →
  let rs := RowRangeIndex.ranges_ idx in
  (∀ x, covers rs x ↔ covers ranges x) ∧
  (∃ b, RowRangeIndex.Intersects idx start end_ = Ok b ∧ (b = true ↔ ∃ x, start ≤ x ≤ end_ ∧ covers ranges x)) ∧
  (∃ b, RowRangeIndex.Contains idx range = Ok b ∧ (b = true ↔ ∃ r, r ∈ rs ∧ from r ≤ from range ∧ to range ≤ to r)) ∧
  (∃ b, RowRangeIndex.ContainsExactly idx range = Ok b ∧ (b = true ↔ range ∈ rs)) ∧
  RowRangeIndex.IntersectedRanges idx start end_ = Ok (omap (Intersection (mkRange start end_)) rs).
Proof.
  intros Hr [= <-] Hse Hok. cbn [RowRangeIndex.ranges_ RowRangeIndex.create].
  pose proof (SortAndMergeOverlap_spec ranges merge_adjacent Hr) as (H1&H2&H3).
  assert (Hsep : separated 0 (SortAndMergeOverlap ranges merge_adjacent)).
  { eapply sorted_impl_in; [|exact H2]. intros a b _ _. destruct merge_adjacent; lia. }
  split_and!; [done| | | |].
  - destruct (RowRangeIndex.Intersects_spec _ Hsep H1 start end_ Hse) as (b&E&Hb). exists b. split; [done|].
    rewrite Hb. by setoid_rewrite H3.
  - by apply RowRangeIndex.Contains_spec.
  - by apply RowRangeIndex.ContainsExactly_spec.
  - by apply RowRangeIndex.IntersectedRanges_spec.
Qed.

Lemma row_range_index_correct_witness :
  let idx := RowRangeIndex.create [mkRange 1 6; mkRange 9 9] in
  (∀ x, covers (RowRangeIndex.ranges_ idx) x ↔ covers [mkRange 4 6; mkRange 1 3; mkRange 9 9] x) ∧
  (∃ b, RowRangeIndex.Intersects idx 7 8 = Ok b ∧
     (b = true ↔ ∃ x, 7 ≤ x ≤ 8 ∧ covers [mkRange 4 6; mkRange 1 3; mkRange 9 9] x)) ∧
  (∃ b, RowRangeIndex.Contains idx (mkRange 3 5) = Ok b ∧
     (b = true ↔ ∃ r, r ∈ RowRangeIndex.ranges_ idx ∧ from r ≤ 3 ∧ 5 ≤ to r)) ∧
  (∃ b, RowRangeIndex.ContainsExactly idx (mkRange 3 5) = Ok b ∧ (b = true ↔ mkRange 3 5 ∈ RowRangeIndex.ranges_ idx)) ∧
  RowRangeIndex.IntersectedRanges idx 7 8 = Ok (omap (Intersection (mkRange 7 8)) (RowRangeIndex.ranges_ idx)).
Proof.
  apply (row_range_index_correct [mkRange 4 6; mkRange 1 3; mkRange 9 9] true
           (RowRangeIndex.create [mkRange 1 6; mkRange 9 9]) 7 8 (mkRange 3 5)).
  - repeat constructor; cbn; lia.
  - reflexivity.
  - lia.
  - repeat split; cbn; lia.
Defined.

Lemma merge_overlapping_ranges_groups_witness :
  let f := λ r : Range, Ok (from r) in let g := λ r : Range, Ok (to r) in
  let ranges := [mkRange 4 6; mkRange 1 3; mkRange 5 9] in
  ∃ groups, RangeHelper.MergeOverlappingRanges f g ranges = Ok groups ∧
    concat groups ≡ₚ ranges ∧ Forall (λ g, g `sublist_of` ranges) groups ∧
    StronglySorted (λ g g', ∀ a b, a ∈ g → b ∈ g' → to a < from b) groups ∧
    Forall (λ g, ∃ lo hi, lo ≤ hi ∧ ∀ x, lo ≤ x ≤ hi ↔ ∃ a, a ∈ g ∧ from a ≤ x ≤ to a) groups.
Proof.
  apply (RangeHelper.merge_overlapping_ranges_groups (λ r : Range, Ok (from r)) (λ r : Range, Ok (to r)) from to
           [mkRange 4 6; mkRange 1 3; mkRange 5 9]).
  intros r Hr. repeat (apply elem_of_cons in Hr as [->|Hr]); [..|by apply elem_of_nil in Hr]; (split_and!; [done|done|cbn; lia]).
Defined.
