(* ===== verification/LevelsProofs.v ===== *)
(** * The invariant of Levels

    [Levels] keeps every file at its level, level 0 strictly ordered and the
    other levels as valid sorted runs; [Create] and [Update] lose no file. *)

From stdpp Require Import base list gmap strings sorting.
From Stdlib Require Import ZArith Lia.
From S2P Require Import Prelude Decimal Rows Ranges DataFiles.
Import DataFileMeta SortedRun Levels.
Local Open Scope Z_scope.

(** ** The order of level 0 *)

Definition level0_compare (a b : t) : Z :=
  let c1 := cmpZ (- max_sequence_number a) (- max_sequence_number b) in
  if c1 =? 0 then
    let c2 := cmpZ (min_sequence_number a) (min_sequence_number b) in
    if c2 =? 0 then
      let c3 := cmp_timestamp (creation_time a) (creation_time b) in
      if c3 =? 0 then cmp_string (file_name a) (file_name b) else c3
    else c2
  else c1.
#[export] Instance level0_comparator : Comparator t := level0_compare.

#[export] Instance level0_laws : ComparatorLaws t.
Proof.
  apply laws_lex; [exact (laws_proj (λ f, - max_sequence_number f) cmpZ laws_Z)|].
  apply laws_lex; [exact (laws_proj min_sequence_number cmpZ laws_Z)|].
  apply laws_lex; [exact (laws_proj creation_time cmp_timestamp laws_timestamp)|].
  exact (laws_proj file_name cmp_string laws_string).
Qed.

Lemma cmpZ_0 a b : cmpZ a b = 0 ↔ a = b.
Proof. unfold cmpZ. destruct (Z.eqb_spec a b), (Z.ltb_spec a b); lia. Qed.

Lemma Level0Comparator_less a b : Level0Comparator a b = (CompareTo a b <? 0).
Proof.
  unfold Level0Comparator, CompareTo, level0_comparator, level0_compare, cmp_timestamp, cmp_string, cmpZ.
  destruct (Z.eqb_spec (max_sequence_number a) (max_sequence_number b)) as [E|E].
  - rewrite E, Z.eqb_refl. cbn [negb Z.eqb].
    destruct (Z.eqb_spec (min_sequence_number a) (min_sequence_number b)); cbn [negb Z.eqb].
    + destruct (Timestamp_eqb _ _); cbn [negb Z.eqb]; [unfold String.ltb; by destruct (String.compare _ _)|].
      by destruct (Timestamp_ltb _ _).
    + by destruct (_ <? _).
  - destruct (Z.eqb_spec (- max_sequence_number a) (- max_sequence_number b)); [lia|]. cbn [negb].
    destruct (Z.ltb_spec (max_sequence_number b) (max_sequence_number a)),
      (Z.ltb_spec (- max_sequence_number a) (- max_sequence_number b)); try lia; done.
Qed.

Lemma keq_name a b : keq a b → file_name a = file_name b.
Proof.
  unfold keq, CompareTo, level0_comparator, level0_compare, cmp_string.
  destruct (Z.eqb_spec (cmpZ (- max_sequence_number a) (- max_sequence_number b)) 0); [|done].
  destruct (Z.eqb_spec (cmpZ (min_sequence_number a) (min_sequence_number b)) 0); [|done].
  destruct (Z.eqb_spec (cmp_timestamp (creation_time a) (creation_time b)) 0); [|done].
  destruct (String.compare (file_name a) (file_name b)) eqn:E; try done. intros _. by apply String.compare_eq_iff.
Qed.

Abbreviation insert0 := (oset_insert Level0Comparator).
Abbreviation erase0 := (oset_erase Level0Comparator).

(** ** Grouping by level *)

Definition at_level (l : Z) (files : list t) : list t := filter (λ f, level f = l) files.
#[local] Arguments at_level : simpl never.

Abbreviation ascending := (StronglySorted (λ a b : Z * list t, a.1 < b.1)).

Lemma push_level_keys l f m p : p ∈ push_level l f m → p.1 = l ∨ p.1 ∈ m.*1.
Proof.
  induction m as [|[k fs] m IH]; cbn; [intros Hp%list_elem_of_singleton; subst p; by left|].
  destruct (l <? k), (k <? l); rewrite ?elem_of_cons.
  - intros [->|[->|Hp]]; cbn; [by left|right; by left|]. right. right. by apply list_elem_of_fmap_2.
  - intros [->|[->|Hp]]; cbn; [by left|right; by left|]. right. right. by apply list_elem_of_fmap_2.
  - intros [->|Hp]; cbn; [right; by left|]. destruct (IH Hp); [by left|right; by right].
  - intros [->|Hp]; cbn; [right; by left|]. right. right. by apply list_elem_of_fmap_2.
Qed.

Lemma push_level_spec l f m : ascending m →
  ascending (push_level l f m) ∧ concat (push_level l f m).*2 ≡ₚ concat m.*2 ++ [f] ∧
  ∀ l', files_of_level l' (push_level l f m) = files_of_level l' m ++ (if decide (l' = l) then [f] else []).
Proof.
  induction 1 as [|[k fs] m Hs IH Hk]; cbn.
  { split_and!; [repeat constructor|done|]. intros l'. destruct (decide (l' = l)), (Z.eqb_spec l l'); congruence || done. }
  destruct IH as (I1&I2&I3). rewrite Forall_forall in Hk.
  destruct (Z.ltb_spec l k) as [H1|H1]; [|destruct (Z.ltb_spec k l) as [H2|H2]].
  - split_and!.
    + constructor; [constructor; [done|by apply Forall_forall]|]. constructor; [done|]. apply Forall_forall.
      intros p Hp. specialize (Hk p Hp). cbn in *. lia.
    + cbn. apply Permutation_cons_append.
    + intros l'. destruct (decide (l' = l)) as [->|Hne]; cbn.
      * rewrite Z.eqb_refl. destruct (Z.eqb_spec k l); [lia|].
        assert (files_of_level l m = []) as ->; [|done].
        clear -Hk H1. induction m as [|[k' fs'] m IH]; [done|]. cbn. specialize (Hk (k', fs') ltac:(by left)) as Hk'. cbn in Hk'.
        destruct (Z.eqb_spec k' l); [lia|]. apply IH. intros p Hp. apply Hk. by right.
      * destruct (Z.eqb_spec l l'); [congruence|]. by rewrite app_nil_r.
  - split_and!.
    + constructor; [done|]. apply Forall_forall. intros p [->|(q&->&Hq)%list_elem_of_fmap]%push_level_keys; [done|]. by apply Hk.
    + cbn. rewrite I2. by rewrite app_assoc.
    + intros l'. cbn. destruct (Z.eqb_spec k l'); [|by apply I3]. subst. by rewrite decide_False, app_nil_r by lia.
  - assert (k = l) as -> by lia. split_and!.
    + constructor; [done|]. by apply Forall_forall.
    + cbn. rewrite <-!app_assoc. apply Permutation_app_head, Permutation_app_comm.
    + intros l'. cbn. destruct (Z.eqb_spec l l') as [->|]; [by rewrite decide_True|]. by rewrite decide_False, app_nil_r.
Qed.

Lemma GroupByLevel_spec files :
  ascending (GroupByLevel files) ∧ concat (GroupByLevel files).*2 ≡ₚ files ∧
  ∀ l, files_of_level l (GroupByLevel files) = at_level l files.
Proof.
  unfold GroupByLevel. induction files as [|f files IH] using rev_ind; [split_and!; [constructor|done|done]|].
  rewrite foldl_app. cbn [foldl]. destruct IH as (I1&I2&I3).
  destruct (push_level_spec (level f) f _ I1) as (P1&P2&P3). split_and!; [done|by rewrite P2, I2|].
  intros l. rewrite P3, I3. unfold at_level. rewrite filter_app. f_equal.
  change (filter (λ f, level f = l) [f]) with (if decide (level f = l) then [f] else []).
  by destruct (decide (l = level f)), (decide (level f = l)); congruence || done.
Qed.

(** ** Single levels *)

Abbreviation names := (fmap (M := list) file_name).

Lemma names_sub (l l' : list t) : l ⊆+ l' → NoDup (names l') → NoDup (names l).
Proof. intros [k Hp]%submseteq_Permutation. rewrite Hp, fmap_app. by intros (?&_)%NoDup_app. Qed.

Lemma fold_erase0 l before rest : StronglySorted klt l → l ≡ₚ before ++ rest →
  StronglySorted klt (foldl (λ l file, erase0 file l) l before) ∧ foldl (λ l file, erase0 file l) l before ≡ₚ rest.
Proof.
  revert l. induction before as [|x before IH]; intros l Hs Hp; [done|]. cbn.
  assert (Hx : x ∈ l) by (rewrite Hp; by left).
  pose proof (oset_erase_in Level0Comparator Level0Comparator_less x l Hs Hx) as He.
  apply IH; [by apply (oset_erase_sorted Level0Comparator)|]. apply (Permutation_cons_inv (a := x)). by rewrite <-He.
Qed.

Lemma fold_insert0 l after : StronglySorted klt l →
  StronglySorted klt (foldl (λ l file, insert0 file l) l after) ∧
  foldl (λ l file, insert0 file l) l after ⊆+ l ++ after ∧
  (NoDup (names (l ++ after)) → foldl (λ l file, insert0 file l) l after ≡ₚ l ++ after).
Proof.
  revert l. induction after as [|x after IH]; intros l Hs; [by rewrite app_nil_r|]. cbn.
  destruct (IH (insert0 x l)) as (I1&I2&I3); [by apply (oset_insert_sorted _ Level0Comparator_less)|].
  split_and!; [done| |].
  - rewrite I2, <-Permutation_middle. change (x :: l ++ after) with ((x :: l) ++ after).
    apply submseteq_app; [|done]. apply (oset_insert_sub _ Level0Comparator_less).
  - intros Hn. assert (Hf : insert0 x l ≡ₚ x :: l).
    { apply (oset_insert_fresh _ Level0Comparator_less). intros y Hy Hk%keq_name. rewrite fmap_app in Hn. cbn in Hn.
      apply NoDup_app in Hn as (_&Hn&_). apply (Hn (file_name y)); [by apply list_elem_of_fmap_2|]. rewrite <-Hk. by left. }
    rewrite I3, Hf; cbn; [by rewrite Permutation_middle|]. rewrite Hf. cbn.
    rewrite fmap_app in Hn |- *. cbn in Hn. by rewrite Permutation_middle.
Qed.

Lemma erase_name_in x l : NoDup (names l) → x ∈ l → l ≡ₚ x :: erase_name (file_name x) l.
Proof.
  induction l as [|y l IH]; intros Hn Hx; [by apply elem_of_nil in Hx|]. cbn in Hn. apply NoDup_cons in Hn as [Hy Hn].
  cbn. case_bool_decide as E.
  - apply elem_of_cons in Hx as [->|Hx]; [done|]. destruct Hy. rewrite <-E. by apply list_elem_of_fmap_2.
  - apply elem_of_cons in Hx as [->|Hx]; [done|]. rewrite (IH Hn Hx) at 1. apply Permutation_swap.
Qed.
Lemma fold_erase_name l before rest : NoDup (names l) → l ≡ₚ before ++ rest →
  foldl (λ files f, erase_name (file_name f) files) l before ≡ₚ rest.
Proof.
  revert l. induction before as [|x before IH]; intros l Hn Hp; [done|]. cbn.
  assert (Hx : x ∈ l) by (rewrite Hp; by left). pose proof (erase_name_in x l Hn Hx) as He.
  apply IH.
  - rewrite He in Hn. cbn in Hn. by apply NoDup_cons in Hn as [_ ?].
  - apply (Permutation_cons_inv (a := x)). by rewrite <-He.
Qed.

(** Files are determined by what there is at each level. *)
Lemma at_level_perm (xs ys : list t) : (∀ l, at_level l xs ≡ₚ at_level l ys) → xs ≡ₚ ys.
Proof.
  revert ys. induction xs as [|x xs IH]; intros ys Hl.
  - destruct ys as [|y ys]; [done|]. specialize (Hl (level y)). unfold at_level in Hl. rewrite filter_cons, decide_True in Hl by done.
    by apply Permutation_nil_l in Hl.
  - assert (Hx : x ∈ ys).
    { assert (Hin : x ∈ at_level (level x) ys) by (rewrite <-Hl; apply list_elem_of_filter; split; [done|by left]).
      by apply list_elem_of_filter in Hin as [_ ?]. }
    apply elem_of_Permutation in Hx as [ys' Hp]. rewrite Hp. apply Permutation_skip, IH. intros l. specialize (Hl l).
    unfold at_level in *. rewrite Hp, !filter_cons in Hl. case_decide; [by apply Permutation_cons_inv in Hl|done].
Qed.
Lemma at_level_app l xs ys : at_level l (xs ++ ys) = at_level l xs ++ at_level l ys.
Proof. apply filter_app. Qed.
Lemma at_level_all l xs : Forall (λ f, level f = l) xs → at_level l xs = xs.
Proof. intros H. unfold at_level. induction H as [|x xs Hx _ IH]; [done|]. by rewrite filter_cons, decide_True, IH. Qed.
Lemma at_level_none l xs : Forall (λ f, level f ≠ l) xs → at_level l xs = [].
Proof. intros H. unfold at_level. induction H as [|x xs Hx _ IH]; [done|]. by rewrite filter_cons, decide_False, IH. Qed.
Lemma at_level_level l xs : Forall (λ f, level f = l) (at_level l xs).
Proof. apply Forall_forall. by intros f [? _]%list_elem_of_filter. Qed.

(** ** The invariant *)

Section Invariant.
Context (kc : InternalRow → InternalRow → Z).

Definition run_ok (l : Z) (r : SortedRun) : Prop :=
  IsValid kc r = true ∧ r = make (files_ r) ∧ Forall (λ f, level f = l) (files_ r).
Definition state_ok (s : list t * list SortedRun) : Prop :=
  StronglySorted klt s.1 ∧ Forall (λ f, level f = 0) s.1 ∧
  ∀ i r, s.2 !! i = Some r → run_ok (Z.of_nat i + 1) r.
Definition levels_ok (lv : Levels) : Prop :=
  state_ok (level0_ lv, levels_ lv) ∧ (1 ≤ length (levels_ lv))%nat.

(** All files of a state. *)
Definition held (s : list t * list SortedRun) : list t := s.1 ++ concat (files_ <$> s.2).

Lemma AllFiles_held lv : AllFiles lv = held (level0_ lv, levels_ lv).
Proof.
  unfold AllFiles, LevelSortedRuns, held. rewrite map_app, concat_app. f_equal.
  - rewrite map_map. cbn. induction (level0_ lv) as [|f l IH]; cbn; [done|]. by rewrite IH.
  - generalize 1. induction (levels_ lv) as [|r l IH]; intros i; cbn; [done|]. rewrite map_app, concat_app, IH.
    unfold IsEmpty. destruct (files_ r) eqn:E; cbn; [done|]. by rewrite E, app_nil_r.
Qed.

Definition files_at (s : list t * list SortedRun) (l : Z) : list t :=
  if l =? 0 then s.1 else match s.2 !! Z.to_nat (l - 1) with Some r => files_ r | None => [] end.

Lemma concat_levels n l (rs : list SortedRun) : (∀ i r, rs !! i = Some r → Forall (λ f, level f = n + Z.of_nat i) (files_ r)) →
  at_level l (concat (files_ <$> rs)) =
  (if n <=? l then match rs !! Z.to_nat (l - n) with Some r => files_ r | None => [] end else []).
Proof.
  revert n. induction rs as [|r rs IH]; intros n H; cbn; [by case_match|].
  rewrite at_level_app, (IH (n + 1)).
  2: { intros i r' Hi. specialize (H (S i) r' Hi). eapply Forall_impl; [exact H|]. cbn. intros f ->. lia. }
  pose proof (H 0%nat r eq_refl) as Hr. cbn in Hr. rewrite Z.add_0_r in Hr.
  destruct (Z.leb_spec n l), (Z.leb_spec (n + 1) l); try lia.
  - rewrite at_level_none by (eapply Forall_impl; [exact Hr|]; cbn; lia).
    replace (Z.to_nat (l - n)) with (S (Z.to_nat (l - (n + 1)))) by lia. done.
  - assert (l = n) as -> by lia. rewrite Z.sub_diag, at_level_all by done. cbn. by rewrite app_nil_r.
  - by rewrite at_level_none by (eapply Forall_impl; [exact Hr|]; cbn; lia).
Qed.

Lemma at_level_held s l : state_ok s → at_level l (held s) = if 0 <=? l then files_at s l else [].
Proof.
  intros (_&H0&Hr). unfold held, files_at. rewrite at_level_app, (concat_levels 1).
  2: { intros i r Hi. destruct (Hr i r Hi) as (_&_&H). eapply Forall_impl; [exact H|]. cbn. lia. }
  destruct (Z.eqb_spec l 0) as [->|Hl]; cbn.
  - rewrite at_level_all by done. by rewrite app_nil_r.
  - rewrite at_level_none by (eapply Forall_impl; [exact H0|]; cbn; congruence). cbn.
    destruct (Z.leb_spec 1 l), (Z.leb_spec 0 l); try lia; done.
Qed.

Lemma at_level_length s l : l < 0 ∨ Z.of_nat (length s.2) < l → state_ok s → at_level l (held s) = [].
Proof.
  intros Hl Hs. rewrite at_level_held by done. destruct (Z.leb_spec 0 l); [|done]. unfold files_at.
  destruct (Z.eqb_spec l 0); [lia|]. by rewrite lookup_ge_None_2 by lia.
Qed.

Lemma fold_erase_name_sub (l before : list t) :
  foldl (λ files f, erase_name (file_name f) files) l before ⊆+ l.
Proof.
  revert l. induction before as [|x before IH]; intros l; cbn; [done|]. rewrite IH.
  clear. induction l as [|y l IH]; cbn; [done|]. case_bool_decide; [by apply submseteq_cons|by apply submseteq_skip].
Qed.

Lemma fold_erase0_ok l before : StronglySorted klt l →
  StronglySorted klt (foldl (λ l file, erase0 file l) l before) ∧ foldl (λ l file, erase0 file l) l before ⊆+ l.
Proof.
  revert l. induction before as [|x before IH]; intros l Hs; cbn; [done|].
  destruct (IH (erase0 x l)) as [I1 I2]; [by apply oset_erase_sorted|]. split; [done|]. rewrite I2.
  apply sublist_submseteq, oset_erase_sub.
Qed.

Lemma Forall_sub (P : t → Prop) (l l' : list t) : l ⊆+ l' → Forall P l' → Forall P l.
Proof. intros [k Hp]%submseteq_Permutation. rewrite Hp. by intros [? _]%Forall_app. Qed.

Lemma files_at_insert s l r l' : 0 < l → (Z.to_nat (l - 1) < length s.2)%nat → 0 ≤ l' →
  files_at (s.1, <[Z.to_nat (l - 1) := r]> s.2) l' = if decide (l' = l) then files_ r else files_at s l'.
Proof.
  intros Hl Hlen Hl'. unfold files_at. cbn. destruct (Z.eqb_spec l' 0) as [->|]; [by rewrite decide_False by lia|].
  destruct (decide (l' = l)) as [->|].
  - by rewrite list_lookup_insert_eq by lia.
  - by rewrite list_lookup_insert_ne by lia.
Qed.

Lemma UpdateLevel_spec l before after s s' : 0 ≤ l →
  state_ok s → Forall (λ f, level f = l) after → UpdateLevel kc l before after s = Ok s' →
  state_ok s' ∧ length s'.2 = length s.2 ∧ (∀ l', 0 ≤ l' → l' ≠ l → files_at s' l' = files_at s l') ∧
  (∀ rest, files_at s l ≡ₚ before ++ rest → before = [] ∨ NoDup (names (files_at s l)) →
     files_at s' l ⊆+ rest ++ after ∧ (NoDup (names (rest ++ after)) → files_at s' l ≡ₚ rest ++ after)).
Proof.
  intros Hl Hs Ha. destruct s as [l0 ls]. unfold UpdateLevel.
  destruct (decide (before = [] ∧ after = [])) as [[-> ->]|Hne].
  { intros [= <-]. split_and!; [done..|]. intros rest Hp _. rewrite app_nil_r. by rewrite Hp. }
  intros E. assert (E' : (if l =? 0 then
        let level0 := foldl (λ l file, erase0 file l) l0 before in
        Ok (foldl (λ l file, insert0 file l) level0 after, ls)
      else
        run ← RunOfLevel l ls;
        let files := foldl (λ files before_file, erase_name (file_name before_file) files) (files_ run) before in
        run ← FromUnsorted kc (files ++ after);
        Ok (l0, <[Z.to_nat (l - 1) := run]> ls)) = Ok s').
  { destruct before, after; try exact E. by destruct Hne. }
  clear E Hne. pose proof Hs as (Hs0&H0&Hr). cbn in Hs0, H0, Hr.
  destruct (Z.eqb_spec l 0) as [->|Hl0].
  - apply Ok_inj in E' as <-. cbn. destruct (fold_erase0_ok l0 before Hs0) as [Hse Hsub].
    destruct (fold_insert0 _ after Hse) as (I1&I2&I3). split_and!; [|done| |].
    + split_and!; [done| |done]. cbn. apply (Forall_sub _ _ _ I2). apply Forall_app. split; [|done]. by apply (Forall_sub _ _ _ Hsub).
    + intros l' Hl' Hne. unfold files_at. cbn. by destruct (Z.eqb_spec l' 0).
    + intros rest Hp _. unfold files_at in *. cbn in Hp |- *. destruct (fold_erase0 l0 before rest Hs0 Hp) as [_ Hpe].
      split; [by rewrite <-Hpe|]. intros Hn. rewrite <-Hpe. apply I3. by rewrite Hpe.
  - apply bind_Ok in E' as (r&Er&(r'&Er'&[= <-])%bind_Ok). unfold RunOfLevel in Er.
    destruct (Z.leb_spec l 0); [lia|]. destruct (ls !! Z.to_nat (l - 1)) as [r0|] eqn:Hlk; [|done]. injection Er as ->.
    pose proof (lookup_lt_Some _ _ _ Hlk) as Hlt. apply FromUnsorted_spec in Er' as (Hp'&Hv'&Hm').
    assert (Hat : ∀ l', 0 ≤ l' → files_at (l0, <[Z.to_nat (l - 1) := r']> ls) l' = if decide (l' = l) then files_ r' else files_at (l0, ls) l').
    { intros l' Hl'. by apply (files_at_insert (l0, ls)). }
    assert (Hfl : files_at (l0, ls) l = files_ r).
    { unfold files_at. cbn. destruct (Z.eqb_spec l 0); [done|]. by rewrite Hlk. }
    split_and!; [|by cbn; rewrite length_insert| |].
    + split_and!; [done|done|]. cbn. intros i ri [(<-&<-&_)|[Hne Hi]]%list_lookup_insert_Some; [|by apply Hr].
      split_and!; [done|done|]. rewrite Hp'. apply Forall_app. split.
      * apply (Forall_sub _ _ (files_ r)); [apply fold_erase_name_sub|]. apply (Hr _ _ Hlk).
      * eapply Forall_impl; [exact Ha|]. cbn. lia.
    + intros l' Hl' Hne. rewrite Hat by done. by rewrite decide_False.
    + intros rest Hp Hn. rewrite Hat, decide_True by done. rewrite Hfl in Hp, Hn. rewrite Hp'.
      assert (Hrest : foldl (λ files f, erase_name (file_name f) files) (files_ r) before ≡ₚ rest).
      { destruct Hn as [->|Hn]; [done|by apply fold_erase_name]. }
      rewrite Hrest. done.
Qed.

(** *** Update *)

Lemma Update_loop_spec n i before after s s' status : 0 ≤ i → state_ok s →
  Update_loop kc n i (GroupByLevel before) (GroupByLevel after) s = (s', status) →
  state_ok s' ∧ length s'.2 = length s.2 ∧
  (∀ rest, status = Ok () → NoDup (names (rest ++ after)) →
     (∀ l, i ≤ l < i + Z.of_nat n →
        files_at s l ≡ₚ at_level l before ++ at_level l rest ∧ NoDup (names (files_at s l))) →
     ∀ l, 0 ≤ l → files_at s' l ≡ₚ if decide (i ≤ l < i + Z.of_nat n) then at_level l rest ++ at_level l after
                                  else files_at s l).
Proof.
  revert i s. induction n as [|n IH]; intros i s Hi Hs; cbn [Update_loop].
  { intros [= <- <-]. split_and!; [done..|]. intros rest _ _ _ l Hl. by rewrite decide_False by lia. }
  destruct (GroupByLevel_spec before) as (_&_&Hb). destruct (GroupByLevel_spec after) as (_&_&Ha). rewrite Hb, Ha.
  destruct (UpdateLevel kc i (at_level i before) (at_level i after) s) as [s1|c m] eqn:E1.
  2: { intros [= <- <-]. split_and!; [done..|]. by intros rest. }
  destruct (UpdateLevel_spec i _ _ s s1 Hi Hs (at_level_level i after) E1) as (Hs1&Hlen1&Hother&Hthis).
  intros E. destruct (IH (i + 1) s1 ltac:(lia) Hs1 E) as (Hs'&Hlen'&Hat). split_and!; [done|congruence|].
  intros rest Hok Hn Hf l Hl.
  assert (Hnow : files_at s1 i ≡ₚ at_level i rest ++ at_level i after).
  { destruct (Hf i) as [Hp Hnd]; [lia|]. apply (Hthis _ Hp (or_intror Hnd)).
    rewrite <-at_level_app. eapply names_sub; [|exact Hn]. apply sublist_submseteq, sublist_filter. }
  rewrite (Hat rest Hok Hn) by (done || (intros l' Hl'; rewrite (Hother l') by lia; apply Hf; lia)).
  destruct (decide (i + 1 ≤ l < i + 1 + Z.of_nat n)), (decide (i ≤ l < i + Z.of_nat (S n))); try lia; [done| |].
  - assert (l = i) as -> by lia. done.
  - by rewrite Hother by lia.
Qed.

Lemma Update_ok before after lv lv' status : levels_ok lv → Update kc before after lv = (lv', status) → levels_ok lv' ∧
  length (levels_ lv') = length (levels_ lv).
Proof.
  intros [Hs Hn]. unfold Update.
  destruct (Update_loop kc (S (length (levels_ lv))) 0 (GroupByLevel before) (GroupByLevel after) (level0_ lv, levels_ lv))
    as [[l0 ls] st] eqn:E. intros [= <- _].
  destruct (Update_loop_spec _ _ _ _ _ _ _ (Z.le_refl 0) Hs E) as (Hs'&Hl&_). cbn in Hl |- *.
  split; [split; [done|cbn; lia]|done].
Qed.

Lemma Update_files before after rest lv lv' notes : levels_ok lv → Update kc before after lv = (lv', Ok notes) →
  AllFiles lv ≡ₚ before ++ rest → NoDup (names (AllFiles lv)) → NoDup (names (rest ++ after)) →
  Forall (λ f, 0 ≤ level f ≤ MaxLevel lv) after → AllFiles lv' ≡ₚ rest ++ after.
Proof.
  intros [Hs Hn] E Hp Hnd Hnd' Ha. pose proof (Update_ok _ _ _ _ _ (conj Hs Hn) E) as [[Hs' _] Hlen].
  unfold Update in E. set (s := (level0_ lv, levels_ lv)) in *.
  destruct (Update_loop kc (S (length (levels_ lv))) 0 (GroupByLevel before) (GroupByLevel after) s) as [[l0 ls] st] eqn:El.
  injection E as <- E. destruct st as [[]|]; [|done]. cbn in Hlen.
  destruct (Update_loop_spec _ _ _ _ _ _ _ (Z.le_refl 0) Hs El) as (_&_&Hat).
  rewrite AllFiles_held in Hp, Hnd |- *. change (level0_ _, levels_ _) with (l0, ls). fold s in Hp, Hnd.
  apply at_level_perm. intros l. rewrite at_level_app.
  destruct (decide (0 ≤ l ≤ MaxLevel lv)) as [Hl|Hl].
  - rewrite at_level_held by exact Hs'. destruct (Z.leb_spec 0 l); [|lia]. unfold MaxLevel in Hl.
    rewrite (Hat rest eq_refl Hnd'); [by rewrite decide_True by lia| |lia].
    intros l' Hl'. assert (Ef : files_at s l' = at_level l' (held s)).
    { rewrite at_level_held by done. by destruct (Z.leb_spec 0 l'); [|lia]. }
    rewrite Ef. split.
    + rewrite <-at_level_app. unfold at_level. by rewrite Hp.
    + eapply names_sub; [|exact Hnd]. apply sublist_submseteq, sublist_filter.
  - unfold MaxLevel in Hl. rewrite at_level_length by (cbn; lia || exact Hs').
    assert (Hr : at_level l (before ++ rest) ≡ₚ []).
    { unfold at_level. rewrite <-Hp. fold (at_level l (held s)). rewrite at_level_length; [done|cbn; lia|done]. }
    rewrite at_level_app in Hr. apply Permutation_nil_r, app_eq_nil in Hr as [_ ->].
    rewrite at_level_none; [done|]. eapply Forall_impl; [exact Ha|]. unfold MaxLevel. cbn. lia.
Qed.

(** *** Create *)

Lemma at_level_sub (xs ys : list t) : (∀ l, at_level l xs ⊆+ at_level l ys) → xs ⊆+ ys.
Proof.
  revert ys. induction xs as [|x xs IH]; intros ys Hl; [apply submseteq_nil_l|].
  assert (Hx : x ∈ ys).
  { assert (Hin : x ∈ at_level (level x) (x :: xs)) by (apply list_elem_of_filter; split; [done|by left]).
    eapply elem_of_submseteq in Hin; [|apply Hl]. by apply list_elem_of_filter in Hin as [_ ?]. }
  apply elem_of_Permutation in Hx as [ys' Hp]. rewrite Hp. apply submseteq_skip, IH. intros l. specialize (Hl l).
  unfold at_level in *. rewrite Hp, !filter_cons in Hl. case_decide; [|done]. by apply (submseteq_app_inv_l _ _ [x]) in Hl.
Qed.

Lemma UpdateLevel_adds l after s s' : state_ok s → Forall (λ f, level f = l) after → UpdateLevel kc l [] after s = Ok s' →
  state_ok s' ∧ length s'.2 = length s.2 ∧ held s' ⊆+ held s ++ after.
Proof.
  intros Hs Ha E. destruct (Z.lt_ge_cases l 0) as [Hneg|Hl].
  { destruct s as [l0 ls], after; cbn in E; [injection E as <-; by rewrite app_nil_r|].
    destruct (Z.eqb_spec l 0); [lia|]. unfold RunOfLevel in E. destruct (Z.leb_spec l 0); [done|lia]. }
  destruct (UpdateLevel_spec l [] after s s' Hl Hs Ha E) as (Hs1&Hlen&Hother&Hthis). split_and!; [done..|].
  apply at_level_sub. intros l'. rewrite at_level_app, !at_level_held by done.
  destruct (Z.leb_spec 0 l'); [|apply submseteq_nil_l]. destruct (decide (l' = l)) as [->|Hne].
  - rewrite at_level_all by done. by apply (Hthis (files_at s l)); [|left].
  - rewrite Hother by done. by apply submseteq_inserts_r.
Qed.

Lemma create_loop (m : list (Z * list t)) s s' : state_ok s → Forall (λ p, Forall (λ f, level f = p.1) p.2) m →
  foldR (λ p s, UpdateLevel kc p.1 [] p.2 s) m s = Ok s' →
  state_ok s' ∧ length s'.2 = length s.2 ∧ held s' ⊆+ held s ++ concat m.*2.
Proof.
  revert s. induction m as [|[l fs] m IH]; intros s Hs Hm; cbn [foldR].
  { intros [= <-]. by rewrite app_nil_r. }
  inversion_clear Hm as [|?? Hfs Hm']. cbn in Hfs. intros (s1&E1&E)%bind_Ok. cbn in E1.
  destruct (UpdateLevel_adds l fs s s1 Hs Hfs E1) as (Hs1&Hl1&Hsub).
  destruct (IH s1 Hs1 Hm' E) as (Hs'&Hl'&Hsub'). split_and!; [done|congruence|].
  rewrite Hsub'. cbn. rewrite app_assoc. by apply submseteq_app.
Qed.

(** Without files to be removed an update, even a failed one, only adds. *)
Lemma Update_loop_adds n i after s s' st f : state_ok s →
  Update_loop kc n i [] (GroupByLevel after) s = (s', st) → f ∈ held s' → f ∈ held s ∨ f ∈ after.
Proof.
  destruct (GroupByLevel_spec after) as (_&_&Ha).
  revert i s. induction n as [|n IH]; intros i s Hs; cbn; [intros [= <- _]; by left|]. rewrite Ha.
  destruct (UpdateLevel kc i [] (at_level i after) s) as [s1|] eqn:E; [|intros [= <- _]; by left].
  destruct (UpdateLevel_adds i _ s s1 Hs (at_level_level i after) E) as (Hs1&_&Hsub). intros Hl Hf.
  destruct (IH _ _ Hs1 Hl Hf) as [Hin|]; [|by right]. eapply elem_of_submseteq in Hin; [|exact Hsub].
  apply elem_of_app in Hin as [?|[_ ?]%list_elem_of_filter]; tauto.
Qed.
Lemma Update_adds after lv lv' st f : levels_ok lv → Update kc [] after lv = (lv', st) →
  f ∈ AllFiles lv' → f ∈ AllFiles lv ∨ f ∈ after.
Proof.
  intros [Hs _]. unfold Update. destruct (Update_loop _ _ _ _ _ _) as [[l0 ls] st'] eqn:E. intros [= <- _].
  rewrite !AllFiles_held. exact (Update_loop_adds _ _ _ _ _ _ f Hs E).
Qed.

Lemma max_level_loop files r : let r' := foldl (λ r file, if r <? level file then level file else r) r files in
  r ≤ r' ∧ Forall (λ f, level f ≤ r') files.
Proof.
  revert r. induction files as [|f files IH]; intros r; cbn; [split; [lia|constructor]|].
  destruct (IH (if r <? level f then level f else r)) as [H1 H2].
  split; [destruct (Z.ltb_spec r (level f)); lia|]. constructor; [|done]. destruct (Z.ltb_spec r (level f)); lia.
Qed.

Lemma group_levels files : Forall (λ p, Forall (λ f, level f = p.1) p.2) (GroupByLevel files).
Proof.
  destruct (GroupByLevel_spec files) as (Hs&_&Hl). apply Forall_forall. intros [l fs] Hin. cbn.
  assert (fs = at_level l files) as ->; [|apply at_level_level]. rewrite <-Hl. clear Hl.
  induction Hs as [|[k ks] m Hs IH Hk]; [by apply elem_of_nil in Hin|]. cbn. apply elem_of_cons in Hin as [[= -> ->]|Hin].
  - by rewrite Z.eqb_refl.
  - rewrite Forall_forall in Hk. specialize (Hk _ Hin). cbn in Hk. destruct (Z.eqb_spec k l); [lia|by apply IH].
Qed.

Lemma total_files (rs : list SortedRun) n :
  foldl (λ n run, n + length (files_ run))%nat n rs = (n + length (concat (files_ <$> rs)))%nat.
Proof. revert n. induction rs as [|r rs IH]; intros n; cbn; [lia|]. rewrite IH, length_app. lia. Qed.

Lemma Create_ok input_files num_levels lv : Create kc input_files num_levels = Ok lv →
  levels_ok lv ∧ AllFiles lv ≡ₚ input_files ∧ num_levels ≤ NumberOfLevels lv ∧ drop_file_callbacks_ lv = [].
Proof.
  unfold Create. destruct (max_level_loop input_files (-1)) as [Hge _].
  set (r := foldl (λ r file, if r <? level file then level file else r) (-1) input_files) in *.
  destruct (Z.leb_spec (Z.max (r + 1) num_levels) 1) as [|Hn]; [done|].
  intros ([l0 ls]&E&E')%bind_Ok. destruct (GroupByLevel_spec input_files) as (_&Hcat&_).
  assert (H0 : state_ok ([], replicate (Z.to_nat (Z.max (r + 1) num_levels - 1)) Empty)).
  { split_and!; [constructor|constructor|]. intros i ri [-> _]%lookup_replicate. by split_and!. }
  destruct (create_loop _ _ _ H0 (group_levels input_files) E) as (Hs&Hlen&Hsub).
  destruct (negb _) eqn:Ecount in E'; [done|]. injection E' as <-.
  apply negb_false_iff, Nat.eqb_eq in Ecount. rewrite total_files in Ecount. cbn in Hlen. rewrite length_replicate in Hlen.
  assert (Hheld : held ([], replicate (Z.to_nat (Z.max (r + 1) num_levels - 1)) Empty) = []).
  { unfold held. cbn. clear. induction (Z.to_nat _) as [|k IH]; [done|]. cbn. done. }
  rewrite Hheld, Hcat in Hsub. cbn in Hsub. split_and!.
  - split; [done|]. cbn. lia.
  - rewrite AllFiles_held. apply submseteq_length_Permutation; [done|]. unfold held. cbn. rewrite length_app. lia.
  - unfold NumberOfLevels. cbn. lia.
  - done.
Qed.
End Invariant.

(** *** Notifications *)

Lemma string_less a b : String.ltb a b = (cmp_string a b <? 0).
Proof. unfold String.ltb, cmp_string. by destruct (String.compare a b). Qed.

Lemma dropped_files_spec before after name :
  name ∈ dropped_files before after ↔ name ∈ names before ∧ name ∉ names after.
Proof.
  unfold dropped_files.
  assert (Heq : ∀ a b : string, @keq string cmp_string a b → a = b).
  { intros a b. unfold keq, CompareTo, cmp_string. destruct (String.compare a b) eqn:E; try done. intros _. by apply String.compare_eq_iff. }
  assert (H1 : ∀ l s, StronglySorted (@klt string cmp_string) s →
    let s' := foldl (λ s file, oset_insert String.ltb (file_name file) s) s l in
    StronglySorted (@klt string cmp_string) s' ∧ (name ∈ s' ↔ name ∈ s ∨ name ∈ names l)).
  { induction l as [|f l IH]; intros s Hs; cbn; [split; [done|]; rewrite elem_of_nil; tauto|].
    destruct (IH (oset_insert String.ltb (file_name f) s)) as [I1 I2];
      [by apply (@oset_insert_sorted string String.ltb cmp_string laws_string string_less)|].
    split; [done|]. rewrite I2, (@oset_insert_iff string String.ltb cmp_string laws_string string_less Heq), elem_of_cons. tauto. }
  assert (H2 : ∀ l s, StronglySorted (@klt string cmp_string) s →
    name ∈ foldl (λ s file, oset_erase String.ltb (file_name file) s) s l ↔ name ∈ s ∧ name ∉ names l).
  { induction l as [|f l IH]; intros s Hs; cbn; [rewrite elem_of_nil; tauto|].
    rewrite IH by (by apply (@oset_erase_sorted string String.ltb cmp_string)).
    rewrite (@oset_erase_iff string String.ltb cmp_string laws_string string_less Heq) by done. rewrite elem_of_cons. tauto. }
  destruct (H1 before []) as [Hs Hb]; [constructor|]. rewrite H2, Hb by done. rewrite elem_of_nil. tauto.
Qed.

(** ** Theorems *)

(** The operations that change a [Levels] object; an update may fail halfway. *)
Inductive levels_step (kc : InternalRow → InternalRow → Z) : Levels → Levels → Prop :=
| step_add_level0 file lv lv' : AddLevel0File file lv = Ok lv' → levels_step kc lv lv'
| step_update before after lv lv' status : Update kc before after lv = (lv', status) → levels_step kc lv lv'
| step_add_callback c lv : levels_step kc lv (AddDropFileCallback c lv)
| step_remove_callback c lv : levels_step kc lv (RemoveDropFileCallback c lv).

Lemma levels_step_ok kc lv lv' : levels_step kc lv lv' → levels_ok kc lv →
  levels_ok kc lv' ∧ length (levels_ lv') = length (levels_ lv).
Proof.
  intros [file lv1 lv2 E|before after lv1 lv2 st E|c lv1|c lv1] Hok; [|by eapply Update_ok|done|done].
  unfold AddLevel0File in E. destruct (Z.eqb_spec (level file) 0) as [E0|]; [|done]. injection E as <-.
  destruct Hok as [(H1&H2&H3) Hn]. split; [|done]. split; [|done]. split_and!; [| |done].
  - by apply (oset_insert_sorted _ Level0Comparator_less).
  - cbn. apply Forall_forall. intros f Hf.
    apply (oset_insert_elem _ Level0Comparator_less) in Hf as [->|Hf]; [done|]. rewrite Forall_forall in H2. by apply H2.
Qed.

(** C24. The invariant of [Levels]: in every state reachable from a created one,
    whatever updates succeeded or failed halfway, level 0 is strictly ordered
    and holds level-0 files only, and every other level is a valid sorted run of
    files of that level with its total size; the number of levels never
    changes. *)
Theorem levels_invariant kc input_files num_levels lv lv' :
  Create kc input_files num_levels = Ok lv → rtc (levels_step kc) lv lv' →
  levels_ok kc lv' ∧ NumberOfLevels lv' = NumberOfLevels lv.
Proof.
  intros (Hok&_)%Create_ok Hr. revert Hok. induction Hr as [lv|lv lv1 lv2 Hstep _ IH]; intros Hok; [done|].
  destruct (levels_step_ok _ _ _ Hstep Hok) as [Hok1 Hl]. destruct (IH Hok1) as [Hok2 E].
  split; [done|]. rewrite E. unfold NumberOfLevels. by rewrite Hl.
Qed.

(** [Levels] loses no file: a created object holds exactly the input files,
    and an update that succeeds exactly replaces the files [before] by the files
    [after], provided file names are unique, the files to be removed are there
    and the new ones belong to an existing level. The callbacks are notified of
    exactly the removed files that are not upgraded. *)
Theorem levels_update_replaces kc input_files num_levels lv callbacks before after rest lv' notes :
  Create kc input_files num_levels = Ok lv →
  Update kc before after (foldr AddDropFileCallback lv callbacks) = (lv', Ok notes) →
  input_files ≡ₚ before ++ rest → NoDup (file_name <$> input_files) → NoDup (file_name <$> rest ++ after) →
  Forall (λ f, 0 ≤ level f ≤ MaxLevel lv) after →
  AllFiles lv ≡ₚ input_files ∧ AllFiles lv' ≡ₚ rest ++ after ∧
  ∀ c name, (c, name) ∈ notes ↔ Some c ∈ callbacks ∧ name ∈ file_name <$> before ∧ name ∉ file_name <$> after.
Proof.
  intros (Hok&Hp&_&Hcb)%Create_ok E Hin Hn Hn' Ha. set (lv1 := foldr AddDropFileCallback lv callbacks) in *.
  assert (H1 : level0_ lv1 = level0_ lv ∧ levels_ lv1 = levels_ lv ∧ ∀ c, c ∈ drop_file_callbacks_ lv1 ↔ c ∈ callbacks).
  { subst lv1. clear -Hcb. induction callbacks as [|c cs IH]; cbn; [by rewrite Hcb|]. destruct IH as (I1&I2&I3).
    split_and!; [done..|]. intros c'. rewrite elem_of_app, I3, list_elem_of_singleton, elem_of_cons. tauto. }
  destruct H1 as (E0&E1&Hc). assert (EA : AllFiles lv1 = AllFiles lv) by (unfold AllFiles, LevelSortedRuns; by rewrite E0, E1).
  split_and!; [done| |].
  - eapply Update_files; [|exact E|rewrite EA, Hp; exact Hin|by rewrite EA, Hp|done|].
    + unfold levels_ok. rewrite E0, E1. exact Hok.
    + unfold MaxLevel. rewrite E1. exact Ha.
  - intros c name. unfold Update in E.
    destruct (Update_loop _ _ _ _ _ _) as [[l0 ls] [u|]]; cbn in E; [|done]. injection E as _ <-.
    rewrite list_elem_of_In, in_flat_map. split.
    + intros ([c'|]&Hc'%list_elem_of_In&Hname); [|done]. apply in_map_iff in Hname as (n'&[= -> ->]&Hn1%list_elem_of_In).
      split; [by apply Hc|by apply dropped_files_spec].
    + intros (Hc'&Hname). exists (Some c). split; [by apply list_elem_of_In, Hc|]. apply in_map_iff.
      exists name. split; [done|]. by apply list_elem_of_In, dropped_files_spec.
Qed.

(** *** Witnesses *)

Definition example_file (name : string) (lvl lo hi seq : Z) : t :=
  mk name 100 10 [VInt lo] [VInt hi] EmptyStats EmptyStats seq (seq + 9) 0 lvl [] (mkTimestamp 0 0) (Some 0) None
     (Some FileSource.Append) None None None None None.
Definition example_key_comparator (a b : InternalRow) : Z :=
  match Rows.Create [INT32] true with Ok c => CompareRows c a b | Err _ _ => 0 end.
Definition example_files : list t :=
  [example_file "a" 0 1 9 30; example_file "b" 0 2 5 20; example_file "c" 1 1 4 10; example_file "d" 1 6 8 0].
Definition example_levels : Levels :=
  match Create example_key_comparator example_files 3 with Ok lv => lv | Err _ _ => mkLevels [] [] [] end.
Definition example_after : list t := [example_file "e" 2 1 9 0].

Lemma levels_invariant_witness :
  levels_ok example_key_comparator (Update example_key_comparator example_files example_after example_levels).1 ∧
  NumberOfLevels (Update example_key_comparator example_files example_after example_levels).1 = NumberOfLevels example_levels.
Proof.
  apply (levels_invariant example_key_comparator example_files 3).
  - vm_compute. reflexivity.
  - apply rtc_once. eapply step_update. apply surjective_pairing.
Defined.

Lemma levels_update_replaces_witness :
  let '(lv', r) := Update example_key_comparator example_files example_after
                     (foldr AddDropFileCallback example_levels [Some 7%nat; None]) in
  ∃ notes, r = Ok notes ∧
  AllFiles example_levels ≡ₚ example_files ∧ AllFiles lv' ≡ₚ [] ++ example_after ∧
  ∀ c name, (c, name) ∈ notes ↔ Some c ∈ [Some 7%nat; None] ∧ name ∈ file_name <$> example_files ∧
    name ∉ file_name <$> example_after.
Proof.
  destruct (Update _ _ _ _) as [lv' r] eqn:E. vm_compute in E. injection E as <- <-. eexists. split; [reflexivity|].
  apply (levels_update_replaces example_key_comparator example_files 3 example_levels [Some 7%nat; None] example_files example_after []).
  - vm_compute. reflexivity.
  - vm_compute. reflexivity.
  - done.
  - apply (bool_decide_unpack _). vm_compute. done.
  - apply (bool_decide_unpack _). vm_compute. done.
  - repeat constructor; vm_compute; done.
Defined.
