(* ===== verification/IntervalPartition.v ===== *)
(** * Interval partitioning

    [IntervalPartition] (src/paimon/core/mergetree/compact/interval_partition.cpp):
    data files with overlapping key intervals are split into sections that do
    not overlap, and each section into the least number of sorted runs. *)

From stdpp Require Import base list strings sorting.
From Stdlib Require Import ZArith Lia.
From S2P Require Import Prelude Decimal Rows Ranges DataFiles LevelsProofs.
Import DataFileMeta SortedRun.
Local Open Scope Z_scope.

Module IntervalPartition.
Section IntervalPartition.
Context (key_comparator_ : InternalRow → InternalRow → Z).

Definition file_less (o1 o2 : t) : bool :=
  let left_result := key_comparator_ (min_key o1) (min_key o2) in
  if left_result =? 0 then key_comparator_ (max_key o1) (max_key o2) <? 0 else left_result <? 0.

(** The constructor sorts with [std::stable_sort]. *)
Definition create (input_files : list t) : list t := std_sort file_less input_files.

(** A run is served after another one if it ends later; runs are not empty. *)
Definition run_after (o1 o2 : list t) : bool :=
  match last o1, last o2 with
  | Some b1, Some b2 =>
      let right_result := key_comparator_ (max_key b1) (max_key b2) in
      if right_result =? 0 then 0 <? key_comparator_ (min_key b1) (min_key b2) else 0 <? right_result
  | _, _ => false
  end.

Fixpoint section_loop (metas : list t) (queue : list (list t)) : list (list t) :=
  match metas, queue with
  | meta :: metas', top :: queue' =>
      match last top with
      | Some back =>
          if 0 <? key_comparator_ (min_key meta) (max_key back)
          then section_loop metas' (pq_push run_after (top ++ [meta]) queue')
          else section_loop metas' (pq_push run_after top (pq_push run_after [meta] queue'))
      | None => queue
      end
  | _, _ => queue
  end.

(** [Partition(metas)], which is not called with an empty section. *)
Definition PartitionSection (metas : list t) : list SortedRun :=
  match metas with
  | [] => []
  | front :: metas' => FromSorted <$> section_loop metas' (pq_push run_after [front] [])
  end.

(** The loop of [Partition()]; the empty row stands for no bound. *)
Fixpoint partition_loop (files : list t) (result : list (list SortedRun)) (section : list t) (bound : InternalRow)
    : list (list SortedRun) :=
  match files with
  | [] => match section with [] => result | _ => result ++ [PartitionSection section] end
  | meta :: files' =>
      let '(result, section, bound) :=
        if (match section with [] => false | _ => true end) && (0 <? key_comparator_ (min_key meta) bound)
        then (result ++ [PartitionSection section], [], [])
        else (result, section, bound) in
      let bound := if bool_decide (bound = []) || (0 <? key_comparator_ (max_key meta) bound)
                   then max_key meta else bound in
      partition_loop files' result (section ++ [meta]) bound
  end.
Definition Partition (files_ : list t) : list (list SortedRun) := partition_loop files_ [] [] [].

(** ** Sections *)

Context {KL : @ComparatorLaws InternalRow key_comparator_}.
#[local] Instance partition_key : Comparator InternalRow := key_comparator_.
Abbreviation before := (SortedRun.before key_comparator_).
Abbreviation key_range_ok := (SortedRun.key_range_ok key_comparator_).

Definition min_le (a b : t) : Prop := kle (min_key a) (min_key b).

Lemma create_sorted files : StronglySorted min_le (create files).
Proof.
  set (cmp := λ a b : t, if key_comparator_ (min_key a) (min_key b) =? 0 then key_comparator_ (max_key a) (max_key b)
                         else key_comparator_ (min_key a) (min_key b)).
  assert (L : @ComparatorLaws t cmp) by (apply laws_lex; [apply (laws_proj min_key _ KL)|apply (laws_proj max_key _ KL)]).
  assert (E : ∀ a b, not_after file_less a b ↔ @kle t cmp a b).
  { intros a b. unfold not_after. rewrite (@kle_flip t cmp L). unfold file_less, CompareTo, cmp.
    destruct (key_comparator_ (min_key b) (min_key a) =? 0); by rewrite Z.ltb_ge. }
  assert (Hs : StronglySorted (not_after file_less) (create files)).
  { apply std_sort_sorted; [intros a b|intros a b c]; rewrite !E; [|apply (@kle_trans t cmp L)].
    destruct (@kle_lt_dec t cmp L a b) as [|H]; [by left|right; by apply klt_le]. }
  eapply sorted_impl_in; [|exact Hs]. intros a b _ _ H%E. unfold min_le, kle, CompareTo, partition_key.
  unfold kle, CompareTo, cmp in H. destruct (Z.eqb_spec (key_comparator_ (min_key a) (min_key b)) 0); lia.
Qed.

(** Every file of [s] ends before every file of [s'] begins. *)
Definition section_before (s s' : list t) : Prop := ∀ a b, a ∈ s → b ∈ s' → before a b.

(** The bound is absent for an empty section, and its greatest key otherwise. *)
Definition bound_ok (section : list t) (bound : InternalRow) : Prop :=
  match section with
  | [] => bound = []
  | _ => bound ≠ [] ∧ ∀ a, a ∈ section → kle (max_key a) bound
  end.

Lemma gt_klt a b : 0 < key_comparator_ a b → klt b a.
Proof. apply (klt_flip b a). Qed.

Lemma bound_ok_snoc section bound meta : bound_ok section bound → max_key meta ≠ [] →
  bound_ok (section ++ [meta])
    (if bool_decide (bound = []) || (0 <? key_comparator_ (max_key meta) bound) then max_key meta else bound).
Proof.
  intros Hb Hm.
  assert (Hgoal : ∀ b, b ≠ [] → (∀ a, a ∈ section ++ [meta] → kle (max_key a) b) → bound_ok (section ++ [meta]) b).
  { intros b H1 H2. unfold bound_ok. destruct (section ++ [meta]) eqn:E; [by destruct section|]. by split. }
  case_bool_decide as Hn; cbn [orb].
  - destruct section as [|x section]; [|by destruct Hb]. apply Hgoal; [done|].
    intros a ->%list_elem_of_singleton. apply kle_refl.
  - destruct section as [|x section]; [done|]. destruct Hb as [_ Hb].
    destruct (Z.ltb_spec 0 (key_comparator_ (max_key meta) bound)) as [H%gt_klt|H]; (apply Hgoal; [done|]);
      intros a [Ha|Ha%list_elem_of_singleton]%elem_of_app; subst; try (specialize (Hb a Ha); clear -Hb H KL; korder).
    + apply kle_refl.
    + exact H.
Qed.

Lemma partition_loop_spec files result section bound :
  StronglySorted min_le (section ++ files) → Forall (λ f, max_key f ≠ []) files → bound_ok section bound →
  ∃ sections, partition_loop files result section bound = result ++ (PartitionSection <$> sections) ∧
    concat sections = section ++ files ∧ Forall (λ s, s ≠ []) sections ∧ StronglySorted section_before sections.
Proof.
  revert result section bound. induction files as [|meta files IH]; intros result section bound Hs Hk Hb; cbn [partition_loop].
  { destruct section as [|x section].
    - exists []. rewrite app_nil_r. split_and!; [done|done|constructor|constructor].
    - exists [x :: section]. cbn. rewrite app_nil_r. split_and!; [done|done|by constructor|repeat constructor]. }
  inversion_clear Hk as [|?? Hm Hk'].
  destruct ((match section with [] => false | _ => true end) && (0 <? key_comparator_ (min_key meta) bound)) eqn:Esplit.
  - apply andb_true_iff in Esplit as [Hne Hgt%Z.ltb_lt%gt_klt]. destruct section as [|x section]; [done|]. clear Hne.
    set (sec := x :: section) in *. destruct Hb as [_ Hb]. cbn [bool_decide orb app].
    destruct (IH (result ++ [PartitionSection sec]) [meta] (max_key meta)) as (sections&E&Hc&Hne&Hsort).
    + by apply StronglySorted_app_1_r in Hs.
    + done.
    + split; [done|]. intros a ->%list_elem_of_singleton. apply kle_refl.
    + exists (sec :: sections). rewrite bool_decide_true by done. cbn [orb]. rewrite E. cbn. rewrite <-app_assoc. split_and!; [done|by rewrite Hc|by constructor|].
      constructor; [done|]. apply Forall_forall. intros s' Hs' a b Ha Hbs.
      assert (Hb' : b ∈ meta :: files) by (change (b ∈ [meta] ++ files); rewrite <-Hc; apply list_elem_of_concat; eauto).
      assert (Hmb : min_le meta b).
      { apply StronglySorted_app_1_r in Hs. inversion_clear Hs as [|?? _ Hmf]. rewrite Forall_forall in Hmf.
        apply elem_of_cons in Hb' as [->|Hb']; [apply kle_refl|by apply Hmf]. }
      specialize (Hb a Ha). unfold min_le in Hmb. unfold SortedRun.before.
      change (klt (max_key a) (min_key b)). clear -Hb Hgt Hmb KL. korder.
  - destruct (IH result (section ++ [meta])
      (if bool_decide (bound = []) || (0 <? key_comparator_ (max_key meta) bound) then max_key meta else bound))
      as (sections&E&Hc&Hne&Hsort); [by rewrite <-app_assoc|done|by apply bound_ok_snoc|].
    exists sections. split_and!; [exact E|by rewrite Hc, <-app_assoc|done|done].
Qed.

(** ** The runs of a section *)

Definition covers_key (k : InternalRow) (f : t) : Prop := kle (min_key f) k ∧ kle k (max_key f).
#[local] Instance covers_key_dec k f : Decision (covers_key k f).
Proof. unfold covers_key. apply _. Defined.

(** A run in the queue: it is sorted, ends with [b] and begins no later than
    the files that are still to come. *)
Definition queued (r : list t) : Prop := r ≠ [] ∧ StronglySorted before r.
Definition run_end (r : list t) : InternalRow := match last r with Some b => max_key b | None => [] end.
Definition ends_le (r r' : list t) : Prop := kle (run_end r) (run_end r').

Lemma queued_last r : queued r → ∃ b, last r = Some b ∧ b ∈ r.
Proof.
  intros [Hne _]. destruct (last r) as [b|] eqn:E; [|by apply last_None in E].
  exists b. split; [done|by apply last_Some_elem_of].
Qed.

Lemma push_queued r q : queued r → Forall queued q → StronglySorted ends_le q →
  Forall queued (pq_push run_after r q) ∧ StronglySorted ends_le (pq_push run_after r q).
Proof.
  intros Hr Hq Hs. split; [by rewrite pq_push_perm; constructor|].
  apply (pq_push_sorted _ queued); try done; [| |intros a b c; unfold ends_le; intros; korder].
  - intros x e Hx He. destruct (queued_last x Hx) as (b&Eb&_), (queued_last e He) as (b'&Eb'&_).
    unfold run_after, ends_le, run_end. rewrite Eb, Eb'.
    destruct (Z.eqb_spec (key_comparator_ (max_key b) (max_key b')) 0) as [E|_].
    + intros _. change (keq (max_key b) (max_key b')) in E. korder.
    + intros H%Z.ltb_lt%gt_klt. by apply klt_le.
  - intros x e Hx He. destruct (queued_last x Hx) as (b&Eb&_), (queued_last e He) as (b'&Eb'&_).
    unfold run_after, ends_le, run_end. rewrite Eb, Eb'.
    destruct (Z.eqb_spec (key_comparator_ (max_key b) (max_key b')) 0) as [E|_].
    + intros _. change (keq (max_key b) (max_key b')) in E. korder.
    + by rewrite Z.ltb_ge.
Qed.

Lemma append_queued r b meta : queued r → last r = Some b → key_range_ok b → klt (max_key b) (min_key meta) →
  queued (r ++ [meta]).
Proof.
  intros [Hne Hs] Hb Hok Hlt. split; [by destruct r|].
  apply StronglySorted_app_2; [|done|repeat constructor]. intros x y Hx Hy%list_elem_of_singleton. subst y.
  assert (Hxb : x = b ∨ before x b).
  { clear -Hs Hb Hx. induction Hs as [|z l Hs IH Hz]; [done|]. rewrite last_cons in Hb. destruct (last l) as [w|] eqn:E.
    - injection Hb as ->. apply elem_of_cons in Hx as [->|Hx]; [|by apply IH]. right. rewrite Forall_forall in Hz.
      apply Hz. by apply last_Some_elem_of.
    - injection Hb as ->. apply last_None in E as ->. left. by apply list_elem_of_singleton in Hx. }
  unfold SortedRun.before, SortedRun.key_range_ok in *. change (klt (max_key x) (min_key meta)).
  destruct Hxb as [->|Hxb]; [done|]. change (klt (max_key x) (min_key b)) in Hxb. change (kle (min_key b) (max_key b)) in Hok. korder.
Qed.

(** One file of every run in the queue, and a file that starts in all of them. *)
Lemma overlapping q P meta : Forall queued q → concat q ≡ₚ P → Forall (λ f, min_le f meta) P → key_range_ok meta →
  Forall (λ r, kle (min_key meta) (run_end r)) q →
  (S (length q) ≤ length (filter (covers_key (min_key meta)) (P ++ [meta])))%nat.
Proof.
  intros Hq Hp Hmin Hok Hend. rewrite filter_app, length_app.
  assert (Hm : filter (covers_key (min_key meta)) [meta] = [meta]).
  { rewrite filter_cons, decide_True; [done|]. split; [apply kle_refl|exact Hok]. }
  rewrite Hm. cbn. rewrite <-Hp, Nat.add_1_r. rewrite <-Hp in Hmin. apply le_n_S. clear Hp Hm P.
  induction q as [|r q IH]; cbn; [lia|]. inversion_clear Hq as [|?? Hr Hq']. inversion_clear Hend as [|?? Hre Hend'].
  cbn in Hmin. apply Forall_app in Hmin as [Hminr Hminq]. rewrite filter_app, length_app. specialize (IH Hq' Hminq Hend').
  destruct (queued_last r Hr) as (b&Eb&Hb). unfold run_end in Hre. rewrite Eb in Hre. rewrite Forall_forall in Hminr.
  assert (b ∈ filter (covers_key (min_key meta)) r) by (apply list_elem_of_filter; split; [split; [by apply Hminr|done]|done]).
  destruct (filter (covers_key (min_key meta)) r); [by apply elem_of_nil in H|]. cbn. lia.
Qed.

Lemma section_loop_spec metas queue P :
  StronglySorted min_le (P ++ metas) → Forall key_range_ok (P ++ metas) →
  queue ≠ [] → Forall queued queue → StronglySorted ends_le queue → concat queue ≡ₚ P →
  (∃ k, (length queue ≤ length (filter (covers_key k) P))%nat) →
  let out := section_loop metas queue in
  Forall queued out ∧ concat out ≡ₚ P ++ metas ∧ ∃ k, (length out ≤ length (filter (covers_key k) (P ++ metas)))%nat.
Proof.
  revert queue P. induction metas as [|meta metas IH]; intros queue P Hs Hok Hne Hq Hsort Hp Hk; cbn [section_loop].
  { rewrite app_nil_r. done. }
  destruct queue as [|top queue]; [done|]. inversion_clear Hq as [|?? Htop Hq']. inversion_clear Hsort as [|?? Hsort' Htopmin].
  destruct (queued_last top Htop) as (back&Eb&Hbin). rewrite Eb.
  assert (HbP : back ∈ P) by (rewrite <-Hp; apply list_elem_of_concat; exists top; split; [by left|done]).
  assert (Hbok : key_range_ok back) by (rewrite Forall_forall in Hok; apply Hok, elem_of_app; by left).
  assert (Hmok : key_range_ok meta) by (rewrite Forall_forall in Hok; apply Hok, elem_of_app; right; by left).
  replace (P ++ meta :: metas) with ((P ++ [meta]) ++ metas) in * by (by rewrite <-app_assoc).
  destruct (Z.ltb_spec 0 (key_comparator_ (min_key meta) (max_key back))) as [Hgt%gt_klt|Hle].
  - destruct (push_queued (top ++ [meta]) queue) as [Hpq Hps]; [by eapply append_queued|done|done|].
    apply IH; try done.
    + intros E. pose proof (pq_push_perm run_after (top ++ [meta]) queue) as Hpp. rewrite E in Hpp. by apply Permutation_nil_l in Hpp.
    + rewrite pq_push_perm. cbn. rewrite <-Hp. cbn. rewrite <-!app_assoc. apply Permutation_app_head, Permutation_app_comm.
    + destruct Hk as [k Hk]. exists k. rewrite pq_push_perm, filter_app, length_app. cbn in Hk |- *. lia.
  - destruct (push_queued [meta] queue) as [Hpq Hps]; [split; [done|repeat constructor]|done|done|].
    destruct (push_queued top (pq_push run_after [meta] queue)) as [Hpq2 Hps2]; [done..|].
    assert (Hperm : pq_push run_after top (pq_push run_after [meta] queue) ≡ₚ top :: [meta] :: queue) by (by rewrite !pq_push_perm).
    apply IH; try done.
    + intros E. rewrite E in Hperm. by apply Permutation_nil_l in Hperm.
    + rewrite Hperm. cbn. rewrite <-Hp. cbn. by rewrite <-app_assoc, <-Permutation_cons_append.
    + exists (min_key meta). rewrite Hperm. cbn.
      apply (overlapping (top :: queue) P meta); [by constructor|done| |done|].
      * apply Forall_forall. intros f Hf. apply StronglySorted_app_1_l in Hs.
        apply (StronglySorted_app_1_elem_of min_le P [meta]); [done|done|by left].
      * assert (Ht : kle (min_key meta) (run_end top)) by (unfold run_end; rewrite Eb; exact Hle).
        constructor; [done|]. eapply Forall_impl; [exact Htopmin|]. intros r Hr. unfold ends_le in Hr. cbn. korder.
Qed.

Lemma PartitionSection_spec metas : metas ≠ [] → StronglySorted min_le metas → Forall key_range_ok metas →
  let out := PartitionSection metas in
  out ≠ [] ∧ Forall (λ r, queued (files_ r)) out ∧ concat (files_ <$> out) ≡ₚ metas ∧
  ∃ k, (length out ≤ length (filter (covers_key k) metas))%nat.
Proof.
  intros Hne Hs Hok out. subst out. destruct metas as [|front metas]; [done|]. cbn [PartitionSection pq_push].
  pose proof Hok as Hfront. inversion_clear Hfront as [|?? Hf _].
  destruct (section_loop_spec metas [[front]] [front]) as (H1&H2&k&H3); try done.
  - constructor; [|done]. split; [done|repeat constructor].
  - repeat constructor.
  - exists (min_key front). rewrite filter_cons, decide_True; [cbn; lia|]. split; [apply kle_refl|exact Hf].
  - assert (E : files_ <$> (FromSorted <$> section_loop metas [[front]]) = section_loop metas [[front]]).
    { rewrite <-list_fmap_compose. by apply list_fmap_id. }
    split_and!.
    + intros E0%fmap_nil_inv. rewrite E0 in H2. by apply Permutation_nil_l in H2.
    + apply Forall_fmap. exact H1.
    + by rewrite E.
    + exists k. rewrite length_fmap. exact H3.
Qed.

(** Files that share a key are in different runs. *)
Lemma runs_pigeonhole k (runs : list (list t)) metas : Forall (StronglySorted before) runs → concat runs ≡ₚ metas →
  Forall key_range_ok metas → (length (filter (covers_key k) metas) ≤ length runs)%nat.
Proof.
  intros Hr Hp _. rewrite <-Hp. clear Hp. induction Hr as [|r runs Hr _ IH]; cbn; [lia|]. rewrite filter_app, length_app.
  assert (length (filter (covers_key k) r) ≤ 1)%nat; [|lia].
  apply (sorted_filter before (covers_key k)) in Hr.
  assert (Hc : Forall (covers_key k) (filter (covers_key k) r)) by (apply Forall_forall; by intros f [? _]%list_elem_of_filter).
  destruct (filter (covers_key k) r) as [|a [|b l]]; [cbn; lia..|]. exfalso.
  inversion_clear Hr as [|?? _ Hab]. inversion_clear Hab as [|?? Hab' _].
  inversion_clear Hc as [|?? [_ Ha] Hc']. inversion_clear Hc' as [|?? [Hb _] _].
  unfold SortedRun.before in Hab'. change (klt (max_key a) (min_key b)) in Hab'. korder.
Qed.
End IntervalPartition.

Lemma Partition_spec kc files :
  @ComparatorLaws InternalRow kc → Forall (key_range_ok kc) files → Forall (λ f, max_key f ≠ []) files →
  let sections := Partition kc (create kc files) in
  concat (concat (fmap (M := list) files_ <$> sections)) ≡ₚ files ∧
  Forall (Forall (λ r, files_ r ≠ [] ∧ IsValid kc r = true)) sections ∧
  StronglySorted (λ s s', ∀ a b, a ∈ concat (files_ <$> s) → b ∈ concat (files_ <$> s') → before kc a b) sections ∧
  Forall (λ s, s ≠ [] ∧ ∀ runs, concat runs ≡ₚ concat (files_ <$> s) → Forall (StronglySorted (before kc)) runs →
                 (length s ≤ length runs)%nat) sections.
Proof.
  intros KL Hok Hk. pose proof (std_sort_Permutation (file_less kc) files) as Hp. fold (create kc files) in Hp.
  pose proof (create_sorted kc files) as Hs. set (fs := create kc files) in *. clearbody fs.
  rewrite <-Hp in Hok, Hk. unfold Partition.
  destruct (partition_loop_spec kc fs [] [] []) as (secs&E&Hc&Hne&Hsort); [done|done|done|]. rewrite E. cbn [app] in *.
  assert (Hsub : ∀ s f, s ∈ secs → f ∈ s → f ∈ fs).
  { intros s f Hin Hf. rewrite <-Hc. apply list_elem_of_concat. eauto. }
  assert (Hspec : ∀ s, s ∈ secs → PartitionSection kc s ≠ [] ∧ Forall (λ r, queued kc (files_ r)) (PartitionSection kc s) ∧
            concat (files_ <$> PartitionSection kc s) ≡ₚ s ∧
            ∃ k, (length (PartitionSection kc s) ≤ length (filter (covers_key kc k) s))%nat).
  { intros s Hin. apply PartitionSection_spec; [done|by rewrite Forall_forall in Hne; apply Hne| |].
    - apply (sorted_concat _ secs); [by rewrite Hc|done].
    - apply Forall_forall. intros f Hf. rewrite Forall_forall in Hok. apply Hok. by apply (Hsub s). }
  assert (Hmem : ∀ s f, s ∈ secs → f ∈ concat (files_ <$> PartitionSection kc s) ↔ f ∈ s).
  { intros s f Hin. destruct (Hspec s Hin) as (_&_&Hps&_). by rewrite Hps. }
  split_and!.
  - rewrite <-Hp, <-Hc. clear -Hspec. induction secs as [|s secs IH]; [done|]. cbn. rewrite concat_app.
    destruct (Hspec s) as (_&_&Hps&_); [by left|]. rewrite Hps, IH; [done|]. intros s' Hs'. apply Hspec. by right.
  - apply Forall_fmap, Forall_forall. intros s Hin. destruct (Hspec s Hin) as (_&Hq&_&_).
    rewrite Forall_forall in Hq. apply Forall_forall. intros r Hr. destruct (Hq r Hr) as [Hr1 Hr2]. split; [done|].
    apply IsValid_sorted; [done| |done]. apply Forall_forall. intros f Hf. rewrite Forall_forall in Hok. apply Hok, (Hsub s); [done|].
    apply Hmem; [done|]. apply list_elem_of_concat. exists (files_ r). split; [by apply list_elem_of_fmap_2|done].
  - eapply (StronglySorted_fmap (PartitionSection kc)); [intros s s' H; exact H|].
    eapply sorted_impl_in; [|exact Hsort]. intros s s' Hin Hin' Hss a b Ha Hb. apply Hss; [by apply Hmem|by apply Hmem].
  - apply Forall_fmap, Forall_forall. intros s Hin. destruct (Hspec s Hin) as (Hn&_&Hps&k&Hlen). split; [done|].
    intros runs Hruns Hsorted. rewrite Hps in Hruns. transitivity (length (filter (covers_key kc k) s)); [done|].
    apply (runs_pigeonhole kc k runs s); [done|done|]. apply Forall_forall. intros f Hf. rewrite Forall_forall in Hok.
    apply Hok. by apply (Hsub s).
Qed.

(** C23. Interval partitioning: the runs hold exactly the input files; every
    run is valid; the key intervals of different sections do not overlap, and
    the sections are ascending; and a section has the least number of runs into
    which its files can be split. The files have a first key not after their
    last one, and keys are not the empty row. *)
Theorem interval_partition_correct kc files :
  @ComparatorLaws InternalRow kc → Forall (key_range_ok kc) files → Forall (λ f, max_key f ≠ []) files →
  let sections := Partition kc (create kc files) in
  concat (concat (fmap (M := list) files_ <$> sections)) ≡ₚ files ∧
  Forall (Forall (λ r, files_ r ≠ [] ∧ IsValid kc r = true)) sections ∧
  StronglySorted (λ s s', ∀ a b, a ∈ concat (files_ <$> s) → b ∈ concat (files_ <$> s') → before kc a b) sections ∧
  Forall (λ s, s ≠ [] ∧ ∀ runs, concat runs ≡ₚ concat (files_ <$> s) → Forall (StronglySorted (before kc)) runs →
                 (length s ≤ length runs)%nat) sections.
Proof. apply Partition_spec. Qed.

Lemma interval_partition_correct_witness :
  let sections := Partition example_key_comparator (create example_key_comparator example_files) in
  concat (concat (fmap (M := list) files_ <$> sections)) ≡ₚ example_files ∧
  Forall (Forall (λ r, files_ r ≠ [] ∧ IsValid example_key_comparator r = true)) sections ∧
  StronglySorted (λ s s', ∀ a b, a ∈ concat (files_ <$> s) → b ∈ concat (files_ <$> s') → before example_key_comparator a b) sections ∧
  Forall (λ s, s ≠ [] ∧ ∀ runs, concat runs ≡ₚ concat (files_ <$> s) → Forall (StronglySorted (before example_key_comparator)) runs →
                 (length s ≤ length runs)%nat) sections.
Proof.
  apply (interval_partition_correct example_key_comparator example_files).
  - exact (Create_laws [INT32] true _ ltac:(repeat constructor) eq_refl).
  - repeat constructor; vm_compute; done.
  - repeat constructor; done.
Defined.
End IntervalPartition.
