(* ===== verification/Compaction.v ===== *)
(** * Compaction of a merge tree

    What is compacted and how: [CompactUnit], [CompactResult], the strategies
    [UniversalCompaction] (with [EarlyFullCompaction] and [OffPeakHours]),
    [ForceUpLevel0Compaction] and [CompactStrategy::PickFullCompaction], the
    tasks [MergeTreeCompactTask] and [FileRewriteCompactTask], and
    [MergeTreeCompactManager], which drives them
    (src/paimon/core/compact and src/paimon/core/mergetree/compact). *)

From stdpp Require Import base list strings sorting.
From Stdlib Require Import ZArith Lia SpecFloat.
From S2P Require Import Prelude Decimal Rows Ranges DataFiles IntervalPartition.
Import DataFileMeta SortedRun Levels.
Local Open Scope Z_scope.

(** ** CompactUnit and CompactResult *)

Record CompactUnit := mkUnit { output_level : Z; unit_files : list t; file_rewrite : bool }.

Definition FromFiles (output_level : Z) (files : list t) (file_rewrite : bool) : CompactUnit :=
  mkUnit output_level files file_rewrite.
Definition FromLevelRuns (output_level : Z) (runs : list LevelSortedRun) : CompactUnit :=
  FromFiles output_level (concat (map (λ r, files_ (run r)) runs)) false.

(** [D] is the type of deletion files. *)
Record CompactResult (D : Type) := mkResult {
  before_ : list t;
  after_ : list t;
  changelog_ : list t;
  deletion_file_ : option D
}.
Arguments mkResult {D} _ _ _ _.
Arguments before_ {D} _.
Arguments after_ {D} _.
Arguments changelog_ {D} _.
Arguments deletion_file_ {D} _.

Definition empty_result {D} : CompactResult D := mkResult [] [] [] None.
Definition SetDeletionFile {D} (d : option D) (r : CompactResult D) : CompactResult D :=
  mkResult (before_ r) (after_ r) (changelog_ r) d.
Definition Merge {D} (r other : CompactResult D) : Result (CompactResult D) :=
  let merged := mkResult (before_ r ++ before_ other) (after_ r ++ after_ other) (changelog_ r ++ changelog_ other)
                         (deletion_file_ r) in
  match deletion_file_ r, deletion_file_ other with
  | None, None => Ok merged
  | _, _ => Err NotImplemented "There is a bug, deletion file can't be set before merge."
  end.

(** ** OffPeakHours *)

Module OffPeakHours.
Record t := mk { start_hour_ : Z; end_hour_ : Z; compact_off_peak_ratio_ : Z }.
Definition Create (start_hour end_hour compact_off_peak_ratio : Z) : option t :=
  if (start_hour =? -1) || (end_hour =? -1) then None
  else if start_hour =? end_hour then None
  else Some (mk start_hour end_hour compact_off_peak_ratio).
Definition CurrentRatio (o : t) (target_hour : Z) : Z :=
  let is_off_peak :=
    if start_hour_ o <=? end_hour_ o then (start_hour_ o <=? target_hour) && (target_hour <? end_hour_ o)
    else (target_hour <? end_hour_ o) || (start_hour_ o <=? target_hour) in
  if is_off_peak then compact_off_peak_ratio_ o else 0.
End OffPeakHours.

(** ** Strategies

    The clock and the local hour are read at every call: the state counts the
    readings of the two. *)

Section Strategies.
Context (clock : nat → Z) (local_hour : nat → Result Z).

Record StrategyState := mkStrategyState {
  last_full_compaction_ : option Z;
  readings : nat;
  compact_trigger_count_ : Z
}.

(** [GetCurrentUTCTimeUs] divided by the microseconds of a millisecond. *)
Definition CurrentTimeMillis (s : StrategyState) : Z * StrategyState :=
  (Z.quot (clock (readings s)) 1000, mkStrategyState (last_full_compaction_ s) (S (readings s)) (compact_trigger_count_ s)).
Definition UpdateLastFullCompaction (s : StrategyState) : StrategyState :=
  let '(now, s) := CurrentTimeMillis s in mkStrategyState (Some now) (readings s) (compact_trigger_count_ s).

(** *** EarlyFullCompaction *)

Record EarlyFullCompaction := mkEarlyFull {
  full_compaction_interval_ : option Z;
  total_size_threshold_ : option Z;
  incremental_size_threshold_ : option Z
}.

Definition CreateEarlyFull (interval total_size_threshold incremental_size_threshold : option Z)
    : option EarlyFullCompaction :=
  match interval, total_size_threshold, incremental_size_threshold with
  | None, None, None => None
  | _, _, _ => Some (mkEarlyFull interval total_size_threshold incremental_size_threshold)
  end.

Definition sum_sizes (runs : list LevelSortedRun) : Z :=
  foldl (λ size r, int64 (size + TotalSize (run r))) 0 runs.

Definition TryFullCompact (e : EarlyFullCompaction) (num_levels : Z) (runs : list LevelSortedRun) (s : StrategyState)
    : option CompactUnit * StrategyState :=
  match runs with
  | [] | [_] => (None, s)
  | _ =>
      let max_level := num_levels - 1 in
      let full s := (Some (FromLevelRuns max_level runs), UpdateLastFullCompaction s) in
      let '(by_interval, s) :=
        match full_compaction_interval_ e with
        | None => (false, s)
        | Some interval =>
            match last_full_compaction_ s with
            | None => (true, s)
            | Some last => let '(now, s) := CurrentTimeMillis s in (interval <? int64 (now - last), s)
            end
        end in
      if by_interval then full s
      else if match total_size_threshold_ e with Some th => sum_sizes runs <? th | None => false end then full s
      else if match incremental_size_threshold_ e with
              | Some th => th <? sum_sizes (filter (λ r, run_level r ≠ max_level) runs)
              | None => false
              end then full s
      else (None, s)
  end.

(** *** UniversalCompaction *)

Record UniversalCompaction := mkUniversal {
  max_size_amp_ : Z;
  size_ratio_ : Z;
  num_run_compaction_trigger_ : Z;
  early_full_compaction_ : option EarlyFullCompaction;
  off_peak_hours_ : option OffPeakHours.t
}.

Definition note_full (u : UniversalCompaction) (s : StrategyState) : StrategyState :=
  match early_full_compaction_ u with Some _ => UpdateLastFullCompaction s | None => s end.

(** The loop of [CreateUnit] that takes in level-0 runs and the one after. *)
Fixpoint absorb (runs : list LevelSortedRun) (run_count : nat) (output_level : Z) : nat * Z :=
  match runs with
  | [] => (run_count, output_level)
  | next :: rest =>
      if negb (run_level next =? 0) then (S run_count, run_level next) else absorb rest (S run_count) output_level
  end.
Definition CreateUnit (u : UniversalCompaction) (runs : list LevelSortedRun) (max_level : Z) (run_count : nat)
    (s : StrategyState) : CompactUnit * StrategyState :=
  let output_level :=
    match runs !! run_count with
    | None => max_level
    | Some next => Z.max 0 (run_level next - 1)
    end in
  let '(run_count, output_level) :=
    if output_level =? 0 then absorb (drop run_count runs) run_count output_level else (run_count, output_level) in
  let '(output_level, s) :=
    if (run_count =? length runs)%nat then (max_level, note_full u s) else (output_level, s) in
  (FromLevelRuns output_level (take run_count runs), s).

Definition PickForSizeAmp (u : UniversalCompaction) (max_level : Z) (runs : list LevelSortedRun) (s : StrategyState)
    : option CompactUnit * StrategyState :=
  if Z.of_nat (length runs) <? num_run_compaction_trigger_ u then (None, s)
  else
    let candidate_size := sum_sizes (take (length runs - 1) runs) in
    let earliest_size := match last runs with Some r => TotalSize (run r) | None => 0 end in
    if int64 (max_size_amp_ u * earliest_size) <? int64 (candidate_size * 100)
    then (Some (FromLevelRuns max_level runs), note_full u s)
    else (None, s).

(** The hour is read even if there are no off-peak hours. *)
Definition RatioForOffPeak (u : UniversalCompaction) (s : StrategyState) : Result Z * StrategyState :=
  (hour ← local_hour (readings s);
   Ok (match off_peak_hours_ u with None => 0 | Some o => OffPeakHours.CurrentRatio o hour end),
   mkStrategyState (last_full_compaction_ s) (S (readings s)) (compact_trigger_count_ s)).

Definition CandidateSize (runs : list LevelSortedRun) (candidate_count : nat) : Z := sum_sizes (take candidate_count runs).

(** IEEE 754 double precision. *)
Definition double (z : Z) : spec_float := binary_normalize 53 1024 z 0 false.
Definition within_ratio (candidate_size size_ratio hour_ratio next_size : Z) : bool :=
  let factor := SFadd 53 1024 (SFadd 53 1024 (double 100) (double size_ratio)) (double hour_ratio) in
  let size := SFdiv 53 1024 (SFmul 53 1024 (double candidate_size) factor) (double 100) in
  negb (SFltb size (double next_size)).

Fixpoint size_ratio_loop (u : UniversalCompaction) (rest : list LevelSortedRun) (candidate_size : Z) (candidate_count : nat)
    (s : StrategyState) : Result nat * StrategyState :=
  match rest with
  | [] => (Ok candidate_count, s)
  | next :: rest' =>
      match RatioForOffPeak u s with
      | (Err c m, s) => (Err c m, s)
      | (Ok current_hour_ratio, s) =>
          if within_ratio candidate_size (size_ratio_ u) current_hour_ratio (TotalSize (run next))
          then size_ratio_loop u rest' (int64 (candidate_size + TotalSize (run next))) (S candidate_count) s
          else (Ok candidate_count, s)
      end
  end.
Definition PickForSizeRatio (u : UniversalCompaction) (max_level : Z) (runs : list LevelSortedRun) (candidate_count : nat)
    (force_pick : bool) (s : StrategyState) : Result (option CompactUnit) * StrategyState :=
  match size_ratio_loop u (drop candidate_count runs) (CandidateSize runs candidate_count) candidate_count s with
  | (Err c m, s) => (Err c m, s)
  | (Ok candidate_count, s) =>
      if force_pick || (1 <? candidate_count)%nat
      then let '(unit, s) := CreateUnit u runs max_level candidate_count s in (Ok (Some unit), s)
      else (Ok None, s)
  end.

Definition PickUniversal (u : UniversalCompaction) (num_levels : Z) (runs : list LevelSortedRun) (s : StrategyState)
    : Result (option CompactUnit) * StrategyState :=
  let max_level := num_levels - 1 in
  let '(early, s) := match early_full_compaction_ u with
                     | Some e => TryFullCompact e num_levels runs s
                     | None => (None, s)
                     end in
  match early with
  | Some unit => (Ok (Some unit), s)
  | None =>
      let '(amp, s) := PickForSizeAmp u max_level runs s in
      match amp with
      | Some unit => (Ok (Some unit), s)
      | None =>
          let '(ratio, s) :=
            if Z.of_nat (length runs) <? num_run_compaction_trigger_ u then (Ok None, s)
            else PickForSizeRatio u max_level runs 1 false s in
          match ratio with
          | Err c m => (Err c m, s)
          | Ok (Some unit) => (Ok (Some unit), s)
          | Ok None =>
              if num_run_compaction_trigger_ u <? Z.of_nat (length runs) then
                let candidate_count := (length runs - Z.to_nat (num_run_compaction_trigger_ u) + 1)%nat in
                PickForSizeRatio u max_level runs candidate_count false s
              else (Ok None, s)
          end
      end
  end.

(** The number of runs before the first one of a positive level. *)
Fixpoint count_level0 (runs : list LevelSortedRun) : nat :=
  match runs with
  | [] => 0
  | r :: rest => if 0 <? run_level r then 0 else S (count_level0 rest)
  end.
Definition ForcePickL0 (u : UniversalCompaction) (num_levels : Z) (runs : list LevelSortedRun) (s : StrategyState)
    : Result (option CompactUnit) * StrategyState :=
  match count_level0 runs with
  | O => (Ok None, s)
  | candidate_count => PickForSizeRatio u (num_levels - 1) runs candidate_count true s
  end.

(** *** ForceUpLevel0Compaction *)

(** [compact_trigger_count_] counts up to the interval and starts again. *)
Definition PickForceUpLevel0 (u : UniversalCompaction) (max_compact_interval_ : option Z) (num_levels : Z)
    (runs : list LevelSortedRun) (s : StrategyState) : Result (option CompactUnit) * StrategyState :=
  let '(unit, s) := PickUniversal u num_levels runs s in
  match unit with
  | Err c m => (Err c m, s)
  | Ok (Some unit) => (Ok (Some unit), s)
  | Ok None =>
      match max_compact_interval_ with
      | None => ForcePickL0 u num_levels runs s
      | Some interval =>
          let count := Int.wrap_s 32 (compact_trigger_count_ s + 1) in
          if count =? interval
          then ForcePickL0 u num_levels runs (mkStrategyState (last_full_compaction_ s) (readings s) 0)
          else (Ok None, mkStrategyState (last_full_compaction_ s) (readings s) count)
      end
  end.

(** *** Full compaction *)

(** [has_dv] tells for which files there is a deletion vector, [None] stands
    for a null maintainer. *)
Definition PickFullCompaction (num_levels : Z) (runs : list LevelSortedRun) (has_dv : option (string → bool))
    (force_rewrite_all_files : bool) : option CompactUnit :=
  let max_level := num_levels - 1 in
  let full := Some (FromLevelRuns max_level runs) in
  match runs with
  | [] => None
  | [r] =>
      if run_level r =? max_level then
        let chosen file := force_rewrite_all_files || match has_dv with Some dv => dv (file_name file) | None => false end in
        match filter (λ file, chosen file = true) (files_ (run r)) with
        | [] => None
        | files_to_be_compacted => Some (FromFiles max_level files_to_be_compacted true)
        end
      else full
  | _ => full
  end.
End Strategies.

(** ** CompactRewriter

    The interface of the rewriters; the default [Upgrade] only changes the
    level in the metadata. *)
Record CompactRewriter (D : Type) := mkRewriter {
  Rewrite : Z → bool → list (list SortedRun) → Result (CompactResult D);
  UpgradeFile : Z → t → Result (CompactResult D)
}.
Arguments mkRewriter {D} _ _.
Arguments Rewrite {D} _ _ _ _.
Arguments UpgradeFile {D} _ _ _.

(** [MergeTreeCompactRewriter::Upgrade]. *)
Definition DefaultUpgrade {D} (output_level : Z) (file : t) : Result (CompactResult D) :=
  upgraded_file ← DataFileMeta.Upgrade file output_level; Ok (mkResult [file] [upgraded_file] [] None).
Definition ExtractFilesFromSections (sections : list (list SortedRun)) : list t :=
  concat (map (λ section, concat (map files_ section)) sections).

(** ** MergeTreeCompactTask *)

Module MergeTreeCompactTask.
Section Task.
Context {D : Type} (rewriter_ : CompactRewriter D).
Context (min_file_size_ output_level_ max_level_ : Z) (drop_delete_ force_rewrite_all_files_ : bool).

(** The candidates, the result so far and the number of upgraded files. *)
Record State := mk {
  candidate : list (list SortedRun);
  result : CompactResult D;
  upgrade_files_num_ : Z
}.

Definition ContainsDeleteRecords (file : t) : bool :=
  match delete_row_count file with None => true | Some n => 0 <? n end.

Definition RewriteImpl (candidate : list (list SortedRun)) (s : State) : Result State :=
  rewritten ← Rewrite rewriter_ output_level_ drop_delete_ candidate;
  r ← Merge (result s) rewritten;
  Ok (mk [] r (upgrade_files_num_ s)).

(** A rewrite of a single file uses candidates of its own. *)
Definition Upgrade (file : t) (s : State) : Result State :=
  if ((output_level_ =? max_level_) && ContainsDeleteRecords file) || force_rewrite_all_files_ then
    s' ← RewriteImpl [[FromSingle file]] s;
    Ok (mk (candidate s) (result s') (upgrade_files_num_ s'))
  else if negb (level file =? output_level_) then
    upgraded ← UpgradeFile rewriter_ output_level_ file;
    r ← Merge (result s) upgraded;
    Ok (mk (candidate s) r (upgrade_files_num_ s + 1))
  else Ok s.

Definition RewriteCandidates (s : State) : Result State :=
  match candidate s with
  | [] => Ok s
  | [[]] => Err Invalid "invalid section, section cannot be empty in candidate"
  | [[run]] =>
      s ← foldR Upgrade (files_ run) s;
      Ok (mk [] (result s) (upgrade_files_num_ s))
  | candidate => RewriteImpl candidate s
  end.

Definition do_file (file : t) (s : State) : Result State :=
  if file_size file <? min_file_size_
  then Ok (mk (candidate s ++ [[FromSingle file]]) (result s) (upgrade_files_num_ s))
  else s ← RewriteCandidates s; Upgrade file s.
Definition do_section (section : list SortedRun) (s : State) : Result State :=
  match section with
  | [] => Ok s
  | [run] => foldR do_file (files_ run) s
  | _ => Ok (mk (candidate s ++ [section]) (result s) (upgrade_files_num_ s))
  end.

Definition DoCompact (partitioned_ : list (list SortedRun)) (compact_df_supplier_ : Result (option D))
    : Result (CompactResult D) :=
  s ← foldR do_section partitioned_ (mk [] empty_result 0);
  s ← RewriteCandidates s;
  deletion_file ← compact_df_supplier_;
  Ok (SetDeletionFile deletion_file (result s)).
End Task.
End MergeTreeCompactTask.

(** ** FileRewriteCompactTask *)

Module FileRewriteCompactTask.
Section Task.
Context {D : Type} (rewriter_ : CompactRewriter D) (output_level_ : Z) (drop_delete_ : bool).
Definition RewriteFile (file : t) (to_update : CompactResult D) : Result (CompactResult D) :=
  rewritten ← Rewrite rewriter_ output_level_ drop_delete_ [[FromSingle file]];
  Merge to_update rewritten.
Definition DoCompact (files_ : list t) : Result (CompactResult D) := foldR RewriteFile files_ empty_result.
End Task.
End FileRewriteCompactTask.

(** ** MergeTreeCompactManager *)

Module MergeTreeCompactManager.
Section Manager.
Context {D : Type}.

(** The strategy with its state. *)
Record CompactStrategy := mkStrategy {
  SState : Type;
  Pick : Z → list LevelSortedRun → SState → Result (option CompactUnit) * SState
}.

Context (key_comparator_ : InternalRow → InternalRow → Z) (strategy_ : CompactStrategy).
Context (compaction_file_size_ num_sorted_run_stop_trigger_ : Z) (has_dv : option (string → bool)).
Context (need_lookup_ force_rewrite_all_files_ force_keep_delete_ : bool).

(** What [SubmitCompaction] hands to the executor. *)
Record Submitted := mkSubmitted { unit_ : CompactUnit; drop_delete : bool; max_level_ : Z }.

Record State := mk {
  levels : Levels;
  strategy_state : SState strategy_;
  task_future_ : option Submitted;
  cancelled_ : bool
}.

Definition ShouldWaitForLatestCompaction (s : State) : bool :=
  num_sorted_run_stop_trigger_ <? NumberOfSortedRuns (levels s).
Definition ShouldWaitForPreparingCheckpoint (s : State) : bool :=
  num_sorted_run_stop_trigger_ + 1 <? NumberOfSortedRuns (levels s).
Definition CompactNotCompleted (s : State) : bool :=
  match task_future_ s with Some _ => true | None => false end ||
  (need_lookup_ && match level0_ (levels s) with [] => false | _ => true end).

(** A failed update leaves the levels updated so far. *)
Definition AddNewFile (file : t) (s : State) : State * Result unit :=
  let '(lv, status) := Update key_comparator_ [] [file] (levels s) in
  (mk lv (strategy_state s) (task_future_ s) (cancelled_ s), _ ← status; Ok ()).

Definition RequestCancelCompaction (s : State) : State :=
  mk (levels s) (strategy_state s) (task_future_ s) true.
Definition WaitForCompactionToExit (s : State) : State :=
  mk (levels s) (strategy_state s) None (cancelled_ s).

Definition SubmitCompaction (unit : CompactUnit) (drop_delete : bool) (s : State) : State :=
  mk (levels s) (strategy_state s) (Some (mkSubmitted unit drop_delete (MaxLevel (levels s)))) false.

(** Whether the deletions can be dropped: there is no older data. *)
Definition can_drop_delete (unit : CompactUnit) (lv : Levels) : bool :=
  negb force_keep_delete_ && negb (output_level unit =? 0) &&
  ((NonEmptyHighestLevel lv <=? output_level unit) || match has_dv with Some _ => true | None => false end).

Definition worthwhile (unit : CompactUnit) : bool :=
  match unit_files unit with
  | [] => false
  | [f] => negb (level f =? output_level unit)
  | _ => true
  end.

Definition TriggerCompaction (full_compaction : bool) (s : State) : State * Result unit :=
  let runs := LevelSortedRuns (levels s) in
  match task_future_ s with
  | Some _ =>
      (s, if full_compaction
          then Err Invalid "A compaction task is still running while the user forces a new compaction. This is unexpected."
          else Ok ())
  | None =>
      let '(picked, s) :=
        if full_compaction
        then (Ok (PickFullCompaction (NumberOfLevels (levels s)) runs has_dv force_rewrite_all_files_), s)
        else
          let '(picked, ss) := Pick strategy_ (NumberOfLevels (levels s)) runs (strategy_state s) in
          (picked ← picked; Ok (match picked with
                                | Some unit => if worthwhile unit then Some unit else None
                                | None => None
                                end),
           mk (levels s) ss (task_future_ s) (cancelled_ s)) in
      match picked with
      | Err c m => (s, Err c m)
      | Ok None => (s, Ok ())
      | Ok (Some unit) => (SubmitCompaction unit (can_drop_delete unit (levels s)) s, Ok ())
      end
  end.

(** The submitted task, run by the executor with some rewriter. *)
Definition execute (rewriter : CompactRewriter D) (compact_df_supplier : Result (option D)) (task : Submitted)
    : Result (CompactResult D) :=
  let unit := unit_ task in
  if file_rewrite unit
  then FileRewriteCompactTask.DoCompact rewriter (output_level unit) (drop_delete task) (unit_files unit)
  else MergeTreeCompactTask.DoCompact rewriter compaction_file_size_ (output_level unit) (max_level_ task)
         (drop_delete task) force_rewrite_all_files_
         (IntervalPartition.Partition key_comparator_ (IntervalPartition.create key_comparator_ (unit_files unit)))
         compact_df_supplier.

(** [ready]: the call blocks or the task is done; [outcome] is what the task
    returns. *)
Definition GetCompactionResult (ready : bool) (outcome : Submitted → Result (CompactResult D)) (s : State)
    : State * Result (option (CompactResult D)) :=
  match task_future_ s with
  | None => (s, Ok None)
  | Some task =>
      if ready then
        let s := mk (levels s) (strategy_state s) None (cancelled_ s) in
        match outcome task with
        | Err Cancelled _ => (s, Ok None)
        | Err c m => (s, Err c m)
        | Ok r =>
            let '(lv, status) := Update key_comparator_ (before_ r) (after_ r) (levels s) in
            (mk lv (strategy_state s) None (cancelled_ s), _ ← status; Ok (Some r))
        end
      else (s, Ok None)
  end.
End Manager.
End MergeTreeCompactManager.
