(* ===== verification/CompactionTasks.v ===== *)
(** * Correctness of the compaction tasks

    What a task does to its files is a sequence of rewrites, upgrades and files
    left alone, each file being in exactly one of them; so a task replaces its
    files by files of the output level, and it fails only if its rewriter or the
    supplier of the deletion file does. *)

From stdpp Require Import base list strings sorting relations.
From Stdlib Require Import ZArith Lia.
From S2P Require Import Prelude Decimal Rows Ranges DataFiles LevelsProofs IntervalPartition Compaction CompactionProofs.
Import DataFileMeta SortedRun Levels.
Local Open Scope Z_scope.

(** The files that are never separated: a section of several runs, or a single
    file of a section of one run. *)
Definition section_files (section : list SortedRun) : list t := concat (map files_ section).
Definition atoms_of (section : list SortedRun) : list (list t) :=
  match section with
  | [] => []
  | [run] => map (λ f, [f]) (files_ run)
  | _ => [section_files section]
  end.
Definition atoms (sections : list (list SortedRun)) : list (list t) := concat (map atoms_of sections).

Lemma concat_singletons (l : list t) : concat (map (λ f, [f]) l) = l.
Proof. induction l as [|f l IH]; cbn; congruence. Qed.
Lemma concat_atoms sections : concat (atoms sections) = ExtractFilesFromSections sections.
Proof.
  unfold atoms, ExtractFilesFromSections. induction sections as [|s sections IH]; [done|]. cbn. rewrite concat_app, IH. f_equal.
  destruct s as [|r [|r' s]]; [done| |]; cbn [atoms_of]; cbn; rewrite app_nil_r; [apply concat_singletons|done].
Qed.

Lemma Merge_Ok {D} (r other r' : CompactResult D) : Merge r other = Ok r' →
  before_ r' = before_ r ++ before_ other ∧ after_ r' = after_ r ++ after_ other ∧ deletion_file_ r' = deletion_file_ r.
Proof. unfold Merge. destruct (deletion_file_ r), (deletion_file_ other); try done. by intros [= <-]. Qed.

Import MergeTreeCompactTask.

Section Task.
Context {D : Type} (rewriter : CompactRewriter D) (min_file_size out max_level : Z) (drop force : bool).
Context (sections : list (list SortedRun)).

(** The sections that can be passed on to the rewriter. *)
Definition from_sections (section : list SortedRun) : Prop :=
  section ∈ sections ∧ (2 ≤ length section)%nat ∨
  ∃ run f, [run] ∈ sections ∧ f ∈ files_ run ∧ section = [FromSingle f].
Definition must_rewrite (f : t) : bool := (out =? max_level) && ContainsDeleteRecords f || force.

(** One action: the atoms it takes, the files it removes and those it adds. *)
Inductive did : list (list t) → list t → list t → Prop :=
| did_rewrite secs r : Forall from_sections secs → Rewrite rewriter out drop secs = Ok r →
    did (map section_files secs) (before_ r) (after_ r)
| did_upgrade f r : level f ≠ out → must_rewrite f = false → UpgradeFile rewriter out f = Ok r →
    did [[f]] (before_ r) (after_ r)
| did_keep f : level f = out → must_rewrite f = false → did [[f]] [] [].
Inductive dids : list (list t) → list t → list t → Prop :=
| dids_nil : dids [] [] []
| dids_snoc A b a A' b' a' : dids A b a → did A' b' a' → dids (A ++ A') (b ++ b') (a ++ a').

(** The actions so far and the candidates make up what has been processed, in
    this order. *)
Definition progress (processed : list (list t)) (s : State (D := D)) : Prop :=
  ∃ A, dids A (before_ (result s)) (after_ (result s)) ∧ A ++ map section_files (candidate s) = processed ∧
    Forall from_sections (candidate s).

Abbreviation RewriteImpl := (RewriteImpl rewriter out drop).
Abbreviation Upgrade := (Upgrade rewriter out max_level drop force).
Abbreviation RewriteCandidates := (RewriteCandidates rewriter out max_level drop force).
Abbreviation do_file := (do_file rewriter min_file_size out max_level drop force).
Abbreviation do_section := (do_section rewriter min_file_size out max_level drop force).

Lemma RewriteImpl_did A secs s s' : dids A (before_ (result s)) (after_ (result s)) → Forall from_sections secs →
  RewriteImpl secs s = Ok s' →
  candidate s' = [] ∧ dids (A ++ map section_files secs) (before_ (result s')) (after_ (result s')).
Proof.
  intros HA Hc. unfold MergeTreeCompactTask.RewriteImpl. intros (r&Hr&(m&(Hb&Ha&_)%Merge_Ok&[= <-])%bind_Ok)%bind_Ok. cbn.
  split; [done|]. rewrite Hb, Ha. apply dids_snoc; [done|]. by apply did_rewrite.
Qed.

Lemma Upgrade_did A f run s s' : dids A (before_ (result s)) (after_ (result s)) → [run] ∈ sections → f ∈ files_ run →
  Upgrade f s = Ok s' →
  candidate s' = candidate s ∧ dids (A ++ [[f]]) (before_ (result s')) (after_ (result s')).
Proof.
  intros HA Hrun Hf. unfold MergeTreeCompactTask.Upgrade. fold (must_rewrite f). destruct (must_rewrite f) eqn:Em.
  - intros (s1&Hs1&[= <-])%bind_Ok. cbn. split; [done|].
    apply (RewriteImpl_did A [[FromSingle f]]) in Hs1 as [_ H]; [done|done|]. apply Forall_singleton. right. by exists run, f.
  - destruct (Z.eqb_spec (level f) out) as [El|El]; cbn.
    + intros [= <-]. split; [done|]. rewrite <-(app_nil_r (before_ _)), <-(app_nil_r (after_ _)). apply dids_snoc; [done|].
      by apply did_keep.
    + intros (r&Hr&(m&(Hb&Ha&_)%Merge_Ok&[= <-])%bind_Ok)%bind_Ok. cbn. split; [done|]. rewrite Hb, Ha.
      apply dids_snoc; [done|]. by apply did_upgrade.
Qed.

Lemma RewriteCandidates_progress P s s' : progress P s → RewriteCandidates s = Ok s' → progress P s' ∧ candidate s' = [].
Proof.
  intros (A&HA&Hp&Hc). unfold MergeTreeCompactTask.RewriteCandidates.
  assert (Hrw : RewriteImpl (candidate s) s = Ok s' → progress P s' ∧ candidate s' = []).
  { intros H. destruct (RewriteImpl_did A _ _ _ HA Hc H) as [Hcand Hd]. split; [|done]. exists (A ++ map section_files (candidate s)).
    rewrite Hcand. cbn. by rewrite app_nil_r. }
  destruct (candidate s) as [|sec [|sec' rest]] eqn:Ec; [intros [= <-]; split; [exists A; by rewrite Ec|done]| |
    by destruct sec as [|? [|? ?]]].
  destruct sec as [|run [|run' sec]]; [done| |done].
  intros (s1&Hs1&[= <-])%bind_Ok. split; [|done]. cbn.
  inversion Hc as [|? ? [[_ Hlen]|(run0&f&Hr0&Hf&[= ->])] _]; subst; [cbn in Hlen; lia|].
  cbn in Hs1. apply bind_Ok in Hs1 as (s2&Hs2&[= <-]).
  destruct (Upgrade_did A f run0 _ _ HA Hr0 Hf Hs2) as [_ Hd].
  exists (A ++ [[f]]). cbn. rewrite app_nil_r. by split_and!.
Qed.

Lemma do_file_progress P f run s s' : progress P s → [run] ∈ sections → f ∈ files_ run → do_file f s = Ok s' →
  progress (P ++ [[f]]) s'.
Proof.
  intros Hs Hrun Hf. unfold MergeTreeCompactTask.do_file. destruct (file_size f <? min_file_size).
  - intros [= <-]. destruct Hs as (A&HA&Hp&Hc). exists A. cbn. split_and!; [done| |].
    + by rewrite map_app, app_assoc, <-Hp.
    + apply Forall_app. split; [done|]. apply Forall_singleton. right. by exists run, f.
  - intros (s1&Hs1&Hu)%bind_Ok. destruct (RewriteCandidates_progress P s s1 Hs Hs1) as [(A&HA&Hp&_) Hc].
    destruct (Upgrade_did A f run _ _ HA Hrun Hf Hu) as [Hc' Hd]. exists (A ++ [[f]]). rewrite Hc', Hc in *.
    split_and!; [done| |constructor]. cbn in *. rewrite app_nil_r in *. by rewrite <-Hp.
Qed.

Lemma do_files_progress P fs run s s' : progress P s → [run] ∈ sections → (∀ f, f ∈ fs → f ∈ files_ run) →
  foldR do_file fs s = Ok s' → progress (P ++ map (λ f, [f]) fs) s'.
Proof.
  revert P s. induction fs as [|f fs IH]; intros P s Hs Hrun Hin; cbn [foldR map].
  { intros [= <-]. by rewrite app_nil_r. }
  intros (s1&Hs1&Hrest)%bind_Ok. apply (do_file_progress P f run) in Hs1; [|done|done|apply Hin; by left].
  apply (IH (P ++ [[f]])) in Hrest; [|done|done|intros g Hg; apply Hin; by right]. by rewrite <-app_assoc in Hrest.
Qed.

Lemma do_section_progress P sec s s' : progress P s → sec ∈ sections → do_section sec s = Ok s' → progress (P ++ atoms_of sec) s'.
Proof.
  intros Hs Hsec. unfold MergeTreeCompactTask.do_section. destruct sec as [|run [|run' sec]].
  - intros [= <-]. cbn. by rewrite app_nil_r.
  - by apply (do_files_progress P (files_ run) run).
  - intros [= <-]. destruct Hs as (A&HA&Hp&Hc). exists A. cbn [candidate result]. split_and!; [done| |].
    + by rewrite map_app, app_assoc, <-Hp.
    + apply Forall_app. split; [done|]. apply Forall_singleton. left. split; [done|cbn; lia].
Qed.

(** A task that succeeds has dealt with every atom exactly once, in the order of
    the sections. *)
Lemma DoCompact_did df r : DoCompact rewriter min_file_size out max_level drop force sections df = Ok r →
  dids (atoms sections) (before_ r) (after_ r).
Proof.
  unfold DoCompact. intros (s1&H1&(s2&H2&(d&_&[= <-])%bind_Ok)%bind_Ok)%bind_Ok. cbn.
  assert (Hloop : ∀ secs P s s', progress P s → (∀ x, x ∈ secs → x ∈ sections) → foldR do_section secs s = Ok s' →
            progress (P ++ atoms secs) s').
  { clear. induction secs as [|sec secs IH]; intros P s s' Hs Hin; cbn [foldR].
    { intros [= <-]. unfold atoms. cbn. by rewrite app_nil_r. }
    intros (s1&Hs1&Hrest)%bind_Ok. apply (do_section_progress P) in Hs1; [|done|apply Hin; by left].
    apply (IH (P ++ atoms_of sec)) in Hrest; [|done|intros x Hx; apply Hin; by right].
    unfold atoms in *. cbn. by rewrite <-app_assoc in Hrest. }
  apply (Hloop sections []) in H1; [|exists []; by split_and!; [constructor| |constructor]|done].
  destruct (RewriteCandidates_progress _ _ _ H1 H2) as [(A&HA&Hp&_) Hc]. rewrite Hc in Hp. cbn in Hp. rewrite app_nil_r in Hp.
  by rewrite <-Hp.
Qed.

(** ** Failures *)

(** The rewriter accepts every list of sections that are not empty. *)
Definition rewriter_succeeds : Prop :=
  (∀ secs, Forall (λ sec, sec ≠ []) secs → ∃ r, Rewrite rewriter out drop secs = Ok r ∧ deletion_file_ r = None) ∧
  (∀ f, ∃ r, UpgradeFile rewriter out f = Ok r ∧ deletion_file_ r = None).

(** The states in which no call can fail. *)
Definition runnable (s : State (D := D)) : Prop := Forall (λ sec, sec ≠ []) (candidate s) ∧ deletion_file_ (result s) = None.

Context (Hrw : rewriter_succeeds).

Lemma Merge_succeeds (r other : CompactResult D) : deletion_file_ r = None → deletion_file_ other = None →
  ∃ r', Merge r other = Ok r' ∧ deletion_file_ r' = None.
Proof. intros E1 E2. unfold Merge. rewrite E1, E2. by eexists. Qed.

Lemma RewriteImpl_succeeds secs s : runnable s → Forall (λ sec, sec ≠ []) secs → ∃ s', RewriteImpl secs s = Ok s' ∧ runnable s'.
Proof.
  intros [_ Hd] Hc. unfold MergeTreeCompactTask.RewriteImpl. destruct (proj1 Hrw secs Hc) as (r&->&Hr).
  destruct (Merge_succeeds (result s) r Hd Hr) as (m&Hm&Hmd). cbn. rewrite Hm. cbn. eexists. split; [done|]. by split; [constructor|].
Qed.

Lemma Upgrade_succeeds f s : runnable s → ∃ s', Upgrade f s = Ok s' ∧ runnable s'.
Proof.
  intros Hs. unfold MergeTreeCompactTask.Upgrade. destruct (_ || force).
  - destruct (RewriteImpl_succeeds [[FromSingle f]] s Hs) as (s'&->&Hs'); [by repeat constructor|]. cbn. eexists. split; [done|].
    split; [apply Hs|apply Hs'].
  - destruct (negb _); [|by exists s]. destruct (proj2 Hrw f) as (r&->&Hr).
    destruct (Merge_succeeds (result s) r (proj2 Hs) Hr) as (m&Hm&Hmd). cbn. rewrite Hm. cbn. eexists. split; [done|].
    split; [apply Hs|done].
Qed.

Lemma foldR_succeeds {A S} (f : A → S → Result S) (I : S → Prop) l s :
  (∀ x s, x ∈ l → I s → ∃ s', f x s = Ok s' ∧ I s') → I s → ∃ s', foldR f l s = Ok s' ∧ I s'.
Proof.
  revert s. induction l as [|x l IH]; intros s Hf Hs; [by exists s|]. cbn.
  destruct (Hf x s) as (s1&->&H1); [by left|done|]. cbn. apply IH; [|done]. intros y s2 Hy. apply Hf. by right.
Qed.

Lemma RewriteCandidates_succeeds s : runnable s → ∃ s', RewriteCandidates s = Ok s' ∧ runnable s'.
Proof.
  intros Hs. unfold MergeTreeCompactTask.RewriteCandidates. pose proof (RewriteImpl_succeeds _ s Hs (proj1 Hs)) as Hr.
  pose proof (proj1 Hs) as Hc. destruct (candidate s) as [|sec [|sec' rest]]; [by exists s| |].
  - inversion Hc as [|? ? Hne _]; subst. destruct sec as [|run [|run' sec]]; [done| |done].
    destruct (foldR_succeeds Upgrade runnable (files_ run) s) as (s'&->&Hs'); [|done|].
    + intros f s' _. apply Upgrade_succeeds.
    + cbn. eexists. split; [done|]. split; [constructor|apply Hs'].
  - by destruct sec as [|? [|? ?]].
Qed.

Lemma do_section_succeeds sec s : runnable s → ∃ s', do_section sec s = Ok s' ∧ runnable s'.
Proof.
  intros Hs. unfold MergeTreeCompactTask.do_section. destruct sec as [|run [|run' sec]]; [by exists s| |].
  - apply foldR_succeeds; [|done]. intros f s1 _ H1. unfold MergeTreeCompactTask.do_file. destruct (file_size f <? min_file_size).
    + eexists. split; [done|]. split; [|apply H1]. apply Forall_app. split; [apply H1|by repeat constructor].
    + destruct (RewriteCandidates_succeeds s1 H1) as (s2&->&H2). by apply Upgrade_succeeds.
  - eexists. split; [done|]. split; [|apply Hs]. apply Forall_app. split; [apply Hs|by repeat constructor].
Qed.

Lemma DoCompact_succeeds df : ∃ r, DoCompact rewriter min_file_size out max_level drop force sections (Ok df) = Ok r.
Proof.
  unfold DoCompact. destruct (foldR_succeeds do_section runnable sections (mk [] empty_result 0)) as (s1&->&H1).
  - intros sec s _. apply do_section_succeeds.
  - by split; [constructor|].
  - cbn. destruct (RewriteCandidates_succeeds s1 H1) as (s2&->&_). by eexists.
Qed.
End Task.

(** ** Tasks of the manager *)

(** What the tasks rely on: a rewriter consumes the files it is given and
    produces files of the output level. *)
Class RewriterOK {D} (rewriter : CompactRewriter D) : Prop := {
  rewrite_ok out drop secs r : Rewrite rewriter out drop secs = Ok r →
    before_ r = ExtractFilesFromSections secs ∧ Forall (λ f, level f = out) (after_ r);
  upgrade_ok out f r : UpgradeFile rewriter out f = Ok r → before_ r = [f] ∧ Forall (λ f', level f' = out) (after_ r)
}.

Section Effects.
Context {D : Type} (rewriter : CompactRewriter D) {HR : RewriterOK rewriter} (out max_level : Z) (drop force : bool).
Context (sections : list (list SortedRun)).
Abbreviation did := (did rewriter out max_level drop force sections).
Abbreviation dids := (dids rewriter out max_level drop force sections).

(** What is neither removed nor added is at the output level already. *)
Lemma did_replaces A b a : did A b a → ∃ kept, b ++ kept ≡ₚ concat A ∧
  Forall (λ f, level f = out ∧ must_rewrite out max_level force f = false) kept ∧ Forall (λ f, level f = out) a.
Proof.
  intros [secs r _ Hr|f r _ _ Hr|f Hl Hm].
  - destruct (rewrite_ok _ _ _ _ Hr) as [-> Ha]. exists []. rewrite app_nil_r. by split_and!; [|constructor|].
  - destruct (upgrade_ok _ _ _ Hr) as [-> Ha]. exists []. by split_and!; [|constructor|].
  - exists [f]. split_and!; [done|by repeat constructor|constructor].
Qed.
Lemma dids_replaces A b a : dids A b a → ∃ kept, b ++ kept ≡ₚ concat A ∧
  Forall (λ f, level f = out ∧ must_rewrite out max_level force f = false) kept ∧ Forall (λ f, level f = out) a.
Proof.
  induction 1 as [|A b a A' b' a' _ (k&Hp&Hk&Ha) (k'&Hp'&Hk'&Ha')%did_replaces].
  - exists []. by split_and!; [|constructor|constructor].
  - exists (k ++ k'). split_and!; [|by apply Forall_app|by apply Forall_app]. rewrite concat_app, <-Hp, <-Hp'.
    rewrite <-!app_assoc. apply Permutation_app_head. rewrite !app_assoc. apply Permutation_app_tail, Permutation_app_comm.
Qed.
End Effects.

Section FileRewrite.
Context {D : Type} (rewriter : CompactRewriter D) (out max_level : Z) (drop force : bool).

Lemma FileRewrite_did files r : FileRewriteCompactTask.DoCompact rewriter out drop files = Ok r →
  dids rewriter out max_level drop force [[FromSorted files]] (map (λ f, [f]) files) (before_ r) (after_ r).
Proof.
  unfold FileRewriteCompactTask.DoCompact.
  assert (H : ∀ fs A s, (∀ f, f ∈ fs → f ∈ files) → foldR (FileRewriteCompactTask.RewriteFile rewriter out drop) fs s = Ok r →
    dids rewriter out max_level drop force [[FromSorted files]] A (before_ s) (after_ s) →
    dids rewriter out max_level drop force [[FromSorted files]] (A ++ map (λ f, [f]) fs) (before_ r) (after_ r)).
  { induction fs as [|f fs IH]; intros A s Hin; cbn [foldR map]; [intros [= <-]; by rewrite app_nil_r|].
    intros (s1&Hs1&Hrest)%bind_Ok HA. change ([f] :: map (λ f, [f]) fs) with ([[f]] ++ map (λ f, [f]) fs). rewrite app_assoc.
    apply (IH _ s1); [intros g Hg; apply Hin; by right|done|].
    unfold FileRewriteCompactTask.RewriteFile in Hs1. apply bind_Ok in Hs1 as (w&Hw&(Hb&Ha&_)%Merge_Ok). rewrite Hb, Ha.
    apply dids_snoc; [done|]. apply (did_rewrite _ _ _ _ _ _ [[FromSingle f]]); [|done]. apply Forall_singleton. right.
    exists (FromSorted files), f. split_and!; [by left|apply Hin; by left|done]. }
  intros E. apply (H files [] empty_result); [done|done|constructor].
Qed.
End FileRewrite.
