(* ===== verification/AsyncPipeline.v ===== *)
(** * The asynchronous conversion pipeline

    [AsyncKeyValueProducerAndConsumer]
    (src/paimon/core/io/async_key_value_producer_and_consumer.{h,cpp}): a
    producer thread merges records into batches and pushes them to a bounded
    queue, consumer threads convert the batches and push the results to another
    bounded queue, and the caller of [NextBatch] takes them out or closes the
    pipeline at any time. The threads are modelled as a transition system whose
    atomic steps are the accesses to the queues and to the flags; a step that
    only waits is not a transition. *)

From stdpp Require Import base list strings relations.
From Stdlib Require Import ZArith Lia.
From S2P Require Import Prelude.

Section Pipeline.
(** [convert] is the conversion of a batch ([RowToArrowArrayConverter::NextBatch]). *)
Context {B R : Type} (convert : B → Result R).

(** ** Threads *)

(** The producer: the calls of [sink->Write] it has still to make and the
    status of [Produce] after them. [PPush]: the flag has been checked. [PEof]:
    [Produce] has returned and the empty batch is to be pushed. *)
Inductive Producer :=
| PRun (todo : list B) (status : Result unit)
| PPush (b : B) (todo : list B) (status : Result unit)
| PEof
| PDone (status : Result unit).

(** A consumer: at the loop condition, at [try_pop], converting, pushing a
    result, pushing the empty batch back, after the loop, and returned. *)
Inductive Consumer :=
| CCheck | CPop | CConvert (b : B) | CPush (r : R) | CRepush | CExit | CDone | CFailed (b : B).

(** The caller: using the pipeline, having seen the end, or in [CleanUp]. *)
Inductive Client :=
| KActive | KFinished
| KDrainResults | KDrainRows | KJoinProducer | KJoinConsumers (i : nat)
| KDrainResultsAgain | KDrainRowsAgain | KClosed.

#[export] Instance Client_eq_dec : EqDecision Client.
Proof. solve_decision. Defined.

Record State := mk {
  producer : Producer;
  consumers : list Consumer;
  client : Client;
  kv_queue_ : list (option B);          (* [None] is the empty batch *)
  result_queue_ : list R;
  consume_finished_ : bool;
  consumer_finished_count_ : nat;
  delivered : list R
}.

Definition RESULT_BATCH_COUNT : nat := 3.
Definition kv_capacity (s : State) : nat := length (consumers s) * 2.

Definition start (batches : list B) (status : Result unit) (consumer_thread_num : nat) : State :=
  mk (PRun batches status) (replicate consumer_thread_num CCheck) KActive [] [] false 0 [].

(** ** Steps *)

(** [ProducerStop] is the loop condition of [Produce] that finds the pipeline
    cancelled; the other producer steps are those of [Write]. *)
Inductive Action :=
| ProducerStep | ProducerStop | ConsumerStep (i : nat) | Deliver | Eof | Fail | Close | CleanUp.

Definition set_producer (p : Producer) (s : State) : State :=
  mk p (consumers s) (client s) (kv_queue_ s) (result_queue_ s) (consume_finished_ s) (consumer_finished_count_ s) (delivered s).
Definition set_client (k : Client) (s : State) : State :=
  mk (producer s) (consumers s) k (kv_queue_ s) (result_queue_ s) (consume_finished_ s) (consumer_finished_count_ s) (delivered s).
Definition set_consumer (i : nat) (c : Consumer) (s : State) : State :=
  mk (producer s) (<[i := c]> (consumers s)) (client s) (kv_queue_ s) (result_queue_ s) (consume_finished_ s)
     (consumer_finished_count_ s) (delivered s).
Definition set_kv (q : list (option B)) (s : State) : State :=
  mk (producer s) (consumers s) (client s) q (result_queue_ s) (consume_finished_ s) (consumer_finished_count_ s) (delivered s).
Definition set_results (q : list R) (s : State) : State :=
  mk (producer s) (consumers s) (client s) (kv_queue_ s) q (consume_finished_ s) (consumer_finished_count_ s) (delivered s).

(** A push blocks while the queue is full. *)
Definition push_kv (b : option B) (s : State) : option State :=
  if (length (kv_queue_ s) <? kv_capacity s)%nat then Some (set_kv (kv_queue_ s ++ [b]) s) else None.
Definition push_result (r : R) (s : State) : option State :=
  if (length (result_queue_ s) <? RESULT_BATCH_COUNT)%nat then Some (set_results (result_queue_ s ++ [r]) s) else None.

(** [AsyncKeyValueQueueBatchSink::Write] and the end of [ProduceLoop]. *)
Definition producer_step (s : State) : option State :=
  match producer s with
  | PRun [] (Ok _) => Some (set_producer PEof s)
  | PRun [] (Err c m) => Some (set_producer (PDone (Err c m)) s)
  | PRun (b :: todo) status =>
      if consume_finished_ s
      then Some (set_producer (PDone (Err Cancelled "Key value conversion is cancelled")) s)
      else Some (set_producer (PPush b todo status) s)
  | PPush b todo status => set_producer (PRun todo status) <$> push_kv (Some b) s
  | PEof => set_producer (PDone (Ok ())) <$> push_kv None s
  | PDone _ => None
  end.
Definition producer_stop (s : State) : option State :=
  match producer s with
  | PRun _ _ => if consume_finished_ s then Some (set_producer PEof s) else None
  | _ => None
  end.

(** [AsyncKeyValueConsumer::ConsumeLoop]. With an empty queue the consumer
    sleeps until there is a batch or the pipeline is cancelled. *)
Definition consumer_step (i : nat) (s : State) : option State :=
  match consumers s !! i with
  | None => None
  | Some c =>
      match c with
      | CCheck => Some (set_consumer i (if consume_finished_ s then CExit else CPop) s)
      | CPop =>
          match kv_queue_ s with
          | Some b :: q => Some (set_consumer i (CConvert b) (set_kv q s))
          | None :: q => Some (set_consumer i CRepush (set_kv q s))
          | [] => if consume_finished_ s then Some (set_consumer i CExit s) else None
          end
      | CConvert b =>
          Some (set_consumer i (match convert b with Ok r => CPush r | Err _ _ => CFailed b end) s)
      | CPush r => set_consumer i CCheck <$> push_result r s
      | CRepush => set_consumer i CExit <$> push_kv None s
      | CExit =>
          Some (mk (producer s) (<[i := CDone]> (consumers s)) (client s) (kv_queue_ s) (result_queue_ s)
                   (consume_finished_ s) (S (consumer_finished_count_ s)) (delivered s))
      | CDone | CFailed _ => None
      end
  end.

Definition failed (c : Consumer) : bool := match c with CFailed _ => true | _ => false end.
Definition returned (c : Consumer) : bool := match c with CDone | CFailed _ => true | _ => false end.
(** [CheckStatus] finds an error. *)
Definition has_error (s : State) : bool :=
  match producer s with PDone (Err _ _) => true | _ => false end || existsb failed (consumers s).

(** The caller: [NextBatchWithType] and [CleanUp]. *)
Definition begin_cleanup (s : State) : State :=
  mk (producer s) (consumers s) KDrainResults (kv_queue_ s) (result_queue_ s) true (consumer_finished_count_ s) (delivered s).
Definition in_use (k : Client) : bool := match k with KActive | KFinished => true | _ => false end.
Definition client_step (a : Action) (s : State) : option State :=
  match a with
  | Deliver =>
      match client s, result_queue_ s with
      | KActive, r :: q =>
          Some (mk (producer s) (consumers s) KActive (kv_queue_ s) q (consume_finished_ s)
                   (consumer_finished_count_ s) (delivered s ++ [r]))
      | _, _ => None
      end
  | Eof =>
      match client s, result_queue_ s with
      | KActive, [] =>
          if (consumer_finished_count_ s =? length (consumers s))%nat then Some (set_client KFinished s) else None
      | _, _ => None
      end
  | Fail => if in_use (client s) && has_error s then Some (begin_cleanup s) else None
  | Close => if in_use (client s) then Some (begin_cleanup s) else None
  | _ => None
  end.
Definition cleanup_step (s : State) : option State :=
  match client s with
  | KDrainResults =>
      match result_queue_ s with _ :: q => Some (set_results q s) | [] => Some (set_client KDrainRows s) end
  | KDrainRows =>
      match kv_queue_ s with _ :: q => Some (set_kv q s) | [] => Some (set_client KJoinProducer s) end
  | KJoinProducer => match producer s with PDone _ => Some (set_client (KJoinConsumers 0) s) | _ => None end
  | KJoinConsumers i =>
      match consumers s !! i with
      | None => Some (set_client KDrainResultsAgain s)
      | Some c => if returned c then Some (set_client (KJoinConsumers (S i)) s) else None
      end
  | KDrainResultsAgain =>
      match result_queue_ s with _ :: q => Some (set_results q s) | [] => Some (set_client KDrainRowsAgain s) end
  | KDrainRowsAgain =>
      match kv_queue_ s with _ :: q => Some (set_kv q s) | [] => Some (set_client KClosed s) end
  | KActive | KFinished | KClosed => None
  end.

Definition act (a : Action) (s : State) : option State :=
  match a with
  | ProducerStep => producer_step s
  | ProducerStop => producer_stop s
  | ConsumerStep i => consumer_step i s
  | CleanUp => cleanup_step s
  | _ => client_step a s
  end.
Definition step (s s' : State) : Prop := ∃ a, act a s = Some s'.
Fixpoint run (as_ : list Action) (s : State) : option State :=
  match as_ with [] => Some s | a :: rest => s' ← act a s; run rest s' end.
End Pipeline.

Arguments Consumer B R : clear implicits.
Arguments Producer B : clear implicits.
Arguments State B R : clear implicits.
