(* ===== verification/AsyncPipelineProofs.v ===== *)
(** * Correctness of the asynchronous conversion pipeline

    Every run of the pipeline ends, whatever the scheduling; batches are neither
    lost nor duplicated, and a single consumer keeps their order; closing never
    blocks with up to three consumers, and can block forever with four. *)

From stdpp Require Import base list strings relations.
From Stdlib Require Import ZArith Lia.
From S2P Require Import Prelude AsyncPipeline.

(** ** Sums over a list *)

Lemma sum_insert {A} (f : A → nat) (l : list A) i x y : l !! i = Some x →
  (sum_list_with f (<[i := y]> l) + f x = sum_list_with f l + f y)%nat.
Proof.
  revert i. induction l as [|z l IH]; intros i H; [done|]. destruct i as [|i]; simpl in H |- *.
  - injection H as ->. lia.
  - specialize (IH i H). lia.
Qed.
Lemma sum_lookup {A} (f : A → nat) (l : list A) i x : l !! i = Some x → (f x ≤ sum_list_with f l)%nat.
Proof.
  revert i. induction l as [|z l IH]; intros i H; [done|]. destruct i as [|i]; cbn in *.
  - injection H as ->. lia.
  - apply IH in H. lia.
Qed.

Section Proofs.
Context {B R : Type} (convert : B → Result R).
Implicit Types s : State B R.
Abbreviation step := (step convert).
Abbreviation act := (act convert).

(** ** Termination *)

Definition producer_weight (p : Producer B) : nat :=
  match p with
  | PRun todo _ => 8 * length todo + 8
  | PPush _ todo _ => 8 * length todo + 15
  | PEof => 7
  | PDone _ => 0
  end.
Definition consumer_weight (c : Consumer B R) : nat :=
  match c with
  | CCheck => 5 | CPop => 4 | CConvert _ => 8 | CPush _ => 7 | CRepush => 8 | CExit => 1 | CDone | CFailed _ => 0
  end.
Definition client_weight (n : nat) (k : Client) : nat :=
  match k with
  | KActive => n + 20 | KFinished => n + 19 | KDrainResults => n + 10 | KDrainRows => n + 9 | KJoinProducer => n + 8
  | KJoinConsumers i => 7 + (n - i) | KDrainResultsAgain => 3 | KDrainRowsAgain => 2 | KClosed => 1
  end.
Definition measure s : nat :=
  producer_weight (producer s) + sum_list_with consumer_weight (consumers s) + client_weight (length (consumers s)) (client s) +
  6 * length (kv_queue_ s) + length (result_queue_ s).

Lemma push_kv_Some b s s' : push_kv b s = Some s' ↔ (length (kv_queue_ s) < kv_capacity s)%nat ∧ s' = set_kv (kv_queue_ s ++ [b]) s.
Proof. unfold push_kv. destruct (Nat.ltb_spec (length (kv_queue_ s)) (kv_capacity s)); split; [intros [= <-]; done|by intros [_ ->]|done|lia]. Qed.
Lemma push_result_Some r s s' :
  push_result r s = Some s' ↔ (length (result_queue_ s) < 3)%nat ∧ s' = set_results (result_queue_ s ++ [r]) s.
Proof.
  unfold push_result, RESULT_BATCH_COUNT. destruct (Nat.ltb_spec (length (result_queue_ s)) 3); split; [intros [= <-]; done|by intros [_ ->]|done|lia].
Qed.

(** All transitions, one rule each. *)
Inductive transition : State B R → State B R → Prop :=
| t_return cs k kv rs fin cnt del :
    transition (mk (PRun [] (Ok ())) cs k kv rs fin cnt del) (mk PEof cs k kv rs fin cnt del)
| t_error c m cs k kv rs fin cnt del :
    transition (mk (PRun [] (Err c m)) cs k kv rs fin cnt del) (mk (PDone (Err c m)) cs k kv rs fin cnt del)
| t_cancelled b todo st c m cs k kv rs cnt del :
    transition (mk (PRun (b :: todo) st) cs k kv rs true cnt del) (mk (PDone (Err c m)) cs k kv rs true cnt del)
| t_checked b todo st cs k kv rs cnt del :
    transition (mk (PRun (b :: todo) st) cs k kv rs false cnt del) (mk (PPush b todo st) cs k kv rs false cnt del)
| t_push b todo st cs k kv rs fin cnt del : (length kv < length cs * 2)%nat →
    transition (mk (PPush b todo st) cs k kv rs fin cnt del) (mk (PRun todo st) cs k (kv ++ [Some b]) rs fin cnt del)
| t_push_eof cs k kv rs fin cnt del : (length kv < length cs * 2)%nat →
    transition (mk PEof cs k kv rs fin cnt del) (mk (PDone (Ok ())) cs k (kv ++ [None]) rs fin cnt del)
| t_stop todo st cs k kv rs cnt del :
    transition (mk (PRun todo st) cs k kv rs true cnt del) (mk PEof cs k kv rs true cnt del)
| t_check i p cs k kv rs cnt del : cs !! i = Some CCheck →
    transition (mk p cs k kv rs false cnt del) (mk p (<[i := CPop]> cs) k kv rs false cnt del)
| t_leave i p cs k kv rs cnt del : cs !! i = Some CCheck →
    transition (mk p cs k kv rs true cnt del) (mk p (<[i := CExit]> cs) k kv rs true cnt del)
| t_pop i b p cs k kv rs fin cnt del : cs !! i = Some CPop →
    transition (mk p cs k (Some b :: kv) rs fin cnt del) (mk p (<[i := CConvert b]> cs) k kv rs fin cnt del)
| t_pop_eof i p cs k kv rs fin cnt del : cs !! i = Some CPop →
    transition (mk p cs k (None :: kv) rs fin cnt del) (mk p (<[i := CRepush]> cs) k kv rs fin cnt del)
| t_pop_none i p cs k rs cnt del : cs !! i = Some CPop →
    transition (mk p cs k [] rs true cnt del) (mk p (<[i := CExit]> cs) k [] rs true cnt del)
| t_convert i b r p cs k kv rs fin cnt del : cs !! i = Some (CConvert b) → convert b = Ok r →
    transition (mk p cs k kv rs fin cnt del) (mk p (<[i := CPush r]> cs) k kv rs fin cnt del)
| t_convert_fail i b p cs k kv rs fin cnt del : cs !! i = Some (CConvert b) →
    transition (mk p cs k kv rs fin cnt del) (mk p (<[i := CFailed b]> cs) k kv rs fin cnt del)
| t_push_result i r p cs k kv rs fin cnt del : cs !! i = Some (CPush r) → (length rs < 3)%nat →
    transition (mk p cs k kv rs fin cnt del) (mk p (<[i := CCheck]> cs) k kv (rs ++ [r]) fin cnt del)
| t_repush i p cs k kv rs fin cnt del : cs !! i = Some CRepush → (length kv < length cs * 2)%nat →
    transition (mk p cs k kv rs fin cnt del) (mk p (<[i := CExit]> cs) k (kv ++ [None]) rs fin cnt del)
| t_exit i p cs k kv rs fin cnt del : cs !! i = Some CExit →
    transition (mk p cs k kv rs fin cnt del) (mk p (<[i := CDone]> cs) k kv rs fin (S cnt) del)
| t_deliver r p cs kv rs fin cnt del :
    transition (mk p cs KActive kv (r :: rs) fin cnt del) (mk p cs KActive kv rs fin cnt (del ++ [r]))
| t_eof p cs kv fin del :
    transition (mk p cs KActive kv [] fin (length cs) del) (mk p cs KFinished kv [] fin (length cs) del)
| t_close k p cs kv rs fin cnt del : in_use k = true →
    transition (mk p cs k kv rs fin cnt del) (mk p cs KDrainResults kv rs true cnt del)
| t_drain_result k r p cs kv rs fin cnt del : k = KDrainResults ∨ k = KDrainResultsAgain →
    transition (mk p cs k kv (r :: rs) fin cnt del) (mk p cs k kv rs fin cnt del)
| t_drain_rows k b p cs kv rs fin cnt del : k = KDrainRows ∨ k = KDrainRowsAgain →
    transition (mk p cs k (b :: kv) rs fin cnt del) (mk p cs k kv rs fin cnt del)
| t_drained_results p cs kv fin cnt del :
    transition (mk p cs KDrainResults kv [] fin cnt del) (mk p cs KDrainRows kv [] fin cnt del)
| t_drained_rows p cs rs fin cnt del :
    transition (mk p cs KDrainRows [] rs fin cnt del) (mk p cs KJoinProducer [] rs fin cnt del)
| t_join_producer st cs kv rs fin cnt del :
    transition (mk (PDone st) cs KJoinProducer kv rs fin cnt del) (mk (PDone st) cs (KJoinConsumers 0) kv rs fin cnt del)
| t_join_consumer i c p cs kv rs fin cnt del : cs !! i = Some c → returned c = true →
    transition (mk p cs (KJoinConsumers i) kv rs fin cnt del) (mk p cs (KJoinConsumers (S i)) kv rs fin cnt del)
| t_joined i p cs kv rs fin cnt del : cs !! i = None →
    transition (mk p cs (KJoinConsumers i) kv rs fin cnt del) (mk p cs KDrainResultsAgain kv rs fin cnt del)
| t_drained_results_again p cs kv fin cnt del :
    transition (mk p cs KDrainResultsAgain kv [] fin cnt del) (mk p cs KDrainRowsAgain kv [] fin cnt del)
| t_closed p cs rs fin cnt del :
    transition (mk p cs KDrainRowsAgain [] rs fin cnt del) (mk p cs KClosed [] rs fin cnt del).

Lemma producer_transition s s' : producer_step s = Some s' → transition s s'.
Proof.
  destruct s as [p cs k kv rs fin cnt del]. unfold producer_step. cbn [producer consume_finished_].
  destruct p as [[|b todo] [[]|c m]|b todo st| |st]; try done.
  - intros [= <-]. apply t_return.
  - intros [= <-]. apply t_error.
  - destruct fin; intros [= <-]; [apply t_cancelled|apply t_checked].
  - destruct fin; intros [= <-]; [apply t_cancelled|apply t_checked].
  - intros (s1&[Hl ->]%push_kv_Some&->)%fmap_Some. by apply t_push.
  - intros (s1&[Hl ->]%push_kv_Some&->)%fmap_Some. by apply t_push_eof.
Qed.

Lemma consumer_transition i s s' : consumer_step convert i s = Some s' → transition s s'.
Proof.
  destruct s as [p cs k kv rs fin cnt del]. unfold consumer_step. cbn [consumers].
  destruct (cs !! i) as [[| |b|r| | | |b]|] eqn:Ec; try done.
  - destruct fin; intros [= <-]; [by apply t_leave|by apply t_check].
  - destruct kv as [|[b|] kv]; cbn.
    + destruct fin; [|done]. intros [= <-]. by apply t_pop_none.
    + intros [= <-]. by apply t_pop.
    + intros [= <-]. by apply t_pop_eof.
  - destruct (convert b) as [r|] eqn:E; intros [= <-]; [by eapply t_convert|by apply t_convert_fail].
  - intros (s1&[Hl ->]%push_result_Some&->)%fmap_Some. by apply t_push_result.
  - intros (s1&[Hl ->]%push_kv_Some&->)%fmap_Some. by apply t_repush.
  - intros [= <-]. by apply t_exit.
Qed.

Lemma step_transition s s' : step s s' → transition s s'.
Proof.
  intros [a H]. destruct a as [| |i| | | | |]; cbn [AsyncPipeline.act] in H.
  - by apply producer_transition.
  - destruct s as [p cs k kv rs fin cnt del]. unfold producer_stop in H. cbn in H. destruct p, fin; try done.
    injection H as <-. apply t_stop.
  - by apply (consumer_transition i).
  - destruct s as [p cs [] kv [|r rs] fin cnt del]; try done. injection H as <-. apply t_deliver.
  - destruct s as [p cs [] kv [|r rs] fin cnt del]; try done. cbn in H. destruct (Nat.eqb_spec cnt (length cs)) as [->|]; [|done].
    injection H as <-. apply t_eof.
  - destruct s as [p cs k kv rs fin cnt del]. cbn in H. destruct (in_use k) eqn:Ek; [|done]. cbn in H.
    destruct (has_error _); [|done]. injection H as <-. by apply t_close.
  - destruct s as [p cs k kv rs fin cnt del]. cbn in H. destruct (in_use k) eqn:Ek; [|done]. injection H as <-. by apply t_close.
  - destruct s as [p cs k kv rs fin cnt del]. unfold cleanup_step in H. cbn in H. destruct k as [| | | | |i| | |]; try done.
    + destruct rs; injection H as <-; [apply t_drained_results|apply t_drain_result; by left].
    + destruct kv; injection H as <-; [apply t_drained_rows|apply t_drain_rows; by left].
    + destruct p; try done. injection H as <-. apply t_join_producer.
    + destruct (cs !! i) as [c|] eqn:Ec; [destruct (returned c) eqn:Er; [|done]|]; injection H as <-; [by eapply t_join_consumer|by apply t_joined].
    + destruct rs; injection H as <-; [apply t_drained_results_again|apply t_drain_result; by right].
    + destruct kv; injection H as <-; [apply t_closed|apply t_drain_rows; by right].
Qed.

(** Every step makes the state smaller. *)
Lemma step_decreases s s' : step s s' → (measure s' < measure s)%nat.
Proof.
  assert (Hw : ∀ (cs : list (Consumer B R)) i c c', cs !! i = Some c →
    (sum_list_with consumer_weight (<[i := c']> cs) + consumer_weight c = sum_list_with consumer_weight cs + consumer_weight c')%nat).
  { intros cs i c c'. apply sum_insert. }
  intros H%step_transition. unfold measure.
  destruct H; cbn [producer consumers client kv_queue_ result_queue_];
    try match goal with H : ?cs !! ?i = Some _ |- context [<[?i := ?c']> ?cs] => specialize (Hw cs i _ c' H); rewrite length_insert end;
    cbn in *; rewrite ?length_app; cbn; try lia.
  - destruct k; cbn; done || lia.
  - pose proof (lookup_lt_Some _ _ _ H). lia.
Qed.

(** ** Deadlock freedom *)

Definition is_done (c : Consumer B R) : nat := match c with CDone => 1 | _ => 0 end.
Definition is_repush (c : Consumer B R) : nat := match c with CRepush => 1 | _ => 0 end.
(** Consumers that may still push a result after the pipeline is cancelled. *)
Definition is_busy (c : Consumer B R) : nat := match c with CPop | CConvert _ | CPush _ => 1 | _ => 0 end.
Definition is_eof (b : option B) : nat := match b with None => 1 | Some _ => 0 end.
(** The pushes a producer of a cancelled pipeline may still do. *)
Definition pending_pushes (p : Producer B) : nat :=
  match p with PRun _ _ => 1 | PPush _ _ _ => 2 | PEof => 1 | PDone _ => 0 end.
Definition has_returned (p : Producer B) : nat := match p with PDone _ => 1 | _ => 0 end.

(** The copies of the empty batch. *)
Definition eofs s : nat := sum_list_with is_eof (kv_queue_ s) + sum_list_with is_repush (consumers s).
Definition results_drained (k : Client) : bool :=
  match k with KDrainRows | KJoinProducer | KJoinConsumers _ => true | _ => false end.
Definition rows_drained (k : Client) : bool := match k with KJoinProducer | KJoinConsumers _ => true | _ => false end.

Record inv (n : nat) s : Prop := {
  inv_size : length (consumers s) = n;
  inv_flag : consume_finished_ s = negb (in_use (client s));
  inv_count : consumer_finished_count_ s = sum_list_with is_done (consumers s);
  inv_eof : (eofs s ≤ has_returned (producer s))%nat;
  inv_eof_done : (1 ≤ eofs s)%nat → producer s = PDone (Ok ());
  inv_eof_there : in_use (client s) = true → producer s = PDone (Ok ()) → eofs s = 1%nat;
  inv_results : results_drained (client s) = true →
    (length (result_queue_ s) + sum_list_with is_busy (consumers s) ≤ length (consumers s))%nat;
  inv_rows : rows_drained (client s) = true →
    (length (kv_queue_ s) + pending_pushes (producer s) + sum_list_with is_repush (consumers s) ≤ 2)%nat
}.

Lemma sum_app {A} (f : A → nat) l l' : sum_list_with f (l ++ l') = (sum_list_with f l + sum_list_with f l')%nat.
Proof. induction l as [|x l IH]; cbn; [done|]. rewrite IH. lia. Qed.
Lemma sum_bound {A} (f : A → nat) l : (∀ x, f x ≤ 1)%nat → (sum_list_with f l ≤ length l)%nat.
Proof. intros H. induction l as [|x l IH]; cbn; [lia|]. specialize (H x). lia. Qed.

Lemma transition_inv n s s' : transition s s' → inv n s → inv n s'.
Proof.
  intros H [I1 I2 I3 I4 I4' I5 I6 I7]. unfold eofs in *.
  assert (Hb : ∀ cs : list (Consumer B R), (sum_list_with is_busy cs ≤ length cs)%nat)
    by (intros; apply sum_bound; by intros []; cbn; lia).
  destruct H; cbn [producer consumers client kv_queue_ result_queue_ consume_finished_ consumer_finished_count_] in *;
    try match goal with
    | H : ?cs !! ?i = Some ?c |- context [<[?i := ?c']> ?cs] =>
        pose proof (sum_insert is_done cs i c c' H); pose proof (sum_insert is_repush cs i c c' H);
        pose proof (sum_insert is_busy cs i c c' H); cbn [is_done is_repush is_busy] in *
    end;
    constructor; unfold eofs;
    cbn [producer consumers client kv_queue_ result_queue_ consume_finished_ consumer_finished_count_] in *;
    rewrite ?length_insert, ?sum_app, ?length_app in *; cbn in *; try done; try lia;
    intros; repeat match goal with H : ?P → _, H' : ?P |- _ => specialize (H H') end;
    try lia; try (exfalso; lia); try (apply I4'; lia).
  - by destruct k.
  - by destruct k.
  - by destruct H as [-> | ->].
  - destruct p; cbn in *; lia.
Qed.

Lemma start_inv batches status n : inv n (start batches status n).
Proof.
  assert (Hz : ∀ f : Consumer B R → nat, f CCheck = 0%nat → sum_list_with f (replicate n CCheck) = 0%nat).
  { intros f Hf. induction n as [|m IH]; cbn; [done|]. by rewrite Hf. }
  constructor; cbn; rewrite ?length_replicate; try done.
  - by rewrite Hz.
  - unfold eofs. cbn. by rewrite Hz.
  - unfold eofs. cbn. rewrite Hz by done. lia.
Qed.

(** The empty batch is the last one, and once a consumer has taken it no batch
    is left. *)
Fixpoint eof_last (q : list (option B)) : Prop :=
  match q with [] => True | None :: q' => q' = [] | Some _ :: q' => eof_last q' end.
Definition is_quit (c : Consumer B R) : nat := match c with CRepush | CExit | CDone => 1 | _ => 0 end.
Definition shape s : Prop :=
  in_use (client s) = true → eof_last (kv_queue_ s) ∧
    ((1 ≤ sum_list_with is_quit (consumers s))%nat →
      length (kv_queue_ s) = sum_list_with is_eof (kv_queue_ s) ∧ producer s = PDone (Ok ())).

Lemma eof_last_app q x : sum_list_with is_eof q = 0%nat → eof_last (q ++ [x]).
Proof. induction q as [|[b|] q IH]; cbn; [by destruct x|done|lia]. Qed.

Lemma transition_shape n s s' : transition s s' → inv n s → shape s → shape s'.
Proof.
  intros H [_ I2 _ I4 I4' _ _ _] Hs Hu. unfold eofs in *.
  destruct H; cbn [producer consumers client kv_queue_ result_queue_ consume_finished_] in *; unfold shape in Hs;
    cbn [producer consumers client kv_queue_ result_queue_ consume_finished_] in *;
    try (destruct Hs as [Hl Hq]; [done|]);
    try match goal with
    | H : ?cs !! ?i = Some ?c |- context [<[?i := ?c']> ?cs] =>
        pose proof (sum_insert is_quit cs i c c' H); pose proof (sum_lookup is_quit cs i c H);
        pose proof (sum_lookup is_repush cs i c H); cbn [is_quit is_repush] in *
    end.
  all: cbn in *; try (split; [done|]); try (intros Hle; destruct Hq as [Hq1 Hq2]; [lia|]; try discriminate).
  all: try (split; [lia|done]).
  - split; [apply eof_last_app; lia|]. intros Hle. by destruct (Hq Hle).
  - split; [apply eof_last_app; lia|]. intros Hle. by destruct (Hq Hle).
  - by rewrite Hu in I2.
  - assert (sum_list_with is_eof kv ≤ length kv)%nat by (apply sum_bound; intros []; cbn; lia). lia.
  - subst kv. split; [done|]. intros _. split; [done|]. apply I4'. lia.
  - by rewrite Hu in I2.
  - assert (has_returned p ≤ 1)%nat by (destruct p; cbn; lia). destruct Hq as [Hq1 Hq2]; [lia|].
    split; [apply eof_last_app; lia|]. intros _. rewrite length_app, sum_app. cbn. split; [lia|done].
  - by destruct H as [-> | ->].
Qed.
Lemma reachable_inv batches status n s : rtc step (start batches status n) s → inv n s ∧ shape s.
Proof.
  intros H. assert (Hi : inv n (start batches status n) ∧ shape (start batches status n)).
  { split; [apply start_inv|]. intros _. cbn. split; [done|]. intros Hle. exfalso.
    assert (sum_list_with is_quit (replicate n (@CCheck B R)) = 0)%nat; [|lia]. clear. by induction n. }
  revert Hi. induction H as [s|s s1 s2 Hs%step_transition _ IH]; [done|].
  intros [Hi Hsh]. apply IH. split; [by eapply transition_inv|by eapply transition_shape].
Qed.

(** A consumer that has not returned can go on, unless it waits for batches or
    for room in a queue. *)
Lemma consumer_enabled i c s : consumers s !! i = Some c → returned c = false →
  (c = CPop → kv_queue_ s = [] → consume_finished_ s = true) →
  (is_busy c = 1%nat → (length (result_queue_ s) < 3)%nat) →
  (c = CRepush → (length (kv_queue_ s) < kv_capacity s)%nat) → ∃ s', act (ConsumerStep i) s = Some s'.
Proof.
  intros Hi Hr Hpop Hres Hkv. cbn. unfold consumer_step. rewrite Hi. destruct c as [| |b|r| | | |b]; try done.
  - by eexists.
  - destruct (kv_queue_ s) as [|[b|] q]; [|by eexists..]. rewrite Hpop by done. by eexists.
  - by eexists.
  - eexists. apply fmap_Some. eexists. split; [|done]. apply push_result_Some. split; [|done]. by apply Hres.
  - eexists. apply fmap_Some. eexists. split; [|done]. apply push_kv_Some. split; [|done]. by apply Hkv.
  - by eexists.
Qed.

(** So can a producer. *)
Lemma producer_enabled s : has_returned (producer s) = 0%nat →
  (¬ (∃ todo st, producer s = PRun todo st) → (length (kv_queue_ s) < kv_capacity s)%nat) →
  ∃ s', act ProducerStep s = Some s'.
Proof.
  intros Hr Hkv. cbn. unfold producer_step. destruct (producer s) as [[|b todo] [[]|c m]|b todo st| |st]; try done; try by eexists.
  - destruct (consume_finished_ s); by eexists.
  - destruct (consume_finished_ s); by eexists.
  - eexists. apply fmap_Some. eexists. split; [|done]. apply push_kv_Some. split; [|done]. apply Hkv. by intros (?&?&?).
  - eexists. apply fmap_Some. eexists. split; [|done]. apply push_kv_Some. split; [|done]. apply Hkv. by intros (?&?&?).
Qed.

(** Either all consumers satisfy a condition, or there is one that does not. *)
Lemma consumers_cases (P : Consumer B R → bool) (cs : list (Consumer B R)) :
  Forall (λ c, P c = true) cs ∨ ∃ i c, cs !! i = Some c ∧ P c = false.
Proof.
  induction cs as [|c cs IH]; [by left; constructor|]. destruct (P c) eqn:E; [|right; by exists 0%nat, c].
  destruct IH as [IH|(i&c'&Hi&Hc)]; [left; by constructor|right; by exists (S i), c'].
Qed.

Lemma cleanup_progress n s : inv n s → (1 ≤ n ≤ 3)%nat → in_use (client s) = false → client s ≠ KClosed →
  ∃ a s', act a s = Some s'.
Proof.
  intros [I1 I2 I3 _ _ _ I6 I7] Hn Hu Hc. rewrite Hu in I2. cbn in I2.
  assert (Hcl : ∀ s', cleanup_step s = Some s' → ∃ a s', act a s = Some s') by (intros s' E; by exists CleanUp, s').
  unfold cleanup_step in Hcl. destruct (client s) as [| | | | |i| | |] eqn:Ek; try done.
  - destruct (result_queue_ s); by eapply Hcl.
  - destruct (kv_queue_ s); by eapply Hcl.
  - specialize (I7 eq_refl). destruct (has_returned (producer s)) eqn:Er.
    + destruct (producer_enabled s Er) as [s' E]; [|by exists ProducerStep, s']. intros Hp. unfold kv_capacity.
      destruct (producer s); cbn in *; lia.
    + destruct (producer s); try done. by eapply Hcl.
  - destruct (consumers s !! i) as [c|] eqn:Ec; [|by eapply Hcl]. destruct (returned c) eqn:Er; [by eapply Hcl|].
    specialize (I6 eq_refl). specialize (I7 eq_refl).
    destruct (consumer_enabled i c s Ec Er) as [s' E]; [done| | |by exists (ConsumerStep i), s'].
    + intros Hb. pose proof (sum_lookup is_busy _ _ _ Ec). lia.
    + intros ->. pose proof (sum_lookup is_repush _ _ _ Ec). cbn in *. unfold kv_capacity. lia.
  - destruct (result_queue_ s); by eapply Hcl.
  - destruct (kv_queue_ s); by eapply Hcl.
Qed.

(** While the caller reads, some thread can go on or the caller gets an answer. *)
Lemma active_progress n s : inv n s → shape s → (1 ≤ n)%nat → client s = KActive → ∃ a s', a ≠ Close ∧ act a s = Some s'.
Proof.
  intros [I1 I2 I3 I4 I4' I5 _ _] Hs Hn Hk. unfold shape in Hs. rewrite Hk in I2, I5, Hs. cbn in I2. specialize (I5 eq_refl).
  destruct (Hs eq_refl) as [_ Hquit]. unfold eofs in *.
  destruct (result_queue_ s) as [|r q] eqn:Erq.
  2: { exists Deliver. eexists. split; [done|]. cbn. by rewrite Hk, Erq. }
  destruct (has_error s) eqn:Ee.
  { exists Fail. eexists. split; [done|]. cbn. by rewrite Hk, Ee. }
  apply orb_false_iff in Ee as [Ep Ef].
  destruct (consumers_cases (λ c, match c with CPop | CDone | CFailed _ => true | _ => false end) (consumers s)) as [Hall|(i&c&Hi&Hc)].
  2: { destruct (consumer_enabled i c s Hi) as [s' E]; [by destruct c|by destruct c| | |by exists (ConsumerStep i), s'].
       - intros _. rewrite Erq. cbn. lia.
       - intros ->. pose proof (sum_lookup is_repush _ _ _ Hi). pose proof (sum_lookup is_quit _ _ _ Hi). cbn in *.
         destruct Hquit as [Hq1 Hq2]; [lia|]. rewrite Hq2 in I4. unfold kv_capacity. cbn in I4. lia. }
  destruct (consumers_cases (λ c, match c with CPop => false | _ => true end) (consumers s)) as [Hdone|(i&c&Hi&Hc)].
  - exists Eof. eexists. split; [done|]. cbn. rewrite Hk, Erq. rewrite (proj2 (Nat.eqb_eq _ _)); [done|]. rewrite I3.
    clear -Hall Hdone Ef. induction (consumers s) as [|c cs IH]; [done|]. inversion_clear Hall. inversion_clear Hdone.
    cbn in Ef. apply orb_false_iff in Ef as [Ec Ef]. cbn. rewrite IH by done. by destruct c.
  - destruct c; try done. destruct (kv_queue_ s) as [|b q] eqn:Eq.
    + destruct (has_returned (producer s)) eqn:Er.
      * destruct (producer_enabled s Er) as [s' E]; [|by exists ProducerStep, s']. intros _. rewrite Eq. unfold kv_capacity.
        pose proof (lookup_lt_Some _ _ _ Hi). cbn. lia.
      * destruct (producer s) as [| | |[[]|]]; try done. specialize (I5 eq_refl). cbn in I5. exfalso.
        assert (sum_list_with is_repush (consumers s) = 0)%nat; [|lia]. clear -Hall.
        induction Hall as [|c cs Hc _ IH]; cbn; [done|]. rewrite IH. by destruct c.
    + destruct (consumer_enabled i CPop s Hi) as [s' E]; [done| |by rewrite Erq; cbn; lia|done|by exists (ConsumerStep i), s'].
      intros _ Hnil. congruence.
Qed.

(** ** Delivery *)

Context (batches : list B) (status : Result unit).

Definition pending (p : Producer B) : list B :=
  match p with PRun todo _ => todo | PPush b todo _ => b :: todo | PEof | PDone _ => [] end.
Definition status_ok (p : Producer B) : Prop :=
  match p with
  | PRun _ st | PPush _ _ st => st = status
  | PEof => status = Ok ()
  | PDone st => st = Ok () → status = Ok ()
  end.
Definition converting (c : Consumer B R) : list B := match c with CConvert b | CFailed b => [b] | _ => [] end.
Definition pushing (c : Consumer B R) : list R := match c with CPush r => [r] | _ => [] end.
Definition queued (q : list (option B)) : list B := omap id q.

(** The pairs of the batches converted so far and their results. *)
Definition conversions (ps : list (B * R)) : Prop := Forall (λ p, convert p.1 = Ok p.2) ps.
Definition nothing_lost s : Prop :=
  in_use (client s) = true → status_ok (producer s) ∧ ∃ ps, conversions ps ∧
    ps.*2 ≡ₚ delivered s ++ result_queue_ s ++ concat (map pushing (consumers s)) ∧
    ps.*1 ++ concat (map converting (consumers s)) ++ queued (kv_queue_ s) ++ pending (producer s) ≡ₚ batches.
(** With a single consumer, in order. *)
Definition in_order s : Prop :=
  in_use (client s) = true → ∀ c, consumers s = [c] → ∃ ps, conversions ps ∧
    ps.*2 = delivered s ++ result_queue_ s ++ pushing c ∧
    ps.*1 ++ converting c ++ queued (kv_queue_ s) ++ pending (producer s) = batches.

Lemma concat_insert {A} (f : Consumer B R → list A) cs i c c' : cs !! i = Some c →
  concat (map f (<[i := c']> cs)) ++ f c ≡ₚ concat (map f cs) ++ f c'.
Proof.
  revert i. induction cs as [|d cs IH]; intros i Hi; [done|]. destruct i as [|i]; simpl in Hi |- *.
  - injection Hi as ->. rewrite <-!app_assoc. rewrite (Permutation_app_comm (concat _) (f c)), (Permutation_app_comm (concat _) (f c')).
    rewrite !app_assoc. apply Permutation_app_tail, Permutation_app_comm.
  - rewrite <-!app_assoc. by apply Permutation_app_head, IH.
Qed.

Lemma transition_nothing_lost n s s' : transition s s' → inv n s → nothing_lost s → nothing_lost s'.
Proof.
  intros H [_ I2 _ _ _ _ _ _] Hs Hu. unfold nothing_lost, queued in *.
  destruct H; cbn [producer consumers client kv_queue_ result_queue_ consume_finished_ delivered] in *; try done;
    try (by rewrite Hu in I2); try (by destruct H; subst);
    destruct (Hs ltac:(done)) as (Hst&ps&Hc&H2&H1); clear Hs; cbn [status_ok pending] in *; rewrite ?omap_app; cbn in *;
    try match goal with H : ?cs !! ?i = Some ?c |- context [<[?i := ?c']> ?cs] =>
      pose proof (concat_insert converting cs i c c' H) as Ec; pose proof (concat_insert pushing cs i c c' H) as Ep;
      cbn in Ec, Ep; rewrite ?app_nil_r in Ec; rewrite ?app_nil_r in Ep
    end; (split; [done|]).
  all: try (exists ps; rewrite <-?app_assoc, ?app_nil_r in *; first [done|by rewrite Ep, Ec, <-?app_assoc]).
  - exists (ps ++ [(b, r)]). rewrite !fmap_app, Ep, app_assoc, app_assoc. cbn. split_and!.
    + apply Forall_app. split; [done|by repeat constructor].
    + by rewrite H2, !app_assoc.
    + rewrite <-Ec in H1. rewrite <-H1, <-!app_assoc. apply Permutation_app_head. rewrite !app_assoc.
      do 2 apply Permutation_app_tail. apply Permutation_app_comm.
  - exists ps. rewrite Ep. apply Permutation_app_inv_r in Ec. by rewrite Ec.
  - exists ps. rewrite Ec, H2, <-Ep, <-!app_assoc. split_and!; [done| |done]. do 2 apply Permutation_app_head. apply Permutation_app_comm.
Qed.

Lemma insert_single {A} (l : list A) i x y z : l !! i = Some x → <[i := y]> l = [z] → l = [x] ∧ z = y.
Proof.
  intros Hi E. destruct l as [|a [|b l]]; [done| |].
  - destruct i as [|i]; [|done]. cbn in *. split; congruence.
  - apply (f_equal length) in E. rewrite length_insert in E. done.
Qed.

Lemma transition_in_order n s s' : transition s s' → inv n s → in_order s → in_order s'.
Proof.
  intros H [_ I2 _ _ _ _ _ _] Hs Hu c0. unfold in_order, queued in *.
  destruct H; cbn [producer consumers client kv_queue_ result_queue_ consume_finished_ delivered] in *; try done;
    try (by rewrite Hu in I2); try (by destruct H; subst);
    intros Hone; try (destruct (insert_single _ _ _ _ _ H Hone) as [Hone' ->]; clear Hone; rename Hone' into Hone);
    destruct (Hs ltac:(done) _ Hone) as (ps&Hc&H2&H1); clear Hs; cbn [pending converting pushing] in *; rewrite ?omap_app; cbn in *;
    try (exists ps; rewrite <-?app_assoc, ?app_nil_r in *; done).
  exists (ps ++ [(b, r)]). rewrite !fmap_app, H2, <-!app_assoc, <-H1. cbn. split_and!; [|done|done].
  apply Forall_app. split; [done|by repeat constructor].
Qed.

(** After the end every consumer has returned. *)
Definition finished s : Prop := client s = KFinished → result_queue_ s = [] ∧ Forall (λ c, c = CDone) (consumers s).
Lemma all_done (cs : list (Consumer B R)) : sum_list_with is_done cs = length cs → Forall (λ c, c = CDone) cs.
Proof.
  induction cs as [|c cs IH]; cbn; [by constructor|]. intros H.
  assert (sum_list_with is_done cs ≤ length cs)%nat by (apply sum_bound; by intros []; cbn; lia).
  constructor; [destruct c; cbn in H; try done; lia|apply IH; destruct c; cbn in H; lia].
Qed.
Lemma transition_finished n s s' : transition s s' → inv n s → finished s → finished s'.
Proof.
  intros H [_ _ I3 _ _ _ _ _] Hs Hk. unfold finished in *.
  destruct H; cbn [client consumers result_queue_ consumer_finished_count_] in *; subst; try done; try (by destruct (Hs eq_refl));
    try (destruct (Hs eq_refl) as [_ Hall]; rewrite Forall_lookup in Hall; by specialize (Hall _ _ H)).
  split; [done|]. by apply all_done.
Qed.

Lemma reachable_delivery n s : rtc step (start batches status n) s → nothing_lost s ∧ in_order s ∧ finished s.
Proof.
  intros H. assert (Hi : inv n (start batches status n)) by apply start_inv.
  assert (Hd : nothing_lost (start batches status n) ∧ in_order (start batches status n) ∧ finished (start batches status n)).
  { assert (Hz : ∀ A (f : Consumer B R → list A), f CCheck = [] → concat (map f (replicate n CCheck)) = []).
    { intros A f Hf. clear -Hf. induction n as [|m IH]; cbn; [done|]. by rewrite Hf. }
    split_and!; [| |done].
    - intros _. split; [done|]. exists []. cbn. rewrite !Hz by done. by split_and!; [constructor| |].
    - intros _ c Hc. exists []. cbn in *. destruct n as [|[|]]; try done. injection Hc as <-. by split_and!; [constructor| |]. }
  revert Hi Hd. induction H as [s|s s1 s2 Hs%step_transition _ IH]; [done|].
  intros Hi (H1&H2&H3). apply IH; [by eapply transition_inv|]. split_and!;
    [by eapply transition_nothing_lost|by eapply transition_in_order|by eapply transition_finished].
Qed.
End Proofs.

(** ** Theorems *)

(** C20. The pipeline neither loses nor duplicates a batch, whatever the
    scheduling: if a caller sees the end of the stream, the producer succeeded
    and the caller was given exactly the conversions of all batches, in the
    order of the batches if there is a single consumer. *)
Theorem pipeline_delivers {B R} (convert : B → Result R) batches status n s :
  (1 ≤ n)%nat → rtc (step convert) (start batches status n) s → client s = KFinished →
  status = Ok () ∧ ∃ rs, Forall2 (λ b r, convert b = Ok r) batches rs ∧ delivered s ≡ₚ rs ∧ (n = 1%nat → delivered s = rs).
Proof.
  intros Hn Hr Hk. destruct (reachable_inv convert _ _ _ _ Hr) as [Hi Hs]. destruct (reachable_delivery convert _ _ _ _ Hr) as (Hl&Ho&Hf).
  destruct (Hf Hk) as [Hres Hdone]. unfold nothing_lost, in_order, shape in *. rewrite Hk in *.
  destruct (Hl eq_refl) as (Hst&ps&Hc&H2&H1). destruct (Hs eq_refl) as [_ Hquit]. destruct Hi as [I1 _ _ _ _ _ _ _].
  assert (Hall : ∀ A (f : Consumer B R → list A), f CDone = [] → concat (map f (consumers s)) = []).
  { intros A f E. clear -Hdone E. induction Hdone as [|c cs -> _ IH]; cbn; [done|]. by rewrite E. }
  destruct Hquit as [Hkv Hp].
  { destruct (consumers s) as [|c cs]; cbn in *; [lia|]. inversion Hdone; subst. cbn. lia. }
  assert (Hq : queued (kv_queue_ s) = []).
  { clear -Hkv. unfold queued. induction (kv_queue_ s) as [|[b|] q IH]; cbn in *; [done| |by apply IH; lia].
    assert (sum_list_with is_eof q ≤ length q)%nat by (apply sum_bound; intros []; cbn; lia). lia. }
  rewrite Hp in Hst. rewrite Hall, Hres, !app_nil_r in H2 by done. rewrite Hall, Hq, Hp, !app_nil_r in H1 by done. cbn in Hst.
  split; [by apply Hst|]. symmetry in H1. destruct (Permutation_map_inv _ _ H1) as (ps'&->&Hpp).
  assert (Hconv : ∀ qs : list (B * R), conversions convert qs → Forall2 (λ b r, convert b = Ok r) qs.*1 qs.*2).
  { intros qs Hqs. induction Hqs as [|[b r] qs Hb _ IH]; [constructor|]. by constructor. }
  destruct (decide (n = 1%nat)) as [->|Hne].
  - destruct (consumers s) as [|c [|]]; try done. inversion Hdone as [|? ? -> _]; subst.
    destruct (Ho eq_refl CDone eq_refl) as (qs&Hqs&E2&E1). cbn in *. rewrite Hres, app_nil_r in E2. rewrite Hq, Hp in E1. cbn in E1.
    rewrite app_nil_r in E1. exists (delivered s). split_and!; [|done|done]. change (map fst ps') with ps'.*1 in E1 |- *. rewrite <-E1, <-E2.
    by apply Hconv.
  - exists ps'.*2. split_and!; [|by rewrite <-H2, Hpp|done]. apply Hconv. unfold conversions. by rewrite <-Hpp.
Qed.

(** C21. Closing never blocks with up to three consumers: from every reachable
    state every run is finite, a run that cannot go on is closed, and while the
    caller reads there is always something else to do than to close. *)
Theorem pipeline_closes {B R} (convert : B → Result R) batches status n s :
  (1 ≤ n ≤ 3)%nat → rtc (step convert) (start batches status n) s →
  sn (step convert) s ∧ (nf (step convert) s → client s = KClosed) ∧
  (client s = KActive → ∃ a s', a ≠ Close ∧ act convert a s = Some s').
Proof.
  intros Hn Hr. destruct (reachable_inv convert _ _ _ _ Hr) as [Hi Hs]. split_and!.
  - apply (wf_projected lt measure); [|apply lt_wf]. intros s1 s2 H. by apply (step_decreases convert).
  - intros Hnf. destruct (in_use (client s)) eqn:Eu.
    + destruct Hnf. exists (begin_cleanup s), Close. cbn. by rewrite Eu.
    + destruct (decide (client s = KClosed)) as [|Hc]; [done|].
      destruct (cleanup_progress convert n s Hi Hn Eu Hc) as (a&s'&E). destruct Hnf. by exists s', a.
  - apply (active_progress convert n s Hi Hs). lia.
Qed.

(** ** Four consumers *)

Lemma run_rtc {B R} (convert : B → Result R) as_ s s' : run convert as_ s = Some s' → rtc (step convert) s s'.
Proof.
  revert s. induction as_ as [|a as_ IH]; intros s; cbn; [intros [= <-]; apply rtc_refl|].
  intros (s1&E&H)%bind_Some. eapply rtc_l; [by exists a|by apply IH].
Qed.

(** Four batches are produced and taken by four consumers; the pipeline is
    closed while they convert; three of them then fill the result queue. *)
Definition four_batches : list nat := [1; 2; 3; 4]%nat.
Definition blocking_schedule : list Action :=
  concat (map (λ i, [ProducerStep; ProducerStep; ConsumerStep i; ConsumerStep i]) [0; 1; 2; 3]%nat) ++
  [Close; CleanUp; CleanUp; ProducerStop; ProducerStep; CleanUp] ++
  concat (map (λ i, [ConsumerStep i; ConsumerStep i; ConsumerStep i; ConsumerStep i; CleanUp]) [0; 1; 2]%nat) ++
  [ConsumerStep 3].

(** C22. With four consumers closing can block forever: there is a run in which
    the caller waits for a consumer that waits for room in the result queue,
    which nobody empties any more. *)
Theorem pipeline_close_blocks :
  ∃ s, rtc (step (Ok (A := nat))) (start four_batches (Ok ()) 4) s ∧ nf (step (Ok (A := nat))) s ∧
    client s = KJoinConsumers 3 ∧ consumers s !! 3%nat = Some (CPush 4%nat) ∧ length (result_queue_ s) = RESULT_BATCH_COUNT.
Proof.
  eexists. split; [apply (run_rtc _ blocking_schedule); vm_compute; reflexivity|]. split; [|done].
  intros (s'&a&H). destruct a as [| |i| | | | |]; try done. by do 4 (destruct i as [|i]; [done|]).
Qed.

(** Two consumers in turn, and both see the end. *)
Definition reading_schedule : list Action :=
  concat (map (λ i, [ProducerStep; ProducerStep; ConsumerStep i; ConsumerStep i; ConsumerStep i; ConsumerStep i; Deliver])
              [0; 1; 1; 0]%nat) ++
  [ProducerStep; ProducerStep; ConsumerStep 0; ConsumerStep 0; ConsumerStep 0; ConsumerStep 0;
   ConsumerStep 1; ConsumerStep 1; ConsumerStep 1; ConsumerStep 1; Eof].
Lemma pipeline_delivers_witness :
  ∃ s rs, run (Ok (A := nat)) reading_schedule (start four_batches (Ok ()) 2) = Some s ∧
    Forall2 (λ b r, Ok (A := nat) b = Ok r) four_batches rs ∧ delivered s ≡ₚ rs.
Proof.
  eexists. edestruct (pipeline_delivers (Ok (A := nat)) four_batches (Ok ()) 2) as (_&rs&H1&H2&_);
    [lia|eapply (run_rtc _ reading_schedule); vm_compute; reflexivity|reflexivity|].
  exists rs. split; [vm_compute; reflexivity|]. split; [exact H1|exact H2].
Defined.

Lemma pipeline_closes_witness :
  ∃ s, run (Ok (A := nat)) (take 10 reading_schedule ++ [Close]) (start four_batches (Ok ()) 2) = Some s ∧
    sn (step (Ok (A := nat))) s ∧ (nf (step (Ok (A := nat))) s → client s = KClosed).
Proof.
  eexists. edestruct (pipeline_closes (Ok (A := nat)) four_batches (Ok ()) 2) as (H1&H2&_);
    [lia|eapply (run_rtc _ (take 10 reading_schedule ++ [Close])); vm_compute; reflexivity|].
  split; [vm_compute; reflexivity|]. split; [exact H1|exact H2].
Defined.
