(* ===== verification/Like.v ===== *)
(** * LIKE patterns

    The pattern matcher of [Like] and the patterns that [LikeOptimization]
    replaces by simpler tests (src/paimon/common/predicate/like.cpp and
    like_optimization.cpp). A pattern matches if the field can be cut into one
    segment per pattern element; the table of the matcher computes this, and on
    well-formed UTF-8 the simpler tests agree with it. *)

From stdpp Require Import base list strings.
From Stdlib Require Import ZArith Lia Ascii.
From S2P Require Import Prelude.
Local Open Scope Z_scope.

Definition bytes := list ascii.
Definition byte (c : ascii) : Z := Z.of_N (N_of_ascii c).

Definition Utf8CodePointLength (leading_byte : ascii) : nat :=
  let b := byte leading_byte in
  if b <? 0x80 then 1
  else if Z.land b 0xE0 =? 0xC0 then 2
  else if Z.land b 0xF0 =? 0xE0 then 3
  else if Z.land b 0xF8 =? 0xF0 then 4
  else 1.

Definition IsJavaRegexLineTerminator (code_point : bytes) : bool :=
  let b := byte <$> code_point in
  bool_decide (b = [0x0A]) || bool_decide (b = [0x0D]) || bool_decide (b = [0xC2; 0x85]) ||
  bool_decide (b = [0xE2; 0x80; 0xA8]) || bool_decide (b = [0xE2; 0x80; 0xA9]).

Definition percent : ascii := "%".
Definition underscore : ascii := "_".
Definition backslash : ascii := "\".

(** An element of a pattern and whether it is a wildcard. *)
Definition Element : Type := bytes * bool.
Definition is_percent (e : Element) : bool := e.2 && bool_decide (e.1 = [percent]).
Definition is_underscore (e : Element) : bool := e.2 && bool_decide (e.1 = [underscore]).

(** The length of the code point at the beginning of [s]; a truncated one is
    taken as a single byte. *)
Definition code_point_length (c : ascii) (s : bytes) : nat :=
  let cp_len := Utf8CodePointLength c in if (length s <? cp_len)%nat then 1%nat else cp_len.

(** Phase 1; every round consumes at least one byte. *)
Fixpoint parse_loop (fuel : nat) (pattern : bytes) : Result (list Element) :=
  match fuel with
  | O => Ok []
  | S fuel' =>
      match pattern with
      | [] => Ok []
      | c :: rest =>
          if bool_decide (c = backslash) then
            match rest with
            | [] => Err Invalid "Invalid escape sequence"
            | next_char :: rest' =>
                if negb (bool_decide (next_char = underscore)) && negb (bool_decide (next_char = percent)) &&
                   negb (bool_decide (next_char = backslash))
                then Err Invalid "Invalid escape sequence"
                else es ← parse_loop fuel' rest'; Ok (([next_char], false) :: es)
            end
          else if bool_decide (c = underscore) || bool_decide (c = percent)
          then es ← parse_loop fuel' rest; Ok (([c], true) :: es)
          else
            let cp_len := code_point_length c pattern in
            es ← parse_loop fuel' (drop cp_len pattern); Ok ((take cp_len pattern, false) :: es)
      end
  end.
Definition parse (pattern : bytes) : Result (list Element) := parse_loop (length pattern) pattern.

(** Phase 2. *)
Fixpoint merge_wildcards (simp : list Element) (es : list Element) : list Element :=
  match es with
  | [] => simp
  | e :: es' =>
      if is_percent e && match last simp with Some e' => is_percent e' | None => false end
      then merge_wildcards simp es'
      else merge_wildcards (simp ++ [e]) es'
  end.

(** Phase 3. *)
Fixpoint code_points_loop (fuel : nat) (field : bytes) : list bytes :=
  match fuel with
  | O => []
  | S fuel' =>
      match field with
      | [] => []
      | c :: _ => let cp_len := code_point_length c field in
                  take cp_len field :: code_points_loop fuel' (drop cp_len field)
      end
  end.
Definition code_points (field : bytes) : list bytes := code_points_loop (length field) field.

Definition min_length (es : list Element) : nat :=
  length (filter (λ e, negb e.2 || is_underscore e = true) es).

(** Phase 4: the entries [dp[1], ..., dp[n]] after one more character; [prev] is
    the old entry to the left and [left] the new one. *)
Fixpoint dp_row (field_char : bytes) (es : list Element) (dp : list bool) (prev left : bool) : list bool :=
  match es, dp with
  | e :: es', temp :: dp' =>
      let cur :=
        if is_percent e then left || temp
        else if is_underscore e then prev && negb (IsJavaRegexLineTerminator field_char)
        else if bool_decide (e.1 = field_char) then prev else false in
      cur :: dp_row field_char es' dp' temp cur
  | _, _ => []
  end.
Fixpoint dp_loop (es : list Element) (field_chars : list bytes) (dp0 : bool) (dp : list bool) : bool :=
  match field_chars with
  | [] => default dp0 (last dp)
  | c :: cs =>
      let dp' := dp_row c es dp dp0 false in
      if existsb id dp' then dp_loop es cs false dp' else false
  end.
Fixpoint dp_start (es : list Element) (all : bool) : list bool :=
  match es with [] => [] | e :: es' => (all && is_percent e) :: dp_start es' (all && is_percent e) end.

Definition MatchString (field pattern : bytes) : Result bool :=
  match pattern with
  | [] => Ok (match field with [] => true | _ => false end)
  | _ =>
      es ← parse pattern;
      let simp := merge_wildcards [] es in
      let field_chars := code_points field in
      match field_chars with
      | [] => Ok (match simp with [e] => is_percent e | _ => false end)
      | _ =>
          if (length field_chars <? min_length simp)%nat then Ok false
          else Ok (dp_loop simp field_chars true (dp_start simp true))
      end
  end.

(** ** The meaning of a pattern *)

(** What one element of a pattern stands for. *)
Definition segment (e : Element) (cs : list bytes) : Prop :=
  if is_percent e then True
  else if is_underscore e then ∃ c, cs = [c] ∧ IsJavaRegexLineTerminator c = false
  else cs = [e.1].

(** The characters can be cut into one segment per element. *)
Definition matches (es : list Element) (cs : list bytes) : Prop :=
  ∃ segments, Forall2 segment es segments ∧ concat segments = cs.

Lemma matches_nil cs : matches [] cs ↔ cs = [].
Proof. split; [intros (l&H&<-); by inversion H|intros ->; by exists []]. Qed.
Lemma matches_app es es' cs : matches (es ++ es') cs ↔ ∃ cs1 cs2, cs = cs1 ++ cs2 ∧ matches es cs1 ∧ matches es' cs2.
Proof.
  split.
  - intros (l&H&<-). apply Forall2_app_inv_l in H as (l1&l2&H1&H2&->). rewrite concat_app. eexists _, _. split; [done|].
    split; by eexists.
  - intros (cs1&cs2&->&(l1&H1&<-)&(l2&H2&<-)). exists (l1 ++ l2). rewrite concat_app. split; [by apply Forall2_app|done].
Qed.
Lemma matches_single e cs : matches [e] cs ↔ segment e cs.
Proof.
  split.
  - intros (l&H&<-). inversion H as [|? x ? ? He Hl]; subst. inversion Hl; subst. cbn. by rewrite app_nil_r.
  - intros H. exists [cs]. cbn. rewrite app_nil_r. split; [by constructor|done].
Qed.
Lemma matches_snoc es e cs : matches (es ++ [e]) cs ↔ ∃ cs1 cs2, cs = cs1 ++ cs2 ∧ matches es cs1 ∧ segment e cs2.
Proof. rewrite matches_app. by setoid_rewrite matches_single. Qed.

Lemma segment_percent e cs : is_percent e = true → segment e cs.
Proof. unfold segment. by intros ->. Qed.

(** ** Merging the wildcards *)

Lemma matches_merged es e e' es' cs : is_percent e = true → is_percent e' = true →
  matches (es ++ [e] ++ [e'] ++ es') cs ↔ matches (es ++ [e] ++ es') cs.
Proof.
  intros He He'. rewrite !matches_app. setoid_rewrite matches_app. setoid_rewrite matches_app. setoid_rewrite matches_single. split.
  - intros (c1&c2&->&H1&(c3&c4&->&_&(c5&c6&->&_&H6))). exists c1, (c3 ++ c5 ++ c6). split; [done|]. split; [done|].
    exists (c3 ++ c5), c6. rewrite app_assoc. by split_and!; [|apply segment_percent|].
  - intros (c1&c2&->&H1&(c3&c4&->&_&H4)). exists c1, (c3 ++ c4). split; [done|]. split; [done|].
    exists c3, c4. split_and!; [done|by apply segment_percent|]. exists [], c4. by split_and!; [|apply segment_percent|].
Qed.

Lemma merge_wildcards_matches simp es cs : matches (merge_wildcards simp es) cs ↔ matches (simp ++ es) cs.
Proof.
  revert simp. induction es as [|e es IH]; intros simp; cbn; [by rewrite app_nil_r|].
  destruct (is_percent e) eqn:He; cbn; [|by rewrite IH, <-app_assoc].
  destruct (last simp) as [e'|] eqn:El; [|by rewrite IH, <-app_assoc].
  destruct (is_percent e') eqn:He'; [|by rewrite IH, <-app_assoc].
  rewrite IH. apply last_Some in El as [simp' ->]. rewrite <-!app_assoc. symmetry. by apply matches_merged.
Qed.

(** No two wildcards for any string follow each other. *)
Definition merged (es : list Element) : Prop :=
  ∀ l e e' l', es = l ++ e :: e' :: l' → is_percent e = true → is_percent e' = false.

Lemma merged_snoc es e : merged es → (∀ e', last es = Some e' → is_percent e' = true → is_percent e = false) → merged (es ++ [e]).
Proof.
  intros Hm Hl l a b l' E Ha. destruct l' as [|x l' _] using rev_ind.
  - change (l ++ [a; b]) with (l ++ [a] ++ [b]) in E. rewrite app_assoc in E. apply app_inj_tail in E as [-> ->].
    apply (Hl a); [by rewrite last_snoc|done].
  - apply (Hm l a b l'); [|done]. change (a :: b :: l' ++ [x]) with ((a :: b :: l') ++ [x]) in E. rewrite app_assoc in E.
    by apply app_inj_tail in E as [-> _].
Qed.
Lemma merge_wildcards_merged simp es : merged simp → merged (merge_wildcards simp es).
Proof.
  revert simp. induction es as [|e es IH]; intros simp Hs; cbn; [done|].
  destruct (is_percent e && _) eqn:E; [by apply IH|]. apply IH, merged_snoc; [done|]. intros e' El He'.
  rewrite El, He', andb_true_r in E. done.
Qed.
Lemma merge_wildcards_nonempty simp es : simp ≠ [] ∨ es ≠ [] → merge_wildcards simp es ≠ [].
Proof.
  revert simp. induction es as [|e es IH]; intros simp Hne; cbn; [by destruct Hne|].
  destruct (is_percent e && _) eqn:E; apply IH; left; [|by destruct simp].
  intros ->. cbn in E. by rewrite andb_false_r in E.
Qed.

(** ** The table *)

Lemma segment_length e cs : is_percent e = false → segment e cs → length cs = 1%nat.
Proof. unfold segment. intros ->. destruct (is_underscore e); [by intros (c&->&_)|by intros ->]. Qed.

Lemma matches_percent es e cs c : is_percent e = true →
  matches (es ++ [e]) (cs ++ [c]) ↔ matches es (cs ++ [c]) ∨ matches (es ++ [e]) cs.
Proof.
  intros He. rewrite !matches_snoc. split.
  - intros (c1&c2&E&H1&_). destruct c2 as [|x c2 _] using rev_ind.
    + left. rewrite app_nil_r in E. by rewrite E.
    + right. rewrite app_assoc in E. apply app_inj_tail in E as [-> _]. exists c1, c2. by split_and!; [|  |apply segment_percent].
  - intros [H|(c1&c2&->&H1&_)].
    + exists (cs ++ [c]), []. rewrite app_nil_r. by split_and!; [| |apply segment_percent].
    + exists c1, (c2 ++ [c]). rewrite app_assoc. by split_and!; [| |apply segment_percent].
Qed.
Lemma matches_one es e cs c : is_percent e = false → matches (es ++ [e]) (cs ++ [c]) ↔ matches es cs ∧ segment e [c].
Proof.
  intros He. rewrite matches_snoc. split.
  - intros (c1&c2&E&H1&H2). pose proof (segment_length _ _ He H2) as Hl. destruct c2 as [|x [|]]; [done| |done].
    apply app_inj_tail in E as [-> ->]. done.
  - intros [H1 H2]. by exists cs, [c].
Qed.

(** The entries for the prefixes of a pattern that are longer than [pre]. *)
Fixpoint table (pre es : list Element) (cs : list bytes) (dp : list bool) : Prop :=
  match es, dp with
  | [], [] => True
  | e :: es', b :: dp' => (b = true ↔ matches (pre ++ [e]) cs) ∧ table (pre ++ [e]) es' cs dp'
  | _, _ => False
  end.

Lemma dp_row_table c es pre cs dp prev left : table pre es cs dp → (prev = true ↔ matches pre cs) →
  (left = true ↔ matches pre (cs ++ [c])) → table pre es (cs ++ [c]) (dp_row c es dp prev left).
Proof.
  revert pre dp prev left. induction es as [|e es IH]; intros pre [|temp dp] prev left Ht Hp Hl; try done.
  destruct Ht as [Htemp Ht]. cbn [dp_row].
  match goal with |- table _ _ _ (?cur :: _) => assert (Hcur : cur = true ↔ matches (pre ++ [e]) (cs ++ [c])) end.
  { destruct (is_percent e) eqn:He.
    - rewrite matches_percent, orb_true_iff by done. by rewrite Hl, Htemp.
    - rewrite matches_one by done. unfold segment. rewrite He, <-Hp. destruct (is_underscore e).
      + rewrite andb_true_iff, negb_true_iff. split; [intros [? ?]; eauto|]. by intros [? (x&[= <-]&?)].
      + case_bool_decide as Hc; [by rewrite Hc; split; [|intros []]|]. split; [done|]. by intros [_ [= ->]]. }
  split; [done|]. by apply IH.
Qed.

Lemma dp_start_table pre es all : (all = true ↔ matches pre []) → table pre es [] (dp_start es all).
Proof.
  revert pre all. induction es as [|e es IH]; intros pre all Ha; [done|]. cbn.
  assert (Hb : all && is_percent e = true ↔ matches (pre ++ [e]) []).
  { rewrite andb_true_iff, Ha, matches_snoc. split.
    - intros [H He]. exists [], []. by split_and!; [| |apply segment_percent].
    - intros (c1&c2&E&H1&H2). symmetry in E. apply app_eq_nil in E as [-> ->]. split; [done|].
      destruct (is_percent e) eqn:He; [done|]. apply segment_length in H2; [done|done]. }
  split; [done|]. by apply IH.
Qed.

(** A prefix of the characters is matched by a prefix of the pattern. *)
Lemma matches_prefix es c1 c2 : matches es (c1 ++ c2) → ∃ k, (k ≤ length es)%nat ∧ matches (take k es) c1.
Proof.
  intros (l&H&E). revert c1 E. induction H as [|e x es l He Hl IH]; intros c1 E; cbn in E.
  { symmetry in E. apply app_eq_nil in E as [-> _]. exists 0%nat. split; [done|]. by apply matches_nil. }
  apply app_eq_app in E as (t&[[-> E]|[-> E]]).
  - destruct (is_percent e) eqn:Hp.
    + exists 1%nat. split; [cbn; lia|]. cbn. by apply matches_single, segment_percent.
    + pose proof (segment_length _ _ Hp He) as Hlen. rewrite length_app in Hlen. destruct c1 as [|y c1].
      * exists 0%nat. split; [lia|]. by apply matches_nil.
      * exists 1%nat. split; [cbn; lia|]. cbn in Hlen |- *. rewrite (nil_length_inv t), app_nil_r in He by lia. by apply matches_single.
  - destruct (IH t E) as (k&Hk&Hm). exists (S k). split; [cbn; lia|]. cbn [take].
    change (e :: take k es) with ([e] ++ take k es). apply matches_app. exists x, t. by split_and!; [|apply matches_single|].
Qed.

Lemma table_none pre es cs dp k : table pre es cs dp → existsb id dp = false → (k < length es)%nat → ¬ matches (pre ++ take (S k) es) cs.
Proof.
  revert pre dp k. induction es as [|e es IH]; intros pre [|b dp] k Ht Hn Hk; cbn in Hk; try done; [lia|].
  destruct Ht as [Hb Ht]. cbn in Hn. apply orb_false_iff in Hn as [Hb' Hn]. destruct k as [|k].
  - cbn. rewrite <-Hb. by rewrite Hb'.
  - cbn [take]. change (e :: take (S k) es) with ([e] ++ take (S k) es). rewrite app_assoc. apply (IH _ dp); [done|done|lia].
Qed.
Lemma table_last pre es cs dp d : table pre es cs dp → (d = true ↔ matches pre cs) →
  default d (last dp) = true ↔ matches (pre ++ es) cs.
Proof.
  revert pre dp d. induction es as [|e es IH]; intros pre [|b dp] d Ht Hd; try done; [by rewrite app_nil_r|].
  destruct Ht as [Hb Ht]. change (e :: es) with ([e] ++ es). rewrite app_assoc, <-(IH _ dp b) by done.
  rewrite last_cons. by destruct (last dp).
Qed.

Lemma dp_loop_matches es cs rest dp0 dp : table [] es cs dp → (dp0 = true ↔ matches [] cs) →
  dp_loop es rest dp0 dp = true ↔ matches es (cs ++ rest).
Proof.
  revert cs dp0 dp. induction rest as [|c rest IH]; intros cs dp0 dp Ht H0; cbn.
  { rewrite app_nil_r. by apply (table_last []). }
  assert (Hnil : false = true ↔ matches [] (cs ++ [c])).
  { rewrite matches_nil. split; [done|]. by destruct cs. }
  pose proof (dp_row_table c es [] cs dp dp0 false Ht H0 Hnil) as Ht'.
  destruct (existsb id (dp_row c es dp dp0 false)) eqn:Ee.
  - rewrite (IH (cs ++ [c])) by done. by rewrite <-app_assoc.
  - split; [done|]. change (cs ++ c :: rest) with (cs ++ [c] ++ rest). rewrite app_assoc. intros (k&Hk&Hm)%matches_prefix.
    destruct k as [|k]; [cbn in Hm; by apply Hnil in Hm|]. by destruct (table_none [] es _ _ k Ht' Ee Hk).
Qed.

Lemma matches_min_length es cs : matches es cs → (min_length es ≤ length cs)%nat.
Proof.
  intros (l&H&<-). unfold min_length. induction H as [|e x es l He Hl IH]; cbn [concat]; [done|]. rewrite length_app, filter_cons.
  case_decide as Hd; [|etrans; [exact IH|apply Nat.le_add_l]].
  assert (length x = 1%nat) as ->; [|by apply le_n_S]. apply (segment_length e); [|done].
  unfold is_percent, is_underscore in *. destruct e as [e []]; cbn in *; [|done]. apply bool_decide_eq_true in Hd as ->. done.
Qed.

Lemma matches_empty es : merged es → es ≠ [] → matches es [] ↔ ∃ e, es = [e] ∧ is_percent e = true.
Proof.
  intros Hm Hne. split.
  - intros (l&H&E). assert (Hp : Forall (λ e, is_percent e = true) es).
    { clear Hm Hne. induction H as [|e x es l He Hl IH]; [constructor|]. cbn in E. apply app_eq_nil in E as [-> E].
      constructor; [|by apply IH]. destruct (is_percent e) eqn:Hp; [done|]. by apply segment_length in He. }
    destruct es as [|e [|e' es]]; [done| |].
    + exists e. split; [done|]. by inversion Hp.
    + inversion Hp as [|? ? He Hp']; subst. inversion Hp' as [|? ? He' _]; subst. rewrite (Hm [] e e' es) in He'; done.
  - intros (e&->&He). apply matches_single. by apply segment_percent.
Qed.

Lemma parse_nonempty c pattern es : parse (c :: pattern) = Ok es → es ≠ [].
Proof.
  unfold parse. cbn [length parse_loop]. case_bool_decide; [destruct pattern as [|n rest]; [done|]; destruct (_ && _); [done|]|
    destruct (_ || _)]; by intros (es'&_&[= <-])%bind_Ok.
Qed.

Lemma code_points_nil field : code_points field = [] ↔ field = [].
Proof. split; [|by intros ->]. by destruct field. Qed.

(** C30. [Like] matches what its pattern means: the call fails exactly if the
    pattern has an invalid escape sequence, and otherwise tells whether the code
    points of the field can be cut into one segment per element of the pattern,
    anything for [%], one code point that is not a line terminator for [_], and
    the code point itself for any other element. *)
Theorem like_matches field pattern :
  match parse pattern with
  | Err c m => MatchString field pattern = Err c m
  | Ok es => ∃ b, MatchString field pattern = Ok b ∧ (b = true ↔ matches es (code_points field))
  end.
Proof.
  destruct pattern as [|c pattern].
  { cbn. eexists. split; [done|]. rewrite matches_nil, code_points_nil. by destruct field. }
  unfold MatchString. destruct (parse (c :: pattern)) as [es|] eqn:Ep; [|done]. cbn [mbind Result_bind].
  pose proof (parse_nonempty _ _ _ Ep) as Hne. setoid_rewrite <-(merge_wildcards_matches [] es).
  assert (Hm : merged (merge_wildcards [] es)) by (apply merge_wildcards_merged; by intros [|? [|]]).
  assert (Hne' : merge_wildcards [] es ≠ []) by (apply merge_wildcards_nonempty; by right).
  set (simp := merge_wildcards [] es) in *. destruct (code_points field) as [|x cs].
  - eexists. split; [done|]. rewrite matches_empty by done. destruct simp as [|e [|]]; [done| |].
    + split; [eauto|]. by intros (e'&[= <-]&?).
    + split; [done|]. by intros (e'&?&?).
  - destruct (Nat.ltb_spec (length (x :: cs)) (min_length simp)) as [Hl|_].
    + eexists. split; [done|]. split; [done|]. intros H%matches_min_length. lia.
    + eexists. split; [done|]. rewrite (dp_loop_matches simp []); [done| |by rewrite matches_nil].
      apply dp_start_table. by rewrite matches_nil.
Qed.

(** ** Simpler tests *)

Definition StartsWith (str prefix : bytes) : bool :=
  (length prefix <=? length str)%nat && bool_decide (take (length prefix) str = prefix).
Definition EndsWith (str suffix : bytes) : bool :=
  (length suffix <=? length str)%nat && bool_decide (drop (length str - length suffix) str = suffix).
(** [field.find(pattern) != npos] *)
Fixpoint Contains (field pattern : bytes) : bool :=
  StartsWith field pattern || match field with [] => false | _ :: field' => Contains field' pattern end.

Definition find (c : ascii) (s : bytes) : option nat := fst <$> list_find (λ x, x = c) s.
Definition rfind (c : ascii) (s : bytes) : option nat := (λ i, length s - 1 - i)%nat <$> find c (reverse s).

Inductive StringTest := TestEqual | TestContains | TestStartsWith | TestEndsWith.
Definition run_test (t : StringTest) (field literal : bytes) : bool :=
  match t with
  | TestEqual => bool_decide (field = literal)
  | TestContains => Contains field literal
  | TestStartsWith => StartsWith field literal
  | TestEndsWith => EndsWith field literal
  end.

(** [TryOptimize] of a string literal. *)
Definition TryOptimize (pattern : bytes) : option (StringTest * bytes) :=
  let size := length pattern in
  if (match find underscore pattern with Some _ => true | None => false end) ||
     (match find backslash pattern with Some _ => true | None => false end) then None
  else
    match find percent pattern, rfind percent pattern with
    | Some first_percent, Some last_percent =>
        if negb (first_percent =? last_percent)%nat then
          if (first_percent =? 0)%nat && (last_percent =? size - 1)%nat && (2 <? size)%nat &&
             bool_decide (S <$> find percent (drop 1 pattern) = Some last_percent)
          then Some (TestContains, take (size - 2) (drop 1 pattern))
          else None
        else if (first_percent =? size - 1)%nat && (0 <? first_percent)%nat
        then Some (TestStartsWith, take (size - 1) pattern)
        else if (first_percent =? 0)%nat && (1 <? size)%nat
        then Some (TestEndsWith, drop 1 pattern)
        else None
    | _, _ => match pattern with [] => None | _ => Some (TestEqual, pattern) end
    end.

Lemma StartsWith_spec s p : StartsWith s p = true ↔ ∃ r, s = p ++ r.
Proof.
  unfold StartsWith. rewrite andb_true_iff, Nat.leb_le, bool_decide_eq_true. split.
  - intros [_ H]. exists (drop (length p) s). rewrite <-H at 1. by rewrite take_drop.
  - intros [r ->]. rewrite length_app, take_app_length. split; [lia|done].
Qed.
Lemma EndsWith_spec s p : EndsWith s p = true ↔ ∃ r, s = r ++ p.
Proof.
  unfold EndsWith. rewrite andb_true_iff, Nat.leb_le, bool_decide_eq_true. split.
  - intros [_ H]. exists (take (length s - length p) s). rewrite <-H at 2. by rewrite take_drop.
  - intros [r ->]. rewrite length_app. split; [lia|]. replace (length r + length p - length p)%nat with (length r) by lia.
    by rewrite drop_app_length.
Qed.
Lemma Contains_infix s p : Contains s p = true ↔ ∃ a b, s = a ++ p ++ b.
Proof.
  induction s as [|c s IH]; cbn [Contains]; rewrite orb_true_iff, StartsWith_spec.
  - split; [intros [[r E]|?]; [by exists [], r|done]|]. intros (a&b&E). symmetry in E. apply app_eq_nil in E as [-> E]. left. by exists b.
  - rewrite IH. split.
    + intros [[r E]|(a&b&->)]; [by exists [], r|by exists (c :: a), b].
    + intros ([|x a]&b&E); [left; by exists b|]. injection E as <- ->. right. by exists a, b.
Qed.

(** *** UTF-8 *)

Definition continuation (c : ascii) : bool := Z.land (byte c) 0xC0 =? 0x80.
(** A leading byte followed by as many continuation bytes as it announces. *)
Definition well_formed (cp : bytes) : Prop :=
  ∃ c conts, cp = c :: conts ∧ Utf8CodePointLength c = S (length conts) ∧ continuation c = false ∧
    Forall (λ x, continuation x = true) conts.
Definition utf8 (s : bytes) : Prop := ∃ cps, s = concat cps ∧ Forall well_formed cps.

Lemma code_points_loop_utf8 fuel cps : Forall well_formed cps → (length (concat cps) ≤ fuel)%nat → code_points_loop fuel (concat cps) = cps.
Proof.
  intros Hw. revert fuel. induction Hw as [|cp cps (c&conts&->&Hl&_) _ IH]; intros fuel Hf; [by destruct fuel|].
  destruct fuel as [|fuel]; [cbn in Hf; lia|]. cbn [concat app code_points_loop]. unfold code_point_length. rewrite Hl.
  cbn [concat] in Hf. rewrite length_app in Hf. change (c :: conts ++ concat cps) with ((c :: conts) ++ concat cps). rewrite length_app.
  destruct (Nat.ltb_spec (length (c :: conts) + length (concat cps)) (S (length conts))) as [Hlt|_]; [cbn in Hlt; lia|].
  change (S (length conts)) with (length (c :: conts)). rewrite take_app_length, drop_app_length. f_equal. apply IH. cbn in Hf. lia.
Qed.
Lemma code_points_utf8 cps : Forall well_formed cps → code_points (concat cps) = cps.
Proof. intros Hw. by apply code_points_loop_utf8. Qed.

Lemma code_point_length_pos c s : (1 ≤ code_point_length c (c :: s) ≤ length (c :: s))%nat.
Proof.
  assert (1 ≤ Utf8CodePointLength c)%nat by (unfold Utf8CodePointLength; repeat case_match; lia). unfold code_point_length.
  destruct (Nat.ltb_spec (length (c :: s)) (Utf8CodePointLength c)); cbn [length] in *; lia.
Qed.
(** The code points make up the string. *)
Lemma concat_code_points s : concat (code_points s) = s.
Proof.
  unfold code_points. assert (H : ∀ fuel s, (length s ≤ fuel)%nat → concat (code_points_loop fuel s) = s); [|by apply H].
  clear s. induction fuel as [|fuel IH]; intros [|c s] Hl; cbn [code_points_loop concat]; [done|cbn in Hl; lia|done|].
  pose proof (code_point_length_pos c s). rewrite IH, take_drop; [done|]. rewrite length_drop. cbn [length] in *. lia.
Qed.

Lemma utf8_split cps a b : Forall well_formed cps → concat cps = a ++ b → (∀ x b', b = x :: b' → continuation x = false) →
  ∃ cps1 cps2, cps = cps1 ++ cps2 ∧ a = concat cps1 ∧ b = concat cps2.
Proof.
  intros Hw. revert a. induction Hw as [|cp cps Hcp Hw IH]; intros a E Hb.
  { cbn in E. symmetry in E. apply app_eq_nil in E as [-> ->]. by exists [], []. }
  cbn in E. apply app_eq_app in E as (u&[[-> E]|[-> E]]).
  - destruct a as [|x a]; [exists [], ((u) :: cps); by subst b|].
    destruct u as [|y u]; [exists [x :: a], cps; cbn; by rewrite !app_nil_r|].
    destruct Hcp as (c&conts&Ec&_&_&Hc). injection Ec as <- <-. apply Forall_app in Hc as [_ Hc]. inversion Hc as [|? ? Hy _]; subst.
    rewrite (Hb y (u ++ concat cps)) in Hy; done.
  - destruct (IH u) as (c1&c2&->&->&->); [done|done|]. exists (cp :: c1), c2. done.
Qed.

Lemma utf8_prefix ps cps r : Forall well_formed ps → Forall well_formed cps → concat cps = concat ps ++ r →
  ∃ cps', cps = ps ++ cps' ∧ r = concat cps'.
Proof.
  intros Hp. revert cps. induction Hp as [|p ps Hwp Hp IH]; intros cps Hc E; [by exists cps|].
  destruct Hwp as (c&conts&->&Hl&_). destruct Hc as [|p' cps (c'&conts'&->&Hl'&_) Hc]; [done|]. cbn in E. injection E as -> E.
  rewrite Hl in Hl'. injection Hl' as Hl'. rewrite <-app_assoc in E. apply app_inj_1 in E as [-> E]; [|done].
  destruct (IH cps Hc E) as (cps'&->&->). by exists cps'.
Qed.

(** *** The pattern of the simpler tests *)

Lemma parse_fuel fuel p : (length p ≤ fuel)%nat → parse_loop fuel p = parse p.
Proof.
  unfold parse. assert (H : ∀ n m p, (length p ≤ n)%nat → (length p ≤ m)%nat → parse_loop n p = parse_loop m p); [|intros; by apply H].
  clear fuel p. induction n as [|n IH]; intros [|m] [|c p] Hn Hm; cbn [length] in *; try done; try lia. cbn [parse_loop].
  case_bool_decide; [destruct p as [|x p]; [done|]; destruct (_ && _); [done|]; cbn in *; rewrite (IH m p); [done|lia..]|].
  destruct (_ || _); [rewrite (IH m p); [done|lia..]|].
  pose proof (code_point_length_pos c p). rewrite (IH m); [done|rewrite length_drop; cbn [length] in *; lia..].
Qed.

Definition literal_of (cp : bytes) : Element := (cp, bool_decide (cp = [percent])).
Definition special (c : ascii) : bool := bool_decide (c = underscore) || bool_decide (c = backslash).

Lemma parse_utf8 cps : Forall well_formed cps → Forall (λ c, special c = false) (concat cps) → parse (concat cps) = Ok (literal_of <$> cps).
Proof.
  induction 1 as [|cp cps (c&conts&->&Hl&_) _ IH]; intros Hs; [done|]. cbn [concat app] in Hs |- *. unfold parse. cbn [length parse_loop].
  apply Forall_cons in Hs as [Hc Hs]. unfold special in Hc. apply orb_false_iff in Hc as [Hu Hb]. rewrite Hb, Hu. cbn [orb].
  apply Forall_app in Hs as [_ Hs]. specialize (IH Hs). clear Hu Hb.
  case_bool_decide as Hp.
  - subst c. vm_compute in Hl. injection Hl as Hl. destruct conts; [|done]. cbn [app]. fold (parse (concat cps)). by rewrite IH.
  - cbv zeta. unfold code_point_length. rewrite Hl. change (c :: conts ++ concat cps) with ((c :: conts) ++ concat cps). rewrite length_app.
    destruct (Nat.ltb_spec (length (c :: conts) + length (concat cps)) (S (length conts))) as [Hlt|_]; [cbn in Hlt; lia|].
    change (S (length conts)) with (length (c :: conts)). rewrite take_app_length, drop_app_length, parse_fuel by (rewrite length_app; lia).
    rewrite IH. cbn. unfold literal_of. rewrite bool_decide_false; [done|congruence].
Qed.

Lemma literals_match cps cs : Forall (λ cp, cp ≠ [percent]) cps → matches (literal_of <$> cps) cs ↔ cs = cps.
Proof.
  intros Hne. split.
  - intros (l&H&<-). revert l H. induction Hne as [|cp cps Hcp _ IH]; intros l H; cbn in H; inversion H as [|? x ? l' Hx Hl]; subst; [done|].
    cbn. rewrite (IH l' Hl). unfold segment, is_percent, is_underscore, literal_of in Hx. cbn in Hx.
    rewrite bool_decide_false in Hx by done. cbn in Hx. by subst x.
  - intros ->. exists ((λ cp, [cp]) <$> cps). split.
    + induction Hne as [|cp cps Hcp _ IH]; cbn; constructor; [|done]. unfold segment, is_percent, is_underscore, literal_of. cbn.
      by rewrite bool_decide_false.
    + clear. induction cps as [|cp cps IH]; [done|]. rewrite fmap_cons. cbn [concat app]. by rewrite IH.
Qed.

Lemma find_None c s : find c s = None ↔ c ∉ s.
Proof.
  unfold find. rewrite fmap_None, list_find_None, Forall_forall. split; [intros H Hc; by apply (H c)|]. intros H x Hx ->. done.
Qed.
Lemma find_Some c s i : find c s = Some i ↔ s !! i = Some c ∧ c ∉ take i s.
Proof.
  unfold find. rewrite fmap_Some. split.
  - intros ([j x]&(Hj&->&Hb)%list_find_Some&[= ->]). split; [done|]. intros (k&Hk)%list_elem_of_lookup. 
    apply lookup_take_Some in Hk as [Hk Hlt]. by apply (Hb k c Hk).
  - intros [Hi Hn]. exists (i, c). split; [|done]. apply list_find_Some. split_and!; [done|done|]. intros k y Hk Hlt ->.
    apply Hn, list_elem_of_lookup. exists k. by apply lookup_take_Some.
Qed.
Lemma rfind_Some c s i : rfind c s = Some i → s !! i = Some c ∧ c ∉ drop (S i) s.
Proof.
  unfold rfind. intros (j&[Hj Hn]%find_Some&->)%fmap_Some. apply reverse_lookup_Some in Hj as [Hj Hlt].
  split; [by replace (length s - 1 - j)%nat with (length s - S j)%nat by lia|].
  intros Hc. apply Hn. replace (S (length s - 1 - j)) with (length s - j)%nat in Hc by lia.
  rewrite take_reverse. by apply elem_of_reverse.
Qed.
Lemma rfind_None c s : rfind c s = None ↔ c ∉ s.
Proof. unfold rfind. by rewrite fmap_None, find_None, elem_of_reverse. Qed.

Lemma take_last (c : ascii) s n : length s = S n → s !! n = Some c → s = take n s ++ [c].
Proof. intros Hl Hc. rewrite <-(take_drop n s) at 1. f_equal. rewrite (drop_S s c n Hc), drop_ge by lia. done. Qed.

Lemma not_special p : find underscore p = None → find backslash p = None → Forall (λ c, special c = false) p.
Proof.
  rewrite !find_None. intros Hu Hb. apply Forall_forall. intros c Hc. unfold special. apply orb_false_iff.
  split; apply bool_decide_eq_false; intros ->; done.
Qed.

Definition pattern_of (t : StringTest) (lit : bytes) : bytes :=
  match t with
  | TestEqual => lit
  | TestContains => [percent] ++ lit ++ [percent]
  | TestStartsWith => lit ++ [percent]
  | TestEndsWith => [percent] ++ lit
  end.
Lemma TryOptimize_spec p t lit : TryOptimize p = Some (t, lit) →
  Forall (λ c, special c = false) p ∧ (percent ∉ lit) ∧ lit ≠ [] ∧ p = pattern_of t lit.
Proof.
  unfold TryOptimize. destruct (find underscore p) eqn:Hu; [done|]. destruct (find backslash p) eqn:Hb; [done|]. cbn [orb].
  pose proof (not_special p Hu Hb) as Hs.
  destruct (find percent p) as [i|] eqn:Hf.
  2: { destruct p as [|c p]; [done|]. intros [= <- <-]. split_and!; [done|by apply find_None|done|done]. }
  destruct (rfind percent p) as [j|] eqn:Hr.
  2: { apply rfind_None in Hr. apply find_Some in Hf as [Hi _]. destruct Hr. by eapply list_elem_of_lookup_2. }
  apply find_Some in Hf as [Hi Hbefore]. apply rfind_Some in Hr as [Hj Hafter].
  destruct (Nat.eqb_spec i j) as [<-|Hne]; cbn [negb].
  - destruct (Nat.eqb_spec i (length p - 1)) as [El|_], (Nat.ltb_spec 0 i) as [Hpos|Hz]; cbn [andb].
    1: { intros [= <- <-]. rewrite <-El. pose proof (lookup_lt_Some _ _ _ Hi). split_and!; [done|done| |apply take_last; [lia|done]].
         intros E%(f_equal length). rewrite length_take in E. cbn in E. lia. }
    all: destruct (Nat.eqb_spec i 0) as [->|]; cbn [andb]; try done; destruct (Nat.ltb_spec 1 (length p)) as [Hlen|]; try done;
         intros [= <- <-]; split_and!; [done|done| |]; destruct p as [|c [|c' p]]; cbn in *; try done; try lia; by injection Hi as ->.
  - destruct (Nat.eqb_spec i 0) as [->|]; [|done]. destruct (Nat.eqb_spec j (length p - 1)) as [->|]; [|done].
    destruct (Nat.ltb_spec 2 (length p)) as [Hlen|]; [|done]. case_bool_decide as Hd; [|done]. cbn [andb]. intros [= <- <-].
    destruct p as [|c q]; [done|]. cbn in Hi. injection Hi as ->. cbn [drop length] in *. apply fmap_Some in Hd as (k&Hk&Ek).
    apply find_Some in Hk as [Hk Hbk]. replace (S (length q) - 2)%nat with k by lia. rewrite drop_0 in *. split_and!; [done|done| |].
    + intros E%(f_equal length). rewrite length_take in E. cbn [length] in E. lia.
    + cbn. f_equal. apply take_last; [lia|done].
Qed.

Lemma percent_not_continuation x (b : bytes) : [percent] = x :: b → continuation x = false.
Proof. by intros [= <- <-]. Qed.
Lemma percent_well_formed : well_formed [percent].
Proof. exists percent, []. by split_and!. Qed.

(** The code points of the literal of a simpler test, and the parsed pattern. *)
Lemma pattern_utf8 t lit : utf8 (pattern_of t lit) → ∃ cps, lit = concat cps ∧ Forall well_formed cps.
Proof.
  intros (cps&E&Hw). assert (Hsplit : ∀ a b ps, Forall well_formed ps → concat ps = a ++ b → (∀ x b', b = x :: b' → continuation x = false) →
    ∃ ps1 ps2, Forall well_formed ps1 ∧ Forall well_formed ps2 ∧ a = concat ps1 ∧ b = concat ps2).
  { intros a b ps Hps Eab Hb. destruct (utf8_split ps a b Hps Eab Hb) as (p1&p2&->&->&->). apply Forall_app in Hps as [H1 H2]. eauto 6. }
  assert (Hdrop : ∀ l ps, Forall well_formed ps → concat ps = [percent] ++ l → ∃ ps', Forall well_formed ps' ∧ l = concat ps').
  { intros l ps Hps El. destruct (utf8_prefix [[percent]] ps l) as (ps'&->&->); [by repeat constructor; apply percent_well_formed|done|done|].
    apply Forall_app in Hps as [_ ?]. eauto. }
  destruct t; cbn [pattern_of] in E; symmetry in E.
  - by exists cps.
  - destruct (Hdrop _ _ Hw E) as (ps&Hps&El). destruct (Hsplit lit [percent] ps Hps) as (p1&p2&H1&_&->&_); [done|apply percent_not_continuation|eauto].
  - destruct (Hsplit lit [percent] cps Hw E) as (p1&p2&H1&_&->&_); [apply percent_not_continuation|eauto].
  - destruct (Hdrop _ _ Hw E) as (ps&Hps&->). eauto.
Qed.

(** The code points of a pattern of a simpler test, and what they match. *)
Definition points_of (t : StringTest) (cps : list bytes) : list bytes :=
  match t with
  | TestEqual => cps
  | TestContains => [[percent]] ++ cps ++ [[percent]]
  | TestStartsWith => cps ++ [[percent]]
  | TestEndsWith => [[percent]] ++ cps
  end.
Definition found (t : StringTest) {A} (l cs : list A) : Prop :=
  match t with
  | TestEqual => cs = l
  | TestContains => ∃ a b, cs = a ++ l ++ b
  | TestStartsWith => ∃ b, cs = l ++ b
  | TestEndsWith => ∃ a, cs = a ++ l
  end.

Lemma concat_points t cps : concat (points_of t cps) = pattern_of t (concat cps).
Proof. destruct t; cbn; rewrite ?concat_app; done. Qed.
Lemma run_test_found t field lit : run_test t field lit = true ↔ found t lit field.
Proof. destruct t; cbn; [apply bool_decide_eq_true|apply Contains_infix|apply StartsWith_spec|apply EndsWith_spec]. Qed.

Lemma any_segment cs : segment (literal_of [percent]) cs.
Proof. by apply segment_percent. Qed.
Lemma points_match t cps cs : Forall (λ cp, cp ≠ [percent]) cps → matches (literal_of <$> points_of t cps) cs ↔ found t cps cs.
Proof.
  intros Hn. pose proof (literals_match cps) as Hl. destruct t; cbn [points_of found].
  - by apply Hl.
  - rewrite !fmap_app, matches_app. setoid_rewrite matches_app. split.
    + intros (a&?&->&_&(l&b&->&Hm&_)). apply (Hl l Hn) in Hm as ->. eauto.
    + intros (a&b&->). exists a, (cps ++ b). split_and!; [done|apply matches_single, any_segment|]. exists cps, b.
      split_and!; [done|by apply Hl|apply matches_single, any_segment].
  - rewrite fmap_app, matches_app. split.
    + intros (l&b&->&Hm&_). apply (Hl l Hn) in Hm as ->. eauto.
    + intros (b&->). exists cps, b. split_and!; [done|by apply Hl|apply matches_single, any_segment].
  - rewrite fmap_app, matches_app. split.
    + intros (a&l&->&_&Hm). apply (Hl l Hn) in Hm as ->. eauto.
    + intros (a&->). exists a, cps. split_and!; [done|apply matches_single, any_segment|by apply Hl].
Qed.

Lemma well_formed_nil l : Forall well_formed l → [] = concat l → l = [].
Proof. by intros [|x l' (c&conts&->&_) _]. Qed.
(** On UTF-8, finding the bytes is finding the code points. *)
Lemma found_utf8 t cps fs : Forall well_formed cps → Forall well_formed fs → cps ≠ [] → found t (concat cps) (concat fs) ↔ found t cps fs.
Proof.
  intros Hc Hf Hne.
  assert (Hhead : ∀ r x b, concat cps ++ r = x :: b → continuation x = false).
  { intros r x b. destruct Hc as [|cp cps' (c&conts&->&_&Hcont&_) _]; [done|]. by intros [= <- _]. }
  assert (Hstart : ∀ ps b, Forall well_formed ps → concat ps = concat cps ++ b → ∃ ps', ps = cps ++ ps').
  { intros ps b Hps E. destruct (utf8_prefix cps ps b Hc Hps E) as (ps'&->&_). eauto. }
  assert (Hmid : ∀ a b, concat fs = a ++ concat cps ++ b → ∃ f1 f2, fs = f1 ++ cps ++ f2 ∧ b = concat f2).
  { intros a b E. destruct (utf8_split fs a _ Hf E) as (f1&f2&->&->&E2); [apply Hhead|]. apply Forall_app in Hf as [_ Hf2].
    destruct (utf8_prefix cps f2 b Hc Hf2 (eq_sym E2)) as (f3&->&->). eauto. }
  destruct t; cbn [found].
  - split; [|by intros ->]. intros E. destruct (utf8_prefix cps fs [] Hc Hf) as (fs'&->&E'); [by rewrite app_nil_r|].
    apply Forall_app in Hf as [_ Hf]. by rewrite (well_formed_nil _ Hf E'), app_nil_r.
  - split; [intros (a&b&E); destruct (Hmid a b E) as (f1&f2&->&_); eauto|]. intros (a&b&->). rewrite !concat_app. eauto.
  - split; [intros (b&E); by apply (Hstart fs b)|]. intros (b&->). rewrite concat_app. eauto.
  - split.
    + intros (a&E). destruct (Hmid a []) as (f1&f2&->&E2); [by rewrite app_nil_r|].
      apply Forall_app in Hf as [_ Hf]. apply Forall_app in Hf as [_ Hf]. rewrite (well_formed_nil _ Hf E2), app_nil_r. eauto.
    + intros (a&->). rewrite concat_app. eauto.
Qed.

(** C31. The tests that [LikeOptimization] puts in the place of [Like] give the
    same answers: on UTF-8 patterns and fields, testing for equality, for a
    prefix, for a suffix or for an infix of the bytes is matching the pattern. *)
Theorem like_optimization_agrees pattern t literal field : TryOptimize pattern = Some (t, literal) → utf8 pattern → utf8 field →
  MatchString field pattern = Ok (run_test t field literal).
Proof.
  intros (Hs&Hp&Hne&->)%TryOptimize_spec Hu (fs&->&Hf). destruct (pattern_utf8 _ _ Hu) as (cps&->&Hc).
  assert (Hnp : Forall (λ cp, cp ≠ [percent]) cps).
  { apply Forall_forall. intros cp Hcp ->. apply Hp, list_elem_of_concat. exists [percent]. split; [done|by left]. }
  pose proof (like_matches (concat fs) (pattern_of t (concat cps))) as H. rewrite <-concat_points in Hs, H.
  rewrite parse_utf8 in H; [|destruct t; cbn [points_of]; repeat (apply Forall_app; split); try done; by repeat constructor; apply percent_well_formed|done].
  destruct H as (b&E&Hb). rewrite concat_points in E. rewrite E. f_equal. apply eq_true_iff_eq.
  rewrite Hb, (points_match t cps) by done. rewrite code_points_utf8 by done. rewrite run_test_found. symmetry. apply found_utf8; [done..|].
  by intros ->.
Qed.

(** *** Witness *)

Definition text (s : string) : bytes := String.list_ascii_of_string s.
Lemma ascii_utf8 s : forallb (λ c, (byte c <? 0x80) && negb (continuation c)) s = true → utf8 s.
Proof.
  intros Hs. exists ((λ c, [c]) <$> s). split.
  - clear. induction s as [|c s IH]; [done|]. rewrite fmap_cons. cbn [concat app]. by rewrite <-IH.
  - apply Forall_fmap, Forall_forall. intros c Hc. apply list_elem_of_In in Hc. rewrite forallb_forall in Hs. apply Hs in Hc.
    apply andb_true_iff in Hc as [Hb Hn%negb_true_iff]. exists c, []. unfold Utf8CodePointLength. rewrite Hb. by split_and!.
Qed.

Lemma like_optimization_agrees_witness :
  MatchString (text "a quick brown fox") (text "%quick%") = Ok true ∧ MatchString (text "a quick fox") (text "%slow%") = Ok false.
Proof.
  split.
  - rewrite (like_optimization_agrees _ TestContains (text "quick")); [done|done|by apply ascii_utf8|by apply ascii_utf8].
  - rewrite (like_optimization_agrees _ TestContains (text "slow")); [done|done|by apply ascii_utf8|by apply ascii_utf8].
Defined.
