(* ===== verification/Predicates.v ===== *)
(** * Predicates

    Literals, the leaf functions, and predicates as trees of them
    (src/paimon/common/predicate and include/paimon/predicate): evaluation on
    rows and on the statistics of a file, negation, and the projections of a
    predicate to some of its fields. A file is skipped only if none of its rows
    satisfies the predicate. The evaluation on Arrow arrays and full-text
    search are left out. *)

From stdpp Require Import base list strings gmap.
From Stdlib Require Import ZArith Lia SpecFloat Ascii.
From S2P Require Import Prelude Decimal Rows Like.
Local Open Scope Z_scope.

(** ** Literals *)

Module FieldType.
Inductive t :=
| BOOLEAN | TINYINT | SMALLINT | INT | BIGINT | FLOAT | DOUBLE | STRING | BINARY | TIMESTAMP | DECIMAL | DATE
| ARRAY | MAP | STRUCT | BLOB | VARIANT | VECTOR | UNKNOWN.
#[export] Instance eq_dec : EqDecision t.
Proof. solve_decision. Defined.
End FieldType.
Import FieldType.

(** A value of the union, [VNull] for a null literal. *)
Record Literal := mkLiteral { type_ : FieldType.t; value_ : VariantType }.
#[export] Instance Literal_eq_dec : EqDecision Literal.
Proof. solve_decision. Defined.

Definition IsNull (l : Literal) : bool := IsVariantNull (value_ l).

(** The members of the union. *)
Definition BooleanVal (v : VariantType) : bool := match v with VBool b => b | _ => false end.
Definition IntVal (v : VariantType) : Z := match v with VByte z | VShort z | VInt z | VLong z => z | _ => 0 end.
Definition FloatVal (v : VariantType) : spec_float := match v with VFloat f | VDouble f => f | _ => S754_zero false end.
Definition StringVal (v : VariantType) : string := match v with VString s | VBytes s => s | _ => EmptyString end.
Definition TimestampVal (v : VariantType) : Timestamp := match v with VTimestamp t => t | _ => mkTimestamp 0 0 end.
Definition DecimalVal (v : VariantType) : Decimal.Decimal := match v with VDecimal d => d | _ => Decimal.mkDecimal 0 0 0 end.

Definition CompareTo (a b : Literal) : Result Z :=
  if negb (bool_decide (type_ a = type_ b)) then Err Invalid "cannot compare with different type"
  else if IsNull a && IsNull b then Ok 0
  else if IsNull a || IsNull b then Err Invalid "cannot compare with null"
  else
    let '(v, w) := (value_ a, value_ b) in
    match type_ a with
    | BOOLEAN => Ok (cmp_bool (BooleanVal v) (BooleanVal w))
    | TINYINT | SMALLINT | INT | BIGINT | DATE => Ok (cmpZ (IntVal v) (IntVal w))
    | FLOAT | DOUBLE => Ok (CompareFloatingPoint (FloatVal v) (FloatVal w))
    | STRING | BINARY => Ok (cmp_string (StringVal v) (StringVal w))
    | TIMESTAMP => Ok (cmp_timestamp (TimestampVal v) (TimestampVal w))
    | DECIMAL => Ok (Decimal.CompareTo (DecimalVal v) (DecimalVal w))
    | _ => Err Invalid "unsupported type"
    end.

(** [LiteralConverter::ConvertLiteralsFromRow] *)
Definition ConvertLiteralsFromRow (schema : list ArrowType) (row : InternalRow) (field_idx : nat) (type : FieldType.t) : Result Literal :=
  if IsNullAt row field_idx then Ok (mkLiteral type VNull)
  else
    match type with
    | BOOLEAN => Ok (mkLiteral type (VBool (GetBoolean row field_idx)))
    | TINYINT => Ok (mkLiteral type (VByte (GetInteger row field_idx)))
    | SMALLINT => Ok (mkLiteral type (VShort (GetInteger row field_idx)))
    | INT | DATE => Ok (mkLiteral type (VInt (GetInteger row field_idx)))
    | BIGINT => Ok (mkLiteral type (VLong (GetInteger row field_idx)))
    | FLOAT => Ok (mkLiteral type (VFloat (GetFloating row field_idx)))
    | DOUBLE => Ok (mkLiteral type (VDouble (GetFloating row field_idx)))
    | STRING => Ok (mkLiteral type (VString (GetStringView row field_idx)))
    | BINARY => Ok (mkLiteral type (VBytes (GetStringView row field_idx)))
    | TIMESTAMP =>
        match schema !! field_idx with
        | Some (Rows.TIMESTAMP precision) => Ok (mkLiteral type (VTimestamp (GetTimestamp row field_idx)))
        | _ => Err Invalid "Convert literal from row not valid for schema"
        end
    | DECIMAL =>
        match schema !! field_idx with
        | Some (DECIMAL128 precision scale) => Ok (mkLiteral type (VDecimal (GetDecimal row field_idx precision scale)))
        | _ => Err Invalid "Convert literal from row not valid for schema"
        end
    | _ => Err Invalid "Convert literal from row not valid"
    end.

(** ** Leaf functions *)

Inductive LeafFunction :=
| FIsNull | FIsNotNull | FEqual | FNotEqual | FGreaterThan | FGreaterOrEqual | FLessThan | FLessOrEqual
| FIn | FNotIn | FStartsWith | FEndsWith | FContains | FLike.
#[export] Instance LeafFunction_eq_dec : EqDecision LeafFunction.
Proof. solve_decision. Defined.

Definition NegateLeaf (f : LeafFunction) : option LeafFunction :=
  match f with
  | FIsNull => Some FIsNotNull
  | FIsNotNull => Some FIsNull
  | FEqual => Some FNotEqual
  | FNotEqual => Some FEqual
  | FGreaterThan => Some FLessOrEqual
  | FGreaterOrEqual => Some FLessThan
  | FLessThan => Some FGreaterOrEqual
  | FLessOrEqual => Some FGreaterThan
  | FIn => Some FNotIn
  | FNotIn => Some FIn
  | FStartsWith | FEndsWith | FContains | FLike => None
  end.

Definition TestString (f : LeafFunction) (field pattern : string) : Result bool :=
  let '(field, pattern) := (String.list_ascii_of_string field, String.list_ascii_of_string pattern) in
  match f with
  | FStartsWith => Ok (StartsWith field pattern)
  | FEndsWith => Ok (EndsWith field pattern)
  | FContains => Ok (Contains field pattern)
  | FLike => MatchString field pattern
  | _ => Err UnknownError "not a string function"
  end.

(** [Test(field, literal)] of the functions with one literal. *)
Definition TestOne (f : LeafFunction) (field literal : Literal) : Result bool :=
  match f with
  | FEqual => r ← CompareTo field literal; Ok (r =? 0)
  | FNotEqual => r ← CompareTo field literal; Ok (negb (r =? 0))
  | FGreaterThan => r ← CompareTo field literal; Ok (0 <? r)
  | FGreaterOrEqual => r ← CompareTo field literal; Ok (0 <=? r)
  | FLessThan => r ← CompareTo field literal; Ok (r <? 0)
  | FLessOrEqual => r ← CompareTo field literal; Ok (r <=? 0)
  | _ => TestString f (StringVal (value_ field)) (StringVal (value_ literal))
  end.

(** [In::InnerTest] and [NotIn::InnerTest] *)
Fixpoint InTest (field : Literal) (literals : list Literal) : Result bool :=
  match literals with
  | [] => Ok false
  | literal :: rest =>
      if IsNull literal then InTest field rest
      else r ← CompareTo field literal; if r =? 0 then Ok true else InTest field rest
  end.
Fixpoint NotInTest (field : Literal) (literals : list Literal) : Result bool :=
  match literals with
  | [] => Ok true
  | literal :: rest =>
      if IsNull literal then Ok false
      else r ← CompareTo field literal; if r =? 0 then Ok false else NotInTest field rest
  end.

Definition TestLeaf (f : LeafFunction) (value : Literal) (literals : list Literal) : Result bool :=
  match f with
  | FIsNull => Ok (IsNull value)
  | FIsNotNull => Ok (negb (IsNull value))
  | FIn => if IsNull value then Ok false else InTest value literals
  | FNotIn => if IsNull value then Ok false else NotInTest value literals
  | _ =>
      match literals with
      | [] => Err Invalid "NullFalseLeafBinaryFunction needs single literal for field"
      | literal :: _ => if IsNull literal || IsNull value then Ok false else TestOne f value literal
      end
  end.

(** *** Statistics *)

Definition TestOneStats (f : LeafFunction) (min_value max_value literal : Literal) : Result bool :=
  match f with
  | FEqual => min_res ← CompareTo literal min_value; max_res ← CompareTo literal max_value; Ok ((0 <=? min_res) && (max_res <=? 0))
  | FNotEqual =>
      min_res ← CompareTo literal min_value; max_res ← CompareTo literal max_value;
      Ok (negb (min_res =? 0) || negb (max_res =? 0))
  | FGreaterThan => res ← CompareTo literal max_value; Ok (res <? 0)
  | FGreaterOrEqual => res ← CompareTo literal max_value; Ok (res <=? 0)
  | FLessThan => res ← CompareTo literal min_value; Ok (0 <? res)
  | FLessOrEqual => res ← CompareTo literal min_value; Ok (0 <=? res)
  | FStartsWith =>
      let '(min_str, max_str, pattern_str) := (StringVal (value_ min_value), StringVal (value_ max_value), StringVal (value_ literal)) in
      min_test ← TestString f min_str pattern_str;
      max_test ← TestString f max_str pattern_str;
      Ok ((min_test || (cmp_string min_str pattern_str <=? 0)) && (max_test || (0 <=? cmp_string max_str pattern_str)))
  | _ => Ok true
  end.

Fixpoint InStats (min_value max_value : Literal) (literals : list Literal) : Result bool :=
  match literals with
  | [] => Ok false
  | literal :: rest =>
      if IsNull literal then InStats min_value max_value rest
      else min_ret ← CompareTo literal min_value;
           max_ret ← CompareTo literal max_value;
           if (0 <=? min_ret) && (max_ret <=? 0) then Ok true else InStats min_value max_value rest
  end.
Fixpoint NotInStats (min_value max_value : Literal) (literals : list Literal) : Result bool :=
  match literals with
  | [] => Ok true
  | literal :: rest =>
      if IsNull literal then Ok false
      else min_ret ← CompareTo literal min_value;
           max_ret ← CompareTo literal max_value;
           if (min_ret =? 0) && (max_ret =? 0) then Ok false else NotInStats min_value max_value rest
  end.

Definition TestLeafStats (f : LeafFunction) (row_count : Z) (min_value max_value : Literal) (null_count : option Z) (literals : list Literal)
    : Result bool :=
  let all_null := match null_count with Some n => row_count =? n | None => false end in
  match f with
  | FIsNull => Ok (match null_count with None => true | Some n => 0 <? n end)
  | FIsNotNull => Ok (match null_count with None => true | Some n => n <? row_count end)
  | FIn => if all_null then Ok false else InStats min_value max_value literals
  | FNotIn => if all_null then Ok false else NotInStats min_value max_value literals
  | _ =>
      match literals with
      | [] => Err Invalid "NullFalseLeafBinaryFunction needs single literal for field"
      | literal :: _ =>
          if match null_count with Some n => (row_count =? n) || IsNull literal | None => false end then Ok false
          else TestOneStats f min_value max_value literal
      end
  end.

(** ** Predicates *)

Inductive CompoundFunction := And | Or.
#[export] Instance CompoundFunction_eq_dec : EqDecision CompoundFunction.
Proof. solve_decision. Defined.

Inductive Predicate :=
| Leaf (leaf_function_ : LeafFunction) (field_index_ : nat) (field_name_ : string) (field_type_ : FieldType.t) (literals_ : list Literal)
| Compound (compound_function_ : CompoundFunction) (children_ : list Predicate).

Section Evaluation.
Context (schema : list ArrowType).

Definition TestLeafRow (f : LeafFunction) (field_index : nat) (field_type : FieldType.t) (literals : list Literal) (row : InternalRow) : Result bool :=
  if (length row <=? field_index)%nat then Err Invalid "field index exceed field count in row"
  else value ← ConvertLiteralsFromRow schema row field_index field_type; TestLeaf f value literals.

(** [And::Test] stops at the first child that is false, [Or::Test] at the first
    that is true. *)
Fixpoint Test (p : Predicate) (row : InternalRow) : Result bool :=
  match p with
  | Leaf f field_index _ field_type literals => TestLeafRow f field_index field_type literals row
  | Compound f children =>
      (fix loop (children : list Predicate) : Result bool :=
         match children with
         | [] => Ok (match f with And => true | Or => false end)
         | child :: rest =>
             is_valid ← Test child row;
             match f with
             | And => if (is_valid : bool) then loop rest else Ok false
             | Or => if (is_valid : bool) then Ok true else loop rest
             end
         end) children
  end.

(** The null counts are an array of 64-bit integers that may be null. *)
Definition TestLeafFile (f : LeafFunction) (field_index : nat) (field_type : FieldType.t) (literals : list Literal)
    (row_count : Z) (min_values max_values null_counts : InternalRow) : Result bool :=
  min_value ← ConvertLiteralsFromRow schema min_values field_index field_type;
  max_value ← ConvertLiteralsFromRow schema max_values field_index field_type;
  let null_count := if IsNullAt null_counts field_index then None else Some (GetInteger null_counts field_index) in
  if (match null_count with None => true | Some n => negb (row_count =? n) end) && (IsNull min_value || IsNull max_value) then Ok true
  else TestLeafStats f row_count min_value max_value null_count literals.

Fixpoint TestFile (p : Predicate) (row_count : Z) (min_values max_values null_counts : InternalRow) : Result bool :=
  match p with
  | Leaf f field_index _ field_type literals => TestLeafFile f field_index field_type literals row_count min_values max_values null_counts
  | Compound f children =>
      (fix loop (children : list Predicate) : Result bool :=
         match children with
         | [] => Ok (match f with And => true | Or => false end)
         | child :: rest =>
             is_valid ← TestFile child row_count min_values max_values null_counts;
             match f with
             | And => if (is_valid : bool) then loop rest else Ok false
             | Or => if (is_valid : bool) then Ok true else loop rest
             end
         end) children
  end.
End Evaluation.

(** A child that cannot be negated makes the whole predicate so. *)
Definition NegateCompound (f : CompoundFunction) : CompoundFunction := match f with And => Or | Or => And end.
Fixpoint Negate (p : Predicate) : option Predicate :=
  match p with
  | Leaf f i name type literals => (λ f', Leaf f' i name type literals) <$> NegateLeaf f
  | Compound f children =>
      Compound (NegateCompound f) <$>
      (fix loop (children : list Predicate) : option (list Predicate) :=
         match children with
         | [] => Some []
         | child :: rest =>
             match Negate child with
             | None => None
             | Some negated_child => cons negated_child <$> loop rest
             end
         end) children
  end.

(** *** PredicateBuilder and PredicateUtils *)

Definition BuildAnd (predicates : list Predicate) : Result Predicate :=
  match predicates with
  | [] => Err Invalid "There must be at least 1 inner predicate to construct an AND predicate"
  | [p] => Ok p
  | _ => Ok (Compound And predicates)
  end.
Definition BuildNot (p : Predicate) : Result Predicate :=
  match Negate p with
  | None => Err Invalid "Could not construct A NOT predicate"
  | Some q => Ok q
  end.
Definition Between (i : nat) (name : string) (type : FieldType.t) (included_lower_bound included_upper_bound : Literal) : Predicate :=
  Compound And [Leaf FGreaterOrEqual i name type [included_lower_bound]; Leaf FLessOrEqual i name type [included_upper_bound]].

Fixpoint SplitCompound (type : CompoundFunction) (p : Predicate) : list Predicate :=
  match p with
  | Compound f children => if decide (f = type) then concat (map (SplitCompound type) children) else [p]
  | Leaf _ _ _ _ _ => [p]
  end.
Definition SplitAnd (p : Predicate) : list Predicate := SplitCompound And p.

Fixpoint ContainAnyField (p : Predicate) (field_names : list string) : bool :=
  match p with
  | Leaf _ _ name _ _ => bool_decide (name ∈ field_names)
  | Compound _ children => existsb (λ child, ContainAnyField child field_names) children
  end.
Definition ExcludeAll (predicates : list Predicate) (field_names : list string) : list Predicate :=
  match predicates, field_names with
  | [], _ | _, [] => predicates
  | _, _ => filter (λ p, ContainAnyField p field_names = false) predicates
  end.
(** [None] is the null pointer. *)
Definition ExcludePredicateWithFields (p : Predicate) (field_names : list string) : Result (option Predicate) :=
  match ExcludeAll (SplitAnd p) field_names with
  | [] => Ok None
  | new_predicates => q ← BuildAnd new_predicates; Ok (Some q)
  end.

Fixpoint ReconstructPredicateWithPickedFields (picked : gmap string nat) (p : Predicate) : option Predicate :=
  match p with
  | Leaf f _ name type literals => (λ idx, Leaf f idx name type literals) <$> picked !! name
  | Compound f children =>
      Compound f <$>
      (fix loop (children : list Predicate) : option (list Predicate) :=
         match children with
         | [] => Some []
         | child :: rest =>
             match ReconstructPredicateWithPickedFields picked child with
             | None => None
             | Some mapped => cons mapped <$> loop rest
             end
         end) children
  end.
Definition CreatePickedFieldFilter (picked : gmap string nat) (p : Predicate) : Result (option Predicate) :=
  match omap (ReconstructPredicateWithPickedFields picked) (SplitAnd p) with
  | [] => Ok None
  | converted_predicates => q ← BuildAnd converted_predicates; Ok (Some q)
  end.

(** ** The order of literals *)

(** Decimals are compared by the numbers they denote. *)
Definition cmp_decimal (a b : Decimal.Decimal) : Z :=
  cmpZ (Decimal.value_ a * 10 ^ Z.max 0 (Decimal.scale_ b)) (Decimal.value_ b * 10 ^ Z.max 0 (Decimal.scale_ a)).
Lemma cmpZ_le a b : cmpZ a b ≤ 0 ↔ a ≤ b.
Proof. unfold cmpZ. destruct (Z.eqb_spec a b), (Z.ltb_spec a b); lia. Qed.
Lemma laws_decimal : @ComparatorLaws Decimal.Decimal cmp_decimal.
Proof.
  assert (Hp : ∀ s, 0 < 10 ^ Z.max 0 s) by (intros s; apply Z.pow_pos_nonneg; lia).
  split; unfold Prelude.CompareTo, cmp_decimal.
  - intros a b. apply (@cmp_antisym _ _ laws_Z).
  - intros [pa sa va] [pb sb vb] [pc sc vc]. cbn. rewrite !cmpZ_le. intros H1 H2.
    pose proof (Hp sa). pose proof (Hp sb). pose proof (Hp sc). apply (Z.mul_le_mono_pos_r _ _ (10 ^ Z.max 0 sb)); nia.
Qed.

(** The order of the values of a type. *)
Definition cmp_value (t : FieldType.t) (v w : VariantType) : Z :=
  match t with
  | BOOLEAN => cmp_bool (BooleanVal v) (BooleanVal w)
  | TINYINT | SMALLINT | INT | BIGINT | DATE => cmpZ (IntVal v) (IntVal w)
  | FLOAT | DOUBLE => CompareFloatingPoint (FloatVal v) (FloatVal w)
  | STRING | BINARY => cmp_string (StringVal v) (StringVal w)
  | TIMESTAMP => cmp_timestamp (TimestampVal v) (TimestampVal w)
  | DECIMAL => cmp_decimal (DecimalVal v) (DecimalVal w)
  | _ => 0
  end.
Definition comparable (t : FieldType.t) : bool :=
  match t with ARRAY | MAP | STRUCT | BLOB | VARIANT | VECTOR | UNKNOWN => false | _ => true end.
#[local] Instance value_order t : Comparator VariantType := cmp_value t.
#[local] Instance value_laws t : @ComparatorLaws VariantType (value_order t).
Proof.
  unfold value_order. destruct t; cbn [cmp_value];
    first [exact (laws_proj BooleanVal _ laws_bool)|exact (laws_proj IntVal _ laws_Z)|exact (laws_proj FloatVal _ laws_float)
      |exact (laws_proj StringVal _ laws_string)|exact (laws_proj TimestampVal _ laws_timestamp)|exact (laws_proj DecimalVal _ laws_decimal)
      |apply laws_const].
Qed.

(** A decimal is a 128-bit integer with a scale that is not negative. *)
Definition literal_ok (l : Literal) : Prop :=
  Decimal.in_range (DecimalVal (value_ l)) ∧ 0 ≤ Decimal.scale_ (DecimalVal (value_ l)).

Lemma CompareTo_value a b : literal_ok a → literal_ok b → IsNull a = false → IsNull b = false →
  CompareTo a b = if decide (type_ a = type_ b) then
                    if comparable (type_ a) then Ok (cmp_value (type_ a) (value_ a) (value_ b)) else Err Invalid "unsupported type"
                  else Err Invalid "cannot compare with different type".
Proof.
  intros [Ra Sa] [Rb Sb] Ha Hb. unfold CompareTo. rewrite Ha, Hb. cbn [andb orb]. case_decide as Ht; [|by rewrite bool_decide_false].
  rewrite bool_decide_true by done. cbn [negb]. destruct (type_ a); try reflexivity. cbn [comparable cmp_value]. f_equal.
  rewrite Decimal.CompareTo_spec by done. unfold cmp_decimal. by rewrite !Z.max_r.
Qed.
Lemma CompareTo_Ok a b r : literal_ok a → literal_ok b → IsNull a = false → IsNull b = false → CompareTo a b = Ok r →
  type_ a = type_ b ∧ comparable (type_ a) = true ∧ r = cmp_value (type_ a) (value_ a) (value_ b).
Proof.
  intros Ha Hb Na Nb. rewrite CompareTo_value by done. case_decide; [|done]. destruct (comparable _); [|done]. by intros [= <-].
Qed.

Lemma CompareTo_same t a b : literal_ok a → literal_ok b → IsNull a = false → IsNull b = false → type_ a = t → type_ b = t →
  comparable t = true → CompareTo a b = Ok (cmp_value t (value_ a) (value_ b)).
Proof. intros Ha Hb Na Nb <- Tb Hc. rewrite CompareTo_value by done. by rewrite decide_True, Hc. Qed.

Lemma convert_literal schema row i t l : Forall type_ok schema → ConvertLiteralsFromRow schema row i t = Ok l →
  type_ l = t ∧ literal_ok l ∧ IsNull l = IsNullAt row i.
Proof.
  intros Hs. unfold ConvertLiteralsFromRow. destruct (IsNullAt row i) eqn:En.
  { intros [= <-]. split_and!; [done| |done]. by split. }
  destruct t; try done; try (intros [= <-]; split_and!; [done|by split|done]).
  - destruct (schema !! i) as [[]|]; try done. intros [= <-]. split_and!; [done|by split|done].
  - destruct (schema !! i) as [[| | | | | | | | | | |p sc|]|] eqn:E; try done. intros [= <-]. split_and!; [done| |done]. cbn.
    split; [apply GetDecimal_range|]. rewrite Forall_forall in Hs. apply (Hs (DECIMAL128 p sc)). by eapply list_elem_of_lookup_2.
Qed.

(** *** Prefixes *)

Lemma prefix_between p m r : String.compare p m ≠ Gt → String.compare m (String.append p r) ≠ Gt → ∃ s, m = String.append p s.
Proof.
  revert m. induction p as [|c p IH]; intros m H1 H2; [by exists m|]. destruct m as [|d m]; [done|].
  change (String.append (String c p) r) with (String c (String.append p r)) in H2. cbn in H1, H2.
  rewrite (Ascii.compare_antisym d c) in H2.
  destruct (Ascii.compare c d) eqn:E; cbn in H2; [|done|done].
  apply Ascii.compare_eq_iff in E as ->. destruct (IH m H1 H2) as [s ->]. by exists s.
Qed.
Lemma prefix_below p r : String.compare p (String.append p r) ≠ Gt.
Proof.
  induction p as [|c p IH]; [by destruct r|]. change (String.append (String c p) r) with (String c (String.append p r)). cbn. pose proof (Ascii.compare_antisym c c) as Ha. by destruct (Ascii.compare c c).
Qed.
Lemma ascii_list_append a b : String.list_ascii_of_string (String.append a b) = String.list_ascii_of_string a ++ String.list_ascii_of_string b.
Proof.
  induction a as [|c a IH]; [done|]. change (String.append (String c a) b) with (String c (String.append a b)). cbn. by rewrite IH.
Qed.
Lemma starts_with_append f p : StartsWith (String.list_ascii_of_string f) (String.list_ascii_of_string p) = true ↔ ∃ r, f = String.append p r.
Proof.
  rewrite StartsWith_spec. split.
  - intros [r E]. exists (String.string_of_list_ascii r). rewrite <-(String.string_of_list_ascii_of_string f), E.
    rewrite <-(String.string_of_list_ascii_of_string p) at 2. clear.
    induction (String.list_ascii_of_string p) as [|c l IH]; [done|]. cbn [app String.string_of_list_ascii]. by rewrite IH.
  - intros [r ->]. eexists. apply ascii_list_append.
Qed.
Lemma cmp_string_le a b : cmp_string a b ≤ 0 ↔ String.compare a b ≠ Gt.
Proof. unfold cmp_string. by destruct (String.compare a b). Qed.

(** Between the least and the greatest value of a file there is one with the
    prefix only if the statistics allow it. *)
Lemma starts_with_stats lo hi f p : cmp_string lo f ≤ 0 → cmp_string f hi ≤ 0 →
  StartsWith (String.list_ascii_of_string f) (String.list_ascii_of_string p) = true →
  (StartsWith (String.list_ascii_of_string lo) (String.list_ascii_of_string p) || (cmp_string lo p <=? 0)) &&
  (StartsWith (String.list_ascii_of_string hi) (String.list_ascii_of_string p) || (0 <=? cmp_string hi p)) = true.
Proof.
  intros Hlo Hhi [r ->]%starts_with_append. apply andb_true_iff. split; apply orb_true_iff.
  - destruct (Z.leb_spec (cmp_string lo p) 0) as [|Hgt]; [by right|left]. apply starts_with_append.
    apply (prefix_between p lo r); [|by apply cmp_string_le].
    unfold cmp_string in Hgt. rewrite String.compare_antisym. by destruct (String.compare lo p).
  - right. apply Z.leb_le. assert (Hp : cmp_string p hi ≤ 0).
    { apply (@cmp_trans _ _ laws_string _ (String.append p r)); [|exact Hhi]. apply cmp_string_le, prefix_below. }
    apply cmp_string_le in Hp. unfold cmp_string. rewrite String.compare_antisym. destruct (String.compare p hi); cbn; [lia|lia|done].
Qed.

(** The literals of a leaf are well-formed, and a prefix is looked for in
    strings only, which the builder ensures. *)
Definition leaf_ok (f : LeafFunction) (type : FieldType.t) (literals : list Literal) : Prop :=
  Forall literal_ok literals ∧ (f = FStartsWith → type = STRING).

(** ** Pruning *)

(** The place of a literal [y] relative to the bounds [a] and [b] of a value [x]. *)
Lemma bounds_order {K} `{ComparatorLaws K} (a x b y : K) : kle a x → kle x b →
  (Prelude.CompareTo x y = 0 → 0 ≤ Prelude.CompareTo y a ∧ Prelude.CompareTo y b ≤ 0) ∧
  (Prelude.CompareTo x y ≠ 0 → Prelude.CompareTo y a ≠ 0 ∨ Prelude.CompareTo y b ≠ 0) ∧
  (0 < Prelude.CompareTo x y → Prelude.CompareTo y b < 0) ∧ (0 ≤ Prelude.CompareTo x y → Prelude.CompareTo y b ≤ 0) ∧
  (Prelude.CompareTo x y < 0 → 0 < Prelude.CompareTo y a) ∧ (Prelude.CompareTo x y ≤ 0 → 0 ≤ Prelude.CompareTo y a).
Proof.
  intros Ha Hb. change (Prelude.CompareTo x y = 0) with (keq x y). rewrite <-!kle_flip, <-!klt_flip.
  change (Prelude.CompareTo y b ≤ 0) with (kle y b). change (Prelude.CompareTo y b < 0) with (klt y b).
  change (Prelude.CompareTo x y < 0) with (klt x y). change (Prelude.CompareTo x y ≤ 0) with (kle x y).
  split_and!; try (intros; korder).
  - intros; split; korder.
  - intros Hne. destruct (decide (Prelude.CompareTo y a = 0)) as [E|]; [right|by left]. intros E'. apply Hne.
    change (keq x y). change (keq y a) in E. change (keq y b) in E'. apply keq_le. split; korder.
Qed.

Section Pruning.
Context (schema : list ArrowType) (Hschema : Forall type_ok schema).
Context (rows : list InternalRow) (row_count : Z) (min_values max_values null_counts : InternalRow).

(** What the statistics say of a column: the null count is exact if it is
    known, and the bounds are not null only if they are bounds. *)
Definition stats_ok (i : nat) (t : FieldType.t) : Prop :=
  row_count = Z.of_nat (length rows) ∧
  (IsNullAt null_counts i = false → GetInteger null_counts i = Z.of_nat (length (filter (λ row, IsNullAt row i = true) rows))) ∧
  ∀ row v lo hi, row ∈ rows → ConvertLiteralsFromRow schema row i t = Ok v → IsNull v = false →
    ConvertLiteralsFromRow schema min_values i t = Ok lo → ConvertLiteralsFromRow schema max_values i t = Ok hi →
    IsNull lo = false → IsNull hi = false → cmp_value t (value_ lo) (value_ v) ≤ 0 ∧ cmp_value t (value_ v) (value_ hi) ≤ 0.

Lemma null_count_max row i : row ∈ rows → length (filter (λ row, IsNullAt row i = true) rows) = length rows → IsNullAt row i = true.
Proof.
  clear. intros Hin. revert Hin. induction rows as [|r rs IH]; [by intros ?%elem_of_nil|]. intros Hin Hl. rewrite filter_cons in Hl.
  pose proof (length_filter (λ row, IsNullAt row i = true) rs) as Hle. case_decide as Hd; cbn [length] in Hl; [|lia].
  apply elem_of_cons in Hin as [->|Hin]; [done|]. apply IH; [done|lia].
Qed.
Lemma null_count_pos row i : row ∈ rows → IsNullAt row i = true → (0 < length (filter (λ row, IsNullAt row i = true) rows))%nat.
Proof.
  intros Hin Hn. destruct (filter _ rows) eqn:E; [|cbn; lia]. assert (Hf : row ∈ filter (λ row, IsNullAt row i = true) rows) by (by apply list_elem_of_filter).
  rewrite E in Hf. by apply elem_of_nil in Hf.
Qed.

Section Bounds.
Context (t : FieldType.t) (v lo hi : Literal).
Context (Tv : type_ v = t) (Tlo : type_ lo = t) (Thi : type_ hi = t) (Ov : literal_ok v) (Olo : literal_ok lo) (Ohi : literal_ok hi).
Context (Nv : IsNull v = false) (Nlo : IsNull lo = false) (Nhi : IsNull hi = false).
Context (Hlo : cmp_value t (value_ lo) (value_ v) ≤ 0) (Hhi : cmp_value t (value_ v) (value_ hi) ≤ 0).

Lemma bounds_compare l r : literal_ok l → IsNull l = false → CompareTo v l = Ok r →
  r = cmp_value t (value_ v) (value_ l) ∧ CompareTo l lo = Ok (cmp_value t (value_ l) (value_ lo)) ∧
  CompareTo l hi = Ok (cmp_value t (value_ l) (value_ hi)).
Proof.
  intros Ol Nl E. apply CompareTo_Ok in E as (El&Ec&->); [|done..]. rewrite Tv in El, Ec |- *.
  split; [done|]. split; by apply CompareTo_same.
Qed.

Lemma TestOne_bounds f l : literal_ok l → IsNull l = false → (f = FStartsWith → t = STRING) → TestOne f v l = Ok true →
  TestOneStats f lo hi l ≠ Ok false.
Proof.
  intros Ol Nl Hstring H.
  destruct (bounds_order (C := value_order t) (value_ lo) (value_ v) (value_ hi) (value_ l) Hlo Hhi) as (H1&H2&H3&H4&H5&H6).
  unfold Prelude.CompareTo, value_order in H1, H2, H3, H4, H5, H6.
  assert (Hcmp : ∀ (test : Z → bool), (r ← CompareTo v l; Ok (test r)) = Ok true →
    test (cmp_value t (value_ v) (value_ l)) = true ∧ CompareTo l lo = Ok (cmp_value t (value_ l) (value_ lo)) ∧
    CompareTo l hi = Ok (cmp_value t (value_ l) (value_ hi))).
  { intros test (r&E&[= Ht])%bind_Ok. destruct (bounds_compare l r Ol Nl E) as (->&?&?). done. }
  destruct f; try done; cbn [TestOne TestOneStats] in *.
  - apply Hcmp in H as (Ht%Z.eqb_eq&->&->). cbn. destruct (H1 Ht). intros [= E]. apply andb_false_iff in E as [?%Z.leb_gt|?%Z.leb_gt]; lia.
  - apply Hcmp in H as (Ht%negb_true_iff%Z.eqb_neq&->&->). cbn. intros [= E]. apply orb_false_iff in E as [E1%negb_false_iff%Z.eqb_eq E2%negb_false_iff%Z.eqb_eq].
    destruct (H2 Ht); done.
  - apply Hcmp in H as (Ht%Z.ltb_lt&_&->). cbn. intros [= E%Z.ltb_ge]. specialize (H3 Ht). lia.
  - apply Hcmp in H as (Ht%Z.leb_le&_&->). cbn. intros [= E%Z.leb_gt]. specialize (H4 Ht). lia.
  - apply Hcmp in H as (Ht%Z.ltb_lt&->&_). cbn. intros [= E%Z.ltb_ge]. specialize (H5 Ht). lia.
  - apply Hcmp in H as (Ht%Z.leb_le&->&_). cbn. intros [= E%Z.leb_gt]. specialize (H6 Ht). lia.
  - cbn in H |- *. injection H as H. specialize (Hstring eq_refl). subst t. rewrite Hstring in *. cbn in Hlo, Hhi.
    by rewrite (starts_with_stats _ _ _ _ Hlo Hhi H).
Qed.

Lemma InTest_bounds literals : Forall literal_ok literals → InTest v literals = Ok true → InStats lo hi literals = Ok true.
Proof.
  induction 1 as [|l literals Ol _ IH]; [done|]. cbn. destruct (IsNull l) eqn:Nl; [done|]. intros (r&E&H)%bind_Ok.
  destruct (bounds_compare l r Ol Nl E) as (->&->&->). cbn. destruct (_ && _) eqn:Eb; [done|]. apply IH.
  destruct (Z.eqb_spec (cmp_value t (value_ v) (value_ l)) 0) as [Ez|]; [|done]. exfalso.
  destruct (bounds_order (C := value_order t) (value_ lo) (value_ v) (value_ hi) (value_ l) Hlo Hhi) as (H1&_).
  destruct (H1 Ez) as [Hge Hle]. unfold Prelude.CompareTo, value_order in Hge, Hle. apply andb_false_iff in Eb as [?%Z.leb_gt|?%Z.leb_gt]; lia.
Qed.
Lemma NotInTest_bounds literals : Forall literal_ok literals → NotInTest v literals = Ok true → NotInStats lo hi literals = Ok true.
Proof.
  induction 1 as [|l literals Ol _ IH]; [done|]. cbn. destruct (IsNull l) eqn:Nl; [done|]. intros (r&E&H)%bind_Ok.
  destruct (bounds_compare l r Ol Nl E) as (->&->&->). cbn.
  destruct (Z.eqb_spec (cmp_value t (value_ v) (value_ l)) 0) as [|Hne]; [done|].
  destruct (bounds_order (C := value_order t) (value_ lo) (value_ v) (value_ hi) (value_ l) Hlo Hhi) as (_&H2&_).
  destruct (H2 Hne) as [Hn|Hn]; unfold Prelude.CompareTo, value_order in Hn; apply Z.eqb_neq in Hn; rewrite Hn, ?andb_false_r; by apply IH.
Qed.

Lemma TestLeaf_bounds f literals n : leaf_ok f t literals → match n with Some n => row_count =? n | None => false end = false →
  f ≠ FIsNull → f ≠ FIsNotNull → TestLeaf f v literals = Ok true → TestLeafStats f row_count lo hi n literals ≠ Ok false.
Proof.
  intros [Olits Hstring] Hn Hf1 Hf2 Ht. destruct (decide (f = FIn)) as [->|Hf3].
  { cbn in *. rewrite Nv in Ht. rewrite Hn. by rewrite InTest_bounds. }
  destruct (decide (f = FNotIn)) as [->|Hf4].
  { cbn in *. rewrite Nv in Ht. rewrite Hn. by rewrite NotInTest_bounds. }
  destruct literals as [|l literals]; [by destruct f|]. inversion_clear Olits as [|? ? Ol _].
  assert (Hl : IsNull l = false ∧ TestOne f v l = Ok true).
  { destruct (IsNull l) eqn:Nl; [destruct f; cbn in Ht; rewrite ?Nl in Ht; done|]. split; [done|].
    destruct f; try done; cbn [TestLeaf] in Ht; by rewrite Nl, Nv in Ht. }
  destruct Hl as [Nl H1]. pose proof (TestOne_bounds f l Ol Nl Hstring H1) as H.
  assert (E : TestLeafStats f row_count lo hi n (l :: literals) =
              if match n with Some n => (row_count =? n) || IsNull l | None => false end then Ok false else TestOneStats f lo hi l) by (by destruct f).
  rewrite E, Nl. destruct n as [n|]; [|done]. by rewrite Hn.
Qed.
End Bounds.

Lemma TestLeafFile_sound f i type literals row : leaf_ok f type literals → stats_ok i type → row ∈ rows →
  TestLeafRow schema f i type literals row = Ok true →
  TestLeafFile schema f i type literals row_count min_values max_values null_counts ≠ Ok false.
Proof.
  intros Hleaf (Hcount&Hnulls&Hbounds) Hin. unfold TestLeafRow, TestLeafFile.
  destruct (length row <=? i)%nat; [done|]. intros (v&Ev&Ht)%bind_Ok. destruct (convert_literal _ _ _ _ _ Hschema Ev) as (Tv&Ov&Nv).
  destruct (ConvertLiteralsFromRow schema min_values i type) as [lo|] eqn:Elo; [|done].
  destruct (ConvertLiteralsFromRow schema max_values i type) as [hi|] eqn:Ehi; [|done]. cbn [mbind Result_bind].
  destruct (convert_literal _ _ _ _ _ Hschema Elo) as (Tlo&Olo&_). destruct (convert_literal _ _ _ _ _ Hschema Ehi) as (Thi&Ohi&_).
  set (null_count := if IsNullAt null_counts i then None else Some (GetInteger null_counts i)).
  assert (Hn : ∀ n, null_count = Some n → n = Z.of_nat (length (filter (λ row, IsNullAt row i = true) rows))).
  { subst null_count. destruct (IsNullAt null_counts i); [done|]. intros n [= <-]. by apply Hnulls. }
  clearbody null_count. pose proof (null_count_max row i Hin) as Hmax. pose proof (null_count_pos row i Hin) as Hpos.
  assert (Hall : ∀ n, null_count = Some n → row_count = n → IsNull v = true).
  { intros n En E. specialize (Hn n En). rewrite Nv. apply Hmax. lia. }
  assert (Hlen : ∀ n, null_count = Some n → n ≤ row_count).
  { intros n ->%Hn. pose proof (length_filter (λ row, IsNullAt row i = true) rows). lia. }
  destruct (_ && (IsNull lo || IsNull hi)) eqn:Eg; [done|].
  destruct (decide (f = FIsNull)) as [->|Hf1].
  { cbn in *. injection Ht as Ht. destruct null_count as [n|]; [|done]. rewrite Nv in Ht. specialize (Hpos Ht). specialize (Hn n eq_refl).
    intros [= E%Z.ltb_ge]. lia. }
  destruct (decide (f = FIsNotNull)) as [->|Hf2].
  { cbn in *. injection Ht as Ht%negb_true_iff. destruct null_count as [n|]; [|done]. specialize (Hlen n eq_refl). specialize (Hall n eq_refl).
    intros [= E%Z.ltb_ge]. rewrite Hall in Ht by lia. done. }
  assert (Nv' : IsNull v = false).
  { destruct (IsNull v) eqn:E; [|done]. destruct f; cbn in Ht; rewrite ?E in Ht; try done; destruct literals as [|l ?]; try done; by rewrite orb_true_r in Ht. }
  assert (Hall' : match null_count with Some n => row_count =? n | None => false end = false).
  { destruct null_count as [n|]; [|done]. apply Z.eqb_neq. intros E. by rewrite (Hall n eq_refl E) in Nv'. }
  assert (Hlohi : IsNull lo = false ∧ IsNull hi = false).
  { apply andb_false_iff in Eg as [Eg|Eg]; [|by apply orb_false_iff in Eg]. destruct null_count; [|done]. by rewrite Hall' in Eg. }
  destruct Hlohi as [Nlo Nhi]. destruct (Hbounds row v lo hi Hin Ev Nv' eq_refl eq_refl Nlo Nhi) as [Hlo Hhi].
  by apply (TestLeaf_bounds type v).
Qed.
End Pruning.

(** ** Predicate trees *)

Lemma Predicate_induction (P : Predicate → Prop) :
  (∀ f i name type literals, P (Leaf f i name type literals)) →
  (∀ f children, Forall P children → P (Compound f children)) → ∀ p, P p.
Proof.
  intros Hleaf Hcomp. fix IH 1. intros [f i name type literals|f children]; [apply Hleaf|]. apply Hcomp.
  induction children as [|c children IHc]; constructor; [apply IH|exact IHc].
Qed.

(** A property of all leaves. *)
Fixpoint all_leaves (P : LeafFunction → nat → string → FieldType.t → list Literal → Prop) (p : Predicate) : Prop :=
  match p with
  | Leaf f i name type literals => P f i name type literals
  | Compound _ children => (fix loop (children : list Predicate) := match children with [] => True | c :: rest => all_leaves P c ∧ loop rest end) children
  end.
Lemma all_leaves_compound P f children : all_leaves P (Compound f children) ↔ Forall (all_leaves P) children.
Proof. cbn. induction children as [|c children IH]; [done|]. rewrite IH. by rewrite Forall_cons. Qed.

(** Evaluation in the order of the children until one of them decides. *)
Fixpoint evaluate {A} (f : CompoundFunction) (test : A → Result bool) (l : list A) : Result bool :=
  match l with
  | [] => Ok (match f with And => true | Or => false end)
  | x :: rest =>
      b ← test x;
      match f with And => if (b : bool) then evaluate f test rest else Ok false | Or => if (b : bool) then Ok true else evaluate f test rest end
  end.
Lemma Test_compound schema f children row : Test schema (Compound f children) row = evaluate f (λ p, Test schema p row) children.
Proof. cbn. induction children as [|c children IH]; [done|]. cbn. destruct (Test schema c row) as [[]|]; cbn; destruct f; done. Qed.
Lemma TestFile_compound schema f children n lo hi nulls :
  TestFile schema (Compound f children) n lo hi nulls = evaluate f (λ p, TestFile schema p n lo hi nulls) children.
Proof. cbn. induction children as [|c children IH]; [done|]. cbn. destruct (TestFile schema c n lo hi nulls) as [[]|]; cbn; destruct f; done. Qed.

Lemma evaluate_and {A} (test : A → Result bool) l : evaluate And test l = Ok true ↔ Forall (λ x, test x = Ok true) l.
Proof.
  induction l as [|x l IH]; cbn; [split; [by constructor|done]|]. destruct (test x) as [[]|] eqn:E; cbn.
  - rewrite IH, Forall_cons. tauto.
  - split; [done|]. intros H. inversion H. congruence.
  - split; [done|]. intros H. inversion H. congruence.
Qed.
Lemma evaluate_implied {A B} f (test : A → Result bool) (test' : B → Result bool) l l' :
  Forall2 (λ x y, test x = Ok true → test' y ≠ Ok false) l l' → evaluate f test l = Ok true → evaluate f test' l' ≠ Ok false.
Proof.
  induction 1 as [|x y l l' Hxy _ IH]; cbn; [by destruct f|]. destruct (test x) as [b|] eqn:E; [|done]. cbn.
  destruct (test' y) as [b'|] eqn:E'; [|done]. cbn. destruct b.
  - specialize (Hxy eq_refl). destruct b'; [|done]. by destruct f.
  - destruct f; [done|]. by destruct b'.
Qed.

Lemma Forall2_diag {A} (R : A → A → Prop) l : Forall (λ x, R x x) l → Forall2 R l l.
Proof. induction 1; by constructor. Qed.

(** The statistics of a file with a row that satisfies the predicate. *)
Lemma TestFile_sound schema rows row_count min_values max_values null_counts p row :
  Forall type_ok schema →
  all_leaves (λ f i _ type literals, leaf_ok f type literals ∧ stats_ok schema rows row_count min_values max_values null_counts i type) p →
  row ∈ rows → Test schema p row = Ok true → TestFile schema p row_count min_values max_values null_counts ≠ Ok false.
Proof.
  intros Hs. revert p. refine (Predicate_induction _ _ _).
  - intros f i name type literals [Hl Hst] Hin. by eapply TestLeafFile_sound.
  - intros f children IH Hall Hin. apply all_leaves_compound in Hall. rewrite Test_compound, TestFile_compound.
    apply evaluate_implied, Forall2_diag. rewrite Forall_forall in IH, Hall |- *. intros c Hc. by apply IH; [|apply Hall|].
Qed.

(** C29. Files are skipped safely: if some row of a file satisfies a predicate,
    the predicate does not evaluate to false on the statistics of the file, as
    long as the statistics of the columns it mentions bound their values and
    count their nulls, or say nothing. *)
Theorem predicate_pruning_sound schema rows row_count min_values max_values null_counts p row :
  Forall type_ok schema →
  all_leaves (λ f i _ type literals, leaf_ok f type literals ∧ stats_ok schema rows row_count min_values max_values null_counts i type) p →
  row ∈ rows → Test schema p row = Ok true → TestFile schema p row_count min_values max_values null_counts ≠ Ok false.
Proof. apply TestFile_sound. Qed.

(** ** Negation *)

(** No value and no literal of a predicate is null on a row. *)
Definition no_nulls (row : InternalRow) : Predicate → Prop :=
  all_leaves (λ _ i _ _ literals, IsNullAt row i = false ∧ Forall (λ l, IsNull l = false) literals).

Definition rnegb (r : Result bool) : Result bool := b ← r; Ok (negb b).

Lemma NegateLeaf_test f f' v literals : NegateLeaf f = Some f' → IsNull v = false → Forall (λ l, IsNull l = false) literals →
  TestLeaf f' v literals = rnegb (TestLeaf f v literals).
Proof.
  intros Hf Nv Hl.
  assert (Hin : NotInTest v literals = rnegb (InTest v literals)).
  { clear -Hl. induction Hl as [|l literals Nl _ IH]; [done|]. cbn. rewrite Nl. destruct (CompareTo v l) as [r|]; [|done]. cbn. by destruct (r =? 0). }
  assert (Hin' : InTest v literals = rnegb (NotInTest v literals)).
  { rewrite Hin. unfold rnegb. destruct (InTest v literals) as [b|]; [|done]. cbn. by rewrite negb_involutive. }
  destruct f; try done; injection Hf as <-; cbn [TestLeaf]; rewrite ?Nv; try done;
    try (cbn; by rewrite ?negb_involutive); (destruct literals as [|l literals]; [done|]; inversion_clear Hl as [|? ? Nl _]; rewrite Nl; cbn;
    destruct (CompareTo v l) as [r|]; [|done]; cbn; f_equal; rewrite ?negb_involutive; try done;
    repeat match goal with |- context [?a <? ?b] => destruct (Z.ltb_spec a b) | |- context [?a <=? ?b] => destruct (Z.leb_spec a b) end; try done; lia).
Qed.

Lemma Negate_compound f children q : Negate (Compound f children) = Some q →
  ∃ children', q = Compound (NegateCompound f) children' ∧ Forall2 (λ c c', Negate c = Some c') children children'.
Proof.
  cbn. intros (l&E&->)%fmap_Some. exists l. split; [done|]. revert l E. induction children as [|c children IH]; intros l E.
  { injection E as <-. constructor. }
  destruct (Negate c) as [c'|] eqn:Ec; [|done]. apply fmap_Some in E as (l'&El&->). constructor; [done|]. by apply IH.
Qed.
Lemma Negate_compound_intro f children children' : Forall2 (λ c c', Negate c = Some c') children children' →
  Negate (Compound f children) = Some (Compound (NegateCompound f) children').
Proof.
  intros H. cbn. apply fmap_Some. exists children'. split; [|done]. induction H as [|c c' l l' Hc _ IH]; [done|]. by rewrite Hc, IH.
Qed.

Lemma Negate_involutive p q : Negate p = Some q → Negate q = Some p.
Proof.
  revert p q. refine (Predicate_induction _ _ _).
  - intros f i name type literals q (f'&Hf&->)%fmap_Some. cbn. apply fmap_Some. exists f. split; [|done]. destruct f; try done; by injection Hf as <-.
  - intros f children IH q (children'&->&H)%Negate_compound. rewrite (Negate_compound_intro _ _ children); [by destruct f|].
    induction H as [|c c' l l' Hc _ IHl]; [constructor|]. inversion_clear IH as [|? ? IHc IHl']. constructor; [by apply IHc|by apply IHl].
Qed.

Lemma Negate_test schema row p q : Negate p = Some q → no_nulls row p → Test schema q row = rnegb (Test schema p row).
Proof.
  revert p q. refine (Predicate_induction _ _ _).
  - intros f i name type literals q (f'&Hf&->)%fmap_Some [Hn Hl]. cbn. unfold TestLeafRow. destruct (_ <=? _)%nat; [done|].
    destruct (ConvertLiteralsFromRow schema row i type) as [v|] eqn:Ev; [|done]. cbn. apply NegateLeaf_test; [done| |done].
    unfold ConvertLiteralsFromRow in Ev. rewrite Hn in Ev.
    destruct type; try done; try (by injection Ev as <-); destruct (schema !! i) as [[]|]; try done; by injection Ev as <-.
  - intros f children IH q (children'&->&H)%Negate_compound Hn. unfold no_nulls in Hn. rewrite all_leaves_compound in Hn.
    rewrite !Test_compound.
    induction H as [|c c' l l' Hc _ IHl]; [by destruct f|]. apply Forall_cons in IH as [IHc IHl'], Hn as [Hnc Hnl]. cbn [evaluate].
    rewrite (IHc c' Hc Hnc), (IHl IHl' Hnl). destruct (Test schema c row) as [[]|]; by destruct f.
Qed.

Lemma NegateLeaf_exclusive f f' v literals : NegateLeaf f = Some f' → TestLeaf f v literals = Ok true → TestLeaf f' v literals ≠ Ok true.
Proof.
  intros Hf. destruct (IsNull v) eqn:Nv.
  { destruct f; try done; injection Hf as <-; cbn; rewrite ?Nv; try done; destruct literals as [|l ?]; try done; rewrite orb_true_r; done. }
  assert (Hin : ∀ ls, InTest v ls = Ok true → NotInTest v ls = Ok true → False).
  { induction ls as [|l ls IH]; [done|]. cbn. destruct (IsNull l); [done|]. destruct (CompareTo v l) as [r|]; [|done]. cbn. by destruct (r =? 0). }
  destruct f; try done; injection Hf as <-; cbn [TestLeaf]; rewrite ?Nv; try (intros H1 H2; first [exact (Hin _ H1 H2)|exact (Hin _ H2 H1)]);
    try (cbn; done); (destruct literals as [|l literals]; [done|]; destruct (IsNull l); [done|]; cbn; destruct (CompareTo v l) as [r|]; [|done];
    cbn; intros [= H1] [= H2]; rewrite ?negb_true_iff in *; rewrite ?Z.ltb_lt, ?Z.leb_le, ?Z.eqb_eq, ?Z.eqb_neq in *; try lia; congruence).
Qed.
Lemma Negate_exclusive schema row p q : Negate p = Some q → Test schema p row = Ok true → Test schema q row ≠ Ok true.
Proof.
  revert p q. refine (Predicate_induction _ _ _).
  - intros f i name type literals q (f'&Hf&->)%fmap_Some. cbn. unfold TestLeafRow. destruct (_ <=? _)%nat; [done|].
    destruct (ConvertLiteralsFromRow schema row i type) as [v|]; [|done]. cbn. by apply NegateLeaf_exclusive.
  - intros f children IH q (children'&->&H)%Negate_compound. rewrite !Test_compound.
    induction H as [|c c' l l' Hc _ IHl]; [by destruct f|]. apply Forall_cons in IH as [IHc IHl']. cbn [evaluate].
    specialize (IHc c' Hc). specialize (IHl IHl'). destruct (Test schema c row) as [b|], (Test schema c' row) as [b'|]; cbn; try done;
      destruct f; cbn; destruct b, b'; try done; intros; naive_solver.
Qed.

(** Negation: a predicate and its negation are never both true of a row, and
    where no value and no literal is null the negation is true, false or fails
    exactly where the predicate is false, true or fails. Negating twice gives
    the predicate back. *)
Theorem predicate_negation schema p q : Negate p = Some q →
  Negate q = Some p ∧ (∀ row, Test schema p row = Ok true → Test schema q row ≠ Ok true) ∧
  ∀ row, no_nulls row p → Test schema q row = rnegb (Test schema p row).
Proof.
  intros H. split_and!; [by apply Negate_involutive|intros row; by apply Negate_exclusive|intros row; by apply Negate_test].
Qed.

(** ** Parts of a predicate *)

Lemma SplitAnd_compound children : SplitAnd (Compound And children) = concat (map SplitAnd children).
Proof. done. Qed.
Lemma SplitAnd_or children : SplitAnd (Compound Or children) = [Compound Or children].
Proof. done. Qed.
Lemma SplitAnd_leaf f i name type literals : SplitAnd (Leaf f i name type literals) = [Leaf f i name type literals].
Proof. done. Qed.
Lemma SplitAnd_test schema row p : Test schema p row = Ok true ↔ Forall (λ q, Test schema q row = Ok true) (SplitAnd p).
Proof.
  revert p. refine (Predicate_induction _ _ _).
  - intros f i name type literals. by rewrite SplitAnd_leaf, Forall_singleton.
  - intros [|] children IH; [|by rewrite SplitAnd_or, Forall_singleton]. rewrite Test_compound, evaluate_and, SplitAnd_compound.
    induction IH as [|c children Hc _ IH]; [done|]. cbn [map concat]. by rewrite Forall_cons, Forall_app, Hc, IH.
Qed.
Lemma SplitAnd_leaves P p : all_leaves P p → Forall (all_leaves P) (SplitAnd p).
Proof.
  revert p. refine (Predicate_induction _ _ _).
  - intros f i name type literals H. by apply Forall_singleton.
  - intros [|] children IH H; [|by apply Forall_singleton]. rewrite all_leaves_compound in H. rewrite SplitAnd_compound.
    induction IH as [|c children Hc _ IHl]; [constructor|]. apply Forall_cons in H as [H1 H2]. cbn [map concat]. apply Forall_app. split; [by apply Hc|by apply IHl].
Qed.
Lemma BuildAnd_test schema row l q : BuildAnd l = Ok q → Test schema q row = Ok true ↔ Forall (λ q, Test schema q row = Ok true) l.
Proof.
  destruct l as [|p [|p' l]]; cbn [BuildAnd]; [done|intros [= <-]; by rewrite Forall_singleton|intros [= <-]]. by rewrite Test_compound, evaluate_and.
Qed.
Lemma BuildAnd_fields l q names : BuildAnd l = Ok q → Forall (λ p, ContainAnyField p names = false) l → ContainAnyField q names = false.
Proof.
  destruct l as [|p [|p' l]]; cbn [BuildAnd]; [done|intros [= <-] H; by inversion H|intros [= <-] H]. cbn [ContainAnyField].
  generalize dependent (p :: p' :: l). clear. induction 1 as [|x l Hx _ IH]; [done|]. cbn. by rewrite Hx, IH.
Qed.
Lemma ContainAnyField_nil p : ContainAnyField p [] = false.
Proof.
  revert p. refine (Predicate_induction _ _ _); [intros; cbn; by apply bool_decide_eq_false, not_elem_of_nil|].
  intros f children IH. cbn. induction IH as [|c l Hc _ IH]; [done|]. cbn. by rewrite Hc, IH.
Qed.

Lemma ExcludeAll_spec l names : ExcludeAll l names ⊆+ l ∧ Forall (λ p, ContainAnyField p names = false) (ExcludeAll l names).
Proof.
  unfold ExcludeAll. destruct l as [|p l], names as [|n names]; try (split; [done|]; try constructor).
  - apply ContainAnyField_nil.
  - apply Forall_forall. intros x _. apply ContainAnyField_nil.
  - split; [apply sublist_submseteq, sublist_filter|]. apply Forall_forall. by intros x [? _]%list_elem_of_filter.
Qed.

Lemma Reconstruct_test picked schema schema' row row' p q b : ReconstructPredicateWithPickedFields picked p = Some q →
  all_leaves (λ _ i name _ _, ∀ j, picked !! name = Some j → (j < length row')%nat ∧ field_at row' j = field_at row i ∧ schema' !! j = schema !! i) p →
  Test schema p row = Ok b → Test schema' q row' = Ok b.
Proof.
  revert p q b. refine (Predicate_induction _ _ _).
  - intros f i name type literals q b (j&Hj&->)%fmap_Some Hp. destruct (Hp j Hj) as (Hlt&Ef&Es). cbn. unfold TestLeafRow.
    destruct (Nat.leb_spec (length row) i); [done|]. destruct (Nat.leb_spec (length row') j); [lia|].
    intros (v&Ev&Ht)%bind_Ok. assert (ConvertLiteralsFromRow schema' row' j type = Ok v) as ->; [|done].
    rewrite <-Ev. unfold ConvertLiteralsFromRow, IsNullAt, GetBoolean, GetInteger, GetFloating, GetStringView, GetTimestamp, GetDecimal.
    by rewrite Ef, Es.
  - intros f children IH q b H Hp. cbn in H. apply fmap_Some in H as (l&E&->). rewrite all_leaves_compound in Hp. rewrite !Test_compound.
    revert l b E. induction IH as [|c children Hc _ IHl]; intros l b E; [by injection E as <-|].
    apply Forall_cons in Hp as [Hpc Hpl]. destruct (ReconstructPredicateWithPickedFields picked c) as [c'|] eqn:Ec; [|done].
    apply fmap_Some in E as (l'&El&->). cbn [evaluate]. intros (b1&E1&E2)%bind_Ok. rewrite (Hc c' b1 eq_refl Hpc E1). cbn.
    destruct f, b1; try done; by apply (IHl Hpl l').
Qed.

(** Parts of a predicate are implied by it: leaving out the conjuncts that
    mention some fields, or keeping those that mention only picked fields and
    renumbering them, never fails; every row that satisfies the predicate
    satisfies what remains, and nothing that remains mentions an excluded
    field. *)
Theorem predicate_parts_implied schema p :
  (∀ names, ∃ o, ExcludePredicateWithFields p names = Ok o ∧ ∀ q, o = Some q →
     ContainAnyField q names = false ∧ ∀ row, Test schema p row = Ok true → Test schema q row = Ok true) ∧
  (∀ picked, ∃ o, CreatePickedFieldFilter picked p = Ok o ∧ ∀ q, o = Some q → ∀ schema' row row',
     all_leaves (λ _ i name _ _, ∀ j, picked !! name = Some j →
       (j < length row')%nat ∧ field_at row' j = field_at row i ∧ schema' !! j = schema !! i) p →
     Test schema p row = Ok true → Test schema' q row' = Ok true).
Proof.
  split.
  - intros names. unfold ExcludePredicateWithFields. destruct (ExcludeAll_spec (SplitAnd p) names) as [Hsub Hf].
    destruct (ExcludeAll (SplitAnd p) names) as [|x l] eqn:E; [by exists None|].
    assert (∃ q, BuildAnd (x :: l) = Ok q) as [q Hq] by (destruct l; by eexists). rewrite Hq. eexists. split; [done|]. intros ? [= <-].
    split; [by eapply BuildAnd_fields|]. intros row H. apply (BuildAnd_test _ _ _ _ Hq). apply SplitAnd_test in H.
    rewrite Forall_forall in H |- *. intros y Hy. apply H. by eapply elem_of_submseteq.
  - intros picked. unfold CreatePickedFieldFilter.
    destruct (omap (ReconstructPredicateWithPickedFields picked) (SplitAnd p)) as [|x l] eqn:E; [by exists None|].
    assert (∃ q, BuildAnd (x :: l) = Ok q) as [q Hq] by (destruct l; by eexists). rewrite Hq. eexists. split; [done|]. intros ? [= <-].
    intros schema' row row' Hp H. apply (BuildAnd_test _ _ _ _ Hq). apply SplitAnd_test in H. apply SplitAnd_leaves in Hp.
    rewrite Forall_forall in H, Hp |- *. rewrite <-E. intros y (z&Hz&Hr)%list_elem_of_omap. eapply Reconstruct_test; [exact Hr|by apply Hp|by apply H].
Qed.

(** *** Witnesses *)

Definition example_schema : list ArrowType := [INT32; Rows.STRING].
Definition example_table : list InternalRow := [[VInt 1; VString "abc"]; [VInt 7; VString "b"]; [VInt 3; VNull]].
Definition example_predicate : Predicate :=
  Compound Or [Leaf FGreaterThan 0 "n" INT [mkLiteral INT (VInt 8)];
               Compound And [Leaf FIn 0 "n" INT [mkLiteral INT (VInt 1); mkLiteral INT VNull]; Leaf FStartsWith 1 "s" STRING [mkLiteral STRING (VString "ab")]]].

Lemma example_stats_ok i t : (i, t) ∈ [(0%nat, INT); (1%nat, STRING)] →
  stats_ok example_schema example_table 3 [VInt 1; VString "abc"] [VInt 7; VNull] [VLong 0; VNull] i t.
Proof.
  intros Hi. split_and!; [done| |].
  - repeat (apply elem_of_cons in Hi as [[= -> ->]|Hi]); [done|done|by apply elem_of_nil in Hi].
  - intros row v lo hi Hin Ev Nv Elo Ehi Nlo Nhi.
    repeat (apply elem_of_cons in Hi as [[= -> ->]|Hi]); [| |by apply elem_of_nil in Hi];
      repeat (apply elem_of_cons in Hin as [->|Hin]); try (by apply elem_of_nil in Hin);
      vm_compute in Ev, Elo, Ehi; injection Ev as <-; injection Elo as <-; injection Ehi as <-; done.
Qed.

Lemma predicate_pruning_sound_witness :
  TestFile example_schema example_predicate 3 [VInt 1; VString "abc"] [VInt 7; VNull] [VLong 0; VNull] ≠ Ok false ∧
  TestFile example_schema example_predicate 3 [VInt 1; VString "abc"] [VInt 7; VNull] [VLong 0; VNull] = Ok true ∧
  TestFile example_schema example_predicate 3 [VInt 2; VString "abc"] [VInt 7; VNull] [VLong 0; VNull] = Ok false.
Proof.
  split_and!; [|done|done].
  apply (predicate_pruning_sound example_schema example_table 3 [VInt 1; VString "abc"] [VInt 7; VNull] [VLong 0; VNull] example_predicate
    [VInt 1; VString "abc"]); [by repeat constructor| |by left|done].
  assert (Hl : ∀ f type literals, Forall literal_ok literals → (f = FStartsWith → type = STRING) → leaf_ok f type literals) by done.
  cbn. split_and!; try done; try (apply Hl; [|done]; repeat constructor; done); apply example_stats_ok; [by left|by left|right; by left].
Defined.

Lemma predicate_negation_witness : ∃ q,
  Negate (Compound And [Leaf FLessThan 0 "n" INT [mkLiteral INT (VInt 5)]; Leaf FIn 0 "n" INT [mkLiteral INT (VInt 1)]]) = Some q ∧
  Test example_schema q [VInt 3; VNull] = Ok true.
Proof.
  eexists. split; [reflexivity|].
  rewrite (proj2 (proj2 (predicate_negation example_schema
    (Compound And [Leaf FLessThan 0 "n" INT [mkLiteral INT (VInt 5)]; Leaf FIn 0 "n" INT [mkLiteral INT (VInt 1)]]) _ eq_refl))); [done|].
  cbn. split_and!; try done; by repeat constructor.
Defined.
