(* ===== verification/KeyValues.v ===== *)
(** * Row kinds, key values and the merge function interface

    [RowKind] (src/paimon/common/types/row_kind.{h,cpp}), [KeyValue]
    (src/paimon/core/key_value.h) and the interface [MergeFunction] /
    [MergeFunctionWrapper<T>] (src/paimon/core/mergetree/compact) that the
    merging readers drive: [Reset], then [Add] once per record of a key, then
    [GetResult]. *)

From stdpp Require Import base list strings.
From Stdlib Require Import ZArith Lia.
From S2P Require Import Prelude Rows.
Local Open Scope Z_scope.

(** ** RowKind *)

Module RowKind.
Inductive RowKind := Insert | UpdateBefore | UpdateAfter | Delete.

#[export] Instance RowKind_eq_dec : EqDecision RowKind.
Proof. solve_decision. Defined.

Definition ShortString (k : RowKind) : string :=
  match k with Insert => "+I" | UpdateBefore => "-U" | UpdateAfter => "+U" | Delete => "-D" end.
Definition ToByteValue (k : RowKind) : Z :=
  match k with Insert => 0 | UpdateBefore => 1 | UpdateAfter => 2 | Delete => 3 end.

Definition IsRetract (k : RowKind) : bool :=
  match k with UpdateBefore | Delete => true | _ => false end.
Definition IsAdd (k : RowKind) : bool :=
  match k with Insert | UpdateAfter => true | _ => false end.

Definition FromByteValue (value : Z) : Result RowKind :=
  match value with
  | 0 => Ok Insert
  | 1 => Ok UpdateBefore
  | 2 => Ok UpdateAfter
  | 3 => Ok Delete
  | _ => Err Invalid "Unsupported byte value for row kind."
  end.

(** [StringUtils::ToUpperCase], by [std::toupper] in the C locale. *)
Definition toupper (c : Ascii.ascii) : Ascii.ascii :=
  let n := Ascii.N_of_ascii c in
  if ((97 <=? n) && (n <=? 122))%N then Ascii.ascii_of_N (n - 32) else c.
Fixpoint ToUpperCase (s : string) : string :=
  match s with
  | EmptyString => EmptyString
  | String c s' => String (toupper c) (ToUpperCase s')
  end.

Definition FromShortString (value : string) : Result RowKind :=
  let upper_value := ToUpperCase value in
  if decide (upper_value = "+I"%string) then Ok Insert
  else if decide (upper_value = "-U"%string) then Ok UpdateBefore
  else if decide (upper_value = "+U"%string) then Ok UpdateAfter
  else if decide (upper_value = "-D"%string) then Ok Delete
  else Err Invalid "Unsupported short string for row kind.".

Lemma IsAdd_IsRetract k : IsAdd k = negb (IsRetract k).
Proof. by destruct k. Qed.

Lemma FromByteValue_ToByteValue v k : FromByteValue v = Ok k → ToByteValue k = v.
Proof. unfold FromByteValue. repeat case_match; try done; by intros [= <-]. Qed.

(** The byte and the short-string codes of row kinds round trip, in both
    directions: every kind is read back from its code, in any letter case, and
    the only bytes that are accepted are the codes of the kinds. *)
Theorem row_kind_roundtrip k v :
  FromByteValue (ToByteValue k) = Ok k ∧
  (FromByteValue v = Ok k ↔ v = ToByteValue k) ∧
  (is_ok (FromByteValue v) = true ↔ 0 ≤ v ≤ 3) ∧
  FromShortString (ShortString k) = Ok k ∧
  (∀ s, FromShortString s = Ok k ↔ ToUpperCase s = ShortString k).
Proof.
  split_and!.
  - by destruct k.
  - split; [intros H; symmetry; by apply FromByteValue_ToByteValue|intros ->; by destruct k].
  - unfold FromByteValue. repeat case_match; cbn; lia.
  - by destruct k.
  - intros s. unfold FromShortString. repeat case_decide; destruct k; cbn; split; intros Hs; try done; congruence.
Qed.
End RowKind.
Export (hints) RowKind.

(** ** KeyValue *)

Record KeyValue := mkKeyValue {
  value_kind : RowKind.RowKind;
  sequence_number : Z;
  level : Z;
  key : InternalRow;
  value : InternalRow
}.

#[export] Instance KeyValue_eq_dec : EqDecision KeyValue.
Proof. solve_decision. Defined.

Definition UNKNOWN_LEVEL : Z := -1.
Definition UNKNOWN_SEQUENCE : Z := -1.

Definition set_value_kind (k : RowKind.RowKind) (kv : KeyValue) : KeyValue :=
  mkKeyValue k (sequence_number kv) (level kv) (key kv) (value kv).

Definition is_add (kv : KeyValue) : bool := RowKind.IsAdd (value_kind kv).
Definition is_retract (kv : KeyValue) : bool := RowKind.IsRetract (value_kind kv).

Lemma is_add_retract kv : is_add kv = negb (is_retract kv).
Proof. apply RowKind.IsAdd_IsRetract. Qed.

(** ** Merge functions

    The abstract classes [MergeFunction] (with [O = KeyValue]) and
    [MergeFunctionWrapper<O>]: the mutable fields as a state, the methods as
    state transformers. [MState] only holds the fields a method assigns; the
    constructor's parameters are arguments of the instances.

    A moved-from [std::optional] stays engaged, so a method that moves its
    optional out leaves [Some] in the model; no instance reads the record it
    holds before the next assignment or [Reset]. *)
Record MergeFn (O : Type) := mkMergeFn {
  MState : Type;
  MReset : MState → MState;
  MAdd : KeyValue → MState → Result MState;
  MGetResult : MState → Result (option O * MState)
}.
Arguments mkMergeFn {O MState} _ _ _.
Arguments MState {O} _.
Arguments MReset {O} m _.
Arguments MAdd {O} m _ _.
Arguments MGetResult {O} m _.

Section MergeFn.
Context {O : Type} (M : MergeFn O).

(** What a reader does with the records of one key. *)
Definition run_from (kvs : list KeyValue) (s : MState M) : Result (option O * MState M) :=
  s' ← foldR (MAdd M) kvs s; MGetResult M s'.
Definition merge_run (kvs : list KeyValue) (s : MState M) : Result (option O * MState M) :=
  run_from kvs (MReset M s).
End MergeFn.

Definition result_of {O S} (r : Result (option O * S)) : Result (option O) :=
  p ← r; Ok (fst p).

(** The contract of a merge function: after [Reset] the result is a function
    [spec] of the records added since, whatever was merged before. *)
Class Implements {O} (M : MergeFn O) (spec : list KeyValue → Result (option O)) : Prop :=
  merge_run_spec : ∀ kvs s, result_of (merge_run M kvs s) = spec kvs.

Lemma result_of_Ok {O S} (r : Result (option O * S)) o :
  result_of r = Ok o ↔ ∃ s, r = Ok (o, s).
Proof.
  unfold result_of. rewrite bind_Ok. split.
  - intros ([o' s]&->&[= <-]). eauto.
  - intros (s&->). eauto.
Qed.

Lemma foldR_last {A S} (f : A → S → Result S) l x s :
  foldR f (l ++ [x]) s = (s' ← foldR f l s; f x s').
Proof. rewrite foldR_app. destruct (foldR f l s) as [s'|]; cbn; [|done]. by destruct (f x s'). Qed.
