(* ===== verification/Readers.v ===== *)
(** * Record readers

    [KeyValueRecordReader] (src/paimon/core/io/key_value_record_reader.h): a
    sequence of batches, each iterated record by record, every step of which
    may fail; and [ConcatKeyValueRecordReader], which reads the files of a
    sorted run one after another. *)

From stdpp Require Import base list strings.
From Stdlib Require Import ZArith Lia.
From S2P Require Import Prelude KeyValues.

(** What an iterator has still to return, and the batches a reader has still
    to return. [Warmup] and [Close] have no effect on either. *)
Definition RecordIterator := list (Result KeyValue).
Definition RecordReader := list (Result RecordIterator).

Definition HasNext (it : RecordIterator) : bool :=
  match it with [] => false | _ :: _ => true end.
Definition Next (it : RecordIterator) : Result (KeyValue * RecordIterator) :=
  match it with
  | [] => Err UnknownError "no next record"
  | r :: it' => kv ← r; Ok (kv, it')
  end.
(** [None] is the null pointer at the end of the input. *)
Definition NextBatch (r : RecordReader) : Result (option RecordIterator * RecordReader) :=
  match r with
  | [] => Ok (None, [])
  | b :: r' => it ← b; Ok (Some it, r')
  end.

(** A reader that returns the records of [bs], batch by batch, without errors. *)
Definition reader_of (bs : list (list KeyValue)) : RecordReader :=
  map (λ b, Ok (map Ok b)) bs.

(** ** ConcatKeyValueRecordReader *)

Module Concat.
Record t := mk { readers_ : list RecordReader; current_ : nat }.

Definition create (readers : list RecordReader) : t := mk readers 0.

Fixpoint NextBatch_loop (fuel : nat) (c : t) : Result (option RecordIterator * t) :=
  match fuel with
  | O => Err UnknownError "out of fuel"
  | S fuel' =>
      match readers_ c !! current_ c with
      | None => Ok (None, c)
      | Some current_reader =>
          r ← NextBatch current_reader;
          let '(iterator, current_reader) := r in
          let c := mk (<[current_ c := current_reader]> (readers_ c)) (current_ c) in
          match iterator with
          | Some it => Ok (Some it, c)
          | None => NextBatch_loop fuel' (mk (readers_ c) (S (current_ c)))
          end
      end
  end.
Definition NextBatch (c : t) : Result (option RecordIterator * t) :=
  NextBatch_loop (S (length (readers_ c))) c.

(** The batches of the readers that are not exhausted, in order. *)
Definition abs (c : t) : RecordReader := concat (drop (current_ c) (readers_ c)).

Lemma drop_insert_cons {A} (l : list A) i x y :
  l !! i = Some x → drop i (<[i:=y]> l) = y :: drop (S i) l.
Proof.
  intros Hi. pose proof (lookup_lt_Some _ _ _ Hi).
  rewrite (drop_S (<[i:=y]> l) y) by (apply list_lookup_insert_eq; lia).
  by rewrite drop_insert_lt by lia.
Qed.

Lemma NextBatch_loop_spec fuel c :
  (length (readers_ c) - current_ c < fuel)%nat →
  match Readers.NextBatch (abs c) with
  | Err e m => NextBatch_loop fuel c = Err e m
  | Ok (it, r') => ∃ c', NextBatch_loop fuel c = Ok (it, c') ∧ abs c' = r'
  end.
Proof.
  revert c. induction fuel as [|fuel IH]; intros [rs i] Hf; [lia|].
  cbn [readers_ current_] in Hf. unfold abs. cbn [NextBatch_loop readers_ current_].
  destruct (rs !! i) as [r|] eqn:Hi.
  2: { apply lookup_ge_None in Hi. rewrite drop_ge by lia. cbn. eexists. split; [done|].
       unfold abs. cbn. by rewrite drop_ge by lia. }
  pose proof (lookup_lt_Some _ _ _ Hi).
  rewrite (drop_S _ _ _ Hi). destruct r as [|[b|e m] r'].
  - cbn. specialize (IH (mk (<[i:=[]]> rs) (S i))). cbn [readers_ current_] in IH.
    unfold abs in IH. cbn [readers_ current_] in IH. rewrite drop_insert_lt in IH by lia.
    apply IH. rewrite length_insert. lia.
  - cbn. eexists. split; [done|]. unfold abs. cbn [readers_ current_].
    by rewrite (drop_insert_cons _ _ _ _ Hi).
  - done.
Qed.

(** A concatenation of readers is the reader of the concatenated batches. *)
Lemma NextBatch_refines c :
  match Readers.NextBatch (abs c) with
  | Err e m => NextBatch c = Err e m
  | Ok (it, r') => ∃ c', NextBatch c = Ok (it, c') ∧ abs c' = r'
  end.
Proof. apply NextBatch_loop_spec. lia. Qed.
End Concat.
