(* ===== verification/LoserTree.v ===== *)
(** * The loser tree

    [LoserTree] (src/paimon/core/mergetree/compact/loser_tree.{h,cpp}), the
    tournament tree that merges sorted runs and tells the end of a key from
    the end of the input. The states, the shortcut through
    [first_same_key_index] and the early exits are modelled as written; the
    asserts of the source are error results here and shown unreachable in
    LoserTreeProofs.v. A comparator may fail, too: one of them has an assert. *)

From stdpp Require Import base list strings.
From Stdlib Require Import ZArith Lia.
From S2P Require Import Prelude KeyValues Readers.
Local Open Scope Z_scope.

Inductive State :=
| LOSER_WITH_NEW_KEY | LOSER_WITH_SAME_KEY | LOSER_POPPED
| WINNER_WITH_NEW_KEY | WINNER_WITH_SAME_KEY | WINNER_POPPED.

#[export] Instance State_eq_dec : EqDecision State.
Proof. solve_decision. Defined.

Definition IsWinner (s : State) : bool :=
  match s with
  | LOSER_WITH_NEW_KEY | LOSER_WITH_SAME_KEY | LOSER_POPPED => false
  | _ => true
  end.

(** The [std::optional<KeyValue>] of a leaf: after [std::move] it is engaged
    with a key-value whose row pointers are null, which must not be compared. *)
Inductive Slot := Nullopt | Engaged (kv : KeyValue) | MovedFrom.

Definition deref (s : Slot) : Result (option KeyValue) :=
  match s with
  | Nullopt => Ok None
  | Engaged kv => Ok (Some kv)
  | MovedFrom => Err UnknownError "a moved-from key-value is read"
  end.

(** ** LeafIterator *)

(** An index of -1 is [None]. *)
Record LeafIterator := mkLeaf {
  end_of_input : bool;
  first_same_key_index : option nat;
  state : State;
  reader : RecordReader;
  iterator : option RecordIterator;
  kv : Slot
}.

Definition new_leaf (r : RecordReader) : LeafIterator :=
  mkLeaf false None WINNER_WITH_NEW_KEY r None Nullopt.

Definition set_state (s : State) (lf : LeafIterator) : LeafIterator :=
  mkLeaf (end_of_input lf) (first_same_key_index lf) s (reader lf) (iterator lf) (kv lf).
Definition set_first (i : option nat) (lf : LeafIterator) : LeafIterator :=
  mkLeaf (end_of_input lf) i (state lf) (reader lf) (iterator lf) (kv lf).

(** The leaf after [Pop]; the value is read before. *)
Definition Pop (lf : LeafIterator) : LeafIterator :=
  mkLeaf (end_of_input lf) (first_same_key_index lf) WINNER_POPPED (reader lf) (iterator lf)
    (match kv lf with Nullopt => Nullopt | _ => MovedFrom end).

Definition SetFirstSameKeyIndex (index : nat) (lf : LeafIterator) : LeafIterator :=
  match first_same_key_index lf with
  | None => set_first (Some index) lf
  | Some _ => lf
  end.

(** The loop [while (!end_of_input)] of [AdvanceIfAvailable]: every round
    consumes a batch, so the reader bounds the recursion. *)
Fixpoint Advance_loop (r : RecordReader) (st : State) : Result LeafIterator :=
  match r with
  | [] => Ok (mkLeaf true None st [] None Nullopt)
  | b :: r' =>
      it ← b;
      if HasNext it
      then n ← Next it; Ok (mkLeaf false None st r' (Some (snd n)) (Engaged (fst n)))
      else Advance_loop r' st
  end.

Definition AdvanceIfAvailable (lf : LeafIterator) : Result LeafIterator :=
  let st := WINNER_WITH_NEW_KEY in
  match iterator lf with
  | Some ((_ :: _) as it) =>
      n ← Next it; Ok (mkLeaf (end_of_input lf) None st (reader lf) (Some (snd n)) (Engaged (fst n)))
  | _ =>
      if end_of_input lf then Ok (mkLeaf true None st (reader lf) (iterator lf) (kv lf))
      else Advance_loop (reader lf) st
  end.

(** ** LoserTree *)

Record LoserTree := mkTree {
  size_ : nat;
  initialized_ : bool;
  tree_ : list (option nat);
  leaves_ : list LeafIterator
}.

Definition CompareFunc := option KeyValue → option KeyValue → Result Z.

Definition create (readers : list RecordReader) : LoserTree :=
  mkTree (length readers) false (replicate (length readers) (Some 0%nat)) (new_leaf <$> readers).

(** [leaves_[i]] and [tree_[p]]; an index out of bounds is an error. *)
Definition leaf_at (i : nat) (t : LoserTree) : Result LeafIterator :=
  match leaves_ t !! i with
  | Some lf => Ok lf
  | None => Err UnknownError "leaf index out of bounds"
  end.
Definition tree_at (p : nat) (t : LoserTree) : Result (option nat) :=
  match tree_ t !! p with
  | Some w => Ok w
  | None => Err UnknownError "tree index out of bounds"
  end.
Definition on_leaf (i : nat) (f : LeafIterator → LeafIterator) (t : LoserTree) : LoserTree :=
  mkTree (size_ t) (initialized_ t) (tree_ t) (alter f i (leaves_ t)).
Definition set_tree (p : nat) (w : option nat) (t : LoserTree) : LoserTree :=
  mkTree (size_ t) (initialized_ t) (<[p := w]> (tree_ t)) (leaves_ t).
(** [leaves_[tree_[0]]] *)
Definition winner_at (t : LoserTree) : Result (nat * LeafIterator) :=
  w ← tree_at 0 t;
  match w with
  | Some i => lf ← leaf_at i t; Ok (i, lf)
  | None => Err UnknownError "leaf index out of bounds"
  end.

Section Adjust.
Context (first_comparator_ second_comparator_ : CompareFunc).

Definition AdjustWithSameWinnerKey (index parent_node winner_node : nat) (t : LoserTree)
    : Result LoserTree :=
  p ← leaf_at parent_node t;
  w ← leaf_at winner_node t;
  match state p with
  | LOSER_WITH_SAME_KEY =>
      parent_key ← deref (kv p);
      child_key ← deref (kv w);
      second_result ← second_comparator_ parent_key child_key;
      if 0 <? second_result then
        Ok (on_leaf parent_node (λ l, SetFirstSameKeyIndex index (set_state WINNER_WITH_SAME_KEY l))
             (on_leaf winner_node (set_state LOSER_WITH_SAME_KEY) t))
      else Ok (on_leaf winner_node (SetFirstSameKeyIndex index) t)
  | LOSER_WITH_NEW_KEY | LOSER_POPPED => Ok t
  | _ => Err UnknownError "assert"
  end.

Definition AdjustWithNewWinnerKey (index parent_node winner_node : nat) (t : LoserTree)
    : Result LoserTree :=
  p ← leaf_at parent_node t;
  w ← leaf_at winner_node t;
  match state p with
  | LOSER_WITH_NEW_KEY =>
      parent_key ← deref (kv p);
      child_key ← deref (kv w);
      first_result ← first_comparator_ parent_key child_key;
      if first_result =? 0 then
        second_result ← second_comparator_ parent_key child_key;
        if second_result <? 0 then
          Ok (on_leaf winner_node (SetFirstSameKeyIndex index)
               (on_leaf parent_node (set_state LOSER_WITH_SAME_KEY) t))
        else
          Ok (on_leaf parent_node (λ l, SetFirstSameKeyIndex index (set_state WINNER_WITH_NEW_KEY l))
               (on_leaf winner_node (set_state LOSER_WITH_SAME_KEY) t))
      else if 0 <? first_result then
        Ok (on_leaf winner_node (set_state LOSER_WITH_NEW_KEY)
             (on_leaf parent_node (set_state WINNER_WITH_NEW_KEY) t))
      else Ok t
  | LOSER_POPPED =>
      Ok (on_leaf winner_node (set_state LOSER_WITH_NEW_KEY)
           (on_leaf parent_node (λ l, set_first None (set_state WINNER_POPPED l)) t))
  | _ => Err UnknownError "assert"
  end.

(** One round of the loop of [Adjust] up to the exchange: the index at which
    the nodes are exchanged and the tree. An index of -1 ends the loop just as
    an index of 0 does. *)
Definition adjust_node (parent winner : nat) (t : LoserTree) : Result (nat * LoserTree) :=
  tp ← tree_at parent t;
  match tp with
  | None => Ok (parent, on_leaf winner (set_state LOSER_WITH_NEW_KEY) t)
  | Some parent_node =>
      winner_node ← leaf_at winner t;
      match state winner_node with
      | WINNER_WITH_NEW_KEY => t ← AdjustWithNewWinnerKey parent parent_node winner t; Ok (parent, t)
      | WINNER_WITH_SAME_KEY => t ← AdjustWithSameWinnerKey parent parent_node winner t; Ok (parent, t)
      | WINNER_POPPED =>
          match first_same_key_index winner_node with
          | None => Ok (0%nat, t)
          | Some parent =>
              tp ← tree_at parent t;
              match tp with
              | None => Err UnknownError "leaf index out of bounds"
              | Some parent_node =>
                  Ok (parent, on_leaf parent_node (set_state WINNER_WITH_SAME_KEY)
                                (on_leaf winner (set_state LOSER_POPPED) t))
              end
          end
      | _ => Err UnknownError "assert"
      end
  end.

(** [parent] at least halves in every round. *)
Fixpoint Adjust_loop (fuel : nat) (parent : nat) (winner : option nat) (t : LoserTree)
    : Result LoserTree :=
  match fuel with
  | O => Err UnknownError "out of fuel"
  | S fuel' =>
      match parent, winner with
      | S _, Some w =>
          r ← adjust_node parent w t;
          let '(parent, t) := r in
          winner_node ← leaf_at w t;
          if IsWinner (state winner_node) then Adjust_loop fuel' (parent / 2)%nat winner t
          else tp ← tree_at parent t;
               Adjust_loop fuel' (parent / 2)%nat tp (set_tree parent winner t)
      | _, _ => Ok (set_tree 0 winner t)
      end
  end.
Definition Adjust (winner : nat) (t : LoserTree) : Result LoserTree :=
  Adjust_loop (S (size_ t)) ((winner + size_ t) / 2)%nat (Some winner) t.

Definition advance_leaf (i : nat) (t : LoserTree) : Result LoserTree :=
  lf ← leaf_at i t;
  lf ← AdvanceIfAvailable lf;
  Ok (on_leaf i (λ _, lf) t).

(** The loop of [InitializeIfNeeded] from leaf [i - 1] down to leaf 0. *)
Fixpoint Initialize_loop (i : nat) (t : LoserTree) : Result LoserTree :=
  match i with
  | O => Ok t
  | S i' => t ← advance_leaf i' t; t ← Adjust i' t; Initialize_loop i' t
  end.
Definition InitializeIfNeeded (t : LoserTree) : Result LoserTree :=
  if initialized_ t then Ok t
  else
    let t := mkTree (size_ t) false (replicate (length (tree_ t)) None) (leaves_ t) in
    t ← Initialize_loop (size_ t) t;
    Ok (mkTree (size_ t) true (tree_ t) (leaves_ t)).

(** Every round advances one of the popped leaves. *)
Fixpoint AdjustForNextLoop_loop (fuel : nat) (t : LoserTree) : Result LoserTree :=
  match fuel with
  | O => Err UnknownError "out of fuel"
  | S fuel' =>
      w ← winner_at t;
      if decide (state (snd w) = WINNER_POPPED) then
        t ← advance_leaf (fst w) t;
        t ← Adjust (fst w) t;
        AdjustForNextLoop_loop fuel' t
      else Ok t
  end.
Definition AdjustForNextLoop (t : LoserTree) : Result LoserTree :=
  AdjustForNextLoop_loop (S (size_ t)) t.

Definition PopWinner (t : LoserTree) : Result (option KeyValue * LoserTree) :=
  w ← winner_at t;
  if decide (state (snd w) = WINNER_POPPED) then Ok (None, t)
  else
    result ← deref (kv (snd w));
    t ← Adjust (fst w) (on_leaf (fst w) Pop t);
    Ok (result, t).

Definition PeekWinner (t : LoserTree) : Result (option KeyValue) :=
  w ← winner_at t;
  if decide (state (snd w) = WINNER_POPPED) then Ok None else deref (kv (snd w)).
End Adjust.
