(* ===== verification/LoserTreeProofs.v ===== *)
(** * Correctness of the loser tree

    The invariant of [LoserTree] and its preservation by every operation.

    Node [p] of the implicit tree (1 <= p < n) has the children [2p] and
    [2p + 1], leaf [i] is node [n + i]. The proof keeps two ghosts: [win x], the
    leaf that wins the subtree of node [x], and [rk i], the rank of leaf [i],
    which is its record together with whether it has been popped. A popped leaf
    ranks behind the other records of its key and before all greater keys, so
    that the same order explains the tree while a key is being drained and
    while it is being refilled. *)

From stdpp Require Import base list strings sorting.
From Stdlib Require Import ZArith Lia ZifyNat.
From S2P Require Import Prelude KeyValues Readers LoserTree.

Ltac Zify.zify_post_hook ::= Z.to_euclidean_division_equations.

(** ** Paths of the implicit tree *)

Inductive above (p : nat) : nat → Prop :=
| above_parent c : p = c / 2 → above p c
| above_up c : above p (c / 2) → above p c.

Definition on_path (x y : nat) : Prop := x = y ∨ above x y.

Lemma above_inv p c : above p c ↔ p = c / 2 ∨ above p (c / 2).
Proof. split; [destruct 1; auto|intros [?|?]; [by apply above_parent|by apply above_up]]. Qed.

Lemma above_on_path p c : above p c ↔ on_path p (c / 2).
Proof. apply above_inv. Qed.

Lemma above_lt p c : 1 ≤ p → above p c → p < c.
Proof. induction 2; lia. Qed.

Lemma above_half p q c : above p q → q = c / 2 → above p c.
Proof. intros ? ->. by apply above_up. Qed.

Lemma on_path_trans x y z : on_path x y → on_path y z → on_path x z.
Proof.
  intros Hxy [<-|Hyz]; [done|]. right. induction Hyz as [c ->|c _ IH].
  - by apply above_on_path.
  - by apply above_up.
Qed.

Lemma on_path_le x y : 1 ≤ x → on_path x y → x ≤ y.
Proof. intros Hx [->|H]; [done|]. apply above_lt in H; lia. Qed.

Lemma above_child p y : 1 ≤ p → above p y → on_path (2 * p) y ∨ on_path (2 * p + 1) y.
Proof.
  intros Hp. induction 1 as [c ->|c _ [IH|IH]].
  - destruct (decide (c = 2 * (c / 2))); [left|right]; left; lia.
  - left. right. by apply above_on_path.
  - right. right. by apply above_on_path.
Qed.

Lemma child_above p d y : d / 2 = p → on_path d y → above p y.
Proof.
  intros <- [->|H]; [by apply above_parent|].
  induction H as [c ->|c _ IH]; apply above_up; [by apply above_parent|done].
Qed.

(** The nodes on the path of one leaf are nested. *)
Lemma path_chain x z y : 1 ≤ x → 1 ≤ z → on_path x y → on_path z y → on_path x z ∨ on_path z x.
Proof.
  intros Hx Hz. revert x z Hx Hz. induction (lt_wf y) as [y _ IH]. intros x z Hx Hz [->|Hxy] Hzy; [by right|].
  destruct Hzy as [->|Hzy]; [left; by right|].
  pose proof (above_lt _ _ Hx Hxy). apply above_on_path in Hxy, Hzy.
  apply (IH (y / 2)); [lia|done..].
Qed.

Lemma siblings_disjoint p d d' y :
  1 ≤ p → d / 2 = p → d' / 2 = p → d ≠ d' → on_path d y → on_path d' y → False.
Proof.
  intros Hp Hd Hd' Hne H1 H2.
  destruct (path_chain d d' y) as [[?|H]|[?|H]]; try done; try lia;
    apply above_on_path, on_path_le in H; lia.
Qed.

Lemma above_root y : 2 ≤ y → above 1 y.
Proof.
  induction (lt_wf y) as [y _ IH]. intros Hy. destruct (decide (y / 2 = 1)).
  - by apply above_parent.
  - apply above_up, IH; lia.
Qed.

Lemma on_path_dec x y : 1 ≤ x → on_path x y ∨ ¬ on_path x y.
Proof.
  intros Hx. induction (lt_wf y) as [y _ IH]. destruct (decide (x = y)) as [->|]; [by left; left|].
  destruct (decide (x < y)).
  - destruct (IH (y / 2)) as [H|H]; [lia|left; right; by apply above_on_path|].
    right. intros [?|?%above_on_path]; done.
  - right. intros H%on_path_le; lia.
Qed.

(** ** Views of a tree *)

Definition st (t : LoserTree) (i : nat) : State := from_option state LOSER_POPPED (leaves_ t !! i).
Definition fs (t : LoserTree) (i : nat) : option nat := from_option first_same_key_index None (leaves_ t !! i).
Definition sl (t : LoserTree) (i : nat) : Slot := from_option kv Nullopt (leaves_ t !! i).
Definition tr (t : LoserTree) (p : nat) : option nat := default None (tree_ t !! p).

(** What the tree operations leave alone in a leaf. *)
Definition data (lf : LeafIterator) : bool * RecordReader * option RecordIterator * Slot :=
  (end_of_input lf, reader lf, iterator lf, kv lf).
Definition same_data (t t' : LoserTree) : Prop := data <$> leaves_ t = data <$> leaves_ t'.

Definition shaped (n : nat) (t : LoserTree) : Prop :=
  length (tree_ t) = n ∧ length (leaves_ t) = n ∧ size_ t = n.

Section Views.
Context (n : nat).
Implicit Types t : LoserTree.

Lemma shaped_on_leaf i f t : shaped n t → shaped n (on_leaf i f t).
Proof. unfold shaped. intros (?&?&?). cbn. by rewrite length_alter. Qed.
Lemma shaped_set_tree p w t : shaped n t → shaped n (set_tree p w t).
Proof. unfold shaped. intros (?&?&?). cbn. by rewrite length_insert. Qed.

Lemma leaf_at_ok i t : shaped n t → i < n →
  ∃ lf, leaf_at i t = Ok lf ∧ leaves_ t !! i = Some lf ∧
        state lf = st t i ∧ first_same_key_index lf = fs t i ∧ kv lf = sl t i.
Proof.
  intros (_&Hl&_) Hi. destruct (lookup_lt_is_Some_2 (leaves_ t) i) as [lf Hlf]; [lia|].
  exists lf. unfold leaf_at, st, fs, sl. by rewrite Hlf.
Qed.
Lemma tree_at_ok p t : shaped n t → p < n → tree_at p t = Ok (tr t p).
Proof.
  intros (Hl&_&_) Hp. destruct (lookup_lt_is_Some_2 (tree_ t) p) as [w Hw]; [lia|].
  unfold tree_at, tr. by rewrite Hw.
Qed.

Lemma leaves_on_leaf i f t j :
  leaves_ (on_leaf i f t) !! j = if decide (j = i) then f <$> leaves_ t !! i else leaves_ t !! j.
Proof.
  cbn. destruct (decide (j = i)) as [->|]; [by rewrite list_lookup_alter, decide_True by done|].
  by rewrite list_lookup_alter_ne by done.
Qed.

Lemma st_set_state i s t j : shaped n t → i < n →
  st (on_leaf i (set_state s) t) j = if decide (j = i) then s else st t j.
Proof.
  intros Ht Hi. unfold st. rewrite leaves_on_leaf. case_decide; [|done].
  by destruct (leaf_at_ok i t Ht Hi) as (lf&_&->&_).
Qed.
Lemma fs_set_state i s t j : fs (on_leaf i (set_state s) t) j = fs t j.
Proof. unfold fs. rewrite leaves_on_leaf. case_decide; [subst|done]. by destruct (leaves_ t !! i). Qed.

Definition or_else (o : option nat) (p : nat) : option nat :=
  match o with Some q => Some q | None => Some p end.

Lemma st_set_index i p t j : st (on_leaf i (SetFirstSameKeyIndex p) t) j = st t j.
Proof.
  unfold st. rewrite leaves_on_leaf. case_decide; [subst|done]. destruct (leaves_ t !! i) as [lf|]; [|done].
  cbn. unfold SetFirstSameKeyIndex. by destruct (first_same_key_index lf).
Qed.
Lemma fs_set_index i p t j : shaped n t → i < n →
  fs (on_leaf i (SetFirstSameKeyIndex p) t) j = if decide (j = i) then or_else (fs t i) p else fs t j.
Proof.
  intros Ht Hi. unfold fs. rewrite leaves_on_leaf. case_decide; [|done].
  destruct (leaf_at_ok i t Ht Hi) as (lf&_&->&_). cbn. unfold SetFirstSameKeyIndex.
  destruct (first_same_key_index lf) eqn:E; cbn; by rewrite ?E.
Qed.
Lemma st_set_first i p t j : st (on_leaf i (set_first p) t) j = st t j.
Proof. unfold st. rewrite leaves_on_leaf. case_decide; [subst|done]. by destruct (leaves_ t !! i). Qed.
Lemma fs_set_first i p t j : shaped n t → i < n →
  fs (on_leaf i (set_first p) t) j = if decide (j = i) then p else fs t j.
Proof.
  intros Ht Hi. unfold fs. rewrite leaves_on_leaf. case_decide; [|done].
  by destruct (leaf_at_ok i t Ht Hi) as (lf&_&->&_).
Qed.

Lemma on_leaf_compose i f g t : on_leaf i (λ l, f (g l)) t = on_leaf i f (on_leaf i g t).
Proof.
  unfold on_leaf. cbn. f_equal. apply list_eq. intros j. destruct (decide (i = j)) as [->|].
  - rewrite !list_lookup_alter, !decide_True by done. by destruct (leaves_ t !! j).
  - by rewrite !list_lookup_alter_ne by done.
Qed.

Lemma same_data_on_leaf i f t : (∀ lf, data (f lf) = data lf) → same_data t (on_leaf i f t).
Proof.
  intros Hf. apply list_eq. intros j. rewrite !list_lookup_fmap, leaves_on_leaf.
  case_decide; [subst|done]. destruct (leaves_ t !! i); cbn; by rewrite ?Hf.
Qed.
Lemma same_data_set_state i s t : same_data t (on_leaf i (set_state s) t).
Proof. by apply same_data_on_leaf. Qed.
Lemma same_data_set_first i p t : same_data t (on_leaf i (set_first p) t).
Proof. by apply same_data_on_leaf. Qed.
Lemma same_data_set_index i p t : same_data t (on_leaf i (SetFirstSameKeyIndex p) t).
Proof. apply same_data_on_leaf. intros lf. unfold SetFirstSameKeyIndex. by destruct (first_same_key_index lf). Qed.
Lemma same_data_set_tree p w t : same_data t (set_tree p w t).
Proof. done. Qed.
#[global] Instance same_data_equiv : Equivalence same_data.
Proof. split; repeat intro; unfold same_data in *; congruence. Qed.

Lemma same_data_sl t t' i : same_data t t' → sl t' i = sl t i.
Proof.
  intros E. assert (Ei : data <$> leaves_ t !! i = data <$> leaves_ t' !! i) by (rewrite <-!list_lookup_fmap; by f_equal).
  unfold sl. destruct (leaves_ t !! i) as [a|], (leaves_ t' !! i) as [b|]; try done.
  injection Ei. unfold data. cbn. congruence.
Qed.

Lemma tr_on_leaf i f t p : tr (on_leaf i f t) p = tr t p.
Proof. done. Qed.
Lemma tr_set_tree p w t q : shaped n t → p < n →
  tr (set_tree p w t) q = if decide (q = p) then w else tr t q.
Proof.
  intros (Hl&_&_) Hp. unfold tr. cbn. case_decide; [subst|by rewrite list_lookup_insert_ne by done].
  by rewrite list_lookup_insert_eq by lia.
Qed.
Lemma st_set_tree p w t j : st (set_tree p w t) j = st t j.
Proof. done. Qed.
Lemma fs_set_tree p w t j : fs (set_tree p w t) j = fs t j.
Proof. done. Qed.
End Views.

Create HintDb shape.
#[local] Hint Resolve shaped_on_leaf shaped_set_tree : shape.
#[local] Hint Resolve same_data_set_state same_data_set_first same_data_set_index same_data_set_tree : shape.

(** Rewrites the views of an updated tree to views of the tree itself. *)
Ltac views n :=
  repeat first
    [ rewrite (st_set_state n) by (eauto 6 with shape || lia)
    | rewrite (fs_set_index n) by (eauto 6 with shape || lia)
    | rewrite (fs_set_first n) by (eauto 6 with shape || lia)
    | rewrite (tr_set_tree n) by (eauto 6 with shape || lia)
    | rewrite st_set_index | rewrite st_set_first | rewrite fs_set_state
    | rewrite st_set_tree | rewrite fs_set_tree | rewrite tr_on_leaf ].

Ltac solve_same_data :=
  lazymatch goal with
  | |- same_data ?t ?t => reflexivity
  | |- same_data _ (on_leaf _ _ ?u) => transitivity u; [solve_same_data|eauto with shape]
  | |- same_data _ (set_tree _ _ ?u) => transitivity u; [solve_same_data|eauto with shape]
  end.

(** ** Ranks *)

(** [None]: the run is exhausted; the flag says that the record was popped. *)
Definition Rank : Type := option (KeyValue * bool).
Definition is_popped (r : Rank) : bool := match r with Some (_, b) => b | None => false end.

Section Invariant.
Context {KC : Comparator KeyValue} {KL : ComparatorLaws KeyValue}.
Context (scmp : KeyValue → KeyValue → Z) {SL : @ComparatorLaws KeyValue scmp}.
Context (first second : CompareFunc) (n : nat).

(** [owned i k]: the record is one of run [i]. *)
Context (owned : nat → KeyValue → Prop).

(** What the tree relies on: exhausted runs lose, and the comparators are the
    reversed key and sequence orders; a tie of the second one goes to the
    parent. The second comparator has a value for two records of one key that
    are from different runs; of others it is not asked. *)
Context (first_none : ∀ b, ∃ z, first None b = Ok z ∧ (z < 0)%Z)
        (first_some_none : ∀ a, ∃ z, first (Some a) None = Ok z ∧ (0 < z)%Z)
        (first_some : ∀ a b, first (Some a) (Some b) = Ok (CompareTo b a))
        (second_some : ∀ i j a b, i ≠ j → owned i a → owned j b → keq a b →
           ∃ z, second (Some a) (Some b) = Ok z ∧ ((z < 0)%Z → (scmp b a < 0)%Z) ∧
                (¬ (z < 0)%Z → (0 < z)%Z ∧ (scmp a b ≤ 0)%Z)).


Definition rank_le (a b : Rank) : Prop :=
  match a, b with
  | _, None => True
  | None, Some _ => False
  | Some (ka, pa), Some (kb, pb) =>
      klt ka kb ∨ keq ka kb ∧ (pb = true ∨ pa = false ∧ @kle KeyValue scmp ka kb)
  end.

(** Both unpopped, with the same key. *)
Definition tie (a b : Rank) : bool :=
  match a, b with
  | Some (ka, false), Some (kb, false) => (CompareTo ka kb =? 0)%Z
  | _, _ => false
  end.

(** The state of a loser is a function of the two ranks. *)
Definition loser_state (w l : Rank) : State :=
  if is_popped l then LOSER_POPPED else if tie w l then LOSER_WITH_SAME_KEY else LOSER_WITH_NEW_KEY.

Lemma rank_le_refl a : rank_le a a.
Proof.
  destruct a as [[k []]|]; cbn; [right|right|done]; (split; [by apply cmp_refl|]); [by left|right].
  split; [done|apply (@kle_refl _ scmp SL)].
Qed.
Lemma rank_le_trans a b c : rank_le a b → rank_le b c → rank_le a c.
Proof.
  destruct a as [[ka pa]|], b as [[kb pb]|], c as [[kc pc]|]; cbn; try done.
  intros [H1|[H1 H1']] [H2|[H2 H2']].
  - left. korder.
  - left. korder.
  - left. korder.
  - right. split; [korder|]. destruct H2' as [->|[-> H2']]; [by left|].
    destruct H1' as [?|[-> H1']]; [done|]. right. split; [done|]. by eapply (@kle_trans _ scmp SL).
Qed.

Definition owned_rank (i : nat) (r : Rank) : Prop := match r with Some (k, _) => owned i k | None => True end.

(** What the comparators say of two unpopped ranks. *)
Lemma compare_ranks i j a b : i ≠ j → owned_rank i a → owned_rank j b →
  is_popped a = false → is_popped b = false →
  ∃ f, first (fst <$> a) (fst <$> b) = Ok f ∧
    (f = 0%Z → tie a b = true ∧ tie b a = true ∧
       ∃ s, second (fst <$> a) (fst <$> b) = Ok s ∧
         ((s < 0)%Z → rank_le b a) ∧ (¬ (s < 0)%Z → (0 < s)%Z ∧ rank_le a b)) ∧
    ((0 < f)%Z → rank_le a b ∧ tie a b = false) ∧
    ((f < 0)%Z → rank_le b a ∧ tie b a = false).
Proof.
  intros Hij. destruct a as [[ka []]|], b as [[kb []]|]; cbn; try done; intros Ha Hb _ _.
  - eexists. split; [apply first_some|]. split_and!; [intros E|intros E; split..].
    + assert (keq ka kb) as E' by (unfold keq; korder). split_and!; [by apply Z.eqb_eq|by apply Z.eqb_eq|].
      destruct (second_some i j ka kb) as (s&Es&Hneg&Hpos); [done..|]. exists s. split_and!; [done|..].
      * intros Hlt%Hneg. right. split; [done|]. right. split; [done|]. unfold kle, CompareTo. lia.
      * intros [? Hle]%Hpos. split; [done|]. right. auto.
    + left. korder.
    + apply Z.eqb_neq. intros E'. assert (klt ka kb) by korder. unfold klt in *. lia.
    + left. done.
    + apply Z.eqb_neq. lia.
  - destruct (first_some_none ka) as (z&Ez&?). exists z. split_and!; [done|lia|done|lia].
  - destruct (first_none (Some kb)) as (z&Ez&?). exists z. split_and!; [done|lia|lia|done].
  - destruct (first_none None) as (z&Ez&?). exists z. split_and!; [done|lia|lia|done].
Qed.

Lemma tie_zero a b : tie b a = true → first (fst <$> a) (fst <$> b) = Ok 0%Z.
Proof.
  destruct a as [[ka []]|], b as [[kb []]|]; cbn; try done. rewrite first_some. by intros ->%Z.eqb_eq.
Qed.

(** ** The invariant *)

Section State.
Context (rk : nat → Rank) (t : LoserTree) (win : nat → nat) (live : nat → Prop).

(** The slots hold what the ranks say, records of their runs. *)
Definition slots : Prop := ∀ i, i < n →
  sl t i = match rk i with None => Nullopt | Some (k, false) => Engaged k | Some (_, true) => MovedFrom end ∧
  owned_rank i (rk i).

(** A decided match at [p]: of the winners of its children one goes up, the
    other stays as the loser. *)
Definition Match (p : nat) : Prop := ∃ l,
  tr t p = Some l ∧
  ((win p = win (2 * p) ∧ l = win (2 * p + 1)) ∨ (win p = win (2 * p + 1) ∧ l = win (2 * p))) ∧
  rank_le (rk (win p)) (rk l) ∧ st t l = loser_state (rk (win p)) (rk l).

(** While the tree is built a match may still wait for one or both players. *)
Definition waiting (p d : nat) : Prop := tr t p = Some (win d) ∧ st t (win d) = LOSER_WITH_NEW_KEY.
Definition Node (p : nat) : Prop :=
  (live (2 * p) → live (2 * p + 1) → Match p) ∧
  (live (2 * p) → ¬ live (2 * p + 1) → waiting p (2 * p)) ∧
  (¬ live (2 * p) → live (2 * p + 1) → waiting p (2 * p + 1)) ∧
  (¬ live (2 * p) → ¬ live (2 * p + 1) → tr t p = None).

Definition same_at (p : nat) : Prop := ∃ l, tr t p = Some l ∧ tie (rk (win p)) (rk l) = true.

(** [first_same_key_index] of leaf [j] is the lowest decided match that [j] won
    against a record of its own key. *)
Definition FirstOK (settled : nat → Prop) (j : nat) : Prop :=
  match fs t j with
  | Some q => 1 ≤ q < n ∧ settled q ∧ live q ∧ win q = j ∧ same_at q ∧
              ∀ p, q < p < n → settled p → live p → win p = j → ¬ same_at p
  | None => ∀ p, 1 ≤ p < n → settled p → live p → win p = j → ¬ same_at p
  end.

(** Leaf [i], the winner of node [c], is on its way up: the matches above [c]
    are not decided, their losers wait with the states [stf]. *)
Record Rising (stf : Rank → State) (c i : nat) : Prop := {
  ri_shaped : shaped n t;
  ri_slots : slots;
  ri_live : ∀ p, 1 ≤ p < n → (live p ↔ live (2 * p) ∧ live (2 * p + 1));
  ri_live_dec : ∀ x, 1 ≤ x → live x ∨ ¬ live x;
  ri_leaf : ∀ j, j < n → win (n + j) = j;
  ri_c : 1 ≤ c < 2 * n;
  ri_win : win c = i;
  ri_live_c : live c;
  ri_lt : ∀ x, 1 ≤ x < 2 * n → ¬ above x c → live x → win x < n;
  ri_path : ∀ x, 1 ≤ x < 2 * n → ¬ above x c → live x → on_path x (n + win x);
  ri_uniq : ∀ p q l, 1 ≤ p < n → 1 ≤ q < n → tr t p = Some l → tr t q = Some l → p = q;
  ri_fresh : ∀ p, 1 ≤ p < n → tr t p ≠ Some i;
  ri_node : ∀ p, 1 ≤ p < n → ¬ above p c → Node p;
  ri_anc : ∀ p d, 1 ≤ p < n → above p c → d / 2 = p → ¬ on_path d c →
           (live d → tr t p = Some (win d) ∧ st t (win d) = stf (rk (win d))) ∧
           (¬ live d → tr t p = None);
  ri_first : ∀ j, j < n → live (n + j) → is_popped (rk j) = false →
             FirstOK (λ p, ¬ above p c) j
}.

(** Every match is decided or waits for a player. *)
Record Settled : Prop := {
  se_shaped : shaped n t;
  se_slots : slots;
  se_live : ∀ p, 1 ≤ p < n → (live p ↔ live (2 * p) ∧ live (2 * p + 1));
  se_live_dec : ∀ x, 1 ≤ x → live x ∨ ¬ live x;
  se_leaf : ∀ j, j < n → win (n + j) = j;
  se_lt : ∀ x, 1 ≤ x < 2 * n → live x → win x < n;
  se_path : ∀ x, 1 ≤ x < 2 * n → live x → on_path x (n + win x);
  se_uniq : ∀ p q l, 1 ≤ p < n → 1 ≤ q < n → tr t p = Some l → tr t q = Some l → p = q;
  se_node : ∀ p, 1 ≤ p < n → Node p;
  se_first : ∀ j, j < n → live (n + j) → is_popped (rk j) = false → FirstOK (λ _, True) j;
  se_root : live 1 → tr t 0 = Some (win 1) ∧ (∀ p, 1 ≤ p < n → tr t p ≠ Some (win 1)) ∧
            IsWinner (st t (win 1)) = true ∧
            (st t (win 1) = WINNER_POPPED ↔ is_popped (rk (win 1)) = true);
  se_root_none : ¬ live 1 → tr t 0 = None
}.
End State.
Arguments ri_shaped {rk t win live stf c i} _.
Arguments ri_slots {rk t win live stf c i} _.
Arguments ri_live {rk t win live stf c i} _.
Arguments ri_live_dec {rk t win live stf c i} _.
Arguments ri_leaf {rk t win live stf c i} _.
Arguments ri_c {rk t win live stf c i} _.
Arguments ri_win {rk t win live stf c i} _.
Arguments ri_live_c {rk t win live stf c i} _.
Arguments ri_lt {rk t win live stf c i} _.
Arguments ri_path {rk t win live stf c i} _.
Arguments ri_uniq {rk t win live stf c i} _.
Arguments ri_fresh {rk t win live stf c i} _.
Arguments ri_node {rk t win live stf c i} _.
Arguments ri_anc {rk t win live stf c i} _.
Arguments ri_first {rk t win live stf c i} _.
Arguments se_shaped {rk t win live} _.
Arguments se_slots {rk t win live} _.
Arguments se_live {rk t win live} _.
Arguments se_live_dec {rk t win live} _.
Arguments se_leaf {rk t win live} _.
Arguments se_lt {rk t win live} _.
Arguments se_path {rk t win live} _.
Arguments se_uniq {rk t win live} _.
Arguments se_node {rk t win live} _.
Arguments se_first {rk t win live} _.
Arguments se_root {rk t win live} _.
Arguments se_root_none {rk t win live} _.

(** ** One match

    [decided] is what a round of [Adjust] does to the match at [p] between the
    rising leaf [i] and the waiting leaf [l]. *)
Record decided (rk : nat → Rank) (t t' : LoserTree) (p i l w : nat) : Prop := {
  de_shaped : shaped n t';
  de_data : same_data t t';
  de_winner : (w = i ∧ tr t' p = Some l) ∨ (w = l ∧ tr t' p = Some i);
  de_tree : ∀ q, q ≠ p → tr t' q = tr t q;
  de_le : rank_le (rk w) (rk (if decide (w = i) then l else i));
  de_st_loser : let o := if decide (w = i) then l else i in
                st t' o = loser_state (rk w) (rk o);
  de_st : ∀ j, j ≠ i → j ≠ l → st t' j = st t j;
  de_fs : ∀ j, j ≠ w → fs t' j = fs t j;
  de_fs_winner : is_popped (rk w) = false →
    fs t' w = if tie (rk w) (rk (if decide (w = i) then l else i)) then or_else (fs t w) p else fs t w
}.

Arguments de_shaped {rk t t' p i l w} _.
Arguments de_data {rk t t' p i l w} _.
Arguments de_winner {rk t t' p i l w} _.
Arguments de_tree {rk t t' p i l w} _.
Arguments de_le {rk t t' p i l w} _.
Arguments de_st_loser {rk t t' p i l w} _.
Arguments de_st {rk t t' p i l w} _.
Arguments de_fs {rk t t' p i l w} _.
Arguments de_fs_winner {rk t t' p i l w} _.

Definition upd (f : nat → nat) (p w : nat) : nat → nat := λ x, if decide (x = p) then w else f x.
Lemma upd_eq f p w : upd f p w p = w.
Proof. unfold upd. by rewrite decide_True. Qed.
Lemma upd_ne f p w x : x ≠ p → upd f p w x = f x.
Proof. intros. unfold upd. by rewrite decide_False. Qed.

Lemma slots_same rk t t' : same_data t t' → slots rk t → slots rk t'.
Proof. intros Hd Hs i Hi. rewrite (same_data_sl _ _ _ Hd). by apply Hs. Qed.

Lemma off_path c d : 1 ≤ c → d / 2 = c / 2 → 1 ≤ c / 2 → d ≠ c → ¬ on_path d c ∧ ¬ above d c.
Proof.
  intros Hc Hd Hp Hne. assert (¬ above d c).
  { intros H%above_on_path. apply on_path_le in H; lia. }
  split; [intros [?|?]; done|done].
Qed.

Section Rise.
Context (rk : nat → Rank) (t t' : LoserTree) (win : nat → nat) (live : nat → Prop) (stf : Rank → State).
Context (c i d p l w : nat).
Context (R : Rising rk t win live stf c i) (Hpc : p = c / 2) (Hp : 1 ≤ p).
Context (Hd : d / 2 = p) (Hne : d ≠ c) (Hl : live d) (El : win d = l).
Context (D : decided rk t t' p i l w).

Lemma rise_range : 1 ≤ p < n ∧ 1 ≤ d < 2 * n.
Proof. pose proof (ri_c R). lia. Qed.

Lemma rise_off : ¬ on_path d c ∧ ¬ above d c.
Proof. pose proof (ri_c R). apply off_path; lia. Qed.

Lemma rise_loser : tr t p = Some l ∧ st t l = stf (rk l).
Proof.
  pose proof rise_range. destruct rise_off.
  rewrite <-El. apply (ri_anc R p d); try done; [lia|by apply above_parent].
Qed.

Lemma rise_distinct : l ≠ i ∧ l < n ∧ i < n.
Proof.
  pose proof rise_range as [? ?]. destruct rise_off, rise_loser as [Htr _].
  pose proof (ri_c R). split_and!.
  - intros E. apply (ri_fresh R p); [lia|]. by rewrite Htr, E.
  - rewrite <-El. by apply (ri_lt R).
  - rewrite <-(ri_win R). apply (ri_lt R); [done| |apply (ri_live_c R)].
    intros H'%above_lt; lia.
Qed.

Lemma rise_winner : w = i ∨ w = l.
Proof. destruct (de_winner D) as [[-> _]|[-> _]]; auto. Qed.

(** A node is undecided below the old position iff it is the match or still
    undecided. *)
Lemma rise_above q : above q c ↔ q = p ∨ above q p.
Proof. rewrite Hpc. apply above_inv. Qed.

Lemma rise_settled q : ¬ above q p → q ≠ p → ¬ above q c.
Proof. rewrite rise_above. tauto. Qed.

(** Leaves that wait elsewhere are neither of the two players. *)
Lemma rise_elsewhere q j : 1 ≤ q < n → q ≠ p → tr t q = Some j → j ≠ i ∧ j ≠ l ∧ st t' j = st t j ∧ fs t' j = fs t j.
Proof.
  intros Hq Hqp Htr. pose proof rise_range. destruct rise_loser as [Hpl _].
  assert (j ≠ i) by (intros ->; by apply (ri_fresh R q)).
  assert (j ≠ l) by (intros ->; apply Hqp; eapply (ri_uniq R); [..|done|done]; lia).
  split_and!; [done..|by apply (de_st D)|apply (de_fs D)].
  destruct rise_winner as [->| ->]; done.
Qed.

Lemma rise_live : live p.
Proof.
  pose proof rise_range. apply (ri_live R); [lia|].
  pose proof (ri_live_c R) as Hc. rewrite Hpc.
  destruct (decide (c = 2 * (c / 2))) as [E|E].
  - split; [by rewrite <-E|]. replace (2 * (c / 2) + 1) with d by lia. done.
  - split; [|replace (2 * (c / 2) + 1) with c by lia; done]. replace (2 * (c / 2)) with d by lia. done.
Qed.

Lemma rise_players x : x / 2 = p → x = c ∨ x = d.
Proof. pose proof rise_range. lia. Qed.

Lemma rise_path_winner : on_path p (n + w) ∧ above p (n + w).
Proof.
  assert (above p (n + w)) as Ha; [|by split; [right|]].
  pose proof rise_range as [? ?]. destruct rise_off. pose proof (ri_c R).
  destruct rise_winner as [->| ->].
  - rewrite <-(ri_win R). apply (child_above p c); [done|].
    apply (ri_path R); [done| |apply (ri_live_c R)].
    intros Hx%above_lt; lia.
  - rewrite <-El. apply (child_above p d); [done|]. by apply (ri_path R).
Qed.

Lemma rise_node q : 1 ≤ q < n → ¬ above q p → Node rk t' (upd win p w) live q.
Proof.
  intros Hq Hnot. pose proof rise_range as [Hpr _]. destruct (decide (q = p)) as [->|Hqp].
  - assert (live (2 * p) ∧ live (2 * p + 1)) as [L1 L2].
    { apply (ri_live R); [lia|apply rise_live]. }
    split_and!; try done. intros _ _. exists (if decide (w = i) then l else i).
    rewrite upd_eq, !upd_ne by lia. split_and!.
    + pose proof rise_distinct. destruct (de_winner D) as [[-> ->]|[-> ->]]; [by rewrite decide_True|].
      rewrite decide_False; [done|tauto].
    + pose proof rise_distinct as (Hli & _). 
      destruct (decide (c = 2 * p)) as [E|E];
        [rewrite <-E; replace (c + 1) with d by lia
        |replace (2 * p + 1) with c by lia; replace (2 * p) with d by lia];
        rewrite (ri_win R), El; destruct rise_winner as [->| ->];
        rewrite ?decide_True, ?decide_False by done; tauto.
    + apply (de_le D).
    + apply (de_st_loser D).
  - pose proof (rise_settled q Hnot Hqp) as Hs. pose proof (ri_node R q Hq Hs) as HN.
    assert (2 * q ≠ p ∧ 2 * q + 1 ≠ p) as [E1 E2].
    { split; intros E; apply Hnot, above_parent; lia. }
    unfold Node, Match, waiting in *. rewrite !upd_ne, (de_tree D) by done.
    destruct HN as (H1&H2&H3&H4). split_and!; [| | |done].
    + intros L1 L2. destruct (H1 L1 L2) as (j&Htr&Hw&Hle&Hst). exists j. split_and!; try done.
      by destruct (rise_elsewhere q j) as (_&_&->&_).
    + intros L1 L2. destruct (H2 L1 L2) as [Htr Hst]. split; [done|].
      by destruct (rise_elsewhere q (win (2 * q))) as (_&_&->&_).
    + intros L1 L2. destruct (H3 L1 L2) as [Htr Hst]. split; [done|].
      by destruct (rise_elsewhere q (win (2 * q + 1))) as (_&_&->&_).
Qed.

Lemma rise_anc q e : 1 ≤ q < n → above q p → e / 2 = q → ¬ on_path e p →
  (live e → tr t' q = Some (upd win p w e) ∧ st t' (upd win p w e) = stf (rk (upd win p w e))) ∧
  (¬ live e → tr t' q = None).
Proof.
  intros Hq Ha He Hoff. assert (q < p) by (apply above_lt; [lia|done]).
  assert (e ≠ p) by (intros ->; apply Hoff; by left). rewrite upd_ne, (de_tree D) by (done || lia).
  assert (Hoffc : ¬ on_path e c).
  { intros [->|Hx%above_on_path]; [lia|rewrite <-Hpc in Hx; done]. }
  destruct (ri_anc R q e Hq (above_half _ _ _ Ha Hpc) He Hoffc) as [H1 H2]. split; [|done].
  intros L. destruct (H1 L) as [Htr Hst]. split; [done|].
  destruct (rise_elsewhere q (win e)) as (_&_&->&_); [done|lia|done|done].
Qed.

Lemma rise_same_at q : q ≠ p → same_at rk t' (upd win p w) q ↔ same_at rk t win q.
Proof. intros Hq. unfold same_at. by rewrite (de_tree D), upd_ne by done. Qed.

(** Matches [w] won before the match at [p] are below it. *)
Lemma rise_below q : 1 ≤ q < n → ¬ above q c → live q → win q = w → p < q.
Proof.
  intros Hq Hs Hlive Hw. pose proof rise_range. destruct rise_path_winner as [Hpw _].
  assert (on_path q (n + w)) as Hqw by (rewrite <-Hw; apply (ri_path R); [lia|done..]).
  destruct (path_chain q p (n + w)) as [[->|Ha]|[->|Ha]]; try done; try lia.
  - destruct Hs. by apply above_parent.
  - destruct Hs. by eapply above_half.
  - destruct Hs. by apply above_parent.
  - apply above_lt in Ha; lia.
Qed.

Lemma rise_first j : j < n → live (n + j) → is_popped (rk j) = false →
  FirstOK rk t' (upd win p w) live (λ q, ¬ above q p) j.
Proof.
  intros Hj Hlj Hpj. pose proof (ri_first R j Hj Hlj Hpj) as HF. pose proof rise_range as [Hpr _].
  assert (Hnew : ∀ q, 1 ≤ q < n → ¬ above q p → live q → upd win p w q = j → q ≠ p →
                      ¬ above q c ∧ win q = j).
  { intros q ? Hs ? Hw Hqp. rewrite upd_ne in Hw by done. split; [by apply rise_settled|done]. }
  assert (Hself : same_at rk t' (upd win p w) p ↔
    tie (rk w) (rk (if decide (w = i) then l else i)) = true).
  { unfold same_at. rewrite upd_eq. pose proof rise_distinct as (Hli&_).
    destruct (de_winner D) as [[-> Htr]|[-> Htr]]; rewrite Htr;
      [rewrite decide_True by done|rewrite decide_False by done]; split; eauto;
      by intros (?&[= <-]&?). }
  assert (Hsettled : ∀ q, ¬ above q c → ¬ above q p) by (intros q Hx Hx'; apply Hx; by eapply above_half).
  assert (Hpp : ¬ above p p) by (intros Hx%above_lt; lia).
  unfold FirstOK in *. destruct (decide (j = w)) as [->|Hjw].
  - rewrite (de_fs_winner D Hpj). destruct (fs t w) as [q|] eqn:Hfs.
    + destruct HF as (Hq&Hs&Hlq&Hwq&Hsame&Hmin).
      pose proof (rise_below q Hq Hs Hlq Hwq).
      assert ((if tie (rk w) (rk (if decide (w = i) then l else i)) then or_else (Some q) p else Some q)
              = Some q) as -> by (by destruct (tie _ _)).
      split_and!; [lia|lia|by apply Hsettled|done|by rewrite upd_ne by lia|by apply rise_same_at; [lia|]|].
      intros q' Hq' Hs' Hl' Hw'. destruct (Hnew q') as [? ?]; try done; try lia.
      rewrite rise_same_at by lia. apply Hmin; [lia|done..].
    + destruct (tie (rk w) (rk (if decide (w = i) then l else i))) eqn:Ht; cbn [or_else].
      * split_and!; [lia|lia|done|apply rise_live|apply upd_eq|by apply Hself|].
        intros q' Hq' Hs' Hl' Hw'. destruct (Hnew q') as [? ?]; try done; try lia.
        rewrite rise_same_at by lia. apply HF; [lia|done..].
      * intros q Hq Hs Hlq Hwq. destruct (decide (q = p)) as [->|Hqp].
        { intros Hx%Hself. congruence. }
        destruct (Hnew q) as [? ?]; try done. rewrite rise_same_at by done. by apply HF.
  - rewrite (de_fs D j Hjw). destruct (fs t j) as [q|] eqn:Hfs.
    + destruct HF as (Hq&Hs&Hlq&Hwq&Hsame&Hmin).
      assert (q ≠ p) by (intros ->; apply Hs; by apply above_parent).
      split_and!; [lia|lia|by apply Hsettled|done|by rewrite upd_ne|by apply rise_same_at|].
      intros q' Hq' Hs' Hl' Hw'.
      assert (q' ≠ p) by (intros ->; rewrite upd_eq in Hw'; congruence).
      destruct (Hnew q') as [? ?]; try done; try lia. rewrite rise_same_at by done. by apply Hmin.
    + intros q Hq Hs Hlq Hwq.
      assert (q ≠ p) by (intros ->; rewrite upd_eq in Hwq; congruence).
      destruct (Hnew q) as [? ?]; try done. rewrite rise_same_at by done. by apply HF.
Qed.

Lemma rise : Rising rk t' (upd win p w) live stf p w.
Proof.
  pose proof rise_range as [Hpr _]. pose proof rise_distinct as (Hli&Hln&Hin). constructor.
  - apply (de_shaped D).
  - eapply slots_same; [apply (de_data D)|apply (ri_slots R)].
  - apply (ri_live R).
  - apply (ri_live_dec R).
  - intros j Hj. rewrite upd_ne by lia. by apply (ri_leaf R).
  - lia.
  - apply upd_eq.
  - apply rise_live.
  - intros x Hx Hs Hlx. destruct (decide (x = p)) as [->|].
    + rewrite upd_eq. by destruct rise_winner as [->| ->].
    + rewrite upd_ne by done. apply (ri_lt R); [done|by apply rise_settled|done].
  - intros x Hx Hs Hlx. destruct (decide (x = p)) as [->|].
    + rewrite upd_eq. apply rise_path_winner.
    + rewrite upd_ne by done. apply (ri_path R); [done|by apply rise_settled|done].
  - assert (Hloser : ∀ q j, 1 ≤ q < n → q ≠ p → tr t' p = Some j → tr t' q ≠ Some j).
    { intros q j Hq Hqp Hpj. rewrite (de_tree D) by done. intros Hqj.
      destruct (rise_elsewhere q j) as (?&?&_); try done.
      destruct (de_winner D) as [[_ Hw]|[_ Hw]]; congruence. }
    intros q q' j Hq Hq' Hj Hj'. destruct (decide (q = p)) as [->|], (decide (q' = p)) as [->|]; try done.
    + by destruct (Hloser q' j).
    + by destruct (Hloser q j).
    + rewrite (de_tree D) in Hj, Hj' by done. by eapply (ri_uniq R).
  - intros q Hq Hqw. destruct (decide (q = p)) as [->|].
    + destruct (de_winner D) as [[-> Hw]|[-> Hw]]; congruence.
    + rewrite (de_tree D) in Hqw by done. destruct (rise_elsewhere q w) as (?&?&_); try done.
      by destruct rise_winner.
  - apply rise_node.
  - apply rise_anc.
  - apply rise_first.
Qed.
End Rise.

(** ** The rounds of Adjust *)

(** The tree after the exchange that ends a round. *)
Definition exchange (p i : nat) (t : LoserTree) : LoserTree :=
  if IsWinner (st t i) then t else set_tree p (Some i) t.

(** The effect of a round before the exchange. *)
Record played (rk : nat → Rank) (t t1 : LoserTree) (p i l w o : nat) : Prop := {
  pl_players : (w = i ∧ o = l) ∨ (w = l ∧ o = i);
  pl_shaped : shaped n t1;
  pl_data : same_data t t1;
  pl_tr : ∀ q, tr t1 q = tr t q;
  pl_le : rank_le (rk w) (rk o);
  pl_loser : st t1 o = loser_state (rk w) (rk o);
  pl_winner : IsWinner (st t1 w) = true;
  pl_st : ∀ j, j ≠ i → j ≠ l → st t1 j = st t j;
  pl_fs : ∀ j, j ≠ w → fs t1 j = fs t j;
  pl_fs_winner : is_popped (rk w) = false →
    fs t1 w = if tie (rk w) (rk o) then or_else (fs t w) p else fs t w
}.
Arguments pl_players {rk t t1 p i l w o} _.
Arguments pl_shaped {rk t t1 p i l w o} _.
Arguments pl_tr {rk t t1 p i l w o} _ _.

Lemma loser_state_loses a b : IsWinner (loser_state a b) = false.
Proof. unfold loser_state. by destruct (is_popped b), (tie a b). Qed.

Lemma played_decided rk t t1 p i l w o :
  p < n → l ≠ i → tr t p = Some l → played rk t t1 p i l w o →
  decided rk t (exchange p i t1) p i l w ∧ IsWinner (st t1 i) = bool_decide (w = i) ∧
  ∀ j, st (exchange p i t1) j = st t1 j ∧ fs (exchange p i t1) j = fs t1 j.
Proof.
  intros Hp Hli Htr [Hpl Hsh Hd Ht Hle Hlo Hwi Hst Hfs Hfw].
  assert (Ew : IsWinner (st t1 i) = bool_decide (w = i)).
  { destruct Hpl as [[-> ->]|[-> ->]]; [by rewrite Hwi, bool_decide_eq_true_2|].
    by rewrite Hlo, loser_state_loses, bool_decide_eq_false_2. }
  assert (Eo : (if decide (w = i) then l else i) = o).
  { destruct Hpl as [[-> ->]|[-> ->]]; [by rewrite decide_True|by rewrite decide_False]. }
  split_and!; [|done|intros j; unfold exchange; by destruct (IsWinner (st t1 i))].
  unfold exchange. rewrite Ew.
  destruct Hpl as [[-> ->]|[-> ->]]; [rewrite bool_decide_eq_true_2 by done|rewrite bool_decide_eq_false_2 by done];
    constructor; rewrite ?Eo; try done; eauto with shape.
  - left. by rewrite Ht, Htr.
  - right. views n. by rewrite decide_True.
  - intros q Hq. views n. by rewrite decide_False.
Qed.

Section Round.
Context (rk : nat → Rank) (t : LoserTree) (p i l : nat).
Context (Ht : shaped n t) (Hs : slots rk t) (Hp : p < n) (Hi : i < n) (Hl : l < n) (Hli : l ≠ i).
Context (Htr : tr t p = Some l) (Hpi : is_popped (rk i) = false).

Lemma deref_slot j : j < n → is_popped (rk j) = false → deref (sl t j) = Ok (fst <$> rk j).
Proof. intros Hj Hpj. destruct (Hs j Hj) as [-> _]. by destruct (rk j) as [[k []]|]. Qed.

(** Closes the fields of [played] for a tree given by updates of two leaves. *)
Ltac solve_views :=
  intros; views n;
  repeat first [rewrite decide_True by done | rewrite decide_False by congruence];
  unfold loser_state; repeat match goal with H : ?x = _ |- context [?x] => rewrite H end; done.
Ltac solve_played :=
  constructor; [auto|eauto 6 with shape|solve_same_data|..]; try solve_views.

Lemma new_round_popped :
  st t l = LOSER_POPPED → is_popped (rk l) = true → rank_le (rk l) (rk i) →
  ∃ t1, AdjustWithNewWinnerKey first second p l i t = Ok t1 ∧ played rk t t1 p i l l i ∧
        st t1 l = WINNER_POPPED ∧ fs t1 l = None.
Proof.
  intros Hstl Hpl Hle. unfold AdjustWithNewWinnerKey.
  destruct (leaf_at_ok n l t Ht Hl) as (lfl&->&_&El&_). destruct (leaf_at_ok n i t Ht Hi) as (lfi&->&_).
  cbn [mbind Result_bind]. rewrite El, Hstl. eexists. split; [reflexivity|].
  rewrite (on_leaf_compose l (set_first None)).
  split_and!; [|solve_views|solve_views]. solve_played.
  - views n. rewrite decide_True by done. unfold loser_state. rewrite Hpi.
    by destruct (rk l) as [[? []]|].
  - by rewrite Hpl.
Qed.

Lemma new_round_waiting :
  st t i = WINNER_WITH_NEW_KEY → st t l = LOSER_WITH_NEW_KEY → is_popped (rk l) = false →
  ∃ t1 w o, AdjustWithNewWinnerKey first second p l i t = Ok t1 ∧ played rk t t1 p i l w o ∧
        st t1 w = WINNER_WITH_NEW_KEY.
Proof.
  intros Hsti Hstl Hpl. unfold AdjustWithNewWinnerKey.
  destruct (leaf_at_ok n l t Ht Hl) as (lfl&->&_&El&_&Ekl). destruct (leaf_at_ok n i t Ht Hi) as (lfi&->&_&_&_&Eki).
  cbn [mbind Result_bind]. rewrite El, Hstl, Ekl, Eki, !deref_slot by done. cbn [mbind Result_bind].
  destruct (compare_ranks l i (rk l) (rk i)) as (f&->&Hzero&Hpos&Hneg); [done|by apply Hs..|done|done|].
  cbn [mbind Result_bind]. destruct (Z.eqb_spec f 0) as [E|E].
  - destruct (Hzero E) as (T1&T2&s&->&Hs1&Hs2). cbn [mbind Result_bind]. destruct (Z.ltb_spec s 0) as [E2|E2].
    + eexists _, i, l. split; [reflexivity|]. split; [|solve_views]. solve_played; auto.
    + destruct Hs2 as [_ Hs2]; [lia|]. eexists _, l, i. split; [reflexivity|].
      rewrite (on_leaf_compose l (SetFirstSameKeyIndex p)). split; [|solve_views]. solve_played; auto.
  - destruct (Z.ltb_spec 0 f).
    + destruct Hpos as [Hle T]; [done|]. eexists _, l, i. split; [reflexivity|]. split; [|solve_views]. solve_played; auto.
    + destruct Hneg as [Hle T]; [lia|]. eexists _, i, l. split; [reflexivity|]. split; [|done]. solve_played; auto.
Qed.

Lemma same_round :
  st t i = WINNER_WITH_SAME_KEY → rk i ≠ None → st t l = loser_state (rk i) (rk l) →
  (tie (rk i) (rk l) = false → rank_le (rk i) (rk l)) →
  ∃ t1 w o, AdjustWithSameWinnerKey second p l i t = Ok t1 ∧ played rk t t1 p i l w o ∧
        st t1 w = WINNER_WITH_SAME_KEY ∧ is_popped (rk w) = false ∧
        (w = i ∨ tie (rk i) (rk w) = true).
Proof.
  intros Hsti Hsome Hstl Hle. unfold AdjustWithSameWinnerKey.
  destruct (leaf_at_ok n l t Ht Hl) as (lfl&->&_&El&_&Ekl). destruct (leaf_at_ok n i t Ht Hi) as (lfi&->&_&_&_&Eki).
  cbn [mbind Result_bind]. rewrite El, Hstl, Ekl, Eki. unfold loser_state in Hstl |- *.
  destruct (tie (rk i) (rk l)) eqn:T.
  - assert (Hpl : is_popped (rk l) = false) by (by destruct (rk i) as [[? []]|], (rk l) as [[? []]|]).
    rewrite Hpl in *. rewrite !deref_slot by done. cbn [mbind Result_bind].
    destruct (compare_ranks l i (rk l) (rk i)) as (f&Ef&Hzero&_&_); [done|by apply Hs..|done|done|].
    destruct Hzero as (T1&_&s&->&Hs1&Hs2); [rewrite (tie_zero _ _ T) in Ef; by injection Ef|].
    cbn [mbind Result_bind]. destruct (Z.ltb_spec 0 s) as [E2|E2].
    + destruct Hs2 as [_ Hs2]; [lia|]. eexists _, l, i. split; [reflexivity|].
      rewrite (on_leaf_compose l (SetFirstSameKeyIndex p)). split; [|split; [solve_views|auto]]. solve_played; auto.
    + assert (s < 0)%Z by (destruct (Z.ltb_spec s 0); [done|]; destruct Hs2; lia).
      eexists _, i, l. split; [reflexivity|]. split; [|split; [solve_views|auto]]. solve_played; auto.
  - eexists t, i, l. split; [by destruct (is_popped (rk l))|]. split; [|auto]. solve_played; auto.
Qed.
End Round.

(** The last round stores the winner in [tree_[0]]. *)
Lemma rising_root rk t win live stf i :
  Rising rk t win live stf 1 i → IsWinner (st t i) = true →
  (st t i = WINNER_POPPED ↔ is_popped (rk i) = true) →
  Settled rk (set_tree 0 (Some i) t) win live.
Proof.
  intros R Hw Hpop. pose proof (ri_c R) as [_ Hn].
  assert (Hno : ∀ q, 1 ≤ q → ¬ above q 1) by (intros q Hq Hx%above_lt; lia).
  assert (Htr : ∀ q, 1 ≤ q → tr (set_tree 0 (Some i) t) q = tr t q).
  { intros q Hq. rewrite (tr_set_tree n) by (apply R || lia). by rewrite decide_False by lia. }
  assert (Hsame : ∀ q, 1 ≤ q → same_at rk (set_tree 0 (Some i) t) win q ↔ same_at rk t win q).
  { intros q Hq. unfold same_at. by rewrite Htr. }
  constructor.
  - apply shaped_set_tree, R.
  - apply R.
  - apply R.
  - apply R.
  - apply R.
  - intros x Hx. apply (ri_lt R); [done|apply Hno; lia].
  - intros x Hx. apply (ri_path R); [done|apply Hno; lia].
  - intros p q l Hp Hq. rewrite !Htr by lia. by apply (ri_uniq R).
  - intros p Hp. pose proof (ri_node R p Hp (Hno p (proj1 Hp))) as HN.
    unfold Node, Match, waiting in *. rewrite Htr by lia. exact HN.
  - intros j Hj Hl Hp. pose proof (ri_first R j Hj Hl Hp) as HF. unfold FirstOK in *.
    rewrite fs_set_tree. destruct (fs t j) as [q|].
    + destruct HF as (Hq&_&Hlq&Hwq&Hsq&Hmin). split_and!; [lia|lia|done|done|done|by apply Hsame; [lia|]|].
      intros p Hpr _ Hlp Hwp. rewrite Hsame by lia. apply Hmin; try done. apply Hno; lia.
    + intros p Hpr _ Hlp Hwp. rewrite Hsame by lia. apply HF; try done. apply Hno; lia.
  - intros _. rewrite (ri_win R). split_and!; [|intros p Hp; rewrite Htr by lia; by apply (ri_fresh R)|done..].
    rewrite (tr_set_tree n) by (apply R || lia). done.
  - intros Hl. destruct Hl. apply (ri_live_c R).
Qed.

(** ** The loop of Adjust *)

Lemma loop_step fuel p i l w t t1 :
  1 ≤ p < n → i < n → l ≠ i → shaped n t1 → adjust_node first second p i t = Ok (p, t1) →
  IsWinner (st t1 i) = bool_decide (w = i) → tr t1 p = Some l → w = i ∨ w = l →
  Adjust_loop first second (S fuel) p (Some i) t =
  Adjust_loop first second fuel (p / 2) (Some w) (exchange p i t1).
Proof.
  intros Hp Hi Hli Hs Ha Hw Htr Hwl. destruct p as [|p']; [lia|].
  cbn [Adjust_loop]. rewrite Ha. cbn [mbind Result_bind].
  destruct (leaf_at_ok n i t1 Hs Hi) as (lf&->&_&Est&_). cbn [mbind Result_bind]. rewrite Est.
  unfold exchange. rewrite Hw. case_bool_decide; [by subst|].
  rewrite (tree_at_ok n) by (done || lia). rewrite Htr. destruct Hwl as [?| ->]; done.
Qed.

Lemma loop_done fuel w t : Adjust_loop first second (S fuel) 0 w t = Ok (set_tree 0 w t).
Proof. done. Qed.

(** A popped leaf with nothing of its key below is left at the top at once. *)
Lemma loop_popped fuel p i t l :
  2 ≤ fuel → p < n → i < n → shaped n t → (1 ≤ p → tr t p = Some l) →
  st t i = WINNER_POPPED → fs t i = None →
  Adjust_loop first second fuel p (Some i) t = Ok (set_tree 0 (Some i) t).
Proof.
  intros Hf Hp Hi Hs Htr Hst Hfs. destruct fuel as [|[|fuel]]; [lia..|]. destruct p as [|p]; [done|].
  cbn [Adjust_loop]. unfold adjust_node. rewrite (tree_at_ok n) by done. rewrite Htr by lia. cbn [mbind Result_bind].
  destruct (leaf_at_ok n i t Hs Hi) as (lf&E&_&Est&Efs&_). rewrite E. cbn [mbind Result_bind].
  rewrite Est, Hst, Efs, Hfs. cbn [mbind Result_bind]. rewrite E. cbn [mbind Result_bind]. by rewrite Est, Hst.
Qed.

Definition same_size (t t' : LoserTree) : Prop := initialized_ t' = initialized_ t.

(** A leaf that dominates all undecided matches wins them without a change of
    the tree. *)
Lemma coast rk t win live stf c i :
  Rising rk t win live stf c i → (∀ x, 1 ≤ x → live x) →
  (∀ j, j < n → rank_le (rk i) (rk j) ∧ stf (rk j) = loser_state (rk i) (rk j) ∧ tie (rk i) (rk j) = false) →
  ∃ win', Rising rk t win' live stf 1 i.
Proof.
  revert win. induction (lt_wf c) as [c _ IH]. intros win R Hall Hdom.
  pose proof (ri_c R). destruct (decide (c = 1)) as [->|Hc]; [eauto|].
  set (p := c / 2). assert (1 ≤ p) by (subst p; lia).
  set (d := if decide (c = 2 * p) then 2 * p + 1 else 2 * p).
  assert (d / 2 = p ∧ d ≠ c) as [Hd Hne] by (subst d; case_decide; subst p; lia).
  assert (1 ≤ d) by lia.
  destruct (rise_loser rk t win live stf c i d p (win d) R eq_refl) as [Htr Hst]; auto.
  destruct (rise_distinct rk t win live stf c i d p (win d) R eq_refl) as (Hli&Hln&Hin); auto.
  destruct (Hdom (win d) Hln) as (Hle&Hstf&Ht).
  apply (IH p) with (upd win p i); [subst p; lia| |done..].
  apply (rise rk t t win live stf c i d p (win d) i); try done; [by apply Hall|].
  constructor; try done; [apply R|auto|by rewrite decide_True|cbn zeta; rewrite decide_True by done; by rewrite Hst|].
  intros _. rewrite decide_True by done. by rewrite Ht.
Qed.

(** A live node has live nodes below it. *)
Lemma live_down live x y :
  (∀ p, 1 ≤ p < n → (live p ↔ live (2 * p) ∧ live (2 * p + 1))) →
  1 ≤ x → y < 2 * n → on_path x y → live x → live y.
Proof.
  intros Hlive Hx Hy [->|Ha]; [done|]. intros Hl. induction Ha as [c ->|c Ha IH].
  - apply Hlive in Hl as [L1 L2]; [|lia]. destruct (decide (c = 2 * (c / 2))) as [->|]; [done|].
    by replace c with (2 * (c / 2) + 1) by lia.
  - pose proof (above_lt _ _ Hx Ha). assert (live (c / 2)) as Hl' by (apply IH; lia).
    apply Hlive in Hl' as [L1 L2]; [|lia]. destruct (decide (c = 2 * (c / 2))) as [->|]; [done|].
    by replace c with (2 * (c / 2) + 1) by lia.
Qed.

(** While a key is refilled the waiting leaves have not been compared with the
    key of the rising one. *)
Definition refill_state (r : Rank) : State :=
  if is_popped r then LOSER_POPPED else LOSER_WITH_NEW_KEY.

Section Park.
Context (rk : nat → Rank) (t : LoserTree) (win : nat → nat) (live : nat → Prop).
Context (c i d p : nat) (Hunpopped : ∀ j, is_popped (rk j) = false).
Context (R : Rising rk t win live refill_state c i) (Hpc : p = c / 2) (Hp : 1 ≤ p).
Context (Hd : d / 2 = p) (Hne : d ≠ c) (Hl : ¬ live d).

Let t2 := set_tree p (Some i) (on_leaf i (set_state LOSER_WITH_NEW_KEY) t).

Lemma park_live x : 1 ≤ x → live x → ¬ above x c.
Proof.
  intros Hx Hlx Ha%above_on_path. pose proof (ri_c R). rewrite <-Hpc in Ha.
  assert (live p) as Hlp by (apply (live_down live x p); [apply R|lia|lia|done|done]).
  apply (ri_live R) in Hlp as [L1 L2]; [|lia]. destruct (decide (d = 2 * p)) as [->|]; [done|].
  by replace d with (2 * p + 1) in Hl by lia.
Qed.

Lemma park_lt : i < n.
Proof.
  rewrite <-(ri_win R). pose proof (ri_c R). apply (ri_lt R); [lia| |apply (ri_live_c R)].
  apply park_live; [lia|apply (ri_live_c R)].
Qed.

Lemma park_views q j :
  (q ≠ p → tr t2 q = tr t q) ∧ tr t2 p = Some i ∧ (j ≠ i → st t2 j = st t j) ∧
  st t2 i = LOSER_WITH_NEW_KEY ∧ fs t2 j = fs t j.
Proof.
  pose proof park_lt. pose proof (ri_c R). assert (shaped n t) by apply R. subst t2.
  split_and!; intros; views n; rewrite ?decide_True, ?decide_False by done; done.
Qed.

Lemma park_empty : tr t p = None.
Proof.
  pose proof (ri_c R). destruct (off_path c d) as [Ho _]; [lia..|].
  apply (ri_anc R p d); [lia|by apply above_parent|done|done|done].
Qed.

Lemma park_elsewhere q j : 1 ≤ q < n → tr t q = Some j → q ≠ p ∧ j ≠ i ∧ st t2 j = st t j.
Proof.
  intros Hq Htr. assert (q ≠ p) by (intros ->; rewrite park_empty in Htr; done).
  assert (j ≠ i) by (intros ->; by apply (ri_fresh R q)).
  split_and!; [done..|by apply (park_views q j)].
Qed.

Lemma park_node q : 1 ≤ q < n → Node rk t2 win live q.
Proof.
  intros Hq. pose proof (ri_c R) as Hc. destruct (park_views q q) as (Htr&Htrp&_&Hsti&_).
  assert (Hwait : ∀ e, tr t q = Some (win e) → st t (win e) = LOSER_WITH_NEW_KEY → waiting t2 win q e).
  { intros e He Hste. destruct (park_elsewhere q (win e)) as (Hqp&_&E); [done..|].
    unfold waiting. by rewrite Htr, E. }
  destruct (decide (q = p)) as [->|Hqp].
  - assert (Hw : waiting t2 win p c) by (unfold waiting; by rewrite (ri_win R)).
    pose proof (ri_live_c R). unfold Node.
    destruct (decide (c = 2 * p)) as [E|E]; [rewrite <-E; replace (c + 1) with d by lia; tauto|].
    replace (2 * p + 1) with c by lia. replace (2 * p) with d by lia. tauto.
  - destruct (on_path_dec q p) as [[->|Ha]|Hno]; [lia|done| |].
    + assert (Hac : above q c) by (by eapply above_half).
      assert (∃ e e', e / 2 = q ∧ e' / 2 = q ∧ e ≠ e' ∧ on_path e p) as (e&e'&He&He'&Hee&Hep).
      { destruct (above_child q p) as [H|H]; [lia|done| |];
          [exists (2 * q), (2 * q + 1)|exists (2 * q + 1), (2 * q)]; (split_and!; [lia..|done]). }
      assert (Hoff : ¬ on_path e' c).
      { intros Hx. apply (siblings_disjoint q e e' c); [lia|done..| |done].
        eapply on_path_trans; [done|right; by apply above_parent]. }
      assert (Hel : ¬ live e).
      { intros Hx. apply (park_live e); [lia|done|]. apply above_on_path. by rewrite <-Hpc. }
      destruct (ri_anc R q e' Hq Hac He' Hoff) as [H1 H2].
      assert (Hw : live e' → waiting t2 win q e').
      { intros Hx. destruct (H1 Hx) as [? E]. apply Hwait; [done|]. rewrite E. unfold refill_state. by rewrite Hunpopped. }
      rewrite <-Htr in H2 by done. unfold Node.
      destruct (decide (e = 2 * q)) as [->|]; [replace e' with (2 * q + 1) in * by lia; tauto|].
      replace e with (2 * q + 1) in * by lia. replace e' with (2 * q) in * by lia. tauto.
    + assert (Hs : ¬ above q c) by (intros Hx%above_on_path; rewrite <-Hpc in Hx; done).
      destruct (ri_node R q Hq Hs) as (H1&H2&H3&H4). unfold Node. split_and!.
      * intros L1 L2. destruct (H1 L1 L2) as (j&Hj&Hw&Hle&Hst).
        destruct (park_elsewhere q j) as (_&_&E); [done..|]. exists j. by rewrite Htr, E.
      * intros L1 L2. destruct (H2 L1 L2). by apply Hwait.
      * intros L1 L2. destruct (H3 L1 L2). by apply Hwait.
      * intros L1 L2. rewrite Htr by done. auto.
Qed.

Lemma park_not_root : ¬ live 1.
Proof.
  intros H1. pose proof (ri_c R). apply (park_live 1); [lia|done|]. apply above_root. lia.
Qed.

Lemma park : Settled rk (set_tree 0 None t2) win live.
Proof.
  pose proof (ri_c R) as Hc. assert (Hs2 : shaped n t2).
  { subst t2. apply shaped_set_tree, shaped_on_leaf, (ri_shaped R). }
  assert (Htr0 : ∀ q, 1 ≤ q → tr (set_tree 0 None t2) q = tr t2 q).
  { intros q Hq. rewrite (tr_set_tree n) by (done || lia). by rewrite decide_False by lia. }
  assert (Hsame : ∀ q, 1 ≤ q → q ≠ p → same_at rk (set_tree 0 None t2) win q ↔ same_at rk t win q).
  { intros q Hq Hqp. unfold same_at. rewrite Htr0 by done. destruct (park_views q q) as (->&_); done. }
  assert (Hlp : ∀ q, live q → q ≠ p).
  { intros q Hlq ->. apply (park_live p); [done..|]. by apply above_parent. }
  constructor.
  - by apply shaped_set_tree.
  - eapply (slots_same _ t); [|apply (ri_slots R)]. subst t2. solve_same_data.
  - apply (ri_live R).
  - apply (ri_live_dec R).
  - apply (ri_leaf R).
  - intros x Hx Hlx. apply (ri_lt R); [done|apply park_live; [lia|done]|done].
  - intros x Hx Hlx. apply (ri_path R); [done|apply park_live; [lia|done]|done].
  - intros q q' j Hq Hq'. rewrite !Htr0 by lia. intros Hj Hj'.
    assert (Hi : ∀ x, 1 ≤ x < n → x ≠ p → tr t2 x ≠ Some i).
    { intros x Hx Hxp. destruct (park_views x x) as (E&_). rewrite E by done. by apply (ri_fresh R). }
    destruct (park_views q q) as (Eq&Ep&_), (park_views q' q') as (Eq'&_&_).
    destruct (decide (q = p)) as [->|], (decide (q' = p)) as [->|]; try done.
    + rewrite Ep in Hj. simplify_eq. by apply Hi in Hj'.
    + rewrite Ep in Hj'. simplify_eq. by apply Hi in Hj.
    + rewrite Eq in Hj by done. rewrite Eq' in Hj' by done. by eapply (ri_uniq R).
  - intros q Hq. pose proof (park_node q Hq) as HN. unfold Node, Match, waiting in *.
    rewrite Htr0 by lia. exact HN.
  - intros j Hj Hlj Hpj. pose proof (ri_first R j Hj Hlj Hpj) as HF. unfold FirstOK in *.
    rewrite fs_set_tree. destruct (park_views j j) as (_&_&_&_&->). destruct (fs t j) as [q|].
    + destruct HF as (Hq&_&Hlq&Hwq&Hsq&Hmin). split_and!; [lia|lia|done|done|done| |].
      * apply Hsame; [lia|by apply Hlp|done].
      * intros x Hx _ Hlx Hwx. rewrite Hsame by (auto || lia). apply Hmin; try done. apply park_live; [lia|done].
    + intros x Hx _ Hlx Hwx. rewrite Hsame by (auto || lia). apply HF; try done. apply park_live; [lia|done].
  - intros Hl1. by destruct park_not_root.
  - intros _. rewrite (tr_set_tree n) by (done || lia). done.
Qed.
End Park.

Lemma sibling c : 2 ≤ c → ∃ d, 1 ≤ d ∧ d / 2 = c / 2 ∧ d ≠ c.
Proof.
  intros Hc. destruct (decide (c = 2 * (c / 2))); [exists (2 * (c / 2) + 1)|exists (2 * (c / 2))]; lia.
Qed.

Lemma adjust_node_new p i l t :
  shaped n t → p < n → i < n → tr t p = Some l → st t i = WINNER_WITH_NEW_KEY →
  adjust_node first second p i t = (t1 ← AdjustWithNewWinnerKey first second p l i t; Ok (p, t1)).
Proof.
  intros Hs Hp Hi Htr Hst. unfold adjust_node. rewrite (tree_at_ok n), Htr by done. cbn [mbind Result_bind].
  destruct (leaf_at_ok n i t Hs Hi) as (lf&->&_&E&_). cbn [mbind Result_bind]. by rewrite E, Hst.
Qed.
Lemma adjust_node_same p i l t :
  shaped n t → p < n → i < n → tr t p = Some l → st t i = WINNER_WITH_SAME_KEY →
  adjust_node first second p i t = (t1 ← AdjustWithSameWinnerKey second p l i t; Ok (p, t1)).
Proof.
  intros Hs Hp Hi Htr Hst. unfold adjust_node. rewrite (tree_at_ok n), Htr by done. cbn [mbind Result_bind].
  destruct (leaf_at_ok n i t Hs Hi) as (lf&->&_&E&_). cbn [mbind Result_bind]. by rewrite E, Hst.
Qed.

(** The outcome of an adjustment: a settled tree with the same records. *)
Definition adjusted (rk : nat → Rank) (live : nat → Prop) (t : LoserTree) (r : Result LoserTree) : Prop :=
  ∃ t' win', r = Ok t' ∧ Settled rk t' win' live ∧ same_data t t'.

Lemma adjusted_from rk live t t1 r : same_data t t1 → adjusted rk live t1 r → adjusted rk live t r.
Proof. intros Hd (t'&win'&->&HS&Hd'). exists t', win'. split_and!; [done..|]. by transitivity t1. Qed.

(** A round in which the rising leaf meets a popped one. *)
Lemma adjust_new_popped rk live c i d t win fuel :
  Rising rk t win live refill_state c i → st t i = WINNER_WITH_NEW_KEY → is_popped (rk i) = false →
  1 ≤ c / 2 → d / 2 = c / 2 → d ≠ c → (∀ x, 1 ≤ x → live x) → c / 2 + 1 < S fuel →
  is_popped (rk (win d)) = true → (∀ j, j < n → rank_le (rk (win d)) (rk j)) →
  adjusted rk live t (Adjust_loop first second (S fuel) (c / 2) (Some i) t).
Proof.
  intros R Hst Hpi Hp Hd Hne Hall Hfuel Hpl Hmin. pose proof (ri_c R) as Hc.
  assert (Hl : live d) by (apply Hall; lia).
  destruct (rise_loser rk t win live _ c i d (c / 2) (win d) R eq_refl) as [Htr Hstl]; [lia|done..|].
  destruct (rise_distinct rk t win live _ c i d (c / 2) (win d) R eq_refl) as (Hli&Hln&Hin); [lia|done..|].
  unfold refill_state in Hstl. rewrite Hpl in Hstl.
  destruct (new_round_popped rk t (c / 2) i (win d)) as (t1&E&Hplay&Hst1&Hfs1); try done; [apply R|auto|].
  destruct (played_decided rk t t1 (c / 2) i (win d) (win d) i) as (HD&Hw&Hv); [lia|done..|].
  rewrite (loop_step fuel _ i (win d) (win d) t t1); [|lia|done|done|apply Hplay| |done|by rewrite (pl_tr Hplay)|by right].
  2: { rewrite (adjust_node_new _ _ (win d)) by (done || apply R || lia). by rewrite E. }
  assert (HR := rise rk t _ win live _ c i d (c / 2) (win d) (win d) R eq_refl Hp Hd Hne Hl eq_refl HD).
  destruct (coast rk _ _ live _ _ _ HR Hall) as [win' HR'].
  { intros j Hj. split; [by apply Hmin|]. unfold loser_state, refill_state.
    assert (tie (rk (win d)) (rk j) = false) as -> by (by destruct (rk (win d)) as [[? []]|]). done. }
  destruct (Hv (win d)) as [Ev1 Ev2].
  exists (set_tree 0 (Some (win d)) (exchange (c / 2) i t1)), win'. split_and!.
  - destruct (decide (c / 2 / 2 = 0)) as [->|]; [destruct fuel; [lia|done]|].
    destruct (sibling (c / 2)) as (e&He1&He&Hee); [lia|].
    destruct (off_path (c / 2) e) as [Ho _]; [lia|done|lia|done|].
    destruct (ri_anc HR (c / 2 / 2) e) as [Hanc _]; [lia|by apply above_parent|done|done|].
    eapply loop_popped; [lia|lia|done|apply (de_shaped HD)| |congruence|congruence].
    intros _. by apply Hanc, Hall.
  - eapply rising_root; [done|by rewrite Ev1, Hst1|by rewrite Ev1, Hst1, Hpl].
  - transitivity (exchange (c / 2) i t1); [apply (de_data HD)|done].
Qed.

(** A round in which the match waits for another player. *)
Lemma adjust_new_park rk live c i d t win fuel :
  Rising rk t win live refill_state c i → st t i = WINNER_WITH_NEW_KEY →
  1 ≤ c / 2 → d / 2 = c / 2 → d ≠ c → (∀ j, is_popped (rk j) = false) → ¬ live d → 1 ≤ fuel →
  adjusted rk live t (Adjust_loop first second (S fuel) (c / 2) (Some i) t).
Proof.
  intros R Hst Hp Hd Hne Hnone Hl Hf. pose proof (ri_c R) as Hc.
  pose proof (park_empty rk t win live c i d (c / 2) R eq_refl Hp Hd Hne Hl) as Hempty.
  pose proof (park_lt rk t win live c i d (c / 2) R eq_refl Hp Hd Hne Hl) as Hi.
  pose proof (park rk t win live c i d (c / 2) Hnone R eq_refl Hp Hd Hne Hl) as HS.
  eexists _, win. split_and!; [|exact HS|solve_same_data].
  destruct (c / 2) as [|p'] eqn:Ep; [lia|]. cbn [Adjust_loop]. unfold adjust_node.
  rewrite (tree_at_ok n), Hempty by (apply R || lia). cbn [mbind Result_bind].
  assert (Hs1 : shaped n (on_leaf i (set_state LOSER_WITH_NEW_KEY) t)) by apply shaped_on_leaf, (ri_shaped R).
  destruct (leaf_at_ok n i _ Hs1 Hi) as (lf&->&_&E1&_). cbn [mbind Result_bind].
  rewrite E1, (st_set_state n) by (apply R || lia). rewrite decide_True by done. cbn [IsWinner].
  rewrite (tree_at_ok n), tr_on_leaf, Hempty by (done || lia). cbn [mbind Result_bind].
  destruct fuel; [lia|]. cbn [Adjust_loop]. by destruct (S p' / 2).
Qed.

(** A leaf with a new record rises: when the tree is built and when it is
    refilled after a key. *)
Lemma adjust_new rk live c i t win fuel :
  Rising rk t win live refill_state c i → st t i = WINNER_WITH_NEW_KEY → is_popped (rk i) = false →
  (∀ j j', j < n → j' < n → is_popped (rk j) = true → rank_le (rk j) (rk j')) →
  (∀ x, 1 ≤ x → live x) ∨ (∀ j, is_popped (rk j) = false) →
  c / 2 + 1 < fuel →
  adjusted rk live t (Adjust_loop first second fuel (c / 2) (Some i) t).
Proof.
  revert i t win fuel. induction (lt_wf c) as [c _ IH]. intros i t win fuel R Hst Hpi Hmin Hcase Hfuel.
  pose proof (ri_c R) as Hc. destruct fuel as [|fuel]; [lia|].
  destruct (decide (c = 1)) as [->|Hc1].
  { exists (set_tree 0 (Some i) t), win. split_and!; [done| |done].
    eapply rising_root; [done|by rewrite Hst|rewrite Hst, Hpi; done]. }
  destruct (sibling c) as (d&Hd1&Hd&Hne); [lia|].
  destruct (ri_live_dec R d) as [Hl|Hl]; [lia| |].
  2: { destruct Hcase as [Hall|Hnone]; [by destruct Hl; apply Hall|].
       eapply adjust_new_park; [done|done|lia|done|done|done|done|lia]. }
  destruct (rise_loser rk t win live _ c i d (c / 2) (win d) R eq_refl) as [Htr Hstl]; [lia|done..|].
  destruct (rise_distinct rk t win live _ c i d (c / 2) (win d) R eq_refl) as (Hli&Hln&Hin); [lia|done..|].
  destruct (is_popped (rk (win d))) eqn:Hpl.
  { destruct Hcase as [Hall|Hnone]; [|by rewrite Hnone in Hpl].
    eapply (adjust_new_popped _ _ _ _ d); try done; [lia|]. intros j Hj. by apply Hmin. }
  unfold refill_state in Hstl. rewrite Hpl in Hstl.
  destruct (new_round_waiting rk t (c / 2) i (win d)) as (t1&w&o&E&Hplay&Hstw); try done; [apply R|apply R|lia|].
  destruct (played_decided rk t t1 (c / 2) i (win d) w o) as (HD&Hw&Hv); [lia|done..|].
  assert (Hwl : w = i ∨ w = win d) by (destruct (pl_players Hplay) as [[-> _]|[-> _]]; auto).
  rewrite (loop_step fuel _ i (win d) w t t1); [|lia|done|done|apply Hplay| |done|by rewrite (pl_tr Hplay)|done].
  2: { rewrite (adjust_node_new _ _ (win d)) by (done || apply R || lia). by rewrite E. }
  assert (HR := rise rk t _ win live _ c i d (c / 2) (win d) w R eq_refl ltac:(lia) Hd Hne Hl eq_refl HD).
  eapply adjusted_from; [apply (de_data HD)|]. destruct (Hv w) as [Ev _].
  eapply (IH (c / 2)); [lia|exact HR|by rewrite Ev|by destruct Hwl as [->| ->]|done|done|lia].
Qed.

(** ** Draining a key *)

Definition everything (_ : nat) : Prop := True.

Lemma tie_keq k g r : keq k g → tie (Some (k, false)) r = tie (Some (g, false)) r.
Proof.
  intros E. destruct r as [[kr []]|]; cbn; try done. apply eq_true_iff_eq. rewrite !Z.eqb_eq.
  change (keq k kr ↔ keq g kr). by rewrite E.
Qed.

(** A leaf with the current key rises against the losers of the leaf it
    replaces. *)
Lemma adjust_same rk g c i k t win fuel :
  Rising rk t win everything (loser_state (Some (g, false))) c i → st t i = WINNER_WITH_SAME_KEY →
  rk i = Some (k, false) → keq k g →
  (∀ j kj pj, j < n → rk j = Some (kj, pj) → kle g kj) → c / 2 + 1 < fuel →
  adjusted rk everything t (Adjust_loop first second fuel (c / 2) (Some i) t).
Proof.
  revert i k t win fuel. induction (lt_wf c) as [c _ IH]. intros i k t win fuel R Hst Hri Hkg Hmin Hfuel.
  pose proof (ri_c R) as Hc. destruct fuel as [|fuel]; [lia|].
  destruct (decide (c = 1)) as [->|Hc1].
  { exists (set_tree 0 (Some i) t), win. split_and!; [done| |done].
    eapply rising_root; [done|by rewrite Hst|by rewrite Hst, Hri]. }
  destruct (sibling c) as (d&Hd1&Hd&Hne); [lia|].
  destruct (rise_loser rk t win _ _ c i d (c / 2) (win d) R eq_refl) as [Htr Hstl]; [lia|done..|].
  destruct (rise_distinct rk t win _ _ c i d (c / 2) (win d) R eq_refl) as (Hli&Hln&Hin); [lia|done..|].
  assert (Hstl' : st t (win d) = loser_state (rk i) (rk (win d))).
  { rewrite Hstl, Hri. unfold loser_state. by rewrite (tie_keq k g). }
  destruct (same_round rk t (c / 2) i (win d)) as (t1&w&o&E&Hplay&Hstw&Hpw&Hwi); try done;
    [apply R|apply R|lia|by rewrite Hri|by rewrite Hri| |].
  { rewrite Hri. intros Ht. destruct (rk (win d)) as [[kl pl]|] eqn:Erl; [|done].
    pose proof (Hmin _ _ _ Hln Erl). cbn in *. destruct (decide (keq k kl)) as [Ek|Ek].
    - right. split; [done|]. destruct pl; [by left|]. apply Z.eqb_neq in Ht. done.
    - left. destruct (kle_lt_dec kl k) as [|]; [|done]. destruct Ek. korder. }
  destruct (played_decided rk t t1 (c / 2) i (win d) w o) as (HD&Hw&Hv); [lia|done..|].
  assert (Hwl : w = i ∨ w = win d) by (destruct (pl_players Hplay) as [[-> _]|[-> _]]; auto).
  rewrite (loop_step fuel _ i (win d) w t t1); [|lia|done|done|apply Hplay| |done|by rewrite (pl_tr Hplay)|done].
  2: { rewrite (adjust_node_same _ _ (win d)) by (done || apply R || lia). by rewrite E. }
  assert (HR := rise rk t _ win _ _ c i d (c / 2) (win d) w R eq_refl ltac:(lia) Hd Hne I eq_refl HD).
  eapply adjusted_from; [apply (de_data HD)|]. destruct (Hv w) as [Ev _].
  assert (∃ kw, rk w = Some (kw, false) ∧ keq kw g) as (kw&Hrw&Hkw).
  { destruct Hwi as [->|Ht]; [eauto|]. rewrite Hri in Ht. destruct (rk w) as [[kw []]|]; try done.
    exists kw. split; [done|]. cbn in Ht. apply Z.eqb_eq in Ht. change (keq k kw) in Ht. by rewrite <-Ht. }
  eapply (IH (c / 2)); [lia|exact HR|by rewrite Ev|done|done|done|lia].
Qed.

Section FromSettled.
Context (rk : nat → Rank) (t : LoserTree) (win : nat → nat) (S : Settled rk t win everything).

Lemma settled_match p : 1 ≤ p < n → Match rk t win p.
Proof. intros Hp. by apply (se_node S p Hp). Qed.

(** The overall winner wins every match on its path. *)
Lemma settled_root_path x : 1 ≤ x → 1 ≤ n → on_path x (n + win 1) → win x = win 1.
Proof.
  intros Hx Hn. induction (lt_wf x) as [x _ IH]. intros Hpath.
  destruct (decide (x = 1)) as [->|Hx1]; [done|].
  assert (win 1 < n) by (apply (se_lt S); [lia|done]).
  assert (x < 2 * n) by (pose proof (on_path_le _ _ Hx Hpath); lia).
  assert (Hup : win (x / 2) = win 1).
  { apply IH; [lia|lia|]. eapply on_path_trans; [right; by apply above_parent|done]. }
  destruct (settled_match (x / 2)) as (l&Htr&Hw&_); [lia|].
  destruct (sibling x) as (d&Hd1&Hd&Hne); [lia|].
  assert (win x = win (x / 2) ∨ win d = win (x / 2)) as [E|E]; [|by rewrite E|].
  { destruct (decide (x = 2 * (x / 2))) as [E|E].
    - rewrite <-E in Hw. replace (x + 1) with d in Hw by lia. destruct Hw as [[-> _]|[-> _]]; auto.
    - replace (2 * (x / 2) + 1) with x in Hw by lia. replace (2 * (x / 2)) with d in Hw by lia.
      destruct Hw as [[-> _]|[-> _]]; auto. }
  exfalso. apply (siblings_disjoint (x / 2) x d (n + win 1)); [lia|done|done|done|done|].
  rewrite <-Hup, <-E. apply (se_path S); [lia|done].
Qed.

(** The overall winner has the least rank. *)
Lemma settled_min x j : 1 ≤ x < 2 * n → j < n → on_path x (n + j) → rank_le (rk (win x)) (rk j).
Proof.
  intros Hx Hj. remember (2 * n - x) as m eqn:Hm. revert x Hx Hm.
  induction (lt_wf m) as [m _ IH]. intros x Hx Hm [->|Ha].
  { rewrite (se_leaf S) by done. apply rank_le_refl. }
  assert (x < n) by (apply above_on_path, on_path_le in Ha; lia).
  destruct (settled_match x) as (l&Htr&Hw&Hle&_); [lia|].
  assert (∃ y, (y = 2 * x ∨ y = 2 * x + 1) ∧ on_path y (n + j)) as (y&Hy&Hpath).
  { destruct (above_child x (n + j)) as [Hy|Hy]; [lia|done|exists (2 * x)|exists (2 * x + 1)]; auto. }
  assert (Hyj : rank_le (rk (win y)) (rk j)) by (apply (IH (2 * n - y)); [lia|lia|lia|done]).
  assert (win y = win x ∨ win y = l) as [E|E].
  { destruct Hw as [[-> ->]|[-> ->]], Hy as [->| ->]; auto. }
  - by rewrite <-E.
  - rewrite E in Hyj. by eapply rank_le_trans.
Qed.

Lemma settled_root_min j : j < n → rank_le (rk (win 1)) (rk j).
Proof.
  intros Hj. apply settled_min; [lia|done|]. destruct (decide (n + j = 1)) as [->|]; [by left|].
  right. apply above_root. lia.
Qed.

(** The overall winner [w] gets another rank and starts over at node [c] of its
    path. *)
Section Descend.
Context (rk' : nat → Rank) (t0 : LoserTree) (stf : Rank → State) (c : nat).
Context (Hc : 1 ≤ c < 2 * n) (Hpath : on_path c (n + win 1)).
Context (Hrk : ∀ j, j ≠ win 1 → rk' j = rk j) (Hshaped : shaped n t0) (Hslots : slots rk' t0).
Context (Htr : ∀ p, 1 ≤ p → tr t0 p = tr t p) (Hst : ∀ j, j ≠ win 1 → st t0 j = st t j).
Context (Hfs : ∀ j, j ≠ win 1 → fs t0 j = fs t j).
Context (Hstf : ∀ r, loser_state (rk (win 1)) r = stf r).
Context (Hkept : ∀ p l, 1 ≤ p < n → ¬ above p c → win p = win 1 → tr t p = Some l →
  rank_le (rk' (win 1)) (rk l) ∧ st t l = loser_state (rk' (win 1)) (rk l)).
Context (Hfirst : is_popped (rk' (win 1)) = false → c = n + win 1 ∧ fs t0 (win 1) = None).

Lemma descend_root p l : 1 ≤ p < n → tr t p = Some l → l ≠ win 1.
Proof. intros Hp Hl ->. by apply (se_root S I) in Hl. Qed.

Lemma descend_node p : 1 ≤ p < n → ¬ above p c → Node rk' t0 win everything p.
Proof.
  intros Hp Hs. split_and!; try (intros; by unfold everything in *; tauto). intros _ _.
  destruct (settled_match p Hp) as (l&Hl&Hw&Hle&Hstl). pose proof (descend_root p l Hp Hl) as Hlw.
  exists l. rewrite Htr, (Hrk l), (Hst l) by (done || lia). split; [done|]. split; [done|].
  destruct (decide (win p = win 1)) as [E|E]; [rewrite E; by apply (Hkept p)|]. by rewrite Hrk.
Qed.

Lemma descend_anc p d : 1 ≤ p < n → above p c → d / 2 = p → ¬ on_path d c →
  tr t0 p = Some (win d) ∧ st t0 (win d) = stf (rk' (win d)).
Proof.
  intros Hp Ha Hd Hoff. destruct (settled_match p Hp) as (l&Hl&Hw&Hle&Hstl).
  pose proof (descend_root p l Hp Hl) as Hlw.
  assert (Hpp : on_path p (n + win 1)) by (eapply on_path_trans; [by right|done]).
  assert (Ewp : win p = win 1) by (apply settled_root_path; [lia|lia|done]).
  assert (∃ e, e / 2 = p ∧ e ≠ d ∧ on_path e c) as (e&He&Hed&Hec).
  { destruct (above_child p c) as [He|He]; [lia|done|exists (2 * p)|exists (2 * p + 1)];
      (split_and!; [lia|intros <-; done|done]). }
  assert (Ewe : win e = win 1).
  { apply settled_root_path; [lia|lia|]. by eapply on_path_trans. }
  assert (l = win d) as ->.
  { destruct (decide (e = 2 * p)) as [->|].
    - replace (2 * p + 1) with d in Hw by lia. destruct Hw as [[_ ->]|[_ ->]]; [done|congruence].
    - replace (2 * p + 1) with e in Hw by lia. replace (2 * p) with d in Hw by lia.
      destruct Hw as [[_ ->]|[_ ->]]; [congruence|done]. }
  rewrite Htr, Hst, Hrk by (done || lia). split; [done|]. by rewrite Hstl, Ewp, Hstf.
Qed.

Lemma descend_first j : j < n → is_popped (rk' j) = false → FirstOK rk' t0 win everything (λ p, ¬ above p c) j.
Proof.
  intros Hj Hpj. destruct (decide (j = win 1)) as [->|Hj1].
  - destruct (Hfirst Hpj) as [Ec Ef]. unfold FirstOK. rewrite Ef. intros p Hp Hs _ Hw.
    destruct Hs. rewrite Ec. assert (Hpp : on_path p (n + win p)) by (apply (se_path S); [lia|done]).
    rewrite Hw in Hpp. destruct Hpp as [->|?]; [lia|done].
  - rewrite Hrk in Hpj by done. pose proof (se_first S j Hj I Hpj) as HF.
    assert (Hsame : ∀ p, 1 ≤ p < n → win p = j → same_at rk' t0 win p ↔ same_at rk t win p).
    { intros p Hp Hw. unfold same_at. rewrite Htr, Hw, Hrk by (done || lia).
      split; intros (l&Hl&Ht); exists l; (split; [done|]); pose proof (descend_root p l Hp Hl);
        [by rewrite (Hrk l) in Ht by done|by rewrite (Hrk l) by done]. }
    assert (Hset : ∀ p, 1 ≤ p < n → win p = j → ¬ above p c).
    { intros p Hp Hw Ha. apply Hj1. rewrite <-Hw. apply settled_root_path; [lia|lia|].
      eapply on_path_trans; [by right|done]. }
    unfold FirstOK in *. rewrite Hfs by done. destruct (fs t j) as [q|].
    + destruct HF as (Hq&_&_&Hwq&Hsq&Hm). split_and!; [lia|lia|by apply Hset|done|done|by apply Hsame|].
      intros p Hp _ _ Hwp. rewrite Hsame by (done || lia). by apply Hm.
    + intros p Hp _ _ Hwp. rewrite Hsame by done. by apply HF.
Qed.

Lemma descend : Rising rk' t0 win everything stf c (win 1).
Proof.
  constructor; try done.
  - intros x _. by left.
  - apply (se_leaf S).
  - apply settled_root_path; [lia|lia|done].
  - intros x Hx _ _. by apply (se_lt S).
  - intros x Hx _ _. by apply (se_path S).
  - intros p q l Hp Hq. rewrite !Htr by lia. by apply (se_uniq S).
  - intros p Hp. rewrite Htr by lia. by apply (se_root S).
  - apply descend_node.
  - intros p d Hp Ha Hd Hoff. split; [|done]. intros _. by apply descend_anc.
  - intros j Hj _. by apply descend_first.
Qed.
End Descend.
End FromSettled.

(** ** PopWinner *)

Definition updr (rk : nat → Rank) (w : nat) (r : Rank) : nat → Rank :=
  λ j, if decide (j = w) then r else rk j.
Lemma updr_eq rk w r : updr rk w r w = r.
Proof. unfold updr. by rewrite decide_True. Qed.
Lemma updr_ne rk w r j : j ≠ w → updr rk w r j = rk j.
Proof. intros. unfold updr. by rewrite decide_False. Qed.

Lemma pop_views w t j : shaped n t → w < n →
  st (on_leaf w Pop t) j = (if decide (j = w) then WINNER_POPPED else st t j) ∧
  fs (on_leaf w Pop t) j = fs t j ∧
  sl (on_leaf w Pop t) j = (if decide (j = w) then match sl t w with Nullopt => Nullopt | _ => MovedFrom end else sl t j).
Proof.
  intros Hs Hw. unfold st, fs, sl. rewrite leaves_on_leaf. case_decide; [subst|done].
  by destruct (leaf_at_ok n w t Hs Hw) as (lf&_&->&_).
Qed.

(** A match a popped leaf has won against another key stays won. *)
Lemma popped_keeps k r : rank_le (Some (k, false)) r → tie (Some (k, false)) r = false →
  rank_le (Some (k, true)) r ∧ loser_state (Some (k, false)) r = loser_state (Some (k, true)) r.
Proof.
  intros Hle Ht. split; [|unfold loser_state; by rewrite Ht]. destruct r as [[kr []]|]; [|cbn in *|done].
  - destruct Hle as [?|[? _]]; [by left|right]. auto.
  - apply Z.eqb_neq in Ht. destruct Hle as [?|[? _]]; [by left|done].
Qed.

Section Popping.
Context (rk : nat → Rank) (t : LoserTree) (win : nat → nat) (k : KeyValue).
Context (S : Settled rk t win everything) (Hn : 1 ≤ n) (Hk : rk (win 1) = Some (k, false)).

Abbreviation w := (win 1).
Abbreviation rk' := (updr rk w (Some (k, true))).
Abbreviation t0 := (on_leaf w Pop t).

Lemma pop_w : w < n.
Proof. apply (se_lt S); [lia|done]. Qed.
Lemma pop_shaped : shaped n t0.
Proof. apply shaped_on_leaf, S. Qed.
Lemma pop_slots : slots rk' t0.
Proof.
  intros j Hj. destruct (pop_views w t j) as (_&_&->); [apply S|apply pop_w|].
  destruct (decide (j = w)) as [->|Hjw]; [rewrite updr_eq|by rewrite updr_ne by done; apply S].
  destruct (se_slots S w Hj) as [-> Ho]. by rewrite Hk in Ho |- *.
Qed.

Lemma pop_descend c :
  1 ≤ c < 2 * n → on_path c (n + w) →
  (∀ p, 1 ≤ p < n → ¬ above p c → win p = w → ¬ same_at rk t win p) →
  Rising rk' t0 win everything (loser_state (Some (k, false))) c w.
Proof.
  intros Hc Hpath Hno. apply (descend rk t win S); try done.
  - intros j Hj. by apply updr_ne.
  - apply pop_shaped.
  - apply pop_slots.
  - intros j Hj. destruct (pop_views w t j) as (E&_); [apply S|apply pop_w|]. by rewrite E, decide_False.
  - intros j Hj. apply (pop_views w t j); [apply S|apply pop_w].
  - intros r. by rewrite Hk.
  - intros p l Hp Ha Hwp Hl. destruct (settled_match rk t win S p Hp) as (l'&Hl'&_&Hle&Hst).
    assert (l' = l) as -> by congruence. rewrite Hwp, Hk in Hle, Hst.
    assert (Ht : tie (Some (k, false)) (rk l) = false).
    { destruct (tie _ _) eqn:E; [|done]. destruct (Hno p Hp Ha Hwp). exists l. split; [done|]. by rewrite Hwp, Hk. }
    destruct (popped_keeps k (rk l) Hle Ht) as [? E]. rewrite updr_eq. split; [done|congruence].
  - by rewrite updr_eq.
Qed.

Lemma pop_none : fs t w = None → adjusted rk' everything t0 (Adjust first second w t0).
Proof.
  intros Hfs. pose proof pop_w. assert (HF : FirstOK rk t win everything (λ _, True) w).
  { apply (se_first S); [done|done|]. by rewrite Hk. }
  unfold FirstOK in HF. rewrite Hfs in HF.
  assert (R : Rising rk' t0 win everything (loser_state (Some (k, false))) 1 w).
  { apply pop_descend; [lia| |].
    - destruct (decide (n + w = 1)) as [->|]; [by left|right]. apply above_root. lia.
    - intros p Hp _ Hwp. by apply HF. }
  assert (Hst0 : st t0 w = WINNER_POPPED ∧ fs t0 w = None).
  { destruct (pop_views w t w) as (->&->&_); [apply S|done|]. by rewrite decide_True. }
  exists (set_tree 0 (Some w) t0), win. split_and!; [| |done].
  - unfold Adjust. assert (size_ t0 = n) as -> by apply pop_shaped.
    destruct (decide ((w + n) / 2 = 0)) as [->|Hp]; [done|].
    destruct (settled_match rk t win S ((w + n) / 2)) as (l&Hl&_); [lia|].
    eapply loop_popped; [lia|lia|done|apply pop_shaped|done|apply Hst0|apply Hst0].
  - eapply rising_root; [done|by rewrite (proj1 Hst0)|]. rewrite (proj1 Hst0). by rewrite updr_eq.
Qed.

(** The shortcut of [Adjust]: the popped leaf changes places with the leaf at
    its [first_same_key_index]. *)
Definition swap_same (q l : nat) : LoserTree :=
  set_tree q (Some w) (on_leaf l (set_state WINNER_WITH_SAME_KEY) (on_leaf w (set_state LOSER_POPPED) t0)).

Lemma adjust_swap q l : fs t w = Some q → 1 ≤ q < n → l < n → l ≠ w → tr t q = Some l →
  Adjust first second w t0 = Adjust_loop first second n (q / 2) (Some l) (swap_same q l).
Proof.
  intros Hfs Hq Hl Hlw Htr. pose proof pop_w as Hw. pose proof pop_shaped as Hs0.
  unfold Adjust. assert (size_ t0 = n) as -> by apply pop_shaped.
  destruct (settled_match rk t win S ((w + n) / 2)) as (lp&Hlp&_); [lia|].
  destruct ((w + n) / 2) as [|p'] eqn:Ep; [lia|]. cbn [Adjust_loop]. unfold adjust_node.
  rewrite (tree_at_ok n), tr_on_leaf, Hlp by (done || lia). cbn [mbind Result_bind].
  destruct (leaf_at_ok n w t0 Hs0 Hw) as (lf&->&_&E1&E2&_). cbn [mbind Result_bind].
  destruct (pop_views w t w) as (Ev1&Ev2&_); [apply S|done|]. rewrite decide_True in Ev1 by done.
  rewrite E1, E2, Ev1, Ev2, Hfs. cbn [mbind Result_bind].
  rewrite (tree_at_ok n), tr_on_leaf, Htr by (done || lia). cbn [mbind Result_bind].
  set (t1 := on_leaf l _ _). assert (Hs1 : shaped n t1) by (subst t1; eauto with shape).
  destruct (leaf_at_ok n w t1 Hs1 Hw) as (lf1&->&_&E3&_). cbn [mbind Result_bind]. rewrite E3.
  assert (st t1 w = LOSER_POPPED) as ->.
  { subst t1. views n. by rewrite decide_False, decide_True by congruence. }
  cbn [IsWinner]. rewrite (tree_at_ok n) by (done || lia). subst t1. rewrite !tr_on_leaf, Htr. done.
Qed.

Lemma pop_decided q l kl : 1 ≤ q < n → l < n → l ≠ w → tr t q = Some l →
  rk l = Some (kl, false) → keq k kl → decided rk' t0 (swap_same q l) q w l l.
Proof.
  intros Hq Hl Hlw Htr Hrl Hkl. pose proof pop_w as Hw. pose proof pop_shaped as Hs0.
  constructor; unfold swap_same; rewrite ?decide_False by done.
  - eauto with shape.
  - solve_same_data.
  - right. split; [done|]. views n. by rewrite decide_True.
  - intros x Hx. views n. by rewrite decide_False.
  - rewrite updr_ne, updr_eq, Hrl by done. right. split; [korder|by left].
  - cbn zeta. views n. rewrite decide_False, decide_True by congruence. by rewrite updr_eq.
  - intros j Hj Hjl. views n. by rewrite !decide_False by congruence.
  - intros j Hj. by views n.
  - intros _. rewrite updr_ne, updr_eq, Hrl by done. by views n.
Qed.

Lemma pop_same q : fs t w = Some q → adjusted rk' everything t0 (Adjust first second w t0).
Proof.
  intros Hfs. pose proof pop_w as Hw. pose proof pop_shaped as Hs0.
  assert (HF : FirstOK rk t win everything (λ _, True) w).
  { apply (se_first S); [done|done|]. by rewrite Hk. }
  unfold FirstOK in HF. rewrite Hfs in HF. destruct HF as (Hq&_&_&Hwq&(l&Hl&Ht)&Hm).
  assert (Hlw : l ≠ w) by (intros ->; by apply (se_root S I) in Hl).
  rewrite Hwq, Hk in Ht. destruct (rk l) as [[kl []]|] eqn:Hrl; try done.
  apply Z.eqb_eq in Ht. change (keq k kl) in Ht.
  assert (Hqw : on_path q (n + w)) by (rewrite <-Hwq at 1; apply (se_path S); [lia|done]).
  assert (∃ c, c / 2 = q ∧ on_path c (n + w)) as (c&Hcq&Hcw).
  { destruct Hqw as [->|Ha]; [lia|]. destruct (above_child q (n + w)) as [Hx|Hx]; [lia|done|..];
      [exists (2 * q)|exists (2 * q + 1)]; (split; [lia|done]). }
  assert (Hc : 1 ≤ c < 2 * n) by lia.
  assert (R : Rising rk' t0 win everything (loser_state (Some (k, false))) c w).
  { apply pop_descend; [done..|]. intros p Hp Ha Hwp. apply Hm; try done.
    assert (Hpw : on_path p (n + w)) by (rewrite <-Hwp at 1; apply (se_path S); [lia|done]).
    destruct (path_chain p c (n + w)) as [[->|?]|Hcp%on_path_le]; try done; lia. }
  destruct (sibling c) as (d&Hd1&Hd&Hne); [lia|].
  destruct (rise_loser rk' t0 win _ _ c w d q (win d) R) as [Htrd _]; try done; [lia|congruence|].
  rewrite tr_on_leaf, Hl in Htrd. injection Htrd as El.
  assert (Hln : l < n) by (rewrite El; apply (se_lt S); [lia|done]).
  rewrite (adjust_swap q l) by done.
  pose proof (pop_decided q l kl Hq Hln Hlw Hl Hrl Ht) as HD.
  assert (HR := rise rk' t0 _ win _ _ c w d q l l R ltac:(done) ltac:(lia) ltac:(lia) Hne I ltac:(done) HD).
  eapply adjusted_from; [apply (de_data HD)|].
  eapply (adjust_same rk' k q l kl); [exact HR| |by rewrite updr_ne|done| |lia].
  - unfold swap_same. views n. by rewrite decide_True.
  - intros j kj pj Hj Hrj. destruct (decide (j = w)) as [->|Hjw].
    + rewrite updr_eq in Hrj. injection Hrj as <- _. apply kle_refl.
    + rewrite updr_ne in Hrj by done. pose proof (settled_root_min rk t win S j Hj) as Hle.
      rewrite Hk, Hrj in Hle. destruct Hle as [?|[? _]]; korder.
Qed.

Lemma pop_adjusted : adjusted rk' everything t0 (Adjust first second w t0).
Proof. destruct (fs t w) eqn:E; [by eapply pop_same|by apply pop_none]. Qed.
End Popping.

(** ** Reading records into the leaves *)

(** The records a leaf has still to read behind the one it holds. *)
Definition holds (lf : LeafIterator) (rest : list KeyValue) : Prop := ∃ bs its,
  reader lf = reader_of bs ∧
  (iterator lf = None ∧ its = [] ∨ iterator lf = Some (map Ok its)) ∧
  rest = its ++ concat bs ∧
  (end_of_input lf = true → kv lf = Nullopt ∧ rest = [] ∧ iterator lf = None).

Definition contents (t : LoserTree) (rests : nat → list KeyValue) : Prop :=
  ∀ i, i < n → ∃ lf, leaves_ t !! i = Some lf ∧ holds lf (rests i) ∧ Forall (owned i) (rests i).

Lemma holds_data lf lf' rest : data lf = data lf' → holds lf rest → holds lf' rest.
Proof. unfold data, holds. intros E. injection E as E1 E2 E3 E4. by rewrite E1, E2, E3, E4. Qed.

Lemma contents_same t t' rests : same_data t t' → contents t rests → contents t' rests.
Proof.
  intros Hd Hc i Hi. destruct (Hc i Hi) as (lf&Hlf&Hh&Ho).
  assert (E : data <$> leaves_ t !! i = data <$> leaves_ t' !! i) by (rewrite <-!list_lookup_fmap; by f_equal).
  rewrite Hlf in E. destruct (leaves_ t' !! i) as [lf'|]; [|done]. exists lf'. split; [done|]. split; [|done].
  change (Some (data lf) = Some (data lf')) in E. apply (inj Some) in E. by eapply holds_data.
Qed.

(** What [AdvanceIfAvailable] leaves behind. *)
Definition advanced (lf' : LeafIterator) (rest : list KeyValue) : Prop :=
  first_same_key_index lf' = None ∧ state lf' = WINNER_WITH_NEW_KEY ∧
  kv lf' = match rest with [] => Nullopt | k :: _ => Engaged k end ∧
  holds lf' (tail rest).

Lemma advanced_intro e r it rest :
  (∃ bs its, r = reader_of bs ∧ (it = None ∧ its = [] ∨ it = Some (map Ok its)) ∧ tail rest = its ++ concat bs) →
  (e = true → rest = [] ∧ it = None) →
  advanced (mkLeaf e None WINNER_WITH_NEW_KEY r it (match rest with [] => Nullopt | k :: _ => Engaged k end)) rest.
Proof.
  intros (bs&its&Hr&Hit&Ht) He. split_and!; [done..|]. exists bs, its. cbn. split_and!; [done..|].
  intros E. by destruct (He E) as [-> ->].
Qed.

Lemma advance_loop bs : ∃ lf', Advance_loop (reader_of bs) WINNER_WITH_NEW_KEY = Ok lf' ∧ advanced lf' (concat bs).
Proof.
  induction bs as [|[|k b] bs IH]; cbn; [|done|].
  - eexists. split; [done|]. apply (advanced_intro true [] None []); [|done]. exists [], []. auto.
  - eexists. split; [done|]. apply (advanced_intro false _ _ (k :: b ++ concat bs)); [|done]. exists bs, b. auto.
Qed.

Lemma advance_spec lf rest : holds lf rest →
  ∃ lf', AdvanceIfAvailable lf = Ok lf' ∧ advanced lf' rest.
Proof.
  intros (bs&its&Hr&Hit&Hrest&Hend). unfold AdvanceIfAvailable.
  destruct (end_of_input lf) eqn:He.
  - destruct Hend as (Hk&->&Hi); [done|]. rewrite Hi, Hk. eexists. split; [done|].
    apply (advanced_intro true _ _ []); [|done]. exists bs, its. cbn. split_and!; [done| |done].
    left. split; [done|]. by destruct its.
  - destruct its as [|k its].
    + cbn in Hrest. subst rest. rewrite Hr. destruct (advance_loop bs) as (lf'&E&Ha).
      exists lf'. split; [|done]. by destruct Hit as [[-> _]| ->].
    + destruct Hit as [[_ ?]| ->]; [done|]. cbn. eexists. split; [done|]. subst rest. 
      apply (advanced_intro false _ _ (k :: its ++ concat bs)); [|done]. exists bs, its. auto.
Qed.

Definition head_rank (rest : list KeyValue) : Rank :=
  match rest with [] => None | k :: _ => Some (k, false) end.

Lemma head_rank_unpopped rest : is_popped (head_rank rest) = false.
Proof. by destruct rest. Qed.

Definition updl (rests : nat → list KeyValue) (w : nat) (l : list KeyValue) : nat → list KeyValue :=
  λ j, if decide (j = w) then l else rests j.

(** [advance_leaf]: leaf [w] holds its next record, the others are as before. *)
Lemma advance_leaf_spec t rk rests w :
  shaped n t → w < n → contents t rests → slots rk t →
  ∃ t0, advance_leaf w t = Ok t0 ∧ shaped n t0 ∧ (∀ p, tr t0 p = tr t p) ∧
    (∀ j, j ≠ w → st t0 j = st t j ∧ fs t0 j = fs t j) ∧
    st t0 w = WINNER_WITH_NEW_KEY ∧ fs t0 w = None ∧
    slots (updr rk w (head_rank (rests w))) t0 ∧ contents t0 (updl rests w (tail (rests w))).
Proof.
  intros Hs Hw Hc Hsl. destruct (Hc w Hw) as (lf&Hlf&Hh&Ho).
  destruct (advance_spec lf (rests w) Hh) as (lf'&Ea&Hf&Hst&Hkv&Hh').
  unfold advance_leaf, leaf_at. rewrite Hlf. cbn [mbind Result_bind]. rewrite Ea. cbn [mbind Result_bind].
  eexists. split; [done|].
  assert (Hv : ∀ j, leaves_ (on_leaf w (λ _, lf') t) !! j = if decide (j = w) then Some lf' else leaves_ t !! j).
  { intros j. rewrite leaves_on_leaf, Hlf. done. }
  split_and!.
  - by apply shaped_on_leaf.
  - done.
  - intros j Hj. unfold st, fs. by rewrite Hv, decide_False.
  - unfold st. by rewrite Hv, decide_True.
  - unfold fs. by rewrite Hv, decide_True.
  - intros j Hj. unfold sl. rewrite Hv. destruct (decide (j = w)) as [->|Hjw].
    + rewrite updr_eq. cbn. rewrite Hkv. by destruct Ho.
    + rewrite updr_ne by done. by apply Hsl.
  - intros j Hj. rewrite Hv. unfold updl. destruct (decide (j = w)) as [->|Hjw]; [|by apply Hc].
    exists lf'. split_and!; [done..|]. by destruct Ho.
Qed.

(** ** AdjustForNextLoop *)

(** Every run is strictly ascending in its key. *)
Definition ascending (rk : nat → Rank) (rests : nat → list KeyValue) : Prop := ∀ j, j < n →
  match rk j with None => rests j = [] | Some (k, _) => StronglySorted klt (k :: rests j) end.

(** Popped leaves are those of the least key, none of which is left unpopped. *)
Definition popped_min (rk : nat → Rank) : Prop :=
  ∀ j j', j < n → j' < n → is_popped (rk j) = true → rank_le (rk j) (rk j').

Record Ready (rk : nat → Rank) (rests : nat → list KeyValue) (t : LoserTree) (win : nat → nat) : Prop := {
  re_settled : Settled rk t win everything;
  re_contents : contents t rests;
  re_ascending : ascending rk rests
}.

Lemma ascending_tail rk rests w :
  w < n → ascending rk rests →
  ascending (updr rk w (head_rank (rests w))) (updl rests w (tail (rests w))).
Proof.
  intros Hw Ha j Hj. unfold updl. destruct (decide (j = w)) as [->|Hjw]; [|rewrite updr_ne by done; by apply Ha].
  rewrite updr_eq. pose proof (Ha w Hw) as Hs. destruct (rests w) as [|k rest]; [done|]. cbn.
  destruct (rk w) as [[k' p]|]; [|done]. by inversion Hs.
Qed.

Lemma popped_min_tail rk rests w :
  w < n → is_popped (rk w) = true → popped_min rk → ascending rk rests →
  popped_min (updr rk w (head_rank (rests w))).
Proof.
  intros Hw Hpw Hmin Ha j j' Hj Hj' Hpj.
  destruct (decide (j = w)) as [->|Hjw]; [by rewrite updr_eq, head_rank_unpopped in Hpj|].
  rewrite updr_ne in Hpj |- * by done. destruct (decide (j' = w)) as [->|]; [|rewrite updr_ne by done; by apply Hmin].
  rewrite updr_eq. pose proof (Ha w Hw) as Hs. pose proof (Hmin j w Hj Hw Hpj) as Hjw'.
  destruct (rk w) as [[kw []]|]; try done. destruct (rests w) as [|k rest]; [by destruct (rk j) as [[]|]|].
  inversion Hs as [|?? _ Hall]. inversion Hall as [|?? Hlt _]. cbn [head_rank].
  destruct (rk j) as [[kj []]|]; try done. left. destruct Hjw' as [?|[? _]]; korder.
Qed.

Lemma winner_at_ok rk t win : 1 ≤ n → Settled rk t win everything →
  ∃ lf, winner_at t = Ok (win 1, lf) ∧ state lf = st t (win 1) ∧ kv lf = sl t (win 1).
Proof.
  intros Hn S. assert (Hw : win 1 < n) by (apply (se_lt S); [lia|done]).
  unfold winner_at. rewrite (tree_at_ok n) by (apply S || lia). destruct (se_root S I) as (->&_).
  cbn [mbind Result_bind]. destruct (leaf_at_ok n (win 1) t (se_shaped S) Hw) as (lf&->&_&?&_&?).
  cbn [mbind Result_bind]. eauto.
Qed.

(** The popped winner reads its next record and finds its place. *)
Lemma refill rk rests t win :
  1 ≤ n → Ready rk rests t win → popped_min rk → is_popped (rk (win 1)) = true →
  ∃ t0 t' win', advance_leaf (win 1) t = Ok t0 ∧ Adjust first second (win 1) t0 = Ok t' ∧
    Ready (updr rk (win 1) (head_rank (rests (win 1)))) (updl rests (win 1) (tail (rests (win 1)))) t' win'.
Proof.
  intros Hn [S Hc Ha] Hmin Hpw. assert (Hw : win 1 < n) by (apply (se_lt S); [lia|done]).
  destruct (advance_leaf_spec t rk rests (win 1)) as (t0&E0&Hs0&Htr&Hsf&Hst&Hfs&Hsl&Hc0); [apply S|done..|apply S|].
  set (rk1 := updr rk (win 1) (head_rank (rests (win 1)))) in *.
  assert (Hp1 : is_popped (rk1 (win 1)) = false) by (subst rk1; by rewrite updr_eq, head_rank_unpopped).
  assert (R : Rising rk1 t0 win everything refill_state (n + win 1) (win 1)).
  { apply (descend rk t win S); try done; [lia|by left|..].
    - intros j Hj. by apply updr_ne.
    - intros j Hj. by apply Hsf.
    - intros j Hj. by apply Hsf.
    - intros r. unfold loser_state, refill_state. destruct (rk (win 1)) as [[? []]|]; try done.
    - intros p l Hp Hno Hwp. destruct Hno.
      assert (Hpp : on_path p (n + win p)) by (apply (se_path S); [lia|done]).
      rewrite Hwp in Hpp. destruct Hpp as [->|?]; [lia|done]. }
  destruct (adjust_new rk1 everything (n + win 1) (win 1) t0 win (1 + n)) as (t'&win'&E'&S'&Hd); try done.
  { by apply popped_min_tail. }
  { left. done. }
  { lia. }
  exists t0, t', win'. split; [done|]. split.
  - unfold Adjust. destruct Hs0 as (_&_&->). by rewrite Nat.add_comm.
  - split; [done|by eapply contents_same|by apply ascending_tail].
Qed.

(** The leaves after all popped ones have been refilled. *)
Definition refilled_rk (rk : nat → Rank) (rests : nat → list KeyValue) (j : nat) : Rank :=
  if is_popped (rk j) then head_rank (rests j) else rk j.
Definition refilled_rests (rk : nat → Rank) (rests : nat → list KeyValue) (j : nat) : list KeyValue :=
  if is_popped (rk j) then tail (rests j) else rests j.

Lemma popped_min_none rk t win : Settled rk t win everything → popped_min rk → 1 ≤ n →
  is_popped (rk (win 1)) = false → ∀ j, j < n → is_popped (rk j) = false.
Proof.
  intros S Hmin Hn Hroot j Hj. assert (Hw : win 1 < n) by (apply (se_lt S); [lia|done]).
  pose proof (settled_root_min rk t win S j Hj) as H1.
  destruct (is_popped (rk j)) eqn:E; [|done]. pose proof (Hmin j (win 1) Hj Hw E) as H2.
  destruct (rk j) as [[kj []]|], (rk (win 1)) as [[kw []]|]; try done.
  destruct H2 as [H2|[_ [?|[? _]]]]; try done. destruct H1 as [H1|[H1 _]]; korder.
Qed.

Lemma next_loop fuel ps rk rests t win :
  1 ≤ n → Ready rk rests t win → popped_min rk →
  (∀ j, j < n → is_popped (rk j) = true → j ∈ ps) → length ps < fuel →
  ∃ t' win' rk' rests', AdjustForNextLoop_loop first second fuel t = Ok t' ∧ Ready rk' rests' t' win' ∧
    ∀ j, j < n → rk' j = refilled_rk rk rests j ∧ rests' j = refilled_rests rk rests j.
Proof.
  intros Hn. revert ps rk rests t win. induction fuel as [|fuel IH]; intros ps rk rests t win HR Hmin Hps Hf; [lia|].
  pose proof (re_settled _ _ _ _ HR) as S. assert (Hw : win 1 < n) by (apply (se_lt S); [lia|done]).
  cbn [AdjustForNextLoop_loop]. destruct (winner_at_ok rk t win Hn S) as (lf&->&Hst&_).
  cbn [mbind Result_bind fst snd]. rewrite Hst. destruct (se_root S I) as (_&_&_&Hpop).
  destruct (is_popped (rk (win 1))) eqn:Hpw.
  - rewrite decide_True by (by apply Hpop).
    destruct (refill rk rests t win Hn HR Hmin Hpw) as (t0&t1&win1&->&E1&HR1). cbn [mbind Result_bind].
    rewrite E1. cbn [mbind Result_bind].
    destruct (IH (filter (λ j, j ≠ win 1) ps) _ _ _ _ HR1) as (t'&win'&rk'&rests'&E'&HR'&Hj').
    + apply popped_min_tail; [done..|]. apply HR.
    + intros j Hj Hpj. apply list_elem_of_filter. destruct (decide (j = win 1)) as [->|Hne].
      * by rewrite updr_eq, head_rank_unpopped in Hpj.
      * rewrite updr_ne in Hpj by done. auto.
    + pose proof (length_filter_lt (λ j, j ≠ win 1) ps (win 1)) as Hlt.
      assert (win 1 ∈ ps) by (by apply Hps). assert (length (filter (λ j, j ≠ win 1) ps) < length ps); [|lia].
      apply Hlt; [done|]. intros Hx. by apply Hx.
    + exists t', win', rk', rests'. split_and!; [done..|]. intros j Hj. destruct (Hj' j Hj) as [-> ->].
      unfold refilled_rk, refilled_rests, updl. destruct (decide (j = win 1)) as [->|Hne].
      * by rewrite updr_eq, head_rank_unpopped, Hpw.
      * by rewrite updr_ne by done.
  - rewrite decide_False by (intros Hx%Hpop; done). exists t, win, rk, rests. split_and!; [done..|].
    intros j Hj. unfold refilled_rk, refilled_rests. by rewrite (popped_min_none rk t win S Hmin Hn Hpw j Hj).
Qed.

Lemma adjust_for_next_loop rk rests t win :
  1 ≤ n → Ready rk rests t win → popped_min rk →
  ∃ t' win' rk' rests', AdjustForNextLoop first second t = Ok t' ∧ Ready rk' rests' t' win' ∧
    ∀ j, j < n → rk' j = refilled_rk rk rests j ∧ rests' j = refilled_rests rk rests j.
Proof.
  intros Hn HR Hmin. unfold AdjustForNextLoop.
  assert (size_ t = n) as -> by apply (re_settled _ _ _ _ HR).
  apply (next_loop _ (seq 0 n) rk rests t win); [done..| |rewrite length_seq; lia].
  intros j Hj _. apply elem_of_seq. lia.
Qed.

(** ** Draining the records of one key *)

Lemma holds_pop lf rest : holds lf rest → holds (Pop lf) rest.
Proof.
  intros (bs&its&Hr&Hit&Hrest&Hend). exists bs, its. cbn. split_and!; [done..|].
  intros He. destruct (Hend He) as (->&?&?). done.
Qed.

Lemma contents_pop w t rests : contents t rests → contents (on_leaf w Pop t) rests.
Proof.
  intros Hc j Hj. destruct (Hc j Hj) as (lf&Hlf&Hh&Ho). rewrite leaves_on_leaf.
  destruct (decide (j = w)) as [->|]; [|eauto]. rewrite Hlf. eexists. split_and!; [done|by apply holds_pop|done].
Qed.

Lemma peek_spec rk t win : 1 ≤ n → Settled rk t win everything →
  PeekWinner t = Ok (if is_popped (rk (win 1)) then None else fst <$> rk (win 1)).
Proof.
  intros Hn S. assert (Hw : win 1 < n) by (apply (se_lt S); [lia|done]).
  unfold PeekWinner. destruct (winner_at_ok rk t win Hn S) as (lf&->&Hst&Hkv). cbn [mbind Result_bind fst snd].
  rewrite Hst, Hkv. destruct (se_root S I) as (_&_&_&Hpop). destruct (is_popped (rk (win 1))) eqn:E.
  - by rewrite decide_True by (by apply Hpop).
  - rewrite decide_False by (intros Hx%Hpop; done). apply (deref_slot rk t); [apply (se_slots S)|done..].
Qed.

Lemma pop_spec rk rests t win k : 1 ≤ n → Ready rk rests t win → rk (win 1) = Some (k, false) →
  ∃ t' win', PopWinner first second t = Ok (Some k, t') ∧
    Ready (updr rk (win 1) (Some (k, true))) rests t' win'.
Proof.
  intros Hn [S Hc Ha] Hk. assert (Hw : win 1 < n) by (apply (se_lt S); [lia|done]).
  destruct (pop_adjusted rk t win k S Hn Hk) as (t'&win'&E&S'&Hd). exists t', win'. split.
  - unfold PopWinner. destruct (winner_at_ok rk t win Hn S) as (lf&->&Hst&Hkv). cbn [mbind Result_bind fst snd].
    destruct (se_root S I) as (_&_&_&Hpop). rewrite Hst, Hkv, decide_False by (intros Hx%Hpop; by rewrite Hk in Hx).
    rewrite (deref_slot rk t) by (exact (se_slots S) || done || by rewrite Hk). cbn [mbind Result_bind]. by rewrite E, Hk.
  - split; [done|eapply contents_same; [done|by apply contents_pop]|].
    intros j Hj. specialize (Ha j Hj). destruct (decide (j = win 1)) as [->|]; [|by rewrite updr_ne].
    rewrite updr_eq. by rewrite Hk in Ha.
Qed.

(** Popping an exhausted winner ends the iteration. *)
Lemma pop_end rk t win : 1 ≤ n → Settled rk t win everything → rk (win 1) = None →
  ∃ t', PopWinner first second t = Ok (None, t') ∧ PeekWinner t' = Ok None.
Proof.
  intros Hn S Hk. assert (Hw : win 1 < n) by (apply (se_lt S); [lia|done]).
  assert (Hfs : fs t (win 1) = None).
  { assert (HF : FirstOK rk t win everything (λ _, True) (win 1)).
    { apply (se_first S); [done|done|]. by rewrite Hk. }
    unfold FirstOK in HF. destruct (fs t (win 1)) as [q|]; [|done].
    destruct HF as (_&_&_&Hwq&(l&_&Ht)&_). by rewrite Hwq, Hk in Ht. }
  destruct (pop_views (win 1) t (win 1)) as (Hst&Hf&_); [apply S|done|].
  rewrite decide_True in Hst by done. rewrite Hfs in Hf.
  set (t0 := on_leaf (win 1) Pop t) in *. assert (Hs0 : shaped n t0) by apply shaped_on_leaf, S.
  exists (set_tree 0 (Some (win 1)) t0). split.
  - unfold PopWinner. destruct (winner_at_ok rk t win Hn S) as (lf&->&Hstw&Hkv). cbn [mbind Result_bind fst snd].
    destruct (se_root S I) as (_&_&_&Hpop). rewrite Hstw, Hkv, decide_False by (intros Hx%Hpop; by rewrite Hk in Hx).
    rewrite (deref_slot rk t) by (exact (se_slots S) || done || by rewrite Hk). cbn [mbind Result_bind]. rewrite Hk.
    fold t0. unfold Adjust. assert (size_ t0 = n) as -> by apply Hs0.
    destruct (decide ((win 1 + n) / 2 = 0)) as [->|Hp]; [done|].
    destruct (settled_match rk t win S ((win 1 + n) / 2)) as (l&Hl&_); [lia|].
    by rewrite (loop_popped _ _ _ _ l) by (done || lia).
  - unfold PeekWinner, winner_at. rewrite (tree_at_ok n) by (done || by apply shaped_set_tree).
    rewrite (tr_set_tree n), decide_True by done. cbn [mbind Result_bind].
    destruct (leaf_at_ok n (win 1) (set_tree 0 (Some (win 1)) t0)) as (lf&->&_&E&_); [by apply shaped_set_tree|done|].
    cbn [mbind Result_bind snd]. by rewrite E, st_set_tree, decide_True by done.
Qed.

(** The pops of one key: as long as [PeekWinner] shows a record. *)
Inductive pops : LoserTree → list KeyValue → LoserTree → Prop :=
| pops_end t : PeekWinner t = Ok None → pops t [] t
| pops_step t k t1 ks t' k' :
    PeekWinner t = Ok (Some k') → PopWinner first second t = Ok (Some k, t1) →
    pops t1 ks t' → pops t (k :: ks) t'.

(** The records with the key of [g] that are not yet popped. *)
Definition pending (g : KeyValue) (rk : nat → Rank) (j : nat) : list KeyValue :=
  match rk j with
  | Some (k, false) => if (CompareTo k g =? 0)%Z then [k] else []
  | _ => []
  end.
Definition collect {A} (f : nat → list A) : list A := concat (map f (seq 0 n)).

Lemma collect_update {A} (f f' : nat → list A) w l :
  w < n → f w = l ++ f' w → (∀ j, j ≠ w → f' j = f j) → collect f ≡ₚ l ++ collect f'.
Proof.
  intros Hw Hfw Hf. unfold collect. assert (Hin : w ∈ seq 0 n) by (apply elem_of_seq; lia).
  apply list_elem_of_split in Hin as (l1&l2&E). pose proof (NoDup_seq 0 n) as Hnd. rewrite E in Hnd |- *.
  apply NoDup_app in Hnd as (_&Hd&[Hd2 _]%NoDup_cons).
  rewrite !map_app, !concat_app. cbn. rewrite Hfw.
  assert (Hm : ∀ l0, (∀ j, j ∈ l0 → j ≠ w) → map f l0 = map f' l0).
  { intros l0 Hl0. apply map_ext_in. intros j Hj%list_elem_of_In. symmetry. auto. }
  rewrite (Hm l1), (Hm l2).
  - rewrite <-!app_assoc. rewrite Permutation_app_swap_app. done.
  - intros j Hj ->. done.
  - intros j Hj ->. apply (Hd w Hj). by left.
Qed.

Lemma elem_of_collect {A} (f : nat → list A) x : x ∈ collect f ↔ ∃ j, j < n ∧ x ∈ f j.
Proof.
  unfold collect. rewrite list_elem_of_In, in_concat. split.
  - intros (l&Hl&Hx). apply in_map_iff in Hl as (j&<-&Hj). apply in_seq in Hj. exists j.
    split; [lia|by apply list_elem_of_In].
  - intros (j&Hj&Hx). exists (f j). split; [|by apply list_elem_of_In]. apply in_map, in_seq. lia.
Qed.

Lemma collect_ext {A} (f f' : nat → list A) : (∀ j, j < n → f j = f' j) → collect f = collect f'.
Proof. intros Hf. unfold collect. f_equal. apply map_ext_in. intros j Hj%in_seq. apply Hf. lia. Qed.

Lemma pending_inv g rk j x : x ∈ pending g rk j → rk j = Some (x, false) ∧ keq x g.
Proof.
  unfold pending. destruct (rk j) as [[k []]|]; try by intros ?%elem_of_nil.
  destruct (Z.eqb_spec (CompareTo k g) 0); [|by intros ?%elem_of_nil]. by intros ->%list_elem_of_singleton.
Qed.

Lemma pending_length g rk j : length (pending g rk j) ≤ 1.
Proof.
  unfold pending. destruct (rk j) as [[k []]|]; cbn; try lia. destruct (CompareTo k g =? 0)%Z; cbn; lia.
Qed.
Lemma collect_length {A} (f : nat → list A) : (∀ j, length (f j) ≤ 1) → length (collect f) ≤ n.
Proof.
  intros Hf. unfold collect. rewrite <-(length_seq n 0) at 2.
  induction (seq 0 n) as [|j l IH]; cbn; [done|]. rewrite length_app. specialize (Hf j). lia.
Qed.

(** All records with the key of [g] are popped. *)
Definition drained (g : KeyValue) (r : Rank) : Rank :=
  match r with
  | Some (k, false) => if (CompareTo k g =? 0)%Z then Some (k, true) else r
  | _ => r
  end.

Lemma pending_popped_root g k rk t win :
  Settled rk t win everything → rk (win 1) = Some (k, true) → keq k g →
  ∀ j, j < n → pending g rk j = [] ∧ drained g (rk j) = rk j.
Proof.
  intros S Hk Hkg j Hj. unfold pending, drained. destruct (rk j) as [[kj []]|] eqn:Hrj; try done.
  destruct (Z.eqb_spec (CompareTo kj g) 0) as [E|]; [|done]. change (keq kj g) in E.
  pose proof (settled_root_min rk t win S j Hj) as Hle. rewrite Hk, Hrj in Hle.
  destruct Hle as [?|[_ [?|[? _]]]]; try done. exfalso. korder.
Qed.

Lemma collect_nil {A} (f : nat → list A) : (∀ j, j < n → f j = []) → collect f = [].
Proof.
  intros Hf. rewrite (collect_ext f (λ _, [])) by done. unfold collect. clear. by induction (seq 0 n).
Qed.

(** The next pop of the key of [g]. *)
Lemma pending_pop g k rk w : w < n → rk w = Some (k, false) → keq k g →
  let rk1 := updr rk w (Some (k, true)) in
  collect (pending g rk) ≡ₚ k :: collect (pending g rk1) ∧ ∀ j, drained g (rk1 j) = drained g (rk j).
Proof.
  intros Hw Hk Hkg rk1. unfold keq in Hkg. split.
  - apply (collect_update _ _ w [k]); [done| |].
    + unfold pending. subst rk1. by rewrite updr_eq, Hk, Hkg.
    + intros j Hj. unfold pending. subst rk1. by rewrite updr_ne.
  - intros j. subst rk1. destruct (decide (j = w)) as [->|]; [|by rewrite updr_ne].
    rewrite updr_eq, Hk. cbn. by rewrite Hkg.
Qed.

Lemma drain m g rk rests t win :
  1 ≤ n → Ready rk rests t win → (∀ j k p, j < n → rk j = Some (k, p) → kle g k) →
  (∃ j k, j < n ∧ rk j = Some (k, true) ∧ keq k g) → length (collect (pending g rk)) ≤ m →
  ∃ ks t' win' rk', pops t ks t' ∧ Ready rk' rests t' win' ∧ (∀ j, j < n → rk' j = drained g (rk j)) ∧
    ks ≡ₚ collect (pending g rk) ∧ StronglySorted (@kle KeyValue scmp) ks ∧ is_popped (rk' (win' 1)) = true.
Proof.
  intros Hn. revert rk t win. induction m as [|m IH]; intros rk t win HR Hmin (j0&k0&Hj0&Hrk0&Hkg) Hm.
  all: pose proof (re_settled _ _ _ _ HR) as S; assert (Hw : win 1 < n) by (apply (se_lt S); [lia|done]).
  all: pose proof (peek_spec rk t win Hn S) as Hpeek.
  all: pose proof (settled_root_min rk t win S j0 Hj0) as Hroot; rewrite Hrk0 in Hroot.
  all: destruct (rk (win 1)) as [[k p]|] eqn:Hk; [|done].
  all: assert (Hkg' : keq k g) by (pose proof (Hmin _ _ _ Hw Hk); destruct Hroot as [?|[? _]]; korder).
  all: destruct p;
    [pose proof (pending_popped_root g k rk t win S Hk Hkg') as Hnone;
     exists [], t, win, rk; split_and!;
       [by apply pops_end|done|intros j Hj; symmetry; by apply Hnone
       |by rewrite collect_nil by (intros j Hj; by apply Hnone)|constructor|by rewrite Hk]|].
  all: destruct (pending_pop g k rk (win 1) Hw Hk Hkg') as [Hp Hdr].
  { apply Permutation_length in Hp. cbn in Hp. lia. }
  destruct (pop_spec rk rests t win k Hn HR Hk) as (t1&win1&Hpop&HR1).
  set (rk1 := updr rk (win 1) (Some (k, true))) in *.
  destruct (IH rk1 t1 win1 HR1) as (ks&t'&win'&rk'&Hpops&HR'&Hrk'&Hks&Hsort&Hend).
  - intros j kj pj Hj Hrj. subst rk1. destruct (decide (j = win 1)) as [->|].
    + rewrite updr_eq in Hrj. injection Hrj as <- <-. by apply (Hmin (win 1) k false).
    + rewrite updr_ne in Hrj by done. by eapply Hmin.
  - exists (win 1), k. subst rk1. by rewrite updr_eq.
  - apply Permutation_length in Hp. cbn in Hp. lia.
  - exists (k :: ks), t', win', rk'. split_and!; [|done| |by rewrite Hp, Hks| |done].
    + eapply pops_step; [|done|done]. by rewrite Hpeek.
    + intros j Hj. by rewrite Hrk'.
    + constructor; [done|]. apply Forall_forall. intros x Hx. rewrite Hks in Hx.
      apply elem_of_collect in Hx as (j&Hj&[Hrj Hxg]%pending_inv).
      destruct (decide (j = win 1)) as [->|]; [by subst rk1; rewrite updr_eq in Hrj|].
      subst rk1. rewrite updr_ne in Hrj by done.
      pose proof (settled_root_min rk t win S j Hj) as Hle. rewrite Hk, Hrj in Hle.
      destruct Hle as [?|[_ [?|[_ ?]]]]; [|done|done]. exfalso. korder.
Qed.

(** ** One key *)

(** The records of a run that have not been returned yet. *)
Definition remaining (rk : nat → Rank) (rests : nat → list KeyValue) (j : nat) : list KeyValue :=
  match rk j with Some (k, false) => k :: rests j | _ => rests j end.

Lemma remaining_refilled rk rests j : j < n → ascending rk rests →
  remaining (refilled_rk rk rests) (refilled_rests rk rests) j = remaining rk rests j.
Proof.
  intros Hj Ha. unfold remaining, refilled_rk, refilled_rests.
  destruct (rk j) as [[k []]|] eqn:E; cbn; [by destruct (rests j)|done..].
Qed.

Lemma collect_split {A} (f a c : nat → list A) :
  (∀ j, j < n → f j = a j ++ c j) → collect f ≡ₚ collect a ++ collect c.
Proof.
  intros Hf. rewrite (collect_ext f (λ j, a j ++ c j)) by done. unfold collect. clear.
  induction (seq 0 n) as [|x l IH]; cbn; [done|]. rewrite IH, <-!app_assoc. f_equiv.
  apply Permutation_app_swap_app.
Qed.

(** Popping the records of the least key [g] of fully read runs. *)
Lemma drained_remaining g rk rests j :
  is_popped (rk j) = false → remaining rk rests j = pending g rk j ++ remaining (λ j, drained g (rk j)) rests j.
Proof.
  intros Hp. unfold remaining, pending, drained. destruct (rk j) as [[k []]|]; try done.
  by destruct (CompareTo k g =? 0)%Z.
Qed.

Lemma drained_greater g rk rests j x :
  j < n → is_popped (rk j) = false → ascending rk rests → (∀ k p, rk j = Some (k, p) → kle g k) →
  x ∈ remaining (λ j, drained g (rk j)) rests j → klt g x.
Proof.
  intros Hj Hp Ha Hmin. specialize (Ha j Hj). unfold remaining, drained.
  destruct (rk j) as [[k []]|]; try done; [|rewrite Ha; by intros ?%elem_of_nil].
  specialize (Hmin k false eq_refl). inversion Ha as [|?? _ Hall]; subst. rewrite Forall_forall in Hall.
  destruct (Z.eqb_spec (CompareTo k g) 0) as [E|E].
  - intros Hx%Hall. change (keq k g) in E. korder.
  - assert (klt g k) by (destruct (kle_lt_dec k g); [|done]; destruct E; korder).
    intros [->|Hx%Hall]%elem_of_cons; korder.
Qed.

Lemma popped_min_drained g rk :
  (∀ j k p, j < n → rk j = Some (k, p) → kle g k) → (∀ j k, j < n → rk j = Some (k, true) → keq k g) →
  popped_min (λ j, drained g (rk j)).
Proof.
  intros Hmin Hpop j j' Hj Hj' Hpj.
  assert (∃ k, drained g (rk j) = Some (k, true) ∧ keq k g) as (k&->&Hk).
  { specialize (Hpop j). unfold drained in *. destruct (rk j) as [[k []]|]; try done; [eauto|].
    destruct (Z.eqb_spec (CompareTo k g) 0); [eauto|done]. }
  specialize (Hmin j'). specialize (Hpop j'). unfold drained. destruct (rk j') as [[k' p']|]; [|done].
  specialize (Hmin k' p' Hj' eq_refl). destruct p'.
  - right. specialize (Hpop k' Hj' eq_refl). split; [korder|by left].
  - destruct (Z.eqb_spec (CompareTo k' g) 0) as [E|E].
    + change (keq k' g) in E. right. split; [korder|by left].
    + left. destruct (kle_lt_dec k' k); [|done]. destruct E. korder.
Qed.

Lemma popped_min_ext rk rk' : (∀ j, j < n → rk' j = rk j) → popped_min rk → popped_min rk'.
Proof. intros E Hm j j' Hj Hj'. rewrite !E by done. by apply Hm. Qed.

Lemma remaining_ext rk rk' rests rests' :
  (∀ j, j < n → rk' j = rk j ∧ rests' j = rests j) →
  collect (remaining rk' rests') = collect (remaining rk rests).
Proof. intros E. apply collect_ext. intros j Hj. unfold remaining. by destruct (E j Hj) as [-> ->]. Qed.

(** The runs are exhausted, or the records of the least key [k] are popped in
    ascending sequence order and all greater keys remain. *)
Definition key_popped (rk : nat → Rank) (rests : nat → list KeyValue) (t1 : LoserTree) : Prop :=
  ∃ k ks t2 t3 win' rk' rests',
    PopWinner first second t1 = Ok (Some k, t2) ∧ pops t2 ks t3 ∧ size_ t2 = n ∧ length ks < n ∧
    Ready rk' rests' t3 win' ∧ popped_min rk' ∧ is_popped (rk' (win' 1)) = true ∧
    collect (remaining rk rests) ≡ₚ (k :: ks) ++ collect (remaining rk' rests') ∧
    StronglySorted (@kle KeyValue scmp) (k :: ks) ∧ Forall (keq k) ks ∧
    Forall (klt k) (collect (remaining rk' rests')).

Lemma pop_key rk rests t win k :
  1 ≤ n → Ready rk rests t win → (∀ j, j < n → is_popped (rk j) = false) →
  rk (win 1) = Some (k, false) → key_popped rk rests t.
Proof.
  intros Hn HR Hunp Hk. pose proof (re_settled _ _ _ _ HR) as S. pose proof (re_ascending _ _ _ _ HR) as Ha.
  assert (Hw : win 1 < n) by (apply (se_lt S); [lia|done]).
  assert (Hroot : ∀ j kj pj, j < n → rk j = Some (kj, pj) → kle k kj).
  { intros j kj pj Hj Hrj. pose proof (settled_root_min rk t win S j Hj) as Hle. rewrite Hk, Hrj in Hle.
    destruct Hle as [?|[? _]]; korder. }
  destruct (pop_spec rk rests t win k Hn HR Hk) as (t2&win2&Hpop&HR2).
  destruct (pending_pop k k rk (win 1) Hw Hk (reflexivity k)) as [Hp Hdr].
  set (rk1 := updr rk (win 1) (Some (k, true))) in *.
  destruct (drain (length (collect (pending k rk1))) k rk1 rests t2 win2 Hn HR2)
    as (ks&t3&win3&rk3&Hpops&HR3&Hrk3&Hks&Hsort&Hend); [| |done|].
  { intros j kj pj Hj Hrj. subst rk1. destruct (decide (j = win 1)) as [->|].
    - rewrite updr_eq in Hrj. injection Hrj as <- <-. apply kle_refl.
    - rewrite updr_ne in Hrj by done. by eapply Hroot. }
  { exists (win 1), k. subst rk1. by rewrite updr_eq. }
  assert (Hrk3' : ∀ j, j < n → rk3 j = drained k (rk j)) by (intros j Hj; by rewrite Hrk3, Hdr).
  assert (Hin : ∀ x, x ∈ ks → ∃ j, j < n ∧ rk j = Some (x, false) ∧ keq x k).
  { intros x Hx. assert (Hx' : x ∈ collect (pending k rk)) by (rewrite Hp, <-Hks; by right).
    apply elem_of_collect in Hx' as (j&Hj&[? ?]%pending_inv). eauto. }
  assert (Hrest : collect (remaining rk3 rests) = collect (remaining (λ j, drained k (rk j)) rests)).
  { apply remaining_ext. intros j Hj. by rewrite Hrk3'. }
  exists k, ks, t2, t3, win3, rk3, rests. split_and!; try done.
  - apply (se_shaped (re_settled _ _ _ _ HR2)).
  - pose proof (collect_length (pending k rk) (pending_length k rk)) as Hlen.
    apply Permutation_length in Hp, Hks. cbn in Hp. lia.
  - eapply popped_min_ext; [exact Hrk3'|]. apply popped_min_drained; [done|].
    intros j kj Hj Hrj. specialize (Hunp j Hj). by rewrite Hrj in Hunp.
  - rewrite Hrest, (collect_split _ (pending k rk) (remaining (λ j, drained k (rk j)) rests)).
    + by rewrite Hp, <-Hks.
    + intros j Hj. by apply drained_remaining, Hunp.
  - constructor; [done|]. apply Forall_forall. intros x (j&Hj&Hrj&Hxk)%Hin.
    pose proof (settled_root_min rk t win S j Hj) as Hle. rewrite Hk, Hrj in Hle.
    destruct Hle as [?|[_ [?|[_ ?]]]]; [|done|done]. exfalso. korder.
  - apply Forall_forall. intros x (j&_&_&?)%Hin. by symmetry.
  - rewrite Hrest. apply Forall_forall. intros x (j&Hj&Hx)%elem_of_collect.
    eapply drained_greater; [done|by apply Hunp|done| |exact Hx]. intros. by eapply Hroot.
Qed.

Lemma key_round rk rests t win :
  1 ≤ n → Ready rk rests t win → popped_min rk →
  ∃ t1, AdjustForNextLoop first second t = Ok t1 ∧
    (collect (remaining rk rests) = [] ∧
       (∃ t2, PopWinner first second t1 = Ok (None, t2) ∧ PeekWinner t2 = Ok None) ∨
     key_popped rk rests t1).
Proof.
  intros Hn HR Hmin. destruct (adjust_for_next_loop rk rests t win Hn HR Hmin) as (t1&win1&rk1&rests1&E1&HR1&Hj1).
  exists t1. split; [done|]. pose proof (re_settled _ _ _ _ HR1) as S1.
  assert (Hw : win1 1 < n) by (apply (se_lt S1); [lia|done]).
  assert (Hunp : ∀ j, j < n → is_popped (rk1 j) = false).
  { intros j Hj. destruct (Hj1 j Hj) as [-> _]. unfold refilled_rk.
    destruct (is_popped (rk j)) eqn:E; [apply head_rank_unpopped|done]. }
  assert (Hrem : collect (remaining rk rests) = collect (remaining rk1 rests1)).
  { apply collect_ext. intros j Hj. rewrite <-(remaining_refilled rk rests j Hj) by apply HR.
    unfold remaining. by destruct (Hj1 j Hj) as [-> ->]. }
  destruct (rk1 (win1 1)) as [[k []]|] eqn:Hk.
  - specialize (Hunp _ Hw). by rewrite Hk in Hunp.
  - right. pose proof (pop_key rk1 rests1 t1 win1 k Hn HR1 Hunp Hk) as Hkey. unfold key_popped in *.
    by rewrite Hrem.
  - left. split; [|by apply (pop_end rk1 t1 win1)]. rewrite Hrem. apply collect_nil. intros j Hj.
    pose proof (settled_root_min rk1 t1 win1 S1 j Hj) as Hle. rewrite Hk in Hle.
    pose proof (re_ascending _ _ _ _ HR1 j Hj) as Ha. unfold remaining.
    destruct (rk1 j) as [[]|]; [done|by rewrite Ha].
Qed.

(** ** Initialisation *)

(** Node [x] is live once all leaves below it, from [b] on, have been read. *)
Definition live_from (b x : nat) : Prop := ∀ j, j < n → on_path x (n + j) → b ≤ j.

Lemma live_from_node b p : 1 ≤ p < n → live_from b p ↔ live_from b (2 * p) ∧ live_from b (2 * p + 1).
Proof.
  intros Hp. split.
  - intros H. split; intros j Hj Hpath; (apply H; [done|]); right; (eapply child_above; [|done]); lia.
  - intros [H1 H2] j Hj [->|Ha]; [lia|]. destruct (above_child p (n + j)); [lia|done|auto..].
Qed.

Lemma live_from_dec b x : 1 ≤ x → live_from b x ∨ ¬ live_from b x.
Proof.
  intros Hx. unfold live_from.
  assert (H : ∀ m, (∀ j, j < m → on_path x (n + j) → b ≤ j) ∨ ¬ (∀ j, j < m → on_path x (n + j) → b ≤ j)).
  { induction m as [|m IH]; [left; lia|]. destruct IH as [IH|IH]; [|right; intros H; apply IH; auto with lia].
    destruct (on_path_dec x (n + m) Hx) as [Hp|Hp].
    - destruct (decide (b ≤ m)) as [Hb|Hb]; [left|right; intros H; apply Hb; auto with lia].
      intros j Hj Hpj. destruct (decide (j = m)) as [->|]; [done|]. apply IH; [lia|done].
    - left. intros j Hj Hpj. destruct (decide (j = m)) as [->|]; [done|]. apply IH; [lia|done]. }
  apply H.
Qed.

Lemma leaf_below x : 1 ≤ x < 2 * n → ∃ j, j < n ∧ on_path x (n + j).
Proof.
  intros Hx. remember (2 * n - x) as m eqn:Hm. revert x Hx Hm. induction (lt_wf m) as [m _ IH]. intros x Hx Hm.
  destruct (decide (n ≤ x)); [exists (x - n); split; [lia|left; lia]|].
  destruct (IH (2 * n - 2 * x)) with (2 * x) as (j&Hj&Hpath); [lia..|]. exists j. split; [done|].
  right. eapply child_above; [|done]. lia.
Qed.

Lemma leaf_path i j : i < n → j < n → on_path (n + i) (n + j) → i = j.
Proof. intros Hi Hj [?|Ha%above_on_path]; [lia|]. apply on_path_le in Ha; lia. Qed.

Section Plant.
Context (rk : nat → Rank) (t t0 : LoserTree) (win : nat → nat) (i : nat) (r : Rank) (Hi : i < n).
Context (S : Settled rk t win (live_from (1 + i))).
Context (Hunp : ∀ j, is_popped (rk j) = false).
Context (Hshaped : shaped n t0) (Hslots : slots (updr rk i r) t0) (Htr : ∀ p, tr t0 p = tr t p).
Context (Hother : ∀ j, j ≠ i → st t0 j = st t j ∧ fs t0 j = fs t j) (Hfs : fs t0 i = None).

Lemma plant_live x : ¬ on_path x (n + i) → live_from i x ↔ live_from (1 + i) x.
Proof.
  intros Hno. split; intros H j Hj Hpath; specialize (H j Hj Hpath); [|lia].
  assert (j ≠ i) by (by intros ->). lia.
Qed.
Lemma plant_dead x : on_path x (n + i) → ¬ live_from (1 + i) x.
Proof. intros Hpath H. specialize (H i Hi Hpath). lia. Qed.

(** Leaves that win or wait somewhere have been read before. *)
Lemma plant_win x : 1 ≤ x < 2 * n → live_from (1 + i) x → win x ≠ i.
Proof. intros Hx Hl E. apply (plant_dead x); [|done]. rewrite <-E. by apply (se_path S). Qed.
Lemma plant_tr p l : 1 ≤ p < n → tr t p = Some l → l ≠ i.
Proof.
  intros Hp Hl. destruct (se_node S p Hp) as (H1&H2&H3&H4).
  destruct (live_from_dec (1 + i) (2 * p)) as [L1|L1]; [lia| |];
    (destruct (live_from_dec (1 + i) (2 * p + 1)) as [L2|L2]; [lia| |]).
  - destruct (H1 L1 L2) as (l'&Hl'&Hw&_). assert (l' = l) as -> by congruence.
    destruct Hw as [[_ ->]|[_ ->]]; (apply plant_win; [lia|done]).
  - destruct (H2 L1 L2) as [E _]. assert (l = win (2 * p)) as -> by congruence. apply plant_win; [lia|done].
  - destruct (H3 L1 L2) as [E _]. assert (l = win (2 * p + 1)) as -> by congruence. apply plant_win; [lia|done].
  - rewrite (H4 L1 L2) in Hl. done.
Qed.
Lemma plant_st p l : 1 ≤ p < n → tr t p = Some l → st t0 l = st t l.
Proof. intros Hp Hl. apply Hother. by eapply plant_tr. Qed.

Lemma plant_node p : 1 ≤ p < n → ¬ above p (n + i) → Node (updr rk i r) t0 win (live_from i) p.
Proof.
  intros Hp Hno. assert (Hc : ∀ d, d / 2 = p → live_from i d ↔ live_from (1 + i) d).
  { intros d Hd. apply plant_live. intros Hx. by eapply Hno, child_above. }
  destruct (se_node S p Hp) as (H1&H2&H3&H4).
  unfold Node, waiting. rewrite !Htr, !Hc by lia. split_and!; [| | |done].
  - intros L1 L2. destruct (H1 L1 L2) as (l&Hl&Hw&Hle&Hst). exists l.
    rewrite Htr, (plant_st p l) by done. rewrite (updr_ne _ _ _ l) by (by eapply plant_tr).
    rewrite (updr_ne _ _ _ (win p)); [done|]. apply plant_win; [lia|]. by apply live_from_node.
  - intros L1 L2. destruct (H2 L1 L2) as [E Es]. by rewrite (plant_st p).
  - intros L1 L2. destruct (H3 L1 L2) as [E Es]. by rewrite (plant_st p).
Qed.

Lemma plant_anc p d : 1 ≤ p < n → above p (n + i) → d / 2 = p → ¬ on_path d (n + i) →
  (live_from i d → tr t0 p = Some (win d) ∧ st t0 (win d) = refill_state (updr rk i r (win d))) ∧
  (¬ live_from i d → tr t0 p = None).
Proof.
  intros Hp Ha Hd Hoff. rewrite plant_live, Htr by done.
  assert (Hw : live_from (1 + i) d → waiting t win p d → tr t p = Some (win d) ∧ st t0 (win d) = refill_state (updr rk i r (win d))).
  { intros L [E Es]. split; [done|]. rewrite (plant_st p) by done. rewrite updr_ne by (apply plant_win; [lia|done]).
    unfold refill_state. by rewrite Hunp. }
  destruct (se_node S p Hp) as (_&H2&H3&H4). destruct (above_child p (n + i)) as [He|He]; [lia|done| |].
  - assert (d = 2 * p + 1) as -> by (assert (d ≠ 2 * p) by (by intros ->); lia).
    pose proof (plant_dead _ He). auto.
  - assert (d = 2 * p) as -> by (assert (d ≠ 2 * p + 1) by (by intros ->); lia).
    pose proof (plant_dead _ He). auto.
Qed.

Lemma plant_first j : j < n → live_from i (n + j) →
  FirstOK (updr rk i r) t0 win (live_from i) (λ p, ¬ above p (n + i)) j.
Proof.
  intros Hj Hlj. assert (i ≤ j) by (apply Hlj; [done|by left]).
  assert (Hl : ∀ p, 1 ≤ p < n → ¬ above p (n + i) → live_from i p → live_from (1 + i) p).
  { intros p Hp Hno. apply plant_live. intros [->|?]; [lia|done]. }
  destruct (decide (j = i)) as [->|Hji].
  - unfold FirstOK. rewrite Hfs. intros p Hp Hno Hlp Hwp. exfalso.
    apply (plant_win p); [lia|by apply Hl|done].
  - assert (HF : FirstOK rk t win (live_from (1 + i)) (λ _, True) j).
    { apply (se_first S); [done| |done]. intros j' Hj' Hp'. apply leaf_path in Hp'; lia. }
    assert (Hsame : ∀ p, 1 ≤ p < n → win p = j → same_at (updr rk i r) t0 win p ↔ same_at rk t win p).
    { intros p Hp Hw. unfold same_at. rewrite Htr, Hw, (updr_ne _ _ _ j) by done.
      split; intros (l&Hl'&Ht); exists l; (split; [done|]); pose proof (plant_tr p l Hp Hl');
        [by rewrite updr_ne in Ht|by rewrite updr_ne]. }
    assert (Hset : ∀ p, live_from (1 + i) p → ¬ above p (n + i)).
    { intros p Hlp Ha. apply (plant_dead p); [by right|done]. }
    assert (Hmono : ∀ p, live_from (1 + i) p → live_from i p).
    { intros p Hlp j' Hj' Hp'. specialize (Hlp j' Hj' Hp'). lia. }
    unfold FirstOK in *. rewrite (proj2 (Hother j Hji)). destruct (fs t j) as [q|].
    + destruct HF as (Hq&_&Hlq&Hwq&Hsq&Hm). split_and!; [lia|lia|by apply Hset|by apply Hmono|done|by apply Hsame|].
      intros p Hp Hno Hlp Hwp. rewrite Hsame by (done || lia). apply Hm; try done. apply Hl; [lia|done..].
    + intros p Hp Hno Hlp Hwp. rewrite Hsame by done. apply HF; try done. by apply Hl.
Qed.

Lemma plant : Rising (updr rk i r) t0 win (live_from i) refill_state (n + i) i.
Proof.
  assert (Hlive : ∀ x, 1 ≤ x < 2 * n → ¬ above x (n + i) → live_from i x → x = n + i ∨ live_from (1 + i) x).
  { intros x Hx Hno Hl. destruct (decide (x = n + i)); [by left|right]. apply plant_live; [|done].
    intros [?|?]; done. }
  constructor; try done.
  - intros p Hp. by apply live_from_node.
  - apply live_from_dec.
  - apply (se_leaf S).
  - lia.
  - by apply (se_leaf S).
  - intros j Hj Hp. apply leaf_path in Hp; [lia|done..].
  - intros x Hx Hno Hl. destruct (Hlive x Hx Hno Hl) as [->|?]; [by rewrite (se_leaf S)|by apply (se_lt S)].
  - intros x Hx Hno Hl. destruct (Hlive x Hx Hno Hl) as [->|?]; [rewrite (se_leaf S) by done; by left|by apply (se_path S)].
  - intros p q l Hp Hq. rewrite !Htr. by apply (se_uniq S).
  - intros p Hp. rewrite Htr. intros E. by apply (plant_tr p i).
  - apply plant_node.
  - apply plant_anc.
  - intros j Hj Hl _. by apply plant_first.
Qed.
End Plant.

Lemma live_from_top x : 1 ≤ x < 2 * n → ¬ live_from n x.
Proof. intros Hx H. destruct (leaf_below x Hx) as (j&Hj&Hp). specialize (H j Hj Hp). lia. Qed.

Lemma initialize_loop b rk rests t win (runs : nat → list KeyValue) :
  b ≤ n → Settled rk t win (live_from b) → contents t rests → (∀ j, is_popped (rk j) = false) →
  (∀ j, j < n → if decide (b ≤ j) then rk j = head_rank (runs j) ∧ rests j = tail (runs j) else rests j = runs j) →
  ∃ t' win' rk' rests', Initialize_loop first second b t = Ok t' ∧ Settled rk' t' win' (live_from 0) ∧
    contents t' rests' ∧ ∀ j, j < n → rk' j = head_rank (runs j) ∧ rests' j = tail (runs j).
Proof.
  revert rk rests t win. induction b as [|i IH]; intros rk rests t win Hb S Hc Hunp Hruns.
  { by exists t, win, rk, rests. }
  assert (Hi : i < n) by lia. cbn [Initialize_loop].
  destruct (advance_leaf_spec t rk rests i (se_shaped S) Hi Hc (se_slots S))
    as (t0&->&Hs0&Htr&Hsf&Hst&Hfs&Hsl&Hc0). cbn [mbind Result_bind].
  assert (Hri : rests i = runs i).
  { specialize (Hruns i Hi). by rewrite decide_False in Hruns by lia. }
  pose proof (head_rank_unpopped (rests i)) as Hr.
  assert (R := plant rk t t0 win i (head_rank (rests i)) Hi S Hunp Hs0 Hsl Htr Hsf Hfs).
  set (rk1 := updr rk i (head_rank (rests i))) in *.
  assert (Hunp1 : ∀ j, is_popped (rk1 j) = false).
  { intros j. subst rk1. unfold updr. by case_decide. }
  destruct (adjust_new rk1 (live_from i) (n + i) i t0 win (1 + n)) as (t1&win1&E1&S1&Hd1);
    [done|done|done| |by right|lia|].
  { intros j j' _ _ Hpj. by rewrite Hunp1 in Hpj. }
  assert (Adjust first second i t0 = Ok t1) as ->.
  { unfold Adjust. assert (size_ t0 = n) as -> by apply Hs0. rewrite (Nat.add_comm i n). exact E1. }
  cbn [mbind Result_bind].
  apply (IH rk1 (updl rests i (tail (rests i))) t1 win1); [lia|done|by eapply contents_same|done|].
  intros j Hj. specialize (Hruns j Hj). subst rk1. unfold updl, updr.
  destruct (decide (j = i)) as [->|]; [by rewrite Hri, decide_True by lia|].
  destruct (decide (i ≤ j)); [rewrite decide_True in Hruns by lia|rewrite decide_False in Hruns by lia]; done.
Qed.

Lemma settled_everything rk t win live : (∀ x, live x) → Settled rk t win live → Settled rk t win everything.
Proof.
  intros Hall [A1 A2 A3 A4 A5 A6 A7 A8 A9 A10 A11 A12]. constructor; try done; eauto.
  - intros x _. by left.
  - intros p Hp. destruct (A9 p Hp) as (HM&_). unfold Node, everything.
    split_and!; [intros _ _; by apply HM|intros _ Hx; by destruct Hx|intros Hx; by destruct Hx|intros Hx; by destruct Hx].
  - intros j Hj _ Hpj. specialize (A10 j Hj (Hall _) Hpj). unfold FirstOK in *. destruct (fs t j) as [q|].
    + destruct A10 as (?&_&_&?&?&Hm). split_and!; try done; [lia|lia|]. intros p Hp _ _. by apply Hm.
    + intros p Hp _ _. by apply A10.
Qed.

(** [initialized_] plays no role in the invariant. *)
Lemma settled_flag rk t win live f :
  Settled rk t win live → Settled rk (mkTree (size_ t) f (tree_ t) (leaves_ t)) win live.
Proof. by intros [A1 A2 A3 A4 A5 A6 A7 A8 A9 A10 A11 A12]; constructor. Qed.

Definition empty_tree (readers : list RecordReader) : LoserTree :=
  mkTree (length readers) false (replicate (length readers) None) (new_leaf <$> readers).

Lemma empty_settled readers : length readers = n → 1 ≤ n →
  Settled (λ _, None) (empty_tree readers) (λ x, x - n) (live_from n).
Proof.
  intros Hlen Hn. constructor.
  - split_and!; cbn; by rewrite ?length_replicate, ?length_fmap.
  - intros i Hi. split; [|done]. unfold sl. cbn. rewrite list_lookup_fmap. by destruct (readers !! i).
  - intros p Hp. by apply live_from_node.
  - apply live_from_dec.
  - intros j Hj. lia.
  - intros x Hx Hl. by apply live_from_top in Hl.
  - intros x Hx Hl. by apply live_from_top in Hl.
  - intros p q l Hp Hq. unfold tr. cbn. rewrite lookup_replicate_2 by lia. done.
  - intros p Hp. assert (∀ d, d / 2 = p → ¬ live_from n d) as Hd by (intros d Hd; apply live_from_top; lia).
    pose proof (Hd (2 * p) ltac:(lia)). pose proof (Hd (2 * p + 1) ltac:(lia)).
    split_and!; try done. intros _ _. unfold tr. cbn. by rewrite lookup_replicate_2 by lia.
  - intros j Hj Hl. exfalso. apply (live_from_top (n + j)); [lia|done].
  - intros Hl. exfalso. apply (live_from_top 1); [lia|done].
  - intros _. unfold tr. cbn. by rewrite lookup_replicate_2 by lia.
Qed.

(** ** The contract of the tree *)

Ltac inv_ok :=
  repeat match goal with
  | H : (_ ≫= _) = Ok _ |- _ => apply bind_Ok in H; destruct H as (?&?&H)
  | H : Ok _ = Ok _ |- _ => apply Ok_inj in H
  | H : Err _ _ = Ok _ |- _ => discriminate H
  | H : (_, _) = (_, _) |- _ => apply pair_eq in H; destruct H
  | H : (if ?b then _ else _) = Ok _ |- _ => destruct b eqn:?
  | H : match ?x with _ => _ end = Ok _ |- _ => destruct x eqn:?
  end.

Lemma adjust_node_flag p i t q t' : adjust_node first second p i t = Ok (q, t') → initialized_ t' = initialized_ t.
Proof.
  unfold adjust_node, AdjustWithNewWinnerKey, AdjustWithSameWinnerKey. intros H. inv_ok; by subst.
Qed.
Lemma adjust_loop_flag fuel p w t t' :
  Adjust_loop first second fuel p w t = Ok t' → initialized_ t' = initialized_ t.
Proof.
  revert p w t. induction fuel as [|fuel IH]; intros p w t; cbn [Adjust_loop]; [done|].
  destruct p as [|p]; [by intros [= <-]|]. destruct w as [w|]; [|by intros [= <-]].
  intros ([q t1]&E1%adjust_node_flag&H)%bind_Ok. rewrite <-E1.
  inv_ok; [by eapply IH|]. by apply IH in H.
Qed.
Lemma adjust_flag w t t' : Adjust first second w t = Ok t' → initialized_ t' = initialized_ t.
Proof. apply adjust_loop_flag. Qed.
Lemma pop_flag t k t' : PopWinner first second t = Ok (k, t') → initialized_ t' = initialized_ t.
Proof.
  unfold PopWinner. intros (w&_&H)%bind_Ok. destruct (decide _); [by injection H as _ <-|].
  apply bind_Ok in H as (r&_&H). apply bind_Ok in H as (t1&E%adjust_flag&H). by injection H as _ <-.
Qed.
Lemma pops_flag t ks t' : pops t ks t' → initialized_ t' = initialized_ t.
Proof. induction 1 as [|t k t1 ks t' k' _ Hp%pop_flag _ IH]; [done|congruence]. Qed.
Lemma next_loop_flag t t' : AdjustForNextLoop first second t = Ok t' → initialized_ t' = initialized_ t.
Proof.
  unfold AdjustForNextLoop. generalize (S (size_ t)). intros fuel. revert t.
  induction fuel as [|fuel IH]; intros t; cbn [AdjustForNextLoop_loop]; [done|].
  intros (w&_&H)%bind_Ok. destruct (decide _); [|by injection H as <-].
  apply bind_Ok in H as (t0&E0&H). apply bind_Ok in H as (t1&E1%adjust_flag&H). apply IH in H.
  rewrite H, E1. unfold advance_leaf in E0. inv_ok. by subst.
Qed.

(** A tree that has still to return the records [l]. *)
Definition Holding (t : LoserTree) (l : list KeyValue) : Prop :=
  initialized_ t = true ∧
  ∃ win rk rests, Ready rk rests t win ∧ popped_min rk ∧ collect (remaining rk rests) ≡ₚ l.

Lemma holding_round t l : 1 ≤ n → Holding t l →
  ∃ t1, AdjustForNextLoop first second t = Ok t1 ∧
    (l = [] ∧ (∃ t2, PopWinner first second t1 = Ok (None, t2) ∧ PeekWinner t2 = Ok None ∧ initialized_ t2 = true) ∨
     ∃ k ks t2 t3 l', PopWinner first second t1 = Ok (Some k, t2) ∧ pops t2 ks t3 ∧
       size_ t2 = n ∧ length ks < n ∧ Holding t3 l' ∧
       l ≡ₚ (k :: ks) ++ l' ∧ StronglySorted (@kle KeyValue scmp) (k :: ks) ∧ Forall (keq k) ks ∧ Forall (klt k) l').
Proof.
  intros Hn (Hf&win&rk&rests&HR&Hmin&Hl). destruct (key_round rk rests t win Hn HR Hmin) as (t1&E1&Hcase).
  exists t1. split; [done|]. apply next_loop_flag in E1. destruct Hcase as [(He&t2&E2&E3)|Hkey].
  - left. rewrite He in Hl. split; [symmetry in Hl; by apply Permutation_nil_r in Hl|]. exists t2. split_and!; [done..|].
    apply pop_flag in E2. congruence.
  - right. destruct Hkey as (k&ks&t2&t3&win'&rk'&rests'&E2&Hp&Hsz&Hlen&HR'&Hm'&_&Hperm&Hs&Hk&Hlt).
    exists k, ks, t2, t3, (collect (remaining rk' rests')). rewrite <-Hl. split_and!; try done.
    split; [|by exists win', rk', rests'].
    apply pops_flag in Hp. apply pop_flag in E2. congruence.
Qed.

(** [runs !!! j] as a function of the leaf. *)
Lemma collect_runs (runs : list (list KeyValue)) : length runs = n → collect (λ j, nth j runs []) = concat runs.
Proof.
  intros E. unfold collect. f_equal. rewrite <-E. clear.
  induction runs as [|r runs IH]; cbn; [done|]. f_equal. rewrite <-seq_shift, map_map. exact IH.
Qed.

Lemma holding_init (batches : list (list (list KeyValue))) :
  length batches = n → 1 ≤ n → Forall (λ bs, StronglySorted klt (concat bs)) batches →
  (∀ j bs, batches !! j = Some bs → Forall (owned j) (concat bs)) →
  ∃ t, InitializeIfNeeded first second (create (reader_of <$> batches)) = Ok t ∧
    Holding t (concat (map (@concat _) batches)) ∧
    (PeekWinner t = Ok None ↔ concat (map (@concat _) batches) = []).
Proof.
  intros Hlen Hn Hsort Hown. set (runs := map (@concat _) batches).
  assert (Hrl : length runs = n) by (subst runs; by rewrite length_map).
  unfold InitializeIfNeeded, create. cbn [initialized_ size_ tree_ leaves_]. rewrite length_replicate, length_fmap, Hlen.
  assert (Hlen' : length (reader_of <$> batches) = n) by (by rewrite length_fmap).
  pose proof (empty_settled (reader_of <$> batches) Hlen' Hn) as S0. unfold empty_tree in S0. rewrite Hlen' in S0.
  destruct (initialize_loop n _ (λ j, nth j runs []) _ _ (λ j, nth j runs []) (le_n n) S0)
    as (t&win&rk&rests&->&S&Hc&Hj).
  - intros j Hj. cbn [leaves_]. destruct (lookup_lt_is_Some_2 batches j) as [bs Hbs]; [lia|].
    exists (new_leaf (reader_of bs)). rewrite !list_lookup_fmap, Hbs. split; [done|].
    assert (Hr : runs !! j = Some (concat bs)) by (subst runs; by rewrite list_lookup_fmap, Hbs).
    rewrite (nth_lookup_Some _ _ _ _ Hr). split; [|by apply Hown].
    exists bs, []. cbn. by split_and!; auto.
  - done.
  - intros j Hj. by rewrite decide_False by lia.
  - cbn [mbind Result_bind]. set (t' := mkTree _ _ _ _).
    assert (S' : Settled rk t' win everything).
    { apply settled_flag. apply (settled_everything _ _ _ (live_from 0)); [intros x j; lia|done]. }
    assert (Hrem : collect (remaining rk rests) = concat runs).
    { rewrite <-collect_runs by done. apply collect_ext. intros j Hj'. unfold remaining.
      destruct (Hj j Hj') as [-> ->]. by destruct (nth j runs []). }
    assert (Hunp : ∀ j, j < n → is_popped (rk j) = false).
    { intros j Hj'. destruct (Hj j Hj') as [-> _]. apply head_rank_unpopped. }
    exists t'. split; [done|]. split.
    + split; [done|]. exists win, rk, rests. split_and!; [|intros j j' Hj1 _ Hp; by rewrite Hunp in Hp|by rewrite Hrem].
      split; [done|exact Hc|]. intros j Hj'. destruct (Hj j Hj') as [-> ->].
      destruct (lookup_lt_is_Some_2 batches j) as [bs Hbs]; [lia|].
      assert (Hr : runs !! j = Some (concat bs)) by (subst runs; by rewrite list_lookup_fmap, Hbs).
      rewrite (nth_lookup_Some _ _ _ _ Hr). rewrite Forall_lookup in Hsort. specialize (Hsort j bs Hbs).
      by destruct (concat bs).
    + assert (Hw : win 1 < n) by (apply (se_lt S'); [lia|done]).
      rewrite (peek_spec rk t' win Hn S'), Hunp by done. rewrite <-Hrem. split.
      * intros E. assert (E' : rk (win 1) = None) by (by destruct (rk (win 1)) as [[]|]).
        apply collect_nil. intros j Hj'. pose proof (settled_root_min rk t' win S' j Hj') as Hle. rewrite E' in Hle.
        unfold remaining. destruct (Hj j Hj') as [Ej ->]. rewrite Ej in Hle |- *. by destruct (nth j runs []).
      * intros E. destruct (rk (win 1)) as [[k p]|] eqn:Ek; [|done]. specialize (Hunp _ Hw). rewrite Ek in Hunp.
        assert (Hin : k ∈ collect (remaining rk rests)).
        { apply elem_of_collect. exists (win 1). split; [done|]. unfold remaining. rewrite Ek. cbn in Hunp. subst p. by left. }
        rewrite E in Hin. by apply elem_of_nil in Hin.
Qed.
End Invariant.
