(* ===== verification/SortMerge.v ===== *)
(** * Sort-merge readers

    [SortMergeReader] and its implementations with a loser tree and with a
    min-heap (src/paimon/core/mergetree/compact/sort_merge_reader*.{h,cpp}),
    [DropDeleteReader] and the loop of a client such as
    [RowCountAccumulator::CountAll]. SortMergeProofs.v relates both
    implementations to one specification. *)

From stdpp Require Import base list strings sorting.
From Stdlib Require Import ZArith Lia.
From S2P Require Import Prelude Rows KeyValues Readers LoserTree.
Local Open Scope Z_scope.

(** ** The interface *)

(** [NextBatch] tells whether there is an iterator; [HasNext] of the current
    iterator is modelled together with the [Next] that follows a [true]. *)
Record SortMergeReader := mkReader {
  RState : Type;
  RNextBatch : RState → Result (bool * RState);
  RHasNext : RState → Result (option KeyValue * RState)
}.

(** ** Clients *)

Section Client.
Context (R : SortMergeReader) {A : Type} (f : A → KeyValue → A).

Fixpoint consume_iterator (fuel : nat) (acc : A) (s : RState R) : Result (A * RState R) :=
  match fuel with
  | O => Err UnknownError "out of fuel"
  | S fuel' =>
      r ← RHasNext R s;
      match fst r with
      | None => Ok (acc, snd r)
      | Some kv => consume_iterator fuel' (f acc kv) (snd r)
      end
  end.

(** The two nested loops of a client that folds [f] over the records. *)
Fixpoint consume (fuel : nat) (acc : A) (s : RState R) : Result A :=
  match fuel with
  | O => Err UnknownError "out of fuel"
  | S fuel' =>
      r ← RNextBatch R s;
      if (fst r : bool)
      then p ← consume_iterator fuel acc (snd r); consume fuel' (fst p) (snd p)
      else Ok acc
  end.
End Client.

(** [RowCountAccumulator::CountAll]. *)
Definition CountAll (R : SortMergeReader) (fuel : nat) (s : RState R) : Result Z :=
  consume R (λ count _, count + 1) fuel 0 s.

Definition read_all (R : SortMergeReader) (fuel : nat) (s : RState R) : Result (list KeyValue) :=
  consume R (λ l kv, l ++ [kv]) fuel [] s.

(** ** DropDeleteReader *)

Module DropDelete.
Section DropDelete.
Context (R : SortMergeReader) (fuel : nat).

Fixpoint HasNext_loop (fuel : nat) (s : RState R) : Result (option KeyValue * RState R) :=
  match fuel with
  | O => Err UnknownError "out of fuel"
  | S fuel' =>
      r ← RHasNext R s;
      match fst r with
      | None => Ok (None, snd r)
      | Some kv => if is_add kv then Ok (Some kv, snd r) else HasNext_loop fuel' (snd r)
      end
  end.

Definition reader : SortMergeReader := mkReader (RState R) (RNextBatch R) (HasNext_loop fuel).
End DropDelete.
End DropDelete.

(** ** SortMergeReaderWithLoserTree *)

Module WithLoserTree.
Section WithLoserTree.
Context (user_key_comparator : InternalRow → InternalRow → Z).
Context (user_defined_seq_comparator : option (InternalRow → InternalRow → Z)).

(** Whether asserts are compiled in; [NDEBUG] removes them. *)
Context (asserts : bool).

Definition first_comparator (lhs rhs : option KeyValue) : Result Z :=
  match lhs, rhs with
  | None, _ => Ok (-1)
  | _, None => Ok 1
  | Some lhs, Some rhs => Ok (user_key_comparator (key rhs) (key lhs))
  end.

(** Where asserts are compiled out, equal sequence numbers make the left-hand
    side win. *)
Definition second_comparator (lhs rhs : option KeyValue) : Result Z :=
  match lhs, rhs with
  | None, _ => Ok (-1)
  | _, None => Ok 1
  | Some lhs, Some rhs =>
      let result := match user_defined_seq_comparator with
                    | Some c => c (value rhs) (value lhs)
                    | None => 0
                    end in
      if negb (result =? 0) then Ok result
      else if asserts && (sequence_number lhs =? sequence_number rhs) then Err UnknownError "assert"
      else Ok (if sequence_number rhs <? sequence_number lhs then -1 else 1)
  end.

Context (M : MergeFn KeyValue) (fuel : nat).

Record State := mk { loser_tree_ : LoserTree; merge_function_wrapper_ : MState M }.

(** [Iterator::Merge]: every round pops a leaf. *)
Fixpoint Merge_loop (fuel : nat) (t : LoserTree) (m : MState M)
    : Result (option KeyValue * LoserTree * MState M) :=
  match fuel with
  | O => Err UnknownError "out of fuel"
  | S fuel' =>
      w ← PeekWinner t;
      match w with
      | None => r ← MGetResult M m; Ok (fst r, t, snd r)
      | Some _ =>
          p ← PopWinner first_comparator second_comparator t;
          match fst p with
          | None => Err UnknownError "bad optional access"
          | Some kv => m ← MAdd M kv m; Merge_loop fuel' (snd p) m
          end
      end
  end.

Fixpoint HasNext_loop (fuel : nat) (s : State) : Result (option KeyValue * State) :=
  match fuel with
  | O => Err UnknownError "out of fuel"
  | S fuel' =>
      t ← AdjustForNextLoop first_comparator second_comparator (loser_tree_ s);
      p ← PopWinner first_comparator second_comparator t;
      let '(winner, t) := p in
      match winner with
      | None => Ok (None, mk t (merge_function_wrapper_ s))
      | Some kv =>
          let m := MReset M (merge_function_wrapper_ s) in
          m ← MAdd M kv m;
          r ← Merge_loop (S (size_ t)) t m;
          let '(result, t, m) := r in
          match result with
          | Some kv => Ok (Some kv, mk t m)
          | None => HasNext_loop fuel' (mk t m)
          end
      end
  end.

Definition NextBatch (s : State) : Result (bool * State) :=
  t ← InitializeIfNeeded first_comparator second_comparator (loser_tree_ s);
  w ← PeekWinner t;
  Ok (match w with None => false | Some _ => true end, mk t (merge_function_wrapper_ s)).

Definition reader : SortMergeReader := mkReader State NextBatch (HasNext_loop fuel).
Definition create (readers : list RecordReader) (m : MState M) : State := mk (LoserTree.create readers) m.
End WithLoserTree.
End WithLoserTree.

(** ** SortMergeReaderWithMinHeap *)

Module WithMinHeap.
Section Heap.
Context (user_key_comparator : InternalRow → InternalRow → Z).
Context (user_defined_seq_comparator : option (InternalRow → InternalRow → Z)).

(** An element owns its iterator and refers to a reader, which no other
    element and no entry of [next_batch_readers_] refers to. *)
Record Element := mkElement { kv : KeyValue; reader : RecordReader; iterator : RecordIterator }.

(** [HeapSorter]: [lhs] comes after [rhs]. *)
Definition HeapSorter (lhs rhs : Element) : bool :=
  let result := user_key_comparator (key (kv lhs)) (key (kv rhs)) in
  if negb (result =? 0) then 0 <? result
  else
    let seq_result := match user_defined_seq_comparator with
                      | Some c => c (value (kv lhs)) (value (kv rhs))
                      | None => 0
                      end in
    if negb (seq_result =? 0) then 0 <? seq_result
    else sequence_number (kv rhs) <? sequence_number (kv lhs).

(** The heap is the queue of Prelude.v, [top] first. *)
Definition push (e : Element) (heap : list Element) : list Element := pq_push HeapSorter e heap.

(** [Element::Update]: [None] at the end of the batch. *)
Definition Update (e : Element) : Result (option Element) :=
  if HasNext (iterator e)
  then n ← Next (iterator e); Ok (Some (mkElement (fst n) (reader e) (snd n)))
  else Ok None.

(** The inner loop of [NextBatch] over the batches of one reader. *)
Fixpoint fetch (r : RecordReader) : Result (option Element) :=
  match r with
  | [] => Ok None
  | b :: r' =>
      it ← b;
      if HasNext it then n ← Next it; Ok (Some (mkElement (fst n) r' (snd n))) else fetch r'
  end.

Section WithMinHeap.
(** The state of the merge function wrapper, [unit] if there is none. *)
Context {W : Type}.

Record State := mk {
  next_batch_readers_ : list RecordReader;
  min_heap_ : list Element;
  polled_ : list Element;
  wrapper_state : W
}.

Definition fetch_into (r : RecordReader) (heap : list Element) : Result (list Element) :=
  e ← fetch r; Ok (match e with Some e => push e heap | None => heap end).

Definition NextBatch (s : State) : Result (bool * State) :=
  heap ← foldR fetch_into (next_batch_readers_ s) (min_heap_ s);
  Ok (match heap with [] => false | _ => true end, mk [] heap (polled_ s) (wrapper_state s)).

(** The assert at the start of [NextImpl]. *)
Definition assert_batch (s : State) : Result unit :=
  match next_batch_readers_ s with [] => Ok () | _ :: _ => Err UnknownError "assert" end.

(** The loop of [NextImpl] over the polled elements. *)
Definition put_back (e : Element) (hn : list Element * list RecordReader)
    : Result (list Element * list RecordReader) :=
  u ← Update e;
  match u with
  | Some e' => Ok (push e' (fst hn), snd hn)
  | None => Ok (fst hn, snd hn ++ [reader e])
  end.
End WithMinHeap.

Arguments State W : clear implicits.
Arguments mk {_} _ _ _ _.
Arguments next_batch_readers_ {_} _.
Arguments min_heap_ {_} _.
Arguments polled_ {_} _.
Arguments wrapper_state {_} _.

(** The loop that fetches all elements with the key of the first one. *)
Fixpoint fetch_same (M : MergeFn KeyValue) (k : InternalRow) (is_first : bool) (heap polled : list Element)
    (m : MState M) : Result (list Element * list Element * MState M) :=
  match heap with
  | [] => Ok ([], polled, m)
  | element :: heap' =>
      if negb is_first && negb (user_key_comparator k (key (kv element)) =? 0)
      then Ok (heap, polled, m)
      else m ← MAdd M (kv element) m; fetch_same M k false heap' (polled ++ [element]) m
  end.

(** [NextImpl] with a merge function. *)
Definition NextImpl (M : MergeFn KeyValue) (s : State (MState M)) : Result (bool * State (MState M)) :=
  _ ← assert_batch s;
  hn ← foldR put_back (polled_ s) (min_heap_ s, next_batch_readers_ s);
  let '(heap, next) := hn in
  match next with
  | _ :: _ => Ok (false, mk next heap [] (wrapper_state s))
  | [] =>
      match heap with
      | [] => Err Invalid "Min heap is empty. This is a bug."
      | top :: _ =>
          r ← fetch_same M (key (kv top)) true heap [] (MReset M (wrapper_state s));
          let '(heap, polled, m) := r in
          Ok (true, mk [] heap polled m)
      end
  end.

Fixpoint HasNext_loop (M : MergeFn KeyValue) (fuel : nat) (s : State (MState M))
    : Result (option KeyValue * State (MState M)) :=
  match fuel with
  | O => Err UnknownError "out of fuel"
  | S fuel' =>
      r ← NextImpl M s;
      let '(has_more, s) := r in
      if (has_more : bool) then
        r ← MGetResult M (wrapper_state s);
        let s := mk (next_batch_readers_ s) (min_heap_ s) (polled_ s) (snd r) in
        match fst r with
        | Some kv => Ok (Some kv, s)
        | None => HasNext_loop M fuel' s
        end
      else Ok (None, s)
  end.

Definition merge_reader (M : MergeFn KeyValue) (fuel : nat) : SortMergeReader :=
  mkReader (State (MState M)) NextBatch (HasNext_loop M fuel).

(** [HasNext] and [NextImpl] without a merge function: every record in sorted
    order. *)
Definition HasNext_sort (s : State unit) : Result (option KeyValue * State unit) :=
  _ ← assert_batch s;
  hn ← foldR put_back (polled_ s) (min_heap_ s, next_batch_readers_ s);
  let '(heap, next) := hn in
  match next with
  | _ :: _ => Ok (None, mk next heap [] (wrapper_state s))
  | [] =>
      match heap with
      | [] => Err Invalid "Min heap is empty. This is a bug."
      | top :: heap' => Ok (Some (kv top), mk [] heap' [top] (wrapper_state s))
      end
  end.
Definition sort_reader : SortMergeReader := mkReader (State unit) NextBatch HasNext_sort.

Definition create {W} (readers : list RecordReader) (m : W) : State W := mk readers [] [] m.
End Heap.

Arguments State W : clear implicits.
Arguments mk {W} _ _ _ _.
Arguments next_batch_readers_ {W} _.
Arguments min_heap_ {W} _.
Arguments polled_ {W} _.
Arguments wrapper_state {W} _.
End WithMinHeap.
