(* ===== verification/SortMergeProofs.v ===== *)
(** * Correctness of the sort-merge readers

    Both readers of SortMerge.v are related to one specification: sort all
    records by key and sequence, group them by key and merge each group. *)

From stdpp Require Import base list strings sorting.
From Stdlib Require Import ZArith Lia.
From S2P Require Import Prelude Rows KeyValues Readers LoserTree LoserTreeProofs SortMerge.
Local Open Scope Z_scope.

(** ** Traces of a reader *)

Section Trace.
Context (R : SortMergeReader).

(** What the current iterator returns, and how it ends. *)
Inductive iterates : RState R → list KeyValue → Result (RState R) → Prop :=
| iterates_end s s' : RHasNext R s = Ok (None, s') → iterates s [] (Ok s')
| iterates_err s c m : RHasNext R s = Err c m → iterates s [] (Err c m)
| iterates_step s kv s1 l r :
    RHasNext R s = Ok (Some kv, s1) → iterates s1 l r → iterates s (kv :: l) r.

(** What all iterators return, in [n] batches. *)
Inductive reads : RState R → nat → list KeyValue → Result unit → Prop :=
| reads_end s s' : RNextBatch R s = Ok (false, s') → reads s 0 [] (Ok ())
| reads_err s c m : RNextBatch R s = Err c m → reads s 0 [] (Err c m)
| reads_iter_err s s1 l c m :
    RNextBatch R s = Ok (true, s1) → iterates s1 l (Err c m) → reads s 1 l (Err c m)
| reads_step s s1 l s2 n l' r :
    RNextBatch R s = Ok (true, s1) → iterates s1 l (Ok s2) → reads s2 n l' r → reads s (S n) (l ++ l') r.

Context {A : Type} (f : A → KeyValue → A).

Lemma consume_iterates fuel s l r acc :
  iterates s l r → (length l < fuel)%nat →
  consume_iterator R f fuel acc s = (s' ← r; Ok (foldl f acc l, s')).
Proof.
  intros Hi. revert fuel acc. induction Hi as [s s' E|s c m E|s kv s1 l r E Hi IH]; intros fuel acc Hf;
    (destruct fuel as [|fuel]; [cbn in Hf; lia|]); cbn [consume_iterator]; rewrite E; try done.
  cbn. apply IH. cbn in Hf. lia.
Qed.

(** The fuelled loops of a client compute the trace. *)
Lemma consume_reads fuel s n l r acc :
  reads s n l r → (n + length l < fuel)%nat →
  consume R f fuel acc s = (_ ← r; Ok (foldl f acc l)).
Proof.
  intros Hr. revert fuel acc.
  induction Hr as [s s' E|s c m E|s s1 l c m E Hi|s s1 l s2 n l' r E Hi _ IH]; intros fuel acc Hf;
    (destruct fuel as [|fuel]; [lia|]); cbn [consume]; rewrite E; cbn [mbind Result_bind fst snd]; try done.
  - rewrite (consume_iterates _ _ _ _ _ Hi) by lia. done.
  - rewrite length_app in Hf. rewrite (consume_iterates _ _ _ _ _ Hi) by lia. cbn [mbind Result_bind fst snd].
    rewrite IH by lia. by rewrite foldl_app.
Qed.
End Trace.

Lemma foldl_snoc (l acc : list KeyValue) : foldl (λ l kv, l ++ [kv]) acc l = acc ++ l.
Proof. revert acc. induction l as [|x l IH]; intros acc; cbn; [by rewrite app_nil_r|]. by rewrite IH, <-app_assoc. Qed.
Lemma foldl_count (l : list KeyValue) acc : foldl (λ (c : Z) _, c + 1) acc l = acc + Z.of_nat (length l).
Proof. revert acc. induction l as [|x l IH]; intros acc; cbn; [lia|]. rewrite IH. lia. Qed.

(** ** DropDeleteReader *)

Section Drop.
Context (R : SortMergeReader) (F : nat).

Lemma drop_iterates s l r f :
  iterates R s l r → (length l < f)%nat → (length l < F)%nat →
  (DropDelete.HasNext_loop R f s = match r with Ok s' => Ok (None, s') | Err c m => Err c m end ∧
   filter is_add l = []) ∨
  (∃ kv l' s1, DropDelete.HasNext_loop R f s = Ok (Some kv, s1) ∧ iterates R s1 l' r ∧
     filter is_add l = kv :: filter is_add l' ∧ (length l' < length l)%nat).
Proof.
  intros Hi. revert f. induction Hi as [s s' E|s c m E|s kv s1 l r E Hi IH]; intros f Hf HF;
    (destruct f as [|f]; [cbn in Hf; lia|]); cbn [DropDelete.HasNext_loop]; rewrite E; cbn [mbind Result_bind fst snd].
  - left. eauto.
  - left. eauto.
  - rewrite filter_cons. destruct (is_add kv) eqn:Ea.
    + right. exists kv, l, s1. rewrite decide_True by done. split_and!; [done..|cbn; lia].
    + rewrite decide_False by (by intros []). cbn in Hf, HF. destruct (IH f) as [H|(k&l'&s2&H1&H2&H3&H4)]; [lia|lia|..].
      * by left.
      * right. exists k, l', s2. split_and!; try done. cbn. lia.
Qed.

Lemma drop_trace s l r :
  iterates R s l r → (length l < F)%nat → iterates (DropDelete.reader R F) s (filter is_add l) r.
Proof.
  remember (length l) as n eqn:Hn. revert s l Hn. induction (lt_wf n) as [n _ IH]. intros s l -> Hi HF.
  destruct (drop_iterates s l r F Hi HF HF) as [[H1 H2]|(kv&l'&s1&H1&H2&H3&H4)].
  - rewrite H2. destruct r as [s'|c m];
      [exact (iterates_end (DropDelete.reader R F) s s' H1)|exact (iterates_err (DropDelete.reader R F) s c m H1)].
  - rewrite H3. apply (iterates_step (DropDelete.reader R F) s kv s1 _ r H1). eapply IH; [exact H4|done|done|lia].
Qed.

Lemma drop_reads s n l r :
  reads R s n l r → (length l < F)%nat → reads (DropDelete.reader R F) s n (filter is_add l) r.
Proof.
  induction 1 as [s s' E|s c m E|s s1 l c m E Hi|s s1 l s2 n l' r E Hi _ IH]; intros HF.
  - exact (reads_end (DropDelete.reader R F) s s' E).
  - exact (reads_err (DropDelete.reader R F) s c m E).
  - apply (reads_iter_err (DropDelete.reader R F) s s1 _ c m E). exact (drop_trace s1 l (Err c m) Hi HF).
  - rewrite length_app in HF. rewrite filter_app.
    apply (reads_step (DropDelete.reader R F) s s1 _ s2 n _ r E); [|apply IH; lia].
    apply (drop_trace s1 l (Ok s2) Hi). lia.
Qed.
End Drop.

(** ** The specification *)

Section Spec.
Context (ukc : InternalRow → InternalRow → Z) (usc : option (InternalRow → InternalRow → Z)).

Definition key_compare (a b : KeyValue) : Z := ukc (key a) (key b).
(** The order among the records of one key. *)
Definition seq_compare (a b : KeyValue) : Z :=
  let r := match usc with Some c => c (value a) (value b) | None => 0 end in
  if r =? 0 then cmpZ (sequence_number a) (sequence_number b) else r.
Definition record_compare (a b : KeyValue) : Z :=
  if key_compare a b =? 0 then seq_compare a b else key_compare a b.

Definition sorted_records (l : list KeyValue) : list KeyValue :=
  std_sort (λ a b, record_compare a b <? 0) l.

(** Adjacent records with equal keys. *)
Fixpoint group_by_key (l : list KeyValue) : list (list KeyValue) :=
  match l with
  | [] => []
  | k :: l' =>
      match group_by_key l' with
      | (k' :: g) :: gs => if key_compare k k' =? 0 then (k :: k' :: g) :: gs else [k] :: (k' :: g) :: gs
      | gs => [k] :: gs
      end
  end.

(** Merge group by group; the first error ends it. *)
Fixpoint merge_groups (spec : list KeyValue → Result (option KeyValue)) (gs : list (list KeyValue))
    : Result (list KeyValue) :=
  match gs with
  | [] => Ok []
  | g :: gs' => o ← spec g; l ← merge_groups spec gs'; Ok (option_list o ++ l)
  end.

(** The records returned until the end or the first error. *)
Fixpoint merge_trace (spec : list KeyValue → Result (option KeyValue)) (gs : list (list KeyValue))
    : list KeyValue * Result unit :=
  match gs with
  | [] => ([], Ok ())
  | g :: gs' =>
      match spec g with
      | Err c m => ([], Err c m)
      | Ok o => let '(l, r) := merge_trace spec gs' in (option_list o ++ l, r)
      end
  end.

Lemma merge_trace_groups spec gs :
  merge_groups spec gs = (_ ← snd (merge_trace spec gs); Ok (fst (merge_trace spec gs))).
Proof.
  induction gs as [|g gs IH]; cbn; [done|]. destruct (spec g) as [o|]; cbn; [|done].
  rewrite IH. destruct (merge_trace spec gs) as [l [[]|]]; done.
Qed.

Class ComparatorsOK : Prop := {
  user_key_laws : @ComparatorLaws InternalRow ukc;
  user_seq_laws : match usc with Some c => @ComparatorLaws InternalRow c | None => True end
}.

Context {OK : ComparatorsOK}.

#[local] Instance key_comparator : Comparator KeyValue := key_compare.
#[local] Instance key_laws : ComparatorLaws KeyValue.
Proof. apply (laws_proj key ukc), user_key_laws. Qed.
Lemma seq_laws : @ComparatorLaws KeyValue seq_compare.
Proof.
  apply laws_lex; [|apply (laws_proj sequence_number cmpZ), laws_Z].
  pose proof user_seq_laws as H. destruct usc as [c|]; [by apply (laws_proj value c)|apply laws_const].
Qed.
Lemma record_laws : @ComparatorLaws KeyValue record_compare.
Proof. apply laws_lex; [apply key_laws|apply seq_laws]. Qed.

Definition record_le (a b : KeyValue) : Prop := @kle KeyValue record_compare a b.

Lemma record_le_iff a b : record_le a b ↔ klt a b ∨ keq a b ∧ @kle KeyValue seq_compare a b.
Proof.
  unfold record_le, kle, klt, keq, CompareTo, record_compare, key_comparator.
  destruct (Z.eqb_spec (key_compare a b) 0); lia.
Qed.

Lemma sorted_records_perm l : sorted_records l ≡ₚ l.
Proof. apply std_sort_Permutation. Qed.
Lemma sorted_records_sorted l : StronglySorted record_le (sorted_records l).
Proof.
  assert (E : ∀ a b, not_after (λ a b, record_compare a b <? 0) a b ↔ record_le a b).
  { intros a b. unfold not_after, record_le. rewrite (@kle_flip _ record_compare record_laws), Z.ltb_ge. done. }
  assert (StronglySorted (not_after (λ a b, record_compare a b <? 0)) (sorted_records l)) as Hs.
  { apply std_sort_sorted.
    - intros a b. rewrite !E. destruct (@kle_lt_dec _ record_compare record_laws a b) as [|H]; [by left|right].
      by apply klt_le.
    - intros a b c. rewrite !E. apply (@kle_trans _ record_compare record_laws). }
  clear -Hs E. induction Hs as [|x l' _ IH Hx]; constructor; [done|].
  eapply Forall_impl; [exact Hx|]. intros y. apply E.
Qed.

(** [gs] are the groups of [l]: each sorted by sequence, ascending in key. *)
Inductive grouped : list (list KeyValue) → list KeyValue → Prop :=
| grouped_nil : grouped [] []
| grouped_cons k ks gs l l' :
    l ≡ₚ (k :: ks) ++ l' → StronglySorted (@kle KeyValue seq_compare) (k :: ks) →
    Forall (keq k) ks → Forall (klt k) l' → grouped gs l' → grouped ((k :: ks) :: gs) l.

(** [k :: ks] is the first group of [l], before the groups of [l']. *)
Definition grouped_cons_ok (k : KeyValue) (ks l l' : list KeyValue) : Prop :=
  ∀ gs, grouped gs l' → grouped ((k :: ks) :: gs) l.

Lemma grouped_perm gs l : grouped gs l → concat gs ≡ₚ l.
Proof. induction 1 as [|k ks gs l l' Hp _ _ _ _ IH]; cbn; [done|]. rewrite Hp, IH. done. Qed.

Lemma grouped_sorted gs l : grouped gs l → StronglySorted record_le (concat gs).
Proof.
  induction 1 as [|k ks gs l l' Hp Hs Hk Hl Hg IH]; [constructor|].
  change (concat ((k :: ks) :: gs)) with ((k :: ks) ++ concat gs).
  assert (Hall : Forall (keq k) (k :: ks)) by (constructor; [by apply cmp_refl|done]).
  assert (Hrest : Forall (klt k) (concat gs)) by (by rewrite (grouped_perm _ _ Hg)).
  clear Hk Hl Hp Hg l l'. induction (k :: ks) as [|x xs IHx]; [done|].
  inversion_clear Hs as [|?? Hs' Hx]. inversion_clear Hall as [|?? Hkx Hall'].
  cbn. constructor; [by apply IHx|]. apply Forall_app. split.
  - rewrite Forall_forall in Hx, Hall' |- *. intros y Hy. apply record_le_iff. right.
    split; [|by apply Hx]. specialize (Hall' y Hy). korder.
  - rewrite Forall_forall in Hrest |- *. intros y Hy. apply record_le_iff. left. specialize (Hrest y Hy). korder.
Qed.

Lemma group_by_key_concat gs l : grouped gs l → group_by_key (concat gs) = gs.
Proof.
  induction 1 as [|k ks gs l l' Hp _ Hk Hl Hg IH]; [done|]. cbn [concat].
  assert (Hnext : ∀ x, keq k x → group_by_key (x :: concat gs) = [x] :: gs).
  { intros x Hx. cbn [group_by_key]. rewrite IH. destruct gs as [|[|y g] gs]; [done|by inversion Hg|].
    assert (Hy : klt k y) by (rewrite Forall_forall in Hl; apply Hl; rewrite <-(grouped_perm _ _ Hg); by left).
    destruct (Z.eqb_spec (key_compare x y) 0) as [E|]; [|done]. change (keq x y) in E. exfalso. korder. }
  assert (Hgo : ∀ xs x, keq k x → Forall (keq k) xs → group_by_key ((x :: xs) ++ concat gs) = (x :: xs) :: gs).
  { induction xs as [|y xs IHx]; intros x Hx Hxs; [by apply Hnext|].
    inversion_clear Hxs as [|?? Hy Hxs']. change ((x :: y :: xs) ++ concat gs) with (x :: ((y :: xs) ++ concat gs)).
    cbn [group_by_key]. change (group_by_key ((y :: xs) ++ concat gs)) with (group_by_key (y :: (xs ++ concat gs))) in IHx.
    rewrite (IHx y Hy Hxs'). destruct (Z.eqb_spec (key_compare x y) 0) as [E|E]; [done|].
    destruct E. change (keq x y). by rewrite <-Hx, <-Hy. }
  apply Hgo; [by apply cmp_refl|done].
Qed.

Lemma grouped_exists_sorted l : StronglySorted record_le l → ∃ gs, grouped gs l.
Proof.
  induction 1 as [|x l _ [gs Hg] Hx]; [exists []; constructor|].
  assert (Hx' : ∀ y, y ∈ l → klt x y ∨ keq x y ∧ @kle KeyValue seq_compare x y).
  { rewrite Forall_forall in Hx. intros y Hy. by apply record_le_iff, Hx. }
  destruct Hg as [|k ks gs l l' Hp Hs Hk Hl Hg].
  { exists [[x]]. apply (grouped_cons x [] [] _ []); repeat constructor. }
  destruct (decide (keq x k)) as [E|E].
  - exists ((x :: k :: ks) :: gs). apply (grouped_cons x (k :: ks) gs _ l'); [by rewrite Hp| | | |done].
    + constructor; [done|]. apply Forall_forall. intros y Hy.
      assert (keq k y) by (apply elem_of_cons in Hy as [->|Hy]; [by apply cmp_refl|rewrite Forall_forall in Hk; auto]).
      destruct (Hx' y) as [?|[_ ?]]; [rewrite Hp; apply elem_of_app; by left|exfalso; korder|done].
    + constructor; [done|]. eapply Forall_impl; [exact Hk|]. intros y ?. cbn. by rewrite E.
    + eapply Forall_impl; [exact Hl|]. intros y ?. cbn. korder.
  - exists ([x] :: (k :: ks) :: gs). apply (grouped_cons x [] _ _ l); [done|repeat constructor|constructor| |].
    + assert (Hxk : klt x k).
      { destruct (Hx' k) as [|[? _]]; [rewrite Hp; by left|done|done]. }
      apply Forall_forall. intros y Hy. rewrite Hp in Hy. apply elem_of_app in Hy as [Hy|Hy].
      * assert (keq k y) by (apply elem_of_cons in Hy as [->|Hy]; [by apply cmp_refl|rewrite Forall_forall in Hk; auto]). korder.
      * rewrite Forall_forall in Hl. specialize (Hl y Hy). korder.
    + by eapply grouped_cons.
Qed.

Lemma grouped_permute gs l l' : l ≡ₚ l' → grouped gs l → grouped gs l'.
Proof.
  intros Hp Hg. destruct Hg as [|k ks gs l l1 Hl Hs Hk Hlt Hg]; [apply Permutation_nil_l in Hp as <-; constructor|].
  eapply grouped_cons; [|exact Hs|exact Hk|exact Hlt|exact Hg]. by rewrite <-Hp.
Qed.

Lemma grouped_exists l : ∃ gs, grouped gs l.
Proof.
  destruct (grouped_exists_sorted _ (sorted_records_sorted l)) as [gs Hg]. exists gs.
  eapply grouped_permute; [apply sorted_records_perm|done].
Qed.

Lemma merge_trace_length spec gs l : grouped gs l → (length (fst (merge_trace spec gs)) ≤ length l)%nat.
Proof.
  induction 1 as [|k ks gs l l' Hp _ _ _ _ IH]; [done|].
  apply Permutation_length in Hp. rewrite length_app in Hp. cbn in Hp |- *.
  destruct (spec (k :: ks)) as [o|]; [|cbn; lia].
  destruct (merge_trace spec gs) as [out r]. cbn in *. rewrite length_app. destruct o; cbn; lia.
Qed.

(** No two different records have the same key and sequence. *)
Definition no_ties (l : list KeyValue) : Prop :=
  ∀ a b, a ∈ l → b ∈ l → record_compare a b = 0 → a = b.

(** No two records of different runs have the same key and sequence. *)
Definition runs_distinct (batches : list (list (list KeyValue))) : Prop := ∀ i j bi bj a b,
  i ≠ j → batches !! i = Some bi → batches !! j = Some bj → a ∈ concat bi → b ∈ concat bj → record_compare a b ≠ 0.

(** Without ties the groups do not depend on how the records are sorted. *)
Lemma grouped_unique gs l : no_ties l → grouped gs l → gs = group_by_key (sorted_records l).
Proof.
  intros Ht Hg. rewrite <-(group_by_key_concat gs l Hg) at 1. f_equal.
  apply (sorted_perm_unique record_le).
  - intros x y Hx Hy H1 H2. apply Ht; [by rewrite <-(grouped_perm _ _ Hg)..|].
    apply (@keq_le _ record_compare record_laws). done.
  - by eapply grouped_sorted.
  - apply sorted_records_sorted.
  - by rewrite (grouped_perm _ _ Hg), sorted_records_perm.
Qed.
End Spec.

(** ** What makes a reader a sort-merge reader

    [Start s l]: a call of [NextBatch] is due and [l] are the records still to
    be returned; [Hold b s l]: the same inside of an iterator, where [b] says
    that [HasNext] has not been called since [NextBatch]. *)

Section Simulation.
Context (ukc : InternalRow → InternalRow → Z) (usc : option (InternalRow → InternalRow → Z)).
Context (spec : list KeyValue → Result (option KeyValue)) (R : SortMergeReader).
Context (Start : RState R → list KeyValue → Prop) (Hold : bool → RState R → list KeyValue → Prop).

(** The groups of [l] are those of [l'] behind groups that yield [out]. *)
Definition precede (out : list KeyValue) (l l' : list KeyValue) : Prop :=
  ∀ gs', grouped ukc usc gs' l' → ∃ gs, grouped ukc usc gs l ∧
    merge_trace spec gs = (out ++ fst (merge_trace spec gs'), snd (merge_trace spec gs')).

Definition next_outcome (b : bool) (l : list KeyValue) (r : Result (option KeyValue * RState R)) : Prop :=
  match r with
  | Err c msg => ∃ gs, grouped ukc usc gs l ∧ merge_trace spec gs = ([], Err c msg)
  | Ok (None, s') => ∃ l', Start s' l' ∧ precede [] l l' ∧
      (length l' ≤ length l)%nat ∧ (b = true → length l' < length l)%nat
  | Ok (Some kv, s') => ∃ l', Hold false s' l' ∧ precede [kv] l l' ∧ (length l' < length l)%nat
  end.

Class Simulates : Prop := {
  sim_batch : ∀ s l, Start s l → ∃ b s', RNextBatch R s = Ok (b, s') ∧
    if (b : bool) then Hold true s' l else l = [];
  sim_next : ∀ b s l, Hold b s l → next_outcome b l (RHasNext R s)
}.

Context {HS : Simulates}.

Lemma precede_trans out out' l l1 l2 : precede out l l1 → precede out' l1 l2 → precede (out ++ out') l l2.
Proof.
  intros H1 H2 gs2 Hg2. destruct (H2 gs2 Hg2) as (gs1&Hg1&E1). destruct (H1 gs1 Hg1) as (gs&Hg&E).
  exists gs. split; [done|]. rewrite E, E1. cbn. by rewrite app_assoc.
Qed.
Lemma precede_err out l l1 out' c m gs1 : precede out l l1 → grouped ukc usc gs1 l1 →
  merge_trace spec gs1 = (out', Err c m) → ∃ gs, grouped ukc usc gs l ∧ merge_trace spec gs = (out ++ out', Err c m).
Proof. intros H Hg E. destruct (H gs1 Hg) as (gs&Hg'&E'). exists gs. split; [done|]. by rewrite E', E. Qed.

Lemma simulates_iterates b s l : Hold b s l → ∃ out r, iterates R s out r ∧
  match r with
  | Err c m => ∃ gs, grouped ukc usc gs l ∧ merge_trace spec gs = (out, Err c m)
  | Ok s' => ∃ l', Start s' l' ∧ precede out l l' ∧ (length l' ≤ length l)%nat ∧ (b = true → length l' < length l)%nat
  end.
Proof.
  remember (length l) as n eqn:Hn. revert b s l Hn. induction (lt_wf n) as [n _ IH]. intros b s l -> HH.
  pose proof (sim_next b s l HH) as Ho. destruct (RHasNext R s) as [[[kv|] s']|c msg] eqn:E.
  - destruct Ho as (l'&HH'&Hp&Hl). destruct (IH _ Hl false s' l' eq_refl HH') as (out&r&Hi&Hr).
    exists (kv :: out), r. split; [by eapply iterates_step|]. destruct r as [s2|c msg].
    + destruct Hr as (l2&HS2&Hp2&Hle&_). exists l2. split_and!; [done| |lia|lia].
      by apply (precede_trans [kv] out l l' l2).
    + destruct Hr as (gs&Hg&Et). by apply (precede_err [kv] l l' out c msg gs).
  - destruct Ho as (l'&HS'&Hp&Hle&Hlt). exists [], (Ok s'). split; [by apply iterates_end|]. eauto.
  - exists [], (Err c msg). split; [by apply iterates_err|]. done.
Qed.

Lemma simulates_reads s l : Start s l → ∃ n gs, (n ≤ length l)%nat ∧ grouped ukc usc gs l ∧
  reads R s n (fst (merge_trace spec gs)) (snd (merge_trace spec gs)).
Proof.
  remember (length l) as n eqn:Hn. revert s l Hn. induction (lt_wf n) as [n _ IH]. intros s l -> HSt.
  destruct (sim_batch s l HSt) as ([]&s1&E&H1).
  - destruct (simulates_iterates true s1 l H1) as (out&r&Hi&Hr). destruct r as [s2|c m].
    + destruct Hr as (l2&HS2&Hp2&_&Hlt). specialize (Hlt eq_refl).
      destruct (IH _ Hlt s2 l2 eq_refl HS2) as (k&gs2&Hk&Hg2&Hr2).
      destruct (Hp2 gs2 Hg2) as (gs&Hg&Et). exists (S k), gs. split_and!; [lia|done|].
      rewrite Et. cbn [fst snd]. by eapply reads_step.
    + destruct Hr as (gs&Hg&Et). destruct l as [|x l].
      { exists 1%nat, gs. apply grouped_perm in Hg as Hp. exfalso.
        destruct gs as [|g gs]; [by cbn in Et|]. inversion Hg; subst.
        apply Permutation_nil_l in H2. done. }
      exists 1%nat, gs. split_and!; [cbn; lia|done|]. rewrite Et. by eapply reads_iter_err.
  - subst l. exists 0%nat, []. split_and!; [done|constructor|]. by eapply reads_end.
Qed.

(** With enough fuel the client gets the merged groups, or the first error. *)
Lemma simulates_consume {A} (f : A → KeyValue → A) s l acc fuel :
  Start s l → (2 * length l < fuel)%nat → ∃ gs, grouped ukc usc gs l ∧
  consume R f fuel acc s = (out ← merge_groups spec gs; Ok (foldl f acc out)).
Proof.
  intros HSt Hf. destruct (simulates_reads s l HSt) as (n&gs&Hn&Hg&Hr). exists gs. split; [done|].
  pose proof (merge_trace_length ukc usc spec gs l Hg).
  rewrite (consume_reads R f fuel s n _ _ acc Hr) by lia.
  rewrite merge_trace_groups. by destruct (snd (merge_trace spec gs)).
Qed.
(** The same behind a [DropDeleteReader]. *)
Lemma simulates_consume_drop {A} (f : A → KeyValue → A) s l acc F fuel :
  Start s l → (2 * length l < fuel)%nat → (length l < F)%nat → ∃ gs, grouped ukc usc gs l ∧
  consume (DropDelete.reader R F) f fuel acc s =
  (out ← merge_groups spec gs; Ok (foldl f acc (filter is_add out))).
Proof.
  intros HSt Hf HF. destruct (simulates_reads s l HSt) as (n&gs&Hn&Hg&Hr). exists gs. split; [done|].
  pose proof (merge_trace_length ukc usc spec gs l Hg).
  pose proof (length_filter is_add (fst (merge_trace spec gs))) as Hlen.
  apply (drop_reads R F) in Hr; [|lia].
  rewrite (consume_reads (DropDelete.reader R F) f fuel s n _ _ acc Hr) by lia.
  rewrite merge_trace_groups. by destruct (snd (merge_trace spec gs)).
Qed.
End Simulation.

Section Steps.
Context (ukc : InternalRow → InternalRow → Z) (usc : option (InternalRow → InternalRow → Z)).
Context {OK : ComparatorsOK ukc usc}.
Context (spec : list KeyValue → Result (option KeyValue)).

Lemma precede_nil l : precede ukc usc spec [] l l.
Proof. intros gs Hg. exists gs. split; [done|]. by destruct (merge_trace spec gs). Qed.

Lemma precede_group k ks l l' o : grouped_cons_ok ukc usc k ks l l' → spec (k :: ks) = Ok o →
  precede ukc usc spec (option_list o) l l'.
Proof.
  intros Hc E gs Hg. exists ((k :: ks) :: gs). split; [by apply Hc|]. cbn. rewrite E.
  by destruct (merge_trace spec gs).
Qed.

Lemma group_error k ks l l' c m : grouped_cons_ok ukc usc k ks l l' → spec (k :: ks) = Err c m →
  ∃ gs, grouped ukc usc gs l ∧ merge_trace spec gs = ([], Err c m).
Proof.
  intros Hc E. destruct (grouped_exists ukc usc l') as [gs Hg]. exists ((k :: ks) :: gs).
  split; [by apply Hc|]. cbn. by rewrite E.
Qed.

(** Groups that yield nothing may be put in front. *)
Lemma outcome_skip R (Start : RState R → list KeyValue → Prop) Hold l l' r :
  precede ukc usc spec [] l l' → (length l' < length l)%nat →
  next_outcome ukc usc spec R Start Hold false l' r → ∀ b, next_outcome ukc usc spec R Start Hold b l r.
Proof.
  intros Hp Hl Ho b. destruct r as [[[kv|] s']|c msg]; cbn in *.
  - destruct Ho as (l2&?&Hp2&?). exists l2. split_and!; [done| |lia]. by apply (precede_trans ukc usc spec [] [kv] l l' l2).
  - destruct Ho as (l2&?&Hp2&?&_). exists l2. split_and!; [done| |lia|lia]. by apply (precede_trans ukc usc spec [] [] l l' l2).
  - destruct Ho as (gs&Hg&E). by apply (precede_err ukc usc spec [] l l' [] c msg gs).
Qed.

End Steps.

(** ** The reader with a loser tree *)

Section Loser.
Context (ukc : InternalRow → InternalRow → Z) (usc : option (InternalRow → InternalRow → Z)).
Context {OK : ComparatorsOK ukc usc}.
Context (M : MergeFn KeyValue) (spec : list KeyValue → Result (option KeyValue)) {HM : Implements M spec}.
Context (asserts : bool) (batches : list (list (list KeyValue))) (Hn : (1 ≤ length batches)%nat).
Context (Hdistinct : asserts = true → runs_distinct ukc usc batches).

Definition owned (i : nat) (kv : KeyValue) : Prop := ∃ bs, batches !! i = Some bs ∧ kv ∈ concat bs.

Abbreviation first := (WithLoserTree.first_comparator ukc).
Abbreviation second := (WithLoserTree.second_comparator usc asserts).
Abbreviation Holds := (@Holding (key_compare ukc) (seq_compare usc) (length batches) owned).

Lemma first_none b : ∃ z, first None b = Ok z ∧ z < 0.
Proof. by exists (-1). Qed.
Lemma first_some_none a : ∃ z, first (Some a) None = Ok z ∧ 0 < z.
Proof. by exists 1. Qed.

(** The sequence order, in the words of the comparator. *)
Lemma second_value a b : seq_compare usc b a ≠ 0 ∨ asserts = false →
  ∃ z, second (Some a) (Some b) = Ok z ∧ (z < 0 → seq_compare usc b a < 0) ∧ (¬ z < 0 → 0 < z ∧ 0 ≤ seq_compare usc b a).
Proof.
  intros H. cbn. unfold seq_compare, cmpZ in *. rewrite (Z.eqb_sym (sequence_number a)).
  destruct usc as [c|]; [destruct (Z.eqb_spec (c (value b) (value a)) 0); cbn in *; [|by eexists; split; [done|lia]]|cbn in *];
    destruct (Z.eqb_spec (sequence_number b) (sequence_number a));
    (destruct H as [?| ->]; [try lia|]); rewrite ?andb_false_r; cbn; (eexists; split; [done|]);
    destruct (Z.ltb_spec (sequence_number b) (sequence_number a)); lia.
Qed.
Lemma second_some i j a b : i ≠ j → owned i a → owned j b → @keq KeyValue (key_compare ukc) a b →
  ∃ z, second (Some a) (Some b) = Ok z ∧ (z < 0 → seq_compare usc b a < 0) ∧ (¬ z < 0 → 0 < z ∧ seq_compare usc a b ≤ 0).
Proof.
  intros Hij (ba&Ha&Hina) (bb&Hb&Hinb) Hk. destruct (second_value a b) as (z&E&Hneg&Hpos).
  - destruct asserts; [left|by right]. intros Hs. apply (Hdistinct eq_refl j i bb ba b a); [done..|].
    unfold record_compare. assert (key_compare ukc b a = 0) as ->; [|done].
    by apply (@symmetry _ _ (@Equivalence_Symmetric _ _ (@keq_equiv KeyValue (key_compare ukc) (key_laws ukc usc)))).
  - exists z. split_and!; [done..|]. intros [? Hle]%Hpos. split; [done|].
    by apply (@cmp_flip KeyValue (seq_compare usc) (seq_laws ukc usc)).
Qed.

Lemma merge_loop_pops t ks t' m fuel :
  pops first second t ks t' → (length ks < fuel)%nat →
  WithLoserTree.Merge_loop ukc usc asserts M fuel t m =
    (m' ← foldR (MAdd M) ks m; r ← MGetResult M m'; Ok (fst r, t', snd r)).
Proof.
  intros Hp. revert m fuel. induction Hp as [t E|t k t1 ks t' k' E1 E2 _ IH]; intros m fuel Hf;
    (destruct fuel as [|fuel]; [cbn in Hf; lia|]); cbn [WithLoserTree.Merge_loop foldR].
  - by rewrite E.
  - rewrite E1. cbn [mbind Result_bind]. rewrite E2. cbn [mbind Result_bind fst snd].
    destruct (MAdd M k m) as [m'|]; cbn [mbind Result_bind]; [|done]. apply IH. cbn in Hf. lia.
Qed.

Variable fuel : nat.

(** Before the first batch, or at the end. *)
Definition loser_start (s : WithLoserTree.State M) (l : list KeyValue) : Prop :=
  (Forall (λ bs, StronglySorted (@klt KeyValue (key_compare ukc)) (concat bs)) batches ∧
   WithLoserTree.loser_tree_ M s = LoserTree.create (reader_of <$> batches) ∧
   l = concat (map (@concat _) batches) ∧ (length l < fuel)%nat) ∨
  (PeekWinner (WithLoserTree.loser_tree_ M s) = Ok None ∧
   initialized_ (WithLoserTree.loser_tree_ M s) = true ∧ l = []).
Definition loser_hold (b : bool) (s : WithLoserTree.State M) (l : list KeyValue) : Prop :=
  Holds (WithLoserTree.loser_tree_ M s) l ∧ (b = true → l ≠ []) ∧ (length l < fuel)%nat.

Lemma loser_next f b t l m :
  Holds t l → (length l < f)%nat → (b = true → l ≠ []) → (length l < fuel)%nat →
  next_outcome ukc usc spec (WithLoserTree.reader ukc usc asserts M fuel) loser_start loser_hold b l
    (WithLoserTree.HasNext_loop ukc usc asserts M f (WithLoserTree.mk M t m)).
Proof.
  revert b t l m. induction f as [|f IH]; intros b t l m Ht Hf Hne Hfuel; [lia|].
  destruct (@holding_round (key_compare ukc) (key_laws ukc usc) (seq_compare usc) (seq_laws ukc usc)
              first second (length batches) owned first_none first_some_none (λ _ _, eq_refl) second_some t l Hn Ht)
    as (t1&E1&Hcase).
  cbn [WithLoserTree.HasNext_loop WithLoserTree.loser_tree_ WithLoserTree.merge_function_wrapper_].
  rewrite E1. cbn [mbind Result_bind].
  destruct Hcase as [(->&t2&E2&E3&E4)|(k&ks&t2&t3&l'&E2&Hp&Hsz&Hlen&Ht3&Hl&Hs&Hk&Hlt)]; rewrite E2; cbn [mbind Result_bind].
  { exists []. split_and!; [by right|apply (precede_nil ukc usc spec)|done|]. intros Hb. by destruct (Hne Hb). }
  assert (Hl' : (length l' < length l)%nat) by (rewrite Hl, length_app; cbn; lia).
  assert (Hcons : grouped_cons_ok ukc usc k ks l l').
  { intros gs Hg. by apply (grouped_cons ukc usc k ks gs l l'). }
  pose proof (@merge_run_spec _ M spec HM (k :: ks) m) as Hspec. unfold merge_run, run_from in Hspec. cbn [foldR] in Hspec.
  destruct (MAdd M k (MReset M m)) as [m1|c msg]; cbn [mbind Result_bind] in *; [|by eapply (group_error ukc usc spec)].
  rewrite (merge_loop_pops t2 ks t3 m1) by (done || lia).
  destruct (foldR (MAdd M) ks m1) as [m2|c msg]; cbn [mbind Result_bind] in *; [|by eapply (group_error ukc usc spec)].
  destruct (MGetResult M m2) as [[o m3]|c msg]; cbn [mbind Result_bind result_of fst snd] in *; [|by eapply (group_error ukc usc spec)].
  unfold result_of in Hspec. cbn in Hspec. symmetry in Hspec. pose proof (precede_group ukc usc spec _ _ _ _ _ Hcons Hspec) as Hpre.
  destruct o as [kv|].
  - exists l'. split_and!; [split_and!; [done..|lia]|done|done].
  - apply (outcome_skip ukc usc spec _ _ _ l l'); [done|done|]. apply IH; [done|lia|done|lia].
Qed.

Lemma owned_all j bs : batches !! j = Some bs → Forall (owned j) (concat bs).
Proof. intros Hb. apply Forall_forall. intros kv Hkv. by exists bs. Qed.

#[local] Instance loser_simulates :
  Simulates ukc usc spec (WithLoserTree.reader ukc usc asserts M fuel) loser_start loser_hold.
Proof.
  split.
  - intros s l [(Hsort&Et&->&Hf)|(E1&E2&->)]; cbn; unfold WithLoserTree.NextBatch.
    + destruct (@holding_init (key_compare ukc) (key_laws ukc usc) (seq_compare usc) (seq_laws ukc usc)
                  first second (length batches) owned first_none first_some_none (λ _ _, eq_refl) second_some
                  batches eq_refl Hn Hsort owned_all) as (t&E&Ht&Hpeek).
      rewrite Et, E. cbn [mbind Result_bind]. destruct (PeekWinner t) as [[w|]|c msg] eqn:Ew; cbn.
      * eexists _, _. split; [done|]. cbn. split_and!; [done| |done].
        intros _ Hx. apply Hpeek in Hx. done.
      * eexists _, _. split; [done|]. by apply Hpeek.
      * exfalso. destruct Ht as (_&win&rk&rests&HR&_).
        rewrite (@peek_spec (key_compare ukc) (seq_compare usc) (length batches) owned rk t win Hn (re_settled _ _ _ _ _ _ _ HR)) in Ew. done.
    + unfold InitializeIfNeeded. rewrite E2. cbn [mbind Result_bind]. rewrite E1. cbn. by eexists _, _.
  - intros b [t m] l (Ht&Hne&Hf). by apply loser_next.
Qed.
End Loser.

(** ** The reader with a min-heap *)

Section Heap.
Context (ukc : InternalRow → InternalRow → Z) (usc : option (InternalRow → InternalRow → Z)).
Context {OK : ComparatorsOK ukc usc}.
Import WithMinHeap.

#[local] Instance heap_key : Comparator KeyValue := key_compare ukc.
#[local] Instance heap_key_laws : ComparatorLaws KeyValue := key_laws ukc usc.

Abbreviation rle := (record_le ukc usc).

(** The records behind an iterator and behind a reader. *)
Definition it_list (it : RecordIterator) : list KeyValue :=
  omap (λ r, match r with Ok kv => Some kv | Err _ _ => None end) it.
Definition rd_list (r : RecordReader) : list KeyValue :=
  concat (map it_list (omap (λ b, match b with Ok it => Some it | Err _ _ => None end) r)).

Lemma it_list_Ok l : it_list (map Ok l) = l.
Proof. unfold it_list. induction l as [|x l IH]; cbn; [done|]. by rewrite IH. Qed.
Lemma rd_list_reader_of bs : rd_list (reader_of bs) = concat bs.
Proof.
  unfold rd_list, reader_of. induction bs as [|b bs IH]; cbn; [done|]. by rewrite it_list_Ok, IH.
Qed.

Definition rest (e : Element) : list KeyValue := it_list (iterator e) ++ rd_list (reader e).
Definition all (e : Element) : list KeyValue := kv e :: rest e.
Definition healthy (e : Element) : Prop :=
  (∃ bs its, reader e = reader_of bs ∧ iterator e = map Ok its) ∧ StronglySorted klt (all e).
Definition healthy_reader (r : RecordReader) : Prop :=
  (∃ bs, r = reader_of bs) ∧ StronglySorted klt (rd_list r).

Definition ele (a b : Element) : Prop := rle (kv a) (kv b).
Definition heap_ok (heap : list Element) : Prop := Forall healthy heap ∧ StronglySorted ele heap.

Lemma HeapSorter_spec a b : HeapSorter ukc usc a b = (0 <? record_compare ukc usc (kv a) (kv b)).
Proof.
  unfold HeapSorter, record_compare, seq_compare, key_compare, cmpZ.
  set (r := ukc _ _). set (q := match usc with Some c => _ | None => _ end).
  destruct (Z.eqb_spec r 0); cbn; [|done]. destruct (Z.eqb_spec q 0); cbn; [|done].
  destruct (Z.eqb_spec (sequence_number (kv a)) (sequence_number (kv b))); [apply Z.ltb_ge; lia|].
  destruct (Z.ltb_spec (sequence_number (kv a)) (sequence_number (kv b))); [apply Z.ltb_ge|apply Z.ltb_lt]; lia.
Qed.

Lemma ele_total a b : ele a b ∨ ele b a.
Proof.
  unfold ele, record_le. destruct (@kle_lt_dec _ _ (record_laws ukc usc) (kv a) (kv b)); [by left|right].
  by apply klt_le.
Qed.
Lemma ele_trans a b c : ele a b → ele b c → ele a c.
Proof. apply (@kle_trans _ _ (record_laws ukc usc)). Qed.

Lemma ele_cases a b : ele a b →
  klt (kv a) (kv b) ∨ keq (kv a) (kv b) ∧ @kle KeyValue (seq_compare usc) (kv a) (kv b).
Proof. apply record_le_iff. Qed.

Lemma push_perm e heap : push ukc usc e heap ≡ₚ e :: heap.
Proof. apply pq_push_perm. Qed.
Lemma push_ok e heap : healthy e → heap_ok heap → heap_ok (push ukc usc e heap).
Proof.
  intros He [Hh Hs]. split; [rewrite push_perm; by constructor|].
  apply (pq_push_sorted _ (λ _, True)); [| |apply ele_trans|done|by apply Forall_true|done]; intros x y _ _; rewrite HeapSorter_spec.
  - rewrite Z.ltb_lt. destruct (ele_total y x) as [|Hxy]; [done|]. unfold ele, record_le, kle, CompareTo in Hxy. lia.
  - by rewrite Z.ltb_ge.
Qed.

Definition alls (heap : list Element) : list KeyValue := concat (map all heap).
Definition rests (polled : list Element) : list KeyValue := concat (map rest polled).
Definition reads_list (rs : list RecordReader) : list KeyValue := concat (map rd_list rs).

Lemma concat_map_perm {A B} (f : A → list B) l l' : l ≡ₚ l' → concat (map f l) ≡ₚ concat (map f l').
Proof.
  induction 1 as [|x l l' _ IH|x y l|l l' l'' _ IH1 _ IH2]; cbn; [done|by rewrite IH| |by etransitivity].
  apply Permutation_app_swap_app.
Qed.

Lemma fetch_ok r : healthy_reader r →
  ∃ o, fetch r = Ok o ∧ match o with Some e => healthy e ∧ all e = rd_list r | None => rd_list r = [] end.
Proof.
  intros [[bs ->] Hs]. rewrite rd_list_reader_of in *. induction bs as [|[|k b] bs IH].
  - exists None. done.
  - apply IH. done.
  - eexists. split; [done|].
    assert (E : all (mkElement k (reader_of bs) (map Ok b)) = concat ((k :: b) :: bs)).
    { unfold all, rest. cbn [kv iterator reader]. by rewrite it_list_Ok, rd_list_reader_of. }
    split; [|exact E]. split; [by exists bs, b|]. rewrite <-E in Hs. exact Hs.
Qed.

Lemma fetch_all rs heap : Forall healthy_reader rs → heap_ok heap →
  ∃ heap', foldR (fetch_into ukc usc) rs heap = Ok heap' ∧ heap_ok heap' ∧ alls heap' ≡ₚ alls heap ++ reads_list rs.
Proof.
  intros Hrs. revert heap. induction Hrs as [|r rs Hr _ IH]; intros heap Hh.
  { exists heap. unfold reads_list. cbn. by rewrite app_nil_r. }
  destruct (fetch_ok r Hr) as (o&E&Ho). cbn [foldR]. unfold fetch_into at 2. rewrite E. cbn [mbind Result_bind].
  destruct o as [e|].
  - destruct Ho as [He Ea]. destruct (IH (push ukc usc e heap)) as (heap'&E'&Hh'&Hp'); [by apply push_ok|].
    exists heap'. split_and!; [done..|]. rewrite Hp'. unfold alls, reads_list.
    rewrite (concat_map_perm all _ _ (push_perm e heap)). cbn. rewrite <-Ea. cbn.
    rewrite <-app_assoc. apply (Permutation_app_swap_app (all e)).
  - destruct (IH heap Hh) as (heap'&E'&Hh'&Hp'). exists heap'. split_and!; [done..|].
    rewrite Hp'. unfold reads_list. cbn. by rewrite Ho.
Qed.

Lemma update_ok e : healthy e →
  (∃ e', Update e = Ok (Some e') ∧ healthy e' ∧ all e' = rest e) ∨
  (Update e = Ok None ∧ healthy_reader (reader e) ∧ rest e = rd_list (reader e)).
Proof.
  intros [(bs&its&Er&Ei) Hs]. unfold Update, all, rest in *. rewrite Er, Ei in *.
  rewrite it_list_Ok, rd_list_reader_of in *. destruct its as [|k its]; cbn.
  - right. split_and!; [done| |done]. split; [eauto|]. rewrite rd_list_reader_of. by inversion Hs.
  - left. eexists. split; [done|]. assert (E : all (mkElement k (reader_of bs) (map Ok its)) = k :: its ++ concat bs).
    { unfold all, rest. cbn [kv iterator reader]. by rewrite it_list_Ok, rd_list_reader_of. }
    split; [|exact E]. split; [by exists bs, its|]. inversion Hs as [|?? Hs' _]. change (StronglySorted klt (k :: its ++ concat bs)) in Hs'.
    rewrite <-E in Hs'. exact Hs'.
Qed.

Lemma put_back_all ps heap next : Forall healthy ps → heap_ok heap → Forall healthy_reader next →
  ∃ heap' next', foldR (put_back ukc usc) ps (heap, next) = Ok (heap', next') ∧ heap_ok heap' ∧
    Forall healthy_reader next' ∧ alls heap' ++ reads_list next' ≡ₚ alls heap ++ rests ps ++ reads_list next ∧
    (length heap' + length next' = length heap + length ps + length next)%nat.
Proof.
  intros Hps. revert heap next. induction Hps as [|e ps He _ IH]; intros heap next Hh Hn;
    [exists heap, next; split_and!; [done..|cbn; lia]|].
  cbn [foldR]. unfold put_back at 2. destruct (update_ok e He) as [(e'&->&He'&Ea)|(->&Hr&Er)]; cbn [mbind Result_bind fst snd].
  - destruct (IH (push ukc usc e' heap) next) as (heap'&next'&E&Hh'&Hn'&Hp); [by apply push_ok|done|].
    destruct Hp as [Hp Hlen]. rewrite (Permutation_length (push_perm e' heap)) in Hlen.
    exists heap', next'. split_and!; [done..| |cbn in *; lia]. rewrite Hp. unfold alls, rests.
    rewrite (concat_map_perm all _ _ (push_perm e' heap)). cbn [map concat]. rewrite Ea, <-!app_assoc.
    apply Permutation_app_swap_app.
  - destruct (IH heap (next ++ [reader e])) as (heap'&next'&E&Hh'&Hn'&Hp); [done|by apply Forall_app_2; [|apply Forall_singleton]|].
    destruct Hp as [Hp Hlen]. rewrite length_app in Hlen.
    exists heap', next'. split_and!; [done..| |cbn in *; lia]. rewrite Hp. unfold rests, reads_list. rewrite map_app, concat_app. cbn.
    rewrite app_nil_r, Er, <-!app_assoc. f_equiv. rewrite (Permutation_app_comm (rd_list (reader e))), <-!app_assoc. done.
Qed.

(** The elements with the key of the first one, and the others. *)
Fixpoint same_key (k : InternalRow) (heap : list Element) : list Element * list Element :=
  match heap with
  | [] => ([], [])
  | e :: heap' => if ukc k (key (kv e)) =? 0 then let '(a, b) := same_key k heap' in (e :: a, b) else ([], heap)
  end.

Lemma fetch_same_spec M k heap polled m :
  fetch_same ukc M k false heap polled m =
    let '(a, b) := same_key k heap in
    m' ← foldR (MAdd M) (kv <$> a) m; Ok (b, polled ++ a, m').
Proof.
  revert polled m. induction heap as [|e heap IH]; intros polled m; cbn; [by rewrite app_nil_r|].
  destruct (Z.eqb_spec (ukc k (key (kv e))) 0); cbn; [|by rewrite app_nil_r].
  destruct (same_key k heap) as [a b]. cbn. destruct (MAdd M (kv e) m) as [m'|]; cbn; [|done].
  rewrite IH. destruct (foldR (MAdd M) (kv <$> a) m'); cbn; [|done]. by rewrite <-app_assoc.
Qed.

Lemma same_key_split k heap a b : same_key k heap = (a, b) →
  heap = a ++ b ∧ Forall (λ e, ukc k (key (kv e)) = 0) a ∧
  match b with [] => True | e :: _ => ukc k (key (kv e)) ≠ 0 end.
Proof.
  revert a b. induction heap as [|e heap IH]; intros a b; cbn; [by intros [= <- <-]|].
  destruct (Z.eqb_spec (ukc k (key (kv e))) 0); [|by intros [= <- <-]].
  destruct (same_key k heap) as [a' b']. intros [= <- <-]. destruct (IH a' b' eq_refl) as (->&?&?).
  split_and!; [done|by constructor|done].
Qed.

Lemma alls_split (es : list Element) : alls es ≡ₚ (kv <$> es) ++ rests es.
Proof.
  unfold alls, rests. induction es as [|e es IH]; cbn; [done|]. rewrite IH. f_equiv. apply Permutation_app_swap_app.
Qed.

Lemma healthy_rest e x : healthy e → x ∈ rest e → klt (kv e) x.
Proof. intros [_ Hs] Hx. inversion Hs as [|?? _ Hall]. rewrite Forall_forall in Hall. auto. Qed.

Lemma heap_group top heap a b :
  heap_ok (top :: heap) → same_key (key (kv top)) heap = (a, b) →
  grouped_cons_ok ukc usc (kv top) (kv <$> a) (alls (top :: heap)) (alls b ++ rests (top :: a)) ∧
  heap_ok b ∧ Forall healthy (top :: a).
Proof.
  intros [Hh Hs] Esk. destruct (same_key_split _ _ _ _ Esk) as (->&Ha&Hb).
  change (top :: a ++ b) with ((top :: a) ++ b) in *. apply Forall_app in Hh as [Hha Hhb].
  pose proof (StronglySorted_app_1_l _ _ _ Hs) as Hsa. pose proof (StronglySorted_app_1_r _ _ _ Hs) as Hsb.
  assert (Hcross : ∀ y, y ∈ b → ele top y).
  { intros y Hy. eapply StronglySorted_app_1_elem_of; [exact Hs|by left|done]. }
  split; [|done].
  assert (Hkeq : Forall (λ e, keq (kv top) (kv e)) (top :: a)).
  { constructor; [apply cmp_refl|]. done. }
  assert (Hgt : ∀ e, e ∈ b → klt (kv top) (kv e)).
  { intros e He. destruct b as [|e0 b]; [by apply elem_of_nil in He|].
    assert (H0 : klt (kv top) (kv e0)).
    { assert (Hle : ele top e0) by (apply Hcross; by left). apply ele_cases in Hle as [|[? _]]; done. }
    apply elem_of_cons in He as [->|He]; [done|].
    inversion Hsb as [|?? _ Hall]. rewrite Forall_forall in Hall. specialize (Hall e He).
    apply ele_cases in Hall as [?|[? _]]; [|]; korder. }
  intros gs Hg. eapply grouped_cons; [| | | |exact Hg].
  - change (kv top :: (kv <$> a)) with (kv <$> (top :: a)).
    unfold alls at 1. rewrite map_app, concat_app. fold (alls (top :: a)) (alls b).
    rewrite (alls_split (top :: a)), <-app_assoc. f_equiv. apply Permutation_app_comm.
  - change (kv top :: (kv <$> a)) with (kv <$> (top :: a)). clear -Hsa Hkeq OK.
    induction Hsa as [|x l _ IH Hx]; [constructor|]. inversion_clear Hkeq as [|?? Hkx Hkl]. cbn. constructor; [by apply IH|].
    apply Forall_fmap. rewrite Forall_forall in Hx, Hkl |- *. intros y Hy. specialize (Hx y Hy). specialize (Hkl y Hy).
    apply ele_cases in Hx as [?|[_ ?]]; [|done]. exfalso. korder.
  - apply Forall_fmap. by inversion Hkeq.
  - apply Forall_forall. intros x [Hx|Hx]%elem_of_app.
    + unfold alls in Hx. apply list_elem_of_In, in_concat in Hx as (l&Hl&Hx). apply in_map_iff in Hl as (e&<-&He).
      apply list_elem_of_In in He, Hx. specialize (Hgt e He). apply elem_of_cons in Hx as [->|Hx]; [done|].
      rewrite Forall_forall in Hhb. pose proof (healthy_rest e x (Hhb e He) Hx). korder.
    + unfold rests in Hx. apply list_elem_of_In, in_concat in Hx as (l&Hl&Hx). apply in_map_iff in Hl as (e&<-&He).
      apply list_elem_of_In in He, Hx. rewrite Forall_forall in Hha, Hkeq.
      pose proof (healthy_rest e x (Hha e He) Hx). specialize (Hkeq e He). korder.
Qed.

Context (M : MergeFn KeyValue) (spec : list KeyValue → Result (option KeyValue)) {HM : Implements M spec}.
Variable fuel : nat.

Definition heap_start (s : State (MState M)) (l : list KeyValue) : Prop :=
  polled_ s = [] ∧ heap_ok (min_heap_ s) ∧ Forall healthy_reader (next_batch_readers_ s) ∧
  l ≡ₚ alls (min_heap_ s) ++ reads_list (next_batch_readers_ s) ∧ (length l < fuel)%nat.
Definition heap_hold (b : bool) (s : State (MState M)) (l : list KeyValue) : Prop :=
  heap_ok (min_heap_ s) ∧ next_batch_readers_ s = [] ∧ Forall healthy (polled_ s) ∧
  l ≡ₚ alls (min_heap_ s) ++ rests (polled_ s) ∧
  (if b then polled_ s = [] ∧ min_heap_ s ≠ [] else polled_ s ≠ []) ∧ (length l < fuel)%nat.

Lemma heap_next f b s l :
  heap_hold b s l → (length l < f)%nat →
  next_outcome ukc usc spec (merge_reader ukc usc M fuel) heap_start heap_hold b l (HasNext_loop ukc usc M f s).
Proof.
  revert b s l. induction f as [|f IH]; intros b [next heap polled m] l (Hh&En&Hpo&Hl&Hb&Hfuel) Hf; [lia|].
  cbn [next_batch_readers_ min_heap_ polled_] in *. subst next.
  destruct (put_back_all polled heap []) as (heap'&next'&E&Hh'&Hn'&Hp&Hlen); [done|done|constructor|].
  rewrite app_nil_r in Hp. rewrite <-Hp in Hl. cbn [HasNext_loop]. unfold NextImpl, assert_batch.
  cbn [next_batch_readers_ min_heap_ polled_ wrapper_state mbind Result_bind]. rewrite E. cbn [mbind Result_bind].
  destruct next' as [|r next'].
  2: { exists l. split_and!; [by split_and!|apply (precede_nil ukc usc spec)|done|]. intros ->. destruct Hb as [-> _]. cbn in E. done. }
  destruct heap' as [|top heap'].
  { exfalso. destruct b; [destruct Hb as [-> Hne]; cbn in E; congruence|].
    destruct polled; [done|]. cbn in Hlen. lia. }
  rewrite app_nil_r in Hl. cbn [fetch_same negb andb].
  destruct (same_key (key (kv top)) heap') as [a bb] eqn:Esk.
  destruct (heap_group top heap' a bb Hh' Esk) as (Hcons0&Hhb&Hha).
  set (l' := alls bb ++ rests (top :: a)) in *.
  assert (Hcons : grouped_cons_ok ukc usc (kv top) (kv <$> a) l l').
  { intros gs Hg. eapply grouped_permute; [symmetry; exact Hl|]. by apply Hcons0. }
  assert (Hl' : (length l' < length l)%nat).
  { destruct (grouped_exists ukc usc l') as [gs Hg]. specialize (Hcons gs Hg).
    apply grouped_perm in Hg, Hcons. apply Permutation_length in Hg, Hcons. cbn in Hcons. rewrite length_app in Hcons. lia. }
  pose proof (@merge_run_spec _ M spec HM (kv top :: (kv <$> a)) m) as Hspec.
  unfold merge_run, run_from in Hspec. cbn [foldR] in Hspec.
  destruct (MAdd M (kv top) (MReset M m)) as [m1|c msg]; cbn [mbind Result_bind] in *; [|by eapply (group_error ukc usc spec)].
  rewrite fetch_same_spec, Esk.
  destruct (foldR (MAdd M) (kv <$> a) m1) as [m2|c msg]; cbn [mbind Result_bind] in *; [|by eapply (group_error ukc usc spec)].
  cbn [wrapper_state next_batch_readers_ min_heap_ polled_].
  destruct (MGetResult M m2) as [[o m3]|c msg]; cbn [mbind Result_bind result_of fst snd] in *; [|by eapply (group_error ukc usc spec)].
  unfold result_of in Hspec. cbn in Hspec. symmetry in Hspec.
  pose proof (precede_group ukc usc spec _ _ _ _ _ Hcons Hspec) as Hpre.
  assert (HH : heap_hold false (mk [] bb ([] ++ [top] ++ a) m3) l') by (split_and!; try done; cbn; lia).
  destruct o as [kv0|].
  - exists l'. split_and!; done.
  - apply (outcome_skip ukc usc spec _ _ _ l l'); [done|done|]. apply IH; [done|lia].
Qed.

#[local] Instance heap_simulates :
  Simulates ukc usc spec (merge_reader ukc usc M fuel) heap_start heap_hold.
Proof.
  split.
  - intros [next heap polled m] l (Hpo&Hh&Hn&Hl&Hf). cbn [polled_ min_heap_ next_batch_readers_] in *. subst polled.
    destruct (fetch_all next heap Hn Hh) as (heap'&E&Hh'&Hp). cbn. unfold NextBatch.
    cbn [polled_ min_heap_ next_batch_readers_]. rewrite E. cbn [mbind Result_bind]. eexists _, _. split; [done|].
    rewrite <-Hp in Hl. destruct heap' as [|top heap']; [by apply Permutation_nil_r in Hl|].
    split_and!; try done. cbn [min_heap_ polled_]. unfold rests. cbn. by rewrite app_nil_r.
  - intros b s l HH. apply heap_next; [done|apply HH].
Qed.
End Heap.
