(* ===== verification/Streams.v ===== *)
(** * Byte encodings and data streams

    Fixed-width integers in memory and on streams: [EndianSwapValue]
    (src/paimon/common/utils/math.h), [ByteArrayInputStream],
    [DataInputStream] and [DataOutputStream] (src/paimon/common/io and
    include/paimon/io). Bytes are integers in [0, 256). The byte order of the
    machine is a parameter of everything here. *)

From stdpp Require Import base list strings.
From Stdlib Require Import ZArith Lia.
From S2P Require Import Prelude.
Local Open Scope Z_scope.
Local Coercion Z.of_nat : nat >-> Z.

(** ** Little-endian digits *)

Definition is_byte (b : Z) : Prop := 0 ≤ b < 256.

Fixpoint le_encode (n : nat) (v : Z) : list Z :=
  match n with
  | O => []
  | S n' => v mod 256 :: le_encode n' (v / 256)
  end.
Fixpoint le_decode (l : list Z) : Z :=
  match l with
  | [] => 0
  | b :: l' => b + 256 * le_decode l'
  end.

Lemma le_encode_length n v : length (le_encode n v) = n.
Proof. revert v; induction n; intros v; cbn; auto. Qed.
Lemma le_encode_bytes n v : Forall is_byte (le_encode n v).
Proof.
  revert v; induction n; intros v; cbn; constructor; auto.
  apply Z.mod_pos_bound. lia.
Qed.
Lemma le_decode_encode n v : le_decode (le_encode n v) = v mod 256 ^ n.
Proof.
  revert v; induction n as [|n IH]; intros v; [cbn; by rewrite Z.mod_1_r|].
  cbn [le_encode le_decode]. rewrite IH, Nat2Z.inj_succ, Z.pow_succ_r by lia.
  rewrite Z.rem_mul_r; [lia|lia|]. apply Z.pow_pos_nonneg; lia.
Qed.
Lemma le_decode_bound l : Forall is_byte l → 0 ≤ le_decode l < 256 ^ length l.
Proof.
  induction 1 as [|b l Hb Hl IH]; cbn [le_decode length]; [lia|].
  rewrite Nat2Z.inj_succ, Z.pow_succ_r by lia. unfold is_byte in Hb. lia.
Qed.
Lemma le_encode_decode l : Forall is_byte l → le_encode (length l) (le_decode l) = l.
Proof.
  induction 1 as [|b l Hb Hl IH]; cbn [le_decode le_encode length]; [done|].
  unfold is_byte in Hb.
  replace ((b + 256 * le_decode l) mod 256) with b.
  2:{ rewrite Z.mul_comm, Z.mod_add, Z.mod_small by lia. done. }
  replace ((b + 256 * le_decode l) / 256) with (le_decode l); [by rewrite IH|].
  rewrite Z.mul_comm, Z.div_add, Z.div_small by lia. lia.
Qed.
Lemma le_encode_mod n v : le_encode n (v mod 256 ^ n) = le_encode n v.
Proof.
  rewrite <-le_decode_encode. rewrite <-(le_encode_length n v) at 1.
  apply le_encode_decode, le_encode_bytes.
Qed.

(** ** Machine integers in memory *)

Inductive ByteOrder := PAIMON_BIG_ENDIAN | PAIMON_LITTLE_ENDIAN.
#[export] Instance ByteOrder_eq_dec : EqDecision ByteOrder.
Proof. solve_decision. Defined.

Class Platform := SystemByteOrder : ByteOrder.

(** The integral types the streams are instantiated with. *)
Record IntType := mkIntType { sizeof : nat; is_signed : bool }.
Definition int8_t : IntType := mkIntType 1 true.
Definition int16_t : IntType := mkIntType 2 true.
Definition uint16_t : IntType := mkIntType 2 false.
Definition int32_t : IntType := mkIntType 4 true.
Definition int64_t : IntType := mkIntType 8 true.

(** The value of type [T] whose bits are the digits [u]. *)
Definition of_bits (T : IntType) (u : Z) : Z :=
  if is_signed T then Int.wrap_s (8 * sizeof T) u else Int.wrap_u (8 * sizeof T) u.
Definition in_type (T : IntType) (v : Z) : Prop := of_bits T v = v.

(** Object representation: what [memcpy] of a value copies. *)
Definition to_memory {P : Platform} (T : IntType) (v : Z) : list Z :=
  match SystemByteOrder with
  | PAIMON_LITTLE_ENDIAN => le_encode (sizeof T) v
  | PAIMON_BIG_ENDIAN => rev (le_encode (sizeof T) v)
  end.
Definition from_memory {P : Platform} (T : IntType) (l : list Z) : Z :=
  of_bits T (le_decode match SystemByteOrder with
                       | PAIMON_LITTLE_ENDIAN => l
                       | PAIMON_BIG_ENDIAN => rev l
                       end).

Definition EndianSwapValue (T : IntType) (v : Z) : Z :=
  if (sizeof T =? 1)%nat then v else of_bits T (le_decode (rev (le_encode (sizeof T) v))).

(** The bytes of a value in a given order. *)
Definition ordered_bytes (o : ByteOrder) (T : IntType) (v : Z) : list Z :=
  match o with
  | PAIMON_LITTLE_ENDIAN => le_encode (sizeof T) v
  | PAIMON_BIG_ENDIAN => rev (le_encode (sizeof T) v)
  end.

Lemma pow_256 n : 256 ^ Z.of_nat n = 2 ^ (8 * n).
Proof. by rewrite Z.pow_mul_r by lia. Qed.

Lemma of_bits_mod T u : of_bits T u mod 256 ^ sizeof T = u mod 256 ^ sizeof T.
Proof.
  unfold of_bits, Int.wrap_s, Int.wrap_u. rewrite pow_256.
  assert (0 < 2 ^ (8 * sizeof T)) by (apply Z.pow_pos_nonneg; lia).
  repeat case_match.
  - apply Z.mod_mod. lia.
  - rewrite Zminus_mod, Z.mod_mod, Z.mod_same, Z.sub_0_r, Z.mod_mod; lia.
  - apply Z.mod_mod. lia.
Qed.
Lemma of_bits_cong T u v : u mod 256 ^ sizeof T = v mod 256 ^ sizeof T → of_bits T u = of_bits T v.
Proof. unfold of_bits, Int.wrap_s, Int.wrap_u. rewrite pow_256. by intros ->. Qed.
Lemma of_bits_idemp T u : of_bits T (of_bits T u) = of_bits T u.
Proof. apply of_bits_cong, of_bits_mod. Qed.
Lemma le_encode_of_bits T u : le_encode (sizeof T) (of_bits T u) = le_encode (sizeof T) u.
Proof. by rewrite <-(le_encode_mod _ u), <-of_bits_mod, le_encode_mod. Qed.
Lemma of_bits_decode T v : of_bits T (le_decode (le_encode (sizeof T) v)) = of_bits T v.
Proof. apply of_bits_cong. rewrite le_decode_encode, Z.mod_mod; [done|]. apply Z.pow_nonzero; lia. Qed.

Lemma rev_bytes_id (l : list Z) : length l = 1%nat → rev l = l.
Proof. by destruct l as [|? [|]]. Qed.

Lemma swap_bytes T v : (0 < sizeof T)%nat →
  le_encode (sizeof T) (EndianSwapValue T v) = rev (le_encode (sizeof T) v).
Proof.
  intros Hpos. unfold EndianSwapValue. case_match eqn:E.
  - apply Nat.eqb_eq in E. rewrite rev_bytes_id; [done|]. by rewrite le_encode_length.
  - rewrite le_encode_of_bits.
    set (l := rev _). assert (length l = sizeof T) as <-.
    { unfold l. by rewrite length_rev, le_encode_length. }
    apply le_encode_decode. unfold l. apply Forall_rev, le_encode_bytes.
Qed.

Lemma swap_bits T v : in_type T v →
  of_bits T (le_decode (rev (le_encode (sizeof T) v))) = EndianSwapValue T v.
Proof.
  intros Hv. unfold EndianSwapValue. case_match eqn:E; [|done]. apply Nat.eqb_eq in E.
  rewrite rev_bytes_id by (by rewrite le_encode_length). by rewrite of_bits_decode.
Qed.

Lemma swap_swap T v : (0 < sizeof T)%nat → in_type T v →
  EndianSwapValue T (EndianSwapValue T v) = v.
Proof.
  intros Hpos Hv. unfold EndianSwapValue at 1. case_match eqn:E.
  - unfold EndianSwapValue. by rewrite E.
  - by rewrite swap_bytes, rev_involutive, of_bits_decode by done.
Qed.

(** ** ByteArrayInputStream *)

Module ByteArrayInputStream.
Record t := mk { buffer_ : list Z; position_ : Z }.
Definition create (buffer : list Z) : t := mk buffer 0.
Definition length_ (s : t) : Z := length (buffer_ s).
Definition slice (l : list Z) (pos size : Z) : list Z := take (Z.to_nat size) (drop (Z.to_nat pos) l).

Inductive SeekOrigin := FS_SEEK_SET | FS_SEEK_CUR | FS_SEEK_END.

Definition GetRawData (s : t) : list Z := drop (Z.to_nat (position_ s)) (buffer_ s).
Definition GetPos (s : t) : Z := position_ s.

Definition Seek (offset : Z) (origin : SeekOrigin) (s : t) : Result t :=
  let new_position := match origin with
                      | FS_SEEK_SET => offset
                      | FS_SEEK_CUR => Int.wrap_s 64 (position_ s + offset)
                      | FS_SEEK_END => Int.wrap_s 64 (length_ s + offset)
                      end in
  if (new_position <? 0) || (length_ s <? new_position)
  then Err Invalid "invalid seek"
  else Ok (mk (buffer_ s) new_position).

(** The bytes copied into the caller's buffer and the stream after the read. *)
Definition Read (size : Z) (s : t) : Result (list Z * t) :=
  if (size <? 0) || (length_ s - position_ s <? size)
  then Err Invalid "ByteArrayInputStream assert boundary failed"
  else Ok (slice (buffer_ s) (position_ s) size, mk (buffer_ s) (position_ s + size)).

Definition ReadAt (size offset : Z) (s : t) : Result (list Z) :=
  if (size <? 0) || (offset <? 0) || (length_ s <? offset) || (length_ s - offset <? size)
  then Err Invalid "ByteArrayInputStream boundary check failed"
  else Ok (slice (buffer_ s) offset size).

Definition wf (s : t) : Prop := 0 ≤ position_ s ≤ length_ s.

Lemma slice_length l pos size : 0 ≤ pos → 0 ≤ size → pos + size ≤ length l →
  Z.of_nat (length (slice l pos size)) = size.
Proof. intros. unfold slice. rewrite length_take, length_drop. lia. Qed.

Lemma slice_app l1 l2 l3 :
  slice (l1 ++ l2 ++ l3) (length l1) (length l2) = l2.
Proof.
  unfold slice. rewrite !Nat2Z.id, drop_app_length. apply take_app_length.
Qed.

(** A stream positioned in front of [ahead]. *)
Definition at_bytes (pre ahead : list Z) : t := mk (pre ++ ahead) (length pre).

Lemma Read_app pre l post :
  Read (length l) (at_bytes pre (l ++ post)) = Ok (l, at_bytes (pre ++ l) post).
Proof.
  unfold Read, at_bytes, length_; cbn [buffer_ position_].
  rewrite !length_app.
  rewrite (proj2 (Z.ltb_ge _ _)) by lia. rewrite (proj2 (Z.ltb_ge _ _)) by lia. cbn [orb].
  rewrite slice_app. by rewrite <-app_assoc, Nat2Z.inj_add.
Qed.

(** Where [Seek] counts from. *)
Definition origin_position (origin : SeekOrigin) (s : t) : Z :=
  match origin with FS_SEEK_SET => 0 | FS_SEEK_CUR => position_ s | FS_SEEK_END => length_ s end.

(** A sum that overflows is negative, so it is no position of the stream. *)
Lemma wrapped_position n base offset : 0 ≤ base ≤ n → n < 2 ^ 63 → Int.in_s 64 offset →
  let p := Int.wrap_s 64 (base + offset) in
  (0 ≤ p ≤ n ↔ 0 ≤ base + offset ≤ n) ∧ (0 ≤ p → p = base + offset).
Proof.
  intros Hb Hn Ho. unfold Int.in_s in Ho. change (64 - 1) with 63 in Ho. cbn zeta.
  destruct (Z.ltb_spec (base + offset) (2 ^ 63)).
  - rewrite Int.wrap_s_id; [lia|lia|]. unfold Int.in_s. change (64 - 1) with 63. lia.
  - unfold Int.wrap_s. change (64 - 1) with 63. rewrite (Z.mod_small (base + offset)) by lia.
    rewrite (proj2 (Z.ltb_ge _ _)) by lia. lia.
Qed.

Lemma Seek_spec offset origin s : wf s → length_ s < 2 ^ 63 → Int.in_s 64 offset →
  let p := origin_position origin s + offset in
  (0 ≤ p ≤ length_ s ∧ Seek offset origin s = Ok (mk (buffer_ s) p)) ∨
  (¬ 0 ≤ p ≤ length_ s ∧ ∃ msg, Seek offset origin s = Err Invalid msg).
Proof.
  intros [Hp Hl] Hn Ho p.
  assert (∃ q, Seek offset origin s = (if (q <? 0) || (length_ s <? q) then Err Invalid "invalid seek" else Ok (mk (buffer_ s) q)) ∧
    (0 ≤ q ≤ length_ s ↔ 0 ≤ p ≤ length_ s) ∧ (0 ≤ q → q = p)) as (q&->&Hq&Eq).
  { subst p. destruct origin; (eexists; split; [reflexivity|]); cbn [origin_position]; [lia|apply wrapped_position; lia || done..]. }
  destruct (Z.ltb_spec q 0), (Z.ltb_spec (length_ s) q); cbn [orb];
    [right; split; [lia|by eexists]..|left; split; [lia|by rewrite Eq]].
Qed.

Lemma Read_spec size s : wf s →
  (0 ≤ size ∧ position_ s + size ≤ length_ s ∧
   Read size s = Ok (slice (buffer_ s) (position_ s) size, mk (buffer_ s) (position_ s + size))) ∨
  (¬ (0 ≤ size ∧ position_ s + size ≤ length_ s) ∧ ∃ msg, Read size s = Err Invalid msg).
Proof.
  intros [Hp Hl]. unfold Read. destruct (Z.ltb_spec size 0), (Z.ltb_spec (length_ s - position_ s) size); cbn [orb];
    [right; split; [lia|by eexists]..|left; split_and!; [lia|lia|done]].
Qed.

Lemma ReadAt_spec size offset s :
  (0 ≤ size ∧ 0 ≤ offset ∧ offset + size ≤ length_ s ∧ ReadAt size offset s = Ok (slice (buffer_ s) offset size)) ∨
  (¬ (0 ≤ size ∧ 0 ≤ offset ∧ offset + size ≤ length_ s) ∧ ∃ msg, ReadAt size offset s = Err Invalid msg).
Proof.
  unfold ReadAt. destruct (Z.ltb_spec size 0), (Z.ltb_spec offset 0), (Z.ltb_spec (length_ s) offset), (Z.ltb_spec (length_ s - offset) size);
    cbn [orb]; first [right; split; [lia|by eexists] | left; split_and!; [lia..|done]].
Qed.

(** [size] bytes of the buffer from [pos] on. *)
Definition bytes_at (s : t) (pos size : Z) (l : list Z) : Prop :=
  Z.of_nat (length l) = size ∧ ∀ i, (i < length l)%nat → l !! i = buffer_ s !! (Z.to_nat pos + i)%nat.

Lemma slice_bytes s pos size : 0 ≤ size → 0 ≤ pos → pos + size ≤ length_ s → bytes_at s pos size (slice (buffer_ s) pos size).
Proof.
  unfold length_. intros. split; [by apply slice_length|]. intros i Hi. unfold slice in *. rewrite length_take in Hi.
  rewrite lookup_take_lt by lia. by rewrite lookup_drop.
Qed.

(** C40. Every operation keeps the position within the buffer. A read returns
    exactly the bytes at the position and moves behind them, a positioned read
    returns those at the offset, and a seek moves to the offset from its origin;
    each fails, as invalid, exactly when the bytes or the position are not in the
    buffer. In particular the 64-bit sum of [Seek] accepts no position by
    overflowing. *)
Theorem byte_stream_operations s size offset origin :
  wf s → length_ s < 2 ^ 63 → Int.in_s 64 offset →
  let target := origin_position origin s + offset in
  match Read size s with
  | Ok (l, s') => wf s' ∧ buffer_ s' = buffer_ s ∧ position_ s' = position_ s + size ∧ bytes_at s (position_ s) size l
  | Err c _ => c = Invalid ∧ (size < 0 ∨ length_ s < position_ s + size)
  end ∧
  match ReadAt size offset s with
  | Ok l => 0 ≤ offset ∧ offset + size ≤ length_ s ∧ bytes_at s offset size l
  | Err c _ => c = Invalid ∧ (size < 0 ∨ offset < 0 ∨ length_ s < offset + size)
  end ∧
  match Seek offset origin s with
  | Ok s' => wf s' ∧ buffer_ s' = buffer_ s ∧ position_ s' = target
  | Err c _ => c = Invalid ∧ (target < 0 ∨ length_ s < target)
  end.
Proof.
  intros Hwf Hn Ho target. split_and!.
  - destruct (Read_spec size s Hwf) as [(?&?&->)|[? [msg ->]]]; [|split; [done|lia]].
    destruct Hwf. split_and!; [unfold wf, length_ in *; cbn; lia|done|done|apply slice_bytes; lia].
  - destruct (ReadAt_spec size offset s) as [(?&?&?&->)|[? [msg ->]]]; [|split; [done|lia]].
    split_and!; [lia|lia|by apply slice_bytes].
  - destruct (Seek_spec offset origin s Hwf Hn Ho) as [[? ->]|[? [msg ->]]]; [|split; [done|lia]]. done.
Qed.

Lemma byte_stream_operations_witness :
  Read 2 (mk [1; 2; 3] 1) = Ok ([2; 3], mk [1; 2; 3] 3) ∧ wf (mk [1; 2; 3] 3) ∧
  Seek (-1) FS_SEEK_CUR (mk [1; 2; 3] 1) = Ok (mk [1; 2; 3] 0) ∧
  0 = origin_position FS_SEEK_CUR (mk [1; 2; 3] 1) + -1.
Proof.
  assert (Hwf : wf (mk [1; 2; 3] 1)) by (unfold wf, length_; cbn; lia).
  destruct (byte_stream_operations (mk [1; 2; 3] 1) 2 (-1) FS_SEEK_CUR Hwf eq_refl ltac:(unfold Int.in_s; lia)) as (Hr&_&Hs).
  split_and!; [reflexivity|apply Hr|reflexivity|apply Hs].
Defined.
End ByteArrayInputStream.

(** ** DataInputStream *)

Module DataInputStream.
Import ByteArrayInputStream.
Section DataInputStream.
Context {P : Platform}.

(** [byte_order_] is an argument: [SetOrder] is called before any read. *)
Definition NeedSwap (byte_order_ : ByteOrder) : bool := negb (bool_decide (SystemByteOrder = byte_order_)).

Definition AssertReadLength (read_length actual_read_length : Z) : Result unit :=
  if read_length =? actual_read_length then Ok () else Err Invalid "assert read length failed".

Definition AssertBoundary (need_length : Z) (s : t) : Result unit :=
  if need_length <? 0 then Err Invalid "DataInputStream need length is less than 0"
  else
    let pos := GetPos s in
    let length := length_ s in
    if (pos <? 0) || (length <? 0) || (length <? pos) || (length - pos <? need_length)
    then Err Invalid "DataInputStream boundary check failed"
    else Ok ().

(** [Read] and [ReadBytes], which only differ in the type of the buffer. *)
Definition ReadBytes (size : Z) (s : t) : Result (list Z * t) :=
  _ ← AssertBoundary size s;
  r ← Read size s;
  _ ← AssertReadLength size (length (fst r));
  Ok r.

Definition ReadValue (T : IntType) (byte_order_ : ByteOrder) (s : t) : Result (Z * t) :=
  let read_length := Z.of_nat (sizeof T) in
  _ ← AssertBoundary read_length s;
  r ← Read read_length s;
  _ ← AssertReadLength read_length (length (fst r));
  let value := from_memory T (fst r) in
  Ok (if NeedSwap byte_order_ then EndianSwapValue T value else value, snd r).

Definition ReadString (byte_order_ : ByteOrder) (s : t) : Result (list Z * t) :=
  r ← ReadValue uint16_t byte_order_ s;
  let '(read_length, s) := r in
  _ ← AssertBoundary read_length s;
  r ← Read read_length s;
  _ ← AssertReadLength read_length (length (fst r));
  Ok r.

Lemma AssertBoundary_app pre l post :
  AssertBoundary (length l) (at_bytes pre (l ++ post)) = Ok ().
Proof.
  unfold AssertBoundary, at_bytes, GetPos, length_; cbn [buffer_ position_].
  rewrite !length_app. by repeat (rewrite (proj2 (Z.ltb_ge _ _)) by lia).
Qed.

Lemma ReadBytes_app pre l post :
  ReadBytes (length l) (at_bytes pre (l ++ post)) = Ok (l, at_bytes (pre ++ l) post).
Proof.
  unfold ReadBytes. rewrite AssertBoundary_app. cbn. rewrite Read_app. cbn.
  unfold AssertReadLength. by rewrite Z.eqb_refl.
Qed.

Lemma swap_from_memory T o v : (0 < sizeof T)%nat → in_type T v →
  (let w := from_memory T (ordered_bytes o T v) in
   if NeedSwap o then EndianSwapValue T w else w) = v.
Proof.
  intros Hpos Hv. unfold NeedSwap, from_memory, ordered_bytes.
  destruct o, SystemByteOrder eqn:E; case_bool_decide; cbn; try congruence.
  all: rewrite ?rev_involutive, ?of_bits_decode; try done.
  all: rewrite swap_bits by done; by apply swap_swap.
Qed.

Lemma ordered_bytes_length o T v : length (ordered_bytes o T v) = sizeof T.
Proof. destruct o; cbn; by rewrite ?length_rev, le_encode_length. Qed.

Lemma ReadValue_app T o pre v post : (0 < sizeof T)%nat → in_type T v →
  ReadValue T o (at_bytes pre (ordered_bytes o T v ++ post)) =
  Ok (v, at_bytes (pre ++ ordered_bytes o T v) post).
Proof.
  intros Hpos Hv. unfold ReadValue.
  rewrite <-(ordered_bytes_length o T v), AssertBoundary_app. cbn [mbind Result_bind].
  rewrite Read_app. cbn [mbind Result_bind fst snd].
  unfold AssertReadLength. rewrite Z.eqb_refl. cbn [mbind Result_bind].
  do 2 f_equal. by apply swap_from_memory.
Qed.
End DataInputStream.
End DataInputStream.

(** ** DataOutputStream *)

(** An output stream: [Write] reports how many bytes it took. The contract is
    that of an append-only file: the bytes taken are appended. *)
Class OutputStream (S : Type) := {
  os_Write : list Z → S → Result (Z * S);
  os_contents : S → list Z
}.
Class OutputStreamLaws (S : Type) {O : OutputStream S} : Prop :=
  os_append : ∀ l s n s', os_Write l s = Ok (n, s') →
    0 ≤ n ≤ Z.of_nat (length l) ∧ os_contents s' = os_contents s ++ take (Z.to_nat n) l.

Module DataOutputStream.
Section DataOutputStream.
Context {P : Platform} {S : Type} `{OutputStream S}.

Definition AssertWriteLength (write_length actual_write_length : Z) : Result unit :=
  if write_length =? actual_write_length then Ok () else Err Invalid "assert write length failed".
Definition NeedSwap (byte_order_ : ByteOrder) : bool := negb (bool_decide (SystemByteOrder = byte_order_)).

Definition WriteValue (T : IntType) (byte_order_ : ByteOrder) (value : Z) (s : S) : Result S :=
  let write_value := if NeedSwap byte_order_ then EndianSwapValue T value else value in
  r ← os_Write (to_memory T write_value) s;
  _ ← AssertWriteLength (sizeof T) (fst r);
  Ok (snd r).

Definition WriteBytes (bytes : list Z) (s : S) : Result S :=
  r ← os_Write bytes s;
  _ ← AssertWriteLength (length bytes) (fst r);
  Ok (snd r).

(** [write_length] is a [uint16_t] initialised with the [size_t] of the string. *)
Definition WriteString (byte_order_ : ByteOrder) (value : list Z) (s : S) : Result S :=
  let write_length := Int.wrap_u 16 (length value) in
  s ← WriteValue uint16_t byte_order_ write_length s;
  r ← os_Write (take (Z.to_nat write_length) value) s;
  _ ← AssertWriteLength write_length (fst r);
  Ok (snd r).

Context `{!OutputStreamLaws S}.

Lemma write_all l n s s' : os_Write l s = Ok (n, s') → n = Z.of_nat (length l) →
  os_contents s' = os_contents s ++ l.
Proof.
  intros [_ ->]%os_append ->. by rewrite Nat2Z.id, firstn_all.
Qed.

Lemma to_memory_length T v : length (to_memory T v) = sizeof T.
Proof. unfold to_memory. case_match; by rewrite ?length_rev, le_encode_length. Qed.

Lemma to_memory_ordered T o v : (0 < sizeof T)%nat →
  to_memory T (if NeedSwap o then EndianSwapValue T v else v) = ordered_bytes o T v.
Proof.
  intros Hpos. unfold to_memory, NeedSwap, ordered_bytes.
  destruct o, SystemByteOrder eqn:E; case_bool_decide; cbn; try congruence.
  all: by rewrite ?swap_bytes, ?rev_involutive.
Qed.

Lemma WriteValue_contents T o v s s' : (0 < sizeof T)%nat → WriteValue T o v s = Ok s' →
  os_contents s' = os_contents s ++ ordered_bytes o T v.
Proof.
  intros Hpos. unfold WriteValue. intros ([n s1]&Hw&(?&Ha&[= <-])%bind_Ok)%bind_Ok.
  rewrite <-to_memory_ordered by done. eapply write_all; [done|].
  rewrite to_memory_length. unfold AssertWriteLength in Ha. cbn in Ha. case_match; [lia|done].
Qed.
End DataOutputStream.
End DataOutputStream.

(** ** Round trips *)

Section Roundtrip.
Import ByteArrayInputStream.
Context {S : Type} `{OutputStreamLaws S}.

Lemma at_bytes_split (s s' : S) l post : os_contents s' = os_contents s ++ l →
  mk (os_contents s' ++ post) (length (os_contents s)) = at_bytes (os_contents s) (l ++ post) ∧
  mk (os_contents s' ++ post) (length (os_contents s')) = at_bytes (os_contents s ++ l) post.
Proof. unfold at_bytes. intros ->. by rewrite <-app_assoc. Qed.

(** A value written to a stream by a machine of either byte order is read
    back by a machine of either byte order, when the two streams are set to the
    same order: the position moves from the end of what had been written to
    behind the value, whatever follows it. *)
Theorem data_stream_value_roundtrip (writer reader : Platform) T o v (s s' : S) post :
  (0 < sizeof T)%nat → in_type T v →
  @DataOutputStream.WriteValue writer S _ T o v s = Ok s' →
  @DataInputStream.ReadValue reader T o (mk (os_contents s' ++ post) (length (os_contents s))) =
  Ok (v, mk (os_contents s' ++ post) (length (os_contents s'))).
Proof.
  intros Hpos Hv Hw. apply DataOutputStream.WriteValue_contents in Hw; [|done].
  destruct (at_bytes_split s s' _ post Hw) as [-> ->]. by apply DataInputStream.ReadValue_app.
Qed.

Lemma wrap_u16_in_type n : in_type uint16_t (Int.wrap_u 16 n).
Proof. unfold in_type, of_bits, Int.wrap_u. cbn. rewrite Z.mod_mod; done. Qed.

(** What [ReadString] reads back is the prefix of the written string whose
    length is the string's length modulo 2^16: the whole string when it is
    shorter than 65536 bytes, and otherwise a truncated one, although
    [WriteString] reported success. *)
Theorem data_stream_string_roundtrip (writer reader : Platform) o value (s s' : S) post :
  @DataOutputStream.WriteString writer S _ o value s = Ok s' →
  @DataInputStream.ReadString reader o (mk (os_contents s' ++ post) (length (os_contents s))) =
    Ok (take (Z.to_nat (Z.of_nat (length value) mod 65536)) value,
        mk (os_contents s' ++ post) (length (os_contents s'))).
Proof.
  unfold DataOutputStream.WriteString. set (n := Int.wrap_u 16 _).
  intros (s1&Hv&([m s2]&Hw&(?&Ha&[= <-])%bind_Ok)%bind_Ok)%bind_Ok.
  apply DataOutputStream.WriteValue_contents in Hv; [|cbn; lia].
  assert (Hn : 0 ≤ n ≤ Z.of_nat (length value)).
  { unfold n, Int.wrap_u. split; [apply Z.mod_pos_bound; lia|apply Z.mod_le; lia]. }
  assert (Hlen : Z.of_nat (length (take (Z.to_nat n) value)) = n) by (rewrite length_take; lia).
  unfold DataOutputStream.AssertWriteLength in Ha; cbn in Ha.
  destruct (Z.eqb_spec n m) as [<-|]; [|done]. cbn [snd].
  apply DataOutputStream.write_all in Hw; [|done].
  rewrite Hv, <-app_assoc in Hw.
  destruct (at_bytes_split s s2 _ post Hw) as [-> ->].
  unfold DataInputStream.ReadString.
  rewrite <-app_assoc, DataInputStream.ReadValue_app by (cbn; (lia || apply wrap_u16_in_type)).
  cbn [mbind Result_bind]. fold n.
  set (pre := os_contents s ++ _). set (l := take _ value) in *.
  pose proof (DataInputStream.AssertBoundary_app pre l post) as Hb.
  pose proof (Read_app pre l post) as Hr. rewrite Hlen in Hb, Hr.
  rewrite Hb. cbn [mbind Result_bind]. rewrite Hr. cbn [mbind Result_bind fst].
  unfold DataInputStream.AssertReadLength. rewrite Hlen, Z.eqb_refl. cbn. unfold pre.
  unfold at_bytes. by rewrite !app_assoc.
Qed.
End Roundtrip.

(** A stream that takes every byte, for examples. *)
#[export] Instance list_stream : OutputStream (list Z) := {
  os_Write l s := Ok (Z.of_nat (length l), s ++ l);
  os_contents s := s
}.
#[export] Instance list_stream_laws : OutputStreamLaws (list Z).
Proof. intros l s n s' [= <- <-]. split; [lia|]. by rewrite Nat2Z.id, firstn_all. Qed.

Lemma data_stream_value_roundtrip_witness :
  @DataInputStream.ReadValue PAIMON_BIG_ENDIAN int32_t PAIMON_BIG_ENDIAN
    (ByteArrayInputStream.mk ([255; 255; 255; 254] ++ [7]) 0) =
  Ok (-2, ByteArrayInputStream.mk ([255; 255; 255; 254] ++ [7]) 4).
Proof.
  exact (data_stream_value_roundtrip PAIMON_LITTLE_ENDIAN PAIMON_BIG_ENDIAN int32_t
           PAIMON_BIG_ENDIAN (-2) ([] : list Z) [255; 255; 255; 254] [7]
           ltac:(cbn; lia) eq_refl eq_refl).
Defined.

Lemma data_stream_string_roundtrip_witness :
  @DataInputStream.ReadString PAIMON_LITTLE_ENDIAN PAIMON_BIG_ENDIAN
    (ByteArrayInputStream.mk ([0; 2; 104; 105] ++ []) 0) =
  Ok ([104; 105], ByteArrayInputStream.mk ([0; 2; 104; 105] ++ []) 4).
Proof.
  exact (data_stream_string_roundtrip PAIMON_LITTLE_ENDIAN PAIMON_LITTLE_ENDIAN PAIMON_BIG_ENDIAN
           [104; 105] ([] : list Z) [0; 2; 104; 105] [] eq_refl).
Defined.
