(* ===== verification/VarLengthInt.v ===== *)
(** * Variable-length integers

    [VarLengthIntUtils] (src/paimon/common/utils/var_length_int_utils.h): the
    base-128 encoding of non-negative 32- and 64-bit integers, the decoders of
    unbounded buffers and the readers of bounded inputs. *)

From stdpp Require Import base list strings.
From Stdlib Require Import ZArith Lia.
From S2P Require Import Prelude.
Local Open Scope Z_scope.
Local Coercion Z.of_nat : nat >-> Z.

Definition kMaxVarIntSize : Z := 5.
Definition kMaxVarLongSize : Z := 9.

(** The loop of [EncodeInt] and [EncodeLong]; five and nine rounds are enough for
    31 and 63 bits. *)
Fixpoint Encode_loop (fuel : nat) (value : Z) : list Z :=
  match fuel with
  | O => [value]
  | S fuel' =>
      if Z.land value (Z.lnot 127) =? 0 then [value]
      else Z.lor (Z.land value 127) 128 :: Encode_loop fuel' (Z.shiftr value 7)
  end.
Definition EncodeInt (value : Z) : Result (list Z) :=
  if value <? 0 then Err Invalid "negative value for VarLengthInt Encoding"
  else Ok (Encode_loop 5 value).
Definition EncodeLong (value : Z) : Result (list Z) :=
  if value <? 0 then Err Invalid "negative value for VarLengthInt Encoding"
  else Ok (Encode_loop 9 value).

(** [data[offset]]; reading outside of the buffer is undefined in the source. *)
Definition get_byte (data : list Z) (offset : nat) : Result Z :=
  match data !! offset with Some b => Ok b | None => Err UnknownError "read out of bounds" end.

(** The loop of the decoders: [w] is the width of the accumulator, [fuel] the
    number of rounds ([shift] < [w] in steps of 7). *)
Fixpoint Decode_loop (w : Z) (fuel : nat) (shift result : Z) (data : list Z) (offset : nat)
    : Result (Z * nat) :=
  match fuel with
  | O => Err Invalid "Malformed varint: too many continuation bytes"
  | S fuel' =>
      byte_val ← get_byte data offset;
      let offset := S offset in
      let result := Z.lor result (Int.wrap_u w (Z.shiftl (Z.land byte_val 127) shift)) in
      if Z.land byte_val 128 =? 0 then
        let signed_result := Int.wrap_s w result in
        if signed_result <? 0 then Err Invalid "Malformed varint: decoded negative value"
        else Ok (signed_result, offset)
      else Decode_loop w fuel' (shift + 7) result data offset
  end.
Definition DecodeInt (data : list Z) (offset : nat) : Result (Z * nat) :=
  first_byte ← get_byte data offset;
  if Z.land first_byte 128 =? 0 then Ok (first_byte, S offset)
  else Decode_loop 32 5 0 0 data offset.
Definition DecodeLong (data : list Z) (offset : nat) : Result (Z * nat) :=
  first_byte ← get_byte data offset;
  if Z.land first_byte 128 =? 0 then Ok (first_byte, S offset)
  else Decode_loop 64 10 0 0 data offset.

(** [ReadVarLenInt] and [ReadVarLenLong] on the bytes left in the input. *)
Fixpoint ReadVarLen_loop (w : Z) (fuel : nat) (shift result : Z) (input : list Z) : Result (Z * list Z) :=
  match fuel with
  | O => Err Invalid "Malformed varint input."
  | S fuel' =>
      match input with
      | [] => Err Invalid "Truncated varint input."
      | value :: rest =>
          let result := Z.lor result (Int.wrap_u w (Z.shiftl (Z.land value 127) shift)) in
          if Z.land value 128 =? 0 then
            if 2 ^ (w - 1) - 1 <? result then Err Invalid "varint is out of bound"
            else Ok (result, rest)
          else ReadVarLen_loop w fuel' (shift + 7) result rest
      end
  end.
Definition ReadVarLenInt (input : list Z) : Result (Z * list Z) := ReadVarLen_loop 32 5 0 0 input.
Definition ReadVarLenLong (input : list Z) : Result (Z * list Z) := ReadVarLen_loop 64 9 0 0 input.

(** ** Round trip *)

Lemma land_lnot_127 v : 0 ≤ v → (Z.land v (Z.lnot 127) =? 0) = (v <? 128).
Proof.
  intros Hv. assert (Hl : Z.land v (Z.lnot 127) = Z.shiftl (Z.shiftr v 7) 7).
  { apply Z.bits_inj'. intros i Hi. rewrite Z.land_spec, Z.lnot_spec by done.
    change 127 with (Z.ones 7). destruct (Z.ltb_spec i 7).
    - rewrite Z.shiftl_spec_low, Z.ones_spec_low by lia. apply andb_false_r.
    - rewrite Z.shiftl_spec, Z.shiftr_spec, Z.ones_spec_high by lia.
      cbn. rewrite andb_true_r. f_equal. lia. }
  rewrite Hl, Z.shiftl_mul_pow2, Z.shiftr_div_pow2 by lia.
  pose proof (Z.div_mod v (2 ^ 7)). pose proof (Z.mod_pos_bound v (2 ^ 7)).
  destruct (Z.eqb_spec (v / 2 ^ 7 * 2 ^ 7) 0), (Z.ltb_spec v 128); lia.
Qed.

Lemma continuation_value v : 0 ≤ v → Z.lor (Z.land v 127) 128 = 128 + v mod 128.
Proof.
  intros Hv. change 127 with (Z.ones 7). rewrite Z.land_ones by lia. change (2 ^ 7) with 128.
  pose proof (Z.mod_pos_bound v 128).
  pose proof (lor_shiftl_add 7 1 (v mod 128)) as Hl. change (Z.shiftl 1 7) with 128 in Hl.
  rewrite Z.lor_comm, Hl; lia.
Qed.

Lemma continuation_byte v : 0 ≤ v →
  let b := Z.lor (Z.land v 127) 128 in Z.land b 127 = v mod 128 ∧ (Z.land b 128 =? 0) = false.
Proof.
  intros Hv. cbn zeta. split.
  - rewrite continuation_value by done. change 127 with (Z.ones 7). rewrite Z.land_ones by lia.
    change (2 ^ 7) with 128. rewrite <-Z.add_mod_idemp_l, Z.mod_same, Z.add_0_l, Z.mod_mod by lia. done.
  - apply Z.eqb_neq. intros H0.
    assert (Z.testbit (Z.land (Z.lor (Z.land v 127) 128) 128) 7 = true) as Ht; [|by rewrite H0 in Ht].
    rewrite Z.land_spec, Z.lor_spec. cbn. by rewrite orb_true_r.
Qed.

Lemma final_byte v : 0 ≤ v < 128 → Z.land v 127 = v ∧ (Z.land v 128 =? 0) = true.
Proof.
  intros Hv. split.
  - change 127 with (Z.ones 7). rewrite Z.land_ones by lia. apply Z.mod_small. lia.
  - apply Z.eqb_eq. apply Z.bits_inj'. intros i Hi. rewrite Z.land_spec, Z.bits_0.
    destruct (Z.eqb_spec i 7) as [->|Hne].
    + rewrite <-(Z.mod_small v (2 ^ 7)), Z.mod_pow2_bits_high by lia. done.
    + change 128 with (2 ^ 7). rewrite (Z.pow2_bits_false 7 i) by lia. apply andb_false_r.
Qed.

(** One digit is added to the accumulator. *)
Lemma accumulate w shift result d : 0 ≤ shift → 0 ≤ result < 2 ^ shift → 0 ≤ d →
  d * 2 ^ shift < 2 ^ w →
  Z.lor result (Int.wrap_u w (Z.shiftl d shift)) = result + d * 2 ^ shift.
Proof.
  intros Hs Hr Hd Hw. unfold Int.wrap_u.
  assert (0 ≤ d * 2 ^ shift) by (apply Z.mul_nonneg_nonneg; lia).
  rewrite Z.mod_small by (rewrite Z.shiftl_mul_pow2; lia).
  rewrite Z.lor_comm, lor_shiftl_add by lia. lia.
Qed.

Lemma digit_step v shift (result : Z) : 0 ≤ v → 0 ≤ shift → 0 ≤ result < 2 ^ shift →
  let result' := result + v mod 128 * 2 ^ shift in
  0 ≤ result' < 2 ^ (shift + 7) ∧ result' + v / 128 * 2 ^ (shift + 7) = result + v * 2 ^ shift ∧
  0 ≤ v mod 128 ∧ v mod 128 * 2 ^ shift ≤ v * 2 ^ shift.
Proof.
  intros Hv Hs Hr. rewrite Z.pow_add_r by lia. change (2 ^ 7) with 128.
  pose proof (Z.div_mod v 128 ltac:(lia)). pose proof (Z.mod_pos_bound v 128 ltac:(lia)).
  pose proof (Z.div_pos v 128 ltac:(lia) ltac:(lia)).
  set (q := v / 128) in *. set (r := v mod 128) in *. clearbody q r. subst v.
  set (p := 2 ^ shift) in *. clearbody p. cbn zeta. nia.
Qed.

(** The digits of [v] fit into [fuel] rounds. *)
Lemma Encode_loop_cases fuel v : 0 ≤ v < 128 ^ (S fuel)%nat →
  (v < 128 ∧ Encode_loop fuel v = [v]) ∨
  (∃ fuel', fuel = S fuel' ∧ 128 ≤ v ∧
     Encode_loop fuel v = Z.lor (Z.land v 127) 128 :: Encode_loop fuel' (v / 128) ∧
     0 ≤ v / 128 < 128 ^ (S fuel')%nat).
Proof.
  intros Hv. destruct fuel as [|fuel]; cbn [Encode_loop].
  { left. split; [|done]. change (128 ^ 1%nat) with 128 in Hv. lia. }
  rewrite land_lnot_127 by lia. destruct (Z.ltb_spec v 128); [by left|right].
  exists fuel. split_and!; try done.
  - by rewrite Z.shiftr_div_pow2.
  - apply Z.div_pos; lia.
  - apply Z.div_lt_upper_bound; [lia|]. rewrite (Nat2Z.inj_succ (S fuel)), Z.pow_succ_r in Hv by lia. lia.
Qed.

Lemma Encode_loop_bytes fuel v : 0 ≤ v < 128 ^ (S fuel)%nat →
  Forall (λ b, 0 ≤ b < 256) (Encode_loop fuel v) ∧ (length (Encode_loop fuel v) ≤ S fuel)%nat.
Proof.
  revert v; induction fuel as [|fuel IH]; intros v Hv;
    destruct (Encode_loop_cases _ v Hv) as [[Hlt ->]|(f&Hf&Hge&->&Hd)]; try done.
  1, 2: split; [constructor; [lia|constructor]|cbn; lia].
  injection Hf as <-. destruct (IH _ Hd) as [IHf IHl]. split; [|cbn; lia]. constructor; [|done].
  rewrite continuation_value by lia. pose proof (Z.mod_pos_bound v 128). lia.
Qed.

Lemma Decode_loop_encode w rounds fuel v shift result pre post :
  0 < w → 0 ≤ v < 128 ^ (S fuel)%nat → (fuel < rounds)%nat → 0 ≤ shift → 0 ≤ result < 2 ^ shift →
  result + v * 2 ^ shift < 2 ^ (w - 1) →
  Decode_loop w rounds shift result (pre ++ Encode_loop fuel v ++ post) (length pre) =
  Ok (result + v * 2 ^ shift, (length pre + length (Encode_loop fuel v))%nat).
Proof.
  intros Hw. revert fuel v shift result pre; induction rounds as [|rounds IH];
    intros fuel v shift result pre Hv Hr Hs Hres Hb; [lia|].
  assert (Hpow : 2 ^ (w - 1) < 2 ^ w) by (apply Z.pow_lt_mono_r; lia).
  destruct (digit_step v shift result) as (Hd1&Hd2&Hd3&Hd4); [lia..|].
  cbn [Decode_loop].
  destruct (Encode_loop_cases fuel v Hv) as [[Hlt ->]|(f&->&Hge&->&Hd)].
  - unfold get_byte. cbn [app]. rewrite list_lookup_middle by done. cbn [mbind Result_bind].
    destruct (final_byte v) as [-> ->]; [lia|].
    rewrite accumulate by lia.
    assert (0 ≤ v * 2 ^ shift) by (apply Z.mul_nonneg_nonneg; lia).
    rewrite Int.wrap_s_id, (proj2 (Z.ltb_ge _ _)) by (unfold Int.in_s; lia).
    cbn [length]. by rewrite Nat.add_1_r.
  - unfold get_byte. cbn [app]. rewrite list_lookup_middle by done. cbn [mbind Result_bind].
    destruct (continuation_byte v) as [-> ->]; [lia|]. rewrite accumulate by lia.
    replace (pre ++ Z.lor (Z.land v 127) 128 :: Encode_loop f (v / 128) ++ post)
      with ((pre ++ [Z.lor (Z.land v 127) 128]) ++ Encode_loop f (v / 128) ++ post)
      by (by rewrite <-app_assoc).
    replace (S (length pre)) with (length (pre ++ [Z.lor (Z.land v 127) 128])) by (rewrite length_app; cbn; lia).
    rewrite IH by lia. rewrite Hd2, length_app. cbn [length]. do 2 f_equal. lia.
Qed.

Lemma ReadVarLen_loop_encode w rounds fuel v shift result post :
  0 < w → 0 ≤ v < 128 ^ (S fuel)%nat → (fuel < rounds)%nat → 0 ≤ shift → 0 ≤ result < 2 ^ shift →
  result + v * 2 ^ shift < 2 ^ (w - 1) →
  ReadVarLen_loop w rounds shift result (Encode_loop fuel v ++ post) = Ok (result + v * 2 ^ shift, post).
Proof.
  intros Hw. revert fuel v shift result; induction rounds as [|rounds IH];
    intros fuel v shift result Hv Hr Hs Hres Hb; [lia|].
  assert (Hpow : 2 ^ (w - 1) < 2 ^ w) by (apply Z.pow_lt_mono_r; lia).
  destruct (digit_step v shift result) as (Hd1&Hd2&Hd3&Hd4); [lia..|].
  cbn [ReadVarLen_loop].
  destruct (Encode_loop_cases fuel v Hv) as [[Hlt ->]|(f&->&Hge&->&Hd)]; cbn [app].
  - destruct (final_byte v) as [-> ->]; [lia|].
    rewrite accumulate by lia. by rewrite (proj2 (Z.ltb_ge _ _)) by lia.
  - destruct (continuation_byte v) as [-> ->]; [lia|]. rewrite accumulate by lia.
    rewrite IH by lia. by rewrite Hd2.
Qed.

Lemma Encode_loop_mono fuel v : 0 ≤ v < 128 ^ (S fuel)%nat → Encode_loop (S fuel) v = Encode_loop fuel v.
Proof.
  revert v; induction fuel as [|fuel IH]; intros v Hv.
  - cbn [Encode_loop]. rewrite land_lnot_127 by lia. change (128 ^ 1%nat) with 128 in Hv.
    by rewrite (proj2 (Z.ltb_lt _ _)) by lia.
  - destruct (Encode_loop_cases _ v Hv) as [[Hlt ->]|(f&[= <-]&Hge&->&Hd)].
    + cbn [Encode_loop]. rewrite land_lnot_127 by lia. by rewrite (proj2 (Z.ltb_lt _ _)) by lia.
    + rewrite <-(IH _ Hd). change (Encode_loop (S (S fuel)) v) with
        (if Z.land v (Z.lnot 127) =? 0 then [v]
         else Z.lor (Z.land v 127) 128 :: Encode_loop (S fuel) (Z.shiftr v 7)).
      rewrite land_lnot_127, (proj2 (Z.ltb_ge _ _)) by lia. by rewrite Z.shiftr_div_pow2 by lia.
Qed.

(** The one-byte fast path of the decoders agrees with their loop. *)
Lemma fast_path fuel v pre post (slow : Result (Z * nat)) :
  0 ≤ v < 128 ^ (S fuel)%nat →
  slow = Ok (v, (length pre + length (Encode_loop fuel v))%nat) →
  (first_byte ← get_byte (pre ++ Encode_loop fuel v ++ post) (length pre);
   if Z.land first_byte 128 =? 0 then Ok (first_byte, S (length pre)) else slow) =
  Ok (v, (length pre + length (Encode_loop fuel v))%nat).
Proof.
  intros Hv Hslow. destruct (Encode_loop_cases fuel v Hv) as [[Hlt E]|(f'&->&Hge&E&Hd)];
    rewrite E in *; unfold get_byte; cbn [app]; rewrite list_lookup_middle by done; cbn [mbind Result_bind].
  - destruct (final_byte v) as [_ ->]; [lia|]. cbn. by rewrite Nat.add_1_r.
  - destruct (continuation_byte v) as [_ ->]; [lia|]. exact Hslow.
Qed.

Lemma EncodeInt_ok v : 0 ≤ v < 2 ^ 31 → EncodeInt v = Ok (Encode_loop 4 v).
Proof.
  intros Hv. unfold EncodeInt. rewrite (proj2 (Z.ltb_ge _ _)) by lia.
  rewrite Encode_loop_mono; [done|]. change (128 ^ 5%nat) with (2 ^ 35). lia.
Qed.
Lemma EncodeLong_ok v : 0 ≤ v < 2 ^ 63 → EncodeLong v = Ok (Encode_loop 8 v).
Proof.
  intros Hv. unfold EncodeLong. rewrite (proj2 (Z.ltb_ge _ _)) by lia.
  rewrite Encode_loop_mono; [done|]. change (128 ^ 9%nat) with (2 ^ 63). lia.
Qed.

Lemma DecodeInt_encode v pre post : 0 ≤ v < 2 ^ 31 →
  DecodeInt (pre ++ Encode_loop 4 v ++ post) (length pre) =
  Ok (v, (length pre + length (Encode_loop 4 v))%nat).
Proof.
  intros Hv. assert (0 ≤ v < 128 ^ 5%nat) by (change (128 ^ 5%nat) with (2 ^ 35); lia).
  apply fast_path; [done|]. rewrite Decode_loop_encode by lia. by rewrite Z.mul_1_r.
Qed.
Lemma DecodeLong_encode v pre post : 0 ≤ v < 2 ^ 63 →
  DecodeLong (pre ++ Encode_loop 8 v ++ post) (length pre) =
  Ok (v, (length pre + length (Encode_loop 8 v))%nat).
Proof.
  intros Hv. assert (0 ≤ v < 128 ^ 9%nat) by (change (128 ^ 9%nat) with (2 ^ 63); lia).
  apply fast_path; [done|]. rewrite Decode_loop_encode by lia. by rewrite Z.mul_1_r.
Qed.

(** Every non-negative 32-bit (64-bit) integer is encoded in at most five
    (nine) bytes, which both the decoder of a buffer and the reader of a bounded
    input turn back into the integer, stopping right behind them; negative integers
    are refused. *)
Theorem varint_roundtrip v pre post :
  (if decide (0 ≤ v < 2 ^ 31) then
     ∃ bytes, EncodeInt v = Ok bytes ∧ (length bytes ≤ 5)%nat ∧ Forall (λ b, 0 ≤ b < 256) bytes ∧
       DecodeInt (pre ++ bytes ++ post) (length pre) = Ok (v, (length pre + length bytes)%nat) ∧
       ReadVarLenInt (bytes ++ post) = Ok (v, post)
   else v < 0 → is_ok (EncodeInt v) = false) ∧
  (if decide (0 ≤ v < 2 ^ 63) then
     ∃ bytes, EncodeLong v = Ok bytes ∧ (length bytes ≤ 9)%nat ∧ Forall (λ b, 0 ≤ b < 256) bytes ∧
       DecodeLong (pre ++ bytes ++ post) (length pre) = Ok (v, (length pre + length bytes)%nat) ∧
       ReadVarLenLong (bytes ++ post) = Ok (v, post)
   else v < 0 → is_ok (EncodeLong v) = false).
Proof.
  split; case_decide as Hv.
  - exists (Encode_loop 4 v).
    assert (Hr : 0 ≤ v < 128 ^ 5%nat) by (change (128 ^ 5%nat) with (2 ^ 35); lia).
    destruct (Encode_loop_bytes 4 v Hr) as [Hb Hl].
    split_and!; [by apply EncodeInt_ok|done|done|by apply DecodeInt_encode|].
    unfold ReadVarLenInt. rewrite ReadVarLen_loop_encode by lia. by rewrite Z.mul_1_r.
  - intros. unfold EncodeInt. by rewrite (proj2 (Z.ltb_lt _ _)).
  - exists (Encode_loop 8 v).
    assert (Hr : 0 ≤ v < 128 ^ 9%nat) by (change (128 ^ 9%nat) with (2 ^ 63); lia).
    destruct (Encode_loop_bytes 8 v Hr) as [Hb Hl].
    split_and!; [by apply EncodeLong_ok|done|done|by apply DecodeLong_encode|].
    unfold ReadVarLenLong. rewrite ReadVarLen_loop_encode by lia. by rewrite Z.mul_1_r.
  - intros. unfold EncodeLong. by rewrite (proj2 (Z.ltb_lt _ _)).
Qed.
