(* ===== verification/FloatBits.v ===== *)
(** * Bits of floating point numbers

    The IEEE 754 interchange formats binary32 and binary64, as [memcpy] of a
    [float] or [double] copies them. There is one NaN in the model, with the
    canonical bits of src/paimon/common/utils/math.h. *)

From stdpp Require Import base list.
From Stdlib Require Import ZArith Lia SpecFloat.
From S2P Require Import Prelude.
Local Open Scope Z_scope.

Section FloatBits.
(** [mb] bits of fraction, [eb] bits of exponent. *)
Context (mb eb : Z).

Definition prec : Z := mb + 1.
Definition emax : Z := 2 ^ (eb - 1).
Definition emin : Z := 3 - emax - prec.
Definition top_exponent : Z := 2 ^ eb - 1.

Definition sign_bits (s : bool) : Z := if s then 2 ^ (mb + eb) else 0.

Definition to_bits (f : spec_float) : Z :=
  match f with
  | S754_zero s => sign_bits s
  | S754_infinity s => sign_bits s + top_exponent * 2 ^ mb
  | S754_nan => top_exponent * 2 ^ mb + 2 ^ (mb - 1)
  | S754_finite s m e =>
      sign_bits s +
      (if Z.pos m <? 2 ^ mb then Z.pos m
       else (e - emin + 1) * 2 ^ mb + (Z.pos m - 2 ^ mb))
  end.

Definition from_bits (u : Z) : spec_float :=
  let s := Z.testbit u (mb + eb) in
  let e := u / 2 ^ mb mod 2 ^ eb in
  let m := u mod 2 ^ mb in
  if e =? top_exponent then (if m =? 0 then S754_infinity s else S754_nan)
  else if e =? 0 then
    match m with Z.pos p => S754_finite s p emin | _ => S754_zero s end
  else match 2 ^ mb + m with Z.pos p => S754_finite s p (e - 1 + emin) | _ => S754_zero s end.

Definition valid (f : spec_float) : Prop := valid_binary prec emax f = true.

(** A field split of the bits. *)
Lemma split_bits s e m : 0 < mb → 0 < eb → 0 ≤ e < 2 ^ eb → 0 ≤ m < 2 ^ mb →
  let u := sign_bits s + (e * 2 ^ mb + m) in
  Z.testbit u (mb + eb) = s ∧ u / 2 ^ mb mod 2 ^ eb = e ∧ u mod 2 ^ mb = m ∧ 0 ≤ u < 2 ^ (mb + eb + 1).
Proof.
  intros Hmb Heb He Hm u.
  assert (Hp : 2 ^ (mb + eb) = 2 ^ mb * 2 ^ eb) by (apply Z.pow_add_r; lia).
  assert (Hlow : 0 ≤ e * 2 ^ mb + m < 2 ^ (mb + eb)) by nia.
  assert (Hq : u / 2 ^ (mb + eb) = Z.b2z s).
  { unfold u, sign_bits. destruct s; cbn [Z.b2z]; [|by apply Z.div_small].
    symmetry. apply (Z.div_unique _ _ 1 (e * 2 ^ mb + m)); lia. }
  assert (Hu : u = (Z.b2z s * 2 ^ eb + e) * 2 ^ mb + m).
  { unfold u, sign_bits. destruct s; cbn [Z.b2z]; rewrite ?Hp; lia. }
  split_and!.
  - rewrite Z.testbit_odd, Z.shiftr_div_pow2, Hq by lia. by destruct s.
  - rewrite Hu, (Z.add_comm _ m), Z.div_add, (Z.div_small m), Z.add_0_l by lia.
    rewrite Z.add_comm, Z.mod_add, Z.mod_small by lia. done.
  - rewrite Hu, (Z.add_comm _ m), Z.mod_add, Z.mod_small by lia. done.
  - unfold u, sign_bits. destruct s; lia.
  - unfold u, sign_bits. rewrite (Z.pow_add_r 2 (mb + eb) 1) by lia. change (2 ^ 1) with 2. destruct s; lia.
Qed.

Lemma digits_size m : Z.pos (digits2_pos m) = Z.log2 (Z.pos m) + 1.
Proof.
  induction m as [m IH|m IH|]; cbn [digits2_pos]; [| |done].
  - rewrite Pos2Z.inj_succ, IH. change (Z.pos m~1) with (2 * Z.pos m + 1).
    rewrite Z.log2_succ_double by lia. lia.
  - rewrite Pos2Z.inj_succ, IH. change (Z.pos m~0) with (2 * Z.pos m).
    rewrite Z.log2_double by lia. lia.
Qed.

(** Valid finite numbers: a full mantissa, or a shorter one at the least exponent. *)
Lemma valid_finite s m e : 0 < mb → valid (S754_finite s m e) →
  Z.pos m < 2 ^ prec ∧ emin ≤ e ≤ emax - prec ∧ (Z.pos m < 2 ^ mb → e = emin).
Proof.
  intros Hmb. unfold valid; cbn. unfold bounded, canonical_mantissa, fexp, SpecFloat.emin.
  rewrite andb_true_iff, Z.eqb_eq, Z.leb_le, digits_size. fold emin.
  pose proof (Z.log2_spec (Z.pos m) ltac:(lia)) as [Hlo Hhi]. rewrite <-Z.add_1_r in Hhi.
  pose proof (Z.log2_nonneg (Z.pos m)). set (d := Z.log2 (Z.pos m)) in *.
  change (3 - emax - prec) with emin. unfold prec in *. intros [Hc Hle].
  assert (Hd : d + 1 ≤ mb + 1) by lia.
  split_and!; try lia.
  - eapply Z.lt_le_trans; [exact Hhi|]. apply Z.pow_le_mono_r; lia.
  - intros Hlt. assert (d < mb); [|lia].
    apply (Z.pow_lt_mono_r_iff 2); lia.
Qed.
End FloatBits.

Section Roundtrip.
Context (mb eb : Z).
Hypothesis Hmb : 0 < mb.
Hypothesis Heb : 1 < eb.

Lemma pow_exponent : 2 ^ eb = 2 * emax eb ∧ 2 ≤ emax eb.
Proof.
  unfold emax. split; [apply Int.pow_half; lia|].
  change 2 with (2 ^ 1) at 1. apply Z.pow_le_mono_r; lia.
Qed.

Lemma from_bits_split s e m : 0 ≤ e < 2 ^ eb → 0 ≤ m < 2 ^ mb →
  from_bits mb eb (sign_bits mb eb s + (e * 2 ^ mb + m)) =
  (if e =? top_exponent eb then (if m =? 0 then S754_infinity s else S754_nan)
   else if e =? 0 then match m with Z.pos p => S754_finite s p (emin mb eb) | _ => S754_zero s end
   else match 2 ^ mb + m with Z.pos p => S754_finite s p (e - 1 + emin mb eb) | _ => S754_zero s end).
Proof.
  intros He Hm. unfold from_bits.
  by destruct (split_bits mb eb s e m Hmb ltac:(lia) He Hm) as (->&->&->&_).
Qed.

(** The bits of a finite number as fields. *)
Lemma to_bits_finite s m e : valid mb eb (S754_finite s m e) →
  ∃ be bm, to_bits mb eb (S754_finite s m e) = sign_bits mb eb s + (be * 2 ^ mb + bm) ∧
    0 ≤ be < top_exponent eb ∧ 0 ≤ bm < 2 ^ mb ∧
    ((be = 0 ∧ bm = Z.pos m ∧ e = emin mb eb) ∨
     (0 < be ∧ 2 ^ mb + bm = Z.pos m ∧ e = be - 1 + emin mb eb)).
Proof.
  intros Hv. destruct (valid_finite mb eb s m e Hmb Hv) as (Hm&He&Hsub).
  destruct pow_exponent as [Hp1 Hp2]. unfold to_bits, top_exponent.
  unfold prec in Hm. rewrite Z.pow_add_r in Hm by lia. change (2 ^ 1) with 2 in Hm.
  destruct (Z.ltb_spec (Z.pos m) (2 ^ mb)) as [Hlt|Hge].
  - exists 0, (Z.pos m). split_and!; try lia.
  - exists (e - emin mb eb + 1), (Z.pos m - 2 ^ mb). unfold emin, prec in *.
    split_and!; lia.
Qed.

Lemma to_bits_range f : valid mb eb f → 0 ≤ to_bits mb eb f < 2 ^ (mb + eb + 1).
Proof.
  intros Hv. destruct pow_exponent as [Hp1 Hp2].
  assert (Hhalf : 0 ≤ 2 ^ (mb - 1) < 2 ^ mb).
  { split; [apply Z.pow_nonneg; lia|apply Z.pow_lt_mono_r; lia]. }
  assert (Hgen : ∀ s e m, 0 ≤ e < 2 ^ eb → 0 ≤ m < 2 ^ mb →
    0 ≤ sign_bits mb eb s + (e * 2 ^ mb + m) < 2 ^ (mb + eb + 1)).
  { intros s e m He Hm. by destruct (split_bits mb eb s e m Hmb ltac:(lia) He Hm) as (_&_&_&?). }
  destruct f as [s|s| |s m e]; cbn [to_bits].
  - specialize (Hgen s 0 0). rewrite Z.add_0_r in Hgen. apply Hgen; lia.
  - specialize (Hgen s (top_exponent eb) 0). rewrite Z.add_0_r in Hgen.
    apply Hgen; unfold top_exponent; lia.
  - specialize (Hgen false (top_exponent eb) (2 ^ (mb - 1))).
    unfold sign_bits in Hgen. rewrite Z.add_0_l in Hgen.
    apply Hgen; unfold top_exponent; lia.
  - destruct (to_bits_finite s m e Hv) as (be&bm&Heq&Hbe&Hbm&_). cbn [to_bits] in Heq. rewrite Heq.
    apply Hgen; [unfold top_exponent in *; lia|done].
Qed.

Lemma from_bits_to_bits f : valid mb eb f → from_bits mb eb (to_bits mb eb f) = f.
Proof.
  intros Hv. destruct pow_exponent as [Hp1 Hp2].
  assert (Hhalf : 0 < 2 ^ (mb - 1) < 2 ^ mb).
  { split; [apply Z.pow_pos_nonneg; lia|apply Z.pow_lt_mono_r; lia]. }
  destruct f as [s|s| |s m e].
  - pose proof (from_bits_split s 0 0 ltac:(lia) ltac:(lia)) as Hs. cbn [Z.mul Z.add] in Hs.
    rewrite Z.add_0_r in Hs. cbn [to_bits]. rewrite Hs. unfold top_exponent.
    by destruct (Z.eqb_spec 0 (2 ^ eb - 1)); [lia|].
  - pose proof (from_bits_split s (top_exponent eb) 0) as Hs. rewrite Z.add_0_r in Hs.
    cbn [to_bits]. rewrite Hs by (unfold top_exponent; lia). by rewrite Z.eqb_refl.
  - pose proof (from_bits_split false (top_exponent eb) (2 ^ (mb - 1))) as Hs.
    unfold sign_bits in Hs. rewrite Z.add_0_l in Hs. cbn [to_bits]. rewrite Hs by (unfold top_exponent; lia).
    rewrite Z.eqb_refl. by destruct (Z.eqb_spec (2 ^ (mb - 1)) 0); [lia|].
  - destruct (to_bits_finite s m e Hv) as (be&bm&Heq&Hbe&Hbm&Hcase).
    rewrite Heq, from_bits_split by (unfold top_exponent in *; lia).
    rewrite (proj2 (Z.eqb_neq _ _)) by lia.
    destruct Hcase as [(->&->&->)|(Hpos&Hsum&->)]; [done|].
    rewrite (proj2 (Z.eqb_neq _ _)) by lia. by rewrite Hsum.
Qed.

Lemma finite_valid s m e : Z.pos m < 2 ^ prec mb → emin mb eb ≤ e ≤ emax eb - prec mb → (Z.pos m < 2 ^ mb → e = emin mb eb) →
  valid mb eb (S754_finite s m e).
Proof.
  intros Hm He Hsub. unfold valid; cbn. unfold bounded, canonical_mantissa, fexp, SpecFloat.emin.
  rewrite andb_true_iff, Z.eqb_eq, Z.leb_le, digits_size. change (3 - emax eb - prec mb) with (emin mb eb). split; [|lia].
  pose proof (Z.log2_spec (Z.pos m) ltac:(lia)) as [Hlo Hhi]. pose proof (Z.log2_nonneg (Z.pos m)). unfold prec in *.
  destruct (decide (Z.pos m < 2 ^ mb)) as [Hlt|Hge].
  - rewrite (Hsub Hlt). assert (Z.log2 (Z.pos m) < mb); [|lia]. apply (Z.pow_lt_mono_r_iff 2); lia.
  - assert (Z.log2 (Z.pos m) = mb); [|lia]. apply Z.log2_unique; [lia|]. split; [lia|]. by rewrite <-Z.add_1_r.
Qed.
(** Every bit pattern is a number or the NaN. *)
Lemma from_bits_valid u : valid mb eb (from_bits mb eb u).
Proof.
  destruct pow_exponent as [Hp1 Hp2]. unfold from_bits. pose proof (Z.mod_pos_bound u (2 ^ mb) ltac:(lia)) as Hm.
  pose proof (Z.mod_pos_bound (u / 2 ^ mb) (2 ^ eb) ltac:(lia)) as He. set (e := u / 2 ^ mb mod 2 ^ eb) in *. set (m := u mod 2 ^ mb) in *.
  assert (Hprec : 2 ^ prec mb = 2 * 2 ^ mb) by (unfold prec; rewrite Z.pow_add_r by lia; lia).
  assert (Hmin : emin mb eb = 3 - emax eb - prec mb) by done. unfold top_exponent.
  destruct (Z.eqb_spec e (2 ^ eb - 1)) as [|Hne]; [by destruct (m =? 0)|]. destruct (Z.eqb_spec e 0) as [|Hpos].
  - destruct m as [|p|p]; [done|apply finite_valid; [lia|split; [done|lia]|done]|lia].
  - destruct (2 ^ mb + m) as [|p|p] eqn:Ep; [lia|apply finite_valid; lia|lia].
Qed.
End Roundtrip.

Definition float_bits : spec_float → Z := to_bits 23 8.
Definition double_bits : spec_float → Z := to_bits 52 11.
Definition float_of_bits : Z → spec_float := from_bits 23 8.
Definition double_of_bits : Z → spec_float := from_bits 52 11.

Lemma float_of_bits_bits f : valid 23 8 f → float_of_bits (float_bits f) = f.
Proof. by apply from_bits_to_bits. Qed.
Lemma double_of_bits_bits f : valid 52 11 f → double_of_bits (double_bits f) = f.
Proof. by apply from_bits_to_bits. Qed.
