(* ===== verification/RowCompacted.v ===== *)
(** * RowCompactedSerializer

    The compact row format of src/paimon/common/data/serializer/
    row_compacted_serializer.{h,cpp} for rows of scalar fields: a header with the
    row kind and a null bit per field, then the non-null fields one after the
    other. It carries the copies of the changelog wrappers and the keys of the
    lookup files, which are compared in serialised form. *)

From stdpp Require Import base list strings.
From Stdlib Require Import ZArith Lia SpecFloat.
From S2P Require Import Prelude Decimal Rows KeyValues Streams VarLengthInt FloatBits.
Local Open Scope Z_scope.
Local Coercion Z.of_nat : nat >-> Z.

(** ** Strings as bytes *)

Definition string_bytes (s : string) : list Z :=
  (λ c, Z.of_N (Ascii.N_of_ascii c)) <$> String.list_ascii_of_string s.
Definition string_of_bytes (l : list Z) : string :=
  String.string_of_list_ascii ((λ b, Ascii.ascii_of_N (Z.to_N b)) <$> l).

Lemma string_of_bytes_bytes s : string_of_bytes (string_bytes s) = s.
Proof.
  unfold string_of_bytes, string_bytes. rewrite <-list_fmap_compose.
  rewrite (list_fmap_ext _ id).
  - by rewrite list_fmap_id, String.string_of_list_ascii_of_string.
  - intros i c _. cbn. by rewrite N2Z.id, Ascii.ascii_N_embedding.
Qed.

Definition HEADER_SIZE_IN_BITS : Z := 8.
Definition CalculateBitSetInBytes (arity : Z) : Z := (arity + 7 + HEADER_SIZE_IN_BITS) / 8.

(** ** Bits of a segment: [MemorySegmentUtils::BitSet] and [BitGet] *)

Definition ByteIndex (bit_index : nat) : nat := Z.to_nat (Z.shiftr bit_index 3).
Definition bit_mask (index : nat) : Z := Z.shiftl 1 (Z.land index 7).
Definition BitSet (segment : list Z) (index : nat) : list Z :=
  alter (λ current, Z.lor current (bit_mask index)) (ByteIndex index) segment.
Definition BitGet (segment : list Z) (index : nat) : bool :=
  match segment !! ByteIndex index with
  | Some current => negb (Z.land current (bit_mask index) =? 0)
  | None => false
  end.

Lemma land_mask c k : 0 ≤ k → negb (Z.land c (Z.shiftl 1 k) =? 0) = Z.testbit c k.
Proof.
  intros Hk. rewrite Z.shiftl_1_l. destruct (Z.testbit c k) eqn:E.
  - apply negb_true_iff, Z.eqb_neq. intros H0.
    assert (Z.testbit (Z.land c (2 ^ k)) k = true) as Ht; [|by rewrite H0, Z.bits_0 in Ht].
    by rewrite Z.land_spec, E, Z.pow2_bits_true.
  - apply negb_false_iff, Z.eqb_eq. apply Z.bits_inj'. intros i Hi. rewrite Z.land_spec, Z.bits_0.
    destruct (Z.eqb_spec i k) as [->|]; [by rewrite E|].
    by rewrite Z.pow2_bits_false, andb_false_r by done.
Qed.

Lemma bit_index_split (i j : nat) : ByteIndex i = ByteIndex j → Z.land i 7 = Z.land j 7 → i = j.
Proof.
  unfold ByteIndex. change 7 with (Z.ones 3). rewrite !Z.land_ones, !Z.shiftr_div_pow2 by lia.
  intros Hq Hr. pose proof (Z.div_mod i (2 ^ 3)). pose proof (Z.div_mod j (2 ^ 3)).
  pose proof (Z.div_pos i (2 ^ 3)). pose proof (Z.div_pos j (2 ^ 3)). lia.
Qed.

Lemma BitGet_BitSet h i j : (ByteIndex i < length h)%nat →
  BitGet (BitSet h i) j = bool_decide (i = j) || BitGet h j.
Proof.
  intros Hi. unfold BitGet, BitSet. destruct (decide (ByteIndex i = ByteIndex j)) as [Hb|Hb].
  - rewrite <-Hb, list_lookup_alter, decide_True by done.
    destruct (lookup_lt_is_Some_2 h (ByteIndex i) Hi) as [c Hc]. rewrite Hc. cbn.
    unfold bit_mask. assert (0 ≤ Z.land i 7 ∧ 0 ≤ Z.land j 7) as [Hi7 Hj7].
    { split; apply Z.land_nonneg; lia. }
    rewrite !land_mask by done. rewrite Z.lor_spec, Z.shiftl_1_l, orb_comm. f_equal.
    destruct (decide (i = j)) as [->|Hne].
    + rewrite bool_decide_true by done. by apply Z.pow2_bits_true.
    + rewrite bool_decide_false by done. apply Z.pow2_bits_false. intros Hm. apply Hne.
      by apply bit_index_split.
  - rewrite list_lookup_alter_ne by done. by rewrite bool_decide_false by (intros ->; done).
Qed.
Lemma BitSet_length h i : length (BitSet h i) = length h.
Proof. apply length_alter. Qed.
Lemma BitSet_head h i : (8 ≤ i)%nat → BitSet h i !! 0%nat = h !! 0%nat.
Proof.
  intros Hi. unfold BitSet. apply list_lookup_alter_ne. unfold ByteIndex. rewrite Z.shiftr_div_pow2 by lia.
  pose proof (Z.div_le_lower_bound i (2 ^ 3) 1). lia.
Qed.
Lemma ByteIndex_header (j n : nat) : (j < n)%nat →
  (ByteIndex (j + 8) < Z.to_nat (CalculateBitSetInBytes n))%nat.
Proof.
  intros Hj. unfold ByteIndex, CalculateBitSetInBytes, HEADER_SIZE_IN_BITS.
  rewrite Z.shiftr_div_pow2 by lia. change (2 ^ 3) with 8.
  pose proof (Z.div_mod (j + 8)%nat 8). pose proof (Z.div_mod (n + 7 + 8) 8).
  pose proof (Z.mod_pos_bound (j + 8)%nat 8). pose proof (Z.mod_pos_bound (n + 7 + 8) 8). lia.
Qed.

(** Whether asserts are compiled in; [NDEBUG] removes them. *)
Class Asserts := asserts : bool.

(** [Timestamp::FromEpochMillis], with the assert of the constructor. *)
Definition FromEpochMillis {A : Asserts} (milliseconds nanos_of_millisecond : Z) : Result Timestamp :=
  if asserts && negb ((0 <=? nanos_of_millisecond) && (nanos_of_millisecond <=? 999999))
  then Err UnknownError "assert" else Ok (mkTimestamp milliseconds nanos_of_millisecond).

Section RowCompacted.
Context {P : Platform} {AS : Asserts}.

(** ** RowWriter

    [header_] and [body_] are the buffer up to [position_]; [capacity_] is the
    size of the buffer. *)
Record RowWriter := mkRowWriter { capacity_ : Z; header_ : list Z; body_ : list Z }.
Definition w_position (w : RowWriter) : Z := length (header_ w) + length (body_ w).

Definition new_RowWriter (header_size_in_bytes : Z) : RowWriter :=
  mkRowWriter (Z.max 64 header_size_in_bytes) (replicate (Z.to_nat header_size_in_bytes) 0) [].
(** The header is cleared, the position goes back behind it. *)
Definition w_Reset (w : RowWriter) : RowWriter :=
  mkRowWriter (capacity_ w) (replicate (length (header_ w)) 0) [].
Definition WriteRowKind (kind : RowKind.RowKind) (w : RowWriter) : RowWriter :=
  mkRowWriter (capacity_ w) (<[0%nat := RowKind.ToByteValue kind]> (header_ w)) (body_ w).
Definition SetNullAt (pos : nat) (w : RowWriter) : RowWriter :=
  mkRowWriter (capacity_ w) (BitSet (header_ w) (pos + 8)) (body_ w).

Definition Grow (min_capacity_add : Z) (w : RowWriter) : RowWriter :=
  let current_len := capacity_ w in
  mkRowWriter (Z.max (Int.wrap_s 32 (current_len * 2)) (Int.wrap_s 32 (current_len + min_capacity_add)))
              (header_ w) (body_ w).
Definition EnsureCapacity (size : Z) (w : RowWriter) : RowWriter :=
  if capacity_ w - w_position w <? size then Grow size w else w.

(** A copy to the buffer at the position; beyond the buffer it is undefined. *)
Definition put (bytes : list Z) (w : RowWriter) : Result RowWriter :=
  if capacity_ w <? w_position w + length bytes then Err UnknownError "write out of bounds"
  else Ok (mkRowWriter (capacity_ w) (header_ w) (body_ w ++ bytes)).

Definition w_WriteValue (T : IntType) (value : Z) (w : RowWriter) : Result RowWriter :=
  put (to_memory T value) (EnsureCapacity (sizeof T) w).
Definition WriteUnsignedInt (value : Z) (w : RowWriter) : Result RowWriter :=
  let w := EnsureCapacity kMaxVarIntSize w in
  bytes ← EncodeInt value;
  put bytes w.
(** The [size_t] becomes an [int32_t] argument. *)
Definition WriteBinary (bytes : list Z) (w : RowWriter) : Result RowWriter :=
  w ← WriteUnsignedInt (Int.wrap_s 32 (length bytes)) w;
  put bytes (EnsureCapacity (Int.wrap_s 32 (length bytes)) w).
Definition ToUnscaledLong (d : Decimal.Decimal) : Z := Int.wrap_s 64 (Decimal.value_ d).
Definition WriteDecimal (value : Decimal.Decimal) (precision : Z) (w : RowWriter) : Result RowWriter :=
  if precision <=? Decimal.MAX_COMPACT_PRECISION then w_WriteValue int64_t (ToUnscaledLong value) w
  else WriteBinary (Decimal.ToUnscaledBytes (Decimal.value_ value)) w.
Definition Timestamp_IsCompact (precision : Z) : bool := precision <=? 3.
Definition WriteTimestamp (value : Timestamp) (precision : Z) (w : RowWriter) : Result RowWriter :=
  if Timestamp_IsCompact precision then w_WriteValue int64_t (millisecond_ value) w
  else w ← w_WriteValue int64_t (millisecond_ value) w;
       WriteUnsignedInt (nano_of_millisecond_ value) w.
Definition CopyBuffer (w : RowWriter) : list Z := header_ w ++ body_ w.

(** ** RowReader *)

Record RowReader := mkRowReader {
  header_size_in_bytes_ : nat;
  segment_ : list Z;
  offset_ : nat;
  r_position_ : nat
}.
Definition PointTo (header_size : nat) (segment : list Z) (offset : nat) : RowReader :=
  mkRowReader header_size segment offset (offset + header_size).
Definition at_position (r : RowReader) (p : nat) : RowReader :=
  mkRowReader (header_size_in_bytes_ r) (segment_ r) (offset_ r) p.

Definition ReadRowKind (r : RowReader) : Result RowKind.RowKind :=
  b ← get_byte (segment_ r) (offset_ r);
  RowKind.FromByteValue (Int.wrap_s 8 b).
Definition r_IsNullAt (pos : nat) (r : RowReader) : bool :=
  BitGet (drop (offset_ r) (segment_ r)) (pos + 8).

(** [length] bytes at the position; beyond the segment the read is undefined. *)
Definition read_span (length : nat) (r : RowReader) : Result (list Z * RowReader) :=
  let bytes := take length (drop (r_position_ r) (segment_ r)) in
  if (List.length bytes <? length)%nat then Err UnknownError "read out of bounds"
  else Ok (bytes, at_position r (r_position_ r + length)).
Definition r_ReadValue (T : IntType) (r : RowReader) : Result (Z * RowReader) :=
  b ← read_span (sizeof T) r; Ok (from_memory T (fst b), snd b).
Definition ReadUnsignedInt (r : RowReader) : Result (Z * RowReader) :=
  v ← DecodeInt (segment_ r) (r_position_ r); Ok (fst v, at_position r (snd v)).
(** [ReadStringView] and [ReadBinary]. *)
Definition ReadBinary (r : RowReader) : Result (list Z * RowReader) :=
  n ← ReadUnsignedInt r;
  read_span (Z.to_nat (fst n)) (snd n).
Definition ReadDecimal (precision scale : Z) (r : RowReader) : Result (Decimal.Decimal * RowReader) :=
  if precision <=? Decimal.MAX_COMPACT_PRECISION then
    v ← r_ReadValue int64_t r; Ok (Decimal.mkDecimal precision scale (fst v), snd v)
  else
    b ← ReadBinary r; Ok (Decimal.FromUnscaledBytes precision scale (fst b), snd b).
Definition ReadTimestamp (precision : Z) (r : RowReader) : Result (Timestamp * RowReader) :=
  if Timestamp_IsCompact precision then
    v ← r_ReadValue int64_t r;
    ts ← FromEpochMillis (fst v) 0;
    Ok (ts, snd v)
  else
    v ← r_ReadValue int64_t r;
    n ← ReadUnsignedInt (snd v);
    ts ← FromEpochMillis (fst v) (fst n);
    Ok (ts, snd n).

(** ** Field writers and readers *)

Definition uint8_t : IntType := mkIntType 1 false.
Definition uint32_t : IntType := mkIntType 4 false.
Definition uint64_t : IntType := mkIntType 8 false.
Definition w_WriteBool (b : bool) : RowWriter → Result RowWriter := w_WriteValue uint8_t (Z.b2z b).
Definition w_WriteFloat (f : spec_float) : RowWriter → Result RowWriter := w_WriteValue uint32_t (float_bits f).
Definition w_WriteDouble (f : spec_float) : RowWriter → Result RowWriter := w_WriteValue uint64_t (double_bits f).
Definition r_ReadBool (r : RowReader) : Result (bool * RowReader) :=
  v ← r_ReadValue uint8_t r; Ok (negb (fst v =? 0), snd v).
Definition r_ReadFloat (r : RowReader) : Result (spec_float * RowReader) :=
  v ← r_ReadValue uint32_t r; Ok (float_of_bits (fst v), snd v).
Definition r_ReadDouble (r : RowReader) : Result (spec_float * RowReader) :=
  v ← r_ReadValue uint64_t r; Ok (double_of_bits (fst v), snd v).

Definition FieldWriter := nat → VariantType → RowWriter → Result RowWriter.
Definition FieldReader := nat → RowReader → Result (VariantType * RowReader).

(** [GetVariantValue] of another alternative throws. *)
Definition bad_variant {A} : Result A := Err UnknownError "bad variant access".

Definition write_non_null (t : ArrowType) (field : VariantType) (w : RowWriter) : Result RowWriter :=
  match t, field with
  | BOOL, VBool b => w_WriteBool b w
  | INT8, VByte z => w_WriteValue int8_t z w
  | INT16, VShort z => w_WriteValue int16_t z w
  | INT32, VInt z | DATE32, VInt z => w_WriteValue int32_t z w
  | INT64, VLong z => w_WriteValue int64_t z w
  | FLOAT, VFloat f => w_WriteFloat f w
  | DOUBLE, VDouble f => w_WriteDouble f w
  | STRING, VString s => WriteBinary (string_bytes s) w
  | BINARY, VBytes s | BINARY, VString s => WriteBinary (string_bytes s) w
  | TIMESTAMP precision, VTimestamp ts => WriteTimestamp ts precision w
  | DECIMAL128 precision _, VDecimal d => WriteDecimal d precision w
  | _, _ => bad_variant
  end.
Definition CreateFieldWriter (t : ArrowType) : Result FieldWriter :=
  match t with
  | OTHER_TYPE _ => Err Invalid "type not support in FieldWriter in row compacted serializer"
  | _ => Ok (λ pos field w, if IsVariantNull field then Ok (SetNullAt pos w) else write_non_null t field w)
  end.

Definition with_value {A} (f : A → VariantType) (r : Result (A * RowReader)) : Result (VariantType * RowReader) :=
  v ← r; Ok (f (fst v), snd v).
Definition read_non_null (t : ArrowType) (r : RowReader) : Result (VariantType * RowReader) :=
  match t with
  | BOOL => with_value VBool (r_ReadBool r)
  | INT8 => with_value VByte (r_ReadValue int8_t r)
  | INT16 => with_value VShort (r_ReadValue int16_t r)
  | INT32 | DATE32 => with_value VInt (r_ReadValue int32_t r)
  | INT64 => with_value VLong (r_ReadValue int64_t r)
  | FLOAT => with_value VFloat (r_ReadFloat r)
  | DOUBLE => with_value VDouble (r_ReadDouble r)
  | STRING => with_value (λ b, VString (string_of_bytes b)) (ReadBinary r)
  | BINARY => with_value (λ b, VBytes (string_of_bytes b)) (ReadBinary r)
  | TIMESTAMP precision => with_value VTimestamp (ReadTimestamp precision r)
  | DECIMAL128 precision scale => with_value VDecimal (ReadDecimal precision scale r)
  | OTHER_TYPE _ => bad_variant
  end.
Definition CreateFieldReader (t : ArrowType) : Result FieldReader :=
  match t with
  | OTHER_TYPE _ => Err Invalid "type not support in FieldReader in row compacted serializer"
  | _ => Ok (λ pos r, if r_IsNullAt pos r then Ok (VNull, r) else read_non_null t r)
  end.

(** ** The serialiser *)

Record RowCompactedSerializer := mkSerializer {
  getters_ : nat;
  writers_ : list FieldWriter;
  readers_ : list FieldReader;
  row_writer_ : option RowWriter
}.

Fixpoint create_all {A} (f : ArrowType → Result A) (types : list ArrowType) : Result (list A) :=
  match types with
  | [] => Ok []
  | t :: rest => a ← f t; l ← create_all f rest; Ok (a :: l)
  end.
Definition CreateSerializer (types : list ArrowType) : Result RowCompactedSerializer :=
  writers ← create_all CreateFieldWriter types;
  readers ← create_all CreateFieldReader types;
  Ok (mkSerializer (length types) writers readers None).

(** The getter of field [i] reads a null behind the end of the row. *)
Fixpoint write_fields (i : nat) (writers : list FieldWriter) (row : InternalRow) (w : RowWriter)
    : Result RowWriter :=
  match writers with
  | [] => Ok w
  | wr :: rest => w ← wr i (field_at row i) w; write_fields (S i) rest row w
  end.
Definition SerializeToBytes (kind : RowKind.RowKind) (row : InternalRow) (s : RowCompactedSerializer)
    : Result (list Z * RowCompactedSerializer) :=
  let w := default (new_RowWriter (CalculateBitSetInBytes (getters_ s))) (row_writer_ s) in
  let w := WriteRowKind kind (w_Reset w) in
  w ← write_fields 0 (writers_ s) row w;
  Ok (CopyBuffer w, mkSerializer (getters_ s) (writers_ s) (readers_ s) (Some w)).

Fixpoint read_fields (i : nat) (readers : list FieldReader) (r : RowReader) : Result InternalRow :=
  match readers with
  | [] => Ok []
  | rd :: rest =>
      v ← rd i r;
      row ← read_fields (S i) rest (snd v);
      Ok (fst v :: row)
  end.
Definition Deserialize (bytes : list Z) (s : RowCompactedSerializer) : Result (RowKind.RowKind * InternalRow) :=
  let r := PointTo (Z.to_nat (CalculateBitSetInBytes (getters_ s))) bytes 0 in
  kind ← ReadRowKind r;
  row ← read_fields 0 (readers_ s) r;
  Ok (kind, row).

(** ** The comparator of serialised rows *)

Definition cmp_both {A} (read : RowReader → Result (A * RowReader)) (cmp : A → A → Z)
    (r1 r2 : RowReader) : Result (Z * RowReader * RowReader) :=
  v1 ← read r1;
  v2 ← read r2;
  Ok (cmp (fst v1) (fst v2), snd v1, snd v2).
Definition sign_of (cmp : Z) : Z := if cmp =? 0 then 0 else if 0 <? cmp then 1 else -1.
Definition slice_CompareField (t : ArrowType) (r1 r2 : RowReader) : Result (Z * RowReader * RowReader) :=
  match t with
  | BOOL => cmp_both r_ReadBool (λ a b, if Bool.eqb a b then 0 else if negb a && b then -1 else 1) r1 r2
  | INT8 => cmp_both (r_ReadValue int8_t) cmpZ r1 r2
  | INT16 => cmp_both (r_ReadValue int16_t) cmpZ r1 r2
  | INT32 | DATE32 => cmp_both (r_ReadValue int32_t) cmpZ r1 r2
  | INT64 => cmp_both (r_ReadValue int64_t) cmpZ r1 r2
  | FLOAT => cmp_both r_ReadFloat CompareFloatingPoint r1 r2
  | DOUBLE => cmp_both r_ReadDouble CompareFloatingPoint r1 r2
  | STRING | BINARY =>
      cmp_both ReadBinary
        (λ a b, sign_of (cmp_string (string_of_bytes a) (string_of_bytes b))) r1 r2
  | TIMESTAMP precision =>
      cmp_both (ReadTimestamp precision)
        (λ a b, if Timestamp_eqb a b then 0 else if Timestamp_ltb a b then -1 else 1) r1 r2
  | DECIMAL128 precision scale =>
      cmp_both (ReadDecimal precision scale) (λ a b, sign_of (Decimal.CompareTo a b)) r1 r2
  | OTHER_TYPE _ => Err NotImplemented "Do not support comparing type in CompareField"
  end.
Fixpoint slice_compare_loop (i : nat) (types : list ArrowType) (r1 r2 : RowReader) : Result Z :=
  match types with
  | [] => Ok 0
  | t :: rest =>
      let is_null1 := r_IsNullAt i r1 in
      let is_null2 := r_IsNullAt i r2 in
      if negb is_null1 || negb is_null2 then
        if is_null1 then Ok (-1)
        else if is_null2 then Ok 1
        else
          c ← slice_CompareField t r1 r2;
          let '(comp, r1, r2) := c in
          if negb (comp =? 0) then Ok comp else slice_compare_loop (S i) rest r1 r2
      else slice_compare_loop (S i) rest r1 r2
  end.
(** [CreateSliceComparator]: slices are a segment and an offset into it. *)
Definition SliceComparator (types : list ArrowType) (slice1 slice2 : list Z * nat) : Result Z :=
  let bit_set_in_bytes := Z.to_nat (CalculateBitSetInBytes (length types)) in
  slice_compare_loop 0 types
    (PointTo bit_set_in_bytes (fst slice1) (snd slice1))
    (PointTo bit_set_in_bytes (fst slice2) (snd slice2)).

(** ** Rows of a schema *)

(** The nanoseconds of a timestamp; without asserts nothing keeps them below a
    millisecond. *)
Definition max_nanos : Z := if asserts then 999999 else 2 ^ 31 - 1.

Lemma max_nanos_bound : max_nanos < 2 ^ 31.
Proof. unfold max_nanos. by destruct asserts. Qed.
Lemma FromEpochMillis_Ok ms ns : 0 ≤ ns ≤ max_nanos → FromEpochMillis ms ns = Ok (mkTimestamp ms ns).
Proof.
  unfold max_nanos, FromEpochMillis. destruct asserts; [|done]. intros [H1 H2]. cbn [andb].
  by rewrite (proj2 (Z.leb_le _ _) H1), (proj2 (Z.leb_le _ _) H2).
Qed.
Lemma FromEpochMillis_inv ms ns ts : 0 ≤ ns < 2 ^ 31 → FromEpochMillis ms ns = Ok ts → ts = mkTimestamp ms ns ∧ ns ≤ max_nanos.
Proof.
  unfold max_nanos, FromEpochMillis. destruct asserts; cbn [andb]; [|intros ? [= <-]; split; [done|lia]].
  destruct (Z.leb_spec 0 ns), (Z.leb_spec ns 999999); cbn; try done. by intros _ [= <-].
Qed.

(** A value of the type, in the range the format can hold: compact timestamps
    have no sub-millisecond part, other ones at most [max_nanos]; decimals carry
    the precision and the scale of the type, and their unscaled value fits into
    64 bits where the format is compact and into 128 bits where it is not. *)
Definition field_typed (t : ArrowType) (v : VariantType) : Prop :=
  match t, v with
  | OTHER_TYPE _, _ => False
  | _, VNull => True
  | BOOL, VBool _ => True
  | INT8, VByte z => in_type int8_t z
  | INT16, VShort z => in_type int16_t z
  | INT32, VInt z | DATE32, VInt z => in_type int32_t z
  | INT64, VLong z => in_type int64_t z
  | FLOAT, VFloat f => valid 23 8 f
  | DOUBLE, VDouble f => valid 52 11 f
  | STRING, VString s | BINARY, VBytes s => length (string_bytes s) < 2 ^ 31
  | TIMESTAMP precision, VTimestamp ts =>
      in_type int64_t (millisecond_ ts) ∧
      if Timestamp_IsCompact precision then nano_of_millisecond_ ts = 0
      else 0 ≤ nano_of_millisecond_ ts ≤ max_nanos
  | DECIMAL128 precision scale, VDecimal d =>
      Decimal.precision_ d = precision ∧ Decimal.scale_ d = scale ∧
      if precision <=? Decimal.MAX_COMPACT_PRECISION then in_type int64_t (Decimal.value_ d)
      else Int.in_s 128 (Decimal.value_ d)
  | _, _ => False
  end.

Definition binary_enc (l : list Z) : list Z := Encode_loop 4 (length l) ++ l.

(** The bytes of a non-null field. *)
Definition field_enc (t : ArrowType) (v : VariantType) : list Z :=
  match t, v with
  | BOOL, VBool b => to_memory uint8_t (Z.b2z b)
  | INT8, VByte z => to_memory int8_t z
  | INT16, VShort z => to_memory int16_t z
  | INT32, VInt z | DATE32, VInt z => to_memory int32_t z
  | INT64, VLong z => to_memory int64_t z
  | FLOAT, VFloat f => to_memory uint32_t (float_bits f)
  | DOUBLE, VDouble f => to_memory uint64_t (double_bits f)
  | STRING, VString s | BINARY, VBytes s => binary_enc (string_bytes s)
  | TIMESTAMP precision, VTimestamp ts =>
      to_memory int64_t (millisecond_ ts) ++
      (if Timestamp_IsCompact precision then [] else Encode_loop 4 (nano_of_millisecond_ ts))
  | DECIMAL128 precision _, VDecimal d =>
      if precision <=? Decimal.MAX_COMPACT_PRECISION then to_memory int64_t (Decimal.value_ d)
      else binary_enc (Decimal.ToUnscaledBytes (Decimal.value_ d))
  | _, _ => []
  end.

(** *** Writing *)

(** Rows up to half a gigabyte: the buffer stays within an [int32_t]. *)
Definition size_limit : Z := 2 ^ 29.
Definition cap_inv (w : RowWriter) : Prop := w_position w ≤ capacity_ w ≤ 2 ^ 30 + 64.

Lemma EnsureCapacity_put n bytes w :
  cap_inv w → length bytes ≤ n → w_position w + n ≤ size_limit + 8 →
  ∃ c, put bytes (EnsureCapacity n w) = Ok (mkRowWriter c (header_ w) (body_ w ++ bytes)) ∧
       cap_inv (mkRowWriter c (header_ w) (body_ w ++ bytes)).
Proof.
  intros [Hp Hc] Hn Hsize. unfold size_limit in *.
  assert (Hw : ∀ c, w_position (mkRowWriter c (header_ w) (body_ w ++ bytes)) = w_position w + length bytes).
  { intros c. unfold w_position; cbn. rewrite length_app. lia. }
  assert (0 ≤ w_position w) by (unfold w_position; lia).
  unfold EnsureCapacity. destruct (Z.ltb_spec (capacity_ w - w_position w) n) as [Hlt|Hge].
  - unfold Grow, put. cbn [capacity_ header_ body_].
    rewrite !Int.wrap_s_id by (unfold Int.in_s; change (32 - 1) with 31; lia).
    change (w_position (mkRowWriter ?a (header_ w) (body_ w))) with (w_position w).
    rewrite (proj2 (Z.ltb_ge _ _)) by lia. eexists. split; [done|]. unfold cap_inv. rewrite Hw. cbn. lia.
  - unfold put. rewrite (proj2 (Z.ltb_ge _ _)) by lia. eexists. split; [done|].
    unfold cap_inv. rewrite Hw. cbn. lia.
Qed.

(** A write that appends [bytes] to the row. *)
Definition writes (f : RowWriter → Result RowWriter) (bytes : list Z) : Prop :=
  ∀ w, cap_inv w → w_position w + length bytes ≤ size_limit →
  ∃ c, f w = Ok (mkRowWriter c (header_ w) (body_ w ++ bytes)) ∧
       cap_inv (mkRowWriter c (header_ w) (body_ w ++ bytes)).

Lemma writes_ext f g bytes : (∀ w, f w = g w) → writes g bytes → writes f bytes.
Proof. intros Hfg Hg w. rewrite Hfg. apply Hg. Qed.
Lemma w_WriteValue_writes T v : writes (w_WriteValue T v) (to_memory T v).
Proof.
  intros w Hw Hsize. rewrite DataOutputStream.to_memory_length in Hsize.
  apply EnsureCapacity_put; [done|by rewrite DataOutputStream.to_memory_length|lia].
Qed.
Lemma WriteUnsignedInt_writes v : 0 ≤ v < 2 ^ 31 → writes (WriteUnsignedInt v) (Encode_loop 4 v).
Proof.
  intros Hv w Hw Hsize. unfold WriteUnsignedInt. rewrite EncodeInt_ok by done. cbn [mbind Result_bind].
  assert (Hr : 0 ≤ v < 128 ^ 5%nat) by (change (128 ^ 5%nat) with (2 ^ 35); lia).
  destruct (Encode_loop_bytes 4 v Hr) as [_ Hl]. unfold kMaxVarIntSize.
  apply EnsureCapacity_put; [done|lia|lia].
Qed.
Lemma writes_app f g b1 b2 : writes f b1 → writes g b2 →
  writes (λ w, w1 ← f w; g w1) (b1 ++ b2).
Proof.
  intros Hf Hg w Hw Hsize. rewrite length_app in Hsize.
  destruct (Hf w Hw ltac:(lia)) as (c&->&Hc). cbn [mbind Result_bind].
  destruct (Hg _ Hc) as (c'&->&Hc'); [unfold w_position in *; cbn in *; rewrite length_app; lia|].
  cbn [header_ body_] in *. exists c'. by rewrite <-app_assoc in *.
Qed.
Lemma WriteBinary_writes l : length l < 2 ^ 31 → writes (WriteBinary l) (binary_enc l).
Proof.
  intros Hl. unfold WriteBinary, binary_enc.
  rewrite Int.wrap_s_id by (unfold Int.in_s; change (32 - 1) with 31; lia).
  apply (writes_app (WriteUnsignedInt (length l)) (λ w, put l (EnsureCapacity (length l) w))).
  - apply WriteUnsignedInt_writes. lia.
  - intros w Hw Hsize. apply EnsureCapacity_put; [done|lia|lia].
Qed.

Lemma write_non_null_writes t v : field_typed t v → v ≠ VNull →
  writes (write_non_null t v) (field_enc t v).
Proof.
  intros Ht Hv. destruct t, v; cbn in Ht; try done; cbn [write_non_null field_enc];
    try apply w_WriteValue_writes; try (by apply WriteBinary_writes).
  - destruct Ht as [_ Ht]. destruct (Timestamp_IsCompact precision) eqn:E.
    + rewrite app_nil_r. eapply writes_ext; [|apply w_WriteValue_writes].
      intros w. cbn. unfold WriteTimestamp. by rewrite E.
    + pose proof max_nanos_bound. eapply writes_ext; [|eapply writes_app; [apply w_WriteValue_writes|apply WriteUnsignedInt_writes; lia]].
      intros w. cbn. unfold WriteTimestamp. by rewrite E.
  - destruct Ht as (_&_&Hd). destruct (precision <=? _) eqn:E.
    + eapply writes_ext; [|apply w_WriteValue_writes].
      intros w. cbn. unfold WriteDecimal. rewrite E. f_equal. exact Hd.
    + eapply writes_ext; [|apply WriteBinary_writes].
      * intros w. cbn. unfold WriteDecimal. by rewrite E.
      * rewrite Decimal.ToUnscaledBytes_length by done.
        destruct (Decimal.valid_bytes_spec _ Hd) as (Hn&_). lia.
Qed.

(** *** Reading *)

(** The reader stands in front of [ahead]. *)
Definition stands (r : RowReader) (ahead : list Z) : Prop :=
  ∃ pre, segment_ r = pre ++ ahead ∧ r_position_ r = length pre.
(** A read that consumes [bytes] and yields [a]. *)
Definition reads {A} (f : RowReader → Result (A * RowReader)) (bytes : list Z) (a : A) : Prop :=
  ∀ r post, stands r (bytes ++ post) →
  ∃ r', f r = Ok (a, r') ∧ r' = at_position r (r_position_ r + length bytes) ∧ stands r' post.

Lemma stands_app r b1 b2 : stands r (b1 ++ b2) → stands (at_position r (r_position_ r + length b1)) b2.
Proof.
  intros (pre&Hs&Hp). exists (pre ++ b1). cbn. rewrite Hs, <-app_assoc, length_app. split; [done|lia].
Qed.
Lemma reads_intro {A} (f : RowReader → Result (A * RowReader)) bytes a :
  (∀ r post, stands r (bytes ++ post) → f r = Ok (a, at_position r (r_position_ r + length bytes))) →
  reads f bytes a.
Proof. intros Hf r post Hr. eexists. split; [by eapply Hf|]. split; [done|by apply stands_app]. Qed.

Lemma read_span_reads l : reads (read_span (length l)) l l.
Proof.
  apply reads_intro. intros r post (pre&Hs&Hp). unfold read_span.
  rewrite Hs, Hp, drop_app_length, take_app_length. by rewrite Nat.ltb_irrefl.
Qed.
Lemma reads_map {A B} f bytes (a : A) (g : A → B) :
  reads f bytes a → reads (λ r, v ← f r; Ok (g (fst v), snd v)) bytes (g a).
Proof. intros Hf r post Hr. destruct (Hf r post Hr) as (r'&->&->&Hr'). eauto. Qed.
Lemma reads_bind {A B} f b1 (a : A) (g : A → RowReader → Result (B * RowReader)) b2 b :
  reads f b1 a → reads (g a) b2 b → reads (λ r, v ← f r; g (fst v) (snd v)) (b1 ++ b2) b.
Proof.
  intros Hf Hg r post Hr. rewrite <-app_assoc in Hr.
  destruct (Hf _ _ Hr) as (r1&->&->&Hr1). cbn [mbind Result_bind fst snd].
  destruct (Hg _ _ Hr1) as (r2&->&->&Hr2). eexists. split; [done|]. split; [|done].
  unfold at_position; cbn. rewrite length_app. f_equal. lia.
Qed.

Lemma from_to_memory T v : in_type T v → from_memory T (to_memory T v) = v.
Proof.
  intros Hv. unfold from_memory, to_memory. by destruct SystemByteOrder; rewrite ?rev_involutive, of_bits_decode.
Qed.
Lemma r_ReadValue_reads T v : in_type T v → reads (r_ReadValue T) (to_memory T v) v.
Proof.
  intros Hv. pose proof (reads_map _ _ _ (from_memory T) (read_span_reads (to_memory T v))) as Hr.
  rewrite DataOutputStream.to_memory_length, from_to_memory in Hr by done. exact Hr.
Qed.
Lemma ReadUnsignedInt_reads v : 0 ≤ v < 2 ^ 31 → reads ReadUnsignedInt (Encode_loop 4 v) v.
Proof.
  intros Hv. apply reads_intro. intros r post (pre&Hs&Hp). unfold ReadUnsignedInt.
  rewrite Hs, Hp. by rewrite DecodeInt_encode.
Qed.
Lemma ReadBinary_reads l : length l < 2 ^ 31 → reads ReadBinary (binary_enc l) l.
Proof.
  intros Hl.
  apply (reads_bind ReadUnsignedInt (Encode_loop 4 (length l)) (Z.of_nat (length l))
           (λ n, read_span (Z.to_nat n)) l l).
  - apply ReadUnsignedInt_reads. lia.
  - rewrite Nat2Z.id. apply read_span_reads.
Qed.

Lemma in_type_unsigned T v : is_signed T = false → 0 ≤ v < 2 ^ (8 * sizeof T) → in_type T v.
Proof. intros HT Hv. unfold in_type, of_bits. rewrite HT. by apply Int.wrap_u_id. Qed.

Lemma r_ReadBool_reads b : reads r_ReadBool (to_memory uint8_t (Z.b2z b)) b.
Proof.
  assert (Hb : in_type uint8_t (Z.b2z b)) by (apply in_type_unsigned; [done|destruct b; cbn; lia]).
  pose proof (reads_map _ _ _ (λ v, negb (v =? 0)) (r_ReadValue_reads _ _ Hb)) as Hr.
  by destruct b.
Qed.
Lemma r_ReadFloat_reads f : valid 23 8 f → reads r_ReadFloat (to_memory uint32_t (float_bits f)) f.
Proof.
  intros Hf. assert (Hb : in_type uint32_t (float_bits f)).
  { apply in_type_unsigned; [done|]. apply (to_bits_range 23 8); [lia..|done]. }
  pose proof (reads_map _ _ _ float_of_bits (r_ReadValue_reads _ _ Hb)) as Hr.
  by rewrite float_of_bits_bits in Hr.
Qed.
Lemma r_ReadDouble_reads f : valid 52 11 f → reads r_ReadDouble (to_memory uint64_t (double_bits f)) f.
Proof.
  intros Hf. assert (Hb : in_type uint64_t (double_bits f)).
  { apply in_type_unsigned; [done|]. apply (to_bits_range 52 11); [lia..|done]. }
  pose proof (reads_map _ _ _ double_of_bits (r_ReadValue_reads _ _ Hb)) as Hr.
  by rewrite double_of_bits_bits in Hr.
Qed.
Lemma reads_then {X Y} (read : RowReader → Result (X * RowReader)) b x (f : X → Result Y) y :
  reads read b x → f x = Ok y → reads (λ r, v ← read r; y ← f (fst v); Ok (y, snd v)) b y.
Proof.
  intros H Hf r post Hr. destruct (H r post Hr) as (r'&->&E). cbn [mbind Result_bind fst snd]. rewrite Hf. eauto.
Qed.
Lemma ReadTimestamp_reads p ts : field_typed (TIMESTAMP p) (VTimestamp ts) →
  reads (ReadTimestamp p) (field_enc (TIMESTAMP p) (VTimestamp ts)) ts.
Proof.
  intros [Hm Hn]. destruct ts as [ms ns]; cbn in *. unfold ReadTimestamp.
  destruct (Timestamp_IsCompact p).
  - subst ns. rewrite app_nil_r.
    apply (reads_then _ _ ms (λ m, FromEpochMillis m 0)); [by apply r_ReadValue_reads|].
    apply FromEpochMillis_Ok. unfold max_nanos. by destruct asserts.
  - apply (reads_bind (r_ReadValue int64_t) _ ms
             (λ m r, n ← ReadUnsignedInt r; ts ← FromEpochMillis m (fst n); Ok (ts, snd n))).
    + by apply r_ReadValue_reads.
    + apply (reads_then _ _ ns (FromEpochMillis ms)); [apply ReadUnsignedInt_reads|by apply FromEpochMillis_Ok].
      pose proof max_nanos_bound. lia.
Qed.
Lemma ReadDecimal_reads p sc d : field_typed (DECIMAL128 p sc) (VDecimal d) →
  reads (ReadDecimal p sc) (field_enc (DECIMAL128 p sc) (VDecimal d)) d.
Proof.
  destruct d as [p' s' v]. cbn. intros (->&->&Hv). unfold ReadDecimal. destruct (p <=? _).
  - exact (reads_map _ _ _ (Decimal.mkDecimal p sc) (r_ReadValue_reads _ _ Hv)).
  - rewrite <-(Decimal.FromUnscaledBytes_ToUnscaledBytes p sc v) by done.
    apply (reads_map _ _ _ (Decimal.FromUnscaledBytes p sc)), ReadBinary_reads.
    rewrite Decimal.ToUnscaledBytes_length by done.
    destruct (Decimal.valid_bytes_spec _ Hv) as (Hn&_). lia.
Qed.

Lemma read_non_null_reads t v : field_typed t v → v ≠ VNull →
  reads (read_non_null t) (field_enc t v) v.
Proof.
  intros Ht Hv. unfold read_non_null, with_value.
  destruct t, v; cbn in Ht; try done; cbn [field_enc].
  - apply (reads_map _ _ _ VBool), r_ReadBool_reads.
  - apply (reads_map _ _ _ VByte), r_ReadValue_reads, Ht.
  - apply (reads_map _ _ _ VShort), r_ReadValue_reads, Ht.
  - apply (reads_map _ _ _ VInt), r_ReadValue_reads, Ht.
  - apply (reads_map _ _ _ VInt), r_ReadValue_reads, Ht.
  - apply (reads_map _ _ _ VLong), r_ReadValue_reads, Ht.
  - apply (reads_map _ _ _ VFloat), r_ReadFloat_reads, Ht.
  - apply (reads_map _ _ _ VDouble), r_ReadDouble_reads, Ht.
  - rewrite <-(string_of_bytes_bytes s) at 2.
    by apply (reads_map _ _ _ (λ b, VString (string_of_bytes b))), ReadBinary_reads.
  - rewrite <-(string_of_bytes_bytes s) at 2.
    by apply (reads_map _ _ _ (λ b, VBytes (string_of_bytes b))), ReadBinary_reads.
  - by apply (reads_map _ _ _ VTimestamp), ReadTimestamp_reads.
  - by apply (reads_map _ _ _ VDecimal), ReadDecimal_reads.
Qed.

(** *** Whole rows *)

(** The fields from [i] on have the [types]. *)
Definition fields_typed (i : nat) (types : list ArrowType) (row : InternalRow) : Prop :=
  ∀ j t, types !! j = Some t → field_typed t (field_at row (i + j)).
Lemma fields_typed_cons i t types row : fields_typed i (t :: types) row →
  field_typed t (field_at row i) ∧ fields_typed (S i) types row.
Proof.
  intros H. split.
  - specialize (H 0%nat t eq_refl). by rewrite Nat.add_0_r in H.
  - intros j t' Hj. specialize (H (S j) t' Hj). by rewrite Nat.add_succ_r in H.
Qed.

Fixpoint row_enc (i : nat) (types : list ArrowType) (row : InternalRow) : list Z :=
  match types with
  | [] => []
  | t :: rest => (if IsNullAt row i then [] else field_enc t (field_at row i)) ++ row_enc (S i) rest row
  end.
Fixpoint row_header (i : nat) (types : list ArrowType) (row : InternalRow) (h : list Z) : list Z :=
  match types with
  | [] => h
  | _ :: rest => row_header (S i) rest row (if IsNullAt row i then BitSet h (i + 8) else h)
  end.

Lemma row_header_length i types row h : length (row_header i types row h) = length h.
Proof.
  revert i h; induction types as [|t types IH]; intros i h; cbn; [done|]. rewrite IH.
  by destruct (IsNullAt row i); rewrite ?BitSet_length.
Qed.
Lemma row_header_head i types row h : row_header i types row h !! 0%nat = h !! 0%nat.
Proof.
  revert i h; induction types as [|t types IH]; intros i h; cbn [row_header]; [done|]. rewrite IH.
  destruct (IsNullAt row i); [|done]. apply BitSet_head. lia.
Qed.
Lemma row_header_bits i types row h (j n : nat) :
  length h = Z.to_nat (CalculateBitSetInBytes n) → (i + length types ≤ n)%nat →
  BitGet (row_header i types row h) (j + 8) =
  BitGet h (j + 8) || ((i <=? j)%nat && (j <? i + length types)%nat && IsNullAt row j).
Proof.
  revert i h; induction types as [|t types IH]; intros i h Hlen Hn; cbn [row_header length] in *.
  { destruct (Nat.leb_spec i j), (Nat.ltb_spec j (i + 0)); cbn; try lia; by rewrite orb_false_r. }
  rewrite IH; [|destruct (IsNullAt row i); by rewrite ?BitSet_length|lia].
  assert (Hb : BitGet (if IsNullAt row i then BitSet h (i + 8) else h) (j + 8) =
    BitGet h (j + 8) || (bool_decide (i = j) && IsNullAt row j)).
  { destruct (decide (i = j)) as [<-|Hne].
    - rewrite bool_decide_true by done. destruct (IsNullAt row i); cbn; [|by rewrite orb_false_r].
      rewrite BitGet_BitSet, bool_decide_true, orb_true_r; [done..|].
      rewrite Hlen. apply ByteIndex_header. lia.
    - rewrite bool_decide_false by done. cbn. rewrite orb_false_r. destruct (IsNullAt row i); [|done].
      rewrite BitGet_BitSet, bool_decide_false; [done|lia|]. rewrite Hlen. apply ByteIndex_header. lia. }
  rewrite Hb, <-orb_assoc, <-andb_orb_distrib_l. do 2 f_equal.
  case_bool_decide; destruct (Nat.leb_spec i j), (Nat.leb_spec (S i) j), (Nat.ltb_spec j (S i + length types)),
    (Nat.ltb_spec j (i + S (length types))); cbn; try done; lia.
Qed.

Lemma create_all_writers types row i : fields_typed i types row →
  ∃ ws, create_all CreateFieldWriter types = Ok ws ∧
    ∀ w, cap_inv w → w_position w + length (row_enc i types row) ≤ size_limit →
    ∃ c, write_fields i ws row w =
           Ok (mkRowWriter c (row_header i types row (header_ w)) (body_ w ++ row_enc i types row)) ∧
         cap_inv (mkRowWriter c (row_header i types row (header_ w)) (body_ w ++ row_enc i types row)).
Proof.
  revert i; induction types as [|t types IH]; intros i Ht; cbn [create_all row_enc row_header].
  { exists []. split; [done|]. intros [c h b] Hw _. exists c. cbn. by rewrite app_nil_r. }
  apply fields_typed_cons in Ht as [Hfield Hrest]. destruct (IH (S i) Hrest) as (ws&->&Hws).
  set (f := λ pos field w, if IsVariantNull field then Ok (SetNullAt pos w) else write_non_null t field w).
  assert (HC : CreateFieldWriter t = Ok f) by (by destruct t). rewrite HC.
  eexists. split; [done|]. intros w Hw Hsize. cbn [write_fields]. unfold f at 1. unfold IsNullAt in *.
  destruct (IsVariantNull (field_at row i)) eqn:En; cbn [mbind Result_bind].
  - cbn [app] in *. apply (Hws (SetNullAt i w)).
    + unfold cap_inv, w_position, SetNullAt in *; cbn. by rewrite BitSet_length.
    + unfold w_position, SetNullAt in *; cbn. by rewrite BitSet_length.
  - rewrite length_app in Hsize.
    destruct (write_non_null_writes t (field_at row i) Hfield) with (w := w) as (c&->&Hc);
      [by intros E; rewrite E in En|done|lia|].
    cbn [mbind Result_bind]. destruct (Hws _ Hc) as (c'&->&Hc').
    { unfold w_position in *; cbn. rewrite length_app. lia. }
    exists c'. cbn [header_ body_] in *. by rewrite <-app_assoc in *.
Qed.

(** What the reader knows of the row it points to: null bits and fields ahead. *)
Definition null_bits (r : RowReader) (row : InternalRow) (n : nat) : Prop :=
  ∀ j, (j < n)%nat → r_IsNullAt j r = IsNullAt row j.

Lemma create_all_readers types row i : fields_typed i types row →
  ∃ rs, create_all CreateFieldReader types = Ok rs ∧
    ∀ r post, stands r (row_enc i types row ++ post) → null_bits r row (i + length types) →
      read_fields i rs r = Ok (field_at row <$> seq i (length types)).
Proof.
  revert i; induction types as [|t types IH]; intros i Ht; cbn [create_all row_enc].
  { exists []. done. }
  apply fields_typed_cons in Ht as [Hfield Hrest]. destruct (IH (S i) Hrest) as (rs&->&Hrs).
  set (f := λ pos r, if r_IsNullAt pos r then Ok (VNull, r) else read_non_null t r).
  assert (HC : CreateFieldReader t = Ok f) by (by destruct t). rewrite HC.
  eexists. split; [done|]. intros r post Hr Hn. cbn [read_fields length seq fmap list_fmap]. unfold f at 1.
  rewrite (Hn i) by (cbn; lia). unfold IsNullAt in *.
  assert (Hn' : ∀ p, null_bits (at_position r p) row (S i + length types)).
  { intros p j Hj. apply Hn. cbn in *. lia. }
  destruct (IsVariantNull (field_at row i)) eqn:En; cbn [mbind Result_bind fst snd].
  - cbn [app] in Hr. rewrite (Hrs r post Hr).
    + destruct (field_at row i); try done.
    + apply (Hn' (r_position_ r)).
  - rewrite <-app_assoc in Hr.
    destruct (read_non_null_reads t (field_at row i) Hfield) with (r := r) (post := row_enc (S i) types row ++ post)
      as (r'&->&->&Hr'); [by intros E; rewrite E in En|done|].
    cbn [mbind Result_bind fst snd]. by rewrite (Hrs _ post Hr' (Hn' _)).
Qed.

(** Rows of the schema whose serialised form stays within the size limit. *)
Definition row_typed (types : list ArrowType) (row : InternalRow) : Prop :=
  length row = length types ∧ fields_typed 0 types row ∧
  CalculateBitSetInBytes (length types) + length (row_enc 0 types row) ≤ size_limit.

Definition row_bytes (kind : RowKind.RowKind) (types : list ArrowType) (row : InternalRow) : list Z :=
  row_header 0 types row
    (<[0%nat := RowKind.ToByteValue kind]> (replicate (Z.to_nat (CalculateBitSetInBytes (length types))) 0)) ++
  row_enc 0 types row.

(** The writer that is kept between rows. *)
Definition serializer_inv (types : list ArrowType) (s : RowCompactedSerializer) : Prop :=
  getters_ s = length types ∧
  create_all CreateFieldWriter types = Ok (writers_ s) ∧ create_all CreateFieldReader types = Ok (readers_ s) ∧
  match row_writer_ s with
  | Some w => cap_inv w ∧ length (header_ w) = Z.to_nat (CalculateBitSetInBytes (length types))
  | None => True
  end.

Lemma CreateSerializer_inv types s : CreateSerializer types = Ok s → serializer_inv types s.
Proof.
  unfold CreateSerializer. intros (ws&Hw&(rs&Hr&[= <-])%bind_Ok)%bind_Ok. by repeat split.
Qed.

Lemma header_size_nonneg (n : nat) : 0 ≤ CalculateBitSetInBytes n.
Proof. unfold CalculateBitSetInBytes, HEADER_SIZE_IN_BITS. apply Z.div_pos; lia. Qed.

Lemma SerializeToBytes_row_bytes types s kind row : serializer_inv types s → row_typed types row →
  ∃ s', SerializeToBytes kind row s = Ok (row_bytes kind types row, s') ∧ serializer_inv types s'.
Proof.
  intros (Hg&Hws&Hrs&Hw) (Hlen&Ht&Hsize). unfold SerializeToBytes. rewrite Hg.
  pose proof (header_size_nonneg (length types)) as Hh.
  set (h := Z.to_nat (CalculateBitSetInBytes (length types))) in *.
  set (w0 := default _ _).
  assert (Hw0 : length (header_ w0) = h ∧ h ≤ capacity_ w0 ≤ 2 ^ 30 + 64).
  { unfold w0. destruct (row_writer_ s) as [w|]; cbn.
    - destruct Hw as [[Hp Hc] Hl]. split; [done|]. unfold w_position in Hp. lia.
    - rewrite length_replicate. split; [done|]. unfold size_limit in *. lia. }
  destruct Hw0 as [Hl0 Hc0].
  destruct (create_all_writers types row 0 Ht) as (ws&Hws'&Hwrite).
  rewrite Hws in Hws'. injection Hws' as <-.
  destruct (Hwrite (WriteRowKind kind (w_Reset w0))) as (c&->&Hc).
  { unfold cap_inv, w_position, WriteRowKind, w_Reset; cbn.
    rewrite length_insert, length_replicate. lia. }
  { unfold w_position, WriteRowKind, w_Reset; cbn. rewrite length_insert, length_replicate. lia. }
  cbn [mbind Result_bind]. unfold CopyBuffer, WriteRowKind, w_Reset in *; cbn [header_ body_ app] in *.
  rewrite Hl0 in *. eexists. split; [done|]. unfold serializer_inv; cbn. split_and!; try done.
  by rewrite row_header_length, length_insert, length_replicate.
Qed.

(** A reader pointed at a serialised row inside of a segment. *)
Section Point.
Context (types : list ArrowType) (row : InternalRow) (kind : RowKind.RowKind) (pre post : list Z).
Let h := Z.to_nat (CalculateBitSetInBytes (length types)).
Let r := PointTo h (pre ++ row_bytes kind types row ++ post) (length pre).

Lemma header_pos : (0 < h)%nat.
Proof.
  unfold h, CalculateBitSetInBytes, HEADER_SIZE_IN_BITS.
  pose proof (Z.div_le_lower_bound (length types + 7 + 8) 8 1). lia.
Qed.
Lemma point_header_length :
  length (row_header 0 types row (<[0%nat := RowKind.ToByteValue kind]> (replicate h 0))) = h.
Proof. by rewrite row_header_length, length_insert, length_replicate. Qed.
Lemma point_stands : stands r (row_enc 0 types row ++ post).
Proof.
  unfold r, row_bytes. fold h. set (hd := row_header _ _ _ _).
  exists (pre ++ hd). cbn. rewrite <-!app_assoc. split; [done|].
  rewrite length_app. unfold hd. by rewrite point_header_length.
Qed.
Lemma point_null_bits : null_bits r row (length types).
Proof.
  intros j Hj. unfold r_IsNullAt, r, row_bytes; cbn [offset_ segment_ PointTo]. fold h.
  rewrite drop_app_length, <-app_assoc. set (hd := row_header _ _ _ _).
  assert (Hl : length hd = h) by apply point_header_length.
  assert (Hbit : BitGet (hd ++ row_enc 0 types row ++ post) (j + 8) = BitGet hd (j + 8)).
  { unfold BitGet. rewrite lookup_app_l; [done|]. rewrite Hl. by apply ByteIndex_header. }
  rewrite Hbit. unfold hd. rewrite (row_header_bits 0 types row _ j (length types)).
  - rewrite (proj2 (Nat.ltb_lt _ _)) by done. cbn [Nat.leb andb].
    assert (BitGet (<[0%nat := RowKind.ToByteValue kind]> (replicate h 0)) (j + 8) = false) as ->; [|done].
    unfold BitGet. rewrite list_lookup_insert_ne.
    + destruct (replicate h 0 !! _) as [c|] eqn:E; [|done]. by apply lookup_replicate in E as [-> _].
    + unfold ByteIndex. rewrite Z.shiftr_div_pow2 by lia.
      pose proof (Z.div_le_lower_bound (j + 8)%nat (2 ^ 3) 1). lia.
  - by rewrite length_insert, length_replicate.
  - lia.
Qed.
Lemma point_kind : ReadRowKind r = Ok kind.
Proof.
  unfold ReadRowKind, r, get_byte, row_bytes; cbn [offset_ segment_ PointTo]. fold h.
  set (hd := row_header _ _ _ _). assert (Hl : length hd = h) by apply point_header_length.
  pose proof header_pos as Hh.
  rewrite lookup_app_r, Nat.sub_diag, lookup_app_l, lookup_app_l by (rewrite ?length_app; lia).
  unfold hd. rewrite row_header_head, list_lookup_insert_eq by (rewrite length_replicate; lia).
  by destruct kind.
Qed.
End Point.

Lemma field_at_seq (types : list ArrowType) (row : InternalRow) : length row = length types →
  field_at row <$> seq 0 (length types) = row.
Proof.
  intros <-. apply list_eq. intros i. rewrite list_lookup_fmap. unfold field_at.
  destruct (row !! i) as [v|] eqn:E.
  - apply lookup_lt_Some in E as Hlt. rewrite lookup_seq_lt by done. cbn. by rewrite E.
  - rewrite lookup_seq_ge by (by apply lookup_ge_None). done.
Qed.

Lemma Deserialize_row_bytes types s kind row : serializer_inv types s → row_typed types row →
  Deserialize (row_bytes kind types row) s = Ok (kind, row).
Proof.
  intros (Hg&_&Hrs&_) (Hlen&Ht&_). unfold Deserialize. rewrite Hg.
  pose proof (point_kind types row kind [] []) as Hk. pose proof (point_stands types row kind [] []) as Hst.
  pose proof (point_null_bits types row kind [] []) as Hn.
  rewrite app_nil_r in Hk, Hst, Hn. cbn [app length] in Hk, Hst, Hn. rewrite Hk. cbn [mbind Result_bind].
  destruct (create_all_readers types row 0 Ht) as (rs&Hrs'&Hread). rewrite Hrs in Hrs'. injection Hrs' as <-.
  rewrite (Hread _ _ Hst Hn). cbn. by rewrite field_at_seq.
Qed.

(** C36. A row of the schema is serialised without writing outside of the
    buffer, by a serialiser that has been used any number of times before, and
    reading its bytes gives the row and its kind back. *)
Theorem row_compacted_roundtrip types s kind row :
  serializer_inv types s → row_typed types row →
  ∃ bytes s', SerializeToBytes kind row s = Ok (bytes, s') ∧ serializer_inv types s' ∧
    Deserialize bytes s' = Ok (kind, row).
Proof.
  intros Hs Hrow. destruct (SerializeToBytes_row_bytes types s kind row Hs Hrow) as (s'&Heq&Hs').
  eexists _, s'. split; [exact Heq|]. split; [done|]. by apply Deserialize_row_bytes.
Qed.

(** *** The type of what is read *)

Definition byte_list (l : list Z) : Prop := Forall (λ b, 0 ≤ b < 256) l.

Lemma from_memory_in_type T l : (0 < sizeof T)%nat → in_type T (from_memory T l).
Proof.
  intros Hs. unfold in_type, from_memory, of_bits. destruct (is_signed T).
  - apply Int.wrap_s_id; [lia|]. apply Int.wrap_s_range. lia.
  - unfold Int.wrap_u. apply Z.mod_mod. lia.
Qed.
Lemma r_ReadValue_typed T r v r' : (0 < sizeof T)%nat → r_ReadValue T r = Ok (v, r') → in_type T v ∧ segment_ r' = segment_ r.
Proof.
  intros Hs. unfold r_ReadValue. intros ([b r1]&Hb&[= <- <-])%bind_Ok. split; [by apply from_memory_in_type|].
  unfold read_span in Hb. destruct (_ <? _)%nat; [done|]. by injection Hb as _ <-.
Qed.
Lemma Decode_loop_range fuel shift result data offset v o : Decode_loop 32 fuel shift result data offset = Ok (v, o) → 0 ≤ v < 2 ^ 31.
Proof.
  revert shift result offset. induction fuel as [|fuel IH]; intros shift result offset; [done|]. cbn [Decode_loop]. intros (b&_&H)%bind_Ok.
  destruct (Z.land b 128 =? 0); [|by eapply IH]. revert H. set (x := Z.lor _ _). pose proof (Int.wrap_s_range 32 x ltac:(lia)) as [_ Hx].
  destruct (Z.ltb_spec (Int.wrap_s 32 x) 0); [done|]. intros [= <- _]. change (2 ^ 31) with (2 ^ (32 - 1)). lia.
Qed.
Lemma ReadUnsignedInt_typed r v r' : byte_list (segment_ r) → ReadUnsignedInt r = Ok (v, r') → 0 ≤ v < 2 ^ 31 ∧ segment_ r' = segment_ r.
Proof.
  intros Hb. unfold ReadUnsignedInt. intros ([x p]&Hd&[= <- <-])%bind_Ok. split; [|done]. unfold DecodeInt in Hd. apply bind_Ok in Hd as (b&Hget&Hd).
  destruct (Z.land b 128 =? 0); [|by eapply Decode_loop_range]. injection Hd as <- _. unfold get_byte in Hget.
  destruct (segment_ r !! r_position_ r) as [b'|] eqn:E; [|done]. injection Hget as <-.
  pose proof (proj1 (Forall_lookup _ _) Hb _ _ E) as Hrange. cbn in Hrange |- *. lia.
Qed.
Lemma ReadBinary_typed r l r' : byte_list (segment_ r) → ReadBinary r = Ok (l, r') → length l < 2 ^ 31 ∧ segment_ r' = segment_ r.
Proof.
  intros Hb. unfold ReadBinary. intros ([n r1]&Hn&H)%bind_Ok. destruct (ReadUnsignedInt_typed _ _ _ Hb Hn) as [Hr Hs]. cbn [fst snd] in H.
  unfold read_span in H. destruct (_ <? _)%nat; [done|]. injection H as <- <-. split; [|done]. rewrite length_take. lia.
Qed.
Lemma string_of_bytes_length l : length (string_bytes (string_of_bytes l)) = length l.
Proof. unfold string_bytes, string_of_bytes. by rewrite String.list_ascii_of_string_of_list_ascii, !length_fmap. Qed.

Lemma with_value_Ok {A} (f : A → VariantType) x v r' : with_value f x = Ok (v, r') → ∃ a, x = Ok (a, r') ∧ v = f a.
Proof. unfold with_value. intros ([a r1]&->&[= <- <-])%bind_Ok. by exists a. Qed.

(** A field that is read has the type of the field. *)
Lemma read_non_null_typed t r v r' : byte_list (segment_ r) → read_non_null t r = Ok (v, r') → field_typed t v ∧ segment_ r' = segment_ r.
Proof.
  intros Hb H. destruct t as [| | | | | | | | | |p|p sc|]; cbn in H; [..|done]; apply with_value_Ok in H as (a&H&->); cbn [field_typed].
  all: try (apply r_ReadValue_typed in H; [exact H|cbn; lia]).
  all: try (unfold r_ReadBool, r_ReadFloat, r_ReadDouble in H; apply bind_Ok in H as ([x r1]&H&[= <- <-]);
    apply r_ReadValue_typed in H as [_ ?]; [|cbn; lia]; split; [|done]; by (apply from_bits_valid || done)).
  all: try (apply ReadBinary_typed in H as [? ?]; [|done]; split; [|done]; by rewrite string_of_bytes_length).
  - unfold ReadTimestamp in H. destruct (Timestamp_IsCompact p).
    + apply bind_Ok in H as ([x r1]&H&(ts&Hts&[= <- <-])%bind_Ok). apply r_ReadValue_typed in H as [? ?]; [|cbn; lia].
      apply FromEpochMillis_inv in Hts as [-> _]; [|lia]. done.
    + apply bind_Ok in H as ([x r1]&H&H2). apply r_ReadValue_typed in H as [Hx E1]; [|cbn; lia].
      apply bind_Ok in H2 as ([n r2]&H2&(ts&Hts&[= <- <-])%bind_Ok). cbn [fst snd] in *.
      apply ReadUnsignedInt_typed in H2 as [Hn E2]; [|by rewrite E1]. apply FromEpochMillis_inv in Hts as [-> Hmax]; [|done].
      cbn [fst snd millisecond_ nano_of_millisecond_]. split; [|congruence]. split; [done|lia].
  - unfold ReadDecimal in H. destruct (p <=? Decimal.MAX_COMPACT_PRECISION) eqn:Ep.
    + apply bind_Ok in H as ([x r1]&H&[= <- <-]). apply r_ReadValue_typed in H as [? ?]; [|cbn; lia]. by split_and!.
    + apply bind_Ok in H as ([x r1]&H&[= <- <-]). apply ReadBinary_typed in H as [? ?]; [|done]. split; [|done]. split_and!; [done..|].
      apply Int.wrap_s_range. lia.
Qed.

Lemma read_fields_typed types readers i r row : byte_list (segment_ r) → create_all CreateFieldReader types = Ok readers →
  read_fields i readers r = Ok row → length row = length types ∧ fields_typed 0 types row.
Proof.
  revert readers i r row. induction types as [|t types IH]; intros readers i r row Hb; cbn [create_all].
  { intros [= <-] [= <-]. split; [done|]. by intros j t. }
  intros (rd&Hrd&(rds&Hrds&[= <-])%bind_Ok)%bind_Ok. cbn [read_fields]. intros ([v r1]&Hv&(row'&Hrow&[= <-])%bind_Ok)%bind_Ok. cbn [fst snd] in *.
  assert (Ht : field_typed t v ∧ segment_ r1 = segment_ r).
  { unfold CreateFieldReader in Hrd. assert (Hx : (if r_IsNullAt i r then Ok (VNull, r) else read_non_null t r) = Ok (v, r1) ∧ ∀ n, t ≠ OTHER_TYPE n).
    { destruct t; try done; injection Hrd as <-; done. }
    destruct Hx as [Hx Ht]. destruct (r_IsNullAt i r); [|by apply read_non_null_typed]. injection Hx as <- <-. split; [|done].
    destruct t as [| | | | | | | | | |p|p sc|n]; done || by destruct (Ht n). }
  destruct Ht as [Ht Hs]. destruct (IH rds (S i) r1 row') as [Hl Hf]; [by rewrite Hs|done..|]. split; [cbn; lia|].
  intros [|j] t' Hj; [by injection Hj as <-|]. exact (Hf j t' Hj).
Qed.

(** C37. Whatever bytes are read, a row that the serialiser accepts has in every
    field null or a value of the type of the schema: integers, floating-point
    numbers and lengths in the range of their width, decimals with the precision
    and the scale of the type (their digits are bounded by the 64 or 128 bits
    stored, not by the precision), timestamps with at most 999,999 nanoseconds
    where asserts are compiled in; larger numbers then end in the assert of
    [Timestamp]. *)
Theorem deserialize_typed types s bytes kind row : serializer_inv types s → byte_list bytes → Deserialize bytes s = Ok (kind, row) →
  length row = length types ∧ ∀ j t, types !! j = Some t → field_typed t (field_at row j).
Proof.
  intros (_&_&Hr&_) Hb. unfold Deserialize. intros (k&_&(row'&Hrow&[= _ <-])%bind_Ok)%bind_Ok. by eapply read_fields_typed in Hrow.
Qed.

(** *** Comparing serialised rows *)

Lemma cmp_both_reads {A} (read : RowReader → Result (A * RowReader)) cmp b1 b2 a1 a2 r1 r2 post1 post2 :
  reads read b1 a1 → reads read b2 a2 → stands r1 (b1 ++ post1) → stands r2 (b2 ++ post2) →
  ∃ r1' r2', cmp_both read cmp r1 r2 = Ok (cmp a1 a2, r1', r2') ∧
    r1' = at_position r1 (r_position_ r1 + length b1) ∧ stands r1' post1 ∧
    r2' = at_position r2 (r_position_ r2 + length b2) ∧ stands r2' post2.
Proof.
  intros H1 H2 Hr1 Hr2. unfold cmp_both.
  destruct (H1 r1 post1 Hr1) as (r1'&->&E1&Hs1). cbn [mbind Result_bind].
  destruct (H2 r2 post2 Hr2) as (r2'&->&E2&Hs2). cbn. eauto 10.
Qed.

Lemma sign_of_cmp_string a b : sign_of (cmp_string a b) = cmp_string a b.
Proof. unfold cmp_string. by destruct (String.compare a b). Qed.

Lemma GetDecimal_typed row i p sc d : field_at row i = VDecimal d →
  field_typed (DECIMAL128 p sc) (VDecimal d) → GetDecimal row i p sc = d.
Proof.
  intros Hf (Hp&Hs&Hv). unfold GetDecimal. rewrite Hf. destruct d as [p' s' v]. cbn in *. subst.
  f_equal. apply Int.wrap_s_id; [lia|]. destruct (p <=? _); [|done].
  unfold in_type in Hv. rewrite <-Hv. pose proof (Int.wrap_s_range 64 v ltac:(lia)) as Hr.
  unfold Int.in_s in *. change (of_bits int64_t v) with (Int.wrap_s 64 v).
  change (128 - 1) with 127. change (64 - 1) with 63 in Hr. lia.
Qed.

Definition field_compared (t : ArrowType) (f : FieldComparatorFunc) (i : nat) (row1 row2 : InternalRow) : Prop :=
  ∀ r1 r2 post1 post2,
    stands r1 (field_enc t (field_at row1 i) ++ post1) → stands r2 (field_enc t (field_at row2 i) ++ post2) →
  ∃ r1' r2', slice_CompareField t r1 r2 = Ok (f row1 row2, r1', r2') ∧
    r1' = at_position r1 (r_position_ r1 + length (field_enc t (field_at row1 i))) ∧ stands r1' post1 ∧
    r2' = at_position r2 (r_position_ r2 + length (field_enc t (field_at row2 i))) ∧ stands r2' post2.

Lemma slice_CompareField_ok t i f row1 row2 :
  CompareField i t = Ok f →
  field_typed t (field_at row1 i) → field_typed t (field_at row2 i) →
  IsNullAt row1 i = false → IsNullAt row2 i = false →
  field_compared t f i row1 row2.
Proof.
  unfold IsNullAt, field_compared. intros Hf H1 H2 Hn1 Hn2 r1 r2 post1 post2 Hr1 Hr2.
  destruct t; cbn in Hf; try done; injection Hf as <-;
    unfold GetBoolean, GetInteger, GetFloating, GetStringView, GetTimestamp;
    destruct (field_at row1 i) eqn:E1; cbn in H1; try done;
    destruct (field_at row2 i) eqn:E2; cbn in H2; try done; cbn [slice_CompareField field_enc] in *.
  all: try (by eapply cmp_both_reads; eauto using r_ReadValue_reads, r_ReadBool_reads, r_ReadFloat_reads,
                                       r_ReadDouble_reads).
  1, 2: pose proof (cmp_both_reads ReadBinary
      (λ a b, sign_of (cmp_string (string_of_bytes a) (string_of_bytes b))) _ _ _ _ r1 r2 post1 post2
      (ReadBinary_reads _ H1) (ReadBinary_reads _ H2) Hr1 Hr2) as Hc;
    cbn beta in Hc; by rewrite !string_of_bytes_bytes, sign_of_cmp_string in Hc.
  - apply (cmp_both_reads (ReadTimestamp precision) cmp_timestamp); try done;
      by apply ReadTimestamp_reads.
  - rewrite (GetDecimal_typed _ _ _ _ _ E1 H1), (GetDecimal_typed _ _ _ _ _ E2 H2).
    apply (cmp_both_reads (ReadDecimal precision scale) (λ a b, sign_of (Decimal.CompareTo a b)));
      try done; by apply ReadDecimal_reads.
Qed.

Lemma slice_compare_loop_ok i all types cmps row1 row2 r1 r2 post1 post2 :
  (∀ j, all !! (i + j)%nat = types !! j) →
  create_comparators all (seq i (length types)) = Ok cmps →
  fields_typed i types row1 → fields_typed i types row2 →
  null_bits r1 row1 (i + length types) → null_bits r2 row2 (i + length types) →
  stands r1 (row_enc i types row1 ++ post1) → stands r2 (row_enc i types row2 ++ post2) →
  slice_compare_loop i types r1 r2 = Ok (compare_loop true (zip (seq i (length types)) cmps) row1 row2).
Proof.
  revert i cmps r1 r2; induction types as [|t types IH];
    intros i cmps r1 r2 Hall Hc Ht1 Ht2 Hn1 Hn2 Hs1 Hs2; [done|].
  cbn [length seq create_comparators] in Hc. apply bind_Ok in Hc as (f&Hf&(fs&Hfs&[= <-])%bind_Ok).
  assert (Hti : all !! i = Some t) by (specialize (Hall 0%nat); by rewrite Nat.add_0_r in Hall).
  rewrite Hti in Hf. cbn in Hf.
  assert (Hall' : ∀ j, all !! (S i + j)%nat = types !! j).
  { intros j. specialize (Hall (S j)). by rewrite Nat.add_succ_r in Hall. }
  apply fields_typed_cons in Ht1 as [Hf1 Ht1], Ht2 as [Hf2 Ht2].
  cbn [slice_compare_loop length seq zip zip_with compare_loop row_enc] in *.
  rewrite (Hn1 i), (Hn2 i) by lia. unfold compare_one. rewrite Nat.add_succ_r in Hn1, Hn2.
  destruct (IsNullAt row1 i) eqn:N1, (IsNullAt row2 i) eqn:N2; cbn [negb orb andb app] in *; try done.
  - rewrite Z.eqb_refl. by apply IH.
  - rewrite <-app_assoc in Hs1, Hs2.
    destruct (slice_CompareField_ok t i f row1 row2 Hf Hf1 Hf2 N1 N2 r1 r2 _ _ Hs1 Hs2)
      as (r1'&r2'&->&->&Hs1'&->&Hs2'). cbn [mbind Result_bind].
    destruct (f row1 row2 =? 0); cbn [negb]; [|done]. by apply IH.
Qed.

(** Comparing two rows in serialised form, wherever they lie in their
    segments and whatever their row kinds, gives exactly what [FieldsComparator]
    over all fields gives for the rows themselves. *)
Theorem slice_comparator_agrees types c s row1 row2 kind1 kind2 b1 b2 s1 s2 pre1 pre2 post1 post2 :
  Rows.Create types true = Ok c → serializer_inv types s →
  row_typed types row1 → row_typed types row2 →
  SerializeToBytes kind1 row1 s = Ok (b1, s1) → SerializeToBytes kind2 row2 s1 = Ok (b2, s2) →
  SliceComparator types (pre1 ++ b1 ++ post1, length pre1) (pre2 ++ b2 ++ post2, length pre2) =
  Ok (CompareRows c row1 row2).
Proof.
  intros Hc Hs Hrow1 Hrow2 Hb1 Hb2.
  destruct (SerializeToBytes_row_bytes types s kind1 row1 Hs Hrow1) as (s1'&Heq1&Hs1).
  rewrite Heq1 in Hb1. apply Ok_inj, pair_eq in Hb1 as [<- <-].
  destruct (SerializeToBytes_row_bytes types s1' kind2 row2 Hs1 Hrow2) as (s2'&Heq2&_).
  rewrite Heq2 in Hb2. apply Ok_inj, pair_eq in Hb2 as [<- <-].
  destruct Hrow1 as (_&Ht1&_), Hrow2 as (_&Ht2&_). unfold Rows.Create, CreateSorted in Hc.
  apply bind_Ok in Hc as (cmps&Hcmps&[= <-]). unfold SliceComparator, CompareRows. cbn [fst snd].
  eapply slice_compare_loop_ok; [done|done|done|done|apply point_null_bits|apply point_null_bits|
    apply point_stands|apply point_stands].
Qed.
End RowCompacted.

(** ** Examples *)

Module RowExamples.
#[local] Instance little : Platform := PAIMON_LITTLE_ENDIAN.
#[local] Instance debug : Asserts := true.
Definition types : list ArrowType := [INT32; STRING; DECIMAL128 20 2; TIMESTAMP 6].
Definition row1 : InternalRow :=
  [VInt (-7); VString "key"; VDecimal (Decimal.mkDecimal 20 2 12345); VTimestamp (mkTimestamp 1000 5)].
Definition row2 : InternalRow := [VInt (-7); VNull; VDecimal (Decimal.mkDecimal 20 2 1); VNull].
Definition serializer : RowCompactedSerializer :=
  match CreateSerializer types with Ok s => s | Err _ _ => mkSerializer 0 [] [] None end.

Lemma serializer_ok : serializer_inv types serializer.
Proof. apply CreateSerializer_inv. reflexivity. Qed.
Lemma row1_typed : row_typed types row1.
Proof.
  split_and!; [done| |vm_compute; discriminate].
  intros j t Hj. do 4 (destruct j as [|j]; [injection Hj as <-; vm_compute; repeat split; discriminate|]).
  done.
Qed.
Lemma row2_typed : row_typed types row2.
Proof.
  split_and!; [done| |vm_compute; discriminate].
  intros j t Hj. do 4 (destruct j as [|j]; [injection Hj as <-; vm_compute; repeat split; discriminate|]).
  done.
Qed.

Lemma row_compacted_roundtrip_witness :
  ∃ bytes s', SerializeToBytes RowKind.Insert row1 serializer = Ok (bytes, s') ∧ serializer_inv types s' ∧
    Deserialize bytes s' = Ok (RowKind.Insert, row1).
Proof. exact (row_compacted_roundtrip types serializer RowKind.Insert row1 serializer_ok row1_typed). Defined.

Lemma deserialize_typed_witness :
  length [VInt 7; VNull; VNull; VTimestamp (mkTimestamp 1 5)] = length types ∧
  ∀ j t, types !! j = Some t → field_typed t (field_at [VInt 7; VNull; VNull; VTimestamp (mkTimestamp 1 5)] j).
Proof.
  apply (deserialize_typed types serializer [0; 6; 7; 0; 0; 0; 1; 0; 0; 0; 0; 0; 0; 0; 5; 77] RowKind.Insert _ serializer_ok); [|by vm_compute].
  unfold byte_list. repeat constructor; lia.
Defined.

Definition comparator : FieldsComparator :=
  match Rows.Create types true with Ok c => c | Err _ _ => mkFieldsComparator true [] [] end.
Definition serialized (s : RowCompactedSerializer) (row : InternalRow) : list Z * RowCompactedSerializer :=
  match SerializeToBytes RowKind.Insert row s with Ok r => r | Err _ _ => ([], s) end.

Lemma slice_comparator_agrees_witness :
  let '(b1, s1) := serialized serializer row1 in
  let '(b2, s2) := serialized s1 row2 in
  SliceComparator types ([0; 0] ++ b1 ++ [], 2%nat) ([] ++ b2 ++ [9], 0%nat) = Ok 1.
Proof.
  exact (slice_comparator_agrees types comparator serializer row1 row2 RowKind.Insert RowKind.Insert
    (fst (serialized serializer row1)) (fst (serialized (snd (serialized serializer row1)) row2))
    (snd (serialized serializer row1)) (snd (serialized (snd (serialized serializer row1)) row2))
    [0; 0] [] [] [9] eq_refl serializer_ok row1_typed row2_typed eq_refl eq_refl).
Defined.
End RowExamples.
