(* ===== verification/Roaring.v ===== *)
(** * Roaring bitmaps

    [RoaringBitmap32] (src/paimon/common/utils/roaring_bitmap32.cpp) and
    [OptimizedRoaringBitmap64]
    (src/paimon/common/utils/optimized_roaring_bitmap64.{h,cpp}), the bitmaps of
    row positions behind deletion vectors. The CRoaring library they are built
    on is a parameter: the class [Roaring] is the part of its interface that is
    used and [RoaringLaws] what its documentation promises. *)

From stdpp Require Import base list gmap strings sorting.
From Stdlib Require Import ZArith Lia.
From S2P Require Import Prelude Streams.
Local Open Scope Z_scope.
Local Coercion Z.of_nat : nat >-> Z.

(** ** CRoaring *)

(** [r_elements] is iteration in ascending order; [r_write] is the portable
    serialisation, [r_readSafe] parses one bitmap at the start of a buffer. *)
Class Roaring (B : Type) := {
  r_empty : B;
  r_add : Z → B → B;
  r_contains : Z → B → bool;
  r_or : B → B → B;
  r_elements : B → list Z;
  r_cardinality : B → Z;
  r_runOptimize : B → B;
  r_write : B → list Z;
  r_getSizeInBytes : B → Z;
  r_readSafe : list Z → option B
}.

Class RoaringLaws (B : Type) {R : Roaring B} : Prop := {
  contains_empty : ∀ x, r_contains x r_empty = false;
  contains_add : ∀ x y b, r_contains x (r_add y b) = (bool_decide (x = y) || r_contains x b);
  contains_or : ∀ x a b, r_contains x (r_or a b) = (r_contains x a || r_contains x b);
  elements_contains : ∀ x b, x ∈ r_elements b ↔ r_contains x b = true ∧ 0 ≤ x < 2 ^ 32;
  elements_sorted : ∀ b, StronglySorted Z.lt (r_elements b);
  cardinality_elements : ∀ b, r_cardinality b = length (r_elements b);
  contains_runOptimize : ∀ x b, r_contains x (r_runOptimize b) = r_contains x b;
  size_write : ∀ b, r_getSizeInBytes b = length (r_write b);
  readSafe_write : ∀ b rest, r_readSafe (r_write b ++ rest) = Some b
}.

(** ** RoaringBitmap32 *)

Module RoaringBitmap32.
Section RoaringBitmap32.
Context {B : Type} `{Roaring B}.

Definition MAX_VALUE : Z := 2 ^ 31 - 1.

(** The [int32_t] arguments are converted to [uint32_t] by the calls. *)
Definition Add (x : Z) (b : B) : B := r_add (Int.wrap_u 32 x) b.
Definition Contains (x : Z) (b : B) : bool := r_contains (Int.wrap_u 32 x) b.
Definition CheckedAdd (x : Z) (b : B) : bool * B :=
  if Contains x b then (false, b) else (true, Add x b).
Definition IsEmpty (b : B) : bool := r_cardinality b =? 0.
Definition Cardinality (b : B) : Z := Int.wrap_s 32 (r_cardinality b).
Definition From (values : list Z) : B := fold_left (λ res v, Add v res) values r_empty.

(** An iterator is its list of remaining values; [operator*] is an [int32_t]. *)
Definition EqualOrLarger (key : Z) (b : B) : list Z :=
  filter (λ x, Int.wrap_u 32 key ≤ x) (r_elements b).
Definition deref (it : list Z) : option Z := Int.wrap_s 32 <$> head it.

Definition NextValue (x : Z) (b : B) : option Z := deref (EqualOrLarger x b).
Definition ContainsAny (min max : Z) (b : B) : bool :=
  match deref (EqualOrLarger min b) with Some v => v <? max | None => false end.

(** [rank v] counts the values at most [v], [select i] is the [i]-th value. *)
Definition rank (v : Z) (b : B) : nat := length (filter (λ x, x ≤ v) (r_elements b)).
Definition PreviousValue (x : Z) (b : B) : option Z :=
  match r_elements b with
  | [] => None
  | minimum :: _ =>
      if x <=? Int.wrap_s 32 minimum then None
      else match rank (Int.wrap_u 32 (x - 1)) b with
           | O => None
           | S r => Int.wrap_s 32 <$> (r_elements b !! r)
           end
  end.

Context `{!RoaringLaws B}.

(** All values fit an [int32_t]: what row positions satisfy. *)
Definition nonneg (b : B) : Prop := ∀ x, x ∈ r_elements b → 0 ≤ x < 2 ^ 31.

Lemma wrap_u32_id x : 0 ≤ x < 2 ^ 32 → Int.wrap_u 32 x = x.
Proof. apply Z.mod_small. Qed.
Lemma wrap_s32_id x : 0 ≤ x < 2 ^ 31 → Int.wrap_s 32 x = x.
Proof.
  intros Hx. unfold Int.wrap_s. rewrite Z.mod_small by lia.
  rewrite (proj2 (Z.ltb_lt _ _)); [done|]. change (32 - 1) with 31. lia.
Qed.

Lemma Contains_Add x y b : 0 ≤ x < 2 ^ 32 → 0 ≤ y < 2 ^ 32 →
  Contains x (Add y b) = bool_decide (x = y) || Contains x b.
Proof. intros. unfold Contains, Add. by rewrite contains_add, !wrap_u32_id. Qed.

Lemma sorted_split v l : StronglySorted Z.lt l →
  l = filter (λ x, x ≤ v) l ++ filter (λ x, ¬ x ≤ v) l.
Proof.
  induction 1 as [|x l Hs IH Hx]; [done|]. rewrite !filter_cons.
  destruct (decide (x ≤ v)) as [Hle|Hgt].
  - rewrite (decide_False (P := ¬ x ≤ v)) by tauto. cbn. by rewrite <-IH.
  - rewrite (decide_True (P := ¬ x ≤ v)) by done.
    assert (Hnil : filter (λ x, x ≤ v) l = []).
    { clear IH Hs. induction l as [|y l IHl]; [done|]. apply Forall_cons in Hx as [Hy Hl].
      rewrite filter_cons, decide_False by lia. auto. }
    rewrite Hnil in *. cbn in *. by rewrite <-IH.
Qed.

Lemma sorted_last l v : StronglySorted Z.lt l → last l = Some v → ∀ y, y ∈ l → y ≤ v.
Proof.
  intros Hs Hl. induction Hs as [|x l Hs IH Hx]; [done|]. intros y Hy.
  rewrite Forall_forall in Hx. destruct l as [|z l].
  - apply list_elem_of_singleton in Hy. cbn in Hl. injection Hl. lia.
  - cbn [last] in Hl. apply elem_of_cons in Hy as [->|Hy]; [|by apply IH].
    assert (z ≤ v) by (apply IH; [done|by left]). specialize (Hx z ltac:(by left)). lia.
Qed.

Lemma select_rank v b r : rank v b = S r →
  r_elements b !! r = last (filter (λ x, x ≤ v) (r_elements b)).
Proof.
  unfold rank. intros Hr. rewrite (sorted_split v _ (elements_sorted b)) at 1.
  rewrite lookup_app_l by lia. by rewrite last_lookup, Hr.
Qed.

Definition is_previous (x : Z) (b : B) (v : Z) : Prop :=
  v ∈ r_elements b ∧ v < x ∧ ∀ y, y ∈ r_elements b → y < x → y ≤ v.

Lemma previous_rank b x : nonneg b → 0 < x < 2 ^ 31 → ∀ v,
  match rank (x - 1) b with O => None | S r => Int.wrap_s 32 <$> (r_elements b !! r) end = Some v
  ↔ is_previous x b v.
Proof.
  intros Hb Hx v. unfold is_previous.
  assert (Hmem : ∀ y, y ∈ filter (λ y, y ≤ x - 1) (r_elements b) ↔ y ∈ r_elements b ∧ y < x).
  { intros y. rewrite list_elem_of_filter. split; intros [??]; split; auto; lia. }
  destruct (rank (x - 1) b) as [|r] eqn:Er.
  - unfold rank in Er. apply nil_length_inv in Er. rewrite Er in Hmem. split; [done|].
    intros (Hv & Hlt & _). by specialize (proj2 (Hmem v) (conj Hv Hlt)) as ?%not_elem_of_nil.
  - rewrite (select_rank _ _ _ Er).
    destruct (last _) as [w|] eqn:El; cbn.
    2:{ apply last_None in El. unfold rank in Er. by rewrite El in Er. }
    pose proof (sorted_last _ _ (sorted_filter _ _ _ (elements_sorted b)) El) as Hmax.
    assert (Hw : w ∈ r_elements b ∧ w < x) by (apply Hmem; by apply last_Some_elem_of).
    rewrite wrap_s32_id by (apply Hb; tauto).
    split; [intros [= <-]; split_and!; try tauto; intros; apply Hmax, Hmem; done|].
    intros (Hv & Hlt & Hge). f_equal. pose proof (Hge w (proj1 Hw) (proj2 Hw)).
    assert (v ≤ w) by (apply Hmax, Hmem; done). lia.
Qed.

Lemma PreviousValue_spec b x v : nonneg b → 0 ≤ x < 2 ^ 31 →
  PreviousValue x b = Some v ↔ is_previous x b v.
Proof.
  intros Hb Hx. pose proof (elements_sorted b) as Hs. unfold PreviousValue.
  destruct (r_elements b) as [|m l] eqn:E.
  { split; [done|]. unfold is_previous. rewrite E. by intros (?%not_elem_of_nil & _). }
  assert (Hm : m ∈ r_elements b) by (rewrite E; by left).
  pose proof (Hb m Hm). rewrite wrap_s32_id by lia.
  destruct (Z.leb_spec x m).
  - split; [done|]. unfold is_previous. rewrite E. intros ([->|Hv]%elem_of_cons & ? & _); [lia|].
    inversion_clear Hs as [|?? _ Hall]. rewrite Forall_forall in Hall. specialize (Hall v Hv). lia.
  - rewrite wrap_u32_id by lia. rewrite <-E. apply previous_rank; [done|lia].
Qed.

(** On a bitmap of non-negative positions, [NextValue] is the least member
    at or after its argument, [ContainsAny] tests the half-open interval and
    [PreviousValue] is the greatest member strictly before its argument. *)
Theorem roaring_neighbours b x max :
  nonneg b → 0 ≤ x < 2 ^ 31 →
  (∀ v, NextValue x b = Some v ↔
        (v ∈ r_elements b ∧ x ≤ v ∧ ∀ y, y ∈ r_elements b → x ≤ y → v ≤ y)) ∧
  (ContainsAny x max b = true ↔ ∃ y, y ∈ r_elements b ∧ x ≤ y < max) ∧
  (∀ v, PreviousValue x b = Some v ↔ is_previous x b v).
Proof.
  intros Hb Hx. apply and_assoc. split; [|by intros; apply PreviousValue_spec].
  unfold ContainsAny, NextValue, deref, EqualOrLarger. rewrite wrap_u32_id by lia.
  pose proof (sorted_filter _ (λ y, x ≤ y) _ (elements_sorted b)) as Hsort.
  assert (Hmem : ∀ y, y ∈ filter (λ y, x ≤ y) (r_elements b) ↔ y ∈ r_elements b ∧ x ≤ y).
  { intros y. rewrite list_elem_of_filter. tauto. }
  destruct (filter _ _) as [|w l] eqn:E; cbn.
  - split.
    + intros v. split; [done|]. intros (Hv & Hxv & _).
      by specialize (proj2 (Hmem v) (conj Hv Hxv)) as ?%not_elem_of_nil.
    + split; [done|]. intros (y & Hy & Hxy & _).
      by specialize (proj2 (Hmem y) (conj Hy Hxy)) as ?%not_elem_of_nil.
  - inversion Hsort as [|?? Hs Hall]; subst. rewrite Forall_forall in Hall.
    destruct (proj1 (Hmem w)) as [Hw Hxw]; [by left|].
    rewrite wrap_s32_id by (pose proof (Hb w Hw); lia).
    assert (Hmin : ∀ y, y ∈ r_elements b → x ≤ y → w ≤ y).
    { intros y Hy Hxy. pose proof (proj2 (Hmem y) (conj Hy Hxy)) as [->|Hin]%elem_of_cons; [lia|].
      specialize (Hall y Hin). lia. }
    split.
    + intros v. split; [intros [= <-]; eauto|]. intros (Hv & Hxv & Hle). f_equal.
      specialize (Hmin v Hv Hxv). specialize (Hle w Hw Hxw). lia.
    + rewrite Z.ltb_lt. split; [intros; exists w; auto with lia|].
      intros (y & Hy & Hxy & ?). specialize (Hmin y Hy Hxy). lia.
Qed.
End RoaringBitmap32.
End RoaringBitmap32.

(** ** OptimizedRoaringBitmap64 *)

Module OptimizedRoaringBitmap64.
Section OptimizedRoaringBitmap64.
Context {B : Type} `{Roaring B} {P : Platform}.
Import ByteArrayInputStream.

Definition kMaxValue : Z := Z.lor (Z.shiftl (2 ^ 31 - 1 - 1) 32) (2 ^ 31).

Definition CheckPosition (position : Z) : Result unit :=
  if (position <? 0) || (kMaxValue <? position)
  then Err Invalid "OptimizedRoaringBitmap64 supports positions in range" else Ok ().

(** [std::vector::resize]: drop from the end or append default bitmaps. *)
Definition resize_bitmaps (n : nat) (l : list B) : list B := resize n r_empty l.
Definition AllocateBitmapsIfNeeded (required_length : nat) (bitmaps_ : list B) : list B :=
  if (length bitmaps_ <? required_length)%nat then resize_bitmaps required_length bitmaps_ else bitmaps_.

Definition key_of (position : Z) : nat := Z.to_nat (Z.shiftr position 32).
Definition position32_of (position : Z) : Z := Int.wrap_u 32 position.

Definition Add (position : Z) (bitmaps_ : list B) : Result (list B) :=
  _ ← CheckPosition position;
  let key := key_of position in
  let bitmaps_ := AllocateBitmapsIfNeeded (key + 1) bitmaps_ in
  Ok (alter (r_add (position32_of position)) key bitmaps_).

Fixpoint AddRange_loop (n : nat) (position : Z) (bitmaps_ : list B) : Result (list B) :=
  match n with
  | O => Ok bitmaps_
  | S n' => b ← Add position bitmaps_; AddRange_loop n' (position + 1) b
  end.
Definition AddRange (start end_ : Z) (bitmaps_ : list B) : Result (list B) :=
  AddRange_loop (Z.to_nat (end_ - start)) start bitmaps_.

Fixpoint or_prefix (bitmaps_ other : list B) : list B :=
  match bitmaps_, other with
  | b :: bs, o :: os => r_or b o :: or_prefix bs os
  | _, _ => bitmaps_
  end.
Definition OrAssign (bitmaps_ other : list B) : list B :=
  or_prefix (AllocateBitmapsIfNeeded (length other) bitmaps_) other.

Definition Contains (position : Z) (bitmaps_ : list B) : Result bool :=
  _ ← CheckPosition position;
  let key := key_of position in
  Ok ((key <? length bitmaps_)%nat &&
      match bitmaps_ !! key with Some b => r_contains (position32_of position) b | None => false end).

Definition Cardinality (bitmaps_ : list B) : Z :=
  fold_left (λ c b, c + r_cardinality b) bitmaps_ 0.
Definition IsEmpty (bitmaps_ : list B) : bool := Cardinality bitmaps_ =? 0.
Definition RunLengthEncode (bitmaps_ : list B) : list B := r_runOptimize <$> bitmaps_.

(** The positions [ForEach] hands to its consumer, in order. *)
Fixpoint ForEach_from (key : nat) (bitmaps_ : list B) : list Z :=
  match bitmaps_ with
  | [] => []
  | b :: bs => ((λ p32, Z.lor (Z.shiftl key 32) p32) <$> r_elements b) ++ ForEach_from (S key) bs
  end.
Definition ForEach (bitmaps_ : list B) : list Z := ForEach_from 0 bitmaps_.

Definition FromRoaringBitmap32 (bitmap : B) : list B := [bitmap].

Definition GetSizeInBytes (bitmaps_ : list B) : Z :=
  fold_left (λ size b, size + (4 + r_getSizeInBytes b)) bitmaps_ 8.

Definition ToLittleEndian (T : IntType) (v : Z) : Z :=
  match SystemByteOrder with PAIMON_BIG_ENDIAN => EndianSwapValue T v | _ => v end.
Definition FromLittleEndian := ToLittleEndian.
Definition WriteLittleEndian (T : IntType) (value : Z) : list Z := to_memory T (ToLittleEndian T value).

Fixpoint Serialize_loop (key : nat) (bitmaps_ : list B) : list Z :=
  match bitmaps_ with
  | [] => []
  | b :: bs => WriteLittleEndian int32_t key ++ r_write b ++ Serialize_loop (S key) bs
  end.
Definition Serialize (bitmaps_ : list B) : list Z :=
  WriteLittleEndian int64_t (length bitmaps_) ++ Serialize_loop 0 bitmaps_.

Definition ReadLittleEndian (T : IntType) (s : t) : Result (Z * t) :=
  r ← Read (sizeof T) s;
  if negb (Z.of_nat (length (fst r)) =? sizeof T) then Err Invalid "Failed to read bytes"
  else Ok (FromLittleEndian T (from_memory T (fst r)), snd r).

Fixpoint Deserialize_loop (n : nat) (last_key : Z) (bitmaps : list B) (s : t) : Result (list B * t) :=
  match n with
  | O => Ok (bitmaps, s)
  | S n' =>
      r ← ReadLittleEndian int32_t s;
      let '(key, s) := r in
      if key <? 0 then Err Invalid "Invalid unsigned key"
      else if 2 ^ 31 - 1 - 1 <? key then Err Invalid "Key is too large"
      else if key <=? last_key then Err Invalid "Keys must be sorted in ascending order"
      else
        let bitmaps := resize_bitmaps (Z.to_nat key) bitmaps in
        match r_readSafe (GetRawData s) with
        | None => Err Invalid "Failed to deserialize inner RoaringBitmap32"
        | Some bitmap =>
            s ← Seek (r_getSizeInBytes bitmap) FS_SEEK_CUR s;
            Deserialize_loop n' key (bitmaps ++ [bitmap]) s
        end
  end.
Definition Deserialize (s : t) : Result (list B * t) :=
  r ← ReadLittleEndian int64_t s;
  let '(bitmap_count, s) := r in
  if bitmap_count <? 0 then Err Invalid "Invalid bitmap count"
  else if 2 ^ 31 - 1 <? bitmap_count then Err Invalid "bitmap count is out of bound of type INT"
  else Deserialize_loop (Z.to_nat bitmap_count) (-1) [] s.

(** *** The bitmap as a set of positions *)

Definition valid_position (p : Z) : Prop := 0 ≤ p ≤ kMaxValue.
Definition member (p : Z) (bitmaps_ : list B) : bool :=
  match bitmaps_ !! key_of p with Some b => r_contains (position32_of p) b | None => false end.

Lemma lor_shiftl k x : 0 ≤ x < 2 ^ 32 → Z.lor (Z.shiftl k 32) x = k * 2 ^ 32 + x.
Proof. by apply lor_shiftl_add. Qed.

Lemma kMaxValue_value : kMaxValue = (2 ^ 31 - 2) * 2 ^ 32 + 2 ^ 31.
Proof. reflexivity. Qed.

Lemma split_position p : 0 ≤ p →
  p = key_of p * 2 ^ 32 + position32_of p ∧ 0 ≤ position32_of p < 2 ^ 32.
Proof.
  intros Hp. unfold key_of, position32_of, Int.wrap_u. rewrite Z.shiftr_div_pow2 by lia.
  rewrite Z2Nat.id by (apply Z.div_pos; lia).
  pose proof (Z.div_mod p (2 ^ 32)). pose proof (Z.mod_pos_bound p (2 ^ 32)). lia.
Qed.
Lemma split_unique p (k : nat) x : p = k * 2 ^ 32 + x → 0 ≤ x < 2 ^ 32 →
  key_of p = k ∧ position32_of p = x.
Proof.
  intros Hp Hx. destruct (split_position p) as [Hs Hr]; [lia|]. lia.
Qed.
Lemma split_inj p q : 0 ≤ p → 0 ≤ q →
  key_of p = key_of q → position32_of p = position32_of q → p = q.
Proof.
  intros Hp Hq Hk Hr. destruct (split_position p Hp) as [-> _].
  destruct (split_position q Hq) as [-> _]. by rewrite Hk, Hr.
Qed.

Lemma CheckPosition_ok p : valid_position p → CheckPosition p = Ok ().
Proof. unfold valid_position, CheckPosition. intros. by rewrite !(proj2 (Z.ltb_ge _ _)) by lia. Qed.
Lemma CheckPosition_err p : ¬ valid_position p → ∃ m, CheckPosition p = Err Invalid m.
Proof.
  unfold valid_position, CheckPosition. intros Hp.
  destruct (Z.ltb_spec p 0); cbn; [eauto|]. destruct (Z.ltb_spec kMaxValue p); [eauto|lia].
Qed.

Lemma Contains_member p l : valid_position p → Contains p l = Ok (member p l).
Proof.
  intros Hp. unfold Contains, member. rewrite CheckPosition_ok by done. cbn [mbind Result_bind]. f_equal.
  destruct (Nat.ltb_spec (key_of p) (length l)) as [|Hge]; cbn [andb]; [done|].
  by rewrite lookup_ge_None_2.
Qed.

Context `{!RoaringLaws B}.

Lemma member_Allocate n p l : member p (AllocateBitmapsIfNeeded n l) = member p l.
Proof.
  unfold member, AllocateBitmapsIfNeeded. destruct (Nat.ltb_spec (length l) n) as [E|]; [|done].
  unfold resize_bitmaps. rewrite resize_ge by lia.
  destruct (decide (key_of p < length l)%nat) as [Hlt|Hge].
  - by rewrite lookup_app_l.
  - rewrite lookup_app_r, (lookup_ge_None_2 l) by lia.
    destruct (replicate _ _ !! _) as [b|] eqn:Eb; [|done].
    apply lookup_replicate in Eb as [-> _]. apply contains_empty.
Qed.
Lemma Allocate_length n l : (n ≤ length (AllocateBitmapsIfNeeded n l))%nat.
Proof.
  unfold AllocateBitmapsIfNeeded. case_match eqn:E.
  - unfold resize_bitmaps. by rewrite length_resize.
  - by apply Nat.ltb_ge in E.
Qed.

Lemma Add_spec q l : valid_position q →
  ∃ l', Add q l = Ok l' ∧
        ∀ p, 0 ≤ p → member p l' = (bool_decide (p = q) || member p l).
Proof.
  intros Hq. unfold Add. rewrite CheckPosition_ok by done. eexists. split; [done|]. intros p Hp.
  rewrite <-(member_Allocate (key_of q + 1) p l).
  pose proof (Allocate_length (key_of q + 1) l) as Hlen.
  set (l1 := AllocateBitmapsIfNeeded _ _) in *. unfold member.
  destruct (decide (key_of p = key_of q)) as [Hk|Hk].
  - rewrite Hk, list_lookup_alter.
    destruct (lookup_lt_is_Some_2 l1 (key_of q)) as [b ->]; [lia|]. cbn.
    rewrite decide_True by done. rewrite contains_add. f_equal. apply bool_decide_ext. split; [|by intros ->].
    intros Hr. destruct Hq. by apply split_inj.
  - rewrite list_lookup_alter_ne by done.
    by rewrite bool_decide_false by (intros ->; done).
Qed.

Lemma or_prefix_lookup l o i : (length o ≤ length l)%nat →
  or_prefix l o !! i =
  match l !! i, o !! i with Some b, Some c => Some (r_or b c) | x, _ => x end.
Proof.
  revert l i; induction o as [|c o IH]; intros [|b l] i Hlen; cbn in *; try lia; try done.
  - rewrite lookup_nil. by destruct ((b :: l) !! i).
  - destruct i; cbn; [done|]. apply IH. lia.
Qed.

Lemma member_OrAssign p l o : member p (OrAssign l o) = member p l || member p o.
Proof.
  rewrite <-(member_Allocate (length o) p l). unfold OrAssign.
  pose proof (Allocate_length (length o) l) as Hlen.
  set (l1 := AllocateBitmapsIfNeeded _ _) in *. unfold member.
  rewrite or_prefix_lookup by done.
  destruct (l1 !! key_of p) as [b|] eqn:E1, (o !! key_of p) as [c|] eqn:E2.
  - apply contains_or.
  - by rewrite orb_false_r.
  - apply lookup_ge_None in E1. apply lookup_lt_Some in E2. lia.
  - done.
Qed.

Lemma fmap_lor (k : nat) b :
  (λ p32, Z.lor (Z.shiftl k 32) p32) <$> r_elements b = (λ p32, k * 2 ^ 32 + p32) <$> r_elements b.
Proof.
  apply list_fmap_ext. intros i x Hx. apply lor_shiftl.
  by apply list_elem_of_lookup_2, elements_contains in Hx as [_ ?].
Qed.

Lemma elem_of_ForEach_from p k l :
  p ∈ ForEach_from k l ↔
  ∃ i b x, l !! i = Some b ∧ x ∈ r_elements b ∧ p = Z.of_nat (k + i) * 2 ^ 32 + x.
Proof.
  revert k; induction l as [|b l IH]; intros k; cbn [ForEach_from].
  { split; [by intros ?%not_elem_of_nil|]. intros (i&b&x&Hi&_). by rewrite lookup_nil in Hi. }
  rewrite fmap_lor, elem_of_app, IH, list_elem_of_fmap. split.
  - intros [(x&->&Hx)|(i&c&x&Hi&Hx&->)].
    + exists 0%nat, b, x. split_and!; [done..|]. lia.
    + exists (S i), c, x. split_and!; [done..|]. lia.
  - intros ([|i]&c&x&Hi&Hx&->); cbn in Hi.
    + left. injection Hi as ->. exists x. split; [lia|done].
    + right. exists i, c, x. split_and!; [done..|lia].
Qed.

Lemma ForEach_member p l : 0 ≤ p → p ∈ ForEach l ↔ member p l = true.
Proof.
  intros Hp. unfold ForEach, member. rewrite elem_of_ForEach_from. split.
  - intros (i&b&x&Hi&Hx&Hpx). apply elements_contains in Hx as [Hc Hr].
    destruct (split_unique p i x) as [-> ->]; [lia|done|]. by rewrite Hi.
  - destruct (l !! key_of p) as [b|] eqn:Eb; [|done]. intros Hc.
    destruct (split_position p Hp) as [Hs Hr].
    exists (key_of p), b, (position32_of p). rewrite elements_contains. auto with lia.
Qed.

Lemma ForEach_from_sorted k l : StronglySorted Z.lt (ForEach_from k l).
Proof.
  revert k; induction l as [|b l IH]; intros k; cbn [ForEach_from]; [constructor|].
  rewrite fmap_lor. apply StronglySorted_app_2; [| |apply IH].
  - intros x1 x2 (x&->&Hx)%list_elem_of_fmap (i&c&y&_&Hy&->)%elem_of_ForEach_from.
    apply elements_contains in Hx as [_ Hx], Hy as [_ Hy]. lia.
  - eapply StronglySorted_fmap; [|apply elements_sorted]. intros; cbn; lia.
Qed.

Lemma Cardinality_from c k l :
  fold_left (λ c b, c + r_cardinality b) l c = c + length (ForEach_from k l).
Proof.
  revert c k; induction l as [|b l IH]; intros c k; cbn [fold_left ForEach_from]; [cbn; lia|].
  rewrite (IH _ (S k)), length_app, length_fmap, cardinality_elements. lia.
Qed.

(** The vector of 32-bit bitmaps implements a set of 64-bit positions:
    [Contains], [Add] and [|=] are membership, insertion and union; [ForEach]
    visits exactly the members, in strictly ascending order, and [Cardinality]
    counts them. Positions outside of [0, kMaxValue] are refused. *)
Theorem optimized_bitmap_set (l o : list B) (q : Z) :
  (if decide (valid_position q)
   then Contains q l = Ok (member q l) ∧
        ∃ l', Add q l = Ok l' ∧ ∀ p, 0 ≤ p → member p l' = bool_decide (p = q) || member p l
   else is_ok (Contains q l) = false ∧ is_ok (Add q l) = false) ∧
  (∀ p, member p (OrAssign l o) = member p l || member p o) ∧
  (∀ p, 0 ≤ p → p ∈ ForEach l ↔ member p l = true) ∧
  StronglySorted Z.lt (ForEach l) ∧ Cardinality l = length (ForEach l).
Proof.
  split_and!.
  - case_decide as Hq; [split; [by apply Contains_member|by apply Add_spec]|].
    unfold Contains, Add. by destruct (CheckPosition_err q Hq) as [m ->].
  - intros p. apply member_OrAssign.
  - intros p. apply ForEach_member.
  - apply ForEach_from_sorted.
  - unfold Cardinality. by rewrite (Cardinality_from 0 0).
Qed.

(** *** Serialisation *)

Lemma WriteLittleEndian_bytes T v : (0 < sizeof T)%nat →
  WriteLittleEndian T v = ordered_bytes PAIMON_LITTLE_ENDIAN T v.
Proof.
  intros. unfold WriteLittleEndian, ToLittleEndian, to_memory, ordered_bytes.
  destruct SystemByteOrder; [|done]. by rewrite swap_bytes, rev_involutive.
Qed.

Lemma ReadLittleEndian_app T pre v post : (0 < sizeof T)%nat → in_type T v →
  ReadLittleEndian T (at_bytes pre (WriteLittleEndian T v ++ post)) =
  Ok (v, at_bytes (pre ++ WriteLittleEndian T v) post).
Proof.
  intros Hpos Hv. rewrite WriteLittleEndian_bytes by done. set (l := ordered_bytes _ _ _).
  assert (Hl : length l = sizeof T) by apply DataInputStream.ordered_bytes_length.
  unfold ReadLittleEndian. rewrite <-Hl, Read_app. cbn [mbind Result_bind fst snd].
  rewrite Z.eqb_refl. cbn [negb]. do 2 f_equal.
  pose proof (DataInputStream.swap_from_memory T PAIMON_LITTLE_ENDIAN v Hpos Hv) as Hs.
  fold l in Hs. unfold FromLittleEndian, ToLittleEndian, DataInputStream.NeedSwap in *.
  by destruct SystemByteOrder.
Qed.

Lemma in_type_int32 v : 0 ≤ v < 2 ^ 31 → in_type int32_t v.
Proof. apply RoaringBitmap32.wrap_s32_id. Qed.
Lemma in_type_int64 v : 0 ≤ v < 2 ^ 63 → in_type int64_t v.
Proof.
  intros Hv. unfold in_type, of_bits, Int.wrap_s; cbn. rewrite Z.mod_small by lia.
  by rewrite (proj2 (Z.ltb_lt _ _)) by lia.
Qed.

Lemma GetRawData_app pre l : GetRawData (at_bytes pre l) = l.
Proof. unfold GetRawData, at_bytes; cbn. by rewrite Nat2Z.id, drop_app_length. Qed.
Lemma Seek_app pre l post : (length (pre ++ l ++ post) < 2 ^ 63)%Z →
  Seek (length l) FS_SEEK_CUR (at_bytes pre (l ++ post)) = Ok (at_bytes (pre ++ l) post).
Proof.
  rewrite !length_app. intros Hlen. unfold Seek, at_bytes, length_; cbn [buffer_ position_]. rewrite !length_app.
  rewrite Int.wrap_s_id by (unfold Int.in_s; change (64 - 1) with 63; lia).
  rewrite !(proj2 (Z.ltb_ge _ _)) by lia. cbn [orb].
  by rewrite <-app_assoc, Nat2Z.inj_add.
Qed.

Lemma Deserialize_loop_app l done_ pre post :
  (length done_ + length l < 2 ^ 31)%Z →
  (length (pre ++ Serialize_loop (length done_) l ++ post) < 2 ^ 63)%Z →
  Deserialize_loop (length l) (Z.of_nat (length done_) - 1) done_
    (at_bytes pre (Serialize_loop (length done_) l ++ post)) =
  Ok (done_ ++ l, at_bytes (pre ++ Serialize_loop (length done_) l) post).
Proof.
  revert done_ pre; induction l as [|b l IH]; intros done_ pre Hlen Hall; cbn [Serialize_loop length] in *.
  { cbn. by rewrite !app_nil_r. }
  cbn [Deserialize_loop]. rewrite <-!app_assoc.
  cbn [length] in Hlen.
  rewrite ReadLittleEndian_app by (cbn; lia || apply in_type_int32; lia).
  cbn [mbind Result_bind].
  rewrite !(proj2 (Z.ltb_ge _ _)) by lia. rewrite (proj2 (Z.leb_gt _ _)) by lia.
  rewrite GetRawData_app, readSafe_write, size_write.
  rewrite Seek_app by (rewrite <-!app_assoc in *; exact Hall). cbn [mbind Result_bind].
  unfold resize_bitmaps. rewrite Nat2Z.id, resize_all.
  specialize (IH (done_ ++ [b]) ((pre ++ WriteLittleEndian int32_t (length done_)) ++ r_write b)).
  rewrite !length_app in IH. cbn [length] in IH. rewrite Nat.add_1_r in IH.
  replace (Z.of_nat (S (length done_)) - 1) with (Z.of_nat (length done_)) in IH by lia.
  rewrite !length_app in Hall. rewrite IH by lia. by rewrite <-!app_assoc.
Qed.

Lemma Deserialize_Serialize l pre post :
  (length l < 2 ^ 31)%Z → (length (pre ++ Serialize l ++ post) < 2 ^ 63)%Z →
  Deserialize (at_bytes pre (Serialize l ++ post)) = Ok (l, at_bytes (pre ++ Serialize l) post).
Proof.
  intros Hlen Hall. unfold Deserialize, Serialize in *. rewrite <-!app_assoc in *.
  rewrite ReadLittleEndian_app by (cbn; lia || apply in_type_int64; lia).
  cbn [mbind Result_bind]. rewrite !(proj2 (Z.ltb_ge _ _)) by lia. rewrite Nat2Z.id.
  pose proof (Deserialize_loop_app l []) as Hloop. cbn [length Z.of_nat] in Hloop.
  change (0 - 1) with (-1) in Hloop. rewrite Hloop; [by rewrite <-app_assoc|cbn; lia|by rewrite <-app_assoc].
Qed.

Lemma GetSizeInBytes_from c k l :
  fold_left (λ size b, size + (4 + r_getSizeInBytes b)) l c = c + length (Serialize_loop k l).
Proof.
  revert c k; induction l as [|b l IH]; intros c k; cbn [fold_left Serialize_loop]; [cbn; lia|].
  rewrite (IH _ (S k)), !length_app, WriteLittleEndian_bytes by (cbn; lia).
  rewrite DataInputStream.ordered_bytes_length, size_write. cbn. lia.
Qed.
Lemma GetSizeInBytes_length l : GetSizeInBytes l = length (Serialize l).
Proof.
  unfold GetSizeInBytes, Serialize. rewrite (GetSizeInBytes_from 8 0), length_app.
  rewrite WriteLittleEndian_bytes, DataInputStream.ordered_bytes_length by (cbn; lia). cbn. lia.
Qed.
End OptimizedRoaringBitmap64.
End OptimizedRoaringBitmap64.

(** ** A bitmap library

    Unsorted lists of values satisfy the laws assumed of CRoaring; the examples
    run on them. *)
Module ListRoaring.
Definition roaring : Roaring (list Z) := {|
  r_empty := [];
  r_add y b := y :: b;
  r_contains x b := bool_decide (x ∈ b);
  r_or a b := a ++ b;
  r_elements b := merge_sort Z.le (remove_dups (filter (λ x, 0 ≤ x < 2 ^ 32) b));
  r_cardinality b := length (remove_dups (filter (λ x, 0 ≤ x < 2 ^ 32) b));
  r_runOptimize b := b;
  r_write b := Z.of_nat (length b) :: b;
  r_getSizeInBytes b := Z.of_nat (S (length b));
  r_readSafe l := match l with n :: l' => Some (take (Z.to_nat n) l') | [] => None end
|}.

Lemma sorted_nodup_lt (l : list Z) : StronglySorted Z.le l → NoDup l → StronglySorted Z.lt l.
Proof.
  induction 1 as [|x l Hs IH Hx]; [constructor|]. intros [Hn Hd]%NoDup_cons.
  constructor; [auto|]. rewrite Forall_forall in *. intros y Hy. specialize (Hx y Hy).
  destruct (decide (x = y)) as [->|]; [done|lia].
Qed.

Lemma laws : @RoaringLaws (list Z) roaring.
Proof.
  split; cbn.
  - done.
  - intros x y b. rewrite (bool_decide_ext _ (x = y ∨ x ∈ b)) by apply elem_of_cons.
    by rewrite bool_decide_or.
  - intros x a b. rewrite (bool_decide_ext _ (x ∈ a ∨ x ∈ b)) by apply elem_of_app.
    by rewrite bool_decide_or.
  - intros x b. rewrite merge_sort_Permutation, elem_of_remove_dups, list_elem_of_filter.
    rewrite bool_decide_eq_true. tauto.
  - intros b. apply sorted_nodup_lt.
    + apply StronglySorted_merge_sort; apply _.
    + rewrite merge_sort_Permutation. apply NoDup_remove_dups.
  - intros b. by rewrite merge_sort_Permutation.
  - done.
  - done.
  - intros b rest. by rewrite Nat2Z.id, take_app_length.
Qed.

Lemma roaring_neighbours_witness :
  @RoaringBitmap32.NextValue _ roaring 4 [7; 3; 5] = Some 5 ∧
  @RoaringBitmap32.ContainsAny _ roaring 4 5 [7; 3; 5] = false ∧
  @RoaringBitmap32.PreviousValue _ roaring 5 [7; 3; 5] = Some 3.
Proof.
  pose proof (@RoaringBitmap32.roaring_neighbours (list Z) roaring laws [7; 3; 5] 4 5) as T.
  assert (Hn : @RoaringBitmap32.nonneg _ roaring [7; 3; 5]).
  { intros y Hy. replace (r_elements [7; 3; 5]) with [3; 5; 7] in Hy by (vm_compute; reflexivity).
    repeat (apply elem_of_cons in Hy as [->|Hy]; [lia|]). by apply elem_of_nil in Hy. }
  split_and!; [| |vm_compute; reflexivity].
  - apply (T Hn ltac:(lia)). replace (r_elements [7; 3; 5]) with [3; 5; 7] by (vm_compute; reflexivity).
    split; [|split; [lia|]]; [apply elem_of_cons; right; apply elem_of_cons; by left|].
    intros y Hy. repeat (apply elem_of_cons in Hy as [->|Hy]; [lia|]). by apply elem_of_nil in Hy.
  - vm_compute. reflexivity.
Defined.

Lemma optimized_bitmap_set_witness :
  @OptimizedRoaringBitmap64.ForEach _ roaring [[7; 3]; []; [1]] = [3; 7; 2 ^ 33 + 1] ∧
  @OptimizedRoaringBitmap64.Cardinality _ roaring [[7; 3]; []; [1]] = 3.
Proof.
  pose proof (@OptimizedRoaringBitmap64.optimized_bitmap_set (list Z) roaring laws
                [[7; 3]; []; [1]] [] 5) as (_ & _ & _ & _ & ->).
  split; vm_compute; reflexivity.
Defined.
End ListRoaring.
