(* ===== verification/DeletionVectors.v ===== *)
(** * Deletion vectors

    [DeletionVector] with its two implementations [BitmapDeletionVector] and
    [Bitmap64DeletionVector], their serialised form, and
    [BucketedDvMaintainer], which collects the deletions of one bucket
    (src/paimon/core/deletionvectors). *)

From stdpp Require Import base list gmap strings sorting.
From Stdlib Require Import ZArith Lia.
From S2P Require Import Prelude Streams Roaring.
Local Open Scope Z_scope.
Local Coercion Z.of_nat : nat >-> Z.

Module Opt64 := OptimizedRoaringBitmap64.

Section DeletionVectors.
Context {B : Type} `{Roaring B} {P : Platform}.
Import ByteArrayInputStream.

(** ** DeletionVector *)

Inductive DeletionVector :=
| BitmapDeletionVector (roaring_bitmap_ : B)
| Bitmap64DeletionVector (roaring_bitmap_ : list B).

Definition MAGIC_NUMBER_V1 : Z := 1581511376.
Definition MAGIC_NUMBER_V2 : Z := 1681511377.
Definition MAGIC_NUMBER_SIZE_BYTES : Z := 4.
Definition LENGTH_SIZE_BYTES : Z := 4.
Definition CRC_SIZE_BYTES : Z := 4.
Definition INT32_MAX : Z := 2 ^ 31 - 1.

(** [BitmapDeletionVector::CheckPosition]. *)
Definition CheckPosition (position : Z) : Result unit :=
  if RoaringBitmap32.MAX_VALUE <? position
  then Err Invalid "The file has too many rows" else Ok ().

(** [static_cast<int32_t>(position)]. *)
Definition to_int32 (position : Z) : Z := Int.wrap_s 32 position.

Definition IsDeleted (position : Z) (dv : DeletionVector) : Result bool :=
  match dv with
  | BitmapDeletionVector b =>
      _ ← CheckPosition position; Ok (RoaringBitmap32.Contains (to_int32 position) b)
  | Bitmap64DeletionVector l => Opt64.Contains position l
  end.

Definition Delete (position : Z) (dv : DeletionVector) : Result DeletionVector :=
  match dv with
  | BitmapDeletionVector b =>
      _ ← CheckPosition position; Ok (BitmapDeletionVector (RoaringBitmap32.Add (to_int32 position) b))
  | Bitmap64DeletionVector l => l' ← Opt64.Add position l; Ok (Bitmap64DeletionVector l')
  end.

Definition CheckedDelete (position : Z) (dv : DeletionVector) : Result (bool * DeletionVector) :=
  match dv with
  | BitmapDeletionVector b =>
      _ ← CheckPosition position;
      let '(added, b') := RoaringBitmap32.CheckedAdd (to_int32 position) b in
      Ok (added, BitmapDeletionVector b')
  | Bitmap64DeletionVector _ =>
      deleted ← IsDeleted position dv;
      if (deleted : bool) then Ok (false, dv)
      else dv' ← Delete position dv; Ok (true, dv')
  end.

Definition IsEmpty (dv : DeletionVector) : bool :=
  match dv with
  | BitmapDeletionVector b => RoaringBitmap32.IsEmpty b
  | Bitmap64DeletionVector l => Opt64.IsEmpty l
  end.

Definition GetCardinality (dv : DeletionVector) : Z :=
  match dv with
  | BitmapDeletionVector b => RoaringBitmap32.Cardinality b
  | Bitmap64DeletionVector l => Opt64.Cardinality l
  end.

Definition ForEachDeletedPosition (dv : DeletionVector) : list Z :=
  match dv with
  | BitmapDeletionVector b => Int.wrap_s 32 <$> r_elements b
  | Bitmap64DeletionVector l => Opt64.ForEach l
  end.

Definition Merge (other dv : DeletionVector) : Result DeletionVector :=
  match dv, other with
  | BitmapDeletionVector b, BitmapDeletionVector o => Ok (BitmapDeletionVector (r_or b o))
  | BitmapDeletionVector _, _ =>
      Err Invalid "Cannot merge a non-BitmapDeletionVector into a BitmapDeletionVector"
  | Bitmap64DeletionVector l, Bitmap64DeletionVector o =>
      Ok (Bitmap64DeletionVector (Opt64.OrAssign l o))
  | Bitmap64DeletionVector _, _ =>
      Err Invalid "Cannot merge a non-Bitmap64DeletionVector into a Bitmap64DeletionVector"
  end.

Definition FromBitmapDeletionVector (b : B) : DeletionVector :=
  Bitmap64DeletionVector (Opt64.FromRoaringBitmap32 b).

(** [IsValid]: the offsets in a batch of [length] rows that survive. *)
Fixpoint IsValid_loop (n : nat) (i start_position : Z) (dv : DeletionVector) (is_valid : B)
    : Result B :=
  match n with
  | O => Ok is_valid
  | S n' =>
      is_deleted ← IsDeleted (start_position + i) dv;
      IsValid_loop n' (i + 1) start_position dv
        (if (is_deleted : bool) then is_valid else RoaringBitmap32.Add i is_valid)
  end.
Definition IsValid (start_position length : Z) (dv : DeletionVector) : Result B :=
  IsValid_loop (Z.to_nat length) 0 start_position dv r_empty.

Fixpoint FromPrimitiveArray_loop (i : Z) (is_deleted : list Z) (roaring : B) : B :=
  match is_deleted with
  | [] => roaring
  | d :: rest =>
      FromPrimitiveArray_loop (i + 1) rest
        (if d =? 1 then RoaringBitmap32.Add (to_int32 i) roaring else roaring)
  end.
Definition FromPrimitiveArray (is_deleted : list Z) : DeletionVector :=
  BitmapDeletionVector (FromPrimitiveArray_loop 0 is_deleted r_empty).

(** ** Serialised form *)

(** [SerializeToBytes]; serialising run-optimises the bitmap in place. *)
Definition SerializeToBytes (dv : DeletionVector) : Result (list Z * DeletionVector) :=
  match dv with
  | BitmapDeletionVector b =>
      let b := r_runOptimize b in
      Ok (ordered_bytes PAIMON_BIG_ENDIAN int32_t MAGIC_NUMBER_V1 ++ r_write b,
          BitmapDeletionVector b)
  | Bitmap64DeletionVector l =>
      let l := Opt64.RunLengthEncode l in
      let bitmap_size := Opt64.GetSizeInBytes l in
      let overhead := MAGIC_NUMBER_SIZE_BYTES + LENGTH_SIZE_BYTES + CRC_SIZE_BYTES in
      if INT32_MAX - overhead <? bitmap_size
      then Err Invalid "Cannot serialize deletion vector > 2GB"
      else Ok (Opt64.WriteLittleEndian int32_t MAGIC_NUMBER_V2 ++ Opt64.Serialize l,
               Bitmap64DeletionVector l)
  end.

Section Output.
Context {S : Type} `{OutputStream S} (crc32 : list Z → Z).

Definition write_int32 (v : Z) (out : S) : Result S :=
  DataOutputStream.WriteValue int32_t PAIMON_BIG_ENDIAN v out.

(** [SerializeTo]: the length the metadata records, with the vector and the
    stream after the call. *)
Definition SerializeTo (dv : DeletionVector) (out : S) : Result (Z * DeletionVector * S) :=
  r ← SerializeToBytes dv;
  let '(data, dv') := r in
  let size := Z.of_nat (length data) in
  match dv with
  | BitmapDeletionVector _ =>
      if INT32_MAX <? size
      then Err Invalid "BitmapDeletionVector serialize size is out of bound of type INT"
      else
        out ← write_int32 size out;
        out ← DataOutputStream.WriteBytes data out;
        out ← write_int32 (Int.wrap_s 32 (crc32 data)) out;
        Ok (size, dv', out)
  | Bitmap64DeletionVector _ =>
      let length := Int.wrap_s 32 size in
      out ← write_int32 length out;
      out ← DataOutputStream.WriteBytes data out;
      out ← write_int32 (Int.wrap_s 32 (crc32 data)) out;
      Ok (length + LENGTH_SIZE_BYTES + CRC_SIZE_BYTES, dv', out)
  end.
End Output.

(** [BitmapDeletionVector::DeserializeWithoutMagicNumber] and its 64-bit sibling. *)
Definition DeserializeV1 (buffer : list Z) : Result DeletionVector :=
  match r_readSafe buffer with
  | None => Err Invalid "catch exception in Deserialize() of RoaringBitmap32"
  | Some b => Ok (BitmapDeletionVector b)
  end.
Definition DeserializeV2 (buffer : list Z) : Result DeletionVector :=
  if Z.of_nat (length buffer) <? 8 then Err Invalid "Invalid bitmap64 payload length"
  else r ← Opt64.Deserialize (create buffer); Ok (Bitmap64DeletionVector (fst r)).

Definition read_int32 (s : t) : Result (Z * t) := DataInputStream.ReadValue int32_t PAIMON_BIG_ENDIAN s.

(** The payload of [n] bytes and the checksum behind it. *)
Definition read_payload (n : Z) (s : t) : Result (list Z * t) :=
  r ← DataInputStream.ReadBytes n s;
  c ← read_int32 (snd r);
  Ok (fst r, snd c).

Definition ReadDv (length : option Z) (s : t) : Result (DeletionVector * t) :=
  r ← read_int32 s;
  let '(bitmap_length, s) := r in
  r ← read_int32 s;
  let '(magic_number, s) := r in
  if magic_number =? MAGIC_NUMBER_V1 then
    if match length with Some n => negb (bitmap_length =? n) | None => false end
    then Err Invalid "Size not match"
    else
      let payload_length := Int.wrap_s 32 (bitmap_length - MAGIC_NUMBER_SIZE_BYTES) in
      if payload_length <? 0 then Err Invalid "Invalid bitmap length"
      else r ← read_payload payload_length s;
           dv ← DeserializeV1 (fst r);
           Ok (dv, snd r)
  else if EndianSwapValue int32_t magic_number =? MAGIC_NUMBER_V2 then
    if (bitmap_length <? MAGIC_NUMBER_SIZE_BYTES) ||
       (INT32_MAX - LENGTH_SIZE_BYTES - CRC_SIZE_BYTES <? bitmap_length)
    then Err Invalid "Invalid bitmap length"
    else
      let record_length := bitmap_length + LENGTH_SIZE_BYTES + CRC_SIZE_BYTES in
      if match length with Some n => negb (record_length =? n) | None => false end
      then Err Invalid "Size not match"
      else r ← read_payload (bitmap_length - MAGIC_NUMBER_SIZE_BYTES) s;
           dv ← DeserializeV2 (fst r);
           Ok (dv, snd r)
  else Err Invalid "Invalid magic number".

(** ** A deletion vector as a set of positions *)

Context `{!RoaringLaws B}.

Definition valid_for (dv : DeletionVector) (p : Z) : Prop :=
  match dv with
  | BitmapDeletionVector _ => 0 ≤ p ≤ RoaringBitmap32.MAX_VALUE
  | Bitmap64DeletionVector _ => Opt64.valid_position p
  end.
Definition deleted (dv : DeletionVector) (p : Z) : bool :=
  match IsDeleted p dv with Ok b => b | Err _ _ => false end.

Lemma CheckPosition32_ok p : p ≤ RoaringBitmap32.MAX_VALUE → CheckPosition p = Ok ().
Proof. unfold CheckPosition. intros. by rewrite (proj2 (Z.ltb_ge _ _)). Qed.

Lemma to_int32_id p : 0 ≤ p ≤ RoaringBitmap32.MAX_VALUE → to_int32 p = p.
Proof. intros. apply RoaringBitmap32.wrap_s32_id. unfold RoaringBitmap32.MAX_VALUE in *. lia. Qed.

Lemma IsDeleted_deleted dv p : valid_for dv p → IsDeleted p dv = Ok (deleted dv p).
Proof.
  unfold deleted. destruct dv; cbn.
  - intros. by rewrite CheckPosition32_ok by lia.
  - intros. by rewrite Opt64.Contains_member.
Qed.
Lemma deleted_v1 b p : 0 ≤ p ≤ RoaringBitmap32.MAX_VALUE →
  deleted (BitmapDeletionVector b) p = RoaringBitmap32.Contains p b.
Proof. intros. unfold deleted, IsDeleted. by rewrite CheckPosition32_ok, to_int32_id by lia. Qed.
Lemma deleted_v2 l p : Opt64.valid_position p →
  deleted (Bitmap64DeletionVector l) p = Opt64.member p l.
Proof. intros. unfold deleted, IsDeleted. by rewrite Opt64.Contains_member. Qed.

Lemma Delete_deleted dv p : valid_for dv p →
  ∃ dv', Delete p dv = Ok dv' ∧ (∀ q, valid_for dv' q ↔ valid_for dv q) ∧
         ∀ q, valid_for dv q → deleted dv' q = bool_decide (q = p) || deleted dv q.
Proof.
  destruct dv as [b|l]; cbn [valid_for Delete]; intros Hp.
  - rewrite CheckPosition32_ok by lia. eexists. split; [done|]. split; [done|]. intros q Hq.
    rewrite !deleted_v1, to_int32_id by done. unfold RoaringBitmap32.MAX_VALUE in *.
    apply RoaringBitmap32.Contains_Add; lia.
  - destruct (Opt64.Add_spec p l Hp) as (l'&->&Hl'). eexists. split; [done|]. split; [done|].
    intros q Hq. rewrite !deleted_v2 by done. apply Hl'. by destruct Hq.
Qed.

Lemma CheckedDelete_Delete dv p : valid_for dv p →
  CheckedDelete p dv =
  if deleted dv p then Ok (false, dv) else dv' ← Delete p dv; Ok (true, dv').
Proof.
  intros Hp. destruct dv as [b|l]; cbn [CheckedDelete Delete].
  - cbn [valid_for] in Hp. rewrite CheckPosition32_ok by lia. cbn [mbind Result_bind].
    rewrite deleted_v1 by done. unfold RoaringBitmap32.CheckedAdd. rewrite to_int32_id by done.
    by destruct (RoaringBitmap32.Contains p b).
  - by rewrite IsDeleted_deleted.
Qed.

Lemma CheckedDelete_spec dv p : valid_for dv p →
  ∃ dv', CheckedDelete p dv = Ok (negb (deleted dv p), dv') ∧
         (∀ q, valid_for dv' q ↔ valid_for dv q) ∧
         ∀ q, valid_for dv q → deleted dv' q = bool_decide (q = p) || deleted dv q.
Proof.
  intros Hp. rewrite CheckedDelete_Delete by done. destruct (deleted dv p) eqn:Ed.
  - exists dv. split; [done|]. split; [done|]. intros q Hq.
    case_bool_decide; [subst; by rewrite Ed|done].
  - destruct (Delete_deleted dv p Hp) as (dv'&->&Hv&Hd). by exists dv'.
Qed.

Definition same_kind (dv other : DeletionVector) : bool :=
  match dv, other with
  | BitmapDeletionVector _, BitmapDeletionVector _ => true
  | Bitmap64DeletionVector _, Bitmap64DeletionVector _ => true
  | _, _ => false
  end.

Lemma Merge_spec dv other :
  if same_kind dv other
  then ∃ dv', Merge other dv = Ok dv' ∧
       ∀ q, valid_for dv q → valid_for dv' q ∧ deleted dv' q = deleted dv q || deleted other q
  else is_ok (Merge other dv) = false.
Proof.
  destruct dv as [b|l], other as [o|o]; cbn; try done; eexists; (split; [done|]); intros q Hq.
  - split; [done|]. rewrite !deleted_v1 by done. apply contains_or.
  - split; [done|]. rewrite !deleted_v2 by done. apply Opt64.member_OrAssign.
Qed.

(** A deletion vector of either kind is a set of row positions:
    [CheckedDelete] inserts a position and tells whether it was new, and [Merge]
    is the union of two vectors of the same kind and refuses the other kind. *)
Theorem deletion_vector_set dv other p :
  valid_for dv p →
  (∃ dv', CheckedDelete p dv = Ok (negb (deleted dv p), dv') ∧
     ∀ q, valid_for dv q → IsDeleted q dv' = Ok (bool_decide (q = p) || deleted dv q)) ∧
  (if same_kind dv other
   then ∃ dv', Merge other dv = Ok dv' ∧
        ∀ q, valid_for dv q → IsDeleted q dv' = Ok (deleted dv q || deleted other q)
   else is_ok (Merge other dv) = false).
Proof.
  intros Hp. split.
  - destruct (CheckedDelete_spec dv p Hp) as (dv'&->&Hv&Hd). eexists. split; [done|].
    intros q Hq. rewrite IsDeleted_deleted by (by apply Hv). by rewrite Hd.
  - pose proof (Merge_spec dv other) as Hm. destruct (same_kind dv other); [|done].
    destruct Hm as (dv'&->&Hd). eexists. split; [done|]. intros q Hq.
    destruct (Hd q Hq) as [Hv Hq']. rewrite IsDeleted_deleted by done. by rewrite Hq'.
Qed.

Lemma IsValid_loop_spec dv start (n : nat) i b :
  0 ≤ i → i + n ≤ 2 ^ 31 → (∀ j, 0 ≤ j < i + n → valid_for dv (start + j)) →
  ∃ b', IsValid_loop n i start dv b = Ok b' ∧
    ∀ j, 0 ≤ j < 2 ^ 32 →
      r_contains j b' =
      r_contains j b || ((i <=? j) && (j <? i + n) && negb (deleted dv (start + j))).
Proof.
  revert i b; induction n as [|n IH]; intros i b Hi Hn Hv; cbn [IsValid_loop].
  { exists b. split; [done|]. intros j Hj. destruct (Z.leb_spec i j), (Z.ltb_spec j (i + 0%nat)); cbn; try lia.
    all: by rewrite orb_false_r. }
  rewrite IsDeleted_deleted by (apply Hv; lia). cbn [mbind Result_bind].
  set (b1 := if deleted _ _ then _ else _).
  destruct (IH (i + 1) b1) as (b'&->&Hb'); [lia|lia|intros; apply Hv; lia|].
  exists b'. split; [done|]. intros j Hj. rewrite Hb' by done.
  assert (Hb1 : r_contains j b1 = r_contains j b || (bool_decide (j = i) && negb (deleted dv (start + j)))).
  { unfold b1. destruct (decide (j = i)) as [->|Hne].
    - rewrite bool_decide_true by done. destruct (deleted dv (start + i)); cbn; [by rewrite orb_false_r|].
      unfold RoaringBitmap32.Add. rewrite RoaringBitmap32.wrap_u32_id, contains_add by lia.
      rewrite bool_decide_true by done. by rewrite orb_true_r.
    - rewrite bool_decide_false by done. cbn [andb]. rewrite orb_false_r.
      destruct (deleted dv (start + i)); [done|].
      unfold RoaringBitmap32.Add. rewrite RoaringBitmap32.wrap_u32_id, contains_add by lia.
      by rewrite bool_decide_false. }
  rewrite Hb1, <-orb_assoc. f_equal. rewrite <-andb_orb_distrib_l. f_equal.
  case_bool_decide; destruct (Z.leb_spec i j), (Z.leb_spec (i + 1) j), (Z.ltb_spec j (i + 1 + n)),
    (Z.ltb_spec j (i + S n)); cbn; try done; lia.
Qed.

(** [IsValid] over a batch of rows is the bitmap of the offsets whose rows
    are not deleted, and nothing else. *)
Theorem dv_is_valid_complement dv start n :
  0 ≤ n ≤ 2 ^ 31 → (∀ j, 0 ≤ j < n → valid_for dv (start + j)) →
  ∃ b, IsValid start n dv = Ok b ∧
    ∀ j, 0 ≤ j < 2 ^ 32 →
      r_contains j b = ((j <? n) && negb (deleted dv (start + j))).
Proof.
  intros Hn Hv. unfold IsValid.
  destruct (IsValid_loop_spec dv start (Z.to_nat n) 0 r_empty) as (b&->&Hb);
    [lia|lia|intros; apply Hv; lia|].
  exists b. split; [done|]. intros j Hj. rewrite Hb, contains_empty by done.
  rewrite Z2Nat.id, Z.add_0_l by lia. by rewrite (proj2 (Z.leb_le 0 j)) by lia.
Qed.

(** ** Reading back what was written *)

Lemma RunLengthEncode_member p l : Opt64.member p (Opt64.RunLengthEncode l) = Opt64.member p l.
Proof.
  unfold Opt64.member, Opt64.RunLengthEncode. rewrite list_lookup_fmap.
  destruct (l !! _); cbn; [apply contains_runOptimize|done].
Qed.

Lemma SerializeToBytes_deleted dv data dv' : SerializeToBytes dv = Ok (data, dv') →
  same_kind dv dv' = true ∧ ∀ q, valid_for dv q → valid_for dv' q ∧ deleted dv' q = deleted dv q.
Proof.
  destruct dv as [b|l]; cbn.
  - intros [= <- <-]. split; [done|]. intros q Hq. split; [done|]. rewrite !deleted_v1 by done.
    apply contains_runOptimize.
  - case_match; [done|]. intros [= <- <-]. split; [done|]. intros q Hq. split; [done|].
    rewrite !deleted_v2 by done. apply RunLengthEncode_member.
Qed.

Lemma read_int32_app pre v post : in_type int32_t v →
  read_int32 (at_bytes pre (ordered_bytes PAIMON_BIG_ENDIAN int32_t v ++ post)) =
  Ok (v, at_bytes (pre ++ ordered_bytes PAIMON_BIG_ENDIAN int32_t v) post).
Proof. intros. apply DataInputStream.ReadValue_app; [cbn; lia|done]. Qed.

Lemma read_payload_app pre l c post : in_type int32_t c →
  read_payload (length l) (at_bytes pre (l ++ ordered_bytes PAIMON_BIG_ENDIAN int32_t c ++ post)) =
  Ok (l, at_bytes (pre ++ l ++ ordered_bytes PAIMON_BIG_ENDIAN int32_t c) post).
Proof.
  intros. unfold read_payload. rewrite DataInputStream.ReadBytes_app. cbn [mbind Result_bind fst snd].
  rewrite read_int32_app by done. cbn. by rewrite <-app_assoc.
Qed.

Lemma int32_bytes_length o v : length (ordered_bytes o int32_t v) = 4%nat.
Proof. apply DataInputStream.ordered_bytes_length. Qed.

(** The record [SerializeTo] appends: length, data, checksum. *)
Definition dv_record (data : list Z) (crc : Z) : list Z :=
  ordered_bytes PAIMON_BIG_ENDIAN int32_t (length data) ++ data ++
  ordered_bytes PAIMON_BIG_ENDIAN int32_t crc.

Lemma wrap_s32_in_type v : in_type int32_t (Int.wrap_s 32 v).
Proof. exact (of_bits_idemp int32_t v). Qed.

Lemma ReadDv_v1 (b : B) pre crc post :
  in_type int32_t crc →
  let data := ordered_bytes PAIMON_BIG_ENDIAN int32_t MAGIC_NUMBER_V1 ++ r_write b in
  length data ≤ INT32_MAX →
  ReadDv (Some (Z.of_nat (length data))) (at_bytes pre (dv_record data crc ++ post)) =
  Ok (BitmapDeletionVector b, at_bytes (pre ++ dv_record data crc) post).
Proof.
  intros Hcrc data Hlen.
  assert (Hdata : ∀ r, data ++ r =
    ordered_bytes PAIMON_BIG_ENDIAN int32_t MAGIC_NUMBER_V1 ++ r_write b ++ r).
  { intros. unfold data. by rewrite <-app_assoc. }
  assert (Hw : Int.wrap_s 32 (length data - MAGIC_NUMBER_SIZE_BYTES) = length (r_write b)).
  { unfold data in *. rewrite length_app, int32_bytes_length in *. unfold MAGIC_NUMBER_SIZE_BYTES.
    rewrite RoaringBitmap32.wrap_s32_id; unfold INT32_MAX in *; lia. }
  clearbody data. unfold ReadDv, dv_record. rewrite <-!app_assoc.
  rewrite read_int32_app by (apply Opt64.in_type_int32; unfold INT32_MAX in *; lia).
  cbn [mbind Result_bind]. rewrite !Hdata.
  rewrite read_int32_app by reflexivity. cbn [mbind Result_bind].
  rewrite !Z.eqb_refl. cbn [negb].
  rewrite Hw, (proj2 (Z.ltb_ge _ _)) by lia.
  rewrite read_payload_app by done. cbn [mbind Result_bind fst snd].
  unfold DeserializeV1. pose proof (readSafe_write b []) as Hr. rewrite app_nil_r in Hr. rewrite Hr.
  cbn. by rewrite <-!app_assoc.
Qed.

Lemma magic_v2_bytes : Opt64.WriteLittleEndian int32_t MAGIC_NUMBER_V2 =
  ordered_bytes PAIMON_BIG_ENDIAN int32_t (EndianSwapValue int32_t MAGIC_NUMBER_V2).
Proof. rewrite Opt64.WriteLittleEndian_bytes by (cbn; lia). reflexivity. Qed.

Lemma Serialize_length_ge (l : list B) :
  8 + 4 * length l ≤ length (Opt64.Serialize l).
Proof.
  unfold Opt64.Serialize. rewrite length_app, Opt64.WriteLittleEndian_bytes by (cbn; lia).
  rewrite DataInputStream.ordered_bytes_length. change (sizeof int64_t) with 8%nat.
  assert (∀ k, (4 * length l ≤ length (Opt64.Serialize_loop k l))%nat) as Hk; [|specialize (Hk 0%nat); lia].
  induction l as [|b l IH]; intros k; cbn [Opt64.Serialize_loop length]; [lia|].
  rewrite !length_app, Opt64.WriteLittleEndian_bytes by (cbn; lia). rewrite int32_bytes_length.
  specialize (IH (S k)). lia.
Qed.

Lemma ReadDv_v2 (l : list B) pre crc post :
  in_type int32_t crc →
  let data := Opt64.WriteLittleEndian int32_t MAGIC_NUMBER_V2 ++ Opt64.Serialize l in
  length (Opt64.Serialize l) ≤ INT32_MAX - 12 →
  ReadDv (Some (length data + LENGTH_SIZE_BYTES + CRC_SIZE_BYTES))
    (at_bytes pre (dv_record data crc ++ post)) =
  Ok (Bitmap64DeletionVector l, at_bytes (pre ++ dv_record data crc) post).
Proof.
  intros Hcrc data Hlen. pose proof (Serialize_length_ge l) as Hge. unfold INT32_MAX in *.
  assert (Hd : Z.of_nat (length data) = 4 + length (Opt64.Serialize l)).
  { unfold data. rewrite magic_v2_bytes, length_app, int32_bytes_length. lia. }
  assert (Hdata : ∀ r, data ++ r =
    ordered_bytes PAIMON_BIG_ENDIAN int32_t (EndianSwapValue int32_t MAGIC_NUMBER_V2) ++
    Opt64.Serialize l ++ r).
  { intros. unfold data. by rewrite magic_v2_bytes, <-app_assoc. }
  clearbody data. unfold ReadDv, dv_record. rewrite <-!app_assoc.
  rewrite read_int32_app by (apply Opt64.in_type_int32; lia).
  cbn [mbind Result_bind]. rewrite !Hdata.
  rewrite read_int32_app by reflexivity. cbn [mbind Result_bind].
  change (EndianSwapValue int32_t MAGIC_NUMBER_V2 =? MAGIC_NUMBER_V1) with false. cbn match.
  change (EndianSwapValue int32_t (EndianSwapValue int32_t MAGIC_NUMBER_V2) =? MAGIC_NUMBER_V2)
    with true. cbn match.
  unfold INT32_MAX, MAGIC_NUMBER_SIZE_BYTES, LENGTH_SIZE_BYTES, CRC_SIZE_BYTES in *.
  rewrite !(proj2 (Z.ltb_ge _ _)) by lia. cbn [orb]. rewrite Z.eqb_refl. cbn [negb].
  replace (length data - 4) with (Z.of_nat (length (Opt64.Serialize l))) by lia.
  rewrite read_payload_app by done. cbn [mbind Result_bind fst snd].
  unfold DeserializeV2. rewrite (proj2 (Z.ltb_ge _ _)) by lia.
  pose proof (Opt64.Deserialize_Serialize l [] []) as Hs.
  unfold at_bytes in Hs at 1. rewrite app_nil_r in Hs. cbn [app length] in Hs.
  change (Z.of_nat 0) with 0 in Hs. unfold create. rewrite Hs by (rewrite ?app_nil_r; lia). cbn. by rewrite <-!app_assoc.
Qed.

Section Roundtrip.
Context {S : Type} `{OutputStreamLaws S} (crc32 : list Z → Z).

Lemma write_record data c (s s1 s2 s3 : S) :
  write_int32 (length data) s = Ok s1 → DataOutputStream.WriteBytes data s1 = Ok s2 →
  write_int32 c s2 = Ok s3 → os_contents s3 = os_contents s ++ dv_record data c.
Proof.
  unfold write_int32, dv_record.
  intros H1%DataOutputStream.WriteValue_contents H2 H3%DataOutputStream.WriteValue_contents;
    [|cbn; lia..].
  unfold DataOutputStream.WriteBytes in H2. apply bind_Ok in H2 as ([n t]&Hw&H2).
  apply bind_Ok in H2 as (?&Ha&[= <-]). unfold DataOutputStream.AssertWriteLength in Ha. cbn in Ha.
  destruct (Z.eqb_spec (length data) n) as [<-|]; [|done].
  apply DataOutputStream.write_all in Hw; [|done].
  rewrite H3, Hw, H1. by rewrite <-!app_assoc.
Qed.

(** C38. A deletion vector written by [SerializeTo] is read back by
    [DeletionVector::Read] with the length [SerializeTo] returned, for both
    kinds, at any place of a file: same kind, same deleted positions, and the
    reader stops right behind the record. *)
Theorem dv_serialize_roundtrip dv dv' len (out out' : S) post :
  SerializeTo crc32 dv out = Ok (len, dv', out') →
  ReadDv (Some len) (mk (os_contents out' ++ post) (length (os_contents out))) =
    Ok (dv', mk (os_contents out' ++ post) (length (os_contents out'))) ∧
  same_kind dv dv' = true ∧ (∀ q, valid_for dv q → IsDeleted q dv' = Ok (deleted dv q)).
Proof.
  unfold SerializeTo. intros ([data d]&Hser&Hw)%bind_Ok.
  destruct (SerializeToBytes_deleted _ _ _ Hser) as [Hk Hd]. cbn beta iota zeta in Hw.
  cut (d = dv' ∧ ∃ l, os_contents out' = os_contents out ++ l ∧
       ReadDv (Some len) (at_bytes (os_contents out) (l ++ post)) =
       Ok (dv', at_bytes (os_contents out ++ l) post)).
  { intros (->&l&Hl&Hr). destruct (at_bytes_split out out' l post Hl) as [-> ->].
    split_and!; [done|done|]. intros q Hq. destruct (Hd q Hq) as [? <-]. by apply IsDeleted_deleted. }
  destruct dv as [b|l].
  - apply Ok_inj, pair_eq in Hser as [<- <-].
    destruct (Z.ltb_spec INT32_MAX (length (ordered_bytes PAIMON_BIG_ENDIAN int32_t MAGIC_NUMBER_V1 ++
      r_write (r_runOptimize b)))) as [|Hle]; [done|].
    apply bind_Ok in Hw as (s1&H1&(s2&H2&(s3&H3&[= <- <- <-])%bind_Ok)%bind_Ok).
    split; [done|]. eexists. split; [by eapply write_record|].
    apply ReadDv_v1; [apply wrap_s32_in_type|done].
  - cbn [SerializeToBytes] in Hser.
    set (l' := Opt64.RunLengthEncode l) in *. rewrite Opt64.GetSizeInBytes_length in Hser.
    destruct (Z.ltb_spec (INT32_MAX - (MAGIC_NUMBER_SIZE_BYTES + LENGTH_SIZE_BYTES + CRC_SIZE_BYTES))
      (length (Opt64.Serialize l'))) as [|Hle]; [done|].
    apply Ok_inj, pair_eq in Hser as [<- <-]. set (data := _ ++ _) in *.
    assert (Hlen : Int.wrap_s 32 (length data) = length data).
    { apply RoaringBitmap32.wrap_s32_id. unfold data. rewrite length_app, magic_v2_bytes, int32_bytes_length.
      unfold INT32_MAX, MAGIC_NUMBER_SIZE_BYTES, LENGTH_SIZE_BYTES, CRC_SIZE_BYTES in *. lia. }
    rewrite Hlen in Hw.
    apply bind_Ok in Hw as (s1&H1&(s2&H2&(s3&H3&[= <- <- <-])%bind_Ok)%bind_Ok).
    split; [done|]. eexists. split; [by eapply write_record|].
    apply ReadDv_v2; [apply wrap_s32_in_type|done].
Qed.
End Roundtrip.

(** ** BucketedDvMaintainer *)

Record BucketedDvMaintainer := mkMaintainer {
  deletion_vectors_ : gmap string DeletionVector;
  bitmap64_ : bool;
  modified_ : bool
}.

Definition new_dv (m : BucketedDvMaintainer) : DeletionVector :=
  if bitmap64_ m then Bitmap64DeletionVector [] else BitmapDeletionVector r_empty.

(** The state after the call and the status it returns: an error leaves the
    vector it has created in the map. *)
Definition NotifyNewDeletion (file_name : string) (position : Z) (m : BucketedDvMaintainer)
    : BucketedDvMaintainer * Result unit :=
  let dv := default (new_dv m) (deletion_vectors_ m !! file_name) in
  match CheckedDelete position dv with
  | Err c e =>
      (mkMaintainer (<[file_name := dv]> (deletion_vectors_ m)) (bitmap64_ m) (modified_ m), Err c e)
  | Ok (updated, dv') =>
      (mkMaintainer (<[file_name := dv']> (deletion_vectors_ m)) (bitmap64_ m)
                    (if (updated : bool) then true else modified_ m), Ok ())
  end.

Definition DeletionVectorOf (file_name : string) (m : BucketedDvMaintainer) : option DeletionVector :=
  deletion_vectors_ m !! file_name.

Definition RemoveDeletionVectorOf (file_name : string) (m : BucketedDvMaintainer) : BucketedDvMaintainer :=
  if bool_decide (is_Some (deletion_vectors_ m !! file_name))
  then mkMaintainer (delete file_name (deletion_vectors_ m)) (bitmap64_ m) true
  else m.

(** [write_single_file] is [DeletionVectorsIndexFile::WriteSingleFile]. *)
Definition WriteDeletionVectorsIndex {IndexFileMeta : Type}
    (write_single_file : gmap string DeletionVector → Result IndexFileMeta)
    (m : BucketedDvMaintainer) : BucketedDvMaintainer * Result (option IndexFileMeta) :=
  if modified_ m then
    (mkMaintainer (deletion_vectors_ m) (bitmap64_ m) false,
     result ← write_single_file (deletion_vectors_ m); Ok (Some result))
  else (m, Ok None).

Definition deleted_in (m : BucketedDvMaintainer) (file_name : string) (p : Z) : bool :=
  match deletion_vectors_ m !! file_name with Some dv => deleted dv p | None => false end.
Definition valid_in (m : BucketedDvMaintainer) (file_name : string) (p : Z) : Prop :=
  valid_for (default (new_dv m) (deletion_vectors_ m !! file_name)) p.

Lemma new_dv_deleted m p : valid_for (new_dv m) p → deleted (new_dv m) p = false.
Proof.
  unfold new_dv. destruct (bitmap64_ m); cbn; intros Hp.
  - by rewrite deleted_v2.
  - rewrite deleted_v1 by done. apply contains_empty.
Qed.
Lemma deleted_in_default m f p : valid_in m f p →
  deleted (default (new_dv m) (deletion_vectors_ m !! f)) p = deleted_in m f p.
Proof.
  unfold valid_in, deleted_in. destruct (_ !! f) as [dv|]; cbn; [done|]. apply new_dv_deleted.
Qed.

(** Reporting a deletion marks exactly that row of that file, on top of
    what was marked before, and sets [modified_] exactly when the row was not
    marked yet; removing a file's vector unmarks its rows only. *)
Theorem dv_maintainer_marks m f p :
  valid_in m f p →
  (∃ m', NotifyNewDeletion f p m = (m', Ok ()) ∧
     (∀ g q, valid_in m g q → deleted_in m' g q = bool_decide ((g, q) = (f, p)) || deleted_in m g q) ∧
     modified_ m' = modified_ m || negb (deleted_in m f p)) ∧
  (∀ g q, deleted_in (RemoveDeletionVectorOf f m) g q = negb (bool_decide (g = f)) && deleted_in m g q).
Proof.
  intros Hp. split.
  - unfold NotifyNewDeletion. pose proof (deleted_in_default m f p Hp) as Hdef.
    destruct (CheckedDelete_spec _ p Hp) as (dv'&->&Hv&Hd). eexists. split; [done|]. cbn. split.
    + intros g q Hq. unfold deleted_in at 1; cbn. destruct (decide (g = f)) as [->|Hne].
      * rewrite lookup_insert, decide_True by done. rewrite Hd by done.
        rewrite deleted_in_default by done. f_equal. apply bool_decide_ext. split; [by intros ->|by intros [= ->]].
      * rewrite lookup_insert_ne by done. rewrite bool_decide_false by (intros [=]; done). done.
    + rewrite Hdef. by destruct (deleted_in m f p), (modified_ m).
  - intros g q. unfold RemoveDeletionVectorOf, deleted_in. case_bool_decide as Hs; cbn.
    + destruct (decide (g = f)) as [->|Hne].
      * rewrite lookup_delete, decide_True by done. by rewrite bool_decide_true.
      * rewrite lookup_delete_ne by done. by rewrite bool_decide_false.
    + case_bool_decide as Hg; [subst g|done]. cbn. apply eq_None_not_Some in Hs. by rewrite Hs.
Qed.
End DeletionVectors.

(** ** Examples *)

Module Examples.
#[local] Existing Instance ListRoaring.roaring.
#[local] Existing Instance ListRoaring.laws.
#[local] Instance little : Platform := PAIMON_LITTLE_ENDIAN.

Definition dv1 : DeletionVector := BitmapDeletionVector [7; 3].
Definition dv2 : DeletionVector := Bitmap64DeletionVector [[7; 3]; [1]].
Definition maintainer : BucketedDvMaintainer := mkMaintainer {[ "f"%string := dv1 ]} true false.

Lemma deletion_vector_set_witness :
  valid_for dv1 5 ∧
  ∃ dv', CheckedDelete 5 dv1 = Ok (true, dv') ∧
     ∀ q, valid_for dv1 q → IsDeleted q dv' = Ok (bool_decide (q = 5) || deleted dv1 q).
Proof.
  assert (Hv : valid_for dv1 5) by (cbn; unfold RoaringBitmap32.MAX_VALUE; lia).
  split; [exact Hv|]. exact (proj1 (deletion_vector_set dv1 dv2 5 Hv)).
Defined.

Lemma dv_is_valid_complement_witness :
  ∃ b, IsValid 2 4 dv1 = Ok b ∧
    ∀ j, 0 ≤ j < 2 ^ 32 → r_contains j b = ((j <? 4) && negb (deleted dv1 (2 + j))).
Proof.
  apply (dv_is_valid_complement dv1 2 4); [lia|].
  intros j Hj. cbn. unfold RoaringBitmap32.MAX_VALUE. lia.
Defined.

Lemma dv_serialize_roundtrip_witness :
  ReadDv (Some 7) (ByteArrayInputStream.mk ([9; 0; 0; 0; 7; 94; 67; 242; 208; 2; 7; 3; 0; 0; 0; 12] ++ [5]) 1) =
    Ok (dv1, ByteArrayInputStream.mk ([9; 0; 0; 0; 7; 94; 67; 242; 208; 2; 7; 3; 0; 0; 0; 12] ++ [5]) 16).
Proof.
  exact (proj1 (dv_serialize_roundtrip (S := list Z) (λ _, 12) dv1 dv1 7 [9]
           [9; 0; 0; 0; 7; 94; 67; 242; 208; 2; 7; 3; 0; 0; 0; 12] [5] eq_refl)).
Defined.

Lemma dv_maintainer_marks_witness :
  ∃ m', NotifyNewDeletion "g" (2 ^ 40) maintainer = (m', Ok ()) ∧
     (∀ g q, valid_in maintainer g q →
        deleted_in m' g q = bool_decide ((g, q) = ("g"%string, 2 ^ 40)) || deleted_in maintainer g q) ∧
     modified_ m' = true.
Proof.
  assert (Hv : valid_in maintainer "g" (2 ^ 40)).
  { vm_compute. split; discriminate. }
  exact (proj1 (dv_maintainer_marks maintainer "g" (2 ^ 40) Hv)).
Defined.
End Examples.
