(* ===== verification/MergeFunctions.v ===== *)
(** * Merge functions

    The merge functions [DeduplicateMergeFunction], [FirstRowMergeFunction] and
    [LookupMergeFunction], and [ReducerMergeFunctionWrapper]
    (src/paimon/core/mergetree/compact); the wrappers that produce changelogs
    are in Changelog.v. Each is an instance of the interface
    [MergeFn] of KeyValues.v and is shown to implement a function of the records
    added since the last [Reset]. *)

From stdpp Require Import base list gmap strings sorting.
From Stdlib Require Import ZArith Lia.
From S2P Require Import Prelude Rows KeyValues Streams Roaring DeletionVectors.
Local Open Scope Z_scope.

(** ** DeduplicateMergeFunction *)

Module Deduplicate.
Definition Reset (latest_kv_ : option KeyValue) : option KeyValue := None.
Definition Add (ignore_delete_ : bool) (kv : KeyValue) (latest_kv_ : option KeyValue)
    : Result (option KeyValue) :=
  if ignore_delete_ && is_retract kv then Ok latest_kv_ else Ok (Some kv).
Definition GetResult (latest_kv_ : option KeyValue) : Result (option KeyValue * option KeyValue) :=
  Ok (latest_kv_, latest_kv_).
Definition fn (ignore_delete_ : bool) : MergeFn KeyValue :=
  mkMergeFn Reset (Add ignore_delete_) GetResult.

(** The last record that is not an ignored retraction. *)
Definition spec (ignore_delete_ : bool) (kvs : list KeyValue) : Result (option KeyValue) :=
  Ok (last (filter (λ kv, ignore_delete_ && is_retract kv = false) kvs)).

Lemma foldR_Add_dedup ig kvs s : foldR (Add ig) kvs s =
  Ok (match last (filter (λ kv, ig && is_retract kv = false) kvs) with Some kv => Some kv | None => s end).
Proof.
  revert s; induction kvs as [|kv kvs IH]; intros s; [done|]. cbn [foldR]. unfold Add at 2.
  rewrite filter_cons. destruct (ig && is_retract kv); cbn [mbind Result_bind]; rewrite IH.
  - by rewrite decide_False.
  - rewrite decide_True by done. f_equal. rewrite last_cons. by case_match.
Qed.

#[global] Instance implements ig : Implements (fn ig) (spec ig).
Proof.
  intros kvs s. unfold merge_run, run_from. cbn [fn MReset MAdd MGetResult]. rewrite foldR_Add_dedup.
  unfold spec. cbn. by destruct (last _).
Qed.
End Deduplicate.

(** ** FirstRowMergeFunction *)

Module FirstRow.
Record State := mkState { contains_high_level_ : bool; first_kv_ : option KeyValue }.
Definition Reset (s : State) : State := mkState false None.
Definition Add (ignore_delete_ : bool) (kv : KeyValue) (s : State) : Result State :=
  if is_retract kv then
    if ignore_delete_ then Ok s
    else Err Invalid "By default, First row merge engine can not accept DELETE/UPDATE_BEFORE records."
  else
    Ok (mkState (if 0 <? level kv then true else contains_high_level_ s)
                (match first_kv_ s with None => Some kv | Some _ => first_kv_ s end)).
Definition GetResult (s : State) : Result (option KeyValue * State) := Ok (first_kv_ s, s).
Definition fn (ignore_delete_ : bool) : MergeFn KeyValue :=
  mkMergeFn Reset (Add ignore_delete_) GetResult.

(** The first record; a retraction is skipped or refused. *)
Definition adds (kvs : list KeyValue) : list KeyValue := filter (λ kv, is_retract kv = false) kvs.
Definition spec (ignore_delete_ : bool) (kvs : list KeyValue) : Result (option KeyValue) :=
  if negb ignore_delete_ && existsb is_retract kvs
  then Err Invalid "By default, First row merge engine can not accept DELETE/UPDATE_BEFORE records."
  else Ok (head (adds kvs)).

Lemma foldR_Add_first ig kvs s : foldR (Add ig) kvs s =
  if negb ig && existsb is_retract kvs
  then Err Invalid "By default, First row merge engine can not accept DELETE/UPDATE_BEFORE records."
  else Ok (mkState (contains_high_level_ s || existsb (λ kv, 0 <? level kv) (adds kvs))
                   (match first_kv_ s with None => head (adds kvs) | Some kv => Some kv end)).
Proof.
  revert s; induction kvs as [|kv kvs IH]; intros s; cbn [foldR existsb].
  { destruct s as [c f]. cbn. rewrite andb_false_r, orb_false_r. by destruct f. }
  unfold Add at 2, adds. rewrite filter_cons. fold (adds kvs).
  destruct (is_retract kv) eqn:Er; cbn [orb].
  - rewrite decide_False by done. destruct ig; cbn [negb andb mbind Result_bind]; [|done]. apply IH.
  - rewrite decide_True by done. cbn [mbind Result_bind]. rewrite IH. cbn [contains_high_level_ first_kv_].
    case_match; [done|]. f_equal. f_equal.
    + cbn [existsb]. destruct (0 <? level kv); cbn; [by destruct (contains_high_level_ s)|done].
    + by destruct (first_kv_ s).
Qed.

#[global] Instance implements ig : Implements (fn ig) (spec ig).
Proof.
  intros kvs s. unfold merge_run, run_from. cbn [fn MReset MAdd MGetResult]. rewrite foldR_Add_first.
  unfold spec. by destruct (negb ig && existsb is_retract kvs).
Qed.
End FirstRow.

(** ** LookupMergeFunction *)

Module Lookup.
Section Lookup.
Context (M : MergeFn KeyValue).

Record State := mkState {
  merge_function_ : MState M;
  candidates_ : list KeyValue;
  current_key_ : option InternalRow;
  contain_level0_ : bool
}.

Definition Reset (s : State) : State := mkState (merge_function_ s) [] None false.
Definition Add (kv : KeyValue) (s : State) : Result State :=
  Ok (mkState (merge_function_ s) (candidates_ s ++ [kv]) (Some (key kv))
              (if level kv =? 0 then true else contain_level0_ s)).
Definition ContainLevel0 (s : State) : bool := contain_level0_ s.
Definition GetKey (s : State) : option InternalRow := current_key_ s.

(** The scan of [PickHighLevelIdx]: [best] is the index and level kept so far. *)
Fixpoint pick_loop (i : nat) (kvs : list KeyValue) (best : option (nat * Z)) : option (nat * Z) :=
  match kvs with
  | [] => best
  | kv :: rest =>
      pick_loop (S i) rest
        (if level kv <=? 0 then best
         else match best with
              | None => Some (i, level kv)
              | Some (_, l) => if level kv <? l then Some (i, level kv) else best
              end)
  end.
Definition PickHighLevelIdx (kvs : list KeyValue) : option nat := fst <$> pick_loop 0 kvs None.
Definition PickHighLevel (s : State) : option KeyValue :=
  PickHighLevelIdx (candidates_ s) ≫= λ i, candidates_ s !! i.

(** [high_level_idx.value()] throws on an empty optional. *)
Fixpoint GetResult_loop (i : nat) (kvs : list KeyValue) (high_level_idx : option nat) (m : MState M)
    : Result (MState M) :=
  match kvs with
  | [] => Ok m
  | kv :: rest =>
      chosen ← (if level kv <=? 0 then Ok true
                else match high_level_idx with
                     | Some h => Ok (i =? h)%nat
                     | None => Err UnknownError "bad optional access"
                     end);
      m ← (if (chosen : bool) then MAdd M kv m else Ok m);
      GetResult_loop (S i) rest high_level_idx m
  end.
Definition GetResult (s : State) : Result (option KeyValue * State) :=
  let m := MReset M (merge_function_ s) in
  m ← GetResult_loop 0 (candidates_ s) (PickHighLevelIdx (candidates_ s)) m;
  r ← MGetResult M m;
  Ok (fst r, mkState (snd r) (candidates_ s) (current_key_ s) (contain_level0_ s)).

(** [InsertInto] sorts with [std::sort]; [less] is [cmp_function]. *)
Definition InsertInto (high_level : option KeyValue) (less : KeyValue → KeyValue → bool) (s : State)
    : State :=
  match high_level with
  | None => s
  | Some kv =>
      mkState (merge_function_ s)
        (std_sort less (candidates_ s ++ [kv]))
        (current_key_ s) (contain_level0_ s)
  end.

Definition fn : MergeFn KeyValue := mkMergeFn Reset Add GetResult.

(** *** What is merged *)

Definition is_pick (kvs : list KeyValue) (h : nat) (l : Z) : Prop :=
  (∃ kv, kvs !! h = Some kv ∧ level kv = l) ∧ 0 < l ∧
  ∀ j kv, kvs !! j = Some kv → 0 < level kv → l < level kv ∨ (l = level kv ∧ (h ≤ j)%nat).
Definition pick_inv (kvs : list KeyValue) (best : option (nat * Z)) : Prop :=
  match best with
  | None => ∀ j kv, kvs !! j = Some kv → level kv ≤ 0
  | Some (h, l) => is_pick kvs h l
  end.

Lemma pick_step pre kv best : pick_inv pre best →
  pick_inv (pre ++ [kv])
    (if level kv <=? 0 then best
     else match best with
          | None => Some (length pre, level kv)
          | Some (_, l) => if level kv <? l then Some (length pre, level kv) else best
          end).
Proof.
  intros Hinv.
  assert (Hnew : (pre ++ [kv]) !! length pre = Some kv) by (apply lookup_snoc_Some; auto).
  assert (Hold : ∀ h kv', pre !! h = Some kv' → (h < length pre)%nat ∧ (pre ++ [kv]) !! h = Some kv').
  { intros h kv' Hh. split; [by eapply lookup_lt_Some|by apply lookup_app_l_Some]. }
  destruct (Z.leb_spec (level kv) 0), best as [[h l]|]; cbn in Hinv |- *.
  - destruct Hinv as ((k&Hk&Hl)&Hpos&Hmin). split_and!; [|done|].
    + exists k. by split; [apply Hold|].
    + intros j kv' [[_ Hj]|[-> <-]]%lookup_snoc_Some ?; [by apply Hmin|lia].
  - intros j kv' [[_ Hj]|[_ <-]]%lookup_snoc_Some; [by eapply Hinv|done].
  - destruct Hinv as ((k&Hk&Hl)&Hpos&Hmin). destruct (Z.ltb_spec (level kv) l).
    + split_and!; [eauto|done|].
      intros j kv' [[_ Hj]|[-> <-]]%lookup_snoc_Some ?; [destruct (Hmin j kv' Hj); lia|auto].
    + split_and!; [|done|].
      * exists k. by split; [apply Hold|].
      * intros j kv' [[_ Hj]|[-> <-]]%lookup_snoc_Some ?; [by apply Hmin|].
        apply Hold in Hk. lia.
  - split_and!; [eauto|done|].
    intros j kv' [[_ Hj]|[-> <-]]%lookup_snoc_Some ?; [|auto].
    specialize (Hinv j kv' Hj). lia.
Qed.

Lemma pick_loop_inv pre kvs best : pick_inv pre best →
  pick_inv (pre ++ kvs) (pick_loop (length pre) kvs best).
Proof.
  revert pre best; induction kvs as [|kv kvs IH]; intros pre best Hinv; cbn [pick_loop].
  { by rewrite app_nil_r. }
  apply (pick_step _ kv) in Hinv. apply IH in Hinv. rewrite <-app_assoc in Hinv.
  by rewrite length_app, Nat.add_1_r in Hinv.
Qed.

(** The index is that of the first record of the least positive level. *)
Lemma PickHighLevelIdx_spec kvs :
  match PickHighLevelIdx kvs with
  | None => ∀ kv, kv ∈ kvs → level kv ≤ 0
  | Some h => ∃ l, is_pick kvs h l
  end.
Proof.
  unfold PickHighLevelIdx. pose proof (pick_loop_inv [] kvs None) as Hinv. cbn in Hinv.
  specialize (Hinv ltac:(done)). destruct (pick_loop 0 kvs None) as [[h l]|]; cbn in *; [eauto|].
  intros kv [j Hj]%list_elem_of_lookup. eauto.
Qed.

Fixpoint selected_from (i : nat) (h : option nat) (kvs : list KeyValue) : list KeyValue :=
  match kvs with
  | [] => []
  | kv :: rest =>
      if (level kv <=? 0) || bool_decide (h = Some i) then kv :: selected_from (S i) h rest
      else selected_from (S i) h rest
  end.
Definition select (kvs : list KeyValue) : list KeyValue :=
  selected_from 0 (PickHighLevelIdx kvs) kvs.

Lemma GetResult_loop_selected i kvs h m :
  (h = None → ∀ kv, kv ∈ kvs → level kv ≤ 0) →
  GetResult_loop i kvs h m = foldR (MAdd M) (selected_from i h kvs) m.
Proof.
  revert i m; induction kvs as [|kv kvs IH]; intros i m Hh; [done|].
  cbn [GetResult_loop selected_from].
  assert (Hrest : h = None → ∀ kv', kv' ∈ kvs → level kv' ≤ 0).
  { intros Hn kv' Hin. apply Hh; [done|by right]. }
  destruct (Z.leb_spec (level kv) 0); cbn [orb].
  - cbn [mbind Result_bind foldR]. destruct (MAdd M kv m); cbn; [by apply IH|done].
  - destruct h as [h|]; [|specialize (Hh eq_refl kv ltac:(by left)); lia].
    cbn [mbind Result_bind]. destruct (Nat.eqb_spec i h) as [->|Hne].
    + rewrite bool_decide_true by done. cbn [foldR]. destruct (MAdd M kv m); cbn; [by apply IH|done].
    + rewrite bool_decide_false by (intros [=]; done). cbn. by apply IH.
Qed.

Lemma foldR_Add_lookup kvs s : foldR Add kvs s =
  Ok (mkState (merge_function_ s) (candidates_ s ++ kvs)
        (match last kvs with Some kv => Some (key kv) | None => current_key_ s end)
        (contain_level0_ s || existsb (λ kv, level kv =? 0) kvs)).
Proof.
  revert s; induction kvs as [|kv kvs IH]; intros s; cbn [foldR existsb].
  { destruct s; cbn. by rewrite app_nil_r, orb_false_r. }
  cbn [Add mbind Result_bind]. rewrite IH. cbn. rewrite <-app_assoc, last_cons. do 2 f_equal.
  - by destruct (last kvs).
  - destruct (level kv =? 0), (contain_level0_ s); done.
Qed.

Lemma GetResult_spec spec `{!Implements M spec} s :
  result_of (GetResult s) = spec (select (candidates_ s)).
Proof.
  unfold GetResult, result_of. rewrite GetResult_loop_selected.
  - rewrite <-(merge_run_spec (M := M) (spec := spec) _ (merge_function_ s)).
    unfold merge_run, run_from, result_of. fold (select (candidates_ s)).
    destruct (foldR _ _ _) as [m|]; cbn; [|done]. by destruct (MGetResult M m).
  - intros Hn. pose proof (PickHighLevelIdx_spec (candidates_ s)) as Hp. by rewrite Hn in Hp.
Qed.

#[global] Instance implements spec `{!Implements M spec} : Implements fn (λ kvs, spec (select kvs)).
Proof.
  intros kvs s. unfold merge_run, run_from. cbn [fn MReset MAdd MGetResult].
  rewrite foldR_Add_lookup. cbn [mbind Result_bind]. by rewrite (GetResult_spec spec).
Qed.

Lemma selected_from_low i h kvs :
  filter (λ kv, level kv ≤ 0) (selected_from i h kvs) = filter (λ kv, level kv ≤ 0) kvs.
Proof.
  revert i; induction kvs as [|kv kvs IH]; intros i; cbn [selected_from]; [done|].
  destruct (Z.leb_spec (level kv) 0); cbn [orb].
  - by rewrite !filter_cons, !decide_True, IH by done.
  - rewrite (filter_cons _ kv kvs), decide_False by lia.
    case_bool_decide; [rewrite filter_cons, decide_False by lia|]; apply IH.
Qed.

Lemma selected_from_high i h kvs :
  filter (λ kv, 0 < level kv) (selected_from i h kvs) =
  match h with
  | Some h => if decide (i ≤ h)%nat
              then filter (λ kv, 0 < level kv) (option_list (kvs !! (h - i)%nat)) else []
  | None => []
  end.
Proof.
  revert i; induction kvs as [|kv kvs IH]; intros i; cbn [selected_from].
  { destruct h; [|done]. by case_decide; rewrite ?lookup_nil. }
  assert (Hskip : h ≠ Some i → match h with
    | Some h => if decide (S i ≤ h)%nat
              then filter (λ kv, 0 < level kv) (option_list (kvs !! (h - S i)%nat)) else []
    | None => [] end = match h with
    | Some h => if decide (i ≤ h)%nat
              then filter (λ kv, 0 < level kv) (option_list ((kv :: kvs) !! (h - i)%nat)) else []
    | None => [] end).
  { destruct h as [h|]; [|done]. intros Hne. repeat case_decide; try lia; try done.
    - by replace (h - i)%nat with (S (h - S i)) by lia.
    - assert (h = i) as -> by lia. done. }
  case_bool_decide as Hi.
  - subst h. rewrite orb_true_r, filter_cons, IH.
    rewrite (decide_True (P := (i ≤ i)%nat)) by lia. rewrite Nat.sub_diag.
    rewrite (decide_False (P := (S i ≤ i)%nat)) by lia.
    change (option_list ((kv :: kvs) !! 0%nat)) with [kv]. by rewrite filter_cons.
  - rewrite orb_false_r. destruct (Z.leb_spec (level kv) 0).
    + rewrite filter_cons, decide_False by lia. rewrite IH. auto.
    + rewrite IH. auto.
Qed.
End Lookup.
Arguments mkState {M} _ _ _ _.
Arguments merge_function_ {M} _.
Arguments candidates_ {M} _.
Arguments current_key_ {M} _.
Arguments contain_level0_ {M} _.
Arguments ContainLevel0 {M} _.
Arguments GetKey {M} _.
Arguments PickHighLevel {M} _.
Arguments InsertInto {M} _ _ _.

(** C33. A lookup merge passes on to the merge function it wraps, in order, all
    records of the write buffer and of level 0 and, of the records of higher
    levels, exactly the first one of the lowest such level; the result does not
    depend on earlier keys. *)
Theorem lookup_merge_selects (M : MergeFn KeyValue) spec (kvs : list KeyValue) (s : State M) :
  Implements M spec →
  ∃ sel, result_of (merge_run (fn M) kvs s) = spec sel ∧
    filter (λ kv, level kv ≤ 0) sel = filter (λ kv, level kv ≤ 0) kvs ∧
    match filter (λ kv, 0 < level kv) sel with
    | [] => ∀ kv, kv ∈ kvs → level kv ≤ 0
    | [kv] => ∃ h, kvs !! h = Some kv ∧ is_pick kvs h (level kv)
    | _ => False
    end.
Proof.
  intros HM. exists (select kvs). split_and!; [apply implements; apply HM|apply selected_from_low|].
  unfold select. rewrite selected_from_high. pose proof (PickHighLevelIdx_spec kvs) as Hp.
  destruct (PickHighLevelIdx kvs) as [h|]; [|done].
  destruct Hp as (l&((kv&Hkv&<-)&Hpos&Hmin)). rewrite decide_True by lia. rewrite Nat.sub_0_r, Hkv.
  change (option_list (Some kv)) with [kv]. rewrite filter_cons, decide_True by done. cbn match.
  exists h. split; [done|]. split_and!; eauto.
Qed.

Definition example_kvs : list KeyValue :=
  [mkKeyValue RowKind.Insert 1 3 [VInt 1] [VInt 10]; mkKeyValue RowKind.Insert 2 2 [VInt 1] [VInt 20];
   mkKeyValue RowKind.Insert 3 0 [VInt 1] [VInt 30]].

Definition example_state : State (Deduplicate.fn false) :=
  @mkState (Deduplicate.fn false) None [] None false.

Lemma lookup_merge_selects_witness :
  ∃ sel, result_of (merge_run (fn (Deduplicate.fn false)) example_kvs example_state) =
         Deduplicate.spec false sel ∧
    filter (λ kv, level kv ≤ 0) sel = filter (λ kv, level kv ≤ 0) example_kvs ∧
    match filter (λ kv, 0 < level kv) sel with
    | [] => ∀ kv, kv ∈ example_kvs → level kv ≤ 0
    | [kv] => ∃ h, example_kvs !! h = Some kv ∧ is_pick example_kvs h (level kv)
    | _ => False
    end.
Proof.
  exact (lookup_merge_selects (Deduplicate.fn false) _ example_kvs example_state
           (Deduplicate.implements false)).
Defined.
End Lookup.

(** ** ReducerMergeFunctionWrapper *)

Module Reducer.
Section Reducer.
Context (M : MergeFn KeyValue).

Record State := mkState {
  merge_function_ : MState M;
  initial_kv_ : option KeyValue;
  is_initialized_ : bool
}.

Definition Reset (s : State) : State := mkState (MReset M (merge_function_ s)) None false.
Definition Add (kv : KeyValue) (s : State) : Result State :=
  match initial_kv_ s with
  | None => Ok (mkState (merge_function_ s) (Some kv) (is_initialized_ s))
  | Some initial =>
      m ← (if is_initialized_ s then Ok (merge_function_ s) else MAdd M initial (merge_function_ s));
      m ← MAdd M kv m;
      Ok (mkState m (initial_kv_ s) true)
  end.
Definition GetResult (s : State) : Result (option KeyValue * State) :=
  if is_initialized_ s then
    r ← MGetResult M (merge_function_ s);
    Ok (fst r, Reset (mkState (snd r) (initial_kv_ s) (is_initialized_ s)))
  else Ok (initial_kv_ s, Reset s).

Definition fn : MergeFn KeyValue := mkMergeFn Reset Add GetResult.

(** A single record is returned as it is. *)
Definition spec (inner : list KeyValue → Result (option KeyValue)) (kvs : list KeyValue)
    : Result (option KeyValue) :=
  match kvs with
  | [] => Ok None
  | [kv] => Ok (Some kv)
  | _ => inner kvs
  end.

Lemma foldR_Add_reducer kvs m kv : foldR Add kvs (mkState m (Some kv) true) =
  (m' ← foldR (MAdd M) kvs m; Ok (mkState m' (Some kv) true)).
Proof.
  revert m; induction kvs as [|kv' kvs IH]; intros m; [done|]. cbn.
  destruct (MAdd M kv' m); cbn; [apply IH|done].
Qed.

#[global] Instance implements inner `{!Implements M inner} : Implements fn (spec inner).
Proof.
  intros [|kv1 [|kv2 kvs]] s; [done..|]. cbn [spec].
  rewrite <-(merge_run_spec (M := M) (kv1 :: kv2 :: kvs) (merge_function_ s)).
  unfold merge_run, run_from. cbn [fn MReset MAdd MGetResult foldR].
  cbn [Add Reset initial_kv_ is_initialized_ merge_function_ mbind Result_bind].
  destruct (MAdd M kv1 _) as [m1|]; cbn; [|done].
  destruct (MAdd M kv2 m1) as [m2|]; cbn; [|done]. rewrite foldR_Add_reducer.
  destruct (foldR (MAdd M) kvs m2) as [m3|]; cbn; [|done]. by destruct (MGetResult M m3).
Qed.
End Reducer.
End Reducer.

(** The reducer wrapper around any merge function: one record is passed
    through, several are merged by the wrapped function, independently of the
    keys merged before; and with the deduplicating function a key keeps its last
    record, ignored retractions aside. *)
Theorem reducer_deduplicate ignore_delete kvs s :
  result_of (merge_run (Reducer.fn (Deduplicate.fn ignore_delete)) kvs s) =
  Ok (match kvs with
      | [kv] => Some kv
      | _ => last (filter (λ kv, ignore_delete && is_retract kv = false) kvs)
      end).
Proof.
  rewrite (Reducer.implements (Deduplicate.fn ignore_delete) (Deduplicate.spec ignore_delete)).
  by destruct kvs as [|? [|]].
Qed.
