(* ===== verification/MergeRead.v ===== *)
(** * Reading a merge tree

    What a client of the sort-merge readers gets. Both implementations return
    the records of the specification of SortMergeProofs.v; with the
    deduplicating merge function and [DropDeleteReader] on top, a read returns
    the latest version of every key that has not been deleted. *)

From stdpp Require Import base list strings sorting.
From Stdlib Require Import ZArith Lia.
From S2P Require Import Prelude Rows KeyValues Readers LoserTree LoserTreeProofs SortMerge SortMergeProofs MergeFunctions.
Local Open Scope Z_scope.

Section Readers.
Context (ukc : InternalRow → InternalRow → Z) (usc : option (InternalRow → InternalRow → Z)).

(** A sorted run: batches of records in strictly ascending key order. *)
Definition sorted_run (bs : list (list KeyValue)) : Prop :=
  StronglySorted (@klt KeyValue (key_compare ukc)) (concat bs).
(** All records of the runs. *)
Definition records (batches : list (list (list KeyValue))) : list KeyValue :=
  concat (map (@concat _) batches).
(** The specification: sort, group, merge. *)
Definition merged (spec : list KeyValue → Result (option KeyValue)) (l : list KeyValue) : Result (list KeyValue) :=
  merge_groups spec (group_by_key ukc (sorted_records ukc usc l)).

Lemma reads_list_reader_of batches : reads_list (reader_of <$> batches) = records batches.
Proof. unfold reads_list, records. induction batches as [|bs bss IH]; cbn; [done|]. by rewrite rd_list_reader_of, IH. Qed.

Context {OK : ComparatorsOK ukc usc}.
Context (M : MergeFn KeyValue) (spec : list KeyValue → Result (option KeyValue)) {HM : Implements M spec}.
Context (batches : list (list (list KeyValue))) (Hrun : Forall sorted_run batches).
Context (Hties : no_ties ukc usc (records batches)).
Context (F fuel : nat) (HF : (length (records batches) < F)%nat) (Hfuel : (2 * length (records batches) < fuel)%nat).
Context {A : Type} (f : A → KeyValue → A) (acc : A) (m : MState M).

Context (asserts : bool) (Hdistinct : asserts = true → runs_distinct ukc usc batches).

Lemma loser_started : (1 ≤ length batches)%nat →
  loser_start ukc M batches F (WithLoserTree.create M (reader_of <$> batches) m) (records batches).
Proof. intros Hn. by left. Qed.

Lemma heap_started :
  heap_start ukc usc M F (WithMinHeap.create (reader_of <$> batches) m) (records batches).
Proof.
  split_and!; [done|by split; constructor| | |done]; cbn.
  - apply Forall_fmap. eapply Forall_impl; [exact Hrun|]. intros bs Hb. split; [by exists bs|].
    by rewrite rd_list_reader_of.
  - change (records batches ≡ₚ reads_list (reader_of <$> batches)). by rewrite reads_list_reader_of.
Qed.

Lemma loser_consume : (1 ≤ length batches)%nat →
  consume (WithLoserTree.reader ukc usc asserts M F) f fuel acc (WithLoserTree.create M (reader_of <$> batches) m) =
  (out ← merged spec (records batches); Ok (foldl f acc out)).
Proof.
  intros Hn. destruct (simulates_consume ukc usc spec _ _ _ (HS := loser_simulates ukc usc M spec asserts batches Hn Hdistinct F)
    f _ _ acc fuel (loser_started Hn) Hfuel) as (gs&Hg&->).
  by rewrite (grouped_unique ukc usc gs _ Hties Hg).
Qed.
Lemma heap_consume :
  consume (WithMinHeap.merge_reader ukc usc M F) f fuel acc (WithMinHeap.create (reader_of <$> batches) m) =
  (out ← merged spec (records batches); Ok (foldl f acc out)).
Proof.
  destruct (simulates_consume ukc usc spec _ _ _ (HS := heap_simulates ukc usc M spec F)
    f _ _ acc fuel heap_started Hfuel) as (gs&Hg&->).
  by rewrite (grouped_unique ukc usc gs _ Hties Hg).
Qed.
Lemma loser_consume_drop : (1 ≤ length batches)%nat →
  consume (DropDelete.reader (WithLoserTree.reader ukc usc asserts M F) F) f fuel acc
    (WithLoserTree.create M (reader_of <$> batches) m) =
  (out ← merged spec (records batches); Ok (foldl f acc (filter is_add out))).
Proof.
  intros Hn. destruct (simulates_consume_drop ukc usc spec _ _ _ (HS := loser_simulates ukc usc M spec asserts batches Hn Hdistinct F)
    f _ _ acc F fuel (loser_started Hn) Hfuel HF) as (gs&Hg&->).
  by rewrite (grouped_unique ukc usc gs _ Hties Hg).
Qed.
Lemma heap_consume_drop :
  consume (DropDelete.reader (WithMinHeap.merge_reader ukc usc M F) F) f fuel acc
    (WithMinHeap.create (reader_of <$> batches) m) =
  (out ← merged spec (records batches); Ok (foldl f acc (filter is_add out))).
Proof.
  destruct (simulates_consume_drop ukc usc spec _ _ _ (HS := heap_simulates ukc usc M spec F)
    f _ _ acc F fuel heap_started Hfuel HF) as (gs&Hg&->).
  by rewrite (grouped_unique ukc usc gs _ Hties Hg).
Qed.
End Readers.

(** ** Deduplicating reads *)

Section Latest.
Context (ukc : InternalRow → InternalRow → Z) (usc : option (InternalRow → InternalRow → Z)).
Context {OK : ComparatorsOK ukc usc}.
Context (ignore_delete : bool).

#[local] Instance latest_key : Comparator KeyValue := key_compare ukc.
#[local] Instance latest_key_laws : ComparatorLaws KeyValue := key_laws ukc usc.

Definition ignored (kv : KeyValue) : bool := ignore_delete && is_retract kv.

(** A record is visible if it adds a row and no record of its key that is not
    ignored is later. *)
Definition visible (l : list KeyValue) (kv : KeyValue) : Prop :=
  kv ∈ l ∧ is_add kv ∧
  ∀ kv', kv' ∈ l → keq kv kv' → ignored kv' = false → record_compare ukc usc kv' kv ≤ 0.

Definition latest (g : list KeyValue) : list KeyValue :=
  filter is_add (option_list (last (filter (λ kv, ignored kv = false) g))).

Abbreviation dedup_spec := (Reducer.spec (Deduplicate.spec ignore_delete)).

Lemma is_add_not_ignored kv : is_add kv → ignored kv = false.
Proof. rewrite is_add_retract. unfold ignored. destruct (is_retract kv); [by intros []|by rewrite andb_false_r]. Qed.

Lemma merge_groups_latest gs :
  ∃ out, merge_groups dedup_spec gs = Ok out ∧ filter is_add out = concat (map latest gs).
Proof.
  induction gs as [|g gs (out&IH&E)]; [by exists []|]. cbn [merge_groups map concat].
  assert (∃ o, dedup_spec g = Ok o ∧ filter is_add (option_list o) = latest g) as (o&->&Ho).
  { destruct g as [|x [|y g]]; [by exists None| |by eexists]. exists (Some x). split; [done|].
    unfold latest. rewrite filter_cons. destruct (ignored x) eqn:Ei.
    - rewrite decide_False by done. change (filter is_add [x] = []). rewrite filter_cons, decide_False; [done|].
      intros Ha. apply is_add_not_ignored in Ha. congruence.
    - by rewrite decide_True. }
  rewrite IH. cbn. eexists. split; [done|]. by rewrite filter_app, Ho, E.
Qed.

(** Within one group. *)
Lemma latest_group k ks kv : StronglySorted (@kle KeyValue (seq_compare usc)) (k :: ks) →
  Forall (keq k) (k :: ks) → no_ties ukc usc (k :: ks) →
  kv ∈ latest (k :: ks) ↔ visible (k :: ks) kv.
Proof.
  intros Hs Hk Ht. set (g := k :: ks) in *. unfold latest.
  assert (Hsame : ∀ a b, a ∈ g → b ∈ g → keq a b).
  { rewrite Forall_forall in Hk. intros a b Ha%Hk Hb%Hk. korder. }
  assert (Hrec : ∀ a b, a ∈ g → b ∈ g → record_compare ukc usc a b = seq_compare usc a b).
  { intros a b Ha Hb. unfold record_compare. destruct (Z.eqb_spec (key_compare ukc a b) 0) as [|E]; [done|].
    destruct E. exact (Hsame a b Ha Hb). }
  assert (Hmax : ∀ x y, last (filter (λ kv, ignored kv = false) g) = Some x → y ∈ g → ignored y = false →
            x ∈ g ∧ ignored x = false ∧ record_compare ukc usc y x ≤ 0).
  { intros x y Hl Hy Hi. pose proof (last_Some_elem_of _ _ Hl) as Hx. apply list_elem_of_filter in Hx as [Hxi Hx].
    split_and!; [done..|]. rewrite Hrec by done.
    change (@kle KeyValue (seq_compare usc) y x).
    eapply sorted_last_max; [| |exact Hl|by apply list_elem_of_filter].
    - intros a. apply (@kle_refl _ _ (seq_laws ukc usc)).
    - by apply sorted_filter. }
  split.
  - intros [Ha Hin]%list_elem_of_filter. apply list_elem_of_option in Hin.
    pose proof (last_Some_elem_of _ _ Hin) as Hg. apply list_elem_of_filter in Hg as [Hi Hg].
    split_and!; [done|done|]. intros kv' Hkv' _ Hi'. by apply (Hmax kv kv').
  - intros (Hin&Ha&Hm). apply list_elem_of_filter. split; [done|]. apply list_elem_of_option.
    pose proof (is_add_not_ignored kv Ha) as Hi.
    destruct (last (filter _ g)) as [x|] eqn:Hl.
    + destruct (Hmax x kv eq_refl Hin Hi) as (Hx&Hxi&Hle). f_equal. symmetry. apply Ht; [done..|].
      specialize (Hm x Hx (Hsame _ _ Hin Hx) Hxi).
      apply (@keq_le _ (record_compare ukc usc) (record_laws ukc usc)). by split.
    + apply last_None in Hl. assert (kv ∈ ([] : list KeyValue)) as []%elem_of_nil.
      rewrite <-Hl. by apply list_elem_of_filter.
Qed.

Lemma visible_perm l l' kv : l ≡ₚ l' → visible l kv → visible l' kv.
Proof. intros Hp (H1&H2&H3). split_and!; [by rewrite <-Hp|done|]. intros kv'. rewrite <-Hp. apply H3. Qed.

Lemma no_ties_incl (l l' : list KeyValue) : (∀ x, x ∈ l → x ∈ l') → no_ties ukc usc l' → no_ties ukc usc l.
Proof. intros Hi Ht a b Ha%Hi Hb%Hi. by apply Ht. Qed.

(** A record sees only the records of its own key. *)
Lemma visible_app_l g l kv : (∀ a b, a ∈ g → b ∈ l → klt a b) → kv ∈ g → visible (g ++ l) kv ↔ visible g kv.
Proof.
  intros Hlt Hg. split; intros (_&Ha&Hm); split_and!; try done; [|by apply elem_of_app; left|].
  - intros kv' Hin. apply Hm, elem_of_app. by left.
  - intros kv' [Hin|Hin]%elem_of_app Hk Hi; [by apply Hm|]. specialize (Hlt kv kv' Hg Hin). exfalso; korder.
Qed.
Lemma visible_app_r g l kv : (∀ a b, a ∈ g → b ∈ l → klt a b) → kv ∈ l → visible (g ++ l) kv ↔ visible l kv.
Proof.
  intros Hlt Hl. split; intros (_&Ha&Hm); split_and!; try done; [|by apply elem_of_app; right|].
  - intros kv' Hin. apply Hm, elem_of_app. by right.
  - intros kv' [Hin|Hin]%elem_of_app Hk Hi; [|by apply Hm]. specialize (Hlt kv' kv Hin Hl). exfalso; korder.
Qed.

Lemma latest_subset g kv : kv ∈ latest g → kv ∈ g.
Proof.
  unfold latest. intros [_ Hl%list_elem_of_option%last_Some_elem_of]%list_elem_of_filter.
  by apply list_elem_of_filter in Hl as [_ ?].
Qed.

Lemma latest_groups gs l : grouped ukc usc gs l → no_ties ukc usc l →
  StronglySorted klt (concat (map latest gs)) ∧ ∀ kv, kv ∈ concat (map latest gs) ↔ visible l kv.
Proof.
  induction 1 as [|k ks gs l l' Hp Hs Hk Hlt Hg IH]; intros Ht; cbn [map concat].
  { split; [constructor|]. intros kv. split; [by intros ?%elem_of_nil|by intros (?%elem_of_nil&_)]. }
  assert (Hall : Forall (keq k) (k :: ks)) by (constructor; [by apply cmp_refl|done]).
  assert (Hgl : ∀ a b, a ∈ k :: ks → b ∈ l' → klt a b).
  { assert (Hlt' : Forall (klt k) l') by exact Hlt. rewrite Forall_forall in Hall, Hlt'.
    intros a b Ha%Hall Hb%Hlt'. clear -Ha Hb OK. korder. }
  destruct IH as [Hsort Hvis].
  { eapply no_ties_incl; [|exact Ht]. intros x Hx. rewrite Hp. apply elem_of_app. by right. }
  assert (Hsub : ∀ x, x ∈ concat (map latest gs) → x ∈ l') by (intros x [? _]%Hvis; done).
  assert (Hties : no_ties ukc usc (k :: ks)).
  { eapply no_ties_incl; [|exact Ht]. intros x Hx. rewrite Hp. apply elem_of_app. by left. }
  split.
  - assert (Hone : latest (k :: ks) = [] ∨ ∃ x, latest (k :: ks) = [x]).
    { unfold latest. destruct (last _) as [x|]; [|by left]. change (option_list (Some x)) with [x].
      rewrite filter_cons. case_decide; [right; by exists x|by left]. }
    destruct Hone as [->|[x E]]; [done|]. rewrite E. cbn. constructor; [done|]. apply Forall_forall.
    intros y Hy%Hsub. apply Hgl; [|done]. apply latest_subset. rewrite E. by left.
  - intros kv. rewrite elem_of_app, Hvis, (latest_group k ks kv Hs Hall Hties). split.
    + intros [Hv|Hv]; (eapply visible_perm; [symmetry; exact Hp|]);
        [apply visible_app_l|apply visible_app_r]; try done; apply Hv.
    + intros Hv. apply (visible_perm _ _ _ Hp) in Hv. pose proof (proj1 Hv) as [Hin|Hin]%elem_of_app.
      * left. by apply (visible_app_l _ l').
      * right. by apply (visible_app_r (k :: ks)).
Qed.

Lemma merged_latest l : no_ties ukc usc l →
  ∃ out, merged ukc usc dedup_spec l = Ok out ∧
    StronglySorted klt (filter is_add out) ∧ ∀ kv, kv ∈ filter is_add out ↔ visible l kv.
Proof.
  intros Ht. destruct (grouped_exists ukc usc l) as [gs Hg]. unfold merged.
  rewrite <-(grouped_unique ukc usc gs l Ht Hg). destruct (merge_groups_latest gs) as (out&->&E).
  exists out. split; [done|]. rewrite E. by apply latest_groups.
Qed.
End Latest.

(** ** First-row reads *)

Section Conflicts.
Context (ukc : InternalRow → InternalRow → Z) (usc : option (InternalRow → InternalRow → Z)).
Context {OK : ComparatorsOK ukc usc}.

#[local] Instance conflict_key : Comparator KeyValue := key_compare ukc.
#[local] Instance conflict_key_laws : ComparatorLaws KeyValue := key_laws ukc usc.

(** Among the records are a retraction and another one of the same key. *)
Definition retracted_twice (l : list KeyValue) : Prop :=
  ∃ a b rest, l ≡ₚ a :: b :: rest ∧ keq a b ∧ is_retract a = true.

Definition refused (g : list KeyValue) : bool := (2 <=? length g)%nat && existsb is_retract g.

Lemma first_row_spec_ok ig g :
  is_ok (Reducer.spec (FirstRow.spec ig) g) = negb (negb ig && refused g).
Proof.
  destruct g as [|x [|y g]]; [by rewrite andb_false_r..|]. unfold refused. cbn [length Nat.leb andb Reducer.spec].
  unfold FirstRow.spec. by destruct (negb ig && existsb _ _).
Qed.

Lemma merge_groups_refused spec (refuses : list KeyValue → bool) gs : (∀ g, is_ok (spec g) = negb (refuses g)) →
  is_ok (merge_groups spec gs) = false ↔ ∃ g, g ∈ gs ∧ refuses g = true.
Proof.
  intros Hs. induction gs as [|g gs IH]; cbn; [by split; [|intros (?&?%elem_of_nil&_)]|].
  specialize (Hs g). destruct (spec g) as [o|c m]; cbn in Hs |- *.
  - assert (is_ok (l ← merge_groups spec gs; Ok (option_list o ++ l)) = is_ok (merge_groups spec gs)) as ->
      by (by destruct (merge_groups spec gs)).
    rewrite IH. split; [intros (x&Hx&E); exists x; by split; [right|]|].
    intros (x&[->|Hx]%elem_of_cons&E); [by rewrite E in Hs|by exists x].
  - split; [|done]. intros _. exists g. split; [by left|]. by destruct (refuses g).
Qed.

Lemma refused_group k ks l l' : l ≡ₚ (k :: ks) ++ l' → Forall (keq k) (k :: ks) → Forall (klt k) l' →
  retracted_twice l ↔ refused (k :: ks) = true ∨ retracted_twice l'.
Proof.
  intros Hp Hk Hlt. set (g := k :: ks) in *. rewrite Forall_forall in Hk, Hlt.
  assert (Hne : ∀ a b, a ∈ g → b ∈ l' → ¬ keq a b).
  { intros a b Ha%Hk Hb%Hlt E. korder. }
  unfold refused. rewrite andb_true_iff, Nat.leb_le, existsb_exists. setoid_rewrite <-list_elem_of_In. split.
  - intros (a&b&rest&Hl&Hab&Hr). rewrite Hp in Hl.
    assert (Ha : a ∈ g ++ l') by (rewrite Hl; by left). apply elem_of_app in Ha as [Ha|Ha].
    + left. apply elem_of_Permutation in Ha as [g' Hg]. rewrite Hg in Hl. cbn in Hl. apply Permutation_cons_inv in Hl.
      assert (Hb : b ∈ g' ++ l') by (rewrite Hl; by left). apply elem_of_app in Hb as [Hb|Hb].
      * split; [|exists a; split; [rewrite Hg; by left|done]]. rewrite Hg. cbn. destruct g'; [by apply elem_of_nil in Hb|cbn; lia].
      * exfalso. eapply Hne; [|exact Hb|exact Hab]. rewrite Hg. by left.
    + right. apply elem_of_Permutation in Ha as [l2 Hl2]. rewrite Hl2, <-Permutation_middle in Hl. apply Permutation_cons_inv in Hl.
      assert (Hb : b ∈ g ++ l2) by (rewrite Hl; by left). apply elem_of_app in Hb as [Hb|Hb].
      * exfalso. eapply (Hne b a); [done|rewrite Hl2; by left|by symmetry].
      * apply elem_of_Permutation in Hb as [l3 Hl3]. exists a, b, l3. by rewrite Hl2, Hl3.
  - intros [[Hlen (a&Ha&Hr)]|(a&b&rest&Hl&Hab&Hr)].
    + pose proof Ha as Ha'. apply elem_of_Permutation in Ha as [g' Hg]. rewrite Hg in Hlen. destruct g' as [|b g']; [cbn in Hlen; lia|].
      exists a, b, (g' ++ l'). split_and!; [by rewrite Hp, Hg| |done].
      assert (b ∈ g) as Hb%Hk by (rewrite Hg; right; by left). apply Hk in Ha'. korder.
    + exists a, b, (g ++ rest). split_and!; [|done|done]. rewrite Hp, Hl. by rewrite <-!Permutation_middle.
Qed.

Lemma grouped_refused gs l : grouped ukc usc gs l →
  (∃ g, g ∈ gs ∧ refused g = true) ↔ retracted_twice l.
Proof.
  induction 1 as [|k ks gs l l' Hp Hs Hk Hlt Hg IH].
  { split; [intros (?&?%elem_of_nil&_); done|]. intros (a&b&rest&H%Permutation_nil_l&_). done. }
  rewrite (refused_group k ks l l' Hp), <-IH; [|constructor; [by apply cmp_refl|exact Hk]|exact Hlt]. split.
  - intros (g&[->|Hg']%elem_of_cons&E); [by left|right; by exists g].
  - intros [E|(g&Hg'&E)]; [exists (k :: ks); by split; [left|]|exists g; by split; [right|]].
Qed.

Lemma first_row_groups ig gs l : grouped ukc usc gs l →
  is_ok (merge_groups (Reducer.spec (FirstRow.spec ig)) gs) = false ↔ ig = false ∧ retracted_twice l.
Proof.
  intros Hg. rewrite <-(grouped_refused gs l Hg), (merge_groups_refused _ (λ g, negb ig && refused g) gs (first_row_spec_ok ig)).
  cbn beta. destruct ig; cbn; [split; [by intros (?&_&?)|by intros [? _]]|]. split; [done|by intros [_ ?]].
Qed.
End Conflicts.

(** ** Theorems *)

(** C3. A read through the loser tree returns what the specification says:
    all records of the runs sorted by key and sequence, grouped by key, each
    group merged by the merge function, and the first error of the merge
    function, if any. It terminates, and none of the states in which the loser
    tree would assert, index out of bounds or read a moved-from record is
    reached. The runs are ascending in key, there is at least one, and no two
    different records have the same key and sequence. Where asserts are compiled
    in, the second comparator asserts that the records it decides between have
    different sequence numbers; it is not violated if no two records of
    different runs have the same key and sequence. *)
Theorem loser_tree_reader_merges ukc usc asserts (M : MergeFn KeyValue) spec batches F fuel m :
  ComparatorsOK ukc usc → Implements M spec → (1 ≤ length batches)%nat →
  Forall (sorted_run ukc) batches → no_ties ukc usc (records batches) →
  (asserts = true → runs_distinct ukc usc batches) →
  (length (records batches) < F)%nat → (2 * length (records batches) < fuel)%nat →
  read_all (WithLoserTree.reader ukc usc asserts M F) fuel (WithLoserTree.create M (reader_of <$> batches) m) =
  merged ukc usc spec (records batches).
Proof.
  intros OK HM Hn Hrun Ht Hd HF Hf. unfold read_all. rewrite (loser_consume ukc usc M spec) by done.
  destruct (merged ukc usc spec (records batches)) as [out|]; cbn; [|done]. by rewrite foldl_snoc.
Qed.

(** C26. The two sort-merge readers are interchangeable: whatever a client
    folds over the records, it gets the same result, or the same error, from
    the loser tree and from the min-heap. Where asserts are compiled in, records
    of different runs differ in key or sequence. *)
Theorem sort_merge_readers_agree ukc usc asserts (M : MergeFn KeyValue) spec batches F fuel m m' {A} (f : A → KeyValue → A) acc :
  ComparatorsOK ukc usc → Implements M spec → (1 ≤ length batches)%nat →
  Forall (sorted_run ukc) batches → no_ties ukc usc (records batches) →
  (asserts = true → runs_distinct ukc usc batches) →
  (length (records batches) < F)%nat → (2 * length (records batches) < fuel)%nat →
  consume (WithLoserTree.reader ukc usc asserts M F) f fuel acc (WithLoserTree.create M (reader_of <$> batches) m) =
  consume (WithMinHeap.merge_reader ukc usc M F) f fuel acc (WithMinHeap.create (reader_of <$> batches) m').
Proof.
  intros OK HM Hn Hrun Ht Hd HF Hf.
  by rewrite (loser_consume ukc usc M spec), (heap_consume ukc usc M spec) by done.
Qed.

(** C5. A read of a deduplicating table returns the latest version of every
    key: the keys of the result are strictly ascending, and a record is
    returned if and only if it adds a row and no record of its key that counts
    is later, where retractions count unless they are ignored. [CountAll]
    counts these records. Where asserts are compiled in, records of different
    runs differ in key or sequence. *)
Theorem merge_read_returns_latest ukc usc asserts ignore_delete batches F fuel m :
  ComparatorsOK ukc usc → (1 ≤ length batches)%nat →
  Forall (sorted_run ukc) batches → no_ties ukc usc (records batches) →
  (asserts = true → runs_distinct ukc usc batches) →
  (length (records batches) < F)%nat → (2 * length (records batches) < fuel)%nat →
  let M := Reducer.fn (Deduplicate.fn ignore_delete) in
  let R := DropDelete.reader (WithLoserTree.reader ukc usc asserts M F) F in
  let s := WithLoserTree.create M (reader_of <$> batches) m in
  ∃ out, read_all R fuel s = Ok out ∧ CountAll R fuel s = Ok (Z.of_nat (length out)) ∧
    StronglySorted (λ a b, ukc (key a) (key b) < 0) out ∧
    ∀ kv, kv ∈ out ↔ visible ukc usc ignore_delete (records batches) kv.
Proof.
  intros OK Hn Hrun Ht Hd HF Hf M R s.
  destruct (merged_latest ukc usc ignore_delete (records batches) Ht) as (out&E&Hs&Hv).
  exists (filter is_add out). unfold read_all, CountAll, R, s.
  rewrite !(loser_consume_drop ukc usc M (Reducer.spec (Deduplicate.spec ignore_delete))) by done.
  rewrite E. cbn [mbind Result_bind]. rewrite foldl_snoc, foldl_count. by split_and!.
Qed.

(** C27. A read of a first-row table fails if and only if deletions are not
    ignored and some key has a retraction among two or more records; no other
    condition makes the read fail, and a retraction that is the only record of
    its key does not. This holds of both sort-merge readers, of the one with the
    loser tree under its conditions. *)
Theorem first_row_read_fails ukc usc asserts ignore_delete batches F fuel m :
  ComparatorsOK ukc usc → Forall (sorted_run ukc) batches → no_ties ukc usc (records batches) →
  (length (records batches) < F)%nat → (2 * length (records batches) < fuel)%nat →
  let M := Reducer.fn (FirstRow.fn ignore_delete) in
  let fails (r : Result (list KeyValue)) := is_ok r = false ↔ ignore_delete = false ∧ retracted_twice ukc (records batches) in
  fails (read_all (WithMinHeap.merge_reader ukc usc M F) fuel (WithMinHeap.create (reader_of <$> batches) m)) ∧
  ((1 ≤ length batches)%nat → (asserts = true → runs_distinct ukc usc batches) →
   fails (read_all (WithLoserTree.reader ukc usc asserts M F) fuel (WithLoserTree.create M (reader_of <$> batches) m))).
Proof.
  intros OK Hrun Ht HF Hf M fails. set (spec := Reducer.spec (FirstRow.spec ignore_delete)).
  assert (Hfails : fails (out ← merged ukc usc spec (records batches); Ok (foldl (λ l kv, l ++ [kv]) [] out))).
  { subst fails. cbn beta. destruct (grouped_exists ukc usc (records batches)) as [gs Hg].
    rewrite <-(first_row_groups ukc usc ignore_delete gs _ Hg).
    unfold merged. rewrite <-(grouped_unique ukc usc gs _ Ht Hg). fold spec. by destruct (merge_groups spec gs). }
  split; [|intros Hn Hd]; unfold read_all.
  - by rewrite (heap_consume ukc usc M spec).
  - by rewrite (loser_consume ukc usc M spec).
Qed.

(** *** Witnesses *)

(** One integer key column; no user-defined sequence. *)
Definition example_comparator (a b : InternalRow) : Z :=
  match Create [INT32] true with Ok c => CompareRows c a b | Err _ _ => 0 end.
Lemma example_comparators_ok : ComparatorsOK example_comparator None.
Proof. split; [|done]. by apply (Create_laws [INT32] true _ ltac:(repeat constructor) eq_refl). Defined.

Definition example_record (k seq : Z) (kind : RowKind.RowKind) : KeyValue :=
  mkKeyValue kind seq 0 [VInt k] [VInt seq].
Definition example_runs : list (list (list KeyValue)) :=
  [[[example_record 1 5 RowKind.Insert]; [example_record 2 6 RowKind.Delete]];
   [[example_record 1 1 RowKind.Insert; example_record 2 2 RowKind.Insert]; []; [example_record 3 3 RowKind.Insert]];
   [[]]].
Lemma example_runs_sorted : Forall (sorted_run example_comparator) example_runs.
Proof. repeat constructor. Defined.
Lemma example_runs_no_ties : no_ties example_comparator None (records example_runs).
Proof.
  intros a b Ha Hb. cbn in Ha, Hb.
  repeat (apply elem_of_cons in Ha as [->|Ha]); [..|by apply elem_of_nil in Ha];
    repeat (apply elem_of_cons in Hb as [->|Hb]); try done; by apply elem_of_nil in Hb.
Defined.

Lemma example_runs_distinct : true = true → runs_distinct example_comparator None example_runs.
Proof.
  intros _ i j bi bj a b Hij Hi Hj. destruct i as [|[|[|i]]], j as [|[|[|j]]]; try done;
    injection Hi as <-; injection Hj as <-; intros Ha Hb; cbn in Ha, Hb;
    repeat (apply elem_of_cons in Ha as [->|Ha]); try (by apply elem_of_nil in Ha);
    repeat (apply elem_of_cons in Hb as [->|Hb]); try (by apply elem_of_nil in Hb); vm_compute; discriminate.
Defined.

Definition example_dedup := Reducer.fn (Deduplicate.fn false).
Definition example_dedup_state : MState example_dedup := Reducer.mkState (Deduplicate.fn false) None None false.
Lemma loser_tree_reader_merges_witness :
  read_all (WithLoserTree.reader example_comparator None true example_dedup 10) 20
    (WithLoserTree.create example_dedup (reader_of <$> example_runs) example_dedup_state) =
  Ok [example_record 1 5 RowKind.Insert; example_record 2 6 RowKind.Delete; example_record 3 3 RowKind.Insert].
Proof.
  rewrite (loser_tree_reader_merges example_comparator None true example_dedup
    (Reducer.spec (Deduplicate.spec false)) example_runs 10 20 example_dedup_state example_comparators_ok
    (Reducer.implements _ _) ltac:(cbn; lia) example_runs_sorted example_runs_no_ties example_runs_distinct
    ltac:(cbn; lia) ltac:(cbn; lia)).
  vm_compute. reflexivity.
Defined.

(** A record that two runs have violates the assert of the second comparator;
    without asserts one of the copies is merged after the other. *)
Definition example_copies : list (list (list KeyValue)) :=
  [[[example_record 1 5 RowKind.Insert]]; [[example_record 1 5 RowKind.Insert]]].
Example loser_tree_asserts :
  let read asserts := read_all (WithLoserTree.reader example_comparator None asserts example_dedup 10) 20
                        (WithLoserTree.create example_dedup (reader_of <$> example_copies) example_dedup_state) in
  read true = Err UnknownError "assert" ∧ read false = Ok [example_record 1 5 RowKind.Insert].
Proof. split; vm_compute; reflexivity. Qed.

Lemma sort_merge_readers_agree_witness :
  consume (WithLoserTree.reader example_comparator None true example_dedup 10) (λ l kv, l ++ [kv]) 20 []
    (WithLoserTree.create example_dedup (reader_of <$> example_runs) example_dedup_state) =
  consume (WithMinHeap.merge_reader example_comparator None example_dedup 10) (λ l kv, l ++ [kv]) 20 []
    (WithMinHeap.create (reader_of <$> example_runs) example_dedup_state).
Proof.
  exact (sort_merge_readers_agree example_comparator None true example_dedup
    (Reducer.spec (Deduplicate.spec false)) example_runs 10 20 example_dedup_state example_dedup_state
    (λ l kv, l ++ [kv]) [] example_comparators_ok (Reducer.implements _ _) ltac:(cbn; lia) example_runs_sorted
    example_runs_no_ties example_runs_distinct ltac:(cbn; lia) ltac:(cbn; lia)).
Defined.

Lemma merge_read_returns_latest_witness :
  let R := DropDelete.reader (WithLoserTree.reader example_comparator None true example_dedup 10) 10 in
  let s := WithLoserTree.create example_dedup (reader_of <$> example_runs) example_dedup_state in
  ∃ out, read_all R 20 s = Ok out ∧ CountAll R 20 s = Ok (Z.of_nat (length out)) ∧
    StronglySorted (λ a b, example_comparator (key a) (key b) < 0) out ∧
    ∀ kv, kv ∈ out ↔ visible example_comparator None false (records example_runs) kv.
Proof.
  exact (merge_read_returns_latest example_comparator None true false example_runs 10 20 example_dedup_state
    example_comparators_ok ltac:(cbn; lia) example_runs_sorted example_runs_no_ties example_runs_distinct ltac:(cbn; lia) ltac:(cbn; lia)).
Defined.

Lemma first_row_read_fails_witness :
  let M := Reducer.fn (FirstRow.fn false) in
  let m := Reducer.mkState (FirstRow.fn false) (FirstRow.mkState false None) None false in
  is_ok (read_all (WithLoserTree.reader example_comparator None true M 10) 20
           (WithLoserTree.create M (reader_of <$> example_runs) m)) = false ∧
  retracted_twice example_comparator (records example_runs).
Proof.
  destruct (first_row_read_fails example_comparator None true false example_runs 10 20
    (Reducer.mkState (FirstRow.fn false) (FirstRow.mkState false None) None false)
    example_comparators_ok example_runs_sorted example_runs_no_ties ltac:(cbn; lia) ltac:(cbn; lia)) as [_ H].
  specialize (H ltac:(cbn; lia) example_runs_distinct). cbn zeta in H |- *.
  split; [vm_compute; reflexivity|]. apply H. vm_compute. reflexivity.
Defined.
