(* ===== verification/StateError.v ===== *)
(** * Methods with state and errors

    Methods of stateful objects that return [Status] or [Result]: the state is
    changed also when they fail. [ScopeGuard]s run a clean-up on failure
    (src/paimon/common/utils/scope_guard.h). [wp] is the weakest precondition
    of a method for a postcondition on success and one on failure. *)

From stdpp Require Import base list strings.
From S2P Require Import Prelude.

Definition M (S A : Type) : Type := S → Result A * S.

#[export] Instance M_ret {S} : MRet (M S) := λ _ a s, (Ok a, s).
#[export] Instance M_bind {S} : MBind (M S) := λ _ _ k m s,
  match m s with (Ok a, s') => k a s' | (Err c e, s') => (Err c e, s') end.
Definition fail {S A} (c : StatusCode) (e : string) : M S A := λ s, (Err c e, s).
(** A result that is computed without the state. *)
Definition of_result {S A} (r : Result A) : M S A := λ s, (r, s).
Definition gets {S A} (f : S → A) : M S A := λ s, (Ok (f s), s).
Definition modify {S} (f : S → S) : M S unit := λ s, (Ok (), f s).

(** A [ScopeGuard] that is released when the block succeeds. *)
Definition guarded {S A} (cleanup : S → S) (m : M S A) : M S A := λ s,
  match m s with (Ok a, s') => (Ok a, s') | (Err c e, s') => (Err c e, cleanup s') end.

(** A loop that calls a method for every element. *)
Fixpoint for_each {S A} (f : A → M S unit) (l : list A) : M S unit :=
  match l with [] => mret () | x :: l' => _ ← f x; for_each f l' end.

Definition wp {S A} (m : M S A) (Q : A → S → Prop) (E : S → Prop) (s : S) : Prop :=
  match m s with (Ok a, s') => Q a s' | (Err _ _, s') => E s' end.

Section Wp.
Context {S : Type}.
Implicit Types s : S.

Lemma wp_mono {A} (m : M S A) (Q Q' : A → S → Prop) (E E' : S → Prop) s :
  wp m Q E s → (∀ a s', Q a s' → Q' a s') → (∀ s', E s' → E' s') → wp m Q' E' s.
Proof. unfold wp. destruct (m s) as [[a|c e] s']; auto. Qed.

Lemma wp_ret {A} (a : A) (Q : A → S → Prop) E s : Q a s → wp (mret a) Q E s.
Proof. done. Qed.

Lemma wp_bind {A B} (m : M S A) (k : A → M S B) Q E s :
  wp m (λ a, wp (k a) Q E) E s → wp (m ≫= k) Q E s.
Proof. unfold wp, mbind, M_bind. by destruct (m s) as [[a|c e] s']. Qed.

Lemma wp_fail {A} c e (Q : A → S → Prop) (E : S → Prop) s : E s → wp (fail c e) Q E s.
Proof. done. Qed.

Lemma wp_of_result {A} (r : Result A) (Q : A → S → Prop) (E : S → Prop) s : (∀ a, r = Ok a → Q a s) → (is_ok r = false → E s) → wp (of_result r) Q E s.
Proof. intros HQ HE. unfold wp, of_result. destruct r; auto. Qed.

(** Runs that succeed. *)
Lemma bind_M_Ok {A B} (m : M S A) (k : A → M S B) s b s' : (m ≫= k) s = (Ok b, s') → ∃ a s1, m s = (Ok a, s1) ∧ k a s1 = (Ok b, s').
Proof. unfold mbind, M_bind. destruct (m s) as [[a|c e] s1]; [|done]. intros H. by exists a, s1. Qed.
Lemma of_result_Ok {A} (r : Result A) s a s' : of_result r s = (Ok a, s') → r = Ok a ∧ s' = s.
Proof. unfold of_result. by intros [= -> ->]. Qed.

Lemma wp_gets {A} (f : S → A) Q E s : Q (f s) s → wp (gets f) Q E s.
Proof. done. Qed.

Lemma wp_modify (f : S → S) Q E s : Q () (f s) → wp (modify f) Q E s.
Proof. done. Qed.

Lemma wp_guarded {A} cleanup (m : M S A) Q (E : S → Prop) s :
  wp m Q (λ s', E (cleanup s')) s → wp (guarded cleanup m) Q E s.
Proof. unfold wp, guarded. by destruct (m s) as [[a|c e] s']. Qed.

Lemma wp_for_each {A} (f : A → M S unit) (I : list A → S → Prop) (E : S → Prop) (l done_ : list A) s :
  I done_ s → (∀ d x s', x ∈ l → I d s' → wp (f x) (λ _, I (d ++ [x])) E s') →
  wp (for_each f l) (λ _, I (done_ ++ l)) E s.
Proof.
  intros H Hf. revert done_ s H. induction l as [|x l IH]; intros d s H; simpl.
  - by apply wp_ret; rewrite app_nil_r.
  - apply wp_bind. eapply wp_mono; [apply Hf; [by left|done]| |done]. intros [] s' H'.
    specialize (IH (λ d y s1 Hy, Hf d y s1 (list_elem_of_further _ _ _ Hy)) _ _ H'). by rewrite <-(assoc_L app) in IH.
Qed.
End Wp.

(** One step of symbolic execution. *)
Ltac wp_step :=
  lazymatch goal with
  | |- wp (_ ≫= _) _ _ _ => apply wp_bind
  | |- wp (mret _) _ _ _ => apply wp_ret
  | |- wp (fail _ _) _ _ _ => apply wp_fail
  | |- wp (gets _) _ _ _ => apply wp_gets
  | |- wp (modify _) _ _ _ => apply wp_modify
  | |- wp (guarded _ _) _ _ _ => apply wp_guarded
  end; cbn beta iota.
