(* ===== verification/Paths.v ===== *)
(** * Paths

    [PathUtil] (src/paimon/common/utils/path_util.cpp) and the names given out
    by [DataFilePathFactory] (src/paimon/core/io/data_file_path_factory.h). *)

From stdpp Require Import base list strings pretty.
From Stdlib Require Import ZArith Lia Ascii String.
From S2P Require Import Prelude.
Local Open Scope Z_scope.

Definition slash : ascii := "/"%char.
Definition is_slash (c : ascii) : bool := Ascii.eqb c slash.
Definition chars : string → list ascii := list_ascii_of_string.
Definition text : list ascii → string := string_of_list_ascii.

Fixpoint take_while {A} (p : A → bool) (l : list A) : list A :=
  match l with [] => [] | x :: l' => if p x then x :: take_while p l' else [] end.
Fixpoint drop_while {A} (p : A → bool) (l : list A) : list A :=
  match l with [] => [] | x :: l' => if p x then drop_while p l' else l end.

Module PathUtil.
Definition TrimLastDelim (dir_path : string) : string :=
  match rev (chars dir_path) with
  | c :: (_ :: _ as r) => if is_slash c then text (rev r) else dir_path
  | _ => dir_path
  end.

Definition GetName (path : string) : string :=
  text (rev (take_while (λ c, negb (is_slash c)) (rev (chars (TrimLastDelim path))))).

Definition GetParentDirPath (path : string) : string :=
  text (rev (drop_while is_slash (drop_while (λ c, negb (is_slash c)) (drop_while is_slash (rev (chars path)))))).

Definition JoinPath (path name : string) : string :=
  match rev (chars path), chars name with
  | [], _ => name
  | _, [] => path
  | p :: _, n :: name' =>
      if is_slash p then if is_slash n then path +:+ text name' else path +:+ name
      else if is_slash n then path +:+ name else path +:+ "/" +:+ name
  end.

Fixpoint NormalizeInner_loop (last_char : ascii) (l : list ascii) : list ascii :=
  match l with
  | [] => []
  | c :: l' =>
      if is_slash last_char && is_slash c then NormalizeInner_loop last_char l'
      else c :: NormalizeInner_loop c l'
  end.
Definition NormalizeInnerPath (path : string) : string :=
  match chars path with
  | [] => path
  | c :: l => TrimLastDelim (text (c :: NormalizeInner_loop c l))
  end.

Record Path := mkPath { scheme : string; authority : string; path : string }.
Definition ToString (p : Path) : string :=
  (if (scheme p =? "")%string then "" else scheme p +:+ ":") +:+
  (if (authority p =? "")%string then "" else "//" +:+ authority p) +:+ path p.

Definition colon : ascii := ":"%char.
(** The scheme is what precedes a colon that no slash precedes. *)
Fixpoint split_scheme (l : list ascii) : option (list ascii * list ascii) :=
  match l with
  | [] => None
  | c :: l' =>
      if Ascii.eqb c colon then Some ([], l')
      else if is_slash c then None
      else match split_scheme l' with Some (s, r) => Some (c :: s, r) | None => None end
  end.
Definition ToPath (path : string) : Result Path :=
  match chars path with
  | [] => Err Invalid "path is an empty string."
  | l =>
      let '(scheme, rest) := match split_scheme l with Some (s, r) => (s, r) | None => ([], l) end in
      let '(authority, inner) :=
        match rest with
        | a :: b :: (_ :: _ as r) =>
            if is_slash a && is_slash b
            then (take_while (λ c, negb (is_slash c)) r, drop_while (λ c, negb (is_slash c)) r)
            else ([], rest)
        | _ => ([], rest)
        end in
      Ok (mkPath (text scheme) (text authority) (NormalizeInnerPath (text inner)))
  end.
Definition NormalizePath (path_str : string) : Result string :=
  p ← ToPath path_str; Ok (ToString p).
End PathUtil.

Module DataFilePathFactory.
Section Factory.
Context (parent_ uuid_ format_identifier_ data_file_prefix_ : string).

(** [path_count_] is an atomic counter, passed as [n]. *)
Definition NewFileName (prefix extension : string) (n : Z) : string * Z :=
  (prefix +:+ uuid_ +:+ "-" +:+ pretty n +:+ extension, n + 1).

Definition NewPathFromName (file_name : string) : string := PathUtil.JoinPath parent_ file_name.
Definition NewPath (n : Z) : string * Z :=
  let '(name, n') := NewFileName data_file_prefix_ ("." +:+ format_identifier_) n in (NewPathFromName name, n').
Definition NewChangelogPath (changelog_file_prefix format_identifier : string) (n : Z) : string * Z :=
  let '(name, n') := NewFileName changelog_file_prefix ("." +:+ format_identifier) n in (NewPathFromName name, n').
Definition ToPath (file_name : string) : string := PathUtil.JoinPath parent_ file_name.
End Factory.
End DataFilePathFactory.

Definition no_slash (s : string) : Prop := Forall (λ c, is_slash c = false) (chars s).

Lemma chars_app (s1 s2 : string) : chars (s1 +:+ s2) = chars s1 ++ chars s2.
Proof. induction s1 as [|c s1 IH]; [done|]. simpl. by rewrite IH. Qed.

Lemma text_chars (s : string) : text (chars s) = s.
Proof. apply string_of_list_ascii_of_string. Qed.

Lemma chars_text (l : list ascii) : chars (text l) = l.
Proof. apply list_ascii_of_string_of_list_ascii. Qed.

Lemma chars_inj (s1 s2 : string) : chars s1 = chars s2 → s1 = s2.
Proof. intros E. by rewrite <-(text_chars s1), E, text_chars. Qed.

Lemma take_while_app_stop {A} (p : A → bool) (l1 l2 : list A) x :
  Forall (λ c, p c = true) l1 → p x = false → take_while p (l1 ++ x :: l2) = l1.
Proof. intros H Hx. induction H as [|c l1 Hc _ IH]; simpl; [by rewrite Hx|by rewrite Hc, IH]. Qed.

Lemma take_while_all {A} (p : A → bool) (l : list A) : Forall (λ c, p c = true) l → take_while p l = l.
Proof. intros H. induction H as [|c l Hc _ IH]; simpl; [done|by rewrite Hc, IH]. Qed.

Lemma TrimLastDelim_name (p n : string) :
  n ≠ ""%string → no_slash n → PathUtil.TrimLastDelim (p +:+ n) = p +:+ n.
Proof.
  intros Hn Hs. unfold PathUtil.TrimLastDelim. rewrite chars_app, rev_app_distr.
  destruct (rev (chars n)) as [|c r] eqn:E.
  - apply (f_equal (@rev _)) in E. rewrite rev_involutive in E. rewrite <-(text_chars n), E in Hn. done.
  - apply Forall_rev in Hs. rewrite E in Hs. apply Forall_cons in Hs as [Hc _].
    simpl. by destruct (r ++ _); [|rewrite Hc].
Qed.

(** A name added to a directory is added to a text that is empty or ends with
    a slash. *)
Lemma JoinPath_split (dir n : string) :
  n ≠ ""%string → no_slash n →
  ∃ d, PathUtil.JoinPath dir n = d +:+ n ∧ (chars d = [] ∨ ∃ l, chars d = l ++ [slash]).
Proof.
  intros Hn Hs. unfold PathUtil.JoinPath, no_slash in *.
  destruct (rev (chars dir)) as [|p r] eqn:E; [by exists ""%string; split; [|left]|].
  destruct (chars n) as [|c n'] eqn:En; [rewrite <-(text_chars n), En in Hn; done|].
  apply Forall_cons in Hs as [-> _].
  apply (f_equal (@rev _)) in E. rewrite rev_involutive in E. simpl in E.
  destruct (is_slash p) eqn:Ep.
  - apply Ascii.eqb_eq in Ep as ->. exists dir. split; [done|]. right. eauto.
  - exists (dir +:+ "/"). split; [|right; exists (chars dir); by rewrite chars_app].
    apply chars_inj. by rewrite !chars_app, <-(assoc_L app).
Qed.

Lemma GetName_JoinPath (dir n : string) :
  n ≠ ""%string → no_slash n → PathUtil.GetName (PathUtil.JoinPath dir n) = n.
Proof.
  intros Hn Hs. destruct (JoinPath_split dir n Hn Hs) as (d & -> & Hd).
  unfold PathUtil.GetName. rewrite TrimLastDelim_name, chars_app, rev_app_distr by done.
  assert (Hr : Forall (λ c, negb (is_slash c) = true) (rev (chars n))).
  { apply Forall_rev. eapply Forall_impl; [exact Hs|]. intros c Hc. simpl in *. by rewrite Hc. }
  rewrite <-(text_chars n) at 2. f_equal. rewrite <-(rev_involutive (chars n)) at 2. f_equal.
  destruct Hd as [->|[l ->]].
  - rewrite app_nil_r. by apply take_while_all.
  - rewrite rev_app_distr. by apply take_while_app_stop.
Qed.

Lemma JoinPath_inj (dir n1 n2 : string) :
  n1 ≠ ""%string → n2 ≠ ""%string → no_slash n1 → no_slash n2 →
  PathUtil.JoinPath dir n1 = PathUtil.JoinPath dir n2 → n1 = n2.
Proof.
  intros ???? E. by rewrite <-(GetName_JoinPath dir n1), E, GetName_JoinPath.
Qed.

Lemma append_inj_l (s s1 s2 : string) : s +:+ s1 = s +:+ s2 → s1 = s2.
Proof.
  intros E. apply (f_equal chars) in E. rewrite !chars_app in E. simplify_list_eq.
  by apply chars_inj.
Qed.
Lemma append_inj_r (s s1 s2 : string) : s1 +:+ s = s2 +:+ s → s1 = s2.
Proof.
  intros E. apply (f_equal chars) in E. rewrite !chars_app in E. simplify_list_eq.
  by apply chars_inj.
Qed.

Definition name_at (uuid_ prefix extension : string) (n : Z) : string :=
  (DataFilePathFactory.NewFileName uuid_ prefix extension n).1.

Lemma name_at_inj (uuid_ prefix extension : string) n m :
  name_at uuid_ prefix extension n = name_at uuid_ prefix extension m → n = m.
Proof.
  unfold name_at, DataFilePathFactory.NewFileName. cbn [fst]. intros E.
  do 3 apply append_inj_l in E. apply append_inj_r in E. by apply (inj pretty) in E.
Qed.

Lemma no_slash_app (s1 s2 : string) : no_slash (s1 +:+ s2) ↔ no_slash s1 ∧ no_slash s2.
Proof. unfold no_slash. rewrite chars_app. apply Forall_app. Qed.

Lemma no_slash_pretty_N (x : N) (s : string) : no_slash s → no_slash (pretty_N_go x s).
Proof.
  revert s. induction (N.lt_wf_0 x) as [x _ IH]; intros s Hs.
  assert (x = 0 ∨ 0 < x)%N as [->|Hx] by lia; [done|].
  rewrite pretty_N_go_step by done. apply IH; [by apply N.div_lt|]. constructor; [|done].
  unfold pretty_N_char. by repeat case_match.
Qed.
Lemma no_slash_pretty (n : Z) : no_slash (pretty n).
Proof.
  assert (H : ∀ p, no_slash (pretty (Npos p))).
  { intros p. unfold pretty, pretty_N. case_decide; [done|]. apply no_slash_pretty_N. constructor. }
  destruct n as [|p|p]; cbn; [by repeat constructor|apply H|]. apply no_slash_app. split; [by repeat constructor|apply H].
Qed.

Lemma name_at_no_slash (uuid_ prefix extension : string) n :
  no_slash uuid_ → no_slash prefix → no_slash extension → no_slash (name_at uuid_ prefix extension n).
Proof.
  intros. unfold name_at, DataFilePathFactory.NewFileName. cbn [fst]. rewrite !no_slash_app. split_and!; try done.
  - by repeat constructor.
  - apply no_slash_pretty.
Qed.
Lemma name_at_ne (uuid_ prefix extension : string) n : name_at uuid_ prefix extension n ≠ ""%string.
Proof.
  intros E. apply (f_equal chars) in E. unfold name_at, DataFilePathFactory.NewFileName in E. cbn [fst] in E.
  rewrite !chars_app in E. apply (f_equal List.length) in E. rewrite !List.length_app in E. simpl in E. lia.
Qed.
