(* ===== verification/Manifests.v ===== *)
(** * Manifest entries

    [FileKind] (src/paimon/core/manifest/file_kind.{h,cpp}), [LinkedHashMap]
    (src/paimon/common/utils/linked_hash_map.h), [ManifestEntry]
    (manifest_entry.{h,cpp}), the merging of entries ([FileEntry::MergeEntries]
    of file_entry.h) and the one a scan uses ([FileStoreScan::MergeLiveEntries]
    of src/paimon/core/operation/file_store_scan.cpp).

    A list of entries is a log of additions and deletions of files. The two
    ways of merging it are shown to agree on logs in which a file is added at
    most once and deleted at most once, and merging a part of a log is shown to
    leave the files of the whole unchanged. *)

From stdpp Require Import base list strings sorting relations.
From Stdlib Require Import ZArith Lia.
From S2P Require Import Prelude Rows DataFiles.
Local Open Scope Z_scope.

(** ** FileKind *)

Module FileKind.
(** The default constructor leaves a kind that is neither of the two. *)
Record t := mk { value_ : Z }.
#[export] Instance t_eq_dec : EqDecision t.
Proof. solve_decision. Defined.
Definition Default : t := mk (-1).
Definition Add : t := mk 0.
Definition Delete : t := mk 1.
Definition FromByteValue (value : Z) : Result t :=
  match value with
  | 0 => Ok Add
  | 1 => Ok Delete
  | _ => Err Invalid "Unsupported byte value for file kind."
  end.
End FileKind.
Export (hints) FileKind.

(** ** LinkedHashMap

    The list [order_] of nodes; [map_] finds the node of a key. *)

Module LinkedHashMap.
Section Map.
Context {K V : Type} `{EqDecision K}.
Definition t : Type := list (K * V).

Fixpoint find (key : K) (m : t) : option V :=
  match m with
  | [] => None
  | (k, v) :: m' => if decide (k = key) then Some v else find key m'
  end.
Definition unsafe_insert (key : K) (value : V) (m : t) : t := m ++ [(key, value)].
Definition insert (key : K) (value : V) (m : t) : t :=
  match find key m with Some _ => m | None => unsafe_insert key value m end.
Fixpoint assign (key : K) (value : V) (m : t) : t :=
  match m with
  | [] => []
  | (k, v) :: m' => if decide (k = key) then (k, value) :: m' else (k, v) :: assign key value m'
  end.
Definition insert_or_assign (key : K) (value : V) (m : t) : t :=
  match find key m with Some _ => assign key value m | None => unsafe_insert key value m end.
Fixpoint erase (key : K) (m : t) : t :=
  match m with
  | [] => []
  | (k, v) :: m' => if decide (k = key) then m' else (k, v) :: erase key m'
  end.
Definition key_vec (m : t) : list K := fst <$> m.
Definition values (m : t) : list V := snd <$> m.

Lemma key_find_None key m : find key m = None ↔ key ∉ key_vec m.
Proof.
  induction m as [|[k v] m IH]; cbn; [by split; [intros _ ?%not_elem_of_nil|]|].
  rewrite not_elem_of_cons. destruct (decide (k = key)) as [->|Hne]; [by split; [|intros []]|]. rewrite IH. split; [auto|tauto].
Qed.
Lemma find_app key m1 m2 : find key (m1 ++ m2) = match find key m1 with Some v => Some v | None => find key m2 end.
Proof. induction m1 as [|[k v] m IH]; cbn; [done|]. by destruct (decide (k = key)). Qed.
Lemma erase_None key m : find key m = None → erase key m = m.
Proof. induction m as [|[k v] m IH]; cbn; [done|]. destruct (decide (k = key)); [done|]. intros H. by rewrite IH. Qed.

(** The keys stay distinct. *)
Lemma insert_NoDup key value m : NoDup (key_vec m) → NoDup (key_vec (insert key value m)).
Proof.
  intros H. unfold insert. destruct (find key m) eqn:E; [done|]. unfold key_vec, unsafe_insert. rewrite fmap_app.
  apply NoDup_app. split_and!; [done| |by apply NoDup_singleton]. apply key_find_None in E.
  intros k Hk ->%list_elem_of_singleton. done.
Qed.
Lemma erase_filter key (m : list (K * V)) : NoDup (key_vec m) → erase key m = filter (λ p, p.1 ≠ key) m.
Proof.
  induction m as [|[k v] m IH]; [done|]. intros [Hk Hd]%NoDup_cons. rewrite filter_cons. cbn [erase fst].
  destruct (decide (k = key)) as [->|Hne].
  - rewrite decide_False by auto. symmetry. apply filter_all. intros [k' v'] Hin. cbn. intros ->.
    apply Hk, list_elem_of_fmap. by exists (key, v').
  - rewrite decide_True by done. by rewrite IH.
Qed.
Lemma find_elem key m v : find key m = Some v → (key, v) ∈ m.
Proof.
  induction m as [|[k v'] m IH]; cbn; [done|]. destruct (decide (k = key)) as [->|]; [intros [= ->]; by left|].
  intros H. right. by apply IH.
Qed.
Lemma find_insert_or_assign key key' value m :
  find key (insert_or_assign key' value m) = if decide (key' = key) then Some value else find key m.
Proof.
  unfold insert_or_assign, unsafe_insert. destruct (find key' m) eqn:E.
  - induction m as [|[k v'] m IH]; cbn in *; [done|]. destruct (decide (k = key')) as [->|Hne]; cbn.
    + by destruct (decide (key' = key)).
    + destruct (decide (k = key)) as [->|]; [by rewrite decide_False|by apply IH].
  - rewrite find_app. cbn. destruct (decide (key' = key)) as [<-|]; [by rewrite E|]. by destruct (find key m).
Qed.
End Map.
Lemma insert_or_assign_NoDup {K V} `{EqDecision K} (key : K) (value : V) (m : @t K V) : NoDup (key_vec m) → NoDup (key_vec (insert_or_assign key value m)).
Proof.
  unfold insert_or_assign. destruct (find key m) eqn:E; intros H.
  - assert (key_vec (assign key value m) = key_vec m) as ->; [|done]. clear. induction m as [|[k v] m IH]; [done|]. cbn.
    case_decide; cbn; [done|]. unfold key_vec in IH. by rewrite IH.
  - pose proof (insert_NoDup key value m H) as H'. unfold insert in H'. by rewrite E in H'.
Qed.
Lemma elem_find {K V} `{EqDecision K} (key : K) (value : V) (m : @t K V) : NoDup (key_vec m) → (key, value) ∈ m → find key m = Some value.
Proof.
  induction m as [|[k v] m IH]; cbn; [by intros _ ?%elem_of_nil|]. intros [Hk Hn]%NoDup_cons [[= <- <-]|Hin]%elem_of_cons; [by case_decide|].
  case_decide as Hd; [|by apply IH]. subst. destruct Hk. apply list_elem_of_fmap. by exists (key, value).
Qed.

(** [m[key].push_back(value)] *)
Section Push.
Context {K V : Type} `{EqDecision K}.
Definition push (key : K) (value : V) (m : @t K (list V)) : @t K (list V) :=
  insert_or_assign key (default [] (find key m) ++ [value]) m.
Lemma find_push k key value m : default [] (find k (push key value m)) = default [] (find k m) ++ (if decide (key = k) then [value] else []).
Proof. unfold push. rewrite find_insert_or_assign. case_decide as Hd; [by subst|]. by rewrite app_nil_r. Qed.
Lemma push_Forall (P : V → Prop) key value m :
  P value → Forall (λ kg, Forall P kg.2) m → Forall (λ kg, Forall P kg.2) (push key value m).
Proof.
  intros Hv Hm. unfold push, insert_or_assign.
  assert (Hnew : Forall P (default [] (find key m) ++ [value])).
  { apply Forall_app. split; [|by repeat constructor]. destruct (find key m) as [g|] eqn:E; [|constructor].
    apply find_elem in E. rewrite Forall_forall in Hm. exact (Hm _ E). }
  destruct (find key m) as [g|]; [|apply Forall_app; by split; [|repeat constructor]].
  clear -Hm Hnew. induction Hm as [|[k g'] m Hk Hm IH]; cbn; [constructor|]. case_decide; by constructor.
Qed.
End Push.
Arguments t : clear implicits.
End LinkedHashMap.

(** ** ManifestEntry *)

Module Identifier.
Record t := mk {
  partition : InternalRow;
  bucket : Z;
  level : Z;
  file_name : string;
  external_path : option string
}.
#[export] Instance t_eq_dec : EqDecision t.
Proof. solve_decision. Defined.
End Identifier.
Export (hints) Identifier.

Module ManifestEntry.
Record t := mk {
  Kind : FileKind.t;
  Partition : InternalRow;
  Bucket : Z;
  TotalBuckets : Z;
  File : DataFileMeta.t
}.
#[export] Instance t_eq_dec : EqDecision t.
Proof. solve_decision. Defined.

Definition Level (e : t) : Z := DataFileMeta.level (File e).
Definition CreateIdentifier (e : t) : Identifier.t :=
  Identifier.mk (Partition e) (Bucket e) (DataFileMeta.level (File e)) (DataFileMeta.file_name (File e))
    (DataFileMeta.external_path (File e)).
Definition CopyWithoutStats (e : t) : t :=
  mk (Kind e) (Partition e) (Bucket e) (TotalBuckets e) (DataFileMeta.CopyWithoutStats (File e)).

Definition RecordCount (entries : list t) : Z :=
  foldl (λ n e, Int.wrap_s 64 (n + DataFileMeta.row_count (File e))) 0 entries.
Definition NullableRecordCount (entries : list t) : option Z :=
  match entries with [] => None | _ => Some (RecordCount entries) end.
Definition RecordCountOf (kind : FileKind.t) (entries : list t) : Z :=
  foldl (λ n e, if decide (Kind e = kind) then Int.wrap_s 64 (n + DataFileMeta.row_count (File e)) else n) 0 entries.
Definition RecordCountAdd (entries : list t) : Z := RecordCountOf FileKind.Add entries.
Definition RecordCountDelete (entries : list t) : Z := RecordCountOf FileKind.Delete entries.
End ManifestEntry.
Export (hints) ManifestEntry.
Import ManifestEntry.

(** ** Merging *)

Module FileEntry.
Definition EntryMap : Type := LinkedHashMap.t Identifier.t ManifestEntry.t.

Definition MergeEntry (entry : ManifestEntry.t) (merged_map : EntryMap) : Result EntryMap :=
  let identifier := CreateIdentifier entry in
  let found := LinkedHashMap.find identifier merged_map in
  if decide (Kind entry = FileKind.Add) then
    match found with
    | Some _ => Err Invalid "Trying to add file which is already added."
    | None => Ok (LinkedHashMap.insert identifier entry merged_map)
    end
  else if decide (Kind entry = FileKind.Delete) then
    match found with
    | Some _ => Ok (LinkedHashMap.erase identifier merged_map)
    | None => Ok (LinkedHashMap.insert identifier entry merged_map)
    end
  else Err Invalid "Unknown value kind".
Definition MergeEntriesInto (unmerged_entries : list ManifestEntry.t) (merged_map : EntryMap) : Result EntryMap :=
  foldR MergeEntry unmerged_entries merged_map.
Definition MergeEntries (unmerged_entries : list ManifestEntry.t) : Result (list ManifestEntry.t) :=
  merged_map ← MergeEntriesInto unmerged_entries []; Ok (LinkedHashMap.values merged_map).
End FileEntry.

Definition is_add (e : ManifestEntry.t) : Prop := Kind e = FileKind.Add.
Definition is_delete (e : ManifestEntry.t) : Prop := Kind e = FileKind.Delete.
#[export] Instance is_add_dec e : Decision (is_add e).
Proof. unfold is_add. apply _. Defined.
#[export] Instance is_delete_dec e : Decision (is_delete e).
Proof. unfold is_delete. apply _. Defined.

(** [deleted_entries] is the set of the identifiers of deletions. *)
Definition deleted_identifiers (entries : list ManifestEntry.t) : list Identifier.t :=
  CreateIdentifier <$> filter is_delete entries.
Definition MergeLiveEntries (unmerged_entries : list ManifestEntry.t) : list ManifestEntry.t :=
  let deleted_entries := deleted_identifiers unmerged_entries in
  filter (λ e, is_add e ∧ CreateIdentifier e ∉ deleted_entries) unmerged_entries.

(** ** Logs in which a file is added once and deleted once

    Of two entries for one file the first is the addition and the second the
    deletion; the addition may also have happened before the log. *)

Definition known (e : ManifestEntry.t) : Prop := is_add e ∨ is_delete e.
Definition compatible (a b : ManifestEntry.t) : Prop := CreateIdentifier a = CreateIdentifier b → is_add a ∧ is_delete b.
Definition once (es : list ManifestEntry.t) : Prop := StronglySorted compatible es ∧ Forall known es.

(** The entries of the files that the log does not both add and delete. *)
Definition unpaired (es : list ManifestEntry.t) : list ManifestEntry.t :=
  filter (λ e, Forall (λ e', CreateIdentifier e' = CreateIdentifier e → Kind e' = Kind e) es) es.

Lemma add_not_delete e : is_add e → ¬ is_delete e.
Proof. unfold is_add, is_delete. by intros ->. Qed.

Lemma kinds_differ a b : is_add a → is_delete b → Kind a ≠ Kind b.
Proof. unfold is_add, is_delete. by intros -> ->. Qed.

Lemma once_filter (P : ManifestEntry.t → Prop) `{∀ e, Decision (P e)} es : once es → once (filter P es).
Proof.
  intros [Hs Hk]. split; [by apply sorted_filter|]. rewrite Forall_forall in Hk |- *.
  intros e [_ He]%list_elem_of_filter. by apply Hk.
Qed.

Lemma once_app es d : once (es ++ d) ↔ once es ∧ once d ∧ ∀ a b, a ∈ es → b ∈ d → compatible a b.
Proof.
  unfold once. rewrite Forall_app, StronglySorted_app. tauto.
Qed.

Lemma once_pair es a b : once es → a ∈ es → b ∈ es → CreateIdentifier a = CreateIdentifier b → Kind a = Kind b → a = b.
Proof.
  intros [Hs _] [i Ha]%list_elem_of_lookup_1 [j Hb]%list_elem_of_lookup_1 Hid Hkind.
  destruct (lt_eq_lt_dec i j) as [[Hij| ->]|Hij]; [|congruence|].
  - destruct (sorted_lookup _ _ _ _ _ _ Hs Hij Ha Hb) as [Hx Hy]; [done|]. by destruct (kinds_differ _ _ Hx Hy).
  - destruct (sorted_lookup _ _ _ _ _ _ Hs Hij Hb Ha) as [Hx Hy]; [done|]. by destruct (kinds_differ _ _ Hx Hy).
Qed.

(** The map after a log: its unpaired entries, by identifier. *)
Definition as_map (es : list ManifestEntry.t) : FileEntry.EntryMap := (λ e, (CreateIdentifier e, e)) <$> es.

Lemma as_map_find es id : LinkedHashMap.find id (as_map es) = None ↔ ∀ e, e ∈ es → CreateIdentifier e ≠ id.
Proof.
  rewrite LinkedHashMap.key_find_None. unfold LinkedHashMap.key_vec, as_map. rewrite <-list_fmap_compose.
  rewrite list_elem_of_fmap. split.
  - intros H e He E. apply H. by exists e.
  - intros H (e&E&He). by apply (H e He).
Qed.

Lemma as_map_values es : LinkedHashMap.values (as_map es) = es.
Proof. unfold LinkedHashMap.values, as_map. rewrite <-list_fmap_compose. apply list_fmap_id. Qed.

Lemma as_map_erase id es : NoDup (CreateIdentifier <$> es) → LinkedHashMap.erase id (as_map es) = as_map (filter (λ e, CreateIdentifier e ≠ id) es).
Proof.
  intros Hnd. rewrite LinkedHashMap.erase_filter.
  - clear Hnd. induction es as [|e es IH]; [done|]. unfold as_map in *. rewrite fmap_cons, !filter_cons, IH. cbn [fst].
    by case_decide.
  - unfold LinkedHashMap.key_vec, as_map. by rewrite <-list_fmap_compose.
Qed.

Lemma unpaired_NoDup es : once es → NoDup (CreateIdentifier <$> unpaired es).
Proof.
  intros Ho. assert (Hs : StronglySorted (λ a b, CreateIdentifier a ≠ CreateIdentifier b) (unpaired es)).
  { apply (sorted_impl_in compatible); [|by apply sorted_filter; destruct Ho].
    intros a b [Ha Ha']%list_elem_of_filter [Hb Hb']%list_elem_of_filter Hc E. destruct (Hc E) as [H1 H2].
    rewrite Forall_forall in Ha. by destruct (kinds_differ _ _ H1 H2 (eq_sym (Ha b Hb' (eq_sym E)))). }
  clear Ho. induction Hs as [|e l _ IH He]; [constructor|]. cbn. constructor; [|done].
  intros (e'&E&He')%list_elem_of_fmap. rewrite Forall_forall in He. by apply (He e').
Qed.

(** An addition extends the unpaired entries; a deletion extends them or takes
    the addition away. *)
Lemma unpaired_snoc es x : once (es ++ [x]) →
  unpaired (es ++ [x]) =
    if decide (CreateIdentifier x ∈ CreateIdentifier <$> es) then filter (λ e, CreateIdentifier e ≠ CreateIdentifier x) (unpaired es)
    else unpaired es ++ [x].
Proof.
  intros (Ho&_&Hc)%once_app. unfold unpaired. rewrite filter_app. case_decide as Hx.
  - apply list_elem_of_fmap in Hx as (a&E&Ha). destruct (Hc a x Ha (list_elem_of_here _ _) (eq_sym E)) as [H1 H2].
    rewrite filter_singleton_False, app_nil_r, list_filter_filter; [|done|].
    + apply filter_ext_in. intros e He. rewrite Forall_app, Forall_singleton. split.
      * intros [H Hex]. split; [|done]. intros E'. destruct (Hc e x He (list_elem_of_here _ _) E') as [H3 _].
        by apply (kinds_differ _ _ H3 H2), eq_sym, Hex.
      * intros [Hne H]. split; [done|]. intros E'. by destruct Hne.
    + rewrite Forall_app, Forall_forall. intros [H _]. by apply (kinds_differ _ _ H1 H2), H.
  - rewrite filter_singleton_True; [|done|].
    + f_equal. apply filter_ext_in. intros e He. rewrite Forall_app, Forall_singleton. split; [tauto|].
      intros H. split; [done|]. intros E. destruct Hx. rewrite E. by apply list_elem_of_fmap_2.
    + rewrite Forall_app, Forall_singleton, Forall_forall. split; [|done].
      intros e He E. destruct Hx. rewrite <-E. by apply list_elem_of_fmap_2.
Qed.

Lemma unpaired_find es x : once (es ++ [x]) →
  is_Some (LinkedHashMap.find (CreateIdentifier x) (as_map (unpaired es))) ↔ CreateIdentifier x ∈ CreateIdentifier <$> es.
Proof.
  intros (Ho&_&Hc)%once_app. rewrite <-not_eq_None_Some, as_map_find. split.
  - intros H. destruct (decide (CreateIdentifier x ∈ CreateIdentifier <$> es)) as [|Hn]; [done|]. destruct H.
    intros e [_ He]%list_elem_of_filter E. destruct Hn. rewrite <-E. by apply list_elem_of_fmap_2.
  - intros (a&E&Ha)%list_elem_of_fmap H. apply (H a); [|done]. apply list_elem_of_filter. split; [|done].
    apply Forall_forall. intros e He Ee. destruct (Hc a x) as [-> _]; [done|by left|done|].
    by destruct (Hc e x) as [-> _]; [|left|congruence|].
Qed.

Lemma MergeEntriesInto_once es : once es → FileEntry.MergeEntriesInto es [] = Ok (as_map (unpaired es)).
Proof.
  induction es as [|x es IH] using rev_ind; [done|]. intros Ho. unfold FileEntry.MergeEntriesInto in *.
  pose proof (unpaired_find _ _ Ho) as Hfind. pose proof (proj1 (proj1 (once_app _ _) Ho)) as Hes.
  rewrite foldR_app, IH, unpaired_snoc by done. cbn. unfold FileEntry.MergeEntry. destruct Ho as [Hs Hk].
  apply Forall_app in Hk as [_ Hk]. rewrite Forall_singleton in Hk. apply StronglySorted_app in Hs as (Hc&_&_).
  destruct (decide (CreateIdentifier x ∈ CreateIdentifier <$> es)) as [Hin|Hin].
  - apply list_elem_of_fmap in Hin as (a&E&Ha). destruct (Hc a x Ha (list_elem_of_here _ _) (eq_sym E)) as [_ Hd].
    destruct Hfind as [_ [v ->]]; [rewrite E; by apply list_elem_of_fmap_2|]. unfold is_delete in Hd. rewrite Hd. cbn.
    by rewrite as_map_erase by by apply unpaired_NoDup.
  - destruct (LinkedHashMap.find _ _) eqn:Ef; [destruct Hin; by apply Hfind|]. unfold LinkedHashMap.insert. rewrite Ef.
    unfold as_map. rewrite fmap_app. unfold known, is_add, is_delete in Hk. by destruct Hk as [-> | ->].
Qed.

Lemma MergeEntries_once es : once es → FileEntry.MergeEntries es = Ok (unpaired es).
Proof. intros Ho. unfold FileEntry.MergeEntries. rewrite MergeEntriesInto_once by done. cbn. by rewrite as_map_values. Qed.

(** ** The files of a log *)

Lemma live_spec es e : e ∈ MergeLiveEntries es ↔ e ∈ es ∧ is_add e ∧ ∀ d, d ∈ es → is_delete d → CreateIdentifier d ≠ CreateIdentifier e.
Proof.
  unfold MergeLiveEntries, deleted_identifiers. rewrite list_elem_of_filter, list_elem_of_fmap. split.
  - intros [[Ha Hn] He]. split_and!; [done..|]. intros d Hd Hdel E. apply Hn. exists d. by rewrite list_elem_of_filter.
  - intros (He&Ha&Hn). split_and!; [done| |done]. intros (d&E&[Hdel Hd]%list_elem_of_filter). by apply (Hn d).
Qed.

(** The two ways of merging agree. *)
Lemma live_unpaired es : once es → filter is_add (unpaired es) = MergeLiveEntries es.
Proof.
  intros [_ Hk]. unfold unpaired, MergeLiveEntries. rewrite list_filter_filter. apply filter_ext_in. intros e He.
  split; intros [Ha H]; (split; [done|]).
  - intros (d&E&[Hd Hin]%list_elem_of_filter)%list_elem_of_fmap. rewrite Forall_forall in H.
    by apply (kinds_differ _ _ Ha Hd), eq_sym, H.
  - rewrite Forall_forall in Hk |- *. intros d Hd E. destruct (Hk d Hd) as [Hx|Hx]; [unfold is_add in *; congruence|].
    destruct H. rewrite <-E. apply list_elem_of_fmap_2, list_elem_of_filter. done.
Qed.

(** A later log deletes some of the files and adds its own. *)
Definition apply_delta (files delta : list ManifestEntry.t) : list ManifestEntry.t :=
  filter (λ e, CreateIdentifier e ∉ deleted_identifiers delta) files ++ MergeLiveEntries delta.

Lemma live_app es d : once (es ++ d) → MergeLiveEntries (es ++ d) = apply_delta (MergeLiveEntries es) d.
Proof.
  intros (Hes&Hd&Hc)%once_app. unfold apply_delta, MergeLiveEntries. rewrite filter_app, list_filter_filter.
  unfold deleted_identifiers. f_equal.
  - apply filter_ext_in. intros e He. rewrite filter_app, fmap_app, not_elem_of_app. tauto.
  - apply filter_ext_in. intros e He. rewrite filter_app, fmap_app, not_elem_of_app. split; [tauto|].
    intros [Ha Hn]. split_and!; [done| |done]. intros (a&E&[Hdel Hin]%list_elem_of_filter)%list_elem_of_fmap.
    destruct (Hc a e Hin He (eq_sym E)) as [? _]. by eapply add_not_delete.
Qed.

(** Merging a part of a log. *)
Definition merge_step (es es' : list ManifestEntry.t) : Prop :=
  ∃ pre seg post, es = pre ++ seg ++ post ∧ es' = pre ++ unpaired seg ++ post.

Lemma unpaired_elem es e : e ∈ unpaired es → e ∈ es.
Proof. by intros [_ ?]%list_elem_of_filter. Qed.

Lemma merge_step_once es es' : merge_step es es' → once es → once es'.
Proof.
  intros (pre&seg&post&->&->). rewrite !once_app. intros (H1&(H2&H3&H4)&H5). split_and!; try done.
  - by apply once_filter.
  - intros a b Ha%unpaired_elem Hb. by apply H4.
  - intros a b Ha Hb. apply H5; [done|]. rewrite elem_of_app in Hb |- *. destruct Hb as [Hb%unpaired_elem|Hb]; auto.
Qed.

Lemma deleted_elem es id : id ∈ deleted_identifiers es ↔ ∃ d, d ∈ es ∧ is_delete d ∧ CreateIdentifier d = id.
Proof.
  unfold deleted_identifiers. rewrite list_elem_of_fmap. split.
  - intros (d&->&[? ?]%list_elem_of_filter). by exists d.
  - intros (d&?&?&<-). exists d. by rewrite list_elem_of_filter.
Qed.
Lemma deleted_app es d : deleted_identifiers (es ++ d) = deleted_identifiers es ++ deleted_identifiers d.
Proof. unfold deleted_identifiers. by rewrite filter_app, fmap_app. Qed.

(** An addition outside of the merged part is deleted by an unpaired entry. *)
Lemma deleted_unpaired pre seg post e : once (pre ++ seg ++ post) → e ∈ pre ++ post → is_add e →
  CreateIdentifier e ∈ deleted_identifiers seg → CreateIdentifier e ∈ deleted_identifiers (unpaired seg).
Proof.
  rewrite !once_app, elem_of_app. intros (Hpre&(Hseg&Hpost&Hsp)&Hp) He Ha (d&Hd&Hdel&E)%deleted_elem. apply deleted_elem.
  exists d. split_and!; [|done..]. apply list_elem_of_filter. split; [|done]. apply Forall_forall. intros e' He' E'.
  destruct Hseg as [_ Hk]. rewrite Forall_forall in Hk. destruct (Hk e' He') as [Ha'|Hd']; [|unfold is_delete in *; congruence].
  destruct He as [He|He].
  - destruct (Hp e e' He) as [_ ?]; [by apply elem_of_app; left|congruence|]. by destruct (add_not_delete e').
  - destruct (Hsp d e Hd He E) as [? _]. by destruct (add_not_delete d).
Qed.

Lemma merge_step_live es es' : merge_step es es' → once es → MergeLiveEntries es' = MergeLiveEntries es.
Proof.
  intros (pre&seg&post&->&->) Ho.
  assert (Hout : ∀ e, e ∈ pre ++ post → is_add e → CreateIdentifier e ∈ deleted_identifiers (pre ++ unpaired seg ++ post) ↔
    CreateIdentifier e ∈ deleted_identifiers (pre ++ seg ++ post)).
  { intros e He Ha. rewrite !deleted_app, !elem_of_app. pose proof (deleted_unpaired _ _ _ e Ho He Ha).
    assert (CreateIdentifier e ∈ deleted_identifiers (unpaired seg) → CreateIdentifier e ∈ deleted_identifiers seg); [|tauto].
    rewrite !deleted_elem. intros (d&?%unpaired_elem&?). by exists d. }
  unfold MergeLiveEntries. rewrite !filter_app. f_equal; [|f_equal].
  - apply filter_ext_in. intros e He. specialize (Hout e). rewrite elem_of_app in Hout. tauto.
  - etransitivity; [exact (list_filter_filter _ _ seg)|]. apply filter_ext_in. intros e He.
    rewrite !deleted_app, !not_elem_of_app. rewrite !once_app in Ho. destruct Ho as (_&([_ Hk]&_&_)&_).
    rewrite Forall_forall in Hk |- *. split.
    + intros [(Ha&H1&H2&H3) HU]. split_and!; [done..| |done]. intros (d&Hd&Hdel&E)%deleted_elem.
      by apply (kinds_differ _ _ Ha Hdel), eq_sym, HU.
    + intros (Ha&H1&H2&H3). split_and!; [done..| |done|].
      * intros (d&?%unpaired_elem&?&?)%deleted_elem. apply H2, deleted_elem. by exists d.
      * intros e' He' E. destruct (Hk e' He') as [?|?]; [unfold is_add in *; congruence|].
        destruct H2. apply deleted_elem. by exists e'.
  - apply filter_ext_in. intros e He. specialize (Hout e). rewrite elem_of_app in Hout. tauto.
Qed.

Lemma merge_steps es es' : rtc merge_step es es' → once es → once es' ∧ MergeLiveEntries es' = MergeLiveEntries es.
Proof.
  induction 1 as [|es es1 es' Hstep _ IH]; [done|]. intros Ho. destruct IH as [? ->]; [by eapply merge_step_once|].
  split; [done|]. by apply merge_step_live.
Qed.

Lemma merge_steps_app es1 es1' es2 es2' : rtc merge_step es1 es1' → rtc merge_step es2 es2' → rtc merge_step (es1 ++ es2) (es1' ++ es2').
Proof.
  intros H1 H2. transitivity (es1' ++ es2).
  - eapply (rtc_congruence (λ l, l ++ es2)); [|exact H1]. intros ? ? (pre&seg&post&->&->).
    exists pre, seg, (post ++ es2). by rewrite <-!(assoc_L app).
  - eapply (rtc_congruence (λ l, es1' ++ l)); [|exact H2]. intros ? ? (pre&seg&post&->&->).
    exists (es1' ++ pre), seg, post. by rewrite <-!(assoc_L app).
Qed.
Lemma merge_steps_unpaired es : rtc merge_step es (unpaired es).
Proof. apply rtc_once. exists [], es, []. by rewrite !app_nil_r. Qed.
