(* ===== verification/RowTracking.v ===== *)
(** * Row tracking

    [RowTrackingCommitUtils::AssignRowTracking]
    (src/paimon/core/operation/commit/row_tracking_commit_utils.cpp): a commit
    gives the rows of new files the next row ids of the table and the snapshot
    as their sequence number. Files with the values of one column ([BlobUtils],
    [VectorStoreUtils]) share the row ids of the data files before them.

    The ranges of the new data files are shown to tile the row ids from the next
    one of the table on. *)

From stdpp Require Import base list gmap strings.
From Stdlib Require Import ZArith Lia.
From S2P Require Import Prelude Rows DataFiles Ranges Manifests.
Import ManifestEntry.
Local Open Scope Z_scope.

(** ** Names of dedicated files *)

Module StringUtils.
Definition EndsWith (str suffix : string) : bool :=
  let s1 := String.length str in
  let s2 := String.length suffix in
  (s2 <=? s1)%nat && String.eqb (String.substring (s1 - s2) s2 str) suffix.
End StringUtils.
Definition IsBlobFile (file_name : string) : bool := StringUtils.EndsWith file_name ".blob".
Definition IsVectorStoreFile (file_name : string) : bool :=
  match String.index 0 ".vector." file_name with Some _ => true | None => false end.
Definition IsDedicatedStorageFile (file_name : string) : bool := IsBlobFile file_name || IsVectorStoreFile file_name.

(** ** RowTrackingCommitUtils *)

Module RowTrackingCommitUtils.
(** A clone of the entry with a changed clone of its file. *)
Definition with_file (e : ManifestEntry.t) (file : DataFileMeta.t) : ManifestEntry.t :=
  ManifestEntry.mk (Kind e) (Partition e) (Bucket e) (TotalBuckets e) file.

Definition assign_snapshot_id (snapshot_id : Z) (entry : ManifestEntry.t) : ManifestEntry.t :=
  let min_seq_number := DataFileMeta.min_sequence_number (File entry) in
  let max_seq_number := DataFileMeta.max_sequence_number (File entry) in
  if min_seq_number =? 0 then with_file entry (DataFileMeta.AssignSequenceNumber snapshot_id snapshot_id (File entry))
  else if max_seq_number =? 0 then with_file entry (DataFileMeta.AssignSequenceNumber min_seq_number snapshot_id (File entry))
  else entry.
Definition AssignSnapshotId (snapshot_id : Z) (delta_files : list ManifestEntry.t) : list ManifestEntry.t :=
  assign_snapshot_id snapshot_id <$> delta_files.

(** The local variables of the loop. *)
Record RowIds := mkRowIds {
  start : Z;
  blob_start_default : Z;
  blob_starts : gmap string Z;
  vector_store_start : Z
}.
Definition contains_row_id (file : DataFileMeta.t) : bool :=
  match DataFileMeta.write_cols file with Some cols => existsb (String.eqb "_ROW_ID") cols | None => false end.
(** Whether the file is new and has no row ids yet. *)
Definition needs_row_id (file : DataFileMeta.t) : bool :=
  bool_decide (DataFileMeta.file_source file = Some FileSource.Append) && bool_decide (DataFileMeta.first_row_id file = None) &&
  negb (contains_row_id file).
Definition assign_first (entry : ManifestEntry.t) (first_row_id : Z) : ManifestEntry.t :=
  with_file entry (DataFileMeta.AssignFirstRowId first_row_id (File entry)).

Definition assign_blob (entry : ManifestEntry.t) (ids : RowIds) : Result (ManifestEntry.t * RowIds) :=
  match DataFileMeta.write_cols (File entry) with
  | None | Some [] => Err Invalid "invalid blob file: does not have write_cols"
  | Some (blob_field_name :: _) =>
      let blob_start := default (blob_start_default ids) (blob_starts ids !! blob_field_name) in
      if start ids <=? blob_start then Err Invalid "This is a bug, blobStart should be less than start when assigning a blob entry file."
      else Ok (assign_first entry blob_start,
               mkRowIds (start ids) (blob_start_default ids)
                 (<[blob_field_name := Int.wrap_s 64 (blob_start + DataFileMeta.row_count (File entry))]> (blob_starts ids)) (vector_store_start ids))
  end.
Definition assign_vector (entry : ManifestEntry.t) (ids : RowIds) : Result (ManifestEntry.t * RowIds) :=
  if start ids <=? vector_store_start ids
  then Err Invalid "This is a bug, vectorStoreStart should be less than start when assigning a vector-store entry file."
  else Ok (assign_first entry (vector_store_start ids),
           mkRowIds (start ids) (blob_start_default ids) (blob_starts ids)
             (Int.wrap_s 64 (vector_store_start ids + DataFileMeta.row_count (File entry)))).
Definition assign_row_id (entry : ManifestEntry.t) (ids : RowIds) : Result (ManifestEntry.t * RowIds) :=
  match DataFileMeta.file_source (File entry) with
  | None => Err Invalid "This is a bug, file source field for row-tracking table must present."
  | Some _ =>
      if needs_row_id (File entry) then
        if IsBlobFile (DataFileMeta.file_name (File entry)) then assign_blob entry ids
        else if IsVectorStoreFile (DataFileMeta.file_name (File entry)) then assign_vector entry ids
        else Ok (assign_first entry (start ids),
                 mkRowIds (Int.wrap_s 64 (start ids + DataFileMeta.row_count (File entry))) (start ids) ∅ (vector_store_start ids))
      else Ok (entry, ids)
  end.
Fixpoint assign_loop (delta_files : list ManifestEntry.t) (ids : RowIds) : Result (Z * list ManifestEntry.t) :=
  match delta_files with
  | [] => Ok (start ids, [])
  | entry :: rest =>
      assigned ← assign_row_id entry ids;
      result ← assign_loop rest assigned.2;
      Ok (result.1, assigned.1 :: result.2)
  end.
Definition AssignRowTrackingMeta (first_row_id_start : Z) (delta_files : list ManifestEntry.t) : Result (Z * list ManifestEntry.t) :=
  assign_loop delta_files (mkRowIds first_row_id_start first_row_id_start ∅ first_row_id_start).
Definition AssignRowTracking (new_snapshot_id first_row_id_start : Z) (delta_files : list ManifestEntry.t) : Result (Z * list ManifestEntry.t) :=
  AssignRowTrackingMeta first_row_id_start (AssignSnapshotId new_snapshot_id delta_files).
End RowTrackingCommitUtils.
Import RowTrackingCommitUtils.

(** ** What the assignment does *)

(** The files are the same up to their row ids and sequence numbers. *)
Definition without_ids (f : DataFileMeta.t) : DataFileMeta.t :=
  let f := DataFileMeta.AssignFirstRowId 0 (DataFileMeta.AssignSequenceNumber 0 0 f) in f.
Definition same_file (a b : ManifestEntry.t) : Prop := with_file a (without_ids (File a)) = with_file b (without_ids (File b)).
Definition new_data (e : ManifestEntry.t) : bool := needs_row_id (File e) && negb (IsDedicatedStorageFile (DataFileMeta.file_name (File e))).
Definition rows (es : list ManifestEntry.t) : Z := foldr (λ e n, DataFileMeta.row_count (File e) + n) 0 es.

(** The files have the row ids from [first] on, one after the other, up to [next]. *)
Fixpoint tiles (first : Z) (es : list ManifestEntry.t) (next : Z) : Prop :=
  match es with
  | [] => next = first
  | e :: es => DataFileMeta.first_row_id (File e) = Some first ∧ tiles (first + DataFileMeta.row_count (File e)) es next
  end.
Definition new_files (delta assigned : list ManifestEntry.t) : list ManifestEntry.t :=
  (filter (λ p, new_data p.1 = true) (zip delta assigned)).*2.

(** How one entry is changed; a dedicated file starts in a data file before it. *)
Definition assigns (first next : Z) (a b : ManifestEntry.t) : Prop :=
  if needs_row_id (File a) then ∃ f, b = assign_first a f ∧ first ≤ f ≤ next ∧ (new_data a = false → f < next) else b = a.

Definition ids_ok (first : Z) (ids : RowIds) : Prop :=
  first ≤ blob_start_default ids ≤ start ids ∧ first ≤ vector_store_start ids ∧ ∀ name n, blob_starts ids !! name = Some n → first ≤ n.

Lemma assigns_later first next next' a b : next ≤ next' → assigns first next a b → assigns first next' a b.
Proof. unfold assigns. intros Hle. destruct (needs_row_id (File a)); [|done]. intros (f&->&Hf&Hd). exists f. split_and!; [done|lia..|]. intros H%Hd. lia. Qed.

Lemma wrap_id x : - 2 ^ 63 ≤ x < 2 ^ 63 → Int.wrap_s 64 x = x.
Proof. by apply (Int.wrap_s_id 64). Qed.

(** One entry: the new data files move the next row id. *)
Lemma assign_row_id_ok first e ids b ids' : 0 ≤ first → ids_ok first ids → 0 ≤ DataFileMeta.row_count (File e) →
  start ids + DataFileMeta.row_count (File e) < 2 ^ 63 → assign_row_id e ids = Ok (b, ids') →
  ids_ok first ids' ∧ assigns first (start ids') e b ∧ start ids' = start ids + (if new_data e then DataFileMeta.row_count (File e) else 0) ∧
  (new_data e = true → b = assign_first e (start ids)).
Proof.
  intros Hfirst (Hb&Hv&Hbs) Hn Hmax. unfold assign_row_id. destruct (DataFileMeta.file_source (File e)); [|done].
  unfold assigns, new_data, ids_ok. destruct (needs_row_id (File e)) eqn:En; [|intros [= <- <-]; cbn; split_and!; (done || lia)].
  unfold IsDedicatedStorageFile. assert (Hwrap : ∀ n, first ≤ n → n < start ids → first ≤ Int.wrap_s 64 (n + DataFileMeta.row_count (File e))).
  { intros n H1 H2. rewrite wrap_id by lia. lia. }
  destruct (IsBlobFile _).
  - cbn. unfold assign_blob. destruct (DataFileMeta.write_cols (File e)) as [[|name cols]|]; [done| |done].
    set (n := default _ _). assert (Hn0 : first ≤ n).
    { subst n. destruct (blob_starts ids !! name) as [x|] eqn:Ex; cbn; [by apply Hbs in Ex|lia]. }
    destruct (Z.leb_spec (start ids) n); [done|]. intros [= <- <-]. cbn. split_and!; [lia|lia|done| | |lia|done].
    + intros name' x. destruct (decide (name' = name)) as [->|Hne]; [rewrite lookup_insert_eq; intros [= <-]; auto|].
      rewrite lookup_insert_ne by done. apply Hbs.
    + exists n. split_and!; (done || lia).
  - destruct (IsVectorStoreFile _); cbn.
    + unfold assign_vector. destruct (Z.leb_spec (start ids) (vector_store_start ids)); [done|]. intros [= <- <-]. cbn.
      split_and!; [lia|lia|auto|done| |lia|done]. exists (vector_store_start ids). split_and!; (done || lia).
    + intros [= <- <-]. cbn. rewrite wrap_id by lia. split_and!; [lia|lia|done| | |done|done].
      * intros name n. by rewrite lookup_empty.
      * exists (start ids). split_and!; (done || lia).
Qed.

Lemma rows_nonneg es : Forall (λ e, 0 ≤ DataFileMeta.row_count (File e)) es → 0 ≤ rows es.
Proof. unfold rows. induction 1; cbn in *; lia. Qed.

Lemma assign_loop_ok first delta ids next out : 0 ≤ first → ids_ok first ids → Forall (λ e, 0 ≤ DataFileMeta.row_count (File e)) delta →
  start ids + rows delta < 2 ^ 63 → assign_loop delta ids = Ok (next, out) →
  start ids ≤ next ≤ start ids + rows delta ∧ Forall2 (assigns first next) delta out ∧ tiles (start ids) (new_files delta out) next.
Proof.
  intros Hfirst. revert ids next out. induction delta as [|e delta IH]; intros ids next out Hids Hd Hmax; cbn [assign_loop].
  { intros [= <- <-]. cbn in *. split_and!; [lia..|constructor|done]. }
  apply Forall_cons in Hd as [He Hd]. pose proof (rows_nonneg _ Hd) as Hr. cbn [rows foldr] in Hmax. fold (rows delta) in Hmax.
  intros ([b ids']&Hb&([next' out']&Hout&[= <- <-])%bind_Ok)%bind_Ok. cbn [fst snd] in *.
  destruct (assign_row_id_ok first e ids b ids') as (Hids'&Hab&Es&Hnew); [done..|lia|done|].
  destruct (IH ids' next' out') as (Hn&Hf&Ht); [done..| |done|].
  { rewrite Es. destruct (new_data e); lia. }
  cbn [rows foldr]. fold (rows delta). split_and!.
  - destruct (new_data e); lia.
  - destruct (new_data e); lia.
  - constructor; [|done]. eapply assigns_later; [|exact Hab]. lia.
  - unfold new_files. cbn [zip zip_with]. rewrite filter_cons. cbn [fst]. destruct (new_data e).
    + rewrite decide_True by done. cbn. rewrite (Hnew eq_refl). cbn. split; [done|]. by rewrite <-Es.
    + rewrite decide_False by done. rewrite Es, Z.add_0_r in Ht. exact Ht.
Qed.

Lemma assign_snapshot_same id e : same_file e (assign_snapshot_id id e).
Proof. unfold assign_snapshot_id, same_file. destruct (_ =? 0); [done|]. by destruct (_ =? 0). Qed.
Lemma assign_snapshot_file id e : DataFileMeta.row_count (File (assign_snapshot_id id e)) = DataFileMeta.row_count (File e) ∧
  needs_row_id (File (assign_snapshot_id id e)) = needs_row_id (File e) ∧ new_data (assign_snapshot_id id e) = new_data e ∧
  DataFileMeta.first_row_id (File (assign_snapshot_id id e)) = DataFileMeta.first_row_id (File e).
Proof. unfold assign_snapshot_id. destruct (_ =? 0); [done|]. by destruct (_ =? 0). Qed.
Lemma assigns_same first next a b : assigns first next a b → same_file a b.
Proof. unfold assigns, same_file. destruct (needs_row_id (File a)); [|by intros ->]. by intros (f&->&_). Qed.
Lemma assigns_first first next a b : assigns first next a b →
  if needs_row_id (File a) then ∃ f, DataFileMeta.first_row_id (File b) = Some f ∧ first ≤ f ≤ next ∧ (new_data a = false → f < next)
  else DataFileMeta.first_row_id (File b) = DataFileMeta.first_row_id (File a).
Proof. unfold assigns. destruct (needs_row_id (File a)); [|by intros ->]. intros (f&->&Hf). by exists f. Qed.

Lemma rows_assigned id delta : rows (AssignSnapshotId id delta) = rows delta.
Proof. induction delta as [|e delta IH]; [done|]. cbn. destruct (assign_snapshot_file id e) as [-> _]. unfold AssignSnapshotId in IH. unfold rows in *. by rewrite IH. Qed.
Lemma new_files_assigned id delta out : new_files (AssignSnapshotId id delta) out = new_files delta out.
Proof.
  revert out. induction delta as [|e delta IH]; intros [|b out]; [done..|]. specialize (IH out). unfold new_files, AssignSnapshotId in *.
  rewrite fmap_cons. cbn [zip_with]. rewrite !filter_cons. cbn [fst].
  destruct (assign_snapshot_file id e) as (_&_&->&_). destruct (decide (new_data e = true)); cbn; by rewrite IH.
Qed.

(** The rows of the new files of a commit get the next row ids of the table:
    the new data files have the ids from the next one on, without gaps and
    without overlaps; dedicated files start in these; other files keep what they
    have. Nothing else of a file is changed but its sequence numbers. *)
Theorem row_ids_assigned new_snapshot_id first_row_id_start delta next assigned :
  0 ≤ first_row_id_start → Forall (λ e, 0 ≤ DataFileMeta.row_count (File e)) delta → first_row_id_start + rows delta < 2 ^ 63 →
  AssignRowTracking new_snapshot_id first_row_id_start delta = Ok (next, assigned) →
  first_row_id_start ≤ next ≤ first_row_id_start + rows delta ∧ Forall2 same_file delta assigned ∧ tiles first_row_id_start (new_files delta assigned) next ∧
  Forall2 (λ a b, if needs_row_id (File a)
                  then ∃ f, DataFileMeta.first_row_id (File b) = Some f ∧ first_row_id_start ≤ f ≤ next ∧ (new_data a = false → f < next)
                  else DataFileMeta.first_row_id (File b) = DataFileMeta.first_row_id (File a)) delta assigned.
Proof.
  intros H0 Hd Hmax Ha. unfold AssignRowTracking, AssignRowTrackingMeta in Ha.
  destruct (assign_loop_ok first_row_id_start (AssignSnapshotId new_snapshot_id delta)
    (mkRowIds first_row_id_start first_row_id_start ∅ first_row_id_start) next assigned) as (Hn&Hf&Ht); [done| | | |done|].
  - unfold ids_ok. cbn. split_and!; [lia..|]. intros name n. by rewrite lookup_empty.
  - apply Forall_fmap. eapply Forall_impl; [exact Hd|]. intros e. cbn. by destruct (assign_snapshot_file new_snapshot_id e) as [-> _].
  - by rewrite rows_assigned.
  - cbn in Hn, Ht. rewrite new_files_assigned in Ht. unfold AssignSnapshotId in Hf. rewrite Forall2_fmap_l in Hf. rewrite rows_assigned in Hn. split_and!; [lia..| |done|].
    + eapply Forall2_impl; [exact Hf|]. intros a b Hab%assigns_same. pose proof (assign_snapshot_same new_snapshot_id a). unfold same_file in *. congruence.
    + eapply Forall2_impl; [exact Hf|]. intros a b Hab%assigns_first. by destruct (assign_snapshot_file new_snapshot_id a) as (_&<-&<-&<-).
Qed.
