(* ===== verification/ManifestFiles.v ===== *)
(** * Manifest files and manifest lists

    The names given out by [FileStorePathFactory]
    (src/paimon/core/utils/file_store_path_factory.h), [ManifestFileMeta],
    [ManifestEntryWriter] (src/paimon/core/manifest/manifest_file_meta.h,
    manifest_entry_writer.{h,cpp}), [ManifestFile::Write] (manifest_file.cpp)
    with its rolling writer, and [ObjectsFile::Read], [WriteWithoutRolling] and
    [DeleteQuietly] (src/paimon/core/utils/objects_file.h) over a file system
    whose operations may fail at any time.

    The encoding of entries is left out: a file holds the records written to
    it. Files that are being written hold nothing that can be read. *)

From stdpp Require Import base list gmap strings pretty.
From Stdlib Require Import ZArith Lia.
From S2P Require Import Prelude Rows DataFiles StateError Paths Manifests.
Local Open Scope Z_scope.

(** ** ManifestFileMeta *)

Module ManifestFileMeta.
Record t := mk {
  FileName : string;
  FileSize : Z;
  NumAddedFiles : Z;
  NumDeletedFiles : Z;
  PartitionStats : SimpleStats;
  SchemaId : Z;
  MinBucket : option Z;
  MaxBucket : option Z;
  MinLevel : option Z;
  MaxLevel : option Z;
  MinRowId : option Z;
  MaxRowId : option Z
}.
#[export] Instance t_eq_dec : EqDecision t.
Proof. solve_decision. Defined.
End ManifestFileMeta.
Export (hints) ManifestFileMeta.
Import ManifestFileMeta.

(** ** ManifestEntryWriter: the summary of the entries of a file *)

Module ManifestEntryWriter.
Record RowIdStats := mkRowIdStats { min_row_id : Z; max_row_id : Z }.
Definition Collect (first_row_id row_count : Z) (s : RowIdStats) : RowIdStats :=
  mkRowIdStats (Z.min (min_row_id s) first_row_id) (Z.max (max_row_id s) (Int.wrap_s 64 (first_row_id + row_count - 1))).

Record t := mk {
  num_added_files_ : Z;
  num_deleted_files_ : Z;
  schema_id_ : Z;
  min_bucket_ : Z;
  max_bucket_ : Z;
  min_level_ : Z;
  max_level_ : Z;
  row_id_stats_ : option RowIdStats;
  partitions_ : list InternalRow
}.
Definition int_max (w : Z) : Z := 2 ^ (w - 1) - 1.
Definition int_min (w : Z) : Z := - 2 ^ (w - 1).
Definition new : t :=
  mk 0 0 0 (int_max 32) (int_min 32) (int_max 32) (int_min 32) (Some (mkRowIdStats (int_max 64) (int_min 64))) [].

(** [Write] after the record has been handed to the format writer;
    [partitions_] is what the statistics collector has seen. *)
Definition Note (entry : ManifestEntry.t) (w : t) : Result t :=
  '(added, deleted) ←
    (if decide (ManifestEntry.Kind entry = FileKind.Add) then Ok (num_added_files_ w + 1, num_deleted_files_ w)
     else if decide (ManifestEntry.Kind entry = FileKind.Delete) then Ok (num_added_files_ w, num_deleted_files_ w + 1)
     else Err NotImplemented "Unknown entry kind");
  let bucket := ManifestEntry.Bucket entry in
  let level := ManifestEntry.Level entry in
  let file := ManifestEntry.File entry in
  Ok (mk added deleted (Z.max (schema_id_ w) (DataFileMeta.schema_id file)) (Z.min (min_bucket_ w) bucket)
        (Z.max (max_bucket_ w) bucket) (Z.min (min_level_ w) level) (Z.max (max_level_ w) level)
        (match row_id_stats_ w, DataFileMeta.first_row_id file with
         | Some s, Some first_row_id => Some (Collect first_row_id (DataFileMeta.row_count file) s)
         | _, _ => None
         end)
        (partitions_ w ++ [ManifestEntry.Partition entry])).

Definition GetResult (stats : list InternalRow → Result SimpleStats) (path : string) (output_bytes : Z) (w : t) : Result ManifestFileMeta.t :=
  stats ← stats (partitions_ w);
  Ok (ManifestFileMeta.mk (PathUtil.GetName path) output_bytes (num_added_files_ w) (num_deleted_files_ w) stats (schema_id_ w)
        (Some (min_bucket_ w)) (Some (max_bucket_ w)) (Some (min_level_ w)) (Some (max_level_ w))
        (min_row_id <$> row_id_stats_ w) (max_row_id <$> row_id_stats_ w)).
End ManifestEntryWriter.

(** ** The file system *)

(** What a file holds; [Partial] is a file that is being written. *)
Inductive Content (Other : Type) := Partial | Manifest (entries : list ManifestEntry.t) | ManifestList (metas : list ManifestFileMeta.t)
                  | OtherFile (content : Other).
Arguments Partial {Other}.
Arguments Manifest {Other} entries.
Arguments ManifestList {Other} metas.
Arguments OtherFile {Other} content.

(** The operations of the file system and of the formats that may fail. *)
Inductive Op := OpSerialize | OpCreate | OpBuild | OpAddBatch | OpFlush | OpFinish | OpGetPos | OpClose | OpReachTargetSize | OpStats
              | OpDelete | OpOpen | OpRead | OpExists | OpRename | OpClock.

Section Files.
Context {Other : Type}.
Abbreviation Content := (Content Other).

(** The counters of the path factory of one process, and the number of
    operations it has called. *)
Record Local := mkLocal { ticks : nat; manifest_file_count_ : Z; manifest_list_count_ : Z }.
Definition St : Type := gmap string Content * Local.

Context (fault : Op → nat → Result unit).
Definition tick (l : Local) : Local := mkLocal (S (ticks l)) (manifest_file_count_ l) (manifest_list_count_ l).
Definition io (op : Op) : M St unit := λ s, (fault op (ticks s.2), (s.1, tick s.2)).
Definition on_files (f : gmap string Content → gmap string Content) : M St unit := modify (λ s, (f s.1, s.2)).
(** A deletion whose status is ignored. *)
Definition Delete (path : string) (s : St) : St :=
  (match fault OpDelete (ticks s.2) with Ok _ => delete path s.1 | Err _ _ => s.1 end, tick s.2).
(** [Create] without overwriting. *)
Definition Create (path : string) : M St unit :=
  _ ← io OpCreate;
  found ← gets (λ s : St, s.1 !! path);
  match found with
  | Some _ => fail IOError "the file exists"
  | None => on_files <[path := Partial]>
  end.

(** ** FileStorePathFactory *)

Context (root_ uuid_ : string).
Definition ManifestPath : string := PathUtil.JoinPath root_ "/manifest".
Definition manifest_name (n : Z) : string := "manifest-" +:+ uuid_ +:+ "-" +:+ pretty n.
Definition manifest_list_name (n : Z) : string := "manifest-list-" +:+ uuid_ +:+ "-" +:+ pretty n.
(** [ToManifestFilePath] and [ToManifestListPath]. *)
Definition ToPath (file_name : string) : string := PathUtil.JoinPath ManifestPath file_name.
Definition NewManifestFile : M St string := λ s,
  (Ok (ToPath (manifest_name (manifest_file_count_ s.2))),
   (s.1, mkLocal (ticks s.2) (manifest_file_count_ s.2 + 1) (manifest_list_count_ s.2))).
Definition NewManifestList : M St string := λ s,
  (Ok (ToPath (manifest_list_name (manifest_list_count_ s.2))),
   (s.1, mkLocal (ticks s.2) (manifest_file_count_ s.2) (manifest_list_count_ s.2 + 1))).

(** ** ObjectsFile *)

Context (file_format_identifier_ : string).
Definition ValidateWrite : M St unit :=
  if String.eqb file_format_identifier_ "avro" then mret () else fail Invalid "only 'avro' can be used for writing manifests".

Definition DeleteQuietly (file_name : string) (s : St) : St := Delete (ToPath file_name) s.

Definition ReadManifest (file_name : string) : M St (list ManifestEntry.t) :=
  _ ← io OpOpen;
  found ← gets (λ s : St, s.1 !! ToPath file_name);
  match found with
  | Some (Manifest entries) => _ ← io OpRead; mret entries
  | Some _ => fail Invalid "not a manifest"
  | None => fail NotExist "the file does not exist"
  end.
Definition ReadManifestList (file_name : string) : M St (list ManifestFileMeta.t) :=
  _ ← io OpOpen;
  found ← gets (λ s : St, s.1 !! ToPath file_name);
  match found with
  | Some (ManifestList metas) => _ ← io OpRead; mret metas
  | Some _ => fail Invalid "not a manifest list"
  | None => fail NotExist "the file does not exist"
  end.

(** The size of the encoded records. *)
Context (SizeOf : Content → Z).

(** [WriteWithoutRolling] of a manifest list; the guard hands the path of the
    file to a function that expects its name. *)
Definition WriteManifestList (metas : list ManifestFileMeta.t) : M St (string * Z) :=
  _ ← ValidateWrite;
  file_path ← NewManifestList;
  _ ← io OpSerialize;
  guarded (DeleteQuietly file_path) (
    _ ← Create file_path;
    _ ← io OpBuild;
    _ ← io OpAddBatch;
    _ ← io OpFlush;
    _ ← io OpFinish;
    _ ← on_files <[file_path := ManifestList metas]>;
    _ ← io OpFlush;
    _ ← io OpGetPos;
    _ ← io OpClose;
    mret (PathUtil.GetName file_path, SizeOf (ManifestList metas))).

(** ** ManifestFile::Write *)

(** The rolling writer and its current file: the path, the entries and their
    summary. *)
Record Rolling := mkRolling {
  current_writer_ : option (string * list ManifestEntry.t * ManifestEntryWriter.t);
  closed_writers_ : list string;
  results_ : list ManifestFileMeta.t
}.
Definition RS : Type := Rolling * St.
Definition lift {A} (m : M St A) : M RS A := λ s, let '(r, st) := m s.2 in (r, (s.1, st)).
Definition on_rolling (f : Rolling → Rolling) : M RS unit := modify (λ s, (f s.1, s.2)).

(** Whether the file of these entries has reached the target size, and the
    statistics of the partitions. *)
Context (ReachTargetSize : list ManifestEntry.t → bool) (partition_stats : list InternalRow → Result SimpleStats).

Definition Abort (s : RS) : RS :=
  (s.1, foldl (λ st path, Delete path st)
          (match current_writer_ s.1 with Some (path, _, _) => Delete path s.2 | None => s.2 end) (closed_writers_ s.1)).

(** [ManifestEntryWriterFactory::CreateWriter]: a writer whose [Init] fails
    deletes its file and is not kept. *)
Definition OpenCurrentWriter : M RS unit :=
  path ← lift NewManifestFile;
  _ ← lift (guarded (Delete path) (_ ← Create path; io OpBuild));
  on_rolling (λ r, mkRolling (Some (path, [], ManifestEntryWriter.new)) (closed_writers_ r) (results_ r)).

Definition CloseCurrentWriter : M RS unit :=
  r ← gets fst;
  match current_writer_ r with
  | None => mret ()
  | Some (path, entries, w) =>
      _ ← lift (io OpFinish);
      _ ← lift (on_files <[path := Manifest entries]>);
      _ ← lift (io OpClose);
      _ ← on_rolling (λ r, mkRolling (current_writer_ r) (closed_writers_ r ++ [path]) (results_ r));
      _ ← lift (io OpStats);
      match ManifestEntryWriter.GetResult partition_stats path (SizeOf (Manifest entries)) w with
      | Err c e => fail c e
      | Ok result => on_rolling (λ r, mkRolling None (closed_writers_ r) (results_ r ++ [result]))
      end
  end.

Definition WriteEntry (entry : ManifestEntry.t) : M RS unit :=
  guarded Abort (
    r ← gets fst;
    _ ← match current_writer_ r with None => OpenCurrentWriter | Some _ => mret () end;
    _ ← lift (io OpAddBatch);
    r ← gets fst;
    match current_writer_ r with
    | None => fail UnknownError "null pointer"
    | Some (path, entries, w) =>
        match ManifestEntryWriter.Note entry w with
        | Err c e => fail c e
        | Ok w' =>
            _ ← on_rolling (λ r, mkRolling (Some (path, entries ++ [entry], w')) (closed_writers_ r) (results_ r));
            _ ← lift (io OpReachTargetSize);
            if ReachTargetSize (entries ++ [entry]) then CloseCurrentWriter else mret ()
        end
    end).

Definition WriteAll (entries : list ManifestEntry.t) : M RS (list ManifestFileMeta.t) :=
  _ ← guarded Abort (for_each WriteEntry entries);
  _ ← guarded Abort CloseCurrentWriter;
  gets (λ s : RS, results_ s.1).
Definition with_new_writer {A} (m : M RS A) : M St A := λ s, let '(r, (_, st)) := m (mkRolling None [] [], s) in (r, st).
Definition WriteManifest (entries : list ManifestEntry.t) : M St (list ManifestFileMeta.t) :=
  match entries with
  | [] => mret []
  | _ => _ ← ValidateWrite; with_new_writer (WriteAll entries)
  end.
End Files.
