(* ===== verification/ManifestFilesProofs.v ===== *)
(** * Manifest files: names and writes

    The names of the path factories of different processes are distinct; a
    manifest write that succeeds adds new files that hold the entries, one that
    fails leaves the files as they were; a manifest list write that fails may
    leave the new file behind. *)

From stdpp Require Import base list gmap strings pretty.
From Stdlib Require Import ZArith Lia Ascii.
From S2P Require Import Prelude Rows DataFiles StateError Paths Manifests ManifestFiles.
Import ManifestFileMeta.
Local Open Scope Z_scope.
#[local] Arguments wp : simpl never.

(** ** Names *)

Definition dash : ascii := "-"%char.
Definition no_dash (s : string) : Prop := dash ∉ chars s.

Lemma no_dash_pretty_N (x : N) (s : string) : no_dash s → no_dash (pretty_N_go x s).
Proof.
  revert s. induction (N.lt_wf_0 x) as [x _ IH]; intros s Hs.
  assert (x = 0 ∨ 0 < x)%N as [->|Hx] by lia; [done|].
  rewrite pretty_N_go_step by done. apply IH; [by apply N.div_lt|]. unfold no_dash. cbn. apply not_elem_of_cons. split; [|done].
  unfold pretty_N_char. by repeat case_match.
Qed.
Lemma no_dash_pretty n : 0 ≤ n → no_dash (pretty n).
Proof.
  assert (H : ∀ p, no_dash (pretty (Npos p))).
  { intros p. unfold pretty, pretty_N. case_decide; [done|]. apply no_dash_pretty_N. apply not_elem_of_nil. }
  intros Hn. destruct n as [|p|p]; cbn; [|apply H|lia]. apply not_elem_of_cons. split; [done|apply not_elem_of_nil].
Qed.

Lemma first_split {A} (x : A) l1 l2 t1 t2 : x ∉ l1 → x ∉ l2 → l1 ++ x :: t1 = l2 ++ x :: t2 → l1 = l2 ∧ t1 = t2.
Proof.
  revert l2. induction l1 as [|a l1 IH]; intros [|b l2] H1 H2 E; cbn in E.
  - by injection E.
  - injection E as -> _. destruct H2. by left.
  - injection E as -> _. destruct H1. by left.
  - injection E as -> E. apply not_elem_of_cons in H1 as [_ H1], H2 as [_ H2]. by destruct (IH l2 H1 H2 E) as [-> ->].
Qed.
Lemma dash_split (s1 s2 d1 d2 : string) : no_dash d1 → no_dash d2 → s1 +:+ "-" +:+ d1 = s2 +:+ "-" +:+ d2 → s1 = s2 ∧ d1 = d2.
Proof.
  intros H1 H2 E. apply (f_equal chars) in E. rewrite !chars_app in E. change (chars "-") with [dash] in E.
  apply (f_equal reverse) in E. rewrite !reverse_app, !reverse_singleton, <-!(assoc_L app) in E. unfold no_dash in *.
  rewrite <-elem_of_reverse in H1, H2. destruct (first_split _ _ _ _ _ H1 H2 E) as [Ed Es].
  apply (f_equal reverse) in Ed, Es. rewrite !reverse_involutive in Ed, Es. split; by apply chars_inj.
Qed.

Lemma append_assoc (a b c : string) : (a +:+ b) +:+ c = a +:+ (b +:+ c).
Proof. apply chars_inj. by rewrite !chars_app, (assoc_L app). Qed.

Section Names.
Context (root_ : string).
Abbreviation ToPath := (ToPath root_).

Lemma manifest_name_inj u v n m : 0 ≤ n → 0 ≤ m → manifest_name u n = manifest_name v m → u = v ∧ n = m.
Proof.
  unfold manifest_name. intros Hn Hm E%append_inj_l. apply dash_split in E as [-> E]; try by apply no_dash_pretty.
  split; [done|]. by apply (inj pretty) in E.
Qed.
Lemma manifest_list_name_inj u v n m : 0 ≤ n → 0 ≤ m → manifest_list_name u n = manifest_list_name v m → u = v ∧ n = m.
Proof.
  unfold manifest_list_name. intros Hn Hm E%append_inj_l. apply dash_split in E as [-> E]; try by apply no_dash_pretty.
  split; [done|]. by apply (inj pretty) in E.
Qed.
(** All the identifiers of processes have the same length. *)
Lemma manifest_names_disjoint u v n m : 0 ≤ n → 0 ≤ m → String.length u = String.length v → manifest_name u n ≠ manifest_list_name v m.
Proof.
  unfold manifest_name, manifest_list_name. intros Hn Hm Hlen E.
  change ("manifest-list-" +:+ v +:+ "-" +:+ pretty m) with ("manifest-" +:+ ("list-" +:+ v +:+ "-" +:+ pretty m)) in E.
  apply append_inj_l in E. rewrite <-(append_assoc "list-" v) in E. apply dash_split in E as [-> E]; try by apply no_dash_pretty.
  clear -Hlen. revert Hlen. change ("list-" +:+ v) with (String "l" (String "i" (String "s" (String "t" (String "-" v))))). cbn. lia.
Qed.

Lemma manifest_name_path u n : no_slash u → manifest_name u n ≠ ""%string ∧ no_slash (manifest_name u n).
Proof.
  intros Hu. split; [done|]. unfold manifest_name. rewrite !no_slash_app. split_and!; [by repeat constructor|done|by repeat constructor|].
  apply no_slash_pretty.
Qed.
Lemma manifest_list_name_path u n : no_slash u → manifest_list_name u n ≠ ""%string ∧ no_slash (manifest_list_name u n).
Proof.
  intros Hu. split; [done|]. unfold manifest_list_name. rewrite !no_slash_app. split_and!; [by repeat constructor|done|by repeat constructor|].
  apply no_slash_pretty.
Qed.
Lemma ToPath_inj a b : a ≠ ""%string ∧ no_slash a → b ≠ ""%string ∧ no_slash b → ToPath a = ToPath b → a = b.
Proof. intros [??] [??]. by apply JoinPath_inj. Qed.
Lemma ManifestPath_end : ∃ d, ManifestPath root_ = d +:+ "manifest".
Proof.
  unfold ManifestPath, PathUtil.JoinPath. destruct (rev (chars root_)) as [|p r]; cbn; [by exists "/"%string|].
  destruct (is_slash p); cbn; [by exists root_|]. exists (root_ +:+ "/"). by rewrite append_assoc.
Qed.
Lemma ToPath_shape x : x ≠ ""%string →
  ToPath x = ManifestPath root_ +:+ match x with String c _ => if is_slash c then x else "/" +:+ x | _ => x end.
Proof.
  intros Hx. unfold ManifestFiles.ToPath. destruct ManifestPath_end as [d ->]. unfold PathUtil.JoinPath.
  rewrite chars_app, rev_app_distr. cbn. destruct x as [|c x]; [done|]. cbn. by destruct (is_slash c).
Qed.
(** The path of a path is not that of a name. *)
Lemma nested_ne a b : a ≠ ""%string ∧ no_slash a → b ≠ ""%string ∧ no_slash b → ToPath a ≠ ToPath (ToPath b).
Proof.
  assert (Hsl : ∀ c s, is_slash c = true → ¬ no_slash (String c s)).
  { intros c s Hc H. apply Forall_cons in H as [H _]. congruence. }
  intros [Ha Hna] [Hb Hnb] E. rewrite (ToPath_shape a Ha), (ToPath_shape (ToPath b)) in E.
  2: { rewrite (ToPath_shape b Hb). destruct ManifestPath_end as [d ->]. by destruct d. }
  apply append_inj_l in E. destruct a as [|c a]; [done|]. destruct (is_slash c) eqn:Ec; [by destruct (Hsl c a)|].
  rewrite (ToPath_shape b Hb) in E. destruct b as [|c' b]; [done|]. destruct (is_slash c') eqn:Ec'; [by destruct (Hsl c' b)|].
  destruct ManifestPath_end as [d Hd]. rewrite Hd, append_assoc in E. clear Hd.
  assert (Hnd : ∀ d, ¬ no_slash (d +:+ ("manifest" +:+ ("/" +:+ String c' b)))).
  { intros d' H. apply no_slash_app in H as [_ H]. apply no_slash_app in H as [_ H]. apply no_slash_app in H as [H _].
    by destruct (Hsl slash ""%string). }
  destruct d as [|c2 d].
  - apply (append_inj_l "/") in E. rewrite E in Hna. exact (Hnd ""%string Hna).
  - change (String c2 d +:+ ("manifest" +:+ ("/" +:+ String c' b))) with (String c2 (d +:+ ("manifest" +:+ ("/" +:+ String c' b)))) in E.
    cbn match in E. destruct (is_slash c2).
    + injection E as _ E. change (String c a = d +:+ ("manifest" +:+ ("/" +:+ String c' b))) in E. rewrite E in Hna. by apply (Hnd d).
    + apply append_inj_l in E. rewrite E in Hna. exact (Hnd (String c2 d) Hna).
Qed.
Lemma GetName_ToPath a : a ≠ ""%string ∧ no_slash a → PathUtil.GetName (ToPath a) = a.
Proof. intros [??]. by apply GetName_JoinPath. Qed.
End Names.

(** ** Writing *)

Section Writing.
Context {Other : Type}.
Abbreviation Content := (Content Other).
Abbreviation St := (@St Other).
Abbreviation RS := (@RS Other).
Context (fault : Op → nat → Result unit) (root_ uuid_ file_format_identifier_ : string) (SizeOf : Content → Z).
Context (ReachTargetSize : list ManifestEntry.t → bool) (partition_stats : list InternalRow → Result SimpleStats).
Context (Huuid : no_slash uuid_).
Abbreviation ToPath := (ToPath root_).
Abbreviation WriteManifest := (WriteManifest fault root_ uuid_ file_format_identifier_ SizeOf ReachTargetSize partition_stats).
Abbreviation WriteManifestList := (WriteManifestList fault root_ uuid_ file_format_identifier_ SizeOf).

(** What may go wrong. *)
Definition faulty : Prop :=
  (∃ op n, is_ok (fault op n) = false) ∨ (∃ l, is_ok (partition_stats l) = false) ∨ file_format_identifier_ ≠ "avro"%string.
Definition deletes_ok : Prop := ∀ n, fault OpDelete n = Ok ().

(** The names the path factory will give out are not in use; there is no copy
    of the directory within itself. *)
Definition fresh (s : St) : Prop :=
  0 ≤ manifest_file_count_ s.2 ∧ 0 ≤ manifest_list_count_ s.2 ∧
  (∀ k, manifest_file_count_ s.2 ≤ k → s.1 !! ToPath (manifest_name uuid_ k) = None) ∧
  (∀ k, manifest_list_count_ s.2 ≤ k → s.1 !! ToPath (manifest_list_name uuid_ k) = None) ∧
  (∀ k, 0 ≤ k → s.1 !! ToPath (ToPath (manifest_list_name uuid_ k)) = None).
Definition later (l l' : Local) : Prop :=
  manifest_file_count_ l ≤ manifest_file_count_ l' ∧ manifest_list_count_ l ≤ manifest_list_count_ l'.

#[global] Instance later_preorder : PreOrder later.
Proof. unfold later. split; [intros l; lia|intros a b c; lia]. Qed.

Ltac solve_later := unfold later, tick in *; cbn in *; lia.

Lemma fresh_later fs l l' : fresh (fs, l) → later l l' → fresh (fs, l').
Proof. unfold fresh, later. cbn. intros (?&?&H1&H2&?) [??]. split_and!; [lia..| | |done]; intros k Hk; [apply H1|apply H2]; lia. Qed.

Lemma manifest_wp_io op (Q : unit → St → Prop) (E : St → Prop) s :
  Q () (s.1, tick s.2) → (is_ok (fault op (ticks s.2)) = false → E (s.1, tick s.2)) → wp (io fault op) Q E s.
Proof. intros HQ HE. unfold wp, io. destruct (fault op (ticks s.2)) as [[]|]; [done|by apply HE]. Qed.

Lemma wp_lift {A} (m : M St A) (Q : A → RS → Prop) (E : RS → Prop) r s :
  wp m (λ a s', Q a (r, s')) (λ s', E (r, s')) s → wp (lift m) Q E (r, s).
Proof. unfold wp, lift. cbn. by destruct (m s) as [[a|c e] s']. Qed.

Lemma later_tick l : later l (tick l).
Proof. unfold later, tick. cbn. lia. Qed.

Lemma manifest_Delete_files path (s : St) : deletes_ok → (Delete fault path s).1 = delete path s.1.
Proof. intros Hd. unfold Delete. by rewrite Hd. Qed.
Lemma Delete_local path (s : St) : (Delete fault path s).2 = tick s.2.
Proof. done. Qed.

Lemma manifest_fold_Delete ps (s : St) : later s.2 (foldl (λ st p, Delete fault p st) s ps).2 ∧
  (deletes_ok → ∀ p, (foldl (λ st p, Delete fault p st) s ps).1 !! p = if decide (p ∈ ps) then None else s.1 !! p).
Proof.
  revert s. induction ps as [|q ps IH]; intros s; cbn.
  - split; [done|]. intros _ p. by rewrite decide_False by apply not_elem_of_nil.
  - destruct (IH (Delete fault q s)) as [H1 H2]. split; [by etrans; [apply later_tick|exact H1]|].
    intros Hd p. rewrite H2, manifest_Delete_files by done. destruct (decide (p ∈ ps)) as [Hp|Hp].
    + by rewrite decide_True by by right.
    + destruct (decide (p = q)) as [->|Hne].
      * rewrite decide_True by by left. by rewrite lookup_delete_eq.
      * rewrite decide_False; [by rewrite lookup_delete_ne|]. by intros [?|?]%elem_of_cons.
Qed.

(** The paths of the files of a writer, which did not exist before. *)
Definition own (r : Rolling) : list string := closed_writers_ r ++ option_list ((λ c, c.1.1) <$> current_writer_ r).
(** A new file has a name of the path factory. *)
Definition new_path (fs : gmap string Content) (p : string) : Prop := fs !! p = None ∧ ∃ k, 0 ≤ k ∧ p = ToPath (manifest_name uuid_ k).
Definition frame (fs : gmap string Content) (s : RS) : Prop :=
  (∀ p, p ∉ own s.1 → s.2.1 !! p = fs !! p) ∧ Forall (new_path fs) (own s.1).

Lemma frame_grows fs (s : RS) : frame fs s → fs ⊆ s.2.1.
Proof.
  intros [H1 H2]. apply map_subseteq_spec. intros p c Hp. rewrite H1; [done|]. rewrite Forall_forall in H2. intros [? _]%H2. congruence.
Qed.
Lemma Delete_grows fs (s : St) p : fs ⊆ s.1 → fs !! p = None → fs ⊆ (Delete fault p s).1.
Proof.
  intros Hs Hp. unfold Delete. destruct (fault _ _); [|done]. cbn. apply map_subseteq_spec. intros q c Hq.
  rewrite lookup_delete_ne by congruence. by eapply lookup_weaken.
Qed.
Lemma fold_Delete_grows fs ps (s : St) : fs ⊆ s.1 → Forall (λ p, fs !! p = None) ps → fs ⊆ (foldl (λ st p, Delete fault p st) s ps).1.
Proof.
  intros Hs Hps. revert s Hs. induction Hps as [|p ps Hp _ IH]; intros s Hs; [done|]. cbn. by apply IH, Delete_grows.
Qed.

Lemma Abort_restores fs (s : RS) : deletes_ok → frame fs s → (Abort fault s).2.1 = fs.
Proof.
  intros Hd [Hout Hown]. rewrite Forall_forall in Hown. apply map_eq. intros p. unfold Abort. cbn.
  rewrite (proj2 (manifest_fold_Delete _ _) Hd). unfold own in *.
  destruct (decide (p ∈ closed_writers_ s.1)) as [Hp|Hp]; [symmetry; apply (Hown p), elem_of_app; by left|].
  destruct (current_writer_ s.1) as [[[path es] w]|] eqn:E; cbn in *.
  - rewrite Hd. destruct (decide (p = path)) as [->|Hne].
    + rewrite lookup_delete_eq. symmetry. apply (Hown path), elem_of_app. right. by left.
    + rewrite lookup_delete_ne by done. apply Hout. rewrite elem_of_app, list_elem_of_singleton. tauto.
  - apply Hout. rewrite app_nil_r. done.
Qed.
Lemma Abort_local (s : RS) : (Abort fault s).1 = s.1 ∧ later s.2.2 (Abort fault s).2.2.
Proof.
  unfold Abort. split; [done|]. cbn. etrans; [|apply manifest_fold_Delete].
  destruct (current_writer_ s.1) as [[[path es] w]|]; cbn; [apply later_tick|done].
Qed.

(** The states reached from a start state. *)
Context (fs0 : gmap string Content) (l0 : Local).

Definition recoverable (s : RS) : Prop :=
  faulty ∧ later l0 s.2.2 ∧ fs0 ⊆ s.2.1 ∧ Forall (new_path fs0) (own s.1) ∧ (deletes_ok → frame fs0 s).
Definition failed (s : RS) : Prop := recoverable s ∧ (deletes_ok → s.2.1 = fs0).

Lemma Abort_grows s : recoverable s → fs0 ⊆ (Abort fault s).2.1.
Proof.
  intros (_&_&Hs&Hown&_). unfold own in Hown. apply Forall_app in Hown as [Hcl Hcur]. unfold Abort. cbn. apply fold_Delete_grows.
  - destruct (current_writer_ s.1) as [[[path es] w]|]; cbn in *; [|done]. rewrite Forall_singleton in Hcur. by apply Delete_grows, Hcur.
  - eapply Forall_impl; [exact Hcl|]. by intros p [? _].
Qed.

Lemma Abort_failed s : recoverable s → failed (Abort fault s).
Proof.
  intros Hrec. pose proof (Abort_grows s Hrec). destruct Hrec as (Hf&Hl&Hg&Hown&Hfr).
  destruct (Abort_local s) as [H1 H2]. split; [split_and!; [done|by etrans|done|by rewrite H1|]|].
  - intros Hd. pose proof (Abort_restores _ _ Hd (Hfr Hd)) as E. split.
    + intros p _. by rewrite E.
    + rewrite H1. by destruct (Hfr Hd).
  - intros Hd. by apply Abort_restores, Hfr.
Qed.

(** The summary of a file describes its entries. *)
Definition noted (es : list ManifestEntry.t) (w : ManifestEntryWriter.t) : Prop :=
  foldR ManifestEntryWriter.Note es ManifestEntryWriter.new = Ok w.
Definition describes (m : ManifestFileMeta.t) (es : list ManifestEntry.t) : Prop :=
  ∃ w, noted es w ∧ ManifestEntryWriter.GetResult partition_stats (ToPath (FileName m)) (SizeOf (Manifest es)) w = Ok m.
Definition stored (fs : gmap string Content) (m : ManifestFileMeta.t) (es : list ManifestEntry.t) : Prop :=
  fs !! ToPath (FileName m) = Some (Manifest es) ∧ describes m es.

Definition current_ok (s : RS) (es : list ManifestEntry.t) : Prop :=
  match current_writer_ s.1 with
  | None => es = []
  | Some (path, es', w) =>
      es' = es ∧ noted es w ∧ s.2.1 !! path = Some Partial ∧ ∃ k, 0 ≤ k ∧ path = ToPath (manifest_name uuid_ k)
  end.
Definition writes (done_ : list ManifestEntry.t) (s : RS) : Prop :=
  frame fs0 s ∧ later l0 s.2.2 ∧ fresh s.2 ∧ closed_writers_ s.1 = (λ m, ToPath (FileName m)) <$> results_ s.1 ∧
  ∃ chunks es, Forall2 (stored s.2.1) (results_ s.1) chunks ∧ concat chunks ++ es = done_ ∧ current_ok s es.

Lemma writes_tick d r st : writes d (r, st) → writes d (r, (st.1, tick st.2)).
Proof.
  destruct st as [fs l]. intros (H1&H2&H3&H4&H5). split_and!; [done| | |done|done].
  - cbn. etrans; [exact H2|apply later_tick].
  - cbn. eapply fresh_later; [exact H3|apply later_tick].
Qed.
Lemma writes_recoverable d s : faulty → writes d s → recoverable s.
Proof. intros Hf (H1&H2&_). split_and!; [done|done|by apply frame_grows|apply H1|done]. Qed.

Lemma writes_io op (Q : unit → RS → Prop) (E : RS → Prop) d r st : writes d (r, st) →
  (writes d (r, (st.1, tick st.2)) → Q () (r, (st.1, tick st.2))) → (∀ s, recoverable s → E s) → wp (lift (io fault op)) Q E (r, st).
Proof.
  intros Hw HQ HE. apply wp_lift, manifest_wp_io; [by apply HQ, writes_tick|]. intros Hf. apply HE.
  eapply writes_recoverable; [left; by eexists _, _|]. by apply writes_tick.
Qed.

Lemma fresh_insert fs l k c : fresh (fs, l) → 0 ≤ k < manifest_file_count_ l → fresh (<[ToPath (manifest_name uuid_ k) := c]> fs, l).
Proof.
  intros (H0&H1&H2&H3&H4) Hk. cbn in *. split_and!; [done..| | |]; intros j Hj; cbn in Hj |- *; rewrite lookup_insert_ne; auto.
  - intros E%ToPath_inj%manifest_name_inj; [lia|lia..|by apply manifest_name_path|by apply manifest_name_path].
  - intros E%ToPath_inj; [|by apply manifest_name_path|by apply manifest_list_name_path].
    by apply (manifest_names_disjoint uuid_ uuid_ k j) in E; [|lia..|].
  - by apply nested_ne; [apply manifest_name_path|apply manifest_list_name_path].
Qed.
Lemma fresh_insert_list fs l k c : fresh (fs, l) → 0 ≤ k < manifest_list_count_ l → fresh (<[ToPath (manifest_list_name uuid_ k) := c]> fs, l).
Proof.
  intros (H0&H1&H2&H3&H4) Hk. cbn in *. split_and!; [done..| | |]; intros j Hj; cbn in Hj |- *; rewrite lookup_insert_ne; auto.
  - intros E%ToPath_inj; [|by apply manifest_list_name_path|by apply manifest_name_path].
    symmetry in E. by apply (manifest_names_disjoint uuid_ uuid_ j k) in E; [|lia..|].
  - intros E%ToPath_inj%manifest_list_name_inj; [lia|lia..|by apply manifest_list_name_path|by apply manifest_list_name_path].
  - by apply nested_ne; apply manifest_list_name_path.
Qed.

Lemma stored_insert fs ms chunks path c : Forall2 (stored fs) ms chunks → path ∉ (((λ m, ToPath (FileName m)) <$> ms) : list string) →
  Forall2 (stored (<[path := c]> fs)) ms chunks.
Proof.
  induction 1 as [|m es ms chunks [H Hd] _ IH]; [done|]. rewrite fmap_cons, not_elem_of_cons. intros [??]. constructor; [|auto].
  split; [|done]. by rewrite lookup_insert_ne.
Qed.
Lemma stored_paths fs ms chunks p : Forall2 (stored fs) ms chunks → p ∈ (((λ m, ToPath (FileName m)) <$> ms) : list string) → is_Some (fs !! p).
Proof.
  induction 1 as [|m es ms chunks [H Hd] _ IH]; [by intros ?%elem_of_nil|]. rewrite fmap_cons.
  intros [->|Hin]%elem_of_cons; [by rewrite H; eauto|auto].
Qed.

(** A file created by the writer is new. *)
Lemma writes_new d r st path : writes d (r, st) → current_writer_ r = None → st.1 !! path = None →
  (path ∉ closed_writers_ r) ∧ fs0 !! path = None.
Proof.
  intros ([Hout _]&_&_&Hcl&chunks&es&Hst&_&_) Hcur Hnone. cbn in *.
  assert (path ∉ closed_writers_ r).
  { rewrite Hcl. intros Hin. destruct (stored_paths _ _ _ _ Hst Hin) as [? ?]. congruence. }
  split; [done|]. rewrite <-Hout; [done|]. unfold own. rewrite Hcur. cbn. by rewrite app_nil_r.
Qed.

Lemma manifest_OpenCurrentWriter_wp d r st : writes d (r, st) → current_writer_ r = None →
  wp (OpenCurrentWriter fault root_ uuid_) (λ _ s, writes d s ∧ is_Some (current_writer_ s.1)) recoverable (r, st).
Proof.
  destruct st as [fs l]. intros Hw Hcur. pose proof Hw as (Hfr&Hl&Hfresh&Hcl&chunks&es&Hst&Hd&Hc). cbn in *.
  set (k := manifest_file_count_ l). set (path := ToPath (manifest_name uuid_ k)).
  assert (Hk : 0 ≤ k) by apply Hfresh. assert (Hpath : fs !! path = None) by (apply Hfresh; reflexivity).
  destruct (writes_new _ _ _ path Hw Hcur Hpath) as [Hnew Hfs0].
  set (l1 := mkLocal (ticks l) (k + 1) (manifest_list_count_ l)).
  assert (Hl1 : later l0 l1) by (etrans; [exact Hl|]; unfold later, l1, k; cbn; lia).
  assert (Hfresh1 : fresh (fs, l1)) by (eapply fresh_later; [exact Hfresh|]; unfold later, l1, k; cbn; lia).
  assert (Hrec : ∀ fs' l', faulty → later l1 l' → fs ⊆ fs' → (deletes_ok → fs' = fs) → recoverable (r, (fs', l'))).
  { intros fs' l' Hf Hl' Hg E. split_and!; [done|by etrans|by etrans; [exact (frame_grows _ _ Hfr)|]|apply Hfr|].
    intros Hdel. cbn. rewrite (E Hdel). exact Hfr. }
  unfold OpenCurrentWriter. wp_step. apply wp_lift. unfold NewManifestFile, wp at 1. cbn. fold k path l1. wp_step. apply wp_lift. wp_step.
  wp_step. unfold Create. wp_step. apply manifest_wp_io.
  - cbn. wp_step. wp_step. cbn. rewrite Hpath. unfold on_files. wp_step. cbn. apply manifest_wp_io; cbn.
    + unfold on_rolling. wp_step. cbn. split; [|by eauto]. split_and!.
      * split; cbn; [|].
        { intros p Hp. unfold own in Hp. cbn in Hp. rewrite elem_of_app, list_elem_of_singleton in Hp. rewrite lookup_insert_ne by (intros ->; tauto).
          apply Hfr. unfold own. cbn. rewrite Hcur. cbn. rewrite app_nil_r. tauto. }
        unfold own. cbn. destruct Hfr as [_ Hown]. unfold own in Hown. cbn in Hown. rewrite Hcur in Hown. cbn in Hown. rewrite app_nil_r in Hown.
        apply Forall_app. split; [done|]. apply Forall_singleton. split; [done|]. by exists k.
      * cbn. etrans; [exact Hl1|]. etrans; apply later_tick.
      * apply fresh_insert; [|cbn; lia]. eapply fresh_later; [exact Hfresh1|]. etrans; apply later_tick.
      * done.
      * exists chunks, []. cbn. unfold current_ok in Hc. cbn in Hc. rewrite Hcur in Hc. subst es.
        split; [apply stored_insert; [done|]; by rewrite <-Hcl|]. split; [done|].
        split_and!; [done|done|apply lookup_insert_eq|]. by exists k.
    + intros Hfault. apply Hrec; [left; by eexists _, _|solve_later| |].
      { apply Delete_grows; [cbn; by apply insert_subseteq|done]. }
      intros Hdel. cbn. rewrite Hdel. by apply delete_insert_id.
  - intros Hfault. apply Hrec; [left; by eexists _, _|solve_later|by apply Delete_grows|].
    intros Hdel. cbn. rewrite Hdel. by apply delete_id.
Qed.

(** The file of a writer has been given its content. *)
Definition closing (d : list ManifestEntry.t) (path : string) (es : list ManifestEntry.t) (w : ManifestEntryWriter.t) (s : RS) : Prop :=
  frame fs0 s ∧ later l0 s.2.2 ∧ fresh s.2 ∧ (path ∉ ((λ m, ToPath (FileName m)) <$> results_ s.1 : list string)) ∧ fs0 !! path = None ∧
  (∃ k, 0 ≤ k ∧ path = ToPath (manifest_name uuid_ k)) ∧ s.2.1 !! path = Some (Manifest es) ∧ noted es w ∧
  ∃ chunks, Forall2 (stored s.2.1) (results_ s.1) chunks ∧ concat chunks ++ es = d.

Lemma writes_closing d r fs l path es w : writes d (r, (fs, l)) → current_writer_ r = Some (path, es, w) →
  closed_writers_ r = ((λ m, ToPath (FileName m)) <$> results_ r) ∧ closing d path es w (r, (<[path := Manifest es]> fs, l)).
Proof.
  intros ([Hout Hown]&Hl&Hfresh&Hcl&chunks&es'&Hst&Hd&Hc) Hcur. unfold current_ok in Hc. cbn in *. rewrite Hcur in Hc.
  destruct Hc as (<-&Hn&Hp&k&Hk&->). set (path := ToPath (manifest_name uuid_ k)) in *.
  assert (Hlt : k < manifest_file_count_ l).
  { destruct (Z.lt_ge_cases k (manifest_file_count_ l)) as [|Hge]; [done|]. destruct Hfresh as (_&_&H&_). cbn in H.
    specialize (H k Hge). fold path in H. congruence. }
  assert (Hnot : path ∉ ((λ m, ToPath (FileName m)) <$> results_ r : list string)).
  { intros (m&E&Hm)%list_elem_of_fmap. apply Forall2_same_length_lookup in Hst as Hst'. destruct Hst' as [_ Hst'].
    apply list_elem_of_lookup in Hm as [i Hi]. destruct (lookup_lt_is_Some_2 chunks i) as [c Hci].
    { rewrite <-(Forall2_length _ _ _ Hst). by eapply lookup_lt_Some. }
    destruct (Hst' i m c Hi Hci) as [Hm _]. rewrite <-E in Hm. congruence. }
  assert (Hin : path ∈ own r) by (unfold own; rewrite Hcur; apply elem_of_app; right; by left).
  split; [done|]. split_and!; cbn; try done.
  - split; [|done]. intros p Hne. cbn in *. rewrite lookup_insert_ne by (by intros ->). by apply Hout.
  - by apply fresh_insert.
  - rewrite Forall_forall in Hown. by apply (Hown path).
  - by exists k.
  - apply lookup_insert_eq.
  - exists chunks. split; [|done]. by apply stored_insert.
Qed.

Lemma closing_tick d path es w r st : closing d path es w (r, st) → closing d path es w (r, (st.1, tick st.2)).
Proof.
  destruct st as [fs l]. intros (H1&H2&H3&H4). split_and!; try apply H4; [done| |].
  - cbn in *. etrans; [exact H2|apply later_tick].
  - cbn in *. eapply fresh_later; [exact H3|apply later_tick].
Qed.
Lemma closing_closed d path es w r st : closing d path es w (r, st) →
  closing d path es w (mkRolling (current_writer_ r) (closed_writers_ r ++ [path]) (results_ r), st).
Proof.
  intros ([Hout Hown]&H2&H3&H4&H5&H6). split_and!; try apply H6; try done. cbn in *. unfold frame, own in *. cbn in *. split.
  - intros p Hp. apply Hout. rewrite not_elem_of_app. do 2 rewrite not_elem_of_app in Hp. tauto.
  - apply Forall_app in Hown as [??]. apply Forall_app. split; [|done]. apply Forall_app. split; [done|]. apply Forall_singleton. split; [done|]. apply H6.
Qed.
Lemma closing_recoverable d path es w s : faulty → closing d path es w s → recoverable s.
Proof. intros Hf (H1&H2&_). split_and!; [done|done|by apply frame_grows|apply H1|done]. Qed.

Lemma closing_finish d path es w r fs l m : closing d path es w (r, (fs, l)) → current_writer_ r = Some (path, es, w) →
  closed_writers_ r = ((λ m, ToPath (FileName m)) <$> results_ r) ++ [path] →
  ManifestEntryWriter.GetResult partition_stats path (SizeOf (Manifest es)) w = Ok m →
  writes d (mkRolling None (closed_writers_ r) (results_ r ++ [m]), (fs, l)).
Proof.
  intros ([Hout Hown]&Hl&Hfresh&_&_&(k&Hk&->)&Hp&Hn&chunks&Hst&Hd) Hcur Hcl Hres. cbn in *.
  assert (Hpath : ToPath (FileName m) = ToPath (manifest_name uuid_ k)).
  { unfold ManifestEntryWriter.GetResult in Hres. apply bind_Ok in Hres as (st&_&[= <-]). cbn. f_equal.
    apply GetName_ToPath. by apply manifest_name_path. }
  split_and!; try done.
  - unfold frame, own in *. cbn in *. rewrite Hcur, Hcl in Hout, Hown. cbn in Hout, Hown. rewrite Hcl, app_nil_r. split.
    + intros p Hne. apply Hout. do 2 rewrite not_elem_of_app. rewrite not_elem_of_app in Hne. tauto.
    + by apply Forall_app in Hown as [? _].
  - cbn. by rewrite Hcl, fmap_app, list_fmap_singleton, Hpath.
  - exists (chunks ++ [es]), []. cbn. split_and!; [|by rewrite concat_app; cbn; rewrite !app_nil_r|done].
    apply Forall2_app; [done|]. constructor; [|done]. split; [by rewrite Hpath|]. exists w. split; [done|]. by rewrite Hpath.
Qed.

Lemma closing_io op (Q : unit → RS → Prop) (E : RS → Prop) d path es w r st : closing d path es w (r, st) →
  (closing d path es w (r, (st.1, tick st.2)) → Q () (r, (st.1, tick st.2))) → (∀ s, recoverable s → E s) → wp (lift (io fault op)) Q E (r, st).
Proof.
  intros Hw HQ HE. apply wp_lift, manifest_wp_io; [by apply HQ, closing_tick|]. intros Hf. apply HE.
  eapply closing_recoverable; [left; by eexists _, _|]. by apply closing_tick.
Qed.

Lemma manifest_CloseCurrentWriter_wp d s : writes d s →
  wp (CloseCurrentWriter fault SizeOf partition_stats) (λ _ s', writes d s' ∧ current_writer_ s'.1 = None) recoverable s.
Proof.
  destruct s as [r [fs l]]. intros Hw. unfold CloseCurrentWriter. wp_step. wp_step. cbn [fst].
  destruct (current_writer_ r) as [[[path es] w]|] eqn:Hcur; [|by wp_step]. wp_step.
  eapply writes_io; [exact Hw| |done]. clear Hw. cbn [fst snd]. intros Hw.
  destruct (writes_closing _ _ _ _ _ _ _ Hw Hcur) as [Hcl Hc]. wp_step. apply wp_lift. unfold on_files. wp_step. cbn [fst snd]. wp_step.
  eapply closing_io; [exact Hc| |done]. clear Hc. cbn [fst snd]. intros Hc. apply closing_closed in Hc.
  wp_step. unfold on_rolling. wp_step. cbn [fst snd]. wp_step.
  eapply closing_io; [exact Hc| |done]. clear Hc. cbn [fst snd]. intros Hc.
  destruct (ManifestEntryWriter.GetResult _ _ _ _) as [m|c e] eqn:Hres; wp_step.
  - cbn [fst snd]. split; [|done].
    refine (closing_finish _ _ _ _ (mkRolling (current_writer_ r) (closed_writers_ r ++ [path]) (results_ r)) _ _ _ Hc Hcur _ Hres).
    cbn. by rewrite Hcl.
  - eapply closing_recoverable; [|exact Hc]. right. left. exists (ManifestEntryWriter.partitions_ w).
    unfold ManifestEntryWriter.GetResult in Hres. by destruct (partition_stats _).
Qed.

Lemma WriteEntry_wp d entry s : known entry → writes d s →
  wp (WriteEntry fault root_ uuid_ SizeOf ReachTargetSize partition_stats entry) (λ _, writes (d ++ [entry])) failed s.
Proof.
  intros Hkn Hw. unfold WriteEntry. wp_step. apply (wp_mono _ (λ _, writes (d ++ [entry])) _ recoverable _ s); [|done|by apply Abort_failed].
  destruct s as [r st]. wp_step. wp_step. wp_step. cbn [fst snd].
  apply (wp_mono _ (λ _ s, writes d s ∧ is_Some (current_writer_ s.1)) _ recoverable); [| |done].
  { destruct (current_writer_ r) eqn:Hcur; [wp_step; cbn; rewrite Hcur; eauto|by apply manifest_OpenCurrentWriter_wp]. }
  clear r st Hw. intros _ [r st] [Hw [[[path es] w] Hcur]]. cbn in Hcur. wp_step. eapply writes_io; [exact Hw| |done].
  clear Hw. intros Hw. wp_step. wp_step. cbn [fst snd]. rewrite Hcur.
  destruct (ManifestEntryWriter.Note entry w) as [w'|c e] eqn:Hnote.
  2: { unfold ManifestEntryWriter.Note in Hnote. unfold known, is_add, is_delete in Hkn. exfalso.
       repeat case_decide; [done|done|tauto]. }
  destruct st as [fs l]. cbn [fst snd] in *.
  assert (Hw' : writes (d ++ [entry]) (mkRolling (Some (path, es ++ [entry], w')) (closed_writers_ r) (results_ r), (fs, tick l))).
  { destruct Hw as (H1&H2&H3&H4&chunks&es'&Hst&Hd&Hc). unfold current_ok in Hc. cbn in *. rewrite Hcur in Hc.
    destruct Hc as (->&Hn&Hp&k&Hk&->). split_and!; try done.
    - unfold frame, own in *. cbn in *. by rewrite Hcur in H1.
    - exists chunks, (es' ++ [entry]). cbn. split; [done|]. split; [by rewrite (assoc_L app), Hd|].
      split_and!; [done| |done|by exists k]. unfold noted in *. rewrite foldR_app, Hn. cbn. by rewrite Hnote. }
  wp_step. unfold on_rolling. wp_step. cbn [fst snd]. wp_step. eapply writes_io; [exact Hw'| |done].
  clear Hw Hw'. cbn [fst snd]. intros Hw. destruct (ReachTargetSize _); [|by wp_step].
  eapply wp_mono; [by apply manifest_CloseCurrentWriter_wp| |done]. by intros _ s [? _].
Qed.

Lemma WriteAll_wp entries : fresh (fs0, l0) → Forall known entries →
  wp (WriteAll fault root_ uuid_ SizeOf ReachTargetSize partition_stats entries)
     (λ ms s, writes entries s ∧ current_writer_ s.1 = None ∧ ms = results_ s.1) failed (mkRolling None [] [], (fs0, l0)).
Proof.
  intros Hfresh Hk. unfold WriteAll. wp_step. wp_step.
  apply (wp_mono _ (λ _, writes entries) _ failed); [| |by intros s [? _]; apply Abort_failed].
  - eapply (wp_for_each _ writes _ _ []).
    + split_and!; [|done|done|done|by exists [], []]. split; [done|by apply Forall_nil].
    + intros d x s Hx Hw. rewrite Forall_forall in Hk. apply WriteEntry_wp; auto.
  - intros _ s Hw. wp_step. wp_step. eapply wp_mono; [by apply manifest_CloseCurrentWriter_wp| |apply Abort_failed].
    intros _ s' [Hw' Hc]. cbn beta. wp_step. done.
Qed.
End Writing.

(** ** What a write does *)

Section Specs.
Context {Other : Type}.
Abbreviation Content := (Content Other).
Abbreviation St := (@St Other).
Context (fault : Op → nat → Result unit) (root_ uuid_ file_format_identifier_ : string) (SizeOf : Content → Z).
Context (ReachTargetSize : list ManifestEntry.t → bool) (partition_stats : list InternalRow → Result SimpleStats).
Context (Huuid : no_slash uuid_).
Abbreviation ToPath := (ToPath root_).
Abbreviation WriteManifest := (WriteManifest fault root_ uuid_ file_format_identifier_ SizeOf ReachTargetSize partition_stats).
Abbreviation WriteManifestList := (WriteManifestList fault root_ uuid_ file_format_identifier_ SizeOf).
Abbreviation faulty := (faulty fault file_format_identifier_ partition_stats).
Abbreviation deletes_ok := (deletes_ok fault).
Abbreviation fresh := (fresh root_ uuid_).
Abbreviation stored := (stored root_ SizeOf partition_stats).

Definition paths (metas : list ManifestFileMeta.t) : list string := (λ m, ToPath (FileName m)) <$> metas.
Definition wrote (metas : list ManifestFileMeta.t) (entries : list ManifestEntry.t) (s s' : St) : Prop :=
  fresh s' ∧ later s.2 s'.2 ∧ (∀ p, p ∉ paths metas → s'.1 !! p = s.1 !! p) ∧ Forall (new_path root_ uuid_ s.1) (paths metas) ∧
  ∃ chunks, Forall2 (stored s'.1) metas chunks ∧ concat chunks = entries.

Definition unwritten (s s' : St) : Prop := faulty ∧ later s.2 s'.2 ∧ s.1 ⊆ s'.1 ∧ (deletes_ok → s'.1 = s.1).

Lemma wrote_nil s : fresh s → wrote [] [] s s.
Proof. intros Hf. split_and!; try done. by exists []. Qed.

Lemma wp_ValidateWrite (Q : unit → St → Prop) (E : St → Prop) s :
  Q () s → (faulty → E s) → wp (ValidateWrite file_format_identifier_) Q E s.
Proof.
  intros HQ HE. unfold ValidateWrite. destruct (String.eqb_spec file_format_identifier_ "avro"); wp_step; [done|].
  apply HE. by right; right.
Qed.

Lemma WriteManifest_wp entries s : fresh s → Forall known entries →
  wp (WriteManifest entries) (λ metas, wrote metas entries s) (unwritten s) s.
Proof.
  intros Hf Hk. unfold ManifestFiles.WriteManifest. destruct entries as [|e es]; [wp_step; by apply wrote_nil|].
  wp_step. apply wp_ValidateWrite; [|by intros ?; split_and!].
  destruct s as [fs l]. pose proof (WriteAll_wp fault root_ uuid_ file_format_identifier_ SizeOf ReachTargetSize partition_stats Huuid fs l _ Hf Hk) as H.
  unfold wp, with_new_writer in *. destruct (WriteAll _ _ _ _ _ _ _ _) as [[ms|c m] [r st]]; cbn in *.
  - destruct H as (((Hout&Hown)&Hl&Hfr&Hcl&chunks&es'&Hst&Hd&Hc)&Hcur&->). unfold current_ok, own in *. cbn in *. rewrite Hcur in *. cbn in *.
    rewrite app_nil_r in *. subst es'. rewrite app_nil_r in Hd. split_and!; try done.
    + cbn. intros p Hp. apply Hout. by rewrite Hcl.
    + cbn. unfold paths. by rewrite <-Hcl.
    + by exists chunks.
  - destruct H as [(H1&H2&H3&_&_) H4]. by split_and!.
Qed.

(** A manifest list is stored under a new name; a write that fails may leave
    a file of that name. *)
Definition list_path (l : Local) : string := ToPath (manifest_list_name uuid_ (manifest_list_count_ l)).
Definition wrote_list (name : string) (metas : list ManifestFileMeta.t) (s s' : St) : Prop :=
  fresh s' ∧ later s.2 s'.2 ∧ ToPath name = list_path s.2 ∧ s.1 !! ToPath name = None ∧ s'.1 = <[ToPath name := ManifestList metas]> s.1 ∧
  name ≠ ""%string.
Definition unwritten_list (s s' : St) : Prop :=
  faulty ∧ fresh s' ∧ later s.2 s'.2 ∧ (∀ p, p ≠ list_path s.2 → s'.1 !! p = s.1 !! p).

(** While the file is being written. *)
Definition writing_list (s s' : St) : Prop :=
  fresh s' ∧ later s.2 s'.2 ∧ manifest_list_count_ s.2 < manifest_list_count_ s'.2 ∧ (∀ p, p ≠ list_path s.2 → s'.1 !! p = s.1 !! p).

Lemma writing_list_tick s s' : writing_list s s' → writing_list s (s'.1, tick s'.2).
Proof.
  destruct s' as [fs l]. intros (H1&H2&H3&H4). split_and!; [|by etrans; [|apply later_tick]|done|done].
  eapply fresh_later; [exact H1|apply later_tick].
Qed.
Lemma writing_list_io op s s' (Q : unit → St → Prop) (E : St → Prop) : writing_list s s' →
  (writing_list s (s'.1, tick s'.2) → Q () (s'.1, tick s'.2)) → (faulty → ∀ s', writing_list s s' → E s') → wp (io fault op) Q E s'.
Proof.
  intros Hw HQ HE. apply writing_list_tick in Hw. apply manifest_wp_io; [by apply HQ|]. intros Hf. apply HE; [|done]. left. by eexists _, _.
Qed.
Lemma writing_list_insert s fs l c : fresh s → writing_list s (fs, l) → writing_list s (<[list_path s.2 := c]> fs, l).
Proof.
  intros (_&Hn&_) (H1&H2&H3&H4). split_and!; [|done|done|].
  - by apply fresh_insert_list.
  - intros p Hp. cbn. rewrite lookup_insert_ne by done. by apply H4.
Qed.
Lemma writing_list_cleanup s s' : fresh s → faulty → writing_list s s' → unwritten_list s (DeleteQuietly fault root_ (list_path s.2) s').
Proof.
  intros (_&Hn&_) Hf Hw. pose proof (writing_list_tick _ _ Hw) as (H1&H2&H3&H4). split_and!; [done|..]; unfold DeleteQuietly, Delete.
  - cbn. case_match; [|done]. rewrite delete_id; [done|]. by apply Hw.
  - done.
  - intros p Hp. cbn. case_match; [|by apply H4]. rewrite delete_id; [by apply H4|]. by apply Hw.
Qed.

Lemma WriteManifestList_wp metas s : fresh s → wp (WriteManifestList metas) (λ r, wrote_list r.1 metas s) (unwritten_list s) s.
Proof.
  intros Hf. destruct s as [fs l]. unfold ManifestFiles.WriteManifestList. wp_step. apply wp_ValidateWrite; [|intros ?; by split_and!].
  wp_step. unfold NewManifestList, wp at 1. cbn. set (path := ToPath _). set (l1 := mkLocal _ _ _).
  assert (Hn : 0 ≤ manifest_list_count_ l) by apply Hf.
  assert (Hpath : fs !! path = None) by (apply Hf; reflexivity).
  assert (Hw : writing_list (fs, l) (fs, l1)).
  { split_and!; [eapply fresh_later; [exact Hf|]|..|done]; unfold later; cbn; lia. }
  wp_step. eapply writing_list_io; [exact Hw| |by intros ? s (?&?&?&?); split_and!]. clear Hw. cbn [fst snd]. intros Hw.
  wp_step. apply (wp_mono _ (λ r, wrote_list r.1 metas (fs, l)) _ (λ s, faulty ∧ writing_list (fs, l) s)); [|done|].
  2: { intros s [? ?]. by apply (writing_list_cleanup (fs, l)). }
  wp_step. unfold Create. wp_step. eapply writing_list_io; [exact Hw| |done]. clear Hw. cbn [fst snd]. intros Hw.
  wp_step. wp_step. cbn. rewrite Hpath. unfold on_files. wp_step. cbn [fst snd].
  apply (writing_list_insert _ _ _ Partial Hf) in Hw. cbn in Hw. fold path in Hw.
  do 4 (wp_step; eapply writing_list_io; [exact Hw| |done]; clear Hw; cbn [fst snd]; intros Hw).
  wp_step. wp_step. cbn [fst snd].
  apply (writing_list_insert _ _ _ (ManifestList metas) Hf) in Hw. cbn in Hw. fold path in Hw.
  do 3 (wp_step; eapply writing_list_io; [exact Hw| |done]; clear Hw; cbn [fst snd]; intros Hw).
  wp_step. destruct Hw as (H1&H2&H3&H4). unfold path at 1. cbn [fst].
  assert (E : PathUtil.GetName path = manifest_list_name uuid_ (manifest_list_count_ l)) by (apply GetName_ToPath; by apply manifest_list_name_path).
  fold path. rewrite E. split_and!; try done. cbn. fold path. by rewrite insert_insert_eq.
Qed.
End Specs.
