(* ===== verification/ManifestMerger.v ===== *)
(** * Merging manifest files

    [ManifestFileMerger] (src/paimon/core/operation/manifest_file_merger.cpp)
    replaces manifest files by fewer ones. The files of the table stay the same
    and a merge that fails removes the manifests it has written. *)

From stdpp Require Import base list gmap strings relations.
From Stdlib Require Import ZArith Lia.
From S2P Require Import Prelude Rows DataFiles StateError Paths Manifests ManifestFiles ManifestFilesProofs.
Import ManifestFileMeta.
Local Open Scope Z_scope.
#[local] Arguments wp : simpl never.

Module ManifestFileMerger.
Section Merger.
Context {Other : Type}.
Abbreviation Content := (Content Other).
Abbreviation St := (@St Other).
Context (fault : Op → nat → Result unit) (root_ uuid_ file_format_identifier_ : string) (SizeOf : Content → Z).
Context (ReachTargetSize : list ManifestEntry.t → bool) (partition_stats : list InternalRow → Result SimpleStats).
Abbreviation ReadManifest := (ReadManifest fault root_).
Abbreviation WriteManifest := (WriteManifest fault root_ uuid_ file_format_identifier_ SizeOf ReachTargetSize partition_stats).

Fixpoint ReadAll (metas : list ManifestFileMeta.t) : M St (list ManifestEntry.t) :=
  match metas with
  | [] => mret []
  | m :: metas' => entries ← ReadManifest (FileName m); rest ← ReadAll metas'; mret (entries ++ rest)
  end.
Definition MergeEntries (metas : list ManifestFileMeta.t) : M St (list ManifestFileMeta.t) :=
  match metas with
  | [m] => mret [m]
  | _ =>
      entries ← ReadAll metas;
      match FileEntry.MergeEntries entries with
      | Err c e => fail c e
      | Ok result => WriteManifest result
      end
  end.

(** The state with [new_metas_for_abort]. *)
Definition AS : Type := list ManifestFileMeta.t * St.
Definition with_files {A} (m : M St A) : M AS A := λ s, let '(r, st) := m s.2 in (r, (s.1, st)).
Definition note_new (merged : list ManifestFileMeta.t) : M AS unit := modify (λ s, (s.1 ++ merged, s.2)).

Definition total_size (metas : list ManifestFileMeta.t) : Z := foldl (λ n m, Int.wrap_s 64 (n + FileSize m)) 0 metas.
Definition is_base (target_file_size : Z) (m : ManifestFileMeta.t) : bool :=
  (NumDeletedFiles m =? 0) && (target_file_size <=? FileSize m).

Definition TryFullCompaction (all : list ManifestFileMeta.t) (target_file_size full_compaction_file_size : Z)
    : M AS (option (list ManifestFileMeta.t)) :=
  let base := take_while (is_base target_file_size) all in
  let delta := drop_while (is_base target_file_size) all in
  if total_size delta <? full_compaction_file_size then mret None
  else if Z.of_nat (length delta) <=? 1 then mret None
  else merged_delta ← with_files (MergeEntries delta);
       _ ← note_new merged_delta;
       mret (Some (base ++ merged_delta)).

(** Candidates that have reached the size; a single one is kept. *)
Definition merge_candidates (candidates : list ManifestFileMeta.t) : M AS (list ManifestFileMeta.t) :=
  match candidates with
  | [m] => mret [m]
  | _ => merged ← with_files (MergeEntries candidates); _ ← note_new merged; mret merged
  end.
Fixpoint minor_loop (suggested_meta_size : Z) (input result candidates : list ManifestFileMeta.t) (total : Z)
    : M AS (list ManifestFileMeta.t * list ManifestFileMeta.t) :=
  match input with
  | [] => mret (result, candidates)
  | manifest :: input' =>
      let candidates := candidates ++ [manifest] in
      let total := Int.wrap_s 64 (total + FileSize manifest) in
      if suggested_meta_size <=? total then
        merged ← merge_candidates candidates; minor_loop suggested_meta_size input' (result ++ merged) [] 0
      else minor_loop suggested_meta_size input' result candidates total
  end.
Definition TryMinorCompaction (input : list ManifestFileMeta.t) (suggested_meta_size suggested_min_meta_count : Z)
    : M AS (list ManifestFileMeta.t) :=
  '(result, candidates) ← minor_loop suggested_meta_size input [] [] 0;
  if Int.wrap_u 32 suggested_min_meta_count <=? Z.of_nat (length candidates) then
    merged ← merge_candidates candidates; mret (result ++ merged)
  else mret (result ++ candidates).

Definition CleanUp (s : AS) : AS := (s.1, foldl (λ st m, DeleteQuietly fault root_ (FileName m) st) s.2 s.1).
Definition TryMerge (all : list ManifestFileMeta.t) (target_file_size merge_min_count full_compaction_file_size : Z)
    : M AS (list ManifestFileMeta.t) :=
  guarded CleanUp (
    full_compacted ← TryFullCompaction all target_file_size full_compaction_file_size;
    match full_compacted with
    | Some results => mret results
    | None => TryMinorCompaction all target_file_size merge_min_count
    end).
(** The list of new manifests is a local variable. *)
Definition Merge (all : list ManifestFileMeta.t) (target_file_size merge_min_count full_compaction_file_size : Z)
    : M St (list ManifestFileMeta.t) := λ s,
  let '(r, (_, st)) := TryMerge all target_file_size merge_min_count full_compaction_file_size ([], s) in (r, st).
End Merger.
End ManifestFileMerger.
Import ManifestFileMerger.

Section MergerProofs.
Context {Other : Type}.
Abbreviation Content := (Content Other).
Abbreviation St := (@St Other).
Abbreviation AS := (@AS Other).
Context (fault : Op → nat → Result unit) (root_ uuid_ file_format_identifier_ : string) (SizeOf : Content → Z).
Context (ReachTargetSize : list ManifestEntry.t → bool) (partition_stats : list InternalRow → Result SimpleStats).
Context (Huuid : no_slash uuid_).
Abbreviation ToPath := (ToPath root_).
Abbreviation paths := (paths root_).
Abbreviation faulty := (faulty fault file_format_identifier_ partition_stats).
Abbreviation deletes_ok := (deletes_ok fault).
Abbreviation fresh := (fresh root_ uuid_).
Abbreviation stored := (stored root_ SizeOf partition_stats).
Abbreviation wrote := (wrote root_ uuid_ SizeOf partition_stats).
Abbreviation MergeEntries := (MergeEntries fault root_ uuid_ file_format_identifier_ SizeOf ReachTargetSize partition_stats).

(** New files have been added. *)
Definition extends (new : list ManifestFileMeta.t) (s s' : St) : Prop :=
  fresh s' ∧ later s.2 s'.2 ∧ (∀ p, p ∉ paths new → s'.1 !! p = s.1 !! p) ∧ Forall (new_path root_ uuid_ s.1) (paths new).

Lemma wrote_extends ms es s s' : wrote ms es s s' → extends ms s s'.
Proof. by intros (?&?&?&?&_). Qed.
Lemma extends_refl s : fresh s → extends [] s s.
Proof. intros. by split_and!. Qed.
Lemma paths_app a b : paths (a ++ b) = paths a ++ paths b.
Proof. apply fmap_app. Qed.
Lemma extends_trans a b s s' s'' : extends a s s' → extends b s' s'' → extends (a ++ b) s s''.
Proof.
  intros (_&H1&H2&H3) (H4&H5&H6&H7). split_and!; [done|by etrans|..].
  - intros p. rewrite paths_app, not_elem_of_app. intros [??]. by rewrite H6, H2.
  - rewrite paths_app, Forall_app. split; [done|]. rewrite Forall_forall in H3, H7 |- *. intros p Hp.
    destruct (H7 p Hp) as [H8 H9]. destruct (decide (p ∈ paths a)) as [|Hn]; [by apply H3|]. split; [by rewrite <-H2|done].
Qed.
Lemma extends_stored new s s' m es : extends new s s' → stored s.1 m es → stored s'.1 m es.
Proof.
  intros (_&_&H&Hn) [Hs Hd]. split; [|done]. rewrite H; [done|]. rewrite Forall_forall in Hn. intros [? _]%Hn. congruence.
Qed.
Lemma extends_Forall2 new s s' ms cs : extends new s s' → Forall2 (stored s.1) ms cs → Forall2 (stored s'.1) ms cs.
Proof. intros He Hst. eapply Forall2_impl; [exact Hst|]. intros m es. by eapply extends_stored. Qed.
Definition keeps (s s' : St) : Prop := ∀ m es, stored s.1 m es → stored s'.1 m es.
Lemma extends_tick new s s' : extends new s s' → extends new s (s'.1, tick s'.2).
Proof.
  destruct s' as [fs l]. intros (H1&H2&H3&H4). split_and!; [|by etrans; [|apply later_tick]|done|done].
  eapply fresh_later; [exact H1|apply later_tick].
Qed.

(** A failure before the clean-up. *)
Definition aborts (s : St) (s' : AS) : Prop :=
  faulty ∧ later s.2 s'.2.2 ∧ s.1 ⊆ s'.2.1 ∧ Forall (λ p, s.1 !! p = None) (paths s'.1) ∧
  (deletes_ok → ∀ p, p ∉ paths s'.1 → s'.2.1 !! p = s.1 !! p).

Lemma extends_new new s s' : extends new s s' → Forall (λ p, s.1 !! p = None) (paths new).
Proof. intros (_&_&_&H). eapply Forall_impl; [exact H|]. by intros p [? _]. Qed.
Lemma extends_grows new s s' : extends new s s' → s.1 ⊆ s'.1.
Proof.
  intros He. pose proof (extends_new _ _ _ He) as Hn. destruct He as (_&_&H&_). rewrite Forall_forall in Hn.
  apply map_subseteq_spec. intros p c Hp. rewrite H; [done|]. intros ?%Hn. congruence.
Qed.

Lemma extends_aborts new s s' : faulty → extends new s s' → aborts s (new, s').
Proof.
  intros Hf He. pose proof (extends_new _ _ _ He). pose proof (extends_grows _ _ _ He). destruct He as (H1&H2&H3&H4). by split_and!.
Qed.
Lemma unwritten_aborts new s s' s'' : extends new s s' → unwritten fault file_format_identifier_ partition_stats s' s'' → aborts s (new, s'').
Proof.
  intros He (Hf&Hl&Hg&H5). pose proof (extends_new _ _ _ He). pose proof (extends_grows _ _ _ He). destruct He as (H1&H2&H3&H4).
  split_and!; [done|by etrans|by etrans|done|]. cbn. intros Hd. by rewrite (H5 Hd).
Qed.

Lemma ReadManifest_wp new s s' m es (Q : list ManifestEntry.t → St → Prop) (E : St → Prop) :
  extends new s s' → stored s'.1 m es → (∀ s'', extends new s s'' → s''.1 = s'.1 → Q es s'') →
  (∀ s'', faulty → extends new s s'' → E s'') → wp (ReadManifest fault root_ (FileName m)) Q E s'.
Proof.
  intros He [Hs _] HQ HE. unfold ReadManifest. pose proof (extends_tick _ _ _ He) as He1. wp_step.
  apply manifest_wp_io; [|intros ?; apply HE; [left; by eexists _, _|done]]. wp_step. wp_step. cbn [fst snd]. rewrite Hs. wp_step.
  pose proof (extends_tick _ _ _ He1) as He2. apply manifest_wp_io; [|intros ?; apply HE; [left; by eexists _, _|done]].
  wp_step. by apply HQ.
Qed.

Lemma ReadAll_wp new s ms cs s' (Q : list ManifestEntry.t → St → Prop) (E : St → Prop) :
  extends new s s' → Forall2 (stored s'.1) ms cs → (∀ s'', extends new s s'' → s''.1 = s'.1 → Q (concat cs) s'') →
  (∀ s'', faulty → extends new s s'' → E s'') → wp (ReadAll fault root_ ms) Q E s'.
Proof.
  revert cs s' Q. induction ms as [|m ms IH]; intros cs s' Q He Hst HQ HE.
  - inversion Hst; subst. cbn. wp_step. by apply HQ.
  - apply Forall2_cons_inv_l in Hst as (es&cs'&Hm&Hst&->). cbn. wp_step. eapply ReadManifest_wp; [exact He|exact Hm| |done].
    intros s1 He1 E1. wp_step. rewrite <-E1 in Hst. eapply IH; [exact He1|exact Hst| |done]. intros s2 He2 E2. wp_step.
    apply HQ; [done|congruence].
Qed.

Lemma MergeEntries_wp new s ms cs s' : extends new s s' → Forall2 (stored s'.1) ms cs → once (concat cs) → length ms ≠ 1%nat →
  wp (MergeEntries ms) (λ out s'', extends (new ++ out) s s'' ∧ keeps s' s'' ∧ ∃ cs', Forall2 (stored s''.1) out cs' ∧ concat cs' = unpaired (concat cs))
     (λ s'', aborts s (new, s'')) s'.
Proof.
  intros He Hst Ho Hlen.
  assert (MergeEntries ms =
    (entries ← ReadAll fault root_ ms;
     match FileEntry.MergeEntries entries with
     | Err c e => fail c e
     | Ok result => WriteManifest fault root_ uuid_ file_format_identifier_ SizeOf ReachTargetSize partition_stats result
     end)) as -> by by destruct ms as [|? [|? ?]].
  wp_step. eapply ReadAll_wp; [exact He|exact Hst| |intros; by apply extends_aborts]. intros s1 He1 E1. rewrite MergeEntries_once by done.
  eapply wp_mono; [apply WriteManifest_wp; [done|apply He1|by apply once_filter]| |intros s2 H2; by eapply unwritten_aborts].
  intros out s2 Hw. split; [eapply extends_trans; [exact He1|exact (wrote_extends _ _ _ _ Hw)]|]. split; [|by destruct Hw as (_&_&_&_&?)].
  intros m es. rewrite <-E1. by apply (extends_stored out), (wrote_extends _ _ _ _ Hw).
Qed.

Lemma wp_with_files {A} (m : M St A) (Q : A → AS → Prop) (E : AS → Prop) new s :
  wp m (λ a s', Q a (new, s')) (λ s', E (new, s')) s → wp (with_files m) Q E (new, s).
Proof. unfold wp, with_files. cbn. by destruct (m s) as [[a|c e] s']. Qed.

(** What merging makes of manifests: a list of manifests, some of them new,
    with a merged log. *)
Definition merges (s : St) (new : list ManifestFileMeta.t) (log : list ManifestEntry.t) (out : list ManifestFileMeta.t) (s' : St) : Prop :=
  extends new s s' ∧ ∃ cs, Forall2 (stored s'.1) out cs ∧ rtc merge_step log (concat cs).

Lemma merge_candidates_wp s ms cs a : extends a.1 s a.2 → Forall2 (stored a.2.1) ms cs → once (concat cs) →
  wp (merge_candidates fault root_ uuid_ file_format_identifier_ SizeOf ReachTargetSize partition_stats ms)
     (λ out a', merges s a'.1 (concat cs) out a'.2 ∧ keeps a.2 a'.2 ∧ ∃ new, a'.1 = a.1 ++ new ∧ new ⊆ out ∧ out ⊆ ms ++ new) (aborts s) a.
Proof.
  destruct a as [new s']. cbn. intros He Hst Ho.
  assert (Hgen : length ms ≠ 1%nat →
    wp (merged ← with_files (MergeEntries ms); _ ← note_new merged; mret merged)
       (λ out a', merges s a'.1 (concat cs) out a'.2 ∧ keeps s' a'.2 ∧ ∃ new', a'.1 = new ++ new' ∧ new' ⊆ out ∧ out ⊆ ms ++ new') (aborts s) (new, s')).
  { intros Hlen. wp_step. apply wp_with_files. eapply wp_mono; [by eapply MergeEntries_wp| |done].
    intros out s1 (He1&Hk&cs'&Hst'&Hcs'). wp_step. unfold note_new. wp_step. wp_step. cbn. split; [|split; [done|exists out; split_and!; [done|done|intros m Hm; apply elem_of_app; by right]]].
    split; [done|]. exists cs'. split; [done|]. rewrite Hcs'. apply merge_steps_unpaired. }
  unfold merge_candidates. destruct ms as [|m [|m2 ms]]; [by apply Hgen| |by apply Hgen]. wp_step. cbn. split.
  - split; [done|]. by exists cs.
  - split; [by intros ??|]. exists []. rewrite !app_nil_r. split_and!; [done|apply list_subseteq_nil|done].
Qed.

Context (s0 : St) (all : list ManifestFileMeta.t) (log : list ManifestEntry.t) (Hlog : once log).

(** In the middle of a merge: the manifests of the result and those that are
    still to be merged make up a merged log; new manifests are in the result. *)
Definition merging (result rest : list ManifestFileMeta.t) (a : AS) : Prop :=
  extends a.1 s0 a.2 ∧ (a.1 ⊆ result ∧ result ++ rest ⊆ all ++ a.1) ∧
  ∃ rcs cs, Forall2 (stored a.2.1) result rcs ∧ Forall2 (stored a.2.1) rest cs ∧ rtc merge_step log (concat rcs ++ concat cs).

Lemma merging_step result candidates rest a : merging result (candidates ++ rest) a →
  wp (merge_candidates fault root_ uuid_ file_format_identifier_ SizeOf ReachTargetSize partition_stats candidates)
     (λ merged a', merging (result ++ merged) rest a') (aborts s0) a.
Proof.
  intros (He&Hnew&rcs&cs&Hr&Hc&Hsteps). apply Forall2_app_inv_l in Hc as (ccs&rest'&Hc&Hrest&->). rewrite concat_app in Hsteps.
  destruct (merge_steps _ _ Hsteps Hlog) as [Ho _]. apply once_app in Ho as (_&Ho&_). apply once_app in Ho as (Ho&_&_).
  eapply wp_mono; [by apply merge_candidates_wp| |done]. intros merged a' ([He' (mcs&Hm&Hm')]&Hk&new&Enew&Hin&Hout).
  split; [done|]. split.
  { destruct Hnew as [Hn1 Hn2]. split.
    - rewrite Enew. intros m Hm2. rewrite elem_of_app in Hm2 |- *. destruct Hm2; [left; by apply Hn1|right; by apply Hin].
    - intros m Hm2. specialize (Hn2 m). specialize (Hout m). rewrite Enew. repeat rewrite elem_of_app in *. tauto. }
  exists (rcs ++ mcs), rest'. split_and!.
  - apply Forall2_app; [|done]. eapply Forall2_impl; [exact Hr|]. intros ??. apply Hk.
  - eapply Forall2_impl; [exact Hrest|]. intros ??. apply Hk.
  - etrans; [exact Hsteps|]. rewrite concat_app, <-(assoc_L app). by repeat apply merge_steps_app.
Qed.

Lemma minor_loop_wp size input result candidates total a : merging result (candidates ++ input) a →
  wp (minor_loop fault root_ uuid_ file_format_identifier_ SizeOf ReachTargetSize partition_stats size input result candidates total)
     (λ r a', merging r.1 r.2 a') (aborts s0) a.
Proof.
  revert result candidates total a. induction input as [|m input IH]; intros result candidates total a Hm; cbn.
  - wp_step. cbn. by rewrite app_nil_r in Hm.
  - assert (Hm' : merging result ((candidates ++ [m]) ++ input) a) by by rewrite <-(assoc_L app).
    destruct (_ <=? _); [|by apply IH]. wp_step.
    eapply wp_mono; [exact (merging_step _ _ _ _ Hm')| |done]. intros merged a' H. by apply IH.
Qed.

Definition merged (out : list ManifestFileMeta.t) (a : AS) : Prop := merging out [] a.
Lemma merging_merged result rest a : merging result rest a → merged (result ++ rest) a.
Proof.
  intros (He&Hnew&rcs&cs&Hr&Hc&Hsteps). split; [done|]. destruct Hnew as [Hn1 Hn2].
  split; [split; [intros m Hm; apply elem_of_app; left; by apply Hn1|by rewrite app_nil_r]|].
  exists (rcs ++ cs), []. split_and!; [by apply Forall2_app|done|]. by rewrite concat_app, app_nil_r.
Qed.

Lemma TryMinorCompaction_wp input size count a : merging [] input a →
  wp (TryMinorCompaction fault root_ uuid_ file_format_identifier_ SizeOf ReachTargetSize partition_stats input size count) merged (aborts s0) a.
Proof.
  intros Hm. unfold TryMinorCompaction. wp_step. eapply wp_mono; [by apply minor_loop_wp| |done].
  intros [result candidates] a' H. cbn in *. destruct (_ <=? _); [|wp_step; by apply merging_merged].
  wp_step. rewrite <-(app_nil_r candidates) in H. eapply wp_mono; [exact (merging_step _ _ _ _ H)| |done]. intros m a2 H2. by wp_step.
Qed.

Lemma while_split {A} (p : A → bool) l : l = take_while p l ++ drop_while p l.
Proof. induction l as [|x l IH]; cbn; [done|]. destruct (p x); cbn; congruence. Qed.

Lemma TryFullCompaction_wp input size full a : merging [] input a →
  wp (TryFullCompaction fault root_ uuid_ file_format_identifier_ SizeOf ReachTargetSize partition_stats input size full)
     (λ r a', match r with Some out => merged out a' | None => merging [] input a' end) (aborts s0) a.
Proof.
  intros Hm. unfold TryFullCompaction. destruct (_ <? _); [by wp_step|]. destruct (Z.leb_spec (Z.of_nat (length (drop_while (is_base size) input))) 1) as [|Hlen]; [by wp_step|].
  set (base := take_while _ input). set (delta := drop_while _ input) in *.
  assert (Hm' : merging base delta a).
  { destruct Hm as (He&Hnew&rcs&cs&Hr&Hc&Hsteps). inversion Hr; subst. rewrite (while_split (is_base size) input) in Hc.
    apply Forall2_app_inv_l in Hc as (bcs&dcs&Hb&Hd&->). split; [done|]. destruct Hnew as [Hn1 Hn2].
    split; [split; [intros x Hx%Hn1; by apply elem_of_nil in Hx|rewrite (while_split (is_base size) input) in Hn2; exact Hn2]|].
    exists bcs, dcs. split_and!; [done..|]. by rewrite concat_app in Hsteps. }
  assert (Heq : (merged_delta ← with_files (MergeEntries delta); _ ← note_new merged_delta; mret (Some (base ++ merged_delta))) a =
    (merged ← merge_candidates fault root_ uuid_ file_format_identifier_ SizeOf ReachTargetSize partition_stats delta; mret (Some (base ++ merged))) a).
  { clear -Hlen. unfold merge_candidates. destruct delta as [|m [|m2 delta]]; [cbn in Hlen; lia..|].
    unfold mbind, M_bind, mret, M_ret. by destruct (with_files _ a) as [[?|??] ?]. }
  unfold wp. rewrite Heq. change (wp (merged ← merge_candidates fault root_ uuid_ file_format_identifier_ SizeOf ReachTargetSize partition_stats delta;
    mret (Some (base ++ merged))) (λ r a', match r with Some out => merged out a' | None => merging [] input a' end) (aborts s0) a).
  wp_step. rewrite <-(app_nil_r delta) in Hm'. eapply wp_mono; [exact (merging_step _ _ _ _ Hm')| |done]. intros out a' H. by wp_step.
Qed.

Lemma CleanUp_fold (ms : list ManifestFileMeta.t) (st : St) :
  foldl (λ st m, DeleteQuietly fault root_ (FileName m) st) st ms = foldl (λ st p, Delete fault p st) st (paths ms).
Proof. revert st. induction ms as [|m ms IH]; intros st; [done|]. cbn. apply IH. Qed.
Lemma CleanUp_grows (a : AS) : aborts s0 a → s0.1 ⊆ (CleanUp fault root_ a).2.1.
Proof. intros (_&_&Hg&Hn&_). unfold CleanUp. cbn. rewrite CleanUp_fold. by apply fold_Delete_grows. Qed.
Lemma CleanUp_restores (a : AS) : aborts s0 a → deletes_ok → (CleanUp fault root_ a).2.1 = s0.1.
Proof.
  intros (_&_&_&H2&H1) Hd. specialize (H1 Hd). rewrite Forall_forall in H2. unfold CleanUp. cbn.
  rewrite CleanUp_fold. apply map_eq. intros p. rewrite (proj2 (manifest_fold_Delete fault (paths a.1) a.2) Hd).
  destruct (decide (p ∈ paths a.1)); [symmetry; by apply H2|by apply H1].
Qed.
Lemma CleanUp_local (a : AS) : later a.2.2 (CleanUp fault root_ a).2.2.
Proof.
  unfold CleanUp. cbn. generalize a.2. induction a.1 as [|m ms IH]; intros st; [done|]. cbn. etrans; [|apply IH]. apply later_tick.
Qed.
End MergerProofs.

(** A merge keeps the log of the manifests up to merging, and leaves no trace
    when it fails. *)
Lemma Merge_wp {Other} fault root_ uuid_ fmt SizeOf reach stats all cs size count full (s : @St Other) :
  no_slash uuid_ → fresh root_ uuid_ s → Forall2 (stored root_ SizeOf stats s.1) all cs → once (concat cs) →
  wp (Merge fault root_ uuid_ fmt SizeOf reach stats all size count full)
     (λ out s', ∃ new, extends root_ uuid_ new s s' ∧ new ⊆ out ∧ out ⊆ all ++ new ∧
        ∃ cs', Forall2 (stored root_ SizeOf stats s'.1) out cs' ∧ rtc merge_step (concat cs) (concat cs'))
     (unwritten fault fmt stats s) s.
Proof.
  intros Hu Hf Hst Ho.
  assert (H : wp (TryMerge fault root_ uuid_ fmt SizeOf reach stats all size count full) (merged root_ uuid_ SizeOf stats s all (concat cs))
    (λ a, unwritten fault fmt stats s a.2) ([], s)).
  { assert (Hm : merging root_ uuid_ SizeOf stats s all (concat cs) [] all ([], s)).
    { split; [by apply extends_refl|]. split; [split; [done|by rewrite app_nil_r]|]. exists [], cs. by split_and!. }
    unfold TryMerge. wp_step. eapply (wp_mono _ _ _ (aborts fault root_ fmt stats s)); [|done|].
    - wp_step. eapply wp_mono; [by apply TryFullCompaction_wp| |done]. intros [out|] a' Ha; [by wp_step|]. by apply TryMinorCompaction_wp.
    - intros a Ha. pose proof Ha as (?&?&?). split_and!; [done|by etrans; [|apply CleanUp_local]|by eapply CleanUp_grows|]. intros Hd. by eapply CleanUp_restores. }
  unfold wp, Merge in *. destruct (TryMerge _ _ _ _ _ _ _ _ _ _ _ _) as [[out|c e] [new s']]; cbn in *; [|done].
  destruct H as (He&[Hn1 Hn2]&rcs&cs'&Hr&Hc&Hsteps). inversion Hc; subst. rewrite app_nil_r in Hn2. exists new. split; [done|]. split; [done|]. split; [done|].
  exists rcs. split; [done|]. by rewrite app_nil_r in Hsteps.
Qed.
