(* ===== verification/Snapshots.v ===== *)
(** * Snapshots

    [Snapshot] (src/paimon/core/snapshot.{h,cpp}) and [SnapshotManager]
    (src/paimon/core/utils/snapshot_manager.cpp) without a catalog: the snapshot
    directory with its two hint files, the lookup of the latest and of the
    earliest snapshot, and of the last one before a point in time.

    The directory maps the number in the name of a file to the snapshot it
    holds; the encoding as JSON is left out. *)

From stdpp Require Import base list gmap strings.
From Stdlib Require Import ZArith Lia.
From S2P Require Import Prelude StateError ManifestFiles.
Local Open Scope Z_scope.
#[local] Arguments wp : simpl never.

Module CommitKind.
Inductive t := Append | Compact | Overwrite | Analyze | Unknown.
#[export] Instance t_eq_dec : EqDecision t.
Proof. solve_decision. Defined.
End CommitKind.
Export (hints) CommitKind.

Module Snapshot.
Record t := mk {
  version_ : option Z;
  Uuid : option string;
  Id : Z;
  SchemaId : Z;
  BaseManifestList : string;
  BaseManifestListSize : option Z;
  DeltaManifestList : string;
  DeltaManifestListSize : option Z;
  ChangelogManifestList : option string;
  ChangelogManifestListSize : option Z;
  IndexManifest : option string;
  CommitUser : string;
  CommitIdentifier : Z;
  GetCommitKind : CommitKind.t;
  TimeMillis : Z;
  TotalRecordCount : Z;
  DeltaRecordCount : Z;
  ChangelogRecordCount : option Z;
  Watermark : option Z;
  Statistics : option string;
  Properties : option (list (string * string));
  NextRowId : option Z
}.
#[export] Instance t_eq_dec : EqDecision t.
Proof. solve_decision. Defined.
Definition FIRST_SNAPSHOT_ID : Z := 1.
Definition CURRENT_VERSION : Z := 3.
Definition Version (s : t) : Z := default 1 (version_ s).
End Snapshot.
Export (hints) Snapshot.

(** The directory of the snapshots, and the state of a process. *)
Record SnapshotDir := mkDir {
  snapshots : gmap Z Snapshot.t;
  LATEST : option Z;
  EARLIEST : option Z
}.
Definition World : Type := SnapshotDir * @St Empty_set.

Module SnapshotManager.
Section Manager.
Context (fault : Op → nat → Result unit).
Definition with_store {A} (m : M (@St Empty_set) A) : M World A := λ w, let '(r, st) := m w.2 in (r, (w.1, st)).
Definition sio (op : Op) : M World unit := with_store (io fault op).

Definition Exists (id : Z) : M World bool :=
  _ ← sio OpExists; gets (λ w : World, bool_decide (is_Some (snapshots w.1 !! id))).
Definition LoadSnapshot (id : Z) : M World Snapshot.t :=
  _ ← sio OpOpen;
  found ← gets (λ w : World, snapshots w.1 !! id);
  match found with
  | Some s => _ ← sio OpRead; mret s
  | None => fail NotExist "the file does not exist"
  end.

Definition READ_HINT_RETRY_NUM : nat := 3.
(** A read that fails is tried again; the outcome is never an error. *)
Fixpoint ReadHint_loop (n : nat) (hint : SnapshotDir → option Z) : M World (option Z) := λ w,
  match n with
  | O => (Ok None, w)
  | S n => match sio OpRead w with
           | (Ok _, w') => match hint w'.1 with Some id => (Ok (Some id), w') | None => ReadHint_loop n hint w' end
           | (Err _ _, w') => ReadHint_loop n hint w'
           end
  end.
Definition ReadHint : (SnapshotDir → option Z) → M World (option Z) := ReadHint_loop READ_HINT_RETRY_NUM.

Fixpoint CommitHint_loop (n : nat) (set_hint : SnapshotDir → SnapshotDir) : M World unit := λ w,
  match n with
  | O => (Err IOError "write", w)
  | S n => match sio OpCreate w with
           | (Ok _, (d, st)) => (Ok (), (set_hint d, st))
           | (Err c e, w') => match n with O => (Err c e, w') | _ => CommitHint_loop n set_hint w' end
           end
  end.
Definition CommitLatestHint (id : Z) : M World unit := CommitHint_loop 3 (λ d, mkDir (snapshots d) (Some id) (EARLIEST d)).
Definition CommitEarliestHint (id : Z) : M World unit := CommitHint_loop 3 (λ d, mkDir (snapshots d) (LATEST d) (Some id)).

Definition ListVersions : M World (list Z) := _ ← sio OpOpen; gets (λ w : World, (map_to_list (snapshots w.1)).*1).
Definition FindByListFiles (reducer_func : Z → Z → Z) : M World (option Z) :=
  versions ← ListVersions;
  match versions with
  | [] => mret None
  | v :: _ => mret (Some (foldl reducer_func v versions))
  end.
Definition FindLatest : M World (option Z) :=
  snapshot_id ← ReadHint LATEST;
  match snapshot_id with
  | Some id =>
      if 0 <? id then
        is_exist ← Exists (id + 1);
        if (is_exist : bool) then FindByListFiles Z.max else mret (Some id)
      else FindByListFiles Z.max
  | None => FindByListFiles Z.max
  end.
(** The directory exists once it has a file. *)
Definition FindEarliest : M World (option Z) :=
  _ ← sio OpExists;
  snapshot_id ← ReadHint EARLIEST;
  match snapshot_id with
  | Some id => is_exist ← Exists id; if (is_exist : bool) then mret (Some id) else FindByListFiles Z.min
  | None => FindByListFiles Z.min
  end.
Definition LatestSnapshot : M World (option Snapshot.t) :=
  snapshot_id ← FindLatest;
  match snapshot_id with
  | None => mret None
  | Some id => snapshot ← LoadSnapshot id; mret (Some snapshot)
  end.

(** The loop runs [fuel] times at most. *)
Fixpoint search_loop (fuel : nat) (compare : Z → Z → bool) (timestamp_millis lo hi : Z) (result : option Snapshot.t)
    : M World (option Snapshot.t) :=
  match fuel with
  | O => fail UnknownError "out of fuel"
  | S fuel =>
      if lo <=? hi then
        let mid := lo + (hi - lo) / 2 in
        snapshot ← LoadSnapshot mid;
        if compare (Snapshot.TimeMillis snapshot) timestamp_millis
        then search_loop fuel compare timestamp_millis (mid + 1) hi (Some snapshot)
        else search_loop fuel compare timestamp_millis lo (mid - 1) result
      else mret result
  end.
Definition search_fuel (lo hi : Z) : nat := Z.to_nat (hi - lo + 2).
Definition FindSnapshotBeforeTimestamp (compare : Z → Z → bool) (timestamp_millis : Z) : M World (option Snapshot.t) :=
  latest_id ← FindLatest;
  match latest_id with
  | None => mret None
  | Some latest_id =>
      earliest_id ← FindEarliest;
      match earliest_id with
      | None => mret None
      | Some earliest_id =>
          earliest_snapshot ← LoadSnapshot earliest_id;
          if negb (compare (Snapshot.TimeMillis earliest_snapshot) timestamp_millis) then mret None
          else search_loop (search_fuel earliest_id latest_id) compare timestamp_millis earliest_id latest_id None
      end
  end.
Definition EarlierOrEqualTimeMillis : Z → M World (option Snapshot.t) := FindSnapshotBeforeTimestamp Z.leb.
Definition EarlierThanTimeMillis : Z → M World (option Snapshot.t) := FindSnapshotBeforeTimestamp Z.ltb.

(** Downwards from a snapshot; a snapshot that is gone ends the search. *)
Fixpoint user_loop (fuel : nat) (user : string) (id search_end : Z) : M World (option Snapshot.t) := λ w,
  match fuel with
  | O => (Ok None, w)
  | S fuel =>
      if id <? search_end then (Ok None, w)
      else match LoadSnapshot id w with
           | (Ok s, w') => if String.eqb (Snapshot.CommitUser s) user then (Ok (Some s), w') else user_loop fuel user (id - 1) search_end w'
           | (Err NotExist _, w') => (Ok None, w')
           | (Err c e, w') => (Err c e, w')
           end
  end.
Definition LatestSnapshotOfUserAtOrBefore (user : string) (latest : option Snapshot.t) : M World (option Snapshot.t) :=
  match latest with
  | None => mret None
  | Some latest =>
      if String.eqb (Snapshot.CommitUser latest) user then mret (Some latest)
      else
        earliest_id ← FindEarliest;
        let search_end := Z.max (default Snapshot.FIRST_SNAPSHOT_ID earliest_id) Snapshot.FIRST_SNAPSHOT_ID in
        user_loop (Z.to_nat (Snapshot.Id latest - search_end + 1)) user (Snapshot.Id latest - 1) search_end
  end.
End Manager.
End SnapshotManager.
Import SnapshotManager.

Section Lookup.
Context (fault : Op → nat → Result unit).
Definition some_fault : Prop := ∃ op n, is_ok (fault op n) = false.

(** The snapshots of a table have consecutive numbers. *)
Definition ids_between (d : SnapshotDir) (e l : Z) : Prop :=
  1 ≤ e ≤ l ∧ (∀ k, is_Some (snapshots d !! k) ↔ e ≤ k ≤ l).
(** The hint is the latest snapshot, or the snapshot after it still exists. *)
Definition hint_ok (d : SnapshotDir) (e l : Z) : Prop :=
  ∀ h, LATEST d = Some h → h ≤ 0 ∨ h = l ∨ e - 1 ≤ h < l.

Lemma wp_sio op (Q : unit → World → Prop) (E : World → Prop) (w : World) :
  (∀ l, Q () (w.1, (w.2.1, l))) → (some_fault → ∀ l, E (w.1, (w.2.1, l))) → wp (sio fault op) Q E w.
Proof.
  intros HQ HE. unfold wp, sio, with_store, io. destruct (fault op _) as [[]|c e] eqn:Ef; cbn; [done|].
  apply HE. exists op, (ticks w.2.2). by rewrite Ef.
Qed.

Lemma Exists_wp k (w : World) : wp (Exists fault k) (λ b w', w'.1 = w.1 ∧ b = bool_decide (is_Some (snapshots w.1 !! k))) (λ _, some_fault) w.
Proof. unfold Exists. wp_step. apply wp_sio; [|done]. intros l. by wp_step. Qed.
Lemma LoadSnapshot_wp k (w : World) s : snapshots w.1 !! k = Some s → wp (LoadSnapshot fault k) (λ r w', w'.1 = w.1 ∧ r = s) (λ _, some_fault) w.
Proof.
  intros Hs. unfold LoadSnapshot. wp_step. apply wp_sio; [|done]. intros l. wp_step. wp_step. cbn. rewrite Hs. wp_step.
  apply wp_sio; [|done]. intros l'. by wp_step.
Qed.
Lemma ReadHint_wp n hint (w : World) : wp (ReadHint_loop fault n hint) (λ r w', w'.1 = w.1 ∧ (r = None ∨ r = hint w.1)) (λ _, False) w.
Proof.
  revert w. induction n as [|n IH]; intros w; unfold wp in *; cbn; [by split; [|left]|].
  unfold sio, with_store, io. cbn. destruct (fault OpRead _) as [[]|c e]; cbn.
  - destruct (hint w.1) eqn:Eh; [by split; [|right]|]. specialize (IH (w.1, (w.2.1, tick w.2.2))). cbn in IH. by rewrite Eh in IH.
  - exact (IH (w.1, (w.2.1, tick w.2.2))).
Qed.

(** The reduction of a list by a choice of one of two. *)
Lemma foldl_choice (f : Z → Z → Z) (R : Z → Z → Prop) v vs : (∀ a b, f a b = a ∨ f a b = b) → PreOrder R → (∀ a b, R a (f a b) ∧ R b (f a b)) →
  foldl f v vs ∈ v :: vs ∧ ∀ x, x ∈ v :: vs → R x (foldl f v vs).
Proof.
  intros Hf HR Hb. revert v. induction vs as [|a vs IH]; intros v; cbn.
  - split; [by left|]. by intros x ->%list_elem_of_singleton.
  - destruct (IH (f v a)) as [H1 H2]. split.
    + apply elem_of_cons in H1 as [->|H1]; [destruct (Hf v a) as [-> | ->]; [by left|right; by left]|]. right. by right.
    + intros x. rewrite !elem_of_cons. destruct (Hb v a) as [Hv Ha]. intros [->|[->|Hx]]; [..|apply H2; by right];
        (etrans; [eassumption|]; apply H2; by left).
Qed.

Lemma FindByListFiles_wp f R e l x (w : World) : ids_between w.1 e l → (∀ a b, f a b = a ∨ f a b = b) → PreOrder R → (∀ a b, R a (f a b) ∧ R b (f a b)) →
  e ≤ x ≤ l → (∀ y, e ≤ y ≤ l → R x y → y = x) →
  wp (FindByListFiles fault f) (λ r w', w'.1 = w.1 ∧ r = Some x) (λ _, some_fault) w.
Proof.
  intros [Hel Hids] Hf HR Hb Hx Hmax. unfold FindByListFiles, ListVersions. wp_step. wp_step. apply wp_sio; [|done]. intros l'. wp_step. cbn.
  assert (Hin : ∀ k, k ∈ (map_to_list (snapshots w.1)).*1 ↔ e ≤ k ≤ l).
  { intros k. rewrite <-Hids, list_elem_of_fmap. split.
    - intros ([k' s]&->&H%elem_of_map_to_list). by eexists.
    - intros [s Hs]. exists (k, s). by rewrite elem_of_map_to_list. }
  destruct ((map_to_list (snapshots w.1)).*1) as [|v vs] eqn:Ev; [apply Hin, elem_of_nil in Hx; done|]. wp_step. split; [done|]. f_equal.
  change (foldl f (f v v) vs = x). assert (f v v = v) as -> by (destruct (Hf v v); auto).
  destruct (foldl_choice f R v vs Hf HR Hb) as [H1 H2]. apply Hmax; [by apply Hin|]. by apply H2, Hin.
Qed.

Lemma FindLatest_wp e l (w : World) : ids_between w.1 e l → hint_ok w.1 e l → wp (FindLatest fault) (λ r w', w'.1 = w.1 ∧ r = Some l) (λ _, some_fault) w.
Proof.
  intros Hids Hh. assert (Hlist : ∀ w', w'.1 = w.1 → wp (FindByListFiles fault Z.max) (λ r w', w'.1 = w.1 ∧ r = Some l) (λ _, some_fault) w').
  { intros w' E. rewrite <-E in Hids |- *. apply (FindByListFiles_wp _ Z.le e l); [done|lia|apply _|lia|destruct Hids; lia|lia]. }
  unfold FindLatest. wp_step. eapply wp_mono; [apply ReadHint_wp| |done]. intros r w1 [E1 Hr].
  destruct r as [h|]; [|by apply Hlist]. destruct Hr as [|Hr]; [done|]. destruct (Z.ltb_spec 0 h); [|by apply Hlist]. wp_step.
  eapply wp_mono; [apply Exists_wp| |done]. intros b w2 [E2 ->]. rewrite E1. case_bool_decide as Hex; [apply Hlist; congruence|].
  wp_step. split; [congruence|]. f_equal. destruct Hids as [Hel Hids]. rewrite Hids in Hex. destruct (Hh h) as [|[|]]; [done|lia..].
Qed.

Lemma FindEarliest_wp e l (w : World) : ids_between w.1 e l → (∀ h, EARLIEST w.1 = Some h → h ≤ e) →
  wp (FindEarliest fault) (λ r w', w'.1 = w.1 ∧ r = Some e) (λ _, some_fault) w.
Proof.
  intros Hids Hh. assert (Hlist : ∀ w', w'.1 = w.1 → wp (FindByListFiles fault Z.min) (λ r w', w'.1 = w.1 ∧ r = Some e) (λ _, some_fault) w').
  { intros w' E. rewrite <-E in Hids |- *. apply (FindByListFiles_wp _ Z.ge e l); [done|lia|split; [intros x|intros x y z]; lia|lia|destruct Hids; lia|lia]. }
  unfold FindEarliest. wp_step. apply wp_sio; [|done]. intros l0. wp_step. eapply wp_mono; [apply ReadHint_wp| |done]. cbn. intros r w1 [E1 Hr].
  destruct r as [h|]; [|by apply Hlist]. destruct Hr as [|Hr]; [done|]. wp_step.
  eapply wp_mono; [apply Exists_wp| |done]. intros b w2 [E2 ->]. rewrite E1. case_bool_decide as Hex; [|apply Hlist; congruence].
  wp_step. split; [congruence|]. f_equal. destruct Hids as [Hel Hids]. rewrite Hids in Hex. assert (h ≤ e) by by apply Hh. lia.
Qed.

(** No snapshots, or consecutive ones with a hint. *)
Definition dir_ok (d : SnapshotDir) : Prop :=
  (snapshots d = ∅ ∧ LATEST d = None) ∨ ∃ e l, ids_between d e l ∧ hint_ok d e l.
Definition is_latest (d : SnapshotDir) (r : option Snapshot.t) : Prop :=
  match r with
  | None => snapshots d = ∅
  | Some s => ∃ l, snapshots d !! l = Some s ∧ ∀ k, is_Some (snapshots d !! k) → k ≤ l
  end.

Lemma FindLatest_empty (w : World) : snapshots w.1 = ∅ → LATEST w.1 = None → wp (FindLatest fault) (λ r w', w'.1 = w.1 ∧ r = None) (λ _, some_fault) w.
Proof.
  intros Hs Hl. unfold FindLatest. wp_step. eapply wp_mono; [apply ReadHint_wp| |done]. intros r w1 [E1 Hr]. rewrite Hl in Hr.
  destruct r as [h|]; [by destruct Hr|]. unfold FindByListFiles, ListVersions. wp_step. wp_step. apply wp_sio; [|done]. intros l. wp_step. cbn.
  rewrite E1, Hs, map_to_list_empty. cbn. by wp_step.
Qed.
Lemma LatestSnapshot_wp (w : World) : dir_ok w.1 → wp (LatestSnapshot fault) (λ r w', w'.1 = w.1 ∧ is_latest w.1 r) (λ _, some_fault) w.
Proof.
  intros [[Hs Hl]|(e&l&Hids&Hh)]; unfold LatestSnapshot; wp_step.
  - eapply wp_mono; [by apply FindLatest_empty| |done]. intros r w1 [E ->]. by wp_step.
  - eapply wp_mono; [by eapply FindLatest_wp| |done]. intros r w1 [E ->]. destruct Hids as [Hel Hids]. destruct (proj2 (Hids l)) as [s Hs]; [lia|].
    wp_step. eapply wp_mono; [apply LoadSnapshot_wp; by rewrite E| |done]. intros s' w2 [E2 ->]. wp_step. split; [congruence|].
    exists l. split; [done|]. intros k Hk. by apply Hids.
Qed.

(** ** The last snapshot before a point in time *)

Context (compare : Z → Z → bool) (ts : Z).
Definition early (s : Snapshot.t) : Prop := compare (Snapshot.TimeMillis s) ts = true.
(** The early snapshots are the first ones. *)
Definition times_ok (d : SnapshotDir) : Prop :=
  ∀ i j s s', i ≤ j → snapshots d !! i = Some s → snapshots d !! j = Some s' → early s' → early s.
Definition last_early (d : SnapshotDir) (r : option Snapshot.t) : Prop :=
  match r with
  | None => ∀ k s, snapshots d !! k = Some s → ¬ early s
  | Some s => ∃ k, snapshots d !! k = Some s ∧ early s ∧ ∀ k' s', k < k' → snapshots d !! k' = Some s' → ¬ early s'
  end.

Lemma search_loop_wp fuel e l lo hi r (w : World) : ids_between w.1 e l → times_ok w.1 → (Z.to_nat (hi - lo + 1) < fuel)%nat →
  e ≤ lo ∧ hi ≤ l ∧ lo ≤ hi + 1 → (∀ k s, k < lo → snapshots w.1 !! k = Some s → early s) →
  (∀ k s, hi < k → snapshots w.1 !! k = Some s → ¬ early s) → (if decide (lo = e) then r = None else r = snapshots w.1 !! (lo - 1)) →
  wp (search_loop fault fuel compare ts lo hi r) (λ r w', w'.1 = w.1 ∧ last_early w.1 r) (λ _, some_fault) w.
Proof.
  intros Hids Ht. revert lo hi r w Hids Ht. induction fuel as [|fuel IH]; intros lo hi r w Hids Ht Hfuel Hb Hlo Hhi Hr; [lia|]. cbn.
  destruct (Z.leb_spec lo hi) as [Hle|Hgt].
  - set (mid := lo + (hi - lo) / 2). assert (Hmid : lo ≤ mid ≤ hi).
    { unfold mid. pose proof (Z.div_pos (hi - lo) 2). pose proof (Z.div_le_upper_bound (hi - lo) 2 (hi - lo)). lia. }
    destruct (proj2 (proj2 Hids mid)) as [s Hs]; [lia|]. wp_step. eapply wp_mono; [by apply LoadSnapshot_wp| |done].
    intros s' w1 [E1 ->]. destruct (compare (Snapshot.TimeMillis s) ts) eqn:Ec; rewrite <-E1 in *.
    + apply IH; try done; try lia.
      * intros k s1 Hk Hs1. by apply (Ht k mid s1 s); [lia|..].
      * rewrite decide_False by lia. by replace (mid + 1 - 1) with mid by lia.
    + apply IH; try done; try lia. intros k s1 Hk Hs1 He. assert (Hm : early s) by by apply (Ht mid k s s1); [lia|..].
      unfold early in Hm. congruence.
  - wp_step. split; [done|]. destruct (decide (lo = e)) as [->|Hne].
    + rewrite Hr. intros k s Hs. apply (Hhi k); [|done]. pose proof (proj1 (proj2 Hids k) (ex_intro _ s Hs)). lia.
    + destruct (proj2 (proj2 Hids (lo - 1))) as [s Hs]; [lia|]. rewrite Hr, Hs. exists (lo - 1). split; [done|].
      split; [apply (Hlo (lo - 1)); [lia|done]|]. intros k' s' Hk'. apply Hhi. lia.
Qed.

Lemma FindSnapshotBeforeTimestamp_wp e l (w : World) : ids_between w.1 e l → hint_ok w.1 e l → (∀ h, EARLIEST w.1 = Some h → h ≤ e) → times_ok w.1 →
  wp (FindSnapshotBeforeTimestamp fault compare ts) (λ r w', w'.1 = w.1 ∧ last_early w.1 r) (λ _, some_fault) w.
Proof.
  intros Hids Hl He Ht. unfold FindSnapshotBeforeTimestamp. wp_step. eapply wp_mono; [by apply (FindLatest_wp e l)| |done].
  intros r w1 [E1 ->]. rewrite <-E1 in *. wp_step. eapply wp_mono; [by apply (FindEarliest_wp e l)| |done].
  clear E1 w. intros r w2 [E2 ->]. rewrite <-E2 in *. clear E2 w1. destruct (proj2 (proj2 Hids e)) as [s Hs]; [destruct Hids; lia|].
  wp_step. eapply wp_mono; [by apply LoadSnapshot_wp| |done]. intros s' w3 [E3 ->]. rewrite <-E3 in *. clear E3 w2.
  destruct (compare (Snapshot.TimeMillis s) ts) eqn:Ec; cbn [negb].
  - pose proof (proj1 Hids). apply (search_loop_wp _ e l); try done; try lia; [unfold search_fuel; lia|..|by rewrite decide_True].
    + intros k s1 Hk Hs1. pose proof (proj1 (proj2 Hids k) (ex_intro _ s1 Hs1)). lia.
    + intros k s1 Hk Hs1. pose proof (proj1 (proj2 Hids k) (ex_intro _ s1 Hs1)). lia.
  - wp_step. split; [done|]. intros k s1 Hs1 Hearly. assert (early s).
    { apply (Ht e k s s1); try done. pose proof (proj1 (proj2 Hids k) (ex_intro _ s1 Hs1)). lia. }
    unfold early in *. congruence.
Qed.
End Lookup.
