(* ===== verification/ConflictDetection.v ===== *)
(** * Conflict detection

    [ConflictDetection] (src/paimon/core/operation/commit/conflict_detection.cpp):
    the checks that a commit makes against the files of the latest snapshot.
    The commits have no index files and do not ask for the check of the columns
    written since a snapshot; the texts of the messages are left out. The last
    section shows that the check of key ranges checks nothing where the sequence
    field is descending. *)

From stdpp Require Import base list gmap strings sorting.
From Stdlib Require Import ZArith Lia.
From S2P Require Import Prelude Rows DataFiles Ranges StateError Manifests RowTracking Snapshots.
Import ManifestEntry.
Local Open Scope Z_scope.

Module ConflictDetection.
(** What the comparator of the keys is made of: the types of the schema's
    [TrimmedPrimaryKeyFields] and the option
    [SequenceFieldSortOrderIsAscending]. *)
Class KeyOptions := mkKeyOptions {
  TrimmedPrimaryKeyFields : Result (list ArrowType);
  SequenceFieldSortOrderIsAscending : bool
}.

Section Checks.
(** The options and the schema: deletion vectors on a table without buckets,
    whether there is a primary key, whether columns are written to files of their
    own ("data evolution"), and the comparator of the keys. *)
Context (deletion_vectors_enabled bucket_unaware has_primary_keys data_evolution_enabled : bool) {KO : KeyOptions}.

Definition CheckDeletionVectorsNotBypassed (delta_entries : list ManifestEntry.t) : Result unit :=
  if negb deletion_vectors_enabled || negb bucket_unaware then Ok ()
  else if existsb (λ e, bool_decide (is_delete e)) delta_entries
  then Err NotImplemented "Committing the deletion of data file is not supported while deletion vectors are enabled on a table without buckets"
  else Ok ().

(** [total_buckets] of the partitions met so far; partitions in the cache are
    skipped. *)
Definition Cache : Type := LinkedHashMap.t InternalRow bool.
Definition TotalBucketsMap : Type := LinkedHashMap.t InternalRow Z.
Definition check_bucket (cache : Cache) (entry : ManifestEntry.t) (total_buckets : TotalBucketsMap) : Result TotalBucketsMap :=
  if TotalBuckets entry <=? 0 then Ok total_buckets
  else match LinkedHashMap.find (Partition entry) cache with
       | Some _ => Ok total_buckets
       | None =>
           match LinkedHashMap.find (Partition entry) total_buckets with
           | None => Ok (LinkedHashMap.insert (Partition entry) (TotalBuckets entry) total_buckets)
           | Some n => if n =? TotalBuckets entry then Ok total_buckets
                       else Err Invalid "Total buckets of partition changed without overwrite. Give up committing."
           end
       end.
Definition kSameBucketCheckCacheMaxSize : nat := 1000.
(** The loop erases the oldest partition until the cache fits. *)
Definition MarkBucketCheckedPartitions (total_buckets : TotalBucketsMap) (cache : Cache) : Cache :=
  foldl (λ cache '(partition, _),
           let cache := LinkedHashMap.insert_or_assign partition true cache in
           drop (length cache - kSameBucketCheckCacheMaxSize) cache) cache total_buckets.
Definition CheckBucketKeepSame (all_entries : list ManifestEntry.t) (commit_kind : CommitKind.t) : M Cache unit := λ cache,
  if decide (commit_kind = CommitKind.Overwrite) then (Ok (), cache)
  else match foldR (check_bucket cache) all_entries [] with
       | Ok total_buckets => (Ok (), MarkBucketCheckedPartitions total_buckets cache)
       | Err c e => (Err c e, cache)
       end.

(** The check that write-only tables make instead of all the others. *)
Definition collect_bucket (cache : Cache) (entry : ManifestEntry.t) (total_buckets : TotalBucketsMap) : Result TotalBucketsMap :=
  if negb (bool_decide (is_add entry)) || (TotalBuckets entry <=? 0) then Ok total_buckets
  else match LinkedHashMap.find (Partition entry) cache with
       | Some _ => Ok total_buckets
       | None =>
           match LinkedHashMap.find (Partition entry) total_buckets with
           | None => Ok (LinkedHashMap.insert (Partition entry) (TotalBuckets entry) total_buckets)
           | Some n => if n =? TotalBuckets entry then Ok total_buckets
                       else Err Invalid "Try to write with a new bucket num. Perform INSERT OVERWRITE to rescale current data layout first."
           end
       end.
Definition CollectUncheckedBucketPartitions (delta_entries : list ManifestEntry.t) (cache : Cache) : Result TotalBucketsMap :=
  foldR (collect_bucket cache) delta_entries [].
Definition CheckSameBucketByTotalBuckets (expected_total_buckets previous_total_buckets : TotalBucketsMap) : M Cache unit := λ cache,
  if forallb (λ '(partition, total_buckets),
                match LinkedHashMap.find partition previous_total_buckets with Some n => n =? total_buckets | None => true end) expected_total_buckets
  then (Ok (), MarkBucketCheckedPartitions expected_total_buckets cache)
  else (Err Invalid "Try to write with a new bucket num. Perform INSERT OVERWRITE to rescale current data layout first.", cache).

Definition CheckDeleteInEntries (merged_entries : list ManifestEntry.t) : Result unit :=
  if existsb (λ e, bool_decide (is_delete e)) merged_entries
  then Err Invalid "File deletion conflicts detected! Give up committing." else Ok ().

(** Groups by partition, bucket and level. *)
Definition LevelKey : Type := InternalRow * Z * Z.
Definition level_key (e : ManifestEntry.t) : LevelKey := (Partition e, Bucket e, Level e).
Definition MinKey (e : ManifestEntry.t) : InternalRow := DataFileMeta.min_key (File e).
Definition MaxKey (e : ManifestEntry.t) : InternalRow := DataFileMeta.max_key (File e).
Definition LevelMap : Type := LinkedHashMap.t LevelKey (list ManifestEntry.t).
Definition add_level (m : LevelMap) (e : ManifestEntry.t) : LevelMap :=
  if bool_decide (is_add e) && negb (Level e <? 1)
  then LinkedHashMap.push (level_key e) e m
  else m.
Definition levels (merged_entries : list ManifestEntry.t) : LevelMap := foldl add_level [] merged_entries.
Fixpoint adjacent_disjoint (key_comparator : Comparator InternalRow) (entries : list ManifestEntry.t) : bool :=
  match entries with
  | a :: (b :: _) as rest => if 0 <=? key_comparator (MaxKey a) (MinKey b) then false else adjacent_disjoint key_comparator rest
  | _ => true
  end.
Definition sort_entries (key_comparator : Comparator InternalRow) (entries : list ManifestEntry.t) : list ManifestEntry.t :=
  std_sort (λ a b, key_comparator (MinKey a) (MinKey b) <? 0) entries.
Definition CheckKeyRange (merged_entries : list ManifestEntry.t) : Result unit :=
  if negb has_primary_keys then Ok ()
  else
    trimmed_primary_key_fields ← TrimmedPrimaryKeyFields;
    key_comparator ← Rows.Create trimmed_primary_key_fields SequenceFieldSortOrderIsAscending;
    if forallb (λ '(_, entries), adjacent_disjoint (CompareRows key_comparator) (sort_entries (CompareRows key_comparator) entries))
         (levels merged_entries)
    then Ok () else Err Invalid "LSM conflicts detected! Give up committing.".

(** The row ids of a file that has any. *)
Definition first_row_id (e : ManifestEntry.t) : option Z := DataFileMeta.first_row_id (File e).
Definition row_range (e : ManifestEntry.t) (first : Z) : Range := mkRange first (int64 (first + DataFileMeta.row_count (File e) - 1)).
Definition is_dedicated (e : ManifestEntry.t) : bool := IsDedicatedStorageFile (DataFileMeta.file_name (File e)).
(** The ranges of the data files among the entries. *)
Definition data_ranges (entries : list ManifestEntry.t) : list Range :=
  omap (λ e, if is_dedicated e then None else row_range e <$> first_row_id e) entries.

(** Files that are added for rows that exist. *)
Definition refers_below (next_row_id : option Z) (e : ManifestEntry.t) : Prop :=
  is_add e ∧ match first_row_id e, next_row_id with Some first, Some next => first < next | _, _ => False end.
#[export] Instance refers_below_dec next_row_id e : Decision (refers_below next_row_id e).
Proof. unfold refers_below. destruct (first_row_id e), next_row_id; apply _. Defined.
Definition check_existence (existing_index : RowRangeIndex.t) (entry : ManifestEntry.t) : Result unit :=
  match first_row_id entry with
  | None => Ok ()
  | Some first =>
      exists_ ← (if is_dedicated entry then RowRangeIndex.Contains existing_index (row_range entry first)
                 else RowRangeIndex.ContainsExactly existing_index (row_range entry first));
      if (exists_ : bool) then Ok () else Err Invalid "Row ID existence conflict: no matching file exists in the current snapshot."
  end.
Definition CheckRowIdExistence (base_entries delta_entries : list ManifestEntry.t) (next_row_id : option Z) : Result unit :=
  if negb data_evolution_enabled then Ok ()
  else match filter (refers_below next_row_id) delta_entries with
       | [] => Ok ()
       | files_to_check =>
           existing_index ← RowRangeIndex.Create (data_ranges base_entries) false;
           foldR (λ entry _, check_existence existing_index entry) files_to_check ()
       end.

(** The functions of the range helper; the files have row ids. *)
Definition range_start (e : ManifestEntry.t) : Result Z :=
  match first_row_id e with Some first => Ok first | None => Err UnknownError "bad optional access" end.
Definition range_end (e : ManifestEntry.t) : Result Z :=
  match first_row_id e with Some first => Ok (to (row_range e first)) | None => Err UnknownError "bad optional access" end.
Definition CheckDataFileRowIdRangeConflicts (data_files : list ManifestEntry.t) : Result unit :=
  data_file_groups ← RangeHelper.MergeOverlappingRanges range_start range_end data_files;
  foldR (λ data_file_group _,
    all_data_ranges_same ← RangeHelper.AreAllRangesSame range_start range_end data_file_group;
    if (all_data_ranges_same : bool) then Ok ()
    else Err Invalid "For Data Evolution table, multiple 'MERGE INTO' and 'COMPACT' operations have encountered conflicts") data_file_groups ().
Definition check_dedicated (data_index : RowRangeIndex.t) (dedicated_file : ManifestEntry.t) : Result unit :=
  match first_row_id dedicated_file with
  | None => Ok ()
  | Some first =>
      let dedicated_range := row_range dedicated_file first in
      intersecting_ranges ← RowRangeIndex.IntersectedRanges data_index (from dedicated_range) (to dedicated_range);
      match intersecting_ranges with
      | [r] => if (from r <=? from dedicated_range) && (to dedicated_range <=? to r) then Ok ()
               else Err Invalid "is not covered by one data file range"
      | [] => Err Invalid "is not covered by one data file range"
      | _ => Err Invalid "spans multiple data file ranges"
      end
  end.
Definition CheckDedicatedFileRowIdRangeConflicts (data_files dedicated_files : list ManifestEntry.t) : Result unit :=
  match dedicated_files with
  | [] => Ok ()
  | _ => data_index ← RowRangeIndex.Create (data_ranges data_files) false;
         foldR (λ file _, check_dedicated data_index file) dedicated_files ()
  end.
Definition CheckRowIdRangeConflicts (commit_kind : CommitKind.t) (merged_entries : list ManifestEntry.t) : Result unit :=
  if negb data_evolution_enabled then Ok ()
  else if decide (commit_kind = CommitKind.Compact) then
    match filter (λ e, is_Some (first_row_id e)) merged_entries with
    | [] => Ok ()
    | entries_with_ranges =>
        let data_files := filter (λ e, is_dedicated e = false) entries_with_ranges in
        let dedicated_files := filter (λ e, is_dedicated e = true) entries_with_ranges in
        _ ← CheckDataFileRowIdRangeConflicts data_files;
        CheckDedicatedFileRowIdRangeConflicts data_files dedicated_files
    end
  else Ok ().

(** The cache of the checked partitions is part of the state of the object, and
    changed also when a later check fails. *)
Definition CheckConflicts (base_entries delta_entries : list ManifestEntry.t) (next_row_id : option Z) (commit_kind : CommitKind.t) : M Cache unit :=
  _ ← of_result (CheckDeletionVectorsNotBypassed delta_entries);
  let all_entries := base_entries ++ delta_entries in
  _ ← CheckBucketKeepSame all_entries commit_kind;
  _ ← of_result (FileEntry.MergeEntries delta_entries);
  merged_entries ← of_result (FileEntry.MergeEntries all_entries);
  _ ← of_result (CheckDeleteInEntries merged_entries);
  _ ← of_result (CheckKeyRange merged_entries);
  _ ← of_result (if decide (commit_kind = CommitKind.Compact) then Ok () else CheckRowIdExistence base_entries delta_entries next_row_id);
  of_result (CheckRowIdRangeConflicts commit_kind merged_entries).
End Checks.
End ConflictDetection.
Import ConflictDetection.

(** ** What an accepted commit does to the log

    [log] holds the entries of all manifests of the latest snapshot, [base] the
    live ones of the partitions the commit touches. *)

Lemma MergeEntry_known x m m' : FileEntry.MergeEntry x m = Ok m' → known x.
Proof. unfold FileEntry.MergeEntry, known, is_add, is_delete. destruct (decide _); [auto|]. destruct (decide _); [auto|done]. Qed.

(** Entries of one kind stay in the map. *)
Lemma same_kind_found l x : (∀ a b, a ∈ l → b ∈ l → CreateIdentifier a = CreateIdentifier x → CreateIdentifier b = CreateIdentifier x → Kind a = Kind b) →
  ∀ a, a ∈ l → CreateIdentifier a = CreateIdentifier x → is_Some (LinkedHashMap.find (CreateIdentifier x) (as_map (unpaired l))).
Proof.
  intros H a Ha E. apply not_eq_None_Some. rewrite as_map_find. intros Hn. apply (Hn a); [|done]. apply list_elem_of_filter.
  split; [|done]. apply Forall_forall. intros b Hb E'. apply H; [done..|congruence|done].
Qed.

(** The merge refuses an addition after another entry of the file. *)
Lemma MergeEntry_once l x m' : once l → FileEntry.MergeEntry x (as_map (unpaired l)) = Ok m' →
  (is_delete x → ∀ a, a ∈ l → CreateIdentifier a = CreateIdentifier x → is_add a) →
  (is_add x → ∀ a b, a ∈ l → b ∈ l → CreateIdentifier a = CreateIdentifier x → CreateIdentifier b = CreateIdentifier x → Kind a = Kind b) →
  once (l ++ [x]).
Proof.
  intros Ho Hm Hd Ha. pose proof (MergeEntry_known _ _ _ Hm) as Hk. apply once_app. split_and!; [done| |].
  { split; [repeat constructor|by apply Forall_singleton]. }
  intros a b Hin ->%list_elem_of_singleton E. destruct Hk as [Hx|Hx]; [|auto]. exfalso.
  destruct (same_kind_found l x (Ha Hx) a Hin E) as [v Hv]. unfold FileEntry.MergeEntry, is_add in *. rewrite Hx, Hv in Hm. done.
Qed.

Lemma MergeEntriesInto_snoc l x m' : once l → FileEntry.MergeEntriesInto (l ++ [x]) [] = Ok m' →
  FileEntry.MergeEntry x (as_map (unpaired l)) = Ok m'.
Proof.
  intros Ho. unfold FileEntry.MergeEntriesInto. rewrite foldR_app. change (foldR FileEntry.MergeEntry l []) with (FileEntry.MergeEntriesInto l []).
  rewrite MergeEntriesInto_once by done. cbn. by destruct (FileEntry.MergeEntry _ _).
Qed.

Lemma MergeEntriesInto_prefix l1 l2 m : FileEntry.MergeEntriesInto (l1 ++ l2) [] = Ok m → ∃ m1, FileEntry.MergeEntriesInto l1 [] = Ok m1.
Proof.
  unfold FileEntry.MergeEntriesInto. rewrite foldR_app. destruct (foldR FileEntry.MergeEntry l1 []); cbn; [eauto|done].
Qed.

(** No entry of the delta is repeated. *)
Definition entry_key (e : ManifestEntry.t) : FileKind.t * Identifier.t := (Kind e, CreateIdentifier e).
Definition unrepeated (delta : list ManifestEntry.t) : Prop := NoDup (entry_key <$> delta).

Lemma unrepeated_snoc d x : unrepeated (d ++ [x]) → unrepeated d ∧ ∀ a, a ∈ d → CreateIdentifier a = CreateIdentifier x → Kind a ≠ Kind x.
Proof.
  unfold unrepeated. rewrite fmap_app, NoDup_app. intros (Hd&Hx&_). split; [done|]. intros a Ha E Hk.
  apply (Hx (entry_key a)); [by apply list_elem_of_fmap_2|]. apply list_elem_of_singleton. unfold entry_key. congruence.
Qed.

Lemma delta_once delta m : unrepeated delta → FileEntry.MergeEntriesInto delta [] = Ok m → once delta.
Proof.
  revert m. induction delta as [|x d IH] using rev_ind; intros m Hu Hm; [by repeat constructor|].
  apply unrepeated_snoc in Hu as [Hu Hx]. destruct (MergeEntriesInto_prefix _ _ _ Hm) as [m1 Hm1].
  pose proof (IH _ Hu Hm1) as Hd. pose proof Hd as [_ Hk]. rewrite Forall_forall in Hk.
  apply MergeEntriesInto_snoc in Hm; [|done]. eapply MergeEntry_once; [done..| |].
  - intros Hdel a Ha E. destruct (Hk a Ha) as [?|?]; [done|]. destruct (Hx a Ha E). unfold is_delete in *. congruence.
  - intros Hadd a b Ha Hb Ea Eb. pose proof (Hx a Ha Ea). pose proof (Hx b Hb Eb). unfold known, is_add, is_delete in *.
    destruct (Hk a Ha), (Hk b Hb); congruence.
Qed.

Lemma base_delta_once base delta m : once base → Forall is_add base → once delta →
  FileEntry.MergeEntriesInto (base ++ delta) [] = Ok m → once (base ++ delta).
Proof.
  intros Hb Hadd. revert m. induction delta as [|x d IH] using rev_ind; intros m Hd Hm; [by rewrite app_nil_r|].
  apply once_app in Hd as (Hd&_&Hc). rewrite (assoc_L app) in *. destruct (MergeEntriesInto_prefix _ _ _ Hm) as [m1 Hm1].
  specialize (IH _ Hd Hm1). apply MergeEntriesInto_snoc in Hm; [|done]. rewrite Forall_forall in Hadd.
  eapply MergeEntry_once; [done..| |].
  - intros _ a [Ha|Ha]%elem_of_app E; [by apply Hadd|]. by destruct (Hc a x Ha (list_elem_of_here _ _) E).
  - intros Hx. assert (Hbase : ∀ a, a ∈ base ++ d → CreateIdentifier a = CreateIdentifier x → is_add a).
    { intros a [Ha|Ha]%elem_of_app E; [by apply Hadd|]. by destruct (Hc a x Ha (list_elem_of_here _ _) E). }
    intros a b Ha Hb' Ea Eb. pose proof (Hbase a Ha Ea). pose proof (Hbase b Hb' Eb). unfold is_add in *. congruence.
Qed.

(** The base: the live entries of the partitions a commit changes. *)
Definition live_in (partitions : list InternalRow) (log : list ManifestEntry.t) : list ManifestEntry.t :=
  filter (λ e, Partition e ∈ partitions) (MergeLiveEntries log).

Lemma live_in_once partitions log : once log → once (live_in partitions log) ∧ Forall is_add (live_in partitions log).
Proof.
  intros Ho. split; [by apply once_filter, once_filter|]. apply Forall_forall. intros e [_ He]%list_elem_of_filter.
  by apply live_spec in He as (_&?&_).
Qed.

Section Accepted.
Context (dv bu pk de : bool) {KO : KeyOptions}.
Context {KC : Comparator InternalRow} {KL : ComparatorLaws InternalRow}.

Lemma CheckConflicts_inv base delta next kind cache cache' : CheckConflicts dv bu pk de base delta next kind cache = (Ok (), cache') →
  (∃ m, FileEntry.MergeEntriesInto delta [] = Ok m) ∧
  ∃ m, FileEntry.MergeEntriesInto (base ++ delta) [] = Ok m ∧
    (∀ e, e ∈ LinkedHashMap.values m → ¬ is_delete e) ∧ CheckKeyRange pk (LinkedHashMap.values m) = Ok () ∧
    (kind ≠ CommitKind.Compact → CheckRowIdExistence de base delta next = Ok ()) ∧ CheckRowIdRangeConflicts de kind (LinkedHashMap.values m) = Ok ().
Proof.
  unfold CheckConflicts. intros (?&?&_&H)%bind_M_Ok. apply bind_M_Ok in H as (?&c&_&H). apply bind_M_Ok in H as (d&?&Hd&H).
  apply bind_M_Ok in H as (a&?&Ha&H). apply bind_M_Ok in H as ([]&?&Hdel&H). apply bind_M_Ok in H as ([]&?&Hkey&H). apply bind_M_Ok in H as ([]&?&Hex&H).
  apply of_result_Ok in Hd as [Hd _], Ha as [Ha _], Hdel as [Hdel _], Hkey as [Hkey _], Hex as [Hex _], H as [Hrange _].
  unfold FileEntry.MergeEntries in Hd, Ha. apply bind_Ok in Hd as (m&Hm&_). apply bind_Ok in Ha as (m'&Hm'&[= <-]).
  split; [by exists m|]. exists m'. split_and!; [done| |done| |done].
  - intros e He Hx. unfold CheckDeleteInEntries in Hdel. destruct (existsb _ _) eqn:E; [done|]. apply not_true_iff_false in E. destruct E.
    apply existsb_exists. exists e. split; [by apply list_elem_of_In|by apply bool_decide_eq_true].
  - intros Hk. by rewrite decide_False in Hex.
Qed.

(** The files added are new: the log deletes none of them. *)
Definition fresh_adds (log delta : list ManifestEntry.t) : Prop :=
  ∀ e, e ∈ delta → is_add e → CreateIdentifier e ∉ deleted_identifiers log.

Lemma accepted_once partitions log delta next kind cache cache' : once log → unrepeated delta →
  CheckConflicts dv bu pk de (live_in partitions log) delta next kind cache = (Ok (), cache') → once (live_in partitions log ++ delta).
Proof.
  intros Ho Hu ((m&Hm)&m'&Hm'&_)%CheckConflicts_inv. destruct (live_in_once partitions log Ho) as [Hb Hadd].
  eapply base_delta_once; [done..| |done]. by eapply delta_once.
Qed.

(** What is deleted is there. *)
Lemma accepted_deletes partitions log delta next kind cache cache' : once log → unrepeated delta →
  CheckConflicts dv bu pk de (live_in partitions log) delta next kind cache = (Ok (), cache') →
  ∀ d, d ∈ delta → is_delete d → ∃ a, a ∈ live_in partitions log ++ delta ∧ is_add a ∧ CreateIdentifier a = CreateIdentifier d.
Proof.
  intros Ho Hu Hc d Hd Hdel. pose proof (accepted_once _ _ _ _ _ _ _ Ho Hu Hc) as Hall.
  apply CheckConflicts_inv in Hc as (_&m&Hm&Hn&_). rewrite MergeEntriesInto_once in Hm by done. injection Hm as <-.
  rewrite as_map_values in Hn. destruct (decide (d ∈ unpaired (live_in partitions log ++ delta))) as [Hin|Hout].
  { by destruct (Hn d Hin). }
  destruct (decide (Exists (λ a, is_add a ∧ CreateIdentifier a = CreateIdentifier d) (live_in partitions log ++ delta))) as [Hx|Hx].
  { apply Exists_exists in Hx as (a&?&?&?). by exists a. }
  destruct Hout. apply list_elem_of_filter. split; [|apply elem_of_app; by right]. apply Forall_forall. intros e He E.
  destruct Hall as [_ Hk]. rewrite Forall_forall in Hk. destruct (Hk e He) as [?|?]; [|unfold is_delete in *; congruence].
  destruct Hx. apply Exists_exists. by exists e.
Qed.

Lemma accepted_log partitions log delta next kind cache cache' : once log → unrepeated delta → fresh_adds log delta →
  (∀ e, e ∈ delta → Partition e ∈ partitions) →
  CheckConflicts dv bu pk de (live_in partitions log) delta next kind cache = (Ok (), cache') → once (log ++ delta).
Proof.
  intros Ho Hu Hf Hp Hc. pose proof (accepted_once _ _ _ _ _ _ _ Ho Hu Hc) as (_&Hd&Hbd)%once_app.
  pose proof (accepted_deletes _ _ _ _ _ _ _ Ho Hu Hc) as Hdel. apply once_app. split_and!; [done..|].
  intros a b Ha Hb E. pose proof Ho as [_ Hka]. pose proof Hd as [_ Hkb]. rewrite Forall_forall in Hka, Hkb.
  assert (Hpb : Partition a ∈ partitions) by (unfold CreateIdentifier in E; injection E as -> _ _ _ _; auto).
  destruct (Hkb b Hb) as [Hadd|Hb'].
  - assert (Hlive : a ∈ live_in partitions log); [|by apply Hbd].
    pose proof (Hf b Hb Hadd) as Hn. rewrite deleted_elem in Hn. apply list_elem_of_filter. split; [done|].
    apply live_spec. split_and!; [done| |].
    + destruct (Hka a Ha); [done|]. destruct Hn. by exists a.
    + intros d Hdin Hdd Ed. destruct Hn. exists d. split_and!; [done..|congruence].
  - split; [|done]. destruct (Hka a Ha) as [?|Ha']; [done|]. exfalso.
    destruct (Hdel b Hb Hb') as (c&[[_ Hc'%live_spec]%list_elem_of_filter|Hc']%elem_of_app&Hca&Ec).
    + destruct Hc' as (_&_&Hn). apply (Hn a Ha Ha'). congruence.
    + apply (Hf c Hc' Hca), deleted_elem. exists a. split_and!; [done..|congruence].
Qed.

(** The groups of [CheckKeyRange]. *)
Lemma levels_find es k : default [] (LinkedHashMap.find k (levels es)) = filter (λ e, (is_add e ∧ 1 ≤ Level e) ∧ level_key e = k) es.
Proof.
  induction es as [|e es IH] using rev_ind; [done|]. unfold levels in *. rewrite foldl_app, filter_app, <-IH. cbn [foldl].
  rewrite filter_cons, filter_nil. unfold add_level at 1.
  destruct (bool_decide (is_add e) && negb (Level e <? 1)) eqn:Eb.
  - assert (is_add e ∧ 1 ≤ Level e) as H by (apply andb_prop in Eb as [?%bool_decide_eq_true ?%negb_true_iff%Z.ltb_ge]; done).
    rewrite LinkedHashMap.find_push. destruct (decide (level_key e = k)); [by rewrite decide_True|by rewrite decide_False by tauto].
  - rewrite decide_False; [by rewrite app_nil_r|]. intros [[Ha Hl] _]. rewrite bool_decide_true in Eb by done. cbn in Eb.
    apply negb_false_iff, Z.ltb_lt in Eb. lia.
Qed.

Definition ends_before (a b : ManifestEntry.t) : Prop := SortedRun.before KC (File a) (File b).
Definition range_ok (e : ManifestEntry.t) : Prop := SortedRun.key_range_ok KC (File e).

Lemma key_chain (x y z w : InternalRow) : klt x y → kle y z → klt z w → klt x w.
Proof. intros. korder. Qed.

Lemma adjacent_sorted es : Forall range_ok es → adjacent_disjoint KC es = true → StronglySorted ends_before es.
Proof.
  induction es as [|a es IH]; intros Hok Hs; [constructor|]. inversion_clear Hok as [|?? Ha Hes]. destruct es as [|b es].
  { repeat constructor. }
  cbn in Hs. destruct (Z.leb_spec 0 (KC (MaxKey a) (MinKey b))) as [|Hlt]; [done|]. specialize (IH Hes Hs).
  constructor; [done|]. constructor; [exact Hlt|]. inversion_clear IH as [|?? _ Hb]. inversion_clear Hes as [|?? Hb' _].
  eapply Forall_impl; [exact Hb|]. intros c Hc. unfold ends_before, SortedRun.before, range_ok, SortedRun.key_range_ok in *.
  exact (key_chain _ _ _ _ Hlt Hb' Hc).
Qed.

(** [KC] is the comparator that the check makes. *)
Definition compares_keys : Prop :=
  ∃ types c, TrimmedPrimaryKeyFields = Ok types ∧ Rows.Create types SequenceFieldSortOrderIsAscending = Ok c ∧ KC = CompareRows c.

Lemma CheckKeyRange_disjoint es : compares_keys → CheckKeyRange true es = Ok () → Forall range_ok es →
  ∀ a b, a ∈ es → b ∈ es → is_add a → is_add b → a ≠ b → 1 ≤ Level a → level_key a = level_key b → ends_before a b ∨ ends_before b a.
Proof.
  intros (types&c&Ht&Hc&EK). unfold CheckKeyRange. cbn [negb]. rewrite Ht. cbn [mbind Result_bind]. rewrite Hc. cbn [mbind Result_bind].
  rewrite <-EK. destruct (forallb _ _) eqn:E; [|done]. intros _ Hok a b Ha Hb Ka Kb Hne Hl Hk.
  pose proof (levels_find es (level_key a)) as Hf. set (g := filter _ es) in Hf.
  assert (Hga : a ∈ g) by (by apply list_elem_of_filter).
  assert (Hgb : b ∈ g).
  { apply list_elem_of_filter. split_and!; [done| |done|done]. unfold level_key in Hk. injection Hk as _ _ <-. done. }
  destruct (LinkedHashMap.find (level_key a) (levels es)) as [g'|] eqn:Eg; cbn in Hf; [subst g'|subst g; rewrite <-Hf in Hga; by apply not_elem_of_nil in Hga].
  apply LinkedHashMap.find_elem, list_elem_of_In in Eg. rewrite forallb_forall in E. specialize (E _ Eg). cbn in E.
  apply adjacent_sorted in E.
  - pose proof (std_sort_Permutation (λ a b, KC (MinKey a) (MinKey b) <? 0) g) as Hp. unfold sort_entries in E.
    rewrite <-Hp in Hga, Hgb. apply list_elem_of_lookup_1 in Hga as [i Hi], Hgb as [j Hj].
    destruct (lt_eq_lt_dec i j) as [[Hij| ->]|Hij]; [left|congruence|right]; by eapply (sorted_lookup _ _ _ _ _ _ E Hij).
  - apply Forall_forall. intros e He. unfold sort_entries in He. rewrite std_sort_Permutation in He. apply list_elem_of_filter in He as [_ He].
    rewrite Forall_forall in Hok. by apply Hok.
Qed.

(** Files of one level above the first do not overlap. *)
Definition levels_apart (files : list ManifestEntry.t) : Prop :=
  ∀ a b, a ∈ files → b ∈ files → a ≠ b → 1 ≤ Level a → level_key a = level_key b → ends_before a b ∨ ends_before b a.

Lemma accepted_unpaired partitions log delta a : once (log ++ delta) → (∀ e, e ∈ delta → Partition e ∈ partitions) → Partition a ∈ partitions →
  a ∈ MergeLiveEntries (log ++ delta) → a ∈ unpaired (live_in partitions log ++ delta).
Proof.
  intros [_ Hk] Hp Hpa (Ha&Hadd&Hnd)%live_spec. rewrite Forall_forall in Hk. apply list_elem_of_filter. split.
  - apply Forall_forall. intros e He E. assert (Hadd' : is_add e); [|unfold is_add in *; congruence]. apply elem_of_app in He as [He|He].
    + apply list_elem_of_filter in He as [_ He]. by apply live_spec in He as (_&?&_).
    + destruct (Hk e) as [?|Hd]; [apply elem_of_app; by right|done|]. by destruct (Hnd e); [apply elem_of_app; by right|..].
  - apply elem_of_app in Ha as [Ha|Ha]; apply elem_of_app; [left|by right]. apply list_elem_of_filter. split; [done|]. apply live_spec.
    split_and!; [done..|]. intros d Hd. apply Hnd, elem_of_app. by left.
Qed.

Lemma accepted_levels partitions log delta next kind cache cache' : once log → unrepeated delta → fresh_adds log delta →
  (∀ e, e ∈ delta → Partition e ∈ partitions) → Forall range_ok (log ++ delta) → levels_apart (MergeLiveEntries log) →
  compares_keys → pk = true → CheckConflicts dv bu pk de (live_in partitions log) delta next kind cache = (Ok (), cache') → levels_apart (MergeLiveEntries (log ++ delta)).
Proof.
  intros Ho Hu Hf Hp Hr Hl Hcmp Hpk Hc a b Ha Hb Hne Hlev Hkey.
  pose proof (accepted_log _ _ _ _ _ _ _ Ho Hu Hf Hp Hc) as Hall. pose proof (accepted_once _ _ _ _ _ _ _ Ho Hu Hc) as Hbd.
  pose proof (proj1 (live_spec _ _) Ha) as (Hina&Hadda&_). pose proof (proj1 (live_spec _ _) Hb) as (_&Haddb&_).
  assert (Hpart : Partition b = Partition a) by (unfold level_key in Hkey; congruence).
  destruct (decide (Partition a ∈ partitions)) as [Hin|Hout].
  - apply CheckConflicts_inv in Hc as (_&m&Hm&_&Hkr&_). rewrite MergeEntriesInto_once in Hm by done. injection Hm as <-.
    rewrite as_map_values, Hpk in Hkr. eapply CheckKeyRange_disjoint; [exact Hcmp|exact Hkr| |by apply accepted_unpaired|by apply accepted_unpaired; rewrite ?Hpart|done..].
    rewrite Forall_forall in Hr |- *. intros e [He|He]%unpaired_elem%elem_of_app; apply Hr, elem_of_app; [left|by right].
    apply list_elem_of_filter in He as [_ He]. by apply live_spec in He as (?&_).
  - assert (Hold : ∀ e, e ∈ MergeLiveEntries (log ++ delta) → Partition e ∉ partitions → e ∈ MergeLiveEntries log).
    { intros e ([He|He]%elem_of_app&Hadd&Hnd)%live_spec Hn; [|by destruct Hn; apply Hp]. apply live_spec. split_and!; [done..|].
      intros d Hd. apply Hnd, elem_of_app. by left. }
    apply Hl; [by apply Hold|by apply Hold; rewrite ?Hpart|done..].
Qed.
End Accepted.

(** ** The check of key ranges under a descending sequence field

    [CheckKeyRange] orders keys by the sort order of the sequence field. Where
    that is descending, it accepts any files whose ranges have more than one key,
    although the key ranges of data files are ascending. *)
Section Descending.
Context {KO : KeyOptions} (types : list ArrowType) (c : FieldsComparator).
Context (Hfields : TrimmedPrimaryKeyFields = Ok types) (Hdesc : SequenceFieldSortOrderIsAscending = false).
Context (Htypes : Forall type_ok types) (Hc : Rows.Create types true = Ok c).

#[local] Instance ascending_keys : Comparator InternalRow := CompareRows c.
#[local] Instance ascending_keys_laws : ComparatorLaws InternalRow := Create_laws types true c Htypes Hc.

Definition spans_keys (e : ManifestEntry.t) : Prop :=
  non_null (length types) (MinKey e) ∧ non_null (length types) (MaxKey e) ∧ klt (MinKey e) (MaxKey e).

Lemma starts_later (x y z : InternalRow) : CompareTo y x ≤ 0 → klt x z → 0 < CompareTo z y.
Proof. intros. assert (klt y z) by korder. korder. Qed.

Lemma descending_adjacent c' es : (∀ a b, non_null (length types) a → non_null (length types) b → CompareRows c' a b = - CompareRows c a b) →
  Forall spans_keys es → StronglySorted (not_after (λ a b, CompareRows c' (MinKey a) (MinKey b) <? 0)) es →
  adjacent_disjoint (CompareRows c') es = true.
Proof.
  intros Hrev. induction es as [|a [|b es] IH]; intros Hs Hsort; [done..|]. cbn [adjacent_disjoint].
  inversion_clear Hs as [|?? (Hna&Hxa&Hlt) Hs']. pose proof Hs' as Hb. inversion_clear Hb as [|?? (Hnb&_) _].
  inversion_clear Hsort as [|?? Hsort' Hab]. inversion_clear Hab as [|?? Hle _]. unfold not_after in Hle. apply Z.ltb_ge in Hle.
  rewrite Hrev in Hle by done. rewrite Hrev by done.
  assert (0 < CompareRows c (MaxKey a) (MinKey b)).
  { apply (starts_later (MinKey a)); [|done]. unfold CompareTo, ascending_keys. lia. }
  rewrite (proj2 (Z.leb_gt _ _)) by lia. by apply IH.
Qed.

Lemma levels_Forall (P : ManifestEntry.t → Prop) es : Forall P es → Forall (λ kg, Forall P kg.2) (levels es).
Proof.
  intros H. unfold levels. assert (Hm : Forall (λ kg : LevelKey * list ManifestEntry.t, Forall P kg.2) []) by constructor. revert Hm.
  generalize (@nil (LevelKey * list ManifestEntry.t)) as m. induction H as [|e es He _ IH]; intros m Hm; [done|]. cbn [foldl]. apply IH.
  unfold add_level. destruct (_ && _); [|done]. by apply LinkedHashMap.push_Forall.
Qed.

Lemma descending_range_unchecked es : Forall spans_keys es → CheckKeyRange true es = Ok ().
Proof.
  intros Hs. destruct (Create_reversed types c Hc) as (c'&Hc'&Hrev). unfold CheckKeyRange. cbn [negb].
  rewrite Hfields. cbn [mbind Result_bind]. rewrite Hdesc, Hc'. cbn [mbind Result_bind].
  assert (L' : @ComparatorLaws InternalRow (CompareRows c')) by exact (Create_laws types false c' Htypes Hc').
  assert (E : ∀ a b : ManifestEntry.t, not_after (λ a b, CompareRows c' (MinKey a) (MinKey b) <? 0) a b ↔
    @kle InternalRow (CompareRows c') (MinKey a) (MinKey b)).
  { intros a b. unfold not_after. rewrite Z.ltb_ge. symmetry. apply (@cmp_flip InternalRow (CompareRows c') L'). }
  rewrite (proj2 (forallb_forall _ _)); [done|]. intros [k g] Hg%list_elem_of_In.
  pose proof (proj1 (Forall_forall _ _) (levels_Forall _ _ Hs) _ Hg) as Hsg. cbn in Hsg. unfold sort_entries.
  apply descending_adjacent; [done|by rewrite std_sort_Permutation|]. apply std_sort_sorted; [intros a b|intros a b d]; rewrite !E.
  - destruct (@kle_lt_dec _ _ L' (MinKey a) (MinKey b)); [by left|right]. by apply klt_le.
  - apply (@kle_trans InternalRow (CompareRows c') L').
Qed.
End Descending.
