(* ===== verification/Scan.v ===== *)
(** * Scans of the files of a snapshot

    [FileStoreScan::CreatePlan] (src/paimon/core/operation/file_store_scan.cpp)
    without the cache of entries and without row ranges: manifests are skipped
    by their summaries, entries by the filters of the scan, and what is left is
    merged. The methods that append-only and primary-key tables override are a
    record (KeyValueScan.v). The plan holds the live files of the snapshot that
    pass the filters, although the filters see additions and deletions
    separately and before they are merged. *)

From stdpp Require Import base list gmap strings.
From Stdlib Require Import ZArith Lia.
From S2P Require Import Prelude Rows DataFiles Predicates StateError Manifests ManifestFiles ManifestFilesProofs Snapshots.
Import ManifestEntry ManifestFileMeta.
Local Open Scope Z_scope.
#[local] Arguments wp : simpl never.

Module ManifestListReader.
Section Reader.
Context {Other : Type} (fault : Op → nat → Result unit) (root_ : string).
Abbreviation St := (@St Other).
Definition ReadBaseManifests (s : Snapshot.t) : M St (list ManifestFileMeta.t) := ReadManifestList fault root_ (Snapshot.BaseManifestList s).
Definition ReadDeltaManifests (s : Snapshot.t) : M St (list ManifestFileMeta.t) := ReadManifestList fault root_ (Snapshot.DeltaManifestList s).
Definition ReadChangelogManifests (s : Snapshot.t) : M St (list ManifestFileMeta.t) :=
  match Snapshot.ChangelogManifestList s with
  | Some list_name => ReadManifestList fault root_ list_name
  | None => mret []
  end.
Definition ReadDataManifests (s : Snapshot.t) : M St (list ManifestFileMeta.t) :=
  base ← ReadBaseManifests s; delta ← ReadDeltaManifests s; mret (base ++ delta).
End Reader.
End ManifestListReader.
Import ManifestListReader.

Module FileStoreScan.
Inductive ScanMode := ALL | DELTA | CHANGELOG.

(** The array of null counts, as predicates read it. *)
Definition null_count_row (counts : list (option Z)) : InternalRow := (λ c, match c with Some n => VLong n | None => VNull end) <$> counts.

(** The virtual methods. *)
Record Methods := mkMethods {
  FilterByStats : ManifestEntry.t → Result bool;
  WholeBucketFilterEnabled : bool;
  FilterWholeBucketByStats : list ManifestEntry.t → Result (list ManifestEntry.t)
}.
(** The filters of a scan. *)
Record Filters := mkFilters {
  partition_schema_ : list ArrowType;
  partition_filter_ : option Predicate;
  only_read_real_buckets_ : bool;
  bucket_filter_ : option Z;
  bucket_selector_ : option (Z → Z);
  level_filter_ : option (Z → bool)
}.

Section Scan.
Context {Other : Type} (fault : Op → nat → Result unit) (root_ : string).
Abbreviation St := (@St Other).
Context (filters : Filters) (methods : Methods).

Definition FilterNonPartitionManifestEntry (entry : ManifestEntry.t) : Result bool :=
  if only_read_real_buckets_ filters && (Bucket entry <? 0) then Ok false
  else if match bucket_filter_ filters with Some b => negb (Bucket entry =? b) | None => false end then Ok false
  else if match bucket_selector_ filters with
          | Some select => (0 <? TotalBuckets entry) && negb (Bucket entry =? select (TotalBuckets entry))
          | None => false
          end then Ok false
  else if match level_filter_ filters with Some f => negb (f (Level entry)) | None => false end then Ok false
  else FilterByStats methods entry.
Definition FilterManifestEntry (entry : ManifestEntry.t) : Result bool :=
  match partition_filter_ filters with
  | Some p =>
      res ← Test (partition_schema_ filters) p (Partition entry);
      if (res : bool) then FilterNonPartitionManifestEntry entry else Ok false
  | None => FilterNonPartitionManifestEntry entry
  end.

Definition FilterManifestFileMeta (manifest : ManifestFileMeta.t) : Result bool :=
  if match MinBucket manifest, MaxBucket manifest with
     | Some min_bucket, Some max_bucket =>
         (only_read_real_buckets_ filters && (max_bucket <? 0)) ||
         match bucket_filter_ filters with Some b => (b <? min_bucket) || (max_bucket <? b) | None => false end
     | _, _ => false
     end then Ok false
  else match partition_filter_ filters with
       | Some p =>
           let stats := PartitionStats manifest in
           TestFile (partition_schema_ filters) p (NumAddedFiles manifest + NumDeletedFiles manifest) (min_values_ stats) (max_values_ stats)
             (null_count_row (null_counts_ stats))
       | None => Ok true
       end.

Definition ReadManifestsWithSnapshot (scan_mode_ : ScanMode) (s : Snapshot.t) : M St (list ManifestFileMeta.t) :=
  match scan_mode_ with
  | ALL => base ← ReadBaseManifests fault root_ s; delta ← ReadDeltaManifests fault root_ s; mret (base ++ delta)
  | DELTA => ReadDeltaManifests fault root_ s
  | CHANGELOG => ReadChangelogManifests fault root_ s
  end.
Definition ReadManifestLists (scan_mode_ : ScanMode) (s : option Snapshot.t) : M St (list ManifestFileMeta.t) :=
  match s with
  | None => mret []
  | Some s => all_manifests ← ReadManifestsWithSnapshot scan_mode_ s; of_result (filterR FilterManifestFileMeta all_manifests)
  end.

(** The reads run in parallel; the entries are in the order of the manifests. *)
Fixpoint ReadFileEntries (metas : list ManifestFileMeta.t) : M St (list ManifestEntry.t) :=
  match metas with
  | [] => mret []
  | m :: metas' =>
      entries ← ReadManifest fault root_ (FileName m);
      kept ← of_result (filterR FilterManifestEntry entries);
      rest ← ReadFileEntries metas';
      mret (kept ++ rest)
  end.
Definition ReadManifestEntries (scan_mode_ : ScanMode) (metas : list ManifestFileMeta.t) : M St (list ManifestEntry.t) :=
  entries ← ReadFileEntries metas;
  mret (match scan_mode_ with ALL => MergeLiveEntries entries | _ => entries end).

(** The entries by partition and bucket, in the order of their first entry. *)
Definition BucketKey : Type := InternalRow * Z.
Definition bucket_key (e : ManifestEntry.t) : BucketKey := (Partition e, Bucket e).
Definition grouped_entries (entries : list ManifestEntry.t) : LinkedHashMap.t BucketKey (list ManifestEntry.t) :=
  foldl (λ m e, LinkedHashMap.push (bucket_key e) e m) [] entries.
Fixpoint filter_groups (groups : list (list ManifestEntry.t)) : Result (list ManifestEntry.t) :=
  match groups with
  | [] => Ok []
  | g :: groups' => kept ← FilterWholeBucketByStats methods g; rest ← filter_groups groups'; Ok (kept ++ rest)
  end.

Definition CreatePlan (scan_mode_ : ScanMode) (drop_stats_ : bool) (s : option Snapshot.t) : M St (list ManifestEntry.t) :=
  filtered_manifest_file_metas ← ReadManifestLists scan_mode_ s;
  manifest_entries ← ReadManifestEntries scan_mode_ filtered_manifest_file_metas;
  manifest_entries ← of_result (if WholeBucketFilterEnabled methods
                                then filter_groups (LinkedHashMap.values (grouped_entries manifest_entries)) else Ok manifest_entries);
  mret (if drop_stats_ then CopyWithoutStats <$> manifest_entries else manifest_entries).
End Scan.
End FileStoreScan.
Import FileStoreScan.

(** ** Reading *)

Section Reading.
Context {Other : Type} (fault : Op → nat → Result unit) (root_ : string).
Abbreviation St := (@St Other).
Implicit Types s : St.

(** Reads move the clock only. *)
Definition unchanged s s' : Prop :=
  s'.1 = s.1 ∧ manifest_file_count_ s'.2 = manifest_file_count_ s.2 ∧ manifest_list_count_ s'.2 = manifest_list_count_ s.2.
#[global] Instance unchanged_preorder : PreOrder unchanged.
Proof. unfold unchanged. split; [intros x|intros x y z (?&?&?) (?&?&?)]; split_and!; congruence. Qed.

Definition faults : Prop := ∃ op n, is_ok (fault op n) = false.

Lemma io_unchanged op s (Q : unit → St → Prop) (E : St → Prop) :
  (∀ s', unchanged s s' → Q () s') → (faults → ∀ s', unchanged s s' → E s') → wp (io fault op) Q E s.
Proof.
  intros HQ HE. assert (Hu : unchanged s (s.1, tick s.2)) by done. apply manifest_wp_io; [by apply HQ|].
  intros Hf. apply HE; [by eexists _, _|done].
Qed.

Lemma ReadManifest_unchanged name es s (Q : list ManifestEntry.t → St → Prop) (E : St → Prop) :
  s.1 !! ToPath root_ name = Some (Manifest es) →
  (∀ s', unchanged s s' → Q es s') → (faults → ∀ s', unchanged s s' → E s') → wp (ReadManifest fault root_ name) Q E s.
Proof.
  intros Hs HQ HE. unfold ReadManifest. wp_step. apply io_unchanged; [|done]. intros s1 H1. wp_step. wp_step.
  rewrite (proj1 H1), Hs. wp_step. apply io_unchanged.
  - intros s2 H2. wp_step. apply HQ. by etrans.
  - intros Hf s2 H2. apply HE; [done|]. by etrans.
Qed.
Lemma ReadManifestList_unchanged name ms s (Q : list ManifestFileMeta.t → St → Prop) (E : St → Prop) :
  s.1 !! ToPath root_ name = Some (ManifestList ms) →
  (∀ s', unchanged s s' → Q ms s') → (faults → ∀ s', unchanged s s' → E s') → wp (ReadManifestList fault root_ name) Q E s.
Proof.
  intros Hs HQ HE. unfold ReadManifestList. wp_step. apply io_unchanged; [|done]. intros s1 H1. wp_step. wp_step.
  rewrite (proj1 H1), Hs. wp_step. apply io_unchanged.
  - intros s2 H2. wp_step. apply HQ. by etrans.
  - intros Hf s2 H2. apply HE; [done|]. by etrans.
Qed.
End Reading.

(** ** The files of a snapshot *)

Section Plans.
Context {Other : Type} (fault : Op → nat → Result unit) (root_ : string).
Abbreviation St := (@St Other).
Context (SizeOf : Content Other → Z) (partition_stats : list InternalRow → Result SimpleStats).
Abbreviation stored := (stored root_ SizeOf partition_stats).

(** The manifests of a snapshot and their entries. *)
Definition manifests_of (fs : gmap string (Content Other)) (s : Snapshot.t) (base delta : list ManifestFileMeta.t) (cs : list (list ManifestEntry.t)) : Prop :=
  fs !! ToPath root_ (Snapshot.BaseManifestList s) = Some (ManifestList base) ∧
  fs !! ToPath root_ (Snapshot.DeltaManifestList s) = Some (ManifestList delta) ∧ Forall2 (stored fs) (base ++ delta) cs.
(** The log of a snapshot. *)
Definition readable (fs : gmap string (Content Other)) (s : Snapshot.t) (log : list ManifestEntry.t) : Prop :=
  ∃ base delta cs, manifests_of fs s base delta cs ∧ log = concat cs.

Lemma ReadDataManifests_wp snapshot base delta cs (s : St) : manifests_of s.1 snapshot base delta cs →
  wp (ReadDataManifests fault root_ snapshot) (λ ms s', ms = base ++ delta ∧ unchanged s s') (λ s', faults fault ∧ unchanged s s') s.
Proof.
  intros (Hb&Hd&_). unfold ReadDataManifests. wp_step. eapply ReadManifestList_unchanged; [exact Hb| |done].
  intros s1 H1. wp_step. eapply ReadManifestList_unchanged; [by rewrite (proj1 H1)| |].
  - intros s2 H2. wp_step. split; [done|]. by etrans.
  - intros Hf s2 H2. split; [done|]. by etrans.
Qed.

(** What the summary of a manifest says of its entries. *)
Lemma noted_bounds es w : noted es w → ManifestEntryWriter.partitions_ w = Partition <$> es ∧
  ManifestEntryWriter.num_added_files_ w + ManifestEntryWriter.num_deleted_files_ w = Z.of_nat (length es) ∧
  ∀ e, e ∈ es → ManifestEntryWriter.min_bucket_ w ≤ Bucket e ≤ ManifestEntryWriter.max_bucket_ w.
Proof.
  unfold noted. revert w. induction es as [|e es IH] using rev_ind; intros w; [intros [= <-]; by split_and!; [..|intros e ?%elem_of_nil]|].
  rewrite foldR_app. intros (w1&H1&H2)%bind_Ok. destruct (IH w1 H1) as (Hp&Hn&Hb). cbn in H2. apply bind_Ok in H2 as (w2&H2&[= <-]).
  unfold ManifestEntryWriter.Note in H2. apply bind_Ok in H2 as ([a d]&Had&[= <-]). cbn. split_and!.
  - by rewrite Hp, fmap_app.
  - rewrite length_app. cbn. repeat case_decide; [injection Had as <- <-; lia|injection Had as <- <-; lia|done].
  - intros x [Hx| ->%list_elem_of_singleton]%elem_of_app; [specialize (Hb x Hx)|]; lia.
Qed.

Context (filters : Filters) (methods : Methods).
Abbreviation keep := (λ e, FilterManifestEntry filters methods e = Ok true).

(** The statistics of the partitions cover the columns of the filter. *)
Definition partition_stats_ok : Prop :=
  Forall type_ok (partition_schema_ filters) ∧
  ∀ p ps st, partition_filter_ filters = Some p → partition_stats ps = Ok st →
    all_leaves (λ f i _ type literals, leaf_ok f type literals ∧
      stats_ok (partition_schema_ filters) ps (Z.of_nat (length ps)) (min_values_ st) (max_values_ st) (null_count_row (null_counts_ st)) i type) p.

(** A manifest that is skipped has no entry that would be kept. *)
Lemma manifest_pruned fs m es : partition_stats_ok → stored fs m es → FilterManifestFileMeta filters m = Ok false →
  filter keep es = [].
Proof.
  intros [Hschema Hstats] [_ (w & Hw & Hres)] Hf. destruct (noted_bounds _ _ Hw) as (Hp&Hn&Hb).
  unfold ManifestEntryWriter.GetResult in Hres. apply bind_Ok in Hres as (st&Hst&Hres). apply Ok_inj in Hres.
  apply filter_none. intros e He Hkeep. specialize (Hb e He). unfold FilterManifestFileMeta in Hf. rewrite <-Hres in Hf. cbn in Hf.
  assert (Hbucket : only_read_real_buckets_ filters && (Bucket e <? 0) = false ∧
    match bucket_filter_ filters with Some b => Bucket e = b | None => True end).
  { assert (H : FilterNonPartitionManifestEntry filters methods e = Ok true).
    { unfold FilterManifestEntry in Hkeep. destruct (partition_filter_ filters); [|done].
      apply bind_Ok in Hkeep as (b&_&H). by destruct b. }
    unfold FilterNonPartitionManifestEntry in H. destruct (only_read_real_buckets_ filters && (Bucket e <? 0)); [done|]. split; [done|].
    destruct (bucket_filter_ filters) as [b|]; [|done]. destruct (Z.eqb_spec (Bucket e) b); done. }
  destruct (_ || _) eqn:Eb.
  - destruct Hbucket as [H1 H2]. apply orb_true_iff in Eb as [Eb|Eb].
    + apply andb_true_iff in Eb as [Hr Hlt%Z.ltb_lt]. rewrite Hr in H1. cbn in H1. apply Z.ltb_ge in H1. lia.
    + destruct (bucket_filter_ filters) as [b|]; [|done]. apply orb_true_iff in Eb as [Hlt%Z.ltb_lt|Hlt%Z.ltb_lt]; lia.
  - destruct (partition_filter_ filters) as [p|] eqn:Ep; [|done]. unfold FilterManifestEntry in Hkeep. rewrite Ep in Hkeep.
    apply bind_Ok in Hkeep as (b&Htest&H). destruct b; [|done]. rewrite Hp, Hn in *. specialize (Hstats p _ st eq_refl Hst).
    rewrite length_fmap in Hstats. exact (TestFile_sound _ _ _ _ _ _ _ _ Hschema Hstats (list_elem_of_fmap_2 Partition _ _ He) Htest Hf).
Qed.

Lemma filter_concat_pruned ms cs : Forall2 (λ m es, FilterManifestFileMeta filters m = Ok false → filter keep es = []) ms cs →
  ∀ out, filterR (FilterManifestFileMeta filters) ms = Ok out →
  ∃ cs', sublist cs' cs ∧ Forall2 (λ m es, (m, es) ∈ zip ms cs) out cs' ∧ filter keep (concat cs') = filter keep (concat cs).
Proof.
  induction 1 as [|m es ms cs Hm _ IH]; cbn [filterR]; [intros out [= <-]; by exists []|].
  intros out (b&Hb&H)%bind_Ok. apply bind_Ok in H as (rest&Hr&[= <-]). destruct (IH rest Hr) as (cs'&Hs&Hz&Hf). cbn [zip zip_with concat].
  assert (Hz' : Forall2 (λ m0 es0, (m0, es0) ∈ (m, es) :: zip ms cs) rest cs') by (eapply Forall2_impl; [exact Hz|]; intros; by right).
  destruct b.
  - exists (es :: cs'). split_and!; [by constructor|constructor; [by left|done]|]. cbn. by rewrite !filter_app, Hf.
  - exists cs'. split_and!; [by constructor|done|]. by rewrite filter_app, Hm, Hf.
Qed.

(** Why a scan fails. *)
Definition scan_fails : Prop :=
  faults fault ∨ (∃ m, is_ok (FilterManifestFileMeta filters m) = false) ∨ (∃ e, is_ok (FilterManifestEntry filters methods e) = false) ∨
  (∃ g, is_ok (FilterWholeBucketByStats methods g) = false).
Lemma filter_groups_fails groups : is_ok (filter_groups methods groups) = false → ∃ g, is_ok (FilterWholeBucketByStats methods g) = false.
Proof.
  induction groups as [|g groups IH]; [done|]. cbn. destruct (FilterWholeBucketByStats methods g) eqn:E; cbn; [|intros _; exists g; by rewrite E].
  destruct (filter_groups methods groups); [done|]. intros _. by apply IH.
Qed.

Lemma ReadFileEntries_wp ms cs (s s0 : St) : unchanged s0 s → Forall2 (stored s0.1) ms cs →
  wp (ReadFileEntries fault root_ filters methods ms) (λ es s', es = filter keep (concat cs) ∧ unchanged s0 s') (λ s', scan_fails ∧ unchanged s0 s') s.
Proof.
  intros Hu Hst. revert s Hu. induction Hst as [|m es ms cs [Hm _] _ IH]; intros s Hu; cbn [ReadFileEntries concat]; wp_step; [done|].
  eapply ReadManifest_unchanged; [by rewrite (proj1 Hu)| |intros Hf s' H'; split; [by left|by etrans]]. intros s1 H1. wp_step.
  apply wp_of_result; [|intros He%filterR_fails; split; [right; right; by left|by etrans]]. intros kept ->%filterR_Ok. wp_step.
  eapply wp_mono; [apply IH; by etrans| |done]. intros rest s2 [-> H2]. wp_step. by rewrite filter_app.
Qed.

(** The filter keeps the deletion of a file whose addition it keeps. *)
Definition deletions_kept (log : list ManifestEntry.t) : Prop :=
  ∀ a d, a ∈ log → d ∈ log → is_add a → is_delete d → CreateIdentifier a = CreateIdentifier d → keep a → keep d.

Lemma live_filter log : deletions_kept log → MergeLiveEntries (filter keep log) = filter keep (MergeLiveEntries log).
Proof.
  intros Hd. unfold MergeLiveEntries. rewrite !list_filter_filter. apply filter_ext_in. intros e He. rewrite !deleted_elem. split.
  - intros [[Ha Hn] Hk]. split_and!; [done|done|]. intros (d&Hin&Hdel&E). apply Hn. exists d. split_and!; [|done..].
    apply list_elem_of_filter. split; [|done]. by apply (Hd e d).
  - intros [Hk [Ha Hn]]. split_and!; [done| |done]. intros (d&[_ Hin]%list_elem_of_filter&Hdel&E). apply Hn. by exists d.
Qed.

Lemma pruned_chunks fs base_delta cs out : partition_stats_ok → Forall2 (stored fs) base_delta cs →
  filterR (FilterManifestFileMeta filters) base_delta = Ok out →
  ∃ cs', Forall2 (stored fs) out cs' ∧ filter keep (concat cs') = filter keep (concat cs).
Proof.
  intros Hps Hst Hout. destruct (filter_concat_pruned base_delta cs) with (out := out) as (cs'&_&Hz&Hf); [|done|].
  - eapply Forall2_impl; [exact Hst|]. intros m es Hm. by eapply manifest_pruned.
  - exists cs'. split; [|done]. eapply Forall2_impl; [exact Hz|]. intros m es Hin. clear -Hst Hin.
    induction Hst as [|m' es' ms cs H _ IH]; cbn in Hin; [by apply elem_of_nil in Hin|].
    apply elem_of_cons in Hin as [[= -> ->]|Hin]; auto.
Qed.

(** The entries that a scan of all files reads. *)
Definition kept_files (log : list ManifestEntry.t) : list ManifestEntry.t := filter keep (MergeLiveEntries log).
Definition whole_buckets (entries : list ManifestEntry.t) : Result (list ManifestEntry.t) :=
  if WholeBucketFilterEnabled methods then filter_groups methods (LinkedHashMap.values (grouped_entries entries)) else Ok entries.
Definition finish (drop_stats_ : bool) (entries : list ManifestEntry.t) : Result (list ManifestEntry.t) :=
  kept ← whole_buckets entries; Ok (if drop_stats_ then (CopyWithoutStats <$> kept : list ManifestEntry.t) else kept).

Lemma CreatePlan_wp snapshot log drop (s : St) : partition_stats_ok → readable s.1 snapshot log → deletions_kept log →
  wp (CreatePlan fault root_ filters methods ALL drop (Some snapshot)) (λ files s', finish drop (kept_files log) = Ok files ∧ unchanged s s')
     (λ s', scan_fails ∧ unchanged s s') s.
Proof.
  intros Hps (base&delta&cs&Hm&->) Hd. unfold CreatePlan, ReadManifestLists, ReadManifestsWithSnapshot. do 2 wp_step.
  change (base0 ← ReadBaseManifests fault root_ snapshot; delta0 ← ReadDeltaManifests fault root_ snapshot; mret (base0 ++ delta0))
    with (ReadDataManifests (Other := Other) fault root_ snapshot).
  eapply wp_mono; [by eapply ReadDataManifests_wp| |intros ? [? ?]; split; [by left|done]]. intros ms s1 [-> H1].
  apply wp_of_result; [|intros Hm'%filterR_fails; split; [right; by left|done]].
  intros out Hout. destruct (pruned_chunks s.1 _ _ _ Hps (proj2 (proj2 Hm)) Hout) as (cs'&Hst&Hf).
  unfold ReadManifestEntries. wp_step. wp_step. eapply wp_mono; [by apply (ReadFileEntries_wp out cs' s1 s)| |done].
  intros es s2 [-> H2]. wp_step. wp_step. rewrite Hf, live_filter by done.
  apply wp_of_result; [|destruct (WholeBucketFilterEnabled methods); [intros Hg%filter_groups_fails|done]; split; [do 3 right; done|done]]. intros files Hfiles. wp_step.
  split; [|done]. unfold finish, whole_buckets, kept_files. by rewrite Hfiles.
Qed.
End Plans.
