(* ===== verification/KeyValueScan.v ===== *)
(** * Scans of append-only and primary-key tables

    [AppendOnlyFileStoreScan] and [KeyValueFileStoreScan]
    (src/paimon/core/operation/append_only_file_store_scan.cpp,
    key_value_file_store_scan.cpp): the filters by statistics, with
    [SimpleStatsEvolution::Evolution] for files of the current schema
    (src/paimon/core/stats/simple_stats_evolution.cpp).

    A scan of a primary-key table may drop a file only if that cannot uncover an
    older version of a key: files are dropped by the key alone, and by the value
    one by one if no two of the bucket overlap, otherwise all or none. The rows
    that satisfy the predicate are shown to be the same with and without the
    filters. Files of other schemas and file indexes are parameters; filtering
    values in scans of deltas and changelogs is left out. *)

From stdpp Require Import base list gmap strings.
From Stdlib Require Import ZArith Lia.
From S2P Require Import Prelude Rows DataFiles KeyValues Predicates SortMerge SortMergeProofs MergeFunctions MergeRead StateError Manifests ManifestFiles ManifestFilesProofs Snapshots Scan.
Import ManifestEntry FileStoreScan.
Local Open Scope Z_scope.

Module SimpleStatsEvolution.
(** [ProjectedRow]; a field without an index is null. *)
Definition ProjectedRow (row : InternalRow) (mapping : list (option nat)) : InternalRow :=
  (λ i, match i with Some k => field_at row k | None => VNull end) <$> mapping.
(** The last index of a name. *)
Fixpoint IndexOf (name : string) (names : list string) (i : nat) : option nat :=
  match names with
  | [] => None
  | n :: names' => match IndexOf name names' (S i) with Some k => Some k | None => if String.eqb n name then Some i else None end
  end.
Record EvolutionStats := mkStats { min_values : InternalRow; max_values : InternalRow; null_counts : InternalRow }.
Definition empty_values_ (data_fields_ : list string) : InternalRow := (λ _, VNull) <$> data_fields_.
Definition Evolution (data_fields_ : list string) (stats : SimpleStats) (dense_fields : option (list string)) : EvolutionStats :=
  match dense_fields with
  | None => mkStats (min_values_ stats) (max_values_ stats) (null_count_row (null_counts_ stats))
  | Some [] => mkStats (empty_values_ data_fields_) (empty_values_ data_fields_) (empty_values_ data_fields_)
  | Some dense =>
      let mapping := (λ name, IndexOf name dense 0) <$> data_fields_ in
      mkStats (ProjectedRow (min_values_ stats) mapping) (ProjectedRow (max_values_ stats) mapping)
        (ProjectedRow (null_count_row (null_counts_ stats)) mapping)
  end.
End SimpleStatsEvolution.

(** The common part of the two scans: the test of the statistics of the values
    and of the embedded index. The test of a file of another schema is a
    parameter. *)
Section ValueStats.
Context (schema_ : list ArrowType) (field_names : list string) (table_schema_id : Z).
Context (OtherSchema : Predicate → DataFileMeta.t → Result bool) (TestFileIndex : Predicate → DataFileMeta.t → Result bool).

Definition TestStats (p : Predicate) (meta : DataFileMeta.t) : Result bool :=
  let stats := SimpleStatsEvolution.Evolution field_names (DataFileMeta.value_stats meta) (DataFileMeta.value_stats_cols meta) in
  TestFile schema_ p (DataFileMeta.row_count meta) (SimpleStatsEvolution.min_values stats) (SimpleStatsEvolution.max_values stats)
    (SimpleStatsEvolution.null_counts stats).
Definition TestValues (p : Predicate) (meta : DataFileMeta.t) : Result bool :=
  if negb (DataFileMeta.schema_id meta =? table_schema_id) then OtherSchema p meta
  else predicate_result ← TestStats p meta;
       if (predicate_result : bool) then TestFileIndex p meta else Ok false.
End ValueStats.

Module AppendOnlyFileStoreScan.
Section Scan.
Context (schema_ : list ArrowType) (field_names : list string) (table_schema_id : Z).
Context (OtherSchema TestFileIndex : Predicate → DataFileMeta.t → Result bool) (predicates_ : option Predicate).
Definition FilterByStats (entry : ManifestEntry.t) : Result bool :=
  match predicates_ with
  | None => Ok true
  | Some p => TestValues schema_ field_names table_schema_id OtherSchema TestFileIndex p (File entry)
  end.
Definition methods : Methods := mkMethods FilterByStats false Ok.
End Scan.
End AppendOnlyFileStoreScan.

Module KeyValueFileStoreScan.
Section Scan.
Context (schema_ : list ArrowType) (field_names : list string) (table_schema_id : Z).
Context (OtherSchema TestFileIndex : Predicate → DataFileMeta.t → Result bool).
(** [value_filter_force_enabled_] is off and there is no level filter for
    values, as in a scan of all files that is not configured otherwise. *)
Context (key_filter_ value_filter_ : option Predicate) (merges_fields deletion_vectors_enabled : bool).

Definition FilterByValueFilter (entry : ManifestEntry.t) : Result bool :=
  match value_filter_ with
  | None => Ok true
  | Some p => TestValues schema_ field_names table_schema_id OtherSchema TestFileIndex p (File entry)
  end.
(** The schema is the one of the table, also for the statistics of the keys. *)
Definition FilterByStats (entry : ManifestEntry.t) : Result bool :=
  match key_filter_ with
  | Some p =>
      let stats := DataFileMeta.key_stats (File entry) in
      TestFile schema_ p (DataFileMeta.row_count (File entry)) (min_values_ stats) (max_values_ stats) (null_count_row (null_counts_ stats))
  | None => Ok true
  end.

Definition NoOverlapping (entries : list ManifestEntry.t) : bool :=
  if (length entries <=? 1)%nat then true
  else let levels := Level <$> entries in
       if existsb (Z.eqb 0) levels then false
       else match levels with [] => false | l :: rest => forallb (Z.eqb l) rest end.
Definition FilterWholeBucketPerFile (entries : list ManifestEntry.t) : Result (list ManifestEntry.t) := filterR FilterByValueFilter entries.
(** The loop over the files until one may match. *)
Fixpoint any_match (entries : list ManifestEntry.t) : Result bool :=
  match entries with
  | [] => Ok false
  | entry :: rest => filtered ← FilterByValueFilter entry; if (filtered : bool) then Ok true else any_match rest
  end.
(** [merges_fields]: the merge engine is aggregation or partial update. *)
Definition FilterWholeBucketAllFiles (entries : list ManifestEntry.t) : Result (list ManifestEntry.t) :=
  if negb deletion_vectors_enabled && merges_fields then Ok entries
  else keep ← any_match entries; Ok (if (keep : bool) then entries else []).
Definition FilterWholeBucketByStats (entries : list ManifestEntry.t) : Result (list ManifestEntry.t) :=
  if NoOverlapping entries then FilterWholeBucketPerFile entries else FilterWholeBucketAllFiles entries.
Definition methods : Methods := mkMethods FilterByStats (bool_decide (is_Some value_filter_)) FilterWholeBucketByStats.
End Scan.
End KeyValueFileStoreScan.

(** ** Deletions without statistics

    A deletion carries the metadata of the file, perhaps without the
    statistics of the values. *)

Definition copy_of (a d : ManifestEntry.t) : Prop :=
  TotalBuckets d = TotalBuckets a ∧ (File d = File a ∨ File d = DataFileMeta.CopyWithoutStats (File a)).

Lemma null_row_at names i : IsNullAt (SimpleStatsEvolution.empty_values_ names) i = true.
Proof.
  revert i. induction names as [|n names IH]; intros [|i]; [done|done|done|]. exact (IH i).
Qed.

(** Without statistics a predicate that held before still holds. *)
Lemma TestFile_empty schema p n lo hi nulls names m :
  ∃ b, TestFile schema p m (SimpleStatsEvolution.empty_values_ names) (SimpleStatsEvolution.empty_values_ names)
         (SimpleStatsEvolution.empty_values_ names) = Ok b ∧ (TestFile schema p n lo hi nulls = Ok true → b = true).
Proof.
  revert p. refine (Predicate_induction _ _ _).
  - intros f i name type literals. exists true. split; [|done]. cbn. unfold TestLeafFile, ConvertLiteralsFromRow. by rewrite !null_row_at.
  - intros f children IH. setoid_rewrite TestFile_compound. induction IH as [|c children (b&Hb&Hc) _ IH]; cbn [evaluate].
    + eexists. split; [reflexivity|]. by destruct f.
    + destruct IH as (b'&Hb'&Hc'). rewrite Hb. cbn [mbind Result_bind]. destruct f.
      * destruct b; [|exists false; split; [done|intros (b0&Hb0&H)%bind_Ok; destruct b0; [by apply Hc in Hb0|done]]].
        exists b'. split; [done|]. intros (b0&Hb0&H)%bind_Ok. destruct b0; [by apply Hc'|done].
      * destruct b; [by exists true|]. exists b'. split; [done|]. intros (b0&Hb0&H)%bind_Ok. destruct b0; [|by apply Hc'].
        by apply Hc in Hb0.
Qed.

Section Deletions.
Context (schema_ : list ArrowType) (field_names : list string) (table_schema_id : Z).
Context (OtherSchema TestFileIndex : Predicate → DataFileMeta.t → Result bool) (filters : Filters).

(** The parameters do not look at the statistics that a deletion lacks in a
    way that drops it. *)
Definition copies_ok : Prop :=
  ∀ p f, (OtherSchema p f = Ok true → OtherSchema p (DataFileMeta.CopyWithoutStats f) = Ok true) ∧
         (TestFileIndex p f = Ok true → TestFileIndex p (DataFileMeta.CopyWithoutStats f) = Ok true).

Lemma TestValues_copy p f : copies_ok → TestValues schema_ field_names table_schema_id OtherSchema TestFileIndex p f = Ok true →
  TestValues schema_ field_names table_schema_id OtherSchema TestFileIndex p (DataFileMeta.CopyWithoutStats f) = Ok true.
Proof.
  intros Hc. destruct (Hc p f) as [H1 H2]. unfold TestValues. cbn. destruct (negb _); [done|]. unfold TestStats. cbn.
  intros (b&Hb&H)%bind_Ok. destruct b; [|done].
  set (st := SimpleStatsEvolution.Evolution _ _ _) in Hb.
  destruct (TestFile_empty schema_ p (DataFileMeta.row_count f) (SimpleStatsEvolution.min_values st) (SimpleStatsEvolution.max_values st)
    (SimpleStatsEvolution.null_counts st) field_names (DataFileMeta.row_count f)) as (b'&->&Hb').
  rewrite (Hb' Hb). cbn. auto.
Qed.

(** The other filters depend on the identifier and on the number of buckets. *)
Lemma FilterManifestEntry_copy methods a d : CreateIdentifier a = CreateIdentifier d → TotalBuckets d = TotalBuckets a →
  (FilterByStats methods a = Ok true → FilterByStats methods d = Ok true) →
  FilterManifestEntry filters methods a = Ok true → FilterManifestEntry filters methods d = Ok true.
Proof.
  intros E Ht Hs. assert (Partition d = Partition a ∧ Bucket d = Bucket a ∧ Level d = Level a) as (Ep&Eb&El).
  { unfold CreateIdentifier in E. unfold Level. by injection E as -> -> -> _ _. }
  assert (Hn : FilterNonPartitionManifestEntry filters methods a = Ok true → FilterNonPartitionManifestEntry filters methods d = Ok true).
  { unfold FilterNonPartitionManifestEntry. rewrite Eb, El, Ht. repeat (case_match; try done). }
  unfold FilterManifestEntry. rewrite Ep. destruct (partition_filter_ filters); [|done].
  intros (b&->&H)%bind_Ok. cbn. destruct b; [auto|done].
Qed.

Definition deletions_copy (log : list ManifestEntry.t) : Prop :=
  ∀ a d, a ∈ log → d ∈ log → is_add a → is_delete d → CreateIdentifier a = CreateIdentifier d → copy_of a d.

Lemma append_deletions_kept predicates_ log : copies_ok → deletions_copy log →
  deletions_kept filters (AppendOnlyFileStoreScan.methods schema_ field_names table_schema_id OtherSchema TestFileIndex predicates_) log.
Proof.
  intros Hc Hlog a d Ha Hd Hadd Hdel E. destruct (Hlog a d Ha Hd Hadd Hdel E) as [Ht Hf]. apply FilterManifestEntry_copy; [done..|]. cbn.
  unfold AppendOnlyFileStoreScan.FilterByStats. destruct predicates_ as [p|]; [|done]. destruct Hf as [-> | ->]; [done|]. by apply TestValues_copy.
Qed.
Lemma kv_deletions_kept key_filter_ value_filter_ mf dv log : deletions_copy log →
  deletions_kept filters (KeyValueFileStoreScan.methods schema_ field_names table_schema_id OtherSchema TestFileIndex key_filter_ value_filter_ mf dv) log.
Proof.
  intros Hlog a d Ha Hd Hadd Hdel E. destruct (Hlog a d Ha Hd Hadd Hdel E) as [Ht Hf]. apply FilterManifestEntry_copy; [done..|]. cbn.
  unfold KeyValueFileStoreScan.FilterByStats. by destruct Hf as [-> | ->].
Qed.
End Deletions.

(** ** Buckets *)

Lemma grouped_find es k : default [] (LinkedHashMap.find k (grouped_entries es)) = filter (λ e, bucket_key e = k) es.
Proof.
  induction es as [|e es IH] using rev_ind; [done|]. unfold grouped_entries in *. rewrite foldl_app, filter_app, <-IH. cbn [foldl].
  rewrite LinkedHashMap.find_push, filter_cons, filter_nil. done.
Qed.
Lemma grouped_NoDup es : NoDup (LinkedHashMap.key_vec (grouped_entries es)).
Proof.
  induction es as [|e es IH] using rev_ind; [constructor|]. unfold grouped_entries in *. rewrite foldl_app. cbn [foldl].
  by apply LinkedHashMap.insert_or_assign_NoDup.
Qed.
Lemma grouped_elem es k g : (k, g) ∈ grouped_entries es → g = filter (λ e, bucket_key e = k) es.
Proof.
  intros H%LinkedHashMap.elem_find; [|apply grouped_NoDup]. by rewrite <-grouped_find, H.
Qed.

(** Filtering all buckets filters each of them. *)
Lemma filter_groups_bucket methods m out k : (∀ g r, FilterWholeBucketByStats methods g = Ok r → r ⊆ g) →
  (∀ k g, (k, g) ∈ m → Forall (λ e, bucket_key e = k) g) → NoDup (LinkedHashMap.key_vec m) → filter_groups methods (LinkedHashMap.values m) = Ok out →
  match LinkedHashMap.find k m with
  | Some g => FilterWholeBucketByStats methods g = Ok (filter (λ e, bucket_key e = k) out)
  | None => filter (λ e, bucket_key e = k) out = []
  end.
Proof.
  intros Hsub. revert out. induction m as [|[k' g] m IH]; intros out Hkeys Hnd Hout; cbn in *; [by injection Hout as <-|].
  apply bind_Ok in Hout as (kept&Hkept&Hout). apply bind_Ok in Hout as (rest&Hrest&[= <-]). apply NoDup_cons in Hnd as [Hk' Hnd].
  specialize (IH rest (λ k g H, Hkeys k g (list_elem_of_further _ _ _ H)) Hnd Hrest). rewrite filter_app.
  assert (Hg : ∀ e, e ∈ kept → bucket_key e = k').
  { intros e He. pose proof (Hkeys k' g (list_elem_of_here _ _)) as H. rewrite Forall_forall in H. by apply H, (Hsub g kept Hkept). }
  case_decide as Hd.
  - subst k'. rewrite (filter_all _ kept) by done. assert (LinkedHashMap.find k m = None) as E by by apply LinkedHashMap.key_find_None.
    rewrite E in IH. by rewrite IH, app_nil_r.
  - rewrite (filter_none _ kept) by (intros e He <-; by destruct Hd; rewrite (Hg e He)). done.
Qed.

(** ** Rows that satisfy the filters *)

Section Answers.
Context (ukc : InternalRow → InternalRow → Z) (usc : option (InternalRow → InternalRow → Z)) (ignore_delete : bool).
Context (schema_ : list ArrowType) (field_names : list string) (table_schema_id : Z).
Context (OtherSchema TestFileIndex : Predicate → DataFileMeta.t → Result bool).
Context (key_filter_ value_filter_ : option Predicate) (merges_fields deletion_vectors_enabled : bool).
Abbreviation ByValue := (KeyValueFileStoreScan.FilterByValueFilter schema_ field_names table_schema_id OtherSchema TestFileIndex value_filter_).
Abbreviation ByKey := (KeyValueFileStoreScan.FilterByStats schema_ key_filter_).
Abbreviation WholeBucket := (KeyValueFileStoreScan.FilterWholeBucketByStats schema_ field_names table_schema_id OtherSchema TestFileIndex value_filter_
  merges_fields deletion_vectors_enabled).
Context (contents : DataFileMeta.t → list KeyValue).
Abbreviation visible := (visible ukc usc ignore_delete).

Definition bucket_rows (es : list ManifestEntry.t) : list KeyValue := concat ((λ e, contents (File e)) <$> es).
Lemma bucket_rows_elem es kv : kv ∈ bucket_rows es ↔ ∃ e, e ∈ es ∧ kv ∈ contents (File e).
Proof.
  unfold bucket_rows. rewrite list_elem_of_concat. split.
  - intros (l&(e&->&He)%list_elem_of_fmap&Hkv). by exists e.
  - intros (e&He&Hkv). exists (contents (File e)). split; [by apply (list_elem_of_fmap_2 (λ e, contents (File e)))|done].
Qed.

Definition satisfies (kv : KeyValue) : Prop :=
  (∀ p, key_filter_ = Some p → Test schema_ p (key kv) = Ok true) ∧ (∀ p, value_filter_ = Some p → Test schema_ p (value kv) = Ok true).

(** The statistics of a file cover its records. *)
Definition covered (p : Predicate) (rows : list InternalRow) (n : Z) (lo hi nulls : InternalRow) : Prop :=
  all_leaves (λ f i _ type literals, leaf_ok f type literals ∧ stats_ok schema_ rows n lo hi nulls i type) p.
Definition file_ok (f : DataFileMeta.t) : Prop :=
  (∀ p, key_filter_ = Some p → let st := DataFileMeta.key_stats f in
     covered p (key <$> contents f) (DataFileMeta.row_count f) (min_values_ st) (max_values_ st) (null_count_row (null_counts_ st))) ∧
  (∀ p, value_filter_ = Some p → let st := SimpleStatsEvolution.Evolution field_names (DataFileMeta.value_stats f) (DataFileMeta.value_stats_cols f) in
     covered p (value <$> contents f) (DataFileMeta.row_count f) (SimpleStatsEvolution.min_values st) (SimpleStatsEvolution.max_values st)
       (SimpleStatsEvolution.null_counts st)) ∧
  (∀ p kv, value_filter_ = Some p → kv ∈ contents f → Test schema_ p (value kv) = Ok true →
     TestFileIndex p f ≠ Ok false ∧ OtherSchema p f ≠ Ok false).
(** Equal keys satisfy the same key filters. *)
Definition keys_ok : Prop := ∀ p k k', key_filter_ = Some p → ukc k k' = 0 → Test schema_ p k = Ok true → Test schema_ p k' = Ok true.
(** Files of one level above the first have no key in common. *)
Definition levels_disjoint (es : list ManifestEntry.t) : Prop :=
  ∀ e e' x y, e ∈ es → e' ∈ es → e ≠ e' → Level e ≠ 0 → Level e = Level e' →
    x ∈ contents (File e) → y ∈ contents (File e') → ukc (key x) (key y) ≠ 0.

Context (Hschema : Forall type_ok schema_).

Lemma dropped_by_key e kv : file_ok (File e) → ByKey e ≠ Ok true → is_ok (ByKey e) = true → kv ∈ contents (File e) → ¬ satisfies kv.
Proof.
  intros (Hk&_&_) Hd Hok Hkv [Hs _]. unfold KeyValueFileStoreScan.FilterByStats in *. destruct key_filter_ as [p|]; [|done].
  pose proof (TestFile_sound schema_ _ _ _ _ _ p (key kv) Hschema (Hk p eq_refl) (list_elem_of_fmap_2 key _ _ Hkv) (Hs p eq_refl)).
  destruct (TestFile _ _ _ _ _ _) as [[]|]; done.
Qed.
Lemma dropped_by_value e kv : file_ok (File e) → ByValue e = Ok false → kv ∈ contents (File e) → ¬ satisfies kv.
Proof.
  intros (_&Hv&Hi) Hd Hkv [_ Hs]. unfold KeyValueFileStoreScan.FilterByValueFilter in *. destruct value_filter_ as [p|]; [|done].
  destruct (Hi p kv eq_refl Hkv (Hs p eq_refl)) as [H1 H2]. unfold TestValues in Hd. destruct (negb _); [done|].
  apply bind_Ok in Hd as (b&Hb&Hd). destruct b; [done|].
  exact (TestFile_sound schema_ _ _ _ _ _ p (value kv) Hschema (Hv p eq_refl) (list_elem_of_fmap_2 value _ _ Hkv) (Hs p eq_refl) Hb).
Qed.

Context {OK : ComparatorsOK ukc usc}.

(** Records of other keys do not matter. *)
Lemma visible_same_key l l' kv : (∀ x, x ∈ l → x ∈ l') → (∀ x, x ∈ l' → ukc (key kv) (key x) = 0 → x ∈ l) → visible l kv ↔ visible l' kv.
Proof.
  intros Hsub Hkey. assert (Hrefl : ukc (key kv) (key kv) = 0).
  { pose proof (user_key_laws ukc usc) as L. exact (@cmp_refl _ _ L (key kv)). }
  split; intros (H1&H2&H3).
  - split_and!; [auto|done|]. intros x Hx E. apply H3; [by apply Hkey|done].
  - split_and!; [by apply Hkey|done|]. intros x Hx E. apply H3; [by apply Hsub|done].
Qed.

Lemma key_filter_keeps es kv : keys_ok → Forall (λ e, file_ok (File e)) es → Forall (λ e, is_ok (ByKey e) = true) es → satisfies kv →
  visible (bucket_rows (filter (λ e, ByKey e = Ok true) es)) kv ↔ visible (bucket_rows es) kv.
Proof.
  intros Hkeys Hok Hdef Hs. rewrite Forall_forall in Hok, Hdef. apply visible_same_key.
  - intros x. rewrite !bucket_rows_elem. intros (e&[_ He]%list_elem_of_filter&Hx). by exists e.
  - intros x (e&He&Hx)%bucket_rows_elem E. apply bucket_rows_elem. exists e. split; [|done]. apply list_elem_of_filter. split; [|done].
    destruct (decide (ByKey e = Ok true)) as [|Hd]; [done|]. exfalso.
    unfold KeyValueFileStoreScan.FilterByStats in *. destruct key_filter_ as [p|] eqn:Ep; [|done].
    pose proof (Hok e He) as (Hk&_&_). specialize (Hk p Ep). specialize (Hdef e He).
    assert (Hx' : Test schema_ p (key x) = Ok true) by (apply (Hkeys p (key kv)); [done..|by apply Hs]).
    pose proof (TestFile_sound schema_ _ _ _ _ _ p (key x) Hschema Hk (list_elem_of_fmap_2 key _ _ Hx) Hx').
    destruct (TestFile _ _ _ _ _ _) as [[]|]; done.
Qed.

Lemma any_match_none es : KeyValueFileStoreScan.any_match schema_ field_names table_schema_id OtherSchema TestFileIndex value_filter_ es = Ok false →
  Forall (λ e, ByValue e = Ok false) es.
Proof.
  induction es as [|e es IH]; cbn; [by constructor|]. intros (b&Hb&H)%bind_Ok. destruct b; [done|]. constructor; auto.
Qed.

Lemma NoOverlapping_level es e e' : KeyValueFileStoreScan.NoOverlapping es = true → e ∈ es → e' ∈ es → e ≠ e' → Level e ≠ 0 ∧ Level e = Level e'.
Proof.
  unfold KeyValueFileStoreScan.NoOverlapping. intros H He He' Hne. destruct (Nat.leb_spec (length es) 1) as [Hl|_].
  { destruct es as [|a [|b es]]; [by apply elem_of_nil in He| |cbn in Hl; lia].
    apply list_elem_of_singleton in He, He'. congruence. }
  destruct (existsb _ _) eqn:E0; [done|]. destruct es as [|a es]; [done|]. cbn in H. rewrite forallb_forall in H.
  assert (Hall : ∀ x, x ∈ a :: es → Level x = Level a).
  { intros x [->|Hx]%elem_of_cons; [done|]. symmetry. apply Z.eqb_eq, H, list_elem_of_In, (list_elem_of_fmap_2 Level), Hx. }
  split; [|by rewrite (Hall e), (Hall e')]. intros Ez. apply not_true_iff_false in E0. destruct E0. apply existsb_exists. exists (Level e).
  split; [by apply list_elem_of_In, (list_elem_of_fmap_2 Level)|]. by rewrite Ez.
Qed.

(** The filter by values, for a table that keeps one record of every key. *)
Lemma value_filter_keeps es out kv : merges_fields = false → Forall (λ e, file_ok (File e)) es → levels_disjoint es → satisfies kv →
  WholeBucket es = Ok out → visible (bucket_rows out) kv ↔ visible (bucket_rows es) kv.
Proof.
  intros Hm Hok Hdis Hs. pose proof Hok as Hok'. rewrite Forall_forall in Hok'. unfold KeyValueFileStoreScan.FilterWholeBucketByStats.
  destruct (KeyValueFileStoreScan.NoOverlapping es) eqn:Eno.
  - intros Hout. pose proof (filterR_defined _ _ _ Hout) as Hdef. apply filterR_Ok in Hout as ->. rewrite Forall_forall in Hdef.
    destruct (decide (kv ∈ bucket_rows es)) as [(e&He&Hkv)%bucket_rows_elem|Hn].
    + apply visible_same_key.
      * intros x. rewrite !bucket_rows_elem. intros (e'&[_ He']%list_elem_of_filter&Hx). by exists e'.
      * intros x (e'&He'&Hx)%bucket_rows_elem E. apply bucket_rows_elem. exists e'. split; [|done]. apply list_elem_of_filter. split; [|done].
        assert (e = e') as <-.
        { destruct (decide (e = e')) as [|Hne]; [done|]. destruct (NoOverlapping_level _ _ _ Eno He He' Hne) as [H1 H2].
          by destruct (Hdis e e' kv x). }
        pose proof (dropped_by_value e kv (Hok' e He)) as Hv. specialize (Hdef e He). destruct (ByValue e) as [[]|]; [done| |done].
        by destruct (Hv eq_refl Hkv).
    + split; [|by intros [? _]]. intros [H _]. destruct Hn. rewrite bucket_rows_elem in H |- *. destruct H as (e&[_ He]%list_elem_of_filter&Hx). by exists e.
  - unfold KeyValueFileStoreScan.FilterWholeBucketAllFiles. rewrite Hm, andb_false_r. intros (b&Hb&[= <-])%bind_Ok. destruct b; [done|].
    apply any_match_none in Hb. rewrite Forall_forall in Hb. split; [by intros [?%elem_of_nil _]|].
    intros [(e&He&Hkv)%bucket_rows_elem _]. by destruct (dropped_by_value e kv (Hok' e He) (Hb e He) Hkv).
Qed.

Lemma WholeBucket_sub g r : WholeBucket g = Ok r → r ⊆ g.
Proof.
  unfold KeyValueFileStoreScan.FilterWholeBucketByStats. destruct (KeyValueFileStoreScan.NoOverlapping g).
  - intros ->%filterR_Ok e [_ He]%list_elem_of_filter. done.
  - unfold KeyValueFileStoreScan.FilterWholeBucketAllFiles. destruct (_ && _); [by intros [= <-]|].
    intros (b&Hb&[= <-])%bind_Ok. destruct b; [done|]. by intros e ?%elem_of_nil.
Qed.
End Answers.
