(* ===== verification/Commit.v ===== *)
(** * Commits

    [FileStoreCommitImpl::TryCommitOnce], [TryCommit], [CleanUpTmpManifests],
    [RollbackToAsLatest] (src/paimon/core/operation/file_store_commit_impl.cpp)
    with [RenamingSnapshotCommit::Commit]
    (src/paimon/core/catalog/renaming_snapshot_commit.h), which takes no lock,
    [PartitionEntry] (src/paimon/core/manifest/partition_entry.cpp),
    [CommitScanner], [SequenceSnapshotProperties] and
    [RealtimeCommitProperties::Build] (src/paimon/core/operation/commit). The
    changes of a commit are fixed, and it has no index files and no real-time
    offsets of its own.

    The other writers of the table are a function that may change the shared
    files before every step that depends on them. An operation of the file
    system that reports an error may still have taken effect. *)

From stdpp Require Import base list gmap strings relations pretty.
From Stdlib Require Import ZArith Lia Ascii.
From S2P Require Import Prelude Rows DataFiles Predicates StateError Manifests RowTracking ManifestFiles ManifestFilesProofs ManifestMerger Snapshots ConflictDetection Scan.
Import ManifestEntry ManifestFileMeta ManifestListReader FileStoreScan SnapshotManager ConflictDetection.
Local Open Scope Z_scope.

(** ** PartitionEntry: what a commit changes in a partition *)

Module PartitionEntry.
Record t := mk {
  partition_ : InternalRow;
  record_count_ : Z;
  file_size_in_bytes_ : Z;
  file_count_ : Z;
  last_file_creation_time_ : Z;
  total_buckets_ : Z
}.
Section Entries.
(** The creation time in the time zone of the process. *)
Context (CreationTimeEpochMillis : DataFileMeta.t → Result Z).

Definition FromManifestEntry (entry : ManifestEntry.t) : Result t :=
  let file := File entry in
  let deleted := bool_decide (is_delete entry) in
  utc_millis ← CreationTimeEpochMillis file;
  Ok (mk (Partition entry)
        (if deleted then Int.wrap_s 64 (- DataFileMeta.row_count file) else DataFileMeta.row_count file)
        (if deleted then Int.wrap_s 64 (- DataFileMeta.file_size file) else DataFileMeta.file_size file)
        (if deleted then -1 else 1) utc_millis (TotalBuckets entry)).
Definition Merge (a b : t) : t :=
  mk (partition_ a) (Int.wrap_s 64 (record_count_ a + record_count_ b)) (Int.wrap_s 64 (file_size_in_bytes_ a + file_size_in_bytes_ b))
     (Int.wrap_s 64 (file_count_ a + file_count_ b)) (Z.max (last_file_creation_time_ a) (last_file_creation_time_ b)) (total_buckets_ b).
Definition MergeInto (entry : ManifestEntry.t) (to : LinkedHashMap.t InternalRow t) : Result (LinkedHashMap.t InternalRow t) :=
  e ← FromManifestEntry entry;
  Ok (LinkedHashMap.insert_or_assign (partition_ e)
        (match LinkedHashMap.find (partition_ e) to with Some old => Merge old e | None => e end) to).
Definition MergeAll (from : list ManifestEntry.t) : Result (LinkedHashMap.t InternalRow t) := foldR MergeInto from [].
End Entries.
End PartitionEntry.

(** ** Properties of snapshots *)

(** A [std::map], as the list of its entries in the order of the keys. *)
Module Properties.
Definition t : Type := list (string * string).
Fixpoint find (key : string) (m : t) : option string :=
  match m with [] => None | (k, v) :: m' => if String.eqb k key then Some v else find key m' end.
Fixpoint set (key value : string) (m : t) : t :=
  match m with
  | [] => [(key, value)]
  | (k, v) :: m' => match String.compare key k with
                    | Lt => (key, value) :: m
                    | Eq => (key, value) :: m'
                    | Gt => (k, v) :: set key value m'
                    end
  end.
Fixpoint erase (key : string) (m : t) : t :=
  match m with [] => [] | (k, v) :: m' => if String.eqb k key then m' else (k, v) :: erase key m' end.
End Properties.

(** [StringUtils::StringToValue<int64_t>]: [std::from_chars] of the whole text. *)
Fixpoint digits_value (s : string) (value : Z) : option Z :=
  match s with
  | EmptyString => Some value
  | String c s' => let d := Z.of_N (Ascii.N_of_ascii c) - 48 in
                   if (0 <=? d) && (d <=? 9) then digits_value s' (10 * value + d) else None
  end.
Definition StringToInt64 (s : string) : option Z :=
  let '(sign, digits) := match s with String c s' => if Ascii.eqb c "-"%char then (-1, s') else (1, s) | EmptyString => (1, s) end in
  match digits with
  | EmptyString => None
  | _ => match digits_value digits 0 with
         | Some n => if (- 2 ^ 63 <=? sign * n) && (sign * n <? 2 ^ 63) then Some (sign * n) else None
         | None => None
         end
  end.

Module SequenceSnapshotProperties.
Definition kMaxSequenceNumberKey : string := "sequence.generation.max-sequence-number".
Definition MaxSequenceNumber (snapshot : option Snapshot.t) : Result (option Z) :=
  match snapshot ≫= Snapshot.Properties with
  | None => Ok None
  | Some properties =>
      match Properties.find kMaxSequenceNumberKey properties with
      | None => Ok None
      | Some text => match StringToInt64 text with
                     | Some value => Ok (Some value)
                     | None => Err Invalid "Invalid sequence.generation.max-sequence-number value"
                     end
      end
  end.
Definition MaxSequenceNumberFromFiles (files : list ManifestEntry.t) : option Z :=
  match filter is_add files with
  | [] => None
  | added => Some (foldl (λ n e, Z.max n (DataFileMeta.max_sequence_number (File e))) (- 2 ^ 63) added)
  end.
Definition MergeMaxSequenceNumber (properties : Properties.t) (latest_max_sequence_number : option Z) (delta_files : list ManifestEntry.t) : Properties.t :=
  match latest_max_sequence_number, MaxSequenceNumberFromFiles delta_files with
  | None, None => properties
  | Some n, None | None, Some n => Properties.set kMaxSequenceNumberKey (pretty n) properties
  | Some n, Some n' => Properties.set kMaxSequenceNumberKey (pretty (Z.max n n')) properties
  end.
End SequenceSnapshotProperties.

(** The progress of the real-time stores is handed on. *)
Module RealtimeCommitProperties.
Definition kOffsetsKey : string := "realtime.offsets".
Definition Build (properties : Properties.t) (latest_snapshot : option Snapshot.t) (reset_all_realtime_progress : bool) : Properties.t :=
  if reset_all_realtime_progress then Properties.erase kOffsetsKey properties
  else match (latest_snapshot ≫= Snapshot.Properties) ≫= Properties.find kOffsetsKey with
       | Some offsets => Properties.set kOffsetsKey offsets properties
       | None => properties
       end.
End RealtimeCommitProperties.

(** ** The shared files and the other writers *)

Definition Shared : Type := SnapshotDir * gmap string (Content Empty_set).

(** What a commit is configured with, and what it asks its environment. *)
Record Options := mkOptions {
  root_ : string;
  uuid_ : string;
  manifest_format : string;
  manifest_target_file_size : Z;
  manifest_merge_min_count : Z;
  manifest_full_compaction_size : Z;
  discard_duplicate_files : bool;
  deletion_vectors_enabled : bool;
  bucket_unaware : bool;
  has_primary_keys : bool;
  data_evolution_enabled : bool;
  row_tracking_enabled : bool;
  row_tracking_partition_group_on_commit : bool;
  hash_fixed_buckets : bool;
  write_only : bool;
  bucket_append_ordered : bool;
  sequence_init_snapshot : bool;
  key_options : KeyOptions;
  commit_user_ : string;
  partition_types : list ArrowType;
  drop_delete_stats : bool;
  commit_max_retries : Z;
  commit_timeout : Z
}.
Record Environment := mkEnvironment {
  fault : Op → nat → Result unit;
  lost : nat → bool;
  others : nat → Shared → Shared;
  SizeOf : Content Empty_set → Z;
  ReachTargetSize : list ManifestEntry.t → bool;
  partition_stats : list InternalRow → Result SimpleStats;
  partition_predicate : list InternalRow → Predicate;
  CreationTimeEpochMillis : DataFileMeta.t → Result Z;
  PartitionVector : InternalRow → Result (list (string * string));
  LatestSchemaId : nat → Result Z;
  CurrentMillis : nat → Z;
  GenerateUuid : nat → Result string;
  hash_order : list InternalRow → list InternalRow
}.

Section Commit.
Context (o : Options) (env : Environment).
Abbreviation St := (@St Empty_set).
Abbreviation WriteManifest := (WriteManifest (fault env) (root_ o) (uuid_ o) (manifest_format o) (SizeOf env) (ReachTargetSize env) (partition_stats env)).
Abbreviation WriteManifestList := (WriteManifestList (fault env) (root_ o) (uuid_ o) (manifest_format o) (SizeOf env)).
Abbreviation DeleteQuietly := (DeleteQuietly (fault env) (root_ o)).

(** The other writers run. *)
Definition interfere : M World unit := λ w,
  let '(d, fs) := others env (ticks w.2.2) (w.1, w.2.1) in (Ok (), (d, (fs, tick w.2.2))).

(** ** RenamingSnapshotCommit *)

(** The snapshot file appears unless there is one. *)
Definition Rename (id : Z) (snapshot : Snapshot.t) : M World unit := λ w,
  let published := (mkDir (<[id := snapshot]> (snapshots w.1)) (LATEST w.1) (EARLIEST w.1), (w.2.1, tick w.2.2)) in
  let unpublished := (w.1, (w.2.1, tick w.2.2)) in
  match snapshots w.1 !! id, fault env OpRename (ticks w.2.2) with
  | Some _, Ok _ => (Err Invalid "dst file already exist", unpublished)
  | None, Ok _ => (Ok (), published)
  | Some _, Err c e => (Err c e, unpublished)
  | None, Err c e => (Err c e, if lost env (ticks w.2.2) then published else unpublished)
  end.
(** The rename is one step that does not replace a file, as
    renaming_snapshot_commit.h documents it; LocalRename.v has the system calls
    of the local file system. The temporary file, which has a generated name and
    which nothing reads, is left out. *)
Definition AtomicStore (id : Z) (snapshot : Snapshot.t) : M World unit :=
  _ ← sio (fault env) OpCreate; _ ← interfere; Rename id snapshot.

Definition finish_commit (id : Z) : M World bool := _ ← CommitLatestHint (fault env) id; mret true.
Definition resolve_commit (snapshot : Snapshot.t) (c : StatusCode) (e : string) : M World bool :=
  snapshot_exists ← Exists (fault env) (Snapshot.Id snapshot);
  if negb snapshot_exists then fail c e
  else committed_snapshot ← LoadSnapshot (fault env) (Snapshot.Id snapshot);
       if decide (committed_snapshot = snapshot) then finish_commit (Snapshot.Id snapshot) else mret false.
Definition store_snapshot (snapshot : Snapshot.t) : M World bool := λ w,
  match AtomicStore (Snapshot.Id snapshot) snapshot w with
  | (Ok _, w') => finish_commit (Snapshot.Id snapshot) w'
  | (Err c e, w') => resolve_commit snapshot c e w'
  end.
Definition RenamingCommit (snapshot : Snapshot.t) : M World bool :=
  _ ← sio (fault env) OpSerialize;
  _ ← interfere;
  is_exist ← Exists (fault env) (Snapshot.Id snapshot);
  if (is_exist : bool) then mret false else store_snapshot snapshot.
Definition CommitSnapshotImpl (snapshot : Snapshot.t) (delta_statistics : list PartitionEntry.t) : M World bool :=
  _ ← of_result (foldR (λ e _, _ ← PartitionVector env (PartitionEntry.partition_ e); Ok ()) delta_statistics ());
  RenamingCommit snapshot.

(** ** CommitScanner *)

Definition no_filter : Methods := mkMethods (λ _, Ok true) false Ok.
Definition partitions_filter (partitions : list InternalRow) : Filters :=
  mkFilters (partition_types o) (Some (partition_predicate env partitions)) false None None None.
Definition ReadAllEntriesFromChangedPartitions (snapshot : Snapshot.t) (changed_partitions : list InternalRow) : M St (list ManifestEntry.t) :=
  match changed_partitions with
  | [] => mret []
  | _ => CreatePlan (fault env) (root_ o) (partitions_filter changed_partitions) no_filter ALL false (Some snapshot)
  end.

(** ** TryCommitOnce *)

Definition CommitState : Type := Cache * World.
Definition with_world {A} (m : M World A) : M CommitState A := λ s, let '(r, w) := m s.2 in (r, (s.1, w)).
Definition with_cache (m : M Cache unit) : M CommitState unit := λ s, let '(r, c) := m s.1 in (r, (c, s.2)).

(** The partitions of a set, in the order of their first entry. *)
Definition ChangedPartitions (entries : list ManifestEntry.t) : list InternalRow :=
  foldl (λ ps e, if decide (Partition e ∈ ps) then ps else ps ++ [Partition e]) [] entries.
Definition discard_duplicates (base delta : list ManifestEntry.t) : list ManifestEntry.t :=
  filter (λ e, CreateIdentifier e ∉ CreateIdentifier <$> base) delta.

(** The bucket number of the first file of every partition. *)
Fixpoint first_buckets (remaining_partitions : list InternalRow) (entries : list ManifestEntry.t) (total_buckets : TotalBucketsMap) : TotalBucketsMap :=
  match entries, remaining_partitions with
  | [], _ | _, [] => total_buckets
  | entry :: rest, _ =>
      if negb (bool_decide (is_add entry)) || (TotalBuckets entry <=? 0) then first_buckets remaining_partitions rest total_buckets
      else if decide (Partition entry ∈ remaining_partitions)
      then first_buckets (filter (λ p, p ≠ Partition entry) remaining_partitions) rest
             (LinkedHashMap.insert (Partition entry) (TotalBuckets entry) total_buckets)
      else first_buckets remaining_partitions rest total_buckets
  end.
Definition ReadTotalBuckets (snapshot : Snapshot.t) (changed_partitions : list InternalRow) : M St TotalBucketsMap :=
  match changed_partitions with
  | [] => mret []
  | _ => entries ← ReadAllEntriesFromChangedPartitions snapshot changed_partitions; mret (first_buckets changed_partitions entries [])
  end.
Definition ShouldCheckSameBucket (commit_kind : CommitKind.t) : bool :=
  bool_decide (commit_kind = CommitKind.Append) && hash_fixed_buckets o &&
  ((write_only o && negb (bucket_append_ordered o)) || (write_only o && sequence_init_snapshot o)).
Definition CheckSameBucketFromSnapshot (delta_entries : list ManifestEntry.t) (latest : option Snapshot.t) : M CommitState unit :=
  match latest with
  | None => mret ()
  | Some latest =>
      expected_total_buckets ← (λ s, (CollectUncheckedBucketPartitions delta_entries s.1, s));
      match expected_total_buckets with
      | [] => mret ()
      | _ => previous_total_buckets ← with_world (with_store (ReadTotalBuckets latest (LinkedHashMap.key_vec expected_total_buckets)));
             with_cache (CheckSameBucketByTotalBuckets expected_total_buckets previous_total_buckets)
      end
  end.

(** The check against the latest snapshot; the result is what is committed. *)
Definition CheckCommit (delta_entries : list ManifestEntry.t) (commit_kind : CommitKind.t) (latest : option Snapshot.t) (detect_conflicts : bool)
    : M CommitState (list ManifestEntry.t) :=
  let discard_duplicate := discard_duplicate_files o && bool_decide (commit_kind = CommitKind.Append) in
  let check_conflicts := bool_decide (is_Some latest) && (discard_duplicate || detect_conflicts) in
  _ ← (if negb check_conflicts && ShouldCheckSameBucket commit_kind then CheckSameBucketFromSnapshot delta_entries latest else mret ());
  match latest with
  | Some latest =>
      if discard_duplicate || detect_conflicts then
        base_data_files ← with_world (with_store (ReadAllEntriesFromChangedPartitions latest (ChangedPartitions delta_entries)));
        let delta_files := if discard_duplicate then discard_duplicates base_data_files delta_entries else delta_entries in
        _ ← with_cache (CheckConflicts (KO := key_options o) (deletion_vectors_enabled o) (bucket_unaware o) (has_primary_keys o)
              (data_evolution_enabled o) base_data_files delta_files (Snapshot.NextRowId latest) commit_kind);
        mret delta_files
      else mret delta_entries
  | None => mret delta_entries
  end.

(** The rows of the new files get their ids; [hash_order] is the order of a hash
    map of partitions. *)
Definition group_by_partition (delta_files : list ManifestEntry.t) : list ManifestEntry.t :=
  concat ((λ p, filter (λ e, Partition e = p) delta_files) <$> hash_order env (ChangedPartitions delta_files)).
Definition track_rows (new_snapshot_id first_row_id_start : Z) (delta_files : list ManifestEntry.t) : Result (Z * list ManifestEntry.t) :=
  if row_tracking_enabled o
  then RowTrackingCommitUtils.AssignRowTracking new_snapshot_id first_row_id_start
         (if row_tracking_partition_group_on_commit o then group_by_partition delta_files else delta_files)
  else Ok (first_row_id_start, delta_files).

(** What the guard cleans up. *)
Record Tmp := mkTmp {
  base_manifest_list : string;
  delta_manifest_list : string;
  changelog_manifest_list : option string;
  merge_before_manifests : list ManifestFileMeta.t;
  merge_after_manifests : list ManifestFileMeta.t
}.
Definition no_tmp : Tmp := mkTmp EmptyString EmptyString None [] [].
Definition delete_list (name : string) (st : St) : St := if String.eqb name EmptyString then st else DeleteQuietly name st.
Definition CleanUpTmpManifests (tmp : Tmp) (st : St) : St :=
  let st := delete_list (base_manifest_list tmp) st in
  let st := delete_list (delta_manifest_list tmp) st in
  let st := match changelog_manifest_list tmp with Some name => delete_list name st | None => st end in
  let before := FileName <$> merge_before_manifests tmp in
  foldl (λ st m, if decide (FileName m ∈ before) then st else DeleteQuietly (FileName m) st) st (merge_after_manifests tmp).

Definition PS : Type := Tmp * St.
Definition with_files {A} (m : M St A) : M PS A := λ s, let '(r, st) := m s.2 in (r, (s.1, st)).
Definition note (f : Tmp → Tmp) : M PS unit := modify (λ s, (f s.1, s.2)).
Definition set_before (ms : list ManifestFileMeta.t) (t : Tmp) : Tmp :=
  mkTmp (base_manifest_list t) (delta_manifest_list t) (changelog_manifest_list t) ms (merge_after_manifests t).
Definition add_after (ms : list ManifestFileMeta.t) (t : Tmp) : Tmp :=
  mkTmp (base_manifest_list t) (delta_manifest_list t) (changelog_manifest_list t) (merge_before_manifests t) (merge_after_manifests t ++ ms).
Definition set_base (name : string) (t : Tmp) : Tmp :=
  mkTmp name (delta_manifest_list t) (changelog_manifest_list t) (merge_before_manifests t) (merge_after_manifests t).
Definition set_delta (name : string) (t : Tmp) : Tmp :=
  mkTmp (base_manifest_list t) name (changelog_manifest_list t) (merge_before_manifests t) (merge_after_manifests t).
Definition set_changelog (name : string) (t : Tmp) : Tmp :=
  mkTmp (base_manifest_list t) (delta_manifest_list t) (Some name) (merge_before_manifests t) (merge_after_manifests t).

(** The manifests of entries and their list. *)
Definition write_entries (entries : list ManifestEntry.t) (set_list : string → Tmp → Tmp) : M PS (string * Z) :=
  manifests ← with_files (WriteManifest entries);
  _ ← note (add_after manifests);
  manifest_list ← with_files (WriteManifestList manifests);
  _ ← note (set_list manifest_list.1);
  mret manifest_list.

(** A value that depends on the time it is asked for. *)
Definition ask {A} (f : nat → Result A) : M PS A := λ s, (f (ticks s.2.2), (s.1, (s.2.1, tick s.2.2))).

Definition merge_watermark (watermark latest_watermark : option Z) : option Z :=
  match latest_watermark, watermark with
  | Some l, Some w => Some (Z.max w l)
  | Some l, None => Some l
  | None, _ => watermark
  end.

(** The base manifest list: the previous manifests, merged. *)
Definition write_base (latest : option Snapshot.t) : M PS (string * Z) :=
  previous ← match latest with Some s => with_files (ReadDataManifests (fault env) (root_ o) s) | None => mret [] end;
  _ ← note (set_before previous);
  merged_metas ← with_files (ManifestFileMerger.Merge (fault env) (root_ o) (uuid_ o) (manifest_format o) (SizeOf env) (ReachTargetSize env)
                   (partition_stats env) previous (manifest_target_file_size o) (manifest_merge_min_count o) (manifest_full_compaction_size o));
  _ ← note (add_after merged_metas);
  base_list ← with_files (WriteManifestList merged_metas);
  _ ← note (set_base base_list.1);
  mret base_list.

(** The greatest sequence number of the files that manifests add. *)
Fixpoint MaxSequenceNumber (manifests : list ManifestFileMeta.t) (found : option Z) : M St (option Z) :=
  match manifests with
  | [] => mret found
  | manifest :: rest =>
      entries ← ReadManifest (fault env) (root_ o) (FileName manifest);
      MaxSequenceNumber rest
        match SequenceSnapshotProperties.MaxSequenceNumberFromFiles entries with
        | Some current_max => Some (match found with Some n => Z.max n current_max | None => current_max end)
        | None => found
        end
  end.
Definition sequence_properties (latest : option Snapshot.t) (delta_files : list ManifestEntry.t) (properties : Properties.t) : M PS Properties.t :=
  if negb (sequence_init_snapshot o) then mret properties
  else
    recorded ← of_result (SequenceSnapshotProperties.MaxSequenceNumber latest);
    previous ← gets (λ s : PS, merge_before_manifests s.1);
    latest_max_sequence_number ← match recorded, latest with
                                 | None, Some _ => with_files (MaxSequenceNumber previous None)
                                 | _, _ => mret recorded
                                 end;
    mret (SequenceSnapshotProperties.MergeMaxSequenceNumber properties latest_max_sequence_number delta_files).

(** The numbers that a commit starts from. *)
Definition next_id (latest : option Snapshot.t) : Z := match latest with Some s => Snapshot.Id s + 1 | None => Snapshot.FIRST_SNAPSHOT_ID end.
Definition first_row_id_start (latest : option Snapshot.t) : Z := default 0 (latest ≫= Snapshot.NextRowId).

(** From the start of the guard until the snapshot is complete. *)
Definition PrepareSnapshot (delta_files changelog_entries : list ManifestEntry.t) (identifier : Z) (watermark : option Z)
    (properties : Properties.t) (commit_kind : CommitKind.t) (latest : option Snapshot.t) : M PS (Snapshot.t * list PartitionEntry.t) :=
  base_list ← write_base latest;
  tracked ← of_result (track_rows (next_id latest) (first_row_id_start latest) delta_files);
  let '(next_row_id_start, delta_files) := tracked in
  let delta_record_count := Int.wrap_s 64 (RecordCountAdd delta_files - RecordCountDelete delta_files) in
  let total_record_count := Int.wrap_s 64 (match latest with Some s => Snapshot.TotalRecordCount s | None => 0 end + delta_record_count) in
  partition_entries ← of_result (PartitionEntry.MergeAll (CreationTimeEpochMillis env) delta_files);
  delta_list ← write_entries delta_files set_delta;
  changelog_list ← match changelog_entries with
                   | [] => mret None
                   | _ => l ← write_entries changelog_entries set_changelog; mret (Some l)
                   end;
  schema_id ← ask (LatestSchemaId env);
  snapshot_properties ← sequence_properties latest delta_files properties;
  new_snapshot_uuid ← ask (GenerateUuid env);
  now ← ask (λ n, Ok (CurrentMillis env n));
  let statistics := match latest with
                    | Some s => if Snapshot.SchemaId s =? schema_id then Snapshot.Statistics s else None
                    | None => None
                    end in
  mret (Snapshot.mk (Some Snapshot.CURRENT_VERSION) (Some new_snapshot_uuid)
          (next_id latest) schema_id
          base_list.1 (Some base_list.2) delta_list.1 (Some delta_list.2) (fst <$> changelog_list) (snd <$> changelog_list)
          (latest ≫= Snapshot.IndexManifest) (commit_user_ o) identifier commit_kind now total_record_count delta_record_count
          (NullableRecordCount changelog_entries) (merge_watermark watermark (latest ≫= Snapshot.Watermark)) statistics
          (match snapshot_properties with [] => None | _ => Some snapshot_properties end)
          (Some next_row_id_start),
        LinkedHashMap.values partition_entries).

(** The guard is released when the outcome is uncertain. *)
Definition PublishSnapshot (prepare : M PS (Snapshot.t * list PartitionEntry.t)) : M World bool := λ w,
  match prepare (no_tmp, w.2) with
  | (Err c e, (tmp, st)) => (Err c e, (w.1, CleanUpTmpManifests tmp st))
  | (Ok (snapshot, statistics), (tmp, st)) =>
      match CommitSnapshotImpl snapshot statistics (w.1, st) with
      | (Err _ _, w') => (Err Invalid "You need to call FilterAndCommit to retry commit for exception.", w')
      | (Ok true, w') => (Ok true, w')
      | (Ok false, w') => (Ok false, (w'.1, CleanUpTmpManifests tmp w'.2))
      end
  end.

Definition TryCommitOnce (delta_entries changelog_entries : list ManifestEntry.t) (identifier : Z) (watermark : option Z)
    (properties : Properties.t) (commit_kind : CommitKind.t) (latest : option Snapshot.t) (detect_conflicts : bool) : M CommitState bool :=
  delta_files ← CheckCommit delta_entries commit_kind latest detect_conflicts;
  with_world (PublishSnapshot (PrepareSnapshot delta_files changelog_entries identifier watermark properties commit_kind latest)).

(** ** TryCommit *)

Definition clock : M CommitState Z := λ s, (Ok (CurrentMillis env (ticks s.2.2.2)), (s.1, (s.2.1, (s.2.2.1, tick s.2.2.2)))).

(** The result is the number of attempts; the loop runs [fuel] times at most. *)
Fixpoint commit_loop (fuel : nat) (delta_entries changelog_entries : list ManifestEntry.t) (identifier : Z) (watermark : option Z)
    (properties : Properties.t) (commit_kind : CommitKind.t) (reset_all_realtime_progress detect_conflicts retry_on_conflict : bool)
    (start_millis retry_count : Z) : M CommitState Z :=
  match fuel with
  | O => fail UnknownError "out of fuel"
  | S fuel =>
      _ ← with_world interfere;
      latest_snapshot ← with_world (LatestSnapshot (fault env));
      let snapshot_properties := RealtimeCommitProperties.Build properties latest_snapshot reset_all_realtime_progress in
      commit_success ← TryCommitOnce delta_entries changelog_entries identifier watermark snapshot_properties commit_kind latest_snapshot detect_conflicts;
      if (commit_success : bool) then mret (retry_count + 1)
      else if negb retry_on_conflict then fail Invalid "real-time commit failed due to snapshot conflict"
      else current_millis ← clock;
           if (commit_timeout o <? current_millis - start_millis) || (commit_max_retries o <=? retry_count)
           then fail Invalid "there maybe exist commit conflicts between multiple jobs."
           else commit_loop fuel delta_entries changelog_entries identifier watermark properties commit_kind reset_all_realtime_progress
                  detect_conflicts retry_on_conflict start_millis (retry_count + 1)
  end.
Definition commit_fuel : nat := S (Z.to_nat (commit_max_retries o)).
Definition TryCommit (delta_entries changelog_entries : list ManifestEntry.t) (identifier : Z) (watermark : option Z)
    (properties : Properties.t) (commit_kind : CommitKind.t) (reset_all_realtime_progress detect_conflicts retry_on_conflict : bool) : M CommitState Z :=
  start_millis ← clock;
  commit_loop commit_fuel delta_entries changelog_entries identifier watermark properties commit_kind reset_all_realtime_progress
    detect_conflicts retry_on_conflict start_millis 0.

(** ** RollbackToAsLatest *)

Definition ReadAddManifestEntries (snapshot : Snapshot.t) : M St (list ManifestEntry.t) :=
  data_manifests ← ReadDataManifests (fault env) (root_ o) snapshot;
  unmerged_entries ← ManifestFileMerger.ReadAll (fault env) (root_ o) data_manifests;
  merged_entries ← of_result (FileEntry.MergeEntries unmerged_entries);
  mret (filter is_add merged_entries).

Definition with_kind (kind : FileKind.t) (file : DataFileMeta.t) (e : ManifestEntry.t) : ManifestEntry.t :=
  ManifestEntry.mk kind (Partition e) (Bucket e) (TotalBuckets e) file.
Definition rollback_delta (latest_entries target_entries : list ManifestEntry.t) : list ManifestEntry.t :=
  ((λ e, with_kind FileKind.Delete (if drop_delete_stats o then DataFileMeta.CopyWithoutStats (File e) else File e) e) <$>
    filter (λ e, CreateIdentifier e ∉ CreateIdentifier <$> target_entries) latest_entries) ++
  ((λ e, with_kind FileKind.Add (File e) e) <$> filter (λ e, CreateIdentifier e ∉ CreateIdentifier <$> latest_entries) target_entries).

(** [std::max] of optional values; an absent one is the least. *)
Definition max_option (a b : option Z) : option Z :=
  match a, b with Some x, Some y => Some (Z.max x y) | Some x, None => Some x | None, _ => b end.

Definition PrepareRollback (latest target : Snapshot.t) (latest_entries delta_files : list ManifestEntry.t) : M PS (Snapshot.t * list PartitionEntry.t) :=
  base_list ← write_entries latest_entries set_base;
  delta_list ← write_entries delta_files set_delta;
  let delta_record_count := Int.wrap_s 64 (RecordCountAdd delta_files - RecordCountDelete delta_files) in
  new_snapshot_uuid ← ask (GenerateUuid env);
  now ← ask (λ n, Ok (CurrentMillis env n));
  partition_entries ← of_result (PartitionEntry.MergeAll (CreationTimeEpochMillis env) delta_files);
  mret (Snapshot.mk (Some Snapshot.CURRENT_VERSION) (Some new_snapshot_uuid) (Snapshot.Id latest + 1) (Snapshot.SchemaId target)
          base_list.1 (Some base_list.2) delta_list.1 (Some delta_list.2) None None (Snapshot.IndexManifest target) (commit_user_ o)
          (2 ^ 63 - 1) CommitKind.Overwrite now (Snapshot.TotalRecordCount target) delta_record_count None (Snapshot.Watermark target)
          (Snapshot.Statistics target) (Snapshot.Properties target) (max_option (Snapshot.NextRowId latest) (Snapshot.NextRowId target)),
        LinkedHashMap.values partition_entries).

(** The guard is released once the snapshot has been sent. *)
Definition PublishRollback (prepare : M PS (Snapshot.t * list PartitionEntry.t)) : M World bool := λ w,
  match prepare (no_tmp, w.2) with
  | (Err c e, (tmp, st)) => (Err c e, (w.1, CleanUpTmpManifests tmp st))
  | (Ok (snapshot, statistics), (_, st)) => CommitSnapshotImpl snapshot statistics (w.1, st)
  end.
Definition RollbackToAsLatest (target_snapshot_id : Z) : M World bool :=
  latest_opt ← LatestSnapshot (fault env);
  match latest_opt with
  | None => fail Invalid "Latest snapshot is null, can not roll back."
  | Some latest =>
      target_snapshot ← LoadSnapshot (fault env) target_snapshot_id;
      latest_entries ← with_store (ReadAddManifestEntries latest);
      target_entries ← with_store (ReadAddManifestEntries target_snapshot);
      PublishRollback (PrepareRollback latest target_snapshot latest_entries (rollback_delta latest_entries target_entries))
  end.
End Commit.
