(* ===== verification/CommitTracking.v ===== *)
(** * Commits: row ids and sequence numbers

    What a commit does to its changes before it writes them: giving the new
    files row ids does not change which files are added and deleted. And what it
    records of them: the greatest sequence number in the properties of the
    snapshot is read back by the next commit. *)

From stdpp Require Import base list gmap strings pretty.
From Stdlib Require Import ZArith Lia Ascii.
From S2P Require Import Prelude Rows DataFiles StateError Manifests RowTracking Snapshots Commit.
Import ManifestEntry RowTrackingCommitUtils.
Local Open Scope Z_scope.

(** ** Row ids *)

Lemma same_file_entry a b : same_file a b → Kind a = Kind b ∧ Partition a = Partition b ∧ CreateIdentifier a = CreateIdentifier b.
Proof.
  unfold same_file. intros H. pose proof (f_equal Kind H) as Hk. pose proof (f_equal Partition H) as Hp. pose proof (f_equal CreateIdentifier H) as Hi. done.
Qed.
Lemma compatible_same a a' b b' : same_file a a' → same_file b b' → compatible a b → compatible a' b'.
Proof.
  intros (Ka&_&Ia)%same_file_entry (Kb&_&Ib)%same_file_entry. unfold compatible, is_add, is_delete. rewrite Ka, Kb, Ia, Ib. done.
Qed.
Lemma known_same a a' : same_file a a' → known a → known a'.
Proof. intros (Ka&_)%same_file_entry. unfold known, is_add, is_delete. by rewrite Ka. Qed.
Lemma all_known_same es es' : Forall2 same_file es es' → Forall known es → Forall known es'.
Proof. induction 1 as [|a b l l' Hab _ IH]; intros Hk; [constructor|]. apply Forall_cons in Hk as [Ha Hl]. constructor; [by eapply known_same|auto]. Qed.
Lemma same_elem es es' b : Forall2 same_file es es' → b ∈ es' → ∃ a, a ∈ es ∧ same_file a b.
Proof.
  intros H (i&Hi)%list_elem_of_lookup. destruct (Forall2_lookup_r _ _ _ _ _ H Hi) as (a&Ha&Hab). exists a. split; [|done]. by eapply list_elem_of_lookup_2.
Qed.
Lemma once_same log es es' : Forall2 same_file es es' → once (log ++ es) → once (log ++ es').
Proof.
  intros H. rewrite !once_app. intros (Hlog&[Hs Hk]&Hc). split_and!; [done| |].
  - split; [|by eapply all_known_same]. clear Hk Hc. induction H as [|a b l l' Hab Hl IH]; [constructor|]. inversion_clear Hs as [|?? Hs' Ha].
    constructor; [by apply IH|]. rewrite Forall_forall in Ha |- *. intros b' Hb'. destruct (same_elem _ _ _ Hl Hb') as (a'&Ha'&Hab').
    by eapply compatible_same; [..|apply Ha].
  - intros a b' Ha Hb'. destruct (same_elem _ _ _ H Hb') as (b&Hb&Hbb'). by eapply compatible_same; [done|exact Hbb'|apply Hc].
Qed.

Abbreviation max_seq e := (DataFileMeta.max_sequence_number (File e)).

Section Tracking.
Context (o : Options) (env : Environment).

Lemma group_elem e delta : e ∈ group_by_partition env delta → e ∈ delta.
Proof. unfold group_by_partition. rewrite list_elem_of_concat. intros (l&(p&->&_)%list_elem_of_fmap&He). by apply list_elem_of_filter in He as [_ ?]. Qed.

(** The files are the same up to their ids; a sequence number can be that of
    the snapshot. *)
Definition tracks (id : Z) (a b : ManifestEntry.t) : Prop := same_file a b ∧ (max_seq b = max_seq a ∨ max_seq b = id).
Lemma assign_tracks id e ids b ids' : assign_row_id (assign_snapshot_id id e) ids = Ok (b, ids') → tracks id e b.
Proof.
  intros Hb. assert (Hb' : same_file (assign_snapshot_id id e) b ∧ max_seq b = max_seq (assign_snapshot_id id e)).
  { revert Hb. unfold assign_row_id, assign_blob, assign_vector. repeat case_match; intros; simplify_eq; done. }
  destruct Hb' as [Hb' Hm]. split; [pose proof (assign_snapshot_same id e) as Hs; unfold same_file in *; congruence|].
  rewrite Hm. unfold assign_snapshot_id. destruct (_ =? 0); [by right|]. destruct (_ =? 0); [by right|by left].
Qed.
Lemma tracked_entries id first delta next df : track_rows o env id first delta = Ok (next, df) →
  ∃ es, Forall2 (tracks id) es df ∧ (es = delta ∨ es = group_by_partition env delta).
Proof.
  unfold track_rows. destruct (row_tracking_enabled o).
  - unfold AssignRowTracking, AssignRowTrackingMeta. intros H.
    exists (if row_tracking_partition_group_on_commit o then group_by_partition env delta else delta).
    split; [|destruct (row_tracking_partition_group_on_commit o); [by right|by left]].
    revert H. generalize (if row_tracking_partition_group_on_commit o then group_by_partition env delta else delta) as es. intros es.
    generalize (mkRowIds first first ∅ first). revert next df. induction es as [|e es IH]; intros next df ids; cbn.
    { intros [= <- <-]. constructor. }
    intros ([b ids']&Hb&([n' out]&Hout&[= <- <-])%bind_Ok)%bind_Ok. constructor; [by eapply assign_tracks|by eapply IH].
  - intros [= <- <-]. exists delta. split; [|by left]. induction delta; constructor; [split; [done|by left]|done].
Qed.
Lemma tracked_same id first delta next df : track_rows o env id first delta = Ok (next, df) →
  ∃ es, Forall2 same_file es df ∧ (es = delta ∨ es = group_by_partition env delta).
Proof. intros (es&Hs&Hes)%tracked_entries. exists es. split; [|done]. eapply Forall2_impl; [exact Hs|]. by intros a b [? _]. Qed.
Lemma tracked_known id first delta next df : track_rows o env id first delta = Ok (next, df) → Forall known delta → Forall known df.
Proof.
  intros (es&Hs&Hes)%tracked_same Hk. eapply all_known_same; [exact Hs|]. destruct Hes as [-> | ->]; [done|].
  rewrite Forall_forall in Hk |- *. intros e He%group_elem. by apply Hk.
Qed.

Lemma tracked_elem id first delta next df b : track_rows o env id first delta = Ok (next, df) → b ∈ df → ∃ a, a ∈ delta ∧ tracks id a b.
Proof.
  intros (es&Hs&Hes)%tracked_entries (i&Hi)%list_elem_of_lookup. destruct (Forall2_lookup_r _ _ _ _ _ Hs Hi) as (a&Ha%list_elem_of_lookup_2&Hab).
  exists a. split; [|done]. destruct Hes as [-> | ->]; [done|]. by eapply group_elem.
Qed.

(** The order of the hash map. *)
Context (Hhash : ∀ ps, hash_order env ps ≡ₚ ps).
Lemma changed_NoDup delta : NoDup (ChangedPartitions delta).
Proof.
  unfold ChangedPartitions. induction delta as [|e delta IH] using rev_ind; [constructor|]. rewrite foldl_app. cbn. case_decide as Hin; [done|].
  apply NoDup_app. split_and!; [done| |apply NoDup_singleton]. intros p Hp ->%list_elem_of_singleton. done.
Qed.
Lemma group_partitions (ps : list InternalRow) delta : NoDup ps → (∀ e, e ∈ delta → Partition e ∈ ps) →
  concat ((λ p, filter (λ e, Partition e = p) delta) <$> ps) ≡ₚ delta.
Proof.
  intros Hnd. revert delta. induction Hnd as [|p ps Hp Hnd IH]; intros delta Hin.
  { destruct delta as [|e delta]; [done|]. assert (He : Partition e ∈ @nil InternalRow) by (apply Hin; by left). by apply elem_of_nil in He. }
  rewrite fmap_cons. cbn [concat]. set (rest := filter (λ e, Partition e ≠ p) delta).
  replace ((λ q, filter (λ e, Partition e = q) delta) <$> ps) with ((λ q, filter (λ e, Partition e = q) rest) <$> ps).
  - rewrite IH; [|intros e [Hne He%Hin]%list_elem_of_filter; by apply elem_of_cons in He as [?|?]]. unfold rest. apply (filter_app_complement (λ e, Partition e = p)).
  - apply list_fmap_ext. intros i q Hq. unfold rest. rewrite list_filter_filter. apply list_filter_iff. intros e. split; [tauto|].
    intros <-. split; [done|]. intros E. apply Hp. rewrite <-E. by eapply list_elem_of_lookup_2.
Qed.
Lemma changed_elem entries e : e ∈ entries → Partition e ∈ ChangedPartitions entries.
Proof.
  induction entries as [|x es IH] using rev_ind; [by intros ?%elem_of_nil|]. unfold ChangedPartitions. rewrite foldl_app, elem_of_app, list_elem_of_singleton. cbn.
  fold (ChangedPartitions es). intros [He| ->]; case_decide; auto; apply elem_of_app; [left; by apply IH|right; by left].
Qed.
Lemma group_Permutation delta : group_by_partition env delta ≡ₚ delta.
Proof.
  unfold group_by_partition. apply group_partitions; [rewrite Hhash; apply changed_NoDup|]. intros e He. rewrite Hhash. by apply changed_elem.
Qed.
Lemma group_once log delta : once (log ++ delta) → once (log ++ group_by_partition env delta).
Proof.
  rewrite !once_app. intros (Hlog&Hd&Hc). split_and!; [done| |intros a b Ha Hb%group_elem; by apply Hc].
  unfold group_by_partition. assert (Hnd : NoDup (hash_order env (ChangedPartitions delta))) by (rewrite Hhash; apply changed_NoDup).
  induction Hnd as [|p ps Hp Hps IH]; [by repeat constructor|]. rewrite fmap_cons. cbn [concat]. apply once_app. split_and!; [by apply once_filter|done|].
  intros a b [Ea _]%list_elem_of_filter Hb E. exfalso. apply list_elem_of_concat in Hb as (l&(q&->&Hq)%list_elem_of_fmap&Hb).
  apply list_elem_of_filter in Hb as [Eb _]. unfold CreateIdentifier in E. injection E as E _ _ _ _. congruence.
Qed.
Lemma tracked_once id first log delta next df : track_rows o env id first delta = Ok (next, df) → once (log ++ delta) → once (log ++ df).
Proof.
  intros (es&Hs&Hes)%tracked_same Ho. eapply once_same; [exact Hs|]. destruct Hes as [-> | ->]; [done|]. by apply group_once.
Qed.
End Tracking.

(** ** Properties *)

Lemma find_set key value m : Properties.find key (Properties.set key value m) = Some value.
Proof.
  induction m as [|[k v] m IH]; cbn; [by rewrite String.eqb_refl|]. destruct (String.compare key k) eqn:E; cbn.
  - by rewrite String.eqb_refl.
  - by rewrite String.eqb_refl.
  - destruct (String.eqb_spec k key) as [->|]; [|done]. pose proof (String.compare_antisym key key) as H. by rewrite E in H.
Qed.
Lemma find_set_ne key key' value m : key ≠ key' → Properties.find key' (Properties.set key value m) = Properties.find key' m.
Proof.
  intros Hne. assert (Hf : (key =? key')%string = false) by by apply String.eqb_neq.
  induction m as [|[k v] m IH]; cbn; [by rewrite Hf|]. destruct (String.compare key k) eqn:E; cbn; rewrite ?Hf; [|done|by rewrite IH].
  apply String.compare_eq_iff in E. subst k. by rewrite Hf.
Qed.

(** Decimal texts are read back. *)
Lemma digit_char d : (d < 10)%N → Z.of_N (N_of_ascii (pretty_N_char d)) - 48 = Z.of_N d.
Proof. intros H. assert (d = 0 ∨ d = 1 ∨ d = 2 ∨ d = 3 ∨ d = 4 ∨ d = 5 ∨ d = 6 ∨ d = 7 ∨ d = 8 ∨ d = 9)%N as Hd by lia. repeat (destruct Hd as [->|Hd]; [done|]). by subst. Qed.
Lemma digits_go x s : digits_value (pretty_N_go x s) 0 = digits_value s (Z.of_N x).
Proof.
  revert s. induction (N.lt_wf_0 x) as [x _ IH]; intros s. assert (x = 0 ∨ 0 < x)%N as [->|Hx] by lia; [by rewrite pretty_N_go_0|].
  rewrite pretty_N_go_step by done. rewrite IH by by apply N.div_lt. cbn [digits_value].
  assert (Hm : (x `mod` 10 < 10)%N) by by apply N.mod_lt. rewrite digit_char by done.
  assert (Hb : (0 <=? Z.of_N (x `mod` 10)) && (Z.of_N (x `mod` 10) <=? 9) = true).
  { apply N2Z.inj_lt in Hm. apply andb_true_iff. rewrite !Z.leb_le. pose proof (N2Z.is_nonneg (x `mod` 10)). lia. }
  rewrite Hb. f_equal. rewrite N2Z.inj_div, N2Z.inj_mod. pose proof (Z.div_mod (Z.of_N x) 10). lia.
Qed.
Lemma digits_positive p : digits_value (pretty (Npos p)) 0 = Some (Zpos p).
Proof. unfold pretty, pretty_N. rewrite decide_False by done. by rewrite digits_go. Qed.
Lemma pretty_positive p : ∃ c s, pretty (Npos p) = String c s ∧ c ≠ "-"%char.
Proof.
  pose proof (digits_positive p) as Hd. destruct (pretty (Npos p)) as [|c s] eqn:E; [done|]. exists c, s. split; [done|]. intros ->.
  cbn in Hd. done.
Qed.
Lemma StringToInt64_pretty n : - 2 ^ 63 ≤ n < 2 ^ 63 → StringToInt64 (pretty n) = Some n.
Proof.
  intros Hn. destruct n as [|p|p]; [done|..]; destruct (pretty_positive p) as (c&s&E&Hc); pose proof (digits_positive p) as Hd; unfold StringToInt64;
    change (pretty (Zpos p)) with (pretty (Npos p)) || change (pretty (Zneg p)) with (String "-" (pretty (Npos p))); rewrite E in Hd |- *.
  - rewrite (proj2 (Ascii.eqb_neq _ _)) by done. rewrite Hd. rewrite (proj2 (Z.leb_le _ _)), (proj2 (Z.ltb_lt _ _)) by lia. done.
  - cbn [Ascii.eqb Bool.eqb]. rewrite Hd. rewrite (proj2 (Z.leb_le _ _)), (proj2 (Z.ltb_lt _ _)) by lia. done.
Qed.

(** ** Sequence numbers *)

Import SequenceSnapshotProperties.
Definition seq_ok (e : ManifestEntry.t) : Prop := - 2 ^ 63 ≤ max_seq e < 2 ^ 63.

(** The number is at least that of every file that is added. *)
Definition seq_bound (n : Z) (es : list ManifestEntry.t) : Prop := ∀ e, e ∈ es → is_add e → max_seq e ≤ n.

Lemma foldl_max_seq es n : let m := foldl (λ n e, Z.max n (max_seq e)) n es in
  n ≤ m ∧ (∀ e, e ∈ es → max_seq e ≤ m) ∧ (m = n ∨ ∃ e, e ∈ es ∧ m = max_seq e).
Proof.
  revert n. induction es as [|e es IH]; intros n; cbn; [split_and!; [lia|by intros ? ?%elem_of_nil|by left]|].
  destruct (IH (Z.max n (max_seq e))) as (H1&H2&H3). split_and!; [lia| |].
  - intros e' [->|He']%elem_of_cons; [lia|by apply H2].
  - destruct H3 as [H3|(e'&He'&H3)]; [|right; exists e'; split; [by right|done]].
    destruct (Z.max_spec n (max_seq e)) as [[_ Em]|[_ Em]]; rewrite Em in H3 at 2; [right; exists e; split; [by left|done]|by left].
Qed.
Lemma MaxSequenceNumberFromFiles_spec es : Forall seq_ok es →
  match MaxSequenceNumberFromFiles es with
  | Some n => seq_bound n es ∧ - 2 ^ 63 ≤ n < 2 ^ 63
  | None => ∀ e, e ∈ es → ¬ is_add e
  end.
Proof.
  intros Hok. unfold MaxSequenceNumberFromFiles. rewrite Forall_forall in Hok. destruct (filter is_add es) as [|e0 added] eqn:E.
  - intros e He Ha. assert (Hin : e ∈ filter is_add es) by by apply list_elem_of_filter. rewrite E in Hin. by apply elem_of_nil in Hin.
  - destruct (foldl_max_seq (e0 :: added) (- 2 ^ 63)) as (H1&H2&H3). split.
    + intros e He Ha. apply H2. rewrite <-E. by apply list_elem_of_filter.
    + destruct H3 as [-> |(e&He&->)]; [lia|]. apply Hok. rewrite <-E in He. by apply list_elem_of_filter in He as [_ ?].
Qed.

(** What is recorded is read back. *)
Lemma recorded_number properties n s : - 2 ^ 63 ≤ n < 2 ^ 63 → Snapshot.Properties s = Some (Properties.set kMaxSequenceNumberKey (pretty n) properties) →
  SequenceSnapshotProperties.MaxSequenceNumber (Some s) = Ok (Some n).
Proof. intros Hn E. unfold SequenceSnapshotProperties.MaxSequenceNumber. cbn [mbind option_bind]. rewrite E, find_set. by rewrite StringToInt64_pretty. Qed.

(** What is known of a log: nothing is added, or a number is at least that of
    every file that is added. *)
Definition bounded (r : option Z) (es : list ManifestEntry.t) : Prop :=
  match r with Some n => seq_bound n es ∧ - 2 ^ 63 ≤ n < 2 ^ 63 | None => ∀ e, e ∈ es → ¬ is_add e end.
Definition join (a b : option Z) : option Z :=
  match a, b with Some n, Some n' => Some (Z.max n n') | Some n, None | None, Some n => Some n | None, None => None end.
Lemma bounded_app a b es es' : bounded a es → bounded b es' → bounded (join a b) (es ++ es').
Proof.
  unfold bounded, seq_bound. destruct a as [n|], b as [n'|]; cbn; intros Ha Hb.
  - destruct Ha as [Ha ?], Hb as [Hb ?]. split; [|lia]. intros e [He|He]%elem_of_app Hadd; [specialize (Ha e He Hadd)|specialize (Hb e He Hadd)]; lia.
  - destruct Ha as [Ha ?]. split; [|lia]. intros e [He|He]%elem_of_app Hadd; [by apply Ha|by destruct (Hb e He)].
  - destruct Hb as [Hb ?]. split; [|lia]. intros e [He|He]%elem_of_app Hadd; [by destruct (Ha e He)|by apply Hb].
  - intros e [He|He]%elem_of_app; auto.
Qed.

(** The properties of a snapshot record the greatest sequence number. *)
Definition records (s : Snapshot.t) (es : list ManifestEntry.t) : Prop :=
  (∃ e, e ∈ es ∧ is_add e) → ∃ n, SequenceSnapshotProperties.MaxSequenceNumber (Some s) = Ok (Some n) ∧ seq_bound n es.
Lemma merged_records properties r log df s : bounded r log → Forall seq_ok df →
  Snapshot.Properties s = (let ps := MergeMaxSequenceNumber properties r df in match ps with [] => None | _ => Some ps end) → records s (log ++ df).
Proof.
  intros Hr Hdf Es. pose proof (bounded_app _ _ _ _ Hr (MaxSequenceNumberFromFiles_spec df Hdf)) as Hb.
  assert (Hset : ∀ n, Snapshot.Properties s = (let ps := Properties.set kMaxSequenceNumberKey (pretty n) properties in match ps with [] => None | _ => Some ps end) →
    - 2 ^ 63 ≤ n < 2 ^ 63 → seq_bound n (log ++ df) → records s (log ++ df)).
  { intros n E Hn Hbound _. exists n. split; [|done]. apply (recorded_number properties); [done|]. rewrite E. cbn.
    destruct (Properties.set _ _ _) eqn:Eset; [|done]. pose proof (find_set kMaxSequenceNumberKey (pretty n) properties) as Hf. by rewrite Eset in Hf. }
  unfold MergeMaxSequenceNumber in Es. destruct r as [n|], (MaxSequenceNumberFromFiles df) as [n'|]; cbn [join bounded] in Hb.
  1-3: destruct Hb as [Hb ?]; by eapply Hset.
  intros (e&He&Ha). by destruct (Hb e He).
Qed.
Lemma StringToInt64_range s n : StringToInt64 s = Some n → - 2 ^ 63 ≤ n < 2 ^ 63.
Proof.
  unfold StringToInt64. destruct (match s with EmptyString => _ | String _ _ => _ end) as [sign digits]. destruct digits; [done|].
  destruct (digits_value _ _) as [v|]; [|done]. destruct (_ && _) eqn:E; [|done]. intros [= <-]. apply andb_true_iff in E. rewrite Z.leb_le, Z.ltb_lt in E. lia.
Qed.
(** A number that a snapshot records is that of a file at least. *)
Definition records_at_least (s : Snapshot.t) (es : list ManifestEntry.t) : Prop :=
  ∀ n, SequenceSnapshotProperties.MaxSequenceNumber (Some s) = Ok (Some n) → seq_bound n es.
Lemma recorded_bounded s log n : records_at_least s log → SequenceSnapshotProperties.MaxSequenceNumber (Some s) = Ok (Some n) → bounded (Some n) log.
Proof.
  intros Hr Hn. split; [by apply Hr|]. unfold SequenceSnapshotProperties.MaxSequenceNumber in Hn.
  destruct (_ ≫= _) as [ps|]; [|done]. destruct (Properties.find _ _) as [text|]; [|done].
  destruct (StringToInt64 text) as [v|] eqn:E; [|done]. injection Hn as ->. by eapply StringToInt64_range.
Qed.
Lemma bounded_sub r es es' : (∀ e, e ∈ es' → e ∈ es) → bounded r es → bounded r es'.
Proof. intros Hs. destruct r as [n|]; cbn; [|by auto]. intros [Hb ?]. split; [|done]. intros e He. by apply Hb, Hs. Qed.
Lemma records_sub s es es' : (∀ e, e ∈ es' → e ∈ es) → records s es → records s es'.
Proof. intros Hs Hr (e&He&Ha). destruct Hr as (n&Hn&Hb); [exists e; auto|]. exists n. split; [done|]. intros e' He'. by apply Hb, Hs. Qed.
Lemma applied_sub files df e : e ∈ apply_delta files df → e ∈ files ++ df.
Proof.
  unfold apply_delta. rewrite !elem_of_app. intros [[_ ?]%list_elem_of_filter|(?&_&_)%live_spec]; auto.
Qed.
Lemma records_least s es : records s es → records_at_least s es.
Proof. intros Hr n Hn e He Ha. destruct Hr as (n'&Hn'&Hb); [by exists e|]. assert (n' = n) as -> by congruence. by apply Hb. Qed.
Lemma tracked_seq o env id first delta next df : - 2 ^ 63 ≤ id < 2 ^ 63 → track_rows o env id first delta = Ok (next, df) → Forall seq_ok delta → Forall seq_ok df.
Proof.
  intros Hid Ht. rewrite !Forall_forall. intros Hd b Hb. destruct (tracked_elem _ _ _ _ _ _ _ _ Ht Hb) as (a&Ha&_&[E|E]); unfold seq_ok; rewrite E; [by apply Hd|done].
Qed.
