(* ===== verification/RowIds.v ===== *)
(** * Row ids of a table

    In a table with data evolution the rows of the data files have ids. Two data
    files have the same rows, of which they hold different columns, or none in
    common, and the ids are below the next one to be given out. The checks of a
    commit and the assignment of ids keep it so. *)

From stdpp Require Import base list gmap strings.
From Stdlib Require Import ZArith Lia.
From S2P Require Import Prelude Rows DataFiles Ranges StateError Manifests RowTracking Snapshots ConflictDetection Commit CommitTracking.
Import ManifestEntry RowTrackingCommitUtils ConflictDetection.
Local Open Scope Z_scope.
#[local] Abbreviation row_count e := (DataFileMeta.row_count (File e)).
#[local] Abbreviation range_ok := Ranges.range_ok.

(** ** The invariant *)

Definition aligned (files : list ManifestEntry.t) : Prop := ∀ r r', r ∈ data_ranges files → r' ∈ data_ranges files → apart r r'.
Definition numbered (next : Z) (files : list ManifestEntry.t) : Prop := Forall (λ r, 0 ≤ from r ∧ from r ≤ to r ∧ to r < next) (data_ranges files).

Lemma data_ranges_elem es r : r ∈ data_ranges es ↔ ∃ e f, e ∈ es ∧ is_dedicated e = false ∧ first_row_id e = Some f ∧ r = row_range e f.
Proof.
  unfold data_ranges. rewrite list_elem_of_omap. split.
  - intros (e&He&Hr). destruct (is_dedicated e) eqn:Ed; [done|]. destruct (first_row_id e) as [f|] eqn:Ef; [|done]. injection Hr as <-. by exists e, f.
  - intros (e&f&He&Ed&Ef&->). exists e. by rewrite Ed, Ef.
Qed.
Lemma data_ranges_sub es es' r : (∀ e, e ∈ es → e ∈ es') → r ∈ data_ranges es → r ∈ data_ranges es'.
Proof. rewrite !data_ranges_elem. intros Hs (e&f&He&H). exists e, f. auto. Qed.
Lemma numbered_ok next files : next ≤ 2 ^ 63 - 1 → numbered next files → Forall range_ok (data_ranges files).
Proof. intros Hn H. eapply Forall_impl; [exact H|]. intros r Hr. cbn beta in Hr. unfold Ranges.range_ok. lia. Qed.
Lemma row_range_id e f : 0 ≤ f → 0 < row_count e → f + row_count e ≤ 2 ^ 63 → row_range e f = mkRange f (f + row_count e - 1).
Proof. intros. unfold row_range, int64. by rewrite wrap_id by lia. Qed.
Lemma rows_elem e es : Forall (λ e, 0 < row_count e) es → e ∈ es → row_count e ≤ rows es.
Proof.
  intros Hc He. induction Hc as [|x es Hx Hc IH]; [by apply elem_of_nil in He|]. cbn [rows foldr]. fold (rows es).
  assert (0 ≤ rows es) by (apply rows_nonneg; eapply Forall_impl; [exact Hc|]; cbn; lia).
  apply elem_of_cons in He as [->|He]; [lia|]. specialize (IH He). lia.
Qed.

(** Files one after the other. *)
Lemma tiles_range first es next e : tiles first es next → Forall (λ e, 0 < row_count e) es → e ∈ es →
  ∃ f, first_row_id e = Some f ∧ first ≤ f ∧ f + row_count e ≤ next.
Proof.
  intros Ht Hc. revert first Ht. induction Hc as [|x es Hx Hc IH]; intros first Ht He; [by apply elem_of_nil in He|]. destruct Ht as [Hf Ht].
  assert (Hle : first + row_count x ≤ next).
  { clear IH He Hf Hx. revert first Ht. generalize (row_count x). induction Hc as [|y es Hy Hc IH]; intros c first; cbn; [lia|].
    intros [_ Ht]. specialize (IH _ _ Ht). lia. }
  apply elem_of_cons in He as [->|He]; [exists first; split_and!; (done || lia)|]. destruct (IH _ Ht He) as (f&?&?&?). exists f. split_and!; (done || lia).
Qed.
Lemma tiles_apart first es next a b : tiles first es next → Forall (λ e, 0 < row_count e) es → a ∈ es → b ∈ es →
  ∃ f g, first_row_id a = Some f ∧ first_row_id b = Some g ∧ (f + row_count a ≤ g ∨ g + row_count b ≤ f ∨ (f = g ∧ row_count a = row_count b)).
Proof.
  intros Ht Hc. revert first Ht. induction Hc as [|x es Hx Hc IH]; intros first Ht Ha Hb; [by apply elem_of_nil in Ha|]. destruct Ht as [Hf Ht].
  apply elem_of_cons in Ha as [->|Ha]; apply elem_of_cons in Hb as [->|Hb].
  - exists first, first. split_and!; [done..|]. auto.
  - destruct (tiles_range _ _ _ _ Ht Hc Hb) as (g&?&?&?). exists first, g. split_and!; [done..|]. lia.
  - destruct (tiles_range _ _ _ _ Ht Hc Ha) as (f&?&?&?). exists f, first. split_and!; [done..|]. lia.
  - by eapply IH.
Qed.

(** ** The checks *)

Section Checks.
Context (base : list ManifestEntry.t) (Hok : Forall range_ok (data_ranges base)) (Hal : aligned base).
Abbreviation index := (SortAndMergeOverlap (data_ranges base) false).

Lemma index_exact r : r ∈ index → r ∈ data_ranges base.
Proof. by apply merged_exact. Qed.
Lemma index_contains r : range_ok r → RowRangeIndex.ContainsExactly (RowRangeIndex.create index) r = Ok true → r ∈ data_ranges base.
Proof.
  intros Hr Hc. destruct (SortAndMergeOverlap_spec (data_ranges base) false Hok) as (H1&H2&_).
  destruct (RowRangeIndex.ContainsExactly_spec index H2 H1 r Hr) as (b&Hb&Hiff). rewrite Hc in Hb. injection Hb as <-. by apply index_exact, Hiff.
Qed.
Lemma index_covers r : range_ok r → RowRangeIndex.Contains (RowRangeIndex.create index) r = Ok true →
  ∃ r', r' ∈ data_ranges base ∧ from r' ≤ from r ∧ to r ≤ to r'.
Proof.
  intros Hr Hc. destruct (SortAndMergeOverlap_spec (data_ranges base) false Hok) as (H1&H2&_).
  destruct (RowRangeIndex.Contains_spec index H2 H1 r Hr) as (b&Hb&Hiff). rewrite Hc in Hb. injection Hb as <-.
  destruct (proj1 Hiff eq_refl) as (r'&Hr'&?). exists r'. split; [by apply index_exact|done].
Qed.

(** Files for rows that exist have the rows of a data file, and dedicated files
    some of them. *)
Lemma existence_checked delta next e f : CheckRowIdExistence true base delta (Some next) = Ok () → e ∈ delta → is_add e → first_row_id e = Some f →
  f < next → range_ok (row_range e f) →
  if is_dedicated e then ∃ r, r ∈ data_ranges base ∧ from r ≤ f ∧ to (row_range e f) ≤ to r else row_range e f ∈ data_ranges base.
Proof.
  unfold CheckRowIdExistence. cbn [negb]. intros Hc He Ha Ef Hf Hr.
  assert (Hin : e ∈ filter (refers_below (Some next)) delta) by (apply list_elem_of_filter; split; [|done]; split; [done|by rewrite Ef]).
  destruct (filter (refers_below (Some next)) delta) as [|x xs]; [by apply elem_of_nil in Hin|]. revert Hin Hc. generalize (x :: xs) as es. clear x xs.
  unfold RowRangeIndex.Create. cbn [mbind Result_bind]. intros es Hin Hc. apply foldR_unit in Hc. rewrite Forall_forall in Hc. specialize (Hc e Hin).
  unfold check_existence in Hc. rewrite Ef in Hc. apply bind_Ok in Hc as (b&Hb&Hc). destruct b; [|done]. destruct (is_dedicated e).
  - by destruct (index_covers _ Hr Hb) as (r&?&?&?); exists r.
  - by apply index_contains.
Qed.
End Checks.

(** ** The assignment *)

Lemma same_file_data a b : same_file a b → is_dedicated a = is_dedicated b ∧ row_count a = row_count b.
Proof.
  unfold same_file. intros H. pose proof (f_equal (λ e, is_dedicated e) H) as Hd. pose proof (f_equal (λ e, row_count e) H) as Hc. done.
Qed.

Section Assigned.
Context (id first next : Z) (es df live : list ManifestEntry.t).
Context (Hfirst : 0 ≤ first) (Hcount : Forall (λ e, 0 < row_count e) es) (Hmax : first + rows es < 2 ^ 63).
Context (Hassign : AssignRowTracking id first es = Ok (next, df)).

Lemma assigned_spec : first ≤ next < 2 ^ 63 ∧ Forall2 same_file es df ∧ tiles first (new_files es df) next ∧
  Forall2 (λ a b, needs_row_id (File a) = false → first_row_id b = first_row_id a) es df.
Proof.
  destruct (row_ids_assigned id first es next df) as (Hn&Hs&Ht&Hf); [done| |done|done|].
  { eapply Forall_impl; [exact Hcount|]. cbn. lia. }
  split_and!; [lia..|done|done|]. eapply Forall2_impl; [exact Hf|]. intros a b Hab Hn'. cbn beta in Hab. by rewrite Hn' in Hab.
Qed.
Lemma new_counts : Forall (λ e, 0 < row_count e) (new_files es df).
Proof.
  destruct assigned_spec as (_&Hs&_). apply Forall_forall. intros b (p&->&Hp)%list_elem_of_fmap. apply list_elem_of_filter in Hp as [_ Hp].
  apply elem_of_lookup_zip_with in Hp as (i&a&b'&->&Ha&Hb). cbn. destruct (same_file_data a b') as [_ <-].
  - exact (Forall2_lookup_lr _ _ _ _ _ _ Hs Ha Hb).
  - rewrite Forall_forall in Hcount. apply Hcount. by eapply list_elem_of_lookup_2.
Qed.

(** A data file is new, or keeps its ids. *)
Lemma assigned_file b f : b ∈ df → is_dedicated b = false → first_row_id b = Some f →
  b ∈ new_files es df ∨ ∃ a, a ∈ es ∧ same_file a b ∧ first_row_id a = Some f.
Proof.
  intros (i&Hb)%list_elem_of_lookup Hd Hf. destruct assigned_spec as (_&Hs&_&Hk). destruct (Forall2_lookup_r _ _ _ _ _ Hs Hb) as (a&Ha&Hab).
  destruct (needs_row_id (File a)) eqn:En.
  - left. apply list_elem_of_fmap. exists (a, b). split; [done|]. apply list_elem_of_filter. split.
    + unfold new_data. cbn. rewrite En. destruct (same_file_data a b Hab) as [Hd' _]. unfold is_dedicated in Hd, Hd'. by rewrite Hd', Hd.
    + apply elem_of_lookup_zip_with. by exists i, a, b.
  - right. exists a. split_and!; [by eapply list_elem_of_lookup_2|done|]. rewrite <-Hf. symmetry. exact (Forall2_lookup_lr _ _ _ _ _ _ Hk Ha Hb En).
Qed.

Context (Hpre : ∀ a f, a ∈ es → is_add a → is_dedicated a = false → first_row_id a = Some f → row_range a f ∈ data_ranges live).

Lemma applied_range r : r ∈ data_ranges (apply_delta live df) →
  r ∈ data_ranges live ∨ ∃ b f, b ∈ new_files es df ∧ first_row_id b = Some f ∧ r = mkRange f (f + row_count b - 1).
Proof.
  intros (b&f&Hb&Hd&Hf&->)%data_ranges_elem. unfold apply_delta in Hb. apply elem_of_app in Hb as [[_ Hb]%list_elem_of_filter|(Hb&Ha&_)%live_spec].
  { left. apply data_ranges_elem. by exists b, f. }
  destruct (assigned_file b f Hb Hd Hf) as [Hn|(a&Hin&Hab&Hfa)].
  - right. exists b, f. split_and!; [done..|]. destruct assigned_spec as (Hnext&_&Ht&_). pose proof new_counts as Hc.
    destruct (tiles_range _ _ _ _ Ht Hc Hn) as (f'&Hf'&?&?). assert (f' = f) as -> by congruence.
    rewrite Forall_forall in Hc. specialize (Hc b Hn). apply row_range_id; lia.
  - left. destruct (same_file_data a b Hab) as [Hd' Hc]. destruct (same_file_entry a b Hab) as (Hk&_).
    unfold row_range. rewrite <-Hc. apply Hpre; [done|unfold is_add in *; congruence|congruence|done].
Qed.

Lemma assigned_aligned : aligned live → numbered first live → aligned (apply_delta live df) ∧ numbered next (apply_delta live df).
Proof.
  intros Hal Hnum. destruct assigned_spec as (Hnext&_&Ht&_). pose proof new_counts as Hc. unfold numbered in Hnum. rewrite Forall_forall in Hnum. split.
  - intros r r' [Hr|(a&f&Ha&Hf&->)]%applied_range [Hr'|(b&g&Hb&Hg&->)]%applied_range; [by apply Hal|..].
    + destruct (tiles_range _ _ _ _ Ht Hc Hb) as (g'&?&?&?). assert (g' = g) as -> by congruence. specialize (Hnum r Hr). right. left. cbn. lia.
    + destruct (tiles_range _ _ _ _ Ht Hc Ha) as (f'&?&?&?). assert (f' = f) as -> by congruence. specialize (Hnum r' Hr'). right. right. cbn. lia.
    + destruct (tiles_apart _ _ _ _ _ Ht Hc Ha Hb) as (f'&g'&Hf'&Hg'&Hfg). assert (f' = f) as -> by congruence. assert (g' = g) as -> by congruence.
      unfold apart. cbn. destruct Hfg as [?|[?|[-> ->]]]; [right; left; lia|right; right; lia|by left].
  - apply Forall_forall. intros r [Hr|(b&f&Hb&Hf&->)]%applied_range.
    + specialize (Hnum r Hr). lia.
    + destruct (tiles_range _ _ _ _ Ht Hc Hb) as (f'&?&?&?). assert (f' = f) as -> by congruence. rewrite Forall_forall in Hc. specialize (Hc b Hb). cbn. lia.
Qed.
End Assigned.

(** ** Compactions *)

(** The groups of the range helper. *)
Lemma all_ranges_same {T} (start_func end_func : T → Result Z) g : RangeHelper.AreAllRangesSame start_func end_func g = Ok true →
  ∀ a b, a ∈ g → b ∈ g → start_func a = start_func b ∧ end_func a = end_func b.
Proof.
  destruct g as [|x g]; [by intros _ a b ?%elem_of_nil|]. cbn. intros (s&Hs&(e&He&H)%bind_Ok)%bind_Ok.
  assert (Hall : ∀ y, y ∈ x :: g → start_func y = Ok s ∧ end_func y = Ok e); [|intros a b Ha%Hall Hb%Hall; destruct Ha, Hb; by split; congruence].
  intros y [->|Hy]%elem_of_cons; [done|]. induction g as [|z g IH]; [by apply elem_of_nil in Hy|]. cbn in H.
  apply bind_Ok in H as (s'&Hs'&(e'&He'&H)%bind_Ok). destruct (Z.eqb_spec s' s) as [->|]; [|done]. destruct (Z.eqb_spec e' e) as [->|]; [|done].
  apply elem_of_cons in Hy as [->|Hy]; [done|by apply IH].
Qed.

Section Compaction.
Context (files : list ManifestEntry.t) (Hids : Forall (λ e, is_Some (first_row_id e)) files).
Context (Hok : Forall (λ e, ∀ f, first_row_id e = Some f → range_ok (row_range e f)) files).

Lemma data_files_aligned : CheckDataFileRowIdRangeConflicts files = Ok () → aligned files.
Proof.
  intros (groups&Hg&Hall)%bind_Ok. apply foldR_unit in Hall. set (r := λ e, row_range e (default 0 (first_row_id e))).
  rewrite Forall_forall in Hids, Hok.
  destruct (RangeHelper.merge_overlapping_ranges_groups range_start range_end (λ e, from (r e)) (λ e, to (r e)) files) as (gs&Egs&Hperm&_&Hsort&_).
  { intros e He. destruct (Hids e He) as [f Hf]. unfold range_start, range_end, r. rewrite Hf. cbn. split_and!; [done..|]. by apply (Hok e He f Hf). }
  rewrite Hg in Egs. injection Egs as <-.
  assert (Hin : ∀ e, e ∈ files → ∃ i g, groups !! i = Some g ∧ e ∈ g).
  { intros e. rewrite <-Hperm, list_elem_of_concat. intros (g&Hg'&He). apply list_elem_of_lookup_1 in Hg' as [i Hi]. by exists i, g. }
  intros ra rb (a&f&Ha&_&Ef&->)%data_ranges_elem (b&f'&Hb&_&Ef'&->)%data_ranges_elem.
  replace (row_range a f) with (r a) by (unfold r; by rewrite Ef). replace (row_range b f') with (r b) by (unfold r; by rewrite Ef').
  destruct (Hin a Ha) as (i&ga&Hi&Hga), (Hin b Hb) as (j&gb&Hj&Hgb). destruct (lt_eq_lt_dec i j) as [[Hij| ->]|Hij].
  - right. left. by apply (sorted_lookup _ _ _ _ _ _ Hsort Hij Hi Hj).
  - left. assert (gb = ga) as -> by congruence. rewrite Forall_forall in Hall. specialize (Hall ga (list_elem_of_lookup_2 _ _ _ Hi)). cbn beta in Hall.
    apply bind_Ok in Hall as ([]&Es&Hall); [|done]. destruct (all_ranges_same _ _ _ Es a b Hga Hgb) as [H1 H2]. unfold range_start, range_end in H1, H2. rewrite Ef, Ef' in H1, H2.
    unfold r. rewrite Ef, Ef'. cbn. injection H1 as ->. injection H2 as H2. unfold row_range in *. cbn in H2. by rewrite H2.
  - right. right. by apply (sorted_lookup _ _ _ _ _ _ Hsort Hij Hj Hi).
Qed.

Lemma ranges_ok : Forall range_ok (data_ranges files).
Proof. apply Forall_forall. intros r (e&f&He&_&Hf&->)%data_ranges_elem. rewrite Forall_forall in Hok. by apply Hok. Qed.

(** A dedicated file lies in a data file. *)
Lemma dedicated_covered dedicated e f : aligned files → CheckDedicatedFileRowIdRangeConflicts files dedicated = Ok () → e ∈ dedicated →
  first_row_id e = Some f → range_ok (row_range e f) → ∃ r, r ∈ data_ranges files ∧ from r ≤ f ∧ to (row_range e f) ≤ to r.
Proof.
  intros Hal Hc He Hf Hr. unfold CheckDedicatedFileRowIdRangeConflicts in Hc. destruct dedicated as [|x xs]; [by apply elem_of_nil in He|].
  unfold RowRangeIndex.Create in Hc. cbn [mbind Result_bind] in Hc. apply foldR_unit in Hc. rewrite Forall_forall in Hc. specialize (Hc e He).
  unfold check_dedicated in Hc. rewrite Hf in Hc. destruct (SortAndMergeOverlap_spec (data_ranges files) false ranges_ok) as (H1&H2&_).
  pose proof Hr as (_&Hle&_). rewrite (RowRangeIndex.IntersectedRanges_spec _ H2 H1 _ _ Hle) in Hc. cbn [mbind Result_bind] in Hc.
  destruct (omap _ _) as [|i [|? ?]] eqn:Ei; [done| |done]. destruct (_ && _) eqn:Eb; [|done]. apply andb_prop in Eb as [E1%Z.leb_le E2%Z.leb_le].
  assert (Hi : i ∈ [i]) by by left. rewrite <-Ei in Hi. apply list_elem_of_omap in Hi as (r&Hin&Hi). exists r. split; [by apply (merged_exact _ _ ranges_ok)|].
  change f with (from (row_range e f)) at 1. revert Hi E1 E2. generalize (row_range e f) as d. intros d. unfold Intersection. cbn.
  destruct (_ <? _); [done|]. intros [= <-]. cbn. lia.
Qed.
End Compaction.

(** Every dedicated file lies in a data file. *)
Definition covered (files : list ManifestEntry.t) : Prop :=
  ∀ e f, e ∈ files → is_dedicated e = true → first_row_id e = Some f → ∃ r, r ∈ data_ranges files ∧ from r ≤ f ∧ to (row_range e f) ≤ to r.

Lemma range_checked merged : CheckRowIdRangeConflicts true CommitKind.Compact merged = Ok () →
  let es := filter (λ e, is_Some (first_row_id e)) merged in let data_files := filter (λ e, is_dedicated e = false) es in
  CheckDataFileRowIdRangeConflicts data_files = Ok () ∧ CheckDedicatedFileRowIdRangeConflicts data_files (filter (λ e, is_dedicated e = true) es) = Ok ().
Proof.
  unfold CheckRowIdRangeConflicts. rewrite decide_True by done. cbn [negb]. destruct (filter (λ e, is_Some (first_row_id e)) merged) as [|x xs]; [done|].
  by intros ([]&?&?)%bind_Ok.
Qed.
Lemma compaction_ranges merged : Forall (λ e, ∀ f, first_row_id e = Some f → range_ok (row_range e f)) merged →
  CheckRowIdRangeConflicts true CommitKind.Compact merged = Ok () → aligned merged ∧ covered merged.
Proof.
  intros Hok [Hdata Hded]%range_checked. set (es := filter _ merged) in Hdata, Hded. set (files := filter _ es) in Hdata, Hded.
  assert (Hin : ∀ e, e ∈ files ↔ is_dedicated e = false ∧ is_Some (first_row_id e) ∧ e ∈ merged) by (intros e; unfold files, es; by rewrite !list_elem_of_filter).
  assert (Hsub : ∀ r, r ∈ data_ranges merged ↔ r ∈ data_ranges files).
  { intros r. rewrite !data_ranges_elem. split; intros (e&f&He&Hd&Hf&->); exists e, f; split_and!; try done.
    - apply Hin. by rewrite Hf.
    - by apply Hin in He as (_&_&?). }
  rewrite Forall_forall in Hok. assert (Hids : Forall (λ e, is_Some (first_row_id e)) files) by (apply Forall_forall; by intros e (_&?&_)%Hin).
  assert (Hokf : Forall (λ e, ∀ f, first_row_id e = Some f → range_ok (row_range e f)) files) by (apply Forall_forall; intros e (_&_&?)%Hin; by apply Hok).
  pose proof (data_files_aligned files Hids Hokf Hdata) as Hal. split.
  - intros r r' Hr%Hsub Hr'%Hsub. by apply Hal.
  - intros e f He Hd Hf. destruct (dedicated_covered files Hokf _ e f Hal Hded) as (r&Hr&?); [|done|by apply Hok|exists r; by rewrite Hsub].
    unfold es. by rewrite !list_elem_of_filter, Hf.
Qed.

Lemma unpaired_live partitions log delta e : fresh_adds log delta → (∀ e, e ∈ delta → Partition e ∈ partitions) →
  e ∈ unpaired (live_in partitions log ++ delta) → is_add e → e ∈ live_in partitions (log ++ delta).
Proof.
  intros Hf Hp [Hk Hin]%list_elem_of_filter Ha. rewrite Forall_forall in Hk.
  assert (Hd : ∀ d, d ∈ delta → is_delete d → CreateIdentifier d ≠ CreateIdentifier e).
  { intros d Hd Hdel E. apply (add_not_delete d); [|done]. unfold is_add in *. rewrite (Hk d) by (done || apply elem_of_app; by right). done. }
  apply list_elem_of_filter. apply elem_of_app in Hin as [[Hpe (Hin&_&Hn)%live_spec]%list_elem_of_filter|Hin].
  - split; [done|]. apply live_spec. split_and!; [apply elem_of_app; by left|done|]. intros d [?|?]%elem_of_app; auto.
  - split; [by apply Hp|]. apply live_spec. split_and!; [apply elem_of_app; by right|done|]. intros d [Hlog|?]%elem_of_app Hdel; [|auto].
    intros E. apply (Hf e Hin Ha), deleted_elem. by exists d.
Qed.

Section Accepted.
Context (dv bu pk : bool) {KO : KeyOptions}.

(** The entries that a compaction checks are the live files of the partitions. *)
Lemma compaction_checked partitions log delta next cache cache' : once log → unrepeated delta → fresh_adds log delta →
  (∀ e, e ∈ delta → Partition e ∈ partitions) →
  CheckConflicts dv bu pk true (live_in partitions log) delta next CommitKind.Compact cache = (Ok (), cache') →
  ∃ merged, CheckRowIdRangeConflicts true CommitKind.Compact merged = Ok () ∧ ∀ e, e ∈ merged ↔ e ∈ live_in partitions (log ++ delta).
Proof.
  intros Ho Hu Hf Hp Hc. pose proof (accepted_log dv bu pk true _ _ _ _ _ _ _ Ho Hu Hf Hp Hc) as Hall.
  pose proof (accepted_once dv bu pk true _ _ _ _ _ _ _ Ho Hu Hc) as Hbd. apply CheckConflicts_inv in Hc as (_&m&Hm&Hdel&_&_&Hrange).
  rewrite MergeEntriesInto_once in Hm by done. injection Hm as <-. rewrite as_map_values in Hdel, Hrange. eexists. split; [exact Hrange|].
  intros e. split.
  - intros He. apply unpaired_live; [done..|]. destruct Hbd as [_ Hk]. rewrite Forall_forall in Hk.
    destruct (Hk e (unpaired_elem _ _ He)) as [?|?]; [done|]. by destruct (Hdel e He).
  - intros [Hpe Hl]%list_elem_of_filter. by apply accepted_unpaired.
Qed.

Lemma accepted_compaction partitions log delta next cache cache' : once log → unrepeated delta → fresh_adds log delta →
  (∀ e, e ∈ delta → Partition e ∈ partitions) → Forall (λ e, ∀ f, first_row_id e = Some f → range_ok (row_range e f)) (log ++ delta) →
  CheckConflicts dv bu pk true (live_in partitions log) delta next CommitKind.Compact cache = (Ok (), cache') →
  let files := live_in partitions (log ++ delta) in aligned files ∧ covered files.
Proof.
  intros Ho Hu Hf Hp Hok Hc. destruct (compaction_checked _ _ _ _ _ _ Ho Hu Hf Hp Hc) as (merged&Hrange&Hm). cbn zeta.
  assert (Hsub : ∀ r, r ∈ data_ranges (live_in partitions (log ++ delta)) ↔ r ∈ data_ranges merged).
  { intros r. split; apply data_ranges_sub; intros e; by rewrite Hm. }
  destruct (compaction_ranges merged) as [Hal Hcov]; [|done|].
  { rewrite Forall_forall in Hok |- *. intros e He%Hm. apply list_elem_of_filter in He as [_ (He&_)%live_spec]. by apply Hok. }
  split.
  - intros r r' Hr%Hsub Hr'%Hsub. by apply Hal.
  - intros e f He%Hm Hd Hfe. destruct (Hcov e f He Hd Hfe) as (r&Hr%Hsub&?). by exists r.
Qed.
End Accepted.

(** ** A commit *)

Lemma rows_Permutation es es' : es ≡ₚ es' → rows es = rows es'.
Proof. unfold rows. induction 1; cbn in *; lia. Qed.
Lemma rows_filter P `{!∀ e, Decision (P e)} es : Forall (λ e, 0 < row_count e) es → rows (filter P es) ≤ rows es.
Proof.
  unfold rows. induction 1 as [|e es He Hes IH]; [done|]. rewrite filter_cons. case_decide; cbn in *; lia.
Qed.

Lemma tracked_aligned o env id first next delta df live : (∀ ps, hash_order env ps ≡ₚ ps) → row_tracking_enabled o = true →
  track_rows o env id first delta = Ok (next, df) → 0 ≤ first → Forall (λ e, 0 < row_count e) delta → first + rows delta < 2 ^ 63 →
  (∀ a f, a ∈ delta → is_add a → is_dedicated a = false → first_row_id a = Some f → row_range a f ∈ data_ranges live) →
  aligned live → numbered first live → aligned (apply_delta live df) ∧ numbered next (apply_delta live df).
Proof.
  unfold track_rows. intros Hhash -> Ha Hfirst Hc Hmax Hpre.
  assert (Hp : (if row_tracking_partition_group_on_commit o then group_by_partition env delta else delta) ≡ₚ delta).
  { destruct (row_tracking_partition_group_on_commit o); [by apply group_Permutation|done]. }
  revert Hp Ha. generalize (if row_tracking_partition_group_on_commit o then group_by_partition env delta else delta) as es. intros es Hp Ha.
  apply (assigned_aligned id first next es df live); [done|by rewrite Hp|by rewrite (rows_Permutation _ _ Hp)|done|]. intros a f. rewrite Hp. apply Hpre.
Qed.

(** What the check of a commit that is not a compaction makes sure of. *)
Lemma accepted_existing dv bu pk {KO : KeyOptions} partitions log delta next kind cache cache' :
  kind ≠ CommitKind.Compact → CheckConflicts dv bu pk true (live_in partitions log) delta (Some next) kind cache = (Ok (), cache') →
  next + rows delta < 2 ^ 63 → Forall (λ e, 0 < row_count e) delta → aligned (MergeLiveEntries log) → numbered next (MergeLiveEntries log) →
  ∀ a f, a ∈ delta → is_add a → is_dedicated a = false → 0 ≤ f < next → first_row_id a = Some f → row_range a f ∈ data_ranges (MergeLiveEntries log).
Proof.
  intros Hk Hc Hmax Hcount Hal Hnum a f Ha Hadd Hd Hf Hfa. apply CheckConflicts_inv in Hc as (_&m&_&_&_&Hex&_). specialize (Hex Hk).
  assert (Hsub : ∀ r, r ∈ data_ranges (live_in partitions log) → r ∈ data_ranges (MergeLiveEntries log)).
  { intros r. apply data_ranges_sub. by intros e [_ ?]%list_elem_of_filter. }
  pose proof (rows_elem a delta Hcount Ha) as Hrows. pose proof Hcount as Hcount'. rewrite Forall_forall in Hcount'. specialize (Hcount' a Ha).
  pose proof (existence_checked (live_in partitions log)) as Hchk.
  assert (Hok : Forall range_ok (data_ranges (live_in partitions log))).
  { pose proof (numbered_ok next (MergeLiveEntries log) ltac:(lia) Hnum) as H. rewrite Forall_forall in H |- *. intros r Hr%Hsub. auto. }
  specialize (Hchk Hok ltac:(intros r r' Hr%Hsub Hr'%Hsub; by apply Hal) delta next a f Hex Ha Hadd Hfa ltac:(lia)).
  rewrite Hd in Hchk. apply Hsub, Hchk. rewrite row_range_id by lia. unfold Ranges.range_ok. cbn. lia.
Qed.
