(* ===== verification/CommitProofs.v ===== *)
(** * Commits: what they leave behind

    The manifests of a prepared snapshot hold the merged log of its base and the
    changes of the commit; publishing keeps every snapshot readable whatever
    fails; an attempt that loses the race removes what it has written. *)

From stdpp Require Import base list gmap strings relations.
From Stdlib Require Import ZArith Lia.
From S2P Require Import Prelude Rows DataFiles Predicates StateError Paths Manifests ManifestFiles ManifestFilesProofs ManifestMerger Snapshots ConflictDetection Scan Commit CommitTracking.
Import ManifestEntry ManifestFileMeta ManifestListReader FileStoreScan SnapshotManager ConflictDetection.
Local Open Scope Z_scope.
#[local] Arguments wp : simpl never.

Section Preparing.
Context (o : Options) (env : Environment) (Huuid : no_slash (uuid_ o)).
Abbreviation St := (@St Empty_set).
Abbreviation ToPath := (ToPath (root_ o)).
Abbreviation paths := (paths (root_ o)).
Abbreviation fresh := (fresh (root_ o) (uuid_ o)).
Abbreviation stored := (stored (root_ o) (SizeOf env) (partition_stats env)).
Abbreviation faulty := (faulty (fault env) (manifest_format o) (partition_stats env)).
Abbreviation extends := (extends (root_ o) (uuid_ o)).
Abbreviation manifests_of := (manifests_of (root_ o) (SizeOf env) (partition_stats env)).

(** ** The files that the guard deletes *)

Definition list_names (t : Tmp) : list string :=
  filter (λ n, n ≠ EmptyString) ([base_manifest_list t; delta_manifest_list t] ++ option_list (changelog_manifest_list t)).
Definition new_manifests (t : Tmp) : list ManifestFileMeta.t :=
  filter (λ m, FileName m ∉ FileName <$> merge_before_manifests t) (merge_after_manifests t).
Definition cleanup_paths (t : Tmp) : list string := (ToPath <$> list_names t) ++ paths (new_manifests t).

Lemma delete_list_paths name (st : St) :
  delete_list o env name st = foldl (λ st p, Delete (fault env) p st) st (ToPath <$> filter (λ n, n ≠ EmptyString) [name]).
Proof.
  unfold delete_list. rewrite filter_cons, filter_nil. destruct (String.eqb_spec name EmptyString); [by rewrite decide_False by tauto|].
  by rewrite decide_True.
Qed.
Lemma CleanUp_paths t (st : St) : CleanUpTmpManifests o env t st = foldl (λ st p, Delete (fault env) p st) st (cleanup_paths t).
Proof.
  unfold CleanUpTmpManifests, cleanup_paths. rewrite foldl_app. set (before := FileName <$> merge_before_manifests t).
  assert (Hm : ∀ ms (st : St), foldl (λ st m, if decide (FileName m ∈ before) then st else DeleteQuietly (fault env) (root_ o) (FileName m) st) st ms =
    foldl (λ st p, Delete (fault env) p st) st (paths (filter (λ m, FileName m ∉ before) ms))).
  { induction ms as [|m ms IH]; intros st'; [done|]. cbn [foldl]. rewrite filter_cons.
    destruct (decide (FileName m ∈ before)) as [Hin|Hn]; [rewrite decide_False by tauto|rewrite decide_True by done]; apply IH. }
  rewrite Hm. f_equal. clear Hm. unfold list_names. rewrite (filter_app _ [_; _]), fmap_app, foldl_app.
  change [base_manifest_list t; delta_manifest_list t] with ([base_manifest_list t] ++ [delta_manifest_list t]).
  rewrite filter_app, fmap_app, foldl_app, <-!delete_list_paths. by destruct (changelog_manifest_list t); [rewrite delete_list_paths|].
Qed.

(** ** What can go wrong *)

(** An operation on a file fails, or something that the environment is asked. *)
Definition trouble : Prop :=
  faulty ∨ (∃ f, is_ok (CreationTimeEpochMillis env f) = false) ∨ (∃ p, is_ok (PartitionVector env p) = false) ∨
  (∃ n, is_ok (LatestSchemaId env n) = false) ∨ (∃ n, is_ok (GenerateUuid env n) = false).
Lemma fault_trouble op n : is_ok (fault env op n) = false → trouble.
Proof. intros H. left. left. by exists op, n. Qed.
Lemma faults_trouble : faults (fault env) → trouble.
Proof. intros (op&n&H). by eapply fault_trouble. Qed.
Lemma some_fault_trouble : some_fault (fault env) → trouble.
Proof. intros (op&n&H). by eapply fault_trouble. Qed.
Lemma MergeInto_trouble e to : is_ok (PartitionEntry.MergeInto (CreationTimeEpochMillis env) e to) = false → trouble.
Proof.
  unfold PartitionEntry.MergeInto, PartitionEntry.FromManifestEntry. destruct (CreationTimeEpochMillis env (File e)) eqn:E; [done|].
  intros _. right. left. exists (File e). by rewrite E.
Qed.
Lemma MergeAll_trouble es : is_ok (PartitionEntry.MergeAll (CreationTimeEpochMillis env) es) = false → trouble.
Proof. intros (e&to&H)%foldR_fails. by eapply MergeInto_trouble. Qed.

(** ** While a snapshot is prepared *)

Context (st0 : St) (why : Prop).

(** The names of the path factory. *)
Definition own_path (p : string) : Prop :=
  ∃ k, 0 ≤ k ∧ (p = ToPath (manifest_name (uuid_ o) k) ∨ p = ToPath (manifest_list_name (uuid_ o) k) ∨ p = ToPath (ToPath (manifest_list_name (uuid_ o) k))).
Definition new_own (p : string) : Prop := st0.1 !! p = None ∧ own_path p.
Definition preparing (t : Tmp) (st : St) : Prop :=
  fresh st ∧ st0.1 ⊆ st.1 ∧ Forall new_own (cleanup_paths t) ∧ (∀ p, p ∉ cleanup_paths t → st.1 !! p = st0.1 !! p).
(** A failed step may have left a file that is not noted; [why] is what else can
    have failed. *)
Definition abandoned (s : PS) : Prop := (trouble ∨ why) ∧ st0.1 ⊆ s.2.1 ∧ Forall new_own (cleanup_paths s.1).

Lemma preparing_abandoned t st : trouble → preparing t st → abandoned (t, st).
Proof. intros ? (_&?&?&_). split_and!; [by left|done..]. Qed.
Lemma preparing_grows t st st' : faulty → preparing t st → st.1 ⊆ st'.1 → abandoned (t, st').
Proof. intros ? (_&?&?&_) ?. split_and!; [by left; left|by etrans|done]. Qed.
Lemma preparing_why t st : why → preparing t st → abandoned (t, st).
Proof. intros ? (_&?&?&_). split_and!; [by right|done..]. Qed.
Lemma CleanUp_abandoned t st : abandoned (t, st) → st0.1 ⊆ (CleanUpTmpManifests o env t st).1.
Proof. intros (_&Hg&Hn). rewrite CleanUp_paths. apply fold_Delete_grows; [done|]. eapply Forall_impl; [exact Hn|]. by intros p [? _]. Qed.

Lemma preparing_unchanged t st st' : preparing t st → unchanged st st' → preparing t st'.
Proof.
  destruct st as [fs l], st' as [fs' l']. intros (H1&H2&H3&H4) (E&E1&E2). cbn in *. subst fs'. split_and!; try done.
  eapply fresh_later; [exact H1|]. unfold later. lia.
Qed.

Lemma wp_files {A} (m : M St A) (Q : A → PS → Prop) (E : PS → Prop) t st :
  wp m (λ a st', Q a (t, st')) (λ st', E (t, st')) st → wp (Commit.with_files m) Q E (t, st).
Proof. unfold wp, Commit.with_files. cbn. by destruct (m st) as [[a|c e] st']. Qed.

Lemma stored_grows fs fs' m es : fs ⊆ fs' → stored fs m es → stored fs' m es.
Proof. intros Hs [H1 H2]. split; [by eapply lookup_weaken|done]. Qed.
Lemma all_stored_grows fs fs' ms cs : fs ⊆ fs' → Forall2 (stored fs) ms cs → Forall2 (stored fs') ms cs.
Proof. intros Hs H. eapply Forall2_impl; [exact H|]. intros ??. by apply stored_grows. Qed.

(** Noting a manifest list. *)
Definition sets_list (set_list : string → Tmp → Tmp) (t : Tmp) : Prop :=
  ∀ name, name ≠ EmptyString → ∀ p, p ∈ cleanup_paths (set_list name t) ↔ p = ToPath name ∨ p ∈ cleanup_paths t.

Lemma cleanup_elem t p : p ∈ cleanup_paths t ↔
  (∃ n, n ≠ EmptyString ∧ (n = base_manifest_list t ∨ n = delta_manifest_list t ∨ changelog_manifest_list t = Some n) ∧ p = ToPath n) ∨
  p ∈ paths (new_manifests t).
Proof.
  unfold cleanup_paths, list_names. rewrite elem_of_app, list_elem_of_fmap. setoid_rewrite list_elem_of_filter. setoid_rewrite elem_of_app.
  setoid_rewrite elem_of_cons. setoid_rewrite list_elem_of_singleton. assert (Hopt : ∀ n, n ∈ option_list (changelog_manifest_list t) ↔ changelog_manifest_list t = Some n).
  { intros n. destruct (changelog_manifest_list t); cbn; [rewrite list_elem_of_singleton|rewrite elem_of_nil]; naive_solver. }
  setoid_rewrite Hopt.
  split; (intros [(n&H)|H]; [left; exists n; tauto|by right]).
Qed.
Ltac solve_sets := intros E name Hn p; rewrite !cleanup_elem; unfold new_manifests; cbn; rewrite ?E;
  (split; [intros [(n&Hne&Hor&Hp)|?]; [destruct Hor as [?|[?|?]]; simplify_eq; eauto 10|eauto]|
           intros [->|[(n&Hne&Hor&Hp)|?]]; [left; exists name; eauto|left; exists n; destruct Hor as [?|[?|?]]; simplify_eq; eauto|eauto]]).
Lemma sets_base t : base_manifest_list t = EmptyString → sets_list set_base t.
Proof. solve_sets. Qed.
Lemma sets_delta t : delta_manifest_list t = EmptyString → sets_list set_delta t.
Proof. solve_sets. Qed.
Lemma sets_changelog t : changelog_manifest_list t = None → sets_list set_changelog t.
Proof. solve_sets. Qed.

Lemma write_list_wp set_list t st ms : preparing t st → sets_list set_list t →
  wp (WriteManifestList (fault env) (root_ o) (uuid_ o) (manifest_format o) (SizeOf env) ms)
     (λ r st', preparing (set_list r.1 t) st' ∧ st.1 ⊆ st'.1 ∧ st'.1 !! ToPath r.1 = Some (ManifestList ms) ∧
        ∃ k, 0 ≤ k ∧ ToPath r.1 = ToPath (manifest_list_name (uuid_ o) k))
     (λ st', abandoned (t, st')) st.
Proof.
  intros Hp Hset. pose proof Hp as (Hf&Hg&Hn&Ho). eapply wp_mono; [by apply (WriteManifestList_wp _ _ _ _ _ (partition_stats env))| |].
  - intros r st' (H1&H2&H3&H4&H5&H6). specialize (Hset r.1 H6).
    assert (Hst : st.1 ⊆ st'.1) by (rewrite H5; by apply insert_subseteq).
    split_and!; [split_and!|done|by rewrite H5, lookup_insert_eq|].
    + done.
    + by etrans.
    + rewrite Forall_forall in Hn |- *. intros p [->|Hin]%Hset; [|by apply Hn].
      split; [|exists (manifest_list_count_ st.2); split; [apply Hf|by auto]].
      apply eq_None_not_Some. intros [c Hc]. eapply lookup_weaken in Hc; [|exact Hg]. congruence.
    + intros p Hnp. rewrite Hset in Hnp. rewrite H5, lookup_insert_ne by (intros <-; tauto). apply Ho. tauto.
    + exists (manifest_list_count_ st.2). split; [apply Hf|done].
  - intros st' (Hfault&H1&H2&H3). eapply preparing_grows; [done..|]. apply map_subseteq_spec. intros p c Hc. rewrite H3; [done|].
    intros ->. destruct Hf as (_&_&_&Hl&_). unfold list_path in Hc. rewrite Hl in Hc; [done|reflexivity].
Qed.

(** Noting manifests, some of which were there before. *)
Lemma paths_elem ms p : p ∈ paths ms ↔ ∃ m, m ∈ ms ∧ p = ToPath (FileName m).
Proof. unfold ManifestFilesProofs.paths. rewrite list_elem_of_fmap. split; intros (m&?&?); by exists m. Qed.
Lemma after_cleanup ms t p : p ∈ cleanup_paths (add_after ms t) ↔
  p ∈ cleanup_paths t ∨ ∃ m, m ∈ ms ∧ (FileName m ∉ FileName <$> merge_before_manifests t) ∧ p = ToPath (FileName m).
Proof.
  rewrite !cleanup_elem. unfold new_manifests.
  cbn [base_manifest_list delta_manifest_list changelog_manifest_list merge_after_manifests merge_before_manifests add_after].
  rewrite filter_app, paths_app, elem_of_app, (paths_elem (filter _ ms)).
  setoid_rewrite list_elem_of_filter. split.
  - intros [?|[?|(m&[??]&?)]]; [tauto|tauto|]. right. exists m. tauto.
  - intros [[?|?]|(m&?&?&?)]; [tauto|tauto|]. right. right. exists m. tauto.
Qed.

Lemma preparing_after t st st' new ms : preparing t st → extends new st st' → new ⊆ ms → ms ⊆ merge_before_manifests t ++ new →
  Forall (λ m, is_Some (st0.1 !! ToPath (FileName m))) (merge_before_manifests t) → preparing (add_after ms t) st'.
Proof.
  intros (Hf&Hg&Hn&Ho) He Hsub1 Hsub2 Hold. pose proof (extends_new _ _ _ _ _ He) as Hnew. pose proof (extends_grows _ _ _ _ _ He) as Hgr.
  destruct He as (H1&_&H3&Hk). rewrite Forall_forall in Hk. rewrite Forall_forall in Hn. rewrite Forall_forall in Hold. rewrite Forall_forall in Hnew.
  assert (Hnone : ∀ p, st.1 !! p = None → st0.1 !! p = None).
  { intros p Hp. apply eq_None_not_Some. intros [c Hc]. eapply lookup_weaken in Hc; [|exact Hg]. congruence. }
  split_and!; [done|by etrans|..].
  - apply Forall_forall. intros p [Hp|(m&Hm&Hb&->)]%after_cleanup; [by apply Hn|].
    assert (Hm' : ToPath (FileName m) ∈ paths new); [|split; [by apply Hnone, Hnew|]; destruct (Hk _ Hm') as [_ (k&?&?)]; exists k; auto].
    apply paths_elem. exists m. split; [|done].
    apply Hsub2, elem_of_app in Hm as [Hm|Hm]; [|done]. destruct Hb. by apply list_elem_of_fmap_2.
  - intros p Hp. rewrite after_cleanup in Hp. rewrite H3, Ho; [done|tauto|]. intros (m&Hm&->)%paths_elem. apply Hp. right. exists m.
    split_and!; [by apply Hsub1| |done]. intros (m'&E&Hm')%list_elem_of_fmap. destruct (Hold m' Hm') as [c Hc]. rewrite <-E in Hc.
    assert (st.1 !! ToPath (FileName m) = None) by (apply Hnew, paths_elem; by exists m). rewrite Hnone in Hc; done.
Qed.

(** The manifests that a step has written, in what it returns. *)
Definition own_manifest (m : ManifestFileMeta.t) : Prop := ∃ k, 0 ≤ k ∧ ToPath (FileName m) = ToPath (manifest_name (uuid_ o) k).
Definition own_list (name : string) : Prop := ∃ k, 0 ≤ k ∧ ToPath name = ToPath (manifest_list_name (uuid_ o) k).
Lemma extends_own new (st st' : St) : extends new st st' → Forall own_manifest new.
Proof.
  intros (_&_&_&H). rewrite Forall_forall in H. apply Forall_forall. intros m Hm. destruct (H (ToPath (FileName m))) as [_ Hk]; [|done]. apply paths_elem. by exists m.
Qed.

Lemma write_entries_wp set_list t st entries : preparing t st → (∀ ms, sets_list set_list (add_after ms t)) → Forall known entries →
  Forall (λ m, is_Some (st0.1 !! ToPath (FileName m))) (merge_before_manifests t) →
  wp (write_entries o env entries set_list)
     (λ r s', ∃ ms cs, s'.1 = set_list r.1 (add_after ms t) ∧ preparing s'.1 s'.2 ∧ st.1 ⊆ s'.2.1 ∧ Forall2 (stored s'.2.1) ms cs ∧ concat cs = entries ∧
        Forall own_manifest ms ∧ own_list r.1 ∧ s'.2.1 !! ToPath r.1 = Some (ManifestList ms))
     abandoned (t, st).
Proof.
  intros Hp Hset Hk Hold. unfold write_entries. wp_step. apply wp_files.
  eapply wp_mono; [by apply WriteManifest_wp; [|apply Hp|]| |intros st' (?&_&Hg&_); by eapply preparing_grows].
  intros ms st' Hw. pose proof (wrote_extends _ _ _ _ _ _ _ _ Hw) as He. destruct Hw as (_&_&_&_&cs&Hst&Hcs).
  pose proof (preparing_after t st st' ms ms Hp He (λ _ H, H) (λ _ H, proj2 (elem_of_app _ _ _) (or_intror H)) Hold) as Hp'.
  pose proof (extends_grows _ _ _ _ _ He) as Hg.
  wp_step. unfold note. wp_step. cbn [fst snd]. wp_step. apply wp_files. eapply wp_mono; [by apply write_list_wp, Hset| |done].
  intros r st2 (Hp2&Hg2&Hl&Hown). wp_step. wp_step. cbn [fst snd]. wp_step. exists ms, cs. split_and!; try done.
  - by etrans.
  - by eapply all_stored_grows.
  - by eapply extends_own.
Qed.

Lemma wp_ask {A} (f : nat → Result A) t st (Q : A → PS → Prop) :
  preparing t st → (∀ n, is_ok (f n) = false → trouble) → (∀ a st', preparing t st' → st'.1 = st.1 → Q a (t, st')) → wp (ask f) Q abandoned (t, st).
Proof.
  intros Hp Ht HQ. assert (Hp' : preparing t (st.1, tick st.2)) by (by eapply preparing_unchanged).
  unfold wp, ask. cbn. destruct (f _) as [a|c e] eqn:E; [by apply HQ|]. apply preparing_abandoned; [|done]. apply (Ht (ticks st.2)). by rewrite E.
Qed.

(** ** A prepared snapshot *)

(** The manifests are stored and are new or among [previous]; the log is the
    old one, merged, and the changes. *)
Definition prepared (previous : list ManifestFileMeta.t) (log delta : list ManifestEntry.t) (snapshot : Snapshot.t) (t : Tmp) (st : St) : Prop :=
  preparing t st ∧ own_list (Snapshot.BaseManifestList snapshot) ∧ own_list (Snapshot.DeltaManifestList snapshot) ∧
  ∃ base dmetas bcs dcs, manifests_of st.1 snapshot base dmetas (bcs ++ dcs) ∧ rtc merge_step log (concat bcs) ∧ concat dcs = delta ∧
    Forall (λ m, m ∈ previous ∨ own_manifest m) (base ++ dmetas).

Lemma prepared_same previous log delta snapshot t st st' : prepared previous log delta snapshot t st → preparing t st' → st.1 ⊆ st'.1 →
  prepared previous log delta snapshot t st'.
Proof.
  intros (_&H1&H2&base&dm&bcs&dcs&(Hb&Hd&Hst)&Hr) Hp Hs. split_and!; [done..|]. exists base, dm, bcs, dcs. split; [|done].
  split_and!; [by eapply lookup_weaken..|]. by eapply all_stored_grows.
Qed.

Lemma no_tmp_preparing : fresh st0 → preparing no_tmp st0.
Proof. intros Hf. split_and!; [done|done|by constructor|done]. Qed.

(** The base of a commit: its manifests and its log. *)
Definition based_on (fs : gmap string (Content Empty_set)) (latest : option Snapshot.t) (previous : list ManifestFileMeta.t) (log : list ManifestEntry.t) : Prop :=
  match latest with
  | Some s => ∃ base delta cs, manifests_of fs s base delta cs ∧ previous = base ++ delta ∧ log = concat cs
  | None => previous = [] ∧ log = []
  end.

Lemma based_on_stored fs latest previous log : based_on fs latest previous log → ∃ cs, Forall2 (stored fs) previous cs ∧ log = concat cs.
Proof. destruct latest; [intros (base&delta&cs&(_&_&H)&->&->); by exists cs|]. intros [-> ->]. by exists []. Qed.

(** Reading the previous manifests and merging them into the base list. *)
Lemma write_base_wp latest previous log : fresh st0 → based_on st0.1 latest previous log → once log →
  wp (write_base o env latest)
     (λ r s', ∃ ms cs, s'.1 = set_base r.1 (add_after ms (set_before previous no_tmp)) ∧ preparing s'.1 s'.2 ∧
        Forall2 (stored s'.2.1) ms cs ∧ rtc merge_step log (concat cs) ∧ Forall (λ m, m ∈ previous ∨ own_manifest m) ms ∧ own_list r.1 ∧
        s'.2.1 !! ToPath r.1 = Some (ManifestList ms))
     abandoned (no_tmp, st0).
Proof.
  intros Hf Hb Ho. destruct (based_on_stored _ _ _ _ Hb) as (cs&Hst&->). pose proof (no_tmp_preparing Hf) as Hp. unfold write_base. wp_step.
  apply (wp_mono _ (λ ms s', ms = previous ∧ s'.1 = no_tmp ∧ unchanged st0 s'.2) _ (λ s', faults (fault env) ∧ s'.1 = no_tmp ∧ unchanged st0 s'.2)).
  { destruct latest as [s|]; [|destruct Hb as [-> _]; by wp_step]. destruct Hb as (base&delta&cs'&Hm&->&_). apply wp_files.
    eapply wp_mono; [by eapply ReadDataManifests_wp| |]; [intros ms st [-> ?]|intros st [? ?]]; done. }
  2: { intros [t st] (Hfault&E&Hu). cbn in E, Hu. subst t. eapply preparing_abandoned, preparing_unchanged; [by apply faults_trouble|exact Hp|done]. }
  intros prev [t st] (->&E&Hu). cbn in E, Hu. subst t. pose proof (preparing_unchanged _ _ _ Hp Hu) as Hp1.
  assert (Hold : Forall (λ m, is_Some (st0.1 !! ToPath (FileName m))) previous).
  { apply Forall_forall. intros m Hm. apply (stored_paths _ _ _ _ _ _ _ Hst). by apply (list_elem_of_fmap_2 (λ m, ToPath (FileName m))). }
  assert (Hp2 : preparing (set_before previous no_tmp) st).
  { destruct Hp1 as (H1&H2&H3&H4). split_and!; try done. }
  wp_step. unfold note. wp_step. cbn [fst snd]. wp_step. apply wp_files.
  assert (Hst' : Forall2 (stored st.1) previous cs) by by rewrite (proj1 Hu).
  eapply wp_mono; [by apply (Merge_wp _ _ _ _ _ _ _ previous cs); [|apply Hp2|..]| |intros st' (?&_&Hg&_); by eapply preparing_grows].
  intros ms st' (new&He&Hn1&Hn2&mcs&Hms&Hr). pose proof (preparing_after _ st st' new ms Hp2 He Hn1 Hn2 Hold) as Hp3.
  wp_step. wp_step. cbn [fst snd]. wp_step. apply wp_files. eapply wp_mono; [apply (write_list_wp set_base); [exact Hp3|by apply sets_base]| |done].
  intros r st2 (Hp4&Hg&Hl&Hown). wp_step. wp_step. cbn [fst snd]. wp_step. exists ms, mcs. split_and!; try done.
  - by eapply all_stored_grows.
  - pose proof (extends_own _ _ _ He) as Hnew. rewrite Forall_forall in Hnew |- *. intros m [Hm|Hm]%Hn2%elem_of_app; [by left|right; by apply Hnew].
Qed.

(** The greatest sequence number that the manifests add. *)
Lemma MaxSequenceNumber_wp ms cs found log (st : St) : Forall2 (stored st.1) ms cs →
  wp (MaxSequenceNumber o env ms found)
     (λ r st', (Forall seq_ok (concat cs) → bounded found log → bounded r (log ++ concat cs)) ∧ unchanged st st')
     (λ st', faults (fault env) ∧ unchanged st st') st.
Proof.
  intros Hst. revert found log st Hst. induction ms as [|m ms IH] in cs |- *; intros found log st Hst; cbn [MaxSequenceNumber].
  { apply Forall2_nil_inv_l in Hst as ->. wp_step. split; [by rewrite app_nil_r|done]. }
  apply Forall2_cons_inv_l in Hst as (es&cs'&Hm&Hst&->). wp_step.
  eapply ReadManifest_unchanged; [apply Hm| |done]. intros st1 Hu.
  assert (Hst1 : Forall2 (stored st1.1) ms cs') by by rewrite (proj1 Hu).
  eapply wp_mono; [by apply (IH cs' _ (log ++ es))| |].
  - intros r st2 [Hr Hu2]. split; [|by etrans]. cbn [concat]. intros [He Hok]%Forall_app Hb. rewrite (assoc_L app). apply Hr; [done|].
    pose proof (bounded_app _ _ _ _ Hb (MaxSequenceNumberFromFiles_spec es He)) as Hb1.
    by destruct found, (SequenceSnapshotProperties.MaxSequenceNumberFromFiles es).
  - intros st2 [? Hu2]. split; [done|by etrans].
Qed.

(** The properties that a commit records, for a log of [cs] and changes [df]. *)
Definition recording (latest : option Snapshot.t) (log df : list ManifestEntry.t) (ps : Properties.t) : Prop :=
  sequence_init_snapshot o = true → Forall seq_ok (log ++ df) → (∀ s, latest = Some s → records_at_least s (MergeLiveEntries log)) →
  ∀ new, Snapshot.Properties new = match ps with [] => None | _ => Some ps end → records new (apply_delta (MergeLiveEntries log) df).

Lemma sequence_properties_wp latest cs df properties t st : preparing t st → Forall2 (stored st.1) (merge_before_manifests t) cs →
  (latest = None → concat cs = []) → (is_ok (SequenceSnapshotProperties.MaxSequenceNumber latest) = false → why) →
  wp (sequence_properties o env latest df properties)
     (λ ps s', s'.1 = t ∧ preparing t s'.2 ∧ s'.2.1 = st.1 ∧ recording latest (concat cs) df ps) abandoned (t, st).
Proof.
  intros Hp Hst Hnone Hwhy. unfold sequence_properties, recording. destruct (sequence_init_snapshot o); cbn [negb]; [|wp_step; by split_and!]. wp_step.
  apply wp_of_result; [|intros H; by apply preparing_why; [apply Hwhy|]]. intros recorded Hrec. wp_step. wp_step. cbn [fst].
  assert (Hmerge : ∀ r, bounded r (MergeLiveEntries (concat cs)) → Forall seq_ok df →
    ∀ new, Snapshot.Properties new = (let ps := SequenceSnapshotProperties.MergeMaxSequenceNumber properties r df in match ps with [] => None | _ => Some ps end) →
    records new (apply_delta (MergeLiveEntries (concat cs)) df)).
  { intros r Hr Hdf new Hnew. eapply records_sub; [apply applied_sub|by eapply merged_records]. }
  destruct recorded as [n|].
  { wp_step. wp_step. split_and!; [done..|]. intros _ [_ Hdf]%Forall_app Hl. apply Hmerge; [|done].
    destruct latest as [s|]; [|done]. eapply recorded_bounded; [by apply Hl|exact Hrec]. }
  destruct latest as [s|].
  2: { wp_step. wp_step. split_and!; [done..|]. intros _ [_ Hdf]%Forall_app _. apply Hmerge; [|done]. rewrite (Hnone eq_refl). by intros e ?%elem_of_nil. }
  wp_step. apply wp_files. eapply wp_mono; [by apply (MaxSequenceNumber_wp _ cs None [])| |].
  - intros r st' [Hr Hu]. wp_step. split_and!; [done|by eapply preparing_unchanged|by destruct Hu|]. intros _ [Hcs Hdf]%Forall_app _. apply Hmerge; [|done].
    eapply bounded_sub; [|apply Hr; [done|by intros e ?%elem_of_nil]]. by intros e (?&_)%live_spec.
  - intros st' [Hf Hu]. eapply preparing_abandoned; [by apply faults_trouble|by eapply preparing_unchanged].
Qed.

(** The files that a commit adds: what it was given, with their snapshot and row
    ids; and the snapshot that records them. *)
Definition prepares (latest : option Snapshot.t) (log delta : list ManifestEntry.t) (new : Snapshot.t) (df : list ManifestEntry.t) : Prop :=
  Snapshot.Id new = next_id latest ∧
  (∃ nr, track_rows o env (next_id latest) (first_row_id_start latest) delta = Ok (nr, df) ∧ Snapshot.NextRowId new = Some nr) ∧
  (sequence_init_snapshot o = true → Forall seq_ok (log ++ df) → (∀ s, latest = Some s → records_at_least s (MergeLiveEntries log)) →
   records new (apply_delta (MergeLiveEntries log) df)).

(** The rest of the manifests, and what else the snapshot records. *)
Lemma PrepareSnapshot_wp delta changelog identifier watermark properties kind latest previous log :
  fresh st0 → based_on st0.1 latest previous log → once log → Forall known delta → Forall known changelog →
  (is_ok (track_rows o env (next_id latest) (first_row_id_start latest) delta) = false → why) →
  (is_ok (SequenceSnapshotProperties.MaxSequenceNumber latest) = false → why) →
  wp (PrepareSnapshot o env delta changelog identifier watermark properties kind latest)
     (λ r s', ∃ df, prepares latest log delta r.1 df ∧ prepared previous log df r.1 s'.1 s'.2) abandoned (no_tmp, st0).
Proof.
  intros Hf Hb Ho Hkd Hkc Hrows Hseq. unfold PrepareSnapshot. wp_step. eapply wp_mono; [by apply write_base_wp| |done].
  intros base_list [t st] (ms&cs&Et&Hp&Hst&Hr&Hown&Hlist&Hbl). cbn in Et, Hp, Hst, Hbl.
  destruct (based_on_stored _ _ _ _ Hb) as (pcs&Hps&Elog).
  assert (Hold : Forall (λ m, is_Some (st0.1 !! ToPath (FileName m))) previous).
  { apply Forall_forall. intros m Hm. apply (stored_paths _ _ _ _ _ _ _ Hps). by apply (list_elem_of_fmap_2 (λ m, ToPath (FileName m))). }
  wp_step. apply wp_of_result; [|intros ?; apply preparing_why; auto]. intros [nr df] Hrt.
  assert (Hkdf : Forall known df) by (by eapply tracked_known).
  wp_step. apply wp_of_result; [|intros Hm%MergeAll_trouble; by apply preparing_abandoned]. intros pes _. wp_step.
  eapply wp_mono; [apply write_entries_wp; [exact Hp|intros; apply sets_delta; by rewrite Et|done|by rewrite Et]| |done].
  intros delta_list [t1 st1] (dms&dcs&Et1&Hp1&Hg1&Hdst&Hdcs&Hdown&Hdl&Hdlist). cbn in Et1, Hp1, Hg1, Hdst, Hdlist.
  assert (Hprep : ∀ t' st' sn, preparing t' st' → st1.1 ⊆ st'.1 → Snapshot.BaseManifestList sn = base_list.1 → Snapshot.DeltaManifestList sn = delta_list.1 →
    prepared previous log df sn t' st').
  { intros t' st' sn Hp' Hg' E1 E2. split_and!; [done|by rewrite E1|by rewrite E2|]. exists ms, dms, cs, dcs. unfold Scan.manifests_of. rewrite E1, E2.
    assert (Hg : st.1 ⊆ st'.1) by by etrans. split_and!; try done.
    - exact (lookup_weaken _ _ _ _ Hbl Hg).
    - exact (lookup_weaken _ _ _ _ Hdlist Hg').
    - apply Forall2_app; [exact (all_stored_grows _ _ _ _ Hg Hst)|exact (all_stored_grows _ _ _ _ Hg' Hdst)].
    - apply Forall_app. split; [done|]. eapply Forall_impl; [exact Hdown|]. by right. }
  wp_step. apply (wp_mono _ (λ _ s', merge_before_manifests s'.1 = previous ∧ preparing s'.1 s'.2 ∧ st1.1 ⊆ s'.2.1) _ abandoned); [| |done].
  { destruct changelog as [|c changelog]; [wp_step; split_and!; [by subst|done..]|]. wp_step.
    eapply wp_mono; [apply write_entries_wp; [exact Hp1|intros; apply sets_changelog; by rewrite Et1, Et|done|by rewrite Et1, Et]| |done].
    intros r s' (?&?&Et2&Hp2&Hg2&_). cbn in Et2. wp_step. split_and!; [by rewrite Et2, Et1, Et|done..]. }
  intros changelog_list [t2 st2] (Et2&Hp2&Hg2). cbn in Et2, Hp2, Hg2.
  wp_step. eapply wp_ask; [exact Hp2|intros n ?; right; right; right; left; by exists n|]. intros schema_id st3 Hp3 E3.
  wp_step. eapply wp_mono; [apply (sequence_properties_wp _ pcs); [exact Hp3| | |done]| |done].
  { rewrite Et2, E3. eapply all_stored_grows; [|exact Hps]. etrans; [apply Hp2|done]. }
  { intros ->. destruct Hb as [_ ->]. done. }
  intros ps [t3 st3'] (Et3&Hp3'&E3'&Hrec). cbn in Et3, Hp3', E3'. subst t3.
  wp_step. eapply wp_ask; [exact Hp3'|intros n ?; right; right; right; right; by exists n|]. intros uuid st4 Hp4 E4.
  wp_step. eapply wp_ask; [exact Hp4|done|]. intros now st5 Hp5 E5. wp_step. cbn [fst snd]. exists df. split.
  - split_and!; [done|by exists nr|]. intros H1 H2 H3. subst log. by apply Hrec.
  - apply Hprep; [done| |done|done]. by rewrite E5, E4, E3', E3.
Qed.

Lemma PrepareRollback_wp latest target latest_entries delta : fresh st0 → Forall known latest_entries → Forall known delta →
  wp (PrepareRollback o env latest target latest_entries delta)
     (λ r s', prepared [] latest_entries delta r.1 s'.1 s'.2 ∧ Snapshot.Id r.1 = Snapshot.Id latest + 1 ∧
        Snapshot.NextRowId r.1 = max_option (Snapshot.NextRowId latest) (Snapshot.NextRowId target)) abandoned (no_tmp, st0).
Proof.
  intros Hf Hkl Hkd. pose proof (no_tmp_preparing Hf) as Hp0. unfold PrepareRollback. wp_step.
  eapply wp_mono; [apply write_entries_wp; [exact Hp0|intros; by apply sets_base|done|by constructor]| |done].
  intros base_list [t st] (ms&cs&Et&Hp&_&Hst&Hcs&Hown&Hlist&Hbl). cbn in Et, Hp, Hst, Hbl. wp_step.
  eapply wp_mono; [apply write_entries_wp; [exact Hp|intros; apply sets_delta; by rewrite Et|done|by rewrite Et]| |done].
  intros delta_list [t1 st1] (dms&dcs&Et1&Hp1&Hg1&Hdst&Hdcs&Hdown&Hdl&Hdlist). cbn in Et1, Hp1, Hg1, Hdst, Hdlist.
  wp_step. eapply wp_ask; [exact Hp1|intros n ?; right; right; right; right; by exists n|]. intros uuid st2 Hp2 E2. wp_step. eapply wp_ask; [exact Hp2|done|]. intros now st3 Hp3 E3.
  wp_step. apply wp_of_result; [|intros Hm%MergeAll_trouble; by apply preparing_abandoned]. intros pes _. wp_step. cbn [fst snd]. split; [|by split].
  assert (Hg3 : st1.1 ⊆ st3.1) by by rewrite E3, E2.
  split_and!; [done..|]. exists ms, dms, cs, dcs. unfold Scan.manifests_of. split_and!; cbn; try done.
  - exact (lookup_weaken _ _ _ _ (lookup_weaken _ _ _ _ Hbl Hg1) Hg3).
  - exact (lookup_weaken _ _ _ _ Hdlist Hg3).
  - apply Forall2_app; [|exact (all_stored_grows _ _ _ _ Hg3 Hdst)].
    exact (all_stored_grows _ _ _ _ Hg3 (all_stored_grows _ _ _ _ Hg1 Hst)).
  - by rewrite Hcs.
  - apply Forall_app. split; (eapply Forall_impl; [eassumption|]; by right).
Qed.
End Preparing.

(** ** Methods that only read *)

Section ReadOnly.
Context (fault : Op → nat → Result unit).
Definition same (w w' : World) : Prop := w'.1 = w.1 ∧ unchanged w.2 w'.2.
Definition reads_only {A} (m : M World A) : Prop := ∀ w, same w (m w).2.

Lemma same_trans w1 w2 w3 : same w1 w2 → same w2 w3 → same w1 w3.
Proof. intros [E1 U1] [E2 U2]. split; [congruence|by etrans]. Qed.
Lemma wp_reads {A} (m : M World A) Q E w : reads_only m → wp m Q E w → wp m (λ a w', Q a w' ∧ same w w') (λ w', E w' ∧ same w w') w.
Proof. intros Hr. specialize (Hr w). unfold wp. destruct (m w) as [[a|c e] w']; done. Qed.
Lemma wp_only_reads {A} (m : M World A) w : reads_only m → wp m (λ _ w', same w w') (λ w', same w w') w.
Proof. intros Hr. specialize (Hr w). unfold wp. by destruct (m w) as [[a|c e] w']. Qed.

Lemma reads_ret {A} (a : A) : reads_only (mret a).
Proof. by intros w. Qed.
Lemma reads_fail {A} c e : reads_only (fail (A := A) c e).
Proof. by intros w. Qed.
Lemma reads_gets {A} (f : World → A) : reads_only (gets f).
Proof. by intros w. Qed.
Lemma reads_only_bind {A B} (m : M World A) (k : A → M World B) : reads_only m → (∀ a, reads_only (k a)) → reads_only (m ≫= k).
Proof.
  intros Hm Hk w. unfold mbind, M_bind. specialize (Hm w). destruct (m w) as [[a|c e] w']; [|done].
  eapply same_trans; [exact Hm|apply Hk].
Qed.
Lemma reads_sio op : reads_only (sio fault op).
Proof. by intros w. Qed.
Lemma reads_hint n hint : reads_only (ReadHint_loop fault n hint).
Proof.
  induction n as [|n IH]; intros w; cbn [ReadHint_loop]; [done|]. pose proof (reads_sio OpRead w) as H. destruct (sio fault OpRead w) as [[u|c e] w']; cbn in H.
  - case_match; [exact H|]. eapply same_trans; [exact H|apply IH].
  - eapply same_trans; [exact H|apply IH].
Qed.
Create HintDb reads.
Hint Resolve reads_ret reads_fail reads_gets reads_only_bind reads_sio reads_hint : reads.

Lemma reads_Exists id : reads_only (Exists fault id).
Proof. unfold Exists. auto with reads. Qed.
Lemma reads_LoadSnapshot id : reads_only (LoadSnapshot fault id).
Proof.
  unfold LoadSnapshot. apply reads_only_bind; [apply reads_sio|]. intros _. apply reads_only_bind; [apply reads_gets|].
  intros [s|]; auto with reads.
Qed.
Lemma reads_FindByListFiles f : reads_only (FindByListFiles fault f).
Proof.
  unfold FindByListFiles, ListVersions. apply reads_only_bind; [auto with reads|]. intros [|v vs]; auto with reads.
Qed.
Hint Resolve reads_Exists reads_LoadSnapshot reads_FindByListFiles : reads.
Lemma reads_LatestSnapshot : reads_only (LatestSnapshot fault).
Proof.
  unfold LatestSnapshot, FindLatest, ReadHint. apply reads_only_bind.
  - apply reads_only_bind; [auto with reads|]. intros [id|]; [|auto with reads]. destruct (0 <? id); [|auto with reads].
    apply reads_only_bind; [auto with reads|]. intros []; auto with reads.
  - intros [id|]; auto with reads.
Qed.
End ReadOnly.
