(* ===== verification/CommitTable.v ===== *)
(** * Commits: the table

    The invariant of a table that several writers share, what a writer relies on
    of the others, and what its commits do: the snapshots stay readable whatever
    fails, and a commit that succeeds has applied its changes to the snapshot
    before it. *)

From stdpp Require Import base list gmap strings relations.
From Stdlib Require Import ZArith Lia.
From S2P Require Import Prelude Rows DataFiles Predicates StateError Paths Manifests ManifestFiles ManifestFilesProofs ManifestMerger Snapshots ConflictDetection Scan Commit CommitProofs.
Import ManifestEntry ManifestFileMeta ManifestListReader FileStoreScan SnapshotManager ConflictDetection.
Local Open Scope Z_scope.
#[local] Arguments wp : simpl never.

Section Table.
Context (o : Options) (env : Environment) (Huuid : no_slash (uuid_ o)).
Abbreviation St := (@St Empty_set).
Abbreviation ToPath := (ToPath (root_ o)).
Abbreviation paths := (paths (root_ o)).
Abbreviation fresh := (fresh (root_ o) (uuid_ o)).
Abbreviation stored := (stored (root_ o) (SizeOf env) (partition_stats env)).
Abbreviation manifests_of := (manifests_of (root_ o) (SizeOf env) (partition_stats env)).
Abbreviation own_path := (own_path o).
Abbreviation trouble := (trouble o env).
Abbreviation readable := (readable (root_ o) (SizeOf env) (partition_stats env)).

(** ** The invariant *)

(** The snapshots are numbered one after the other, and the manifests of each
    are there and add and delete every file once at most. *)
Definition table_ok (w : Shared) : Prop :=
  dir_ok w.1 ∧ ∀ id s, snapshots w.1 !! id = Some s → Snapshot.Id s = id ∧ ∃ log, readable w.2 s log ∧ once log.

Definition refs (s : Snapshot.t) (base delta : list ManifestFileMeta.t) (p : string) : Prop :=
  p = ToPath (Snapshot.BaseManifestList s) ∨ p = ToPath (Snapshot.DeltaManifestList s) ∨ p ∈ paths (base ++ delta).
Lemma manifests_keep fs fs' s base delta cs : (∀ p, refs s base delta p → fs' !! p = fs !! p) → manifests_of fs s base delta cs → manifests_of fs' s base delta cs.
Proof.
  intros Hp (Hb&Hd&Hst). split_and!; [rewrite Hp by (by left); done|rewrite Hp by (right; by left); done|].
  assert (Hm : Forall (λ m, fs' !! ToPath (FileName m) = fs !! ToPath (FileName m)) (base ++ delta)).
  { apply Forall_forall. intros m Hm. apply Hp. right. right. apply paths_elem. by exists m. }
  clear -Hst Hm. induction Hst as [|m es ms cs [H1 H2] _ IH]; [constructor|]. apply Forall_cons in Hm as [Hm Hms].
  constructor; [split; [by rewrite Hm|done]|by apply IH].
Qed.
Lemma manifests_grow fs fs' s base delta cs : fs ⊆ fs' → manifests_of fs s base delta cs → manifests_of fs' s base delta cs.
Proof. intros Hs (Hb&Hd&Hst). split_and!; [exact (lookup_weaken _ _ _ _ Hb Hs)|exact (lookup_weaken _ _ _ _ Hd Hs)|by eapply all_stored_grows]. Qed.
Lemma manifests_unique fs s base delta cs base' delta' cs' :
  manifests_of fs s base delta cs → manifests_of fs s base' delta' cs' → base = base' ∧ delta = delta' ∧ cs = cs'.
Proof.
  intros (Hb&Hd&Hst) (Hb'&Hd'&Hst'). assert (base = base') as <- by congruence. assert (delta = delta') as <- by congruence. split_and!; [done..|].
  clear -Hst Hst'. revert cs' Hst'. induction Hst as [|m es ms cs [H _] _ IH]; intros cs' Hst'; [by inversion Hst'|].
  apply Forall2_cons_inv_l in Hst' as (es'&cs2&[H' _]&Hst2&->). f_equal; [congruence|by apply IH].
Qed.
Lemma readable_unique fs s log log' : readable fs s log → readable fs s log' → log = log'.
Proof. intros (b&d&cs&H&->) (b'&d'&cs'&H'&->). by destruct (manifests_unique _ _ _ _ _ _ _ _ H H') as (_&_&->). Qed.

(** Every snapshot is still there, with its manifests. *)
Definition preserves (w w' : Shared) : Prop :=
  ∀ id s, snapshots w.1 !! id = Some s → snapshots w'.1 !! id = Some s ∧ ∀ b d cs, manifests_of w.2 s b d cs → manifests_of w'.2 s b d cs.
#[global] Instance preserves_preorder : PreOrder preserves.
Proof.
  split; [intros w id s H; by split|]. intros w1 w2 w3 H12 H23 id s H. destruct (H12 id s H) as [H2 M2]. destruct (H23 id s H2) as [H3 M3].
  split; [done|]. intros b d cs Hm. by apply M3, M2.
Qed.
Lemma preserves_readable w w' id s log : preserves w w' → snapshots w.1 !! id = Some s → readable w.2 s log → readable w'.2 s log.
Proof. intros Hp Hs (b&d&cs&H&->). exists b, d, cs. split; [|done]. by apply (Hp id s Hs). Qed.
Lemma grows_preserves d fs fs' : fs ⊆ fs' → preserves (d, fs) (d, fs').
Proof. intros Hs id s H. split; [done|]. intros b de cs. by apply manifests_grow. Qed.
Lemma preserves_table d fs fs' : preserves (d, fs) (d, fs') → table_ok (d, fs) → table_ok (d, fs').
Proof.
  intros Hp [Hd Ht]. split; [done|]. intros id s Hs. destruct (Ht id s Hs) as (E&log&Hl&Ho). split; [done|]. exists log. split; [|done].
  exact (preserves_readable _ _ _ _ _ Hp Hs Hl).
Qed.

(** ** The other writers *)

(** Other writers change files of their own, unless a snapshot refers to them. *)
Context (theirs : string → Prop).
Context (Htheirs : ∀ p, theirs p → ¬ own_path p).

Definition referenced (w : Shared) (p : string) : Prop := ∃ id s b d cs, snapshots w.1 !! id = Some s ∧ manifests_of w.2 s b d cs ∧ refs s b d p.
Definition kept (w : Shared) (p : string) : Prop := ¬ theirs p ∨ referenced w p.
(** Snapshots are added one after the other; their files are of the others or
    known from older snapshots. *)
Definition respects (w w' : Shared) : Prop :=
  snapshots w.1 ⊆ snapshots w'.1 ∧ (∀ p, kept w p → w'.2 !! p = w.2 !! p) ∧
  (snapshots w.1 = ∅ → snapshots w'.1 = ∅ ∨ is_Some (snapshots w'.1 !! 1)) ∧ (∀ p, ¬ theirs p → referenced w' p → referenced w p).
Lemma respects_preserves w w' : respects w w' → preserves w w'.
Proof.
  intros (Hs&Hk&_) id s H. split; [by eapply lookup_weaken|]. intros b d cs Hm. eapply manifests_keep; [|exact Hm].
  intros p Hp. apply Hk. right. by exists id, s, b, d, cs.
Qed.

(** The files that a commit adds are its own: no other writer deletes them or,
    without the check for conflicts, knows them. The partitions have the fields
    of the table. *)
Context (delta : list ManifestEntry.t) (checked : bool) (partition_ok : InternalRow → Prop).
Definition foreign (w : Shared) : Prop :=
  ∀ id s log, snapshots w.1 !! id = Some s → readable w.2 s log →
    Forall (λ e, partition_ok (Partition e)) log ∧
    ∀ e, e ∈ delta → is_add e → (CreateIdentifier e ∉ deleted_identifiers log) ∧ (checked = false → CreateIdentifier e ∉ CreateIdentifier <$> log).
Definition good (w : Shared) : Prop := table_ok w ∧ foreign w.
Definition others_ok : Prop := ∀ n w, good w → good (others env n w) ∧ respects w (others env n w).

Lemma preserves_good d fs fs' : preserves (d, fs) (d, fs') → good (d, fs) → good (d, fs').
Proof.
  intros Hp [Ht Hf]. split; [by eapply preserves_table|]. intros id s log Hs Hl. destruct (proj2 Ht id s Hs) as (_&log0&Hl0&_).
  assert (log = log0) as ->; [|by eapply Hf].
  eapply readable_unique; [exact Hl|]. exact (preserves_readable _ _ _ _ _ Hp Hs Hl0).
Qed.

Lemma kept_respects w w' p : respects w w' → kept w p → kept w' p.
Proof.
  intros Hr [?|(id&s&b&d&cs&Hs&Hm&Hp)]; [by left|]. right. destruct (respects_preserves _ _ Hr id s Hs) as [Hs' Hm']. exists id, s, b, d, cs. auto.
Qed.
#[global] Instance respects_preorder : PreOrder respects.
Proof.
  split; [intros w; split_and!; auto|]. intros w1 w2 w3 H12 H23. pose proof H12 as (S1&K1&E1&R1). pose proof H23 as (S2&K2&E2&R2). split_and!; [..|by auto].
  - by etrans.
  - intros p Hp. rewrite K2, K1; [done|done|by eapply kept_respects].
  - intros He. destruct (E1 He) as [He'|[s Hs]]; [by apply E2|]. right. exists s. by eapply lookup_weaken.
Qed.
Definition shared (w : World) : Shared := (w.1, w.2.1).
(** Nothing but the clock and what others do. *)
Definition moved (w w' : World) : Prop :=
  respects (shared w) (shared w') ∧ manifest_file_count_ w'.2.2 = manifest_file_count_ w.2.2 ∧ manifest_list_count_ w'.2.2 = manifest_list_count_ w.2.2.
#[global] Instance moved_preorder : PreOrder moved.
Proof. split; [intros w; by split_and!|]. intros w1 w2 w3 (?&?&?) (?&?&?). split_and!; [by etrans|congruence|congruence]. Qed.
Lemma same_moved w w' : same w w' → moved w w'.
Proof. destruct w as [d [fs l]], w' as [d' [fs' l']]. intros (E&E1&E2&E3). cbn in *. subst. by split_and!. Qed.
Lemma same_good w w' : same w w' → good (shared w) → good (shared w').
Proof. destruct w as [d [fs l]], w' as [d' [fs' l']]. intros (E&E1&E2&E3). cbn in *. by subst. Qed.

Lemma own_kept w p : own_path p → kept w p.
Proof. intros Ho. left. intros Ht. by apply (Htheirs p). Qed.
Lemma moved_fresh w w' : moved w w' → fresh w.2 → fresh w'.2.
Proof.
  destruct w as [d [fs l]], w' as [d' [fs' l']]. intros ((_&Hk&_)&E1&E2) (H0&H1&H2&H3&H4). cbn in *. unfold ManifestFilesProofs.fresh. cbn. rewrite E1, E2.
  split_and!; [done..| | |]; intros k Hlt; rewrite Hk; auto; apply own_kept; exists k; (split; [lia|tauto]).
Qed.

Lemma interfere_wp w : others_ok → good (shared w) → wp (interfere env) (λ _ w', good (shared w') ∧ moved w w') (λ _, False) w.
Proof.
  intros Ho Hg. destruct (Ho (ticks w.2.2) (shared w) Hg) as [Hg' Hr]. unfold wp, interfere. unfold shared in Hg', Hr.
  destruct (others env (ticks w.2.2) (w.1, w.2.1)) as [d fs]. by split.
Qed.

(** ** Publishing *)

Context (latest : option Snapshot.t) (new : Snapshot.t) (base dmetas : list ManifestFileMeta.t) (cs : list (list ManifestEntry.t)).
Definition based (w : Shared) : Prop :=
  match latest with Some s => snapshots w.1 !! Snapshot.Id s = Some s | None => snapshots w.1 = ∅ ∨ is_Some (snapshots w.1 !! 1) end.
(** A snapshot that can be published. *)
Definition candidate (w : Shared) : Prop :=
  manifests_of w.2 new base dmetas cs ∧ (∀ p, refs new base dmetas p → kept w p) ∧ once (concat cs) ∧ Snapshot.Id new = next_id latest ∧ based w.

Lemma candidate_respects w w' : respects w w' → candidate w → candidate w'.
Proof.
  intros Hr (Hm&Hk&Ho&Hid&Hb). pose proof Hr as (Hs&Hp&He&_). split_and!; [|intros p Hp'; by eapply kept_respects, Hk|done|done|].
  - eapply manifests_keep; [|exact Hm]. intros p Hp'. by apply Hp, Hk.
  - unfold based in *. destruct latest; [by eapply lookup_weaken|]. destruct Hb as [Hb|[s Hs']]; [by apply He|].
    right. exists s. by eapply lookup_weaken.
Qed.

Definition publish (d : SnapshotDir) : SnapshotDir := mkDir (<[Snapshot.Id new := new]> (snapshots d)) (LATEST d) (EARLIEST d).

Lemma publish_dir w : dir_ok w.1 → (∀ id s, snapshots w.1 !! id = Some s → Snapshot.Id s = id) → based w → Snapshot.Id new = next_id latest →
  snapshots w.1 !! Snapshot.Id new = None → dir_ok (publish w.1).
Proof.
  intros Hd Hids Hb Hid Hn. rewrite Hid in *. right. unfold based, next_id, Snapshot.FIRST_SNAPSHOT_ID in *. destruct latest as [s|].
  - destruct Hd as [[E _]|(e&l&[H1 H2]&Hh)]; [by rewrite E in Hb|].
    assert (El : Snapshot.Id s = l).
    { pose proof (proj1 (H2 _) (ex_intro _ s Hb)). destruct (decide (Snapshot.Id s + 1 ≤ l)) as [Hle|]; [|lia].
      destruct (proj2 (H2 (Snapshot.Id s + 1))) as [x Hx]; [lia|]. congruence. }
    exists e, (l + 1). split.
    + split; [lia|]. intros k. cbn. rewrite Hid, El, lookup_insert_is_Some, H2. lia.
    + intros h Hh'. cbn in Hh'. destruct (Hh h Hh') as [|[|]]; lia.
  - destruct Hb as [E|[s Hs]]; [|congruence]. exists 1, 1. split.
    + split; [lia|]. intros k. cbn. rewrite E, Hid, lookup_insert_is_Some, lookup_empty, is_Some_alt. lia.
    + intros h Hh'. cbn in Hh'. destruct Hd as [[_ EL]|(e&l&[H1 H2]&Hh)]; [congruence|].
      destruct (proj2 (H2 e)) as [x Hx]; [lia|]. by rewrite E in Hx.
Qed.

Lemma publish_table w : good w → candidate w → snapshots w.1 !! Snapshot.Id new = None → table_ok (publish w.1, w.2) ∧ preserves w (publish w.1, w.2).
Proof.
  intros [[Hd Ht] _] (Hm&Hk&Ho&Hid&Hb) Hn. split; [split|].
  - apply publish_dir; [done| |done..]. intros id s Hs. by destruct (Ht id s Hs).
  - cbn. intros id s Hs. destruct (decide (Snapshot.Id new = id)) as [<-|Hne].
    + rewrite lookup_insert_eq in Hs. injection Hs as <-. split; [done|]. exists (concat cs). split; [|done]. by exists base, dmetas, cs.
    + rewrite lookup_insert_ne in Hs by done. by apply Ht.
  - intros id s Hs. cbn. rewrite lookup_insert_ne by congruence. done.
Qed.

(** The snapshot is in the table. *)
Definition published (w w' : World) : Prop :=
  table_ok (shared w') ∧ preserves (shared w) (shared w') ∧ snapshots w'.1 !! Snapshot.Id new = Some new ∧ manifests_of w'.2.1 new base dmetas cs.
Definition uncertain (w w' : World) : Prop := table_ok (shared w') ∧ preserves (shared w) (shared w').
Definition fails (w w' : World) : Prop := trouble ∧ uncertain w w'.

Lemma hint_loop_wp n f (w : World) : wp (CommitHint_loop (fault env) n f) (λ _ w', w'.1 = f w.1 ∧ w'.2.1 = w.2.1) (λ w', n = O ∨ trouble ∧ w'.1 = w.1 ∧ w'.2.1 = w.2.1) w.
Proof.
  revert w. induction n as [|n IH]; intros w; unfold wp in *; cbn; [by left|]. unfold sio, with_store, io. cbn.
  destruct (fault env OpCreate (ticks w.2.2)) as [[]|c e] eqn:E; cbn; [done|].
  assert (Ht : trouble) by (eapply (fault_trouble o env OpCreate); by rewrite E). destruct n as [|n]; [by right|].
  specialize (IH (w.1, (w.2.1, tick w.2.2))). destruct (CommitHint_loop _ _ _ _) as [[[]|? ?] ?]; [done|]. right. by destruct IH.
Qed.

Lemma finish_wp w0 w : published w0 w → wp (finish_commit env (Snapshot.Id new)) (λ b w', b = true ∧ published w0 w') (fails w0) w.
Proof.
  intros ((Hd&Ht)&Hp&Hs&Hm). unfold finish_commit, CommitLatestHint. wp_step. eapply wp_mono; [apply hint_loop_wp| |].
  - intros _ [d' [fs' l']] [E1 E2]. cbn in E1, E2. subst. wp_step. split; [done|]. split_and!; [|done|done|done]. split; [|done]. right.
    destruct Hd as [[E _]|(e&l&[H1 H2]&Hh)]; [cbn in *; by rewrite E in Hs|]. exists e, l. split; [done|]. intros h [= <-]. cbn in H2.
    pose proof (proj1 (H2 _) (ex_intro _ new Hs)). lia.
  - intros [d' [fs' l']] [?|(Htr&E1&E2)]; [done|]. cbn in E1, E2. subst. done.
Qed.

(** The snapshot is not in the table, which is as before. *)
Definition waiting (w w' : World) : Prop := good (shared w') ∧ candidate (shared w') ∧ moved w w'.
Lemma waiting_same w w1 w2 : waiting w w1 → same w1 w2 → waiting w w2.
Proof.
  intros (Hg&Hc&Hm) Hs. pose proof (same_moved _ _ Hs) as Hm2. split_and!; [by eapply same_good|eapply candidate_respects; [apply Hm2|done]|by etrans].
Qed.
Lemma waiting_moved w w1 w2 : waiting w w1 → good (shared w2) → moved w1 w2 → waiting w w2.
Proof. intros (Hg&Hc&Hm) Hg2 Hm2. split_and!; [done|eapply candidate_respects; [apply Hm2|done]|by etrans]. Qed.
Lemma waiting_uncertain w w' : waiting w w' → uncertain w w'.
Proof. intros (Hg&_&Hm). split; [apply Hg|by apply respects_preserves, Hm]. Qed.
Lemma waiting_found w w' : waiting w w' → snapshots w'.1 !! Snapshot.Id new = Some new → published w w'.
Proof. intros (Hg&Hc&Hm) Hs. split_and!; [apply Hg|by apply respects_preserves, Hm|done|apply Hc]. Qed.
Lemma published_same w w1 w2 : published w w1 → same w1 w2 → published w w2.
Proof. destruct w1 as [d1 [fs1 l1]], w2 as [d2 [fs2 l2]]. intros Hp (E&E2&_). cbn in E, E2. by subst. Qed.

Lemma sio_wp op (w : World) : wp (sio (fault env) op) (λ _ _, True) (λ _, trouble) w.
Proof. apply wp_sio; [done|]. intros Ht _. by apply some_fault_trouble. Qed.
Lemma AtomicStore_wp w0 w : others_ok → waiting w0 w →
  wp (AtomicStore env (Snapshot.Id new) new) (λ _, published w0) (λ w', (trouble ∨ is_Some (snapshots w'.1 !! Snapshot.Id new)) ∧ (published w0 w' ∨ waiting w0 w')) w.
Proof.
  intros Ho Hw. unfold AtomicStore. wp_step. eapply wp_mono; [apply wp_reads; [apply reads_sio|apply sio_wp]| |].
  2: { intros w1 [Ht Hs]. split; [by left|]. right. by eapply waiting_same. }
  intros [] w1 [_ Hs]. assert (Hw1 : waiting w0 w1) by by eapply waiting_same. wp_step.
  eapply wp_mono; [by apply interfere_wp, Hw1| |done]. intros _ w2 [Hg2 Hm2]. assert (Hw2 : waiting w0 w2) by by eapply waiting_moved.
  assert (Hpub : snapshots w2.1 !! Snapshot.Id new = None → published w0 (publish w2.1, (w2.2.1, tick w2.2.2))).
  { intros Hn. destruct Hw2 as (_&Hc&Hm). destruct (publish_table _ Hg2 Hc Hn) as [Ht Hp]. split_and!; [done| |apply lookup_insert_eq|apply Hc].
    etrans; [apply respects_preserves, Hm|exact Hp]. }
  assert (Hstay : waiting w0 (w2.1, (w2.2.1, tick w2.2.2))) by (by eapply waiting_same).
  unfold wp, Rename. destruct (snapshots w2.1 !! Snapshot.Id new) as [s|] eqn:Es, (fault env OpRename (ticks w2.2.2)) eqn:Ef; cbn [fst snd].
  - split; [|by right]. right. by exists s.
  - split; [|by right]. right. by exists s.
  - by apply Hpub.
  - split; [left; eapply (fault_trouble o env OpRename); by rewrite Ef|]. destruct (lost env _); [left; by apply Hpub|by right].
Qed.

Lemma resolve_wp w0 w c e : (trouble ∨ is_Some (snapshots w.1 !! Snapshot.Id new)) ∧ (published w0 w ∨ waiting w0 w) →
  wp (resolve_commit env new c e) (λ b w', if b : bool then published w0 w' else waiting w0 w' ∧ ∃ s, snapshots w'.1 !! Snapshot.Id new = Some s)
     (fails w0) w.
Proof.
  intros [Hcause Hw]. assert (Hu : ∀ w', trouble → same w w' → fails w0 w').
  { intros w' Ht Hs. split; [done|].
    destruct Hw as [Hw|Hw]; [destruct (published_same _ _ _ Hw Hs) as (?&?&_); by split|by eapply waiting_uncertain, waiting_same]. }
  assert (Hfound : ∀ w', same w w' → snapshots w'.1 !! Snapshot.Id new = Some new → published w0 w').
  { intros w' Hs. destruct Hw as [Hw|Hw]; [by intros _; eapply published_same|by apply waiting_found; eapply waiting_same]. }
  unfold resolve_commit. wp_step. eapply wp_mono; [apply wp_reads; [apply reads_Exists|apply Exists_wp]| |].
  2: { intros w1 [Hf Hs]. apply Hu; [by apply some_fault_trouble|done]. }
  intros b w1 [[E1 ->] Hs1]. case_bool_decide as Hex; cbn [negb]; [|wp_step; apply Hu; [by destruct Hcause|done]]. destruct Hex as [s Hs]. wp_step.
  eapply wp_mono; [apply wp_reads; [apply reads_LoadSnapshot|apply LoadSnapshot_wp; by rewrite E1]| |].
  2: { intros w2 [Hf Hs2]. apply Hu; [by apply some_fault_trouble|by eapply same_trans]. }
  intros s' w2 [[E2 ->] Hs2]. assert (Hs' : snapshots w2.1 !! Snapshot.Id new = Some s) by by rewrite E2, E1.
  assert (Hsame : same w w2) by by eapply same_trans. case_decide as E; [subst s|].
  - eapply wp_mono; [by apply finish_wp, Hfound| |done]. by intros ? ? [-> ?].
  - wp_step. destruct Hw as [Hw|Hw]; [|split; [by eapply waiting_same|by exists s]].
    destruct (published_same _ _ _ Hw Hsame) as (_&_&Hn&_). congruence.
Qed.

(** A commit succeeds only if the snapshot is in the table, and is refused only
    if the place is taken. *)
Lemma RenamingCommit_wp w : others_ok → good (shared w) → candidate (shared w) →
  wp (RenamingCommit env new) (λ b w', if b : bool then published w w' else waiting w w' ∧ ∃ s, snapshots w'.1 !! Snapshot.Id new = Some s) (fails w) w.
Proof.
  intros Ho Hg Hc. assert (Hw : waiting w w) by (by split_and!). unfold RenamingCommit. wp_step.
  eapply wp_mono; [apply wp_reads; [apply reads_sio|apply sio_wp]| |intros w1 [Ht Hs]; split; [done|by eapply waiting_uncertain, waiting_same]].
  intros [] w1 [_ Hs1]. assert (Hw1 : waiting w w1) by by eapply waiting_same. wp_step. eapply wp_mono; [by apply interfere_wp, Hw1| |done].
  intros _ w2 [Hg2 Hm2]. assert (Hw2 : waiting w w2) by by eapply waiting_moved. wp_step.
  eapply wp_mono; [apply wp_reads; [apply reads_Exists|apply Exists_wp]| |intros w3 [Hf Hs3]; split; [by apply some_fault_trouble|by eapply waiting_uncertain, waiting_same]].
  intros b w3 [[E3 ->] Hs3]. assert (Hw3 : waiting w w3) by by eapply waiting_same. case_bool_decide as Hex.
  { wp_step. split; [done|]. by rewrite E3. }
  unfold wp, store_snapshot. pose proof (AtomicStore_wp w w3 Ho Hw3) as Hst. unfold wp in Hst.
  destruct (AtomicStore env (Snapshot.Id new) new w3) as [[[]|c e] w4].
  - pose proof (finish_wp w w4 Hst) as Hf. unfold wp in Hf. destruct (finish_commit env _ w4) as [[b|c e] w5]; [|done]. by destruct Hf as [-> ?].
  - pose proof (resolve_wp w w4 c e Hst) as Hr. unfold wp in Hr. destruct (resolve_commit env new c e w4) as [[[]|?] w5]; done.
Qed.
End Table.
