(* ===== verification/CommitOutcomes.v ===== *)
(** * Commits: their outcomes

    What an attempt to commit leaves behind when it succeeds, when it loses the
    race for the next snapshot and when it fails, and what the loop over the
    attempts and a rollback make of it. *)

From stdpp Require Import base list gmap strings relations.
From Stdlib Require Import ZArith Lia.
From S2P Require Import Prelude Rows DataFiles Predicates StateError Paths Manifests ManifestFiles ManifestFilesProofs ManifestMerger Snapshots ConflictDetection Scan Commit CommitTracking CommitProofs CommitTable.
Import ManifestEntry ManifestFileMeta ManifestListReader FileStoreScan SnapshotManager ConflictDetection.
Local Open Scope Z_scope.
#[local] Arguments wp : simpl never.

Section Outcomes.
Context (o : Options) (env : Environment) (Huuid : no_slash (uuid_ o)).
Abbreviation St := (@St Empty_set).
Abbreviation ToPath := (ToPath (root_ o)).
Abbreviation fresh := (fresh (root_ o) (uuid_ o)).
Abbreviation own_path := (own_path o).
Abbreviation manifests_of := (manifests_of (root_ o) (SizeOf env) (partition_stats env)).
Abbreviation readable := (readable (root_ o) (SizeOf env) (partition_stats env)).
Abbreviation table_ok := (table_ok o env).
Abbreviation preserves := (preserves o env).
Abbreviation referenced := (referenced o env).
Context (theirs : string → Prop) (Htheirs : ∀ p, theirs p → ¬ own_path p).
Abbreviation kept := (kept o env theirs).
Context (delta : list ManifestEntry.t) (checked : bool) (partition_ok : InternalRow → Prop).
Abbreviation good := (good o env delta checked partition_ok).
Abbreviation uncertain := (uncertain o env).
Abbreviation fails := (fails o env).
Context (Hothers : others_ok o env theirs delta checked partition_ok).

(** ** Cleaning up *)

Lemma deletes_spec ps (st : St) : let st' := foldl (λ st p, Delete (fault env) p st) st ps in
  st'.1 ⊆ st.1 ∧ manifest_file_count_ st'.2 = manifest_file_count_ st.2 ∧ manifest_list_count_ st'.2 = manifest_list_count_ st.2 ∧
  ∀ p, p ∉ ps → st'.1 !! p = st.1 !! p.
Proof.
  revert st. induction ps as [|q ps IH]; intros st; [done|]. cbn. destruct (IH (Delete (fault env) q st)) as (H1&H2&H3&H4). split_and!.
  - etrans; [exact H1|]. unfold Delete. cbn. destruct (fault env OpDelete _); [apply delete_subseteq|done].
  - by rewrite H2.
  - by rewrite H3.
  - intros p Hp. rewrite not_elem_of_cons in Hp. rewrite H4 by tauto. unfold Delete. cbn.
    destruct (fault env OpDelete _); [|done]. apply lookup_delete_ne. intros ->. tauto.
Qed.
Lemma smaller_fresh (st st' : St) : st'.1 ⊆ st.1 → manifest_file_count_ st'.2 = manifest_file_count_ st.2 →
  manifest_list_count_ st'.2 = manifest_list_count_ st.2 → fresh st → fresh st'.
Proof.
  intros Hs E1 E2 (H0&H1&H2&H3&H4). assert (Hn : ∀ p, st.1 !! p = None → st'.1 !! p = None).
  { intros p Hp. apply eq_None_not_Some. intros [c Hc]. rewrite (lookup_weaken _ _ _ _ Hc Hs) in Hp. done. }
  unfold ManifestFilesProofs.fresh. rewrite E1, E2. split_and!; auto.
Qed.

Lemma refs_exist fs s b d cs p : manifests_of fs s b d cs → refs o s b d p → is_Some (fs !! p).
Proof.
  intros (Hb&Hd&Hst) [->|[->|Hp]]; [by rewrite Hb|by rewrite Hd|]. exact (stored_paths _ _ _ _ _ _ _ Hst Hp).
Qed.
(** Writing more files makes no file referenced. *)
Lemma referenced_grows d fs fs' p : table_ok (d, fs) → fs ⊆ fs' → referenced (d, fs') p → referenced (d, fs) p.
Proof.
  intros [_ Ht] Hg (id&s&b&de&cs&Hs&Hm&Hp). destruct (Ht id s Hs) as (_&log&(b0&d0&cs0&Hm0&_)&_). pose proof (manifests_grow _ _ _ _ _ _ _ _ Hg Hm0) as Hm1.
  destruct (manifests_unique _ _ _ _ _ _ _ _ _ _ Hm Hm1) as (->&->&->). by exists id, s, b0, d0, cs0.
Qed.
Lemma referenced_grow d fs fs' p : fs ⊆ fs' → referenced (d, fs) p → referenced (d, fs') p.
Proof. intros Hg (id&s&b&de&cs&Hs&Hm&Hp). exists id, s, b, de, cs. split_and!; [done| |done]. by eapply manifests_grow. Qed.
Lemma kept_grow d fs fs' p : fs ⊆ fs' → kept (d, fs) p → kept (d, fs') p.
Proof. intros Hg [?|?]; [by left|right]. by eapply referenced_grow. Qed.

(** A lost race: the files of the attempt are deleted, and nothing else. *)
Definition lost_race (latest : option Snapshot.t) (w w' : World) : Prop :=
  good (shared w') ∧ fresh w'.2 ∧ preserves (shared w) (shared w') ∧ (∃ s, snapshots w'.1 !! next_id latest = Some s) ∧
  (deletes_ok (fault env) → ∀ p, own_path p → w'.2.1 !! p = w.2.1 !! p).

Lemma lost_cleanup latest t st w w' : table_ok (shared w) → preparing o w.2 t st → good (shared w') → moved o env theirs (w.1, st) w' →
  (∃ s, snapshots w'.1 !! next_id latest = Some s) → lost_race latest w (w'.1, CleanUpTmpManifests o env t w'.2).
Proof.
  intros Ht (Hf&Hg&Hn&Hout) Hg' Hm Hs. pose proof (moved_fresh _ _ _ Htheirs _ _ Hm Hf) as Hf'. rewrite Forall_forall in Hn.
  destruct Hm as (Hr&_&_). pose proof Hr as (_&Hk&_&Href). rewrite CleanUp_paths. destruct (deletes_spec (cleanup_paths o t) w'.2) as (H1&H2&H3&H4).
  set (st' := foldl _ w'.2 (cleanup_paths o t)) in *.
  assert (Hpres : preserves (shared w') (w'.1, st'.1)).
  { intros id s Hid. split; [done|]. intros b d cs Hm. eapply manifests_keep; [|exact Hm]. intros p Hp. apply H4. intros Hin.
    destruct (Hn p Hin) as [Hnone Hown]. assert (Hr' : referenced (shared w') p) by by exists id, s, b, d, cs.
    apply Href, (referenced_grows w.1 w.2.1) in Hr' as (id0&s0&b0&d0&cs0&_&Hm0&Hp0); [|done|done|intros Ht'; by apply (Htheirs p)].
    destruct (refs_exist _ _ _ _ _ _ Hm0 Hp0) as [c Hc]. cbn in Hc. congruence. }
  split_and!; [exact (preserves_good _ _ _ _ _ _ _ _ Hpres Hg')|by eapply smaller_fresh| |done|].
  - etrans; [|exact Hpres]. etrans; [apply (grows_preserves _ _ _ _ _ Hg)|]. by apply respects_preserves in Hr.
  - intros Hd p Hown. cbn. unfold st'. rewrite (proj2 (manifest_fold_Delete _ _ _) Hd). case_decide as Hp; [symmetry; by apply Hn|].
    transitivity (st.1 !! p); [apply Hk; by eapply own_kept|by apply Hout].
Qed.

(** ** Publishing a prepared snapshot *)

(** The next snapshot has the files of the one before, changed; [made] relates
    the snapshot and its changes. *)
Definition committed (latest : option Snapshot.t) (log : list ManifestEntry.t) (made : Snapshot.t → list ManifestEntry.t → Prop) (w w' : World) : Prop :=
  table_ok (shared w') ∧ preserves (shared w) (shared w') ∧
  ∃ new log' df, snapshots w'.1 !! next_id latest = Some new ∧ made new df ∧ readable w'.2.1 new log' ∧
    MergeLiveEntries log' = apply_delta (MergeLiveEntries log) df.

Lemma grown_uncertain (w : World) st : table_ok (shared w) → w.2.1 ⊆ st.1 → uncertain w (w.1, st).
Proof. intros Ht Hg. pose proof (grows_preserves o env w.1 _ _ Hg) as Hp. split; [by eapply preserves_table|done]. Qed.

Lemma prepared_candidate latest previous log delta_files new t st (w : World) : table_ok (shared w) → based latest (shared w) → once (log ++ delta_files) →
  Forall (λ m, kept (shared w) (ToPath (FileName m))) previous → prepared o env w.2 previous log delta_files new t st → Snapshot.Id new = next_id latest →
  ∃ base dmetas cs, candidate o env theirs latest new base dmetas cs (w.1, st.1) ∧
    MergeLiveEntries (concat cs) = apply_delta (MergeLiveEntries log) delta_files.
Proof.
  intros Ht Hb Ho Hprev (Hp&(k1&Hk1&Hl1)&(k2&Hk2&Hl2)&base&dmetas&bcs&dcs&Hm&Hr&<-&Hown) Hid. pose proof Hp as (_&Hg&_&_). rewrite Forall_forall in Hprev, Hown.
  assert (Hsteps : rtc merge_step (log ++ concat dcs) (concat (bcs ++ dcs))) by (rewrite concat_app; by apply merge_steps_app).
  destruct (merge_steps _ _ Hsteps Ho) as [Ho' Hlive]. exists base, dmetas, (bcs ++ dcs). split; [|by rewrite Hlive, live_app].
  split_and!; [done| |done|done|done]. intros p [->|[->|Hin]].
  - rewrite Hl1. apply (own_kept _ _ _ Htheirs). exists k1. auto.
  - rewrite Hl2. apply (own_kept _ _ _ Htheirs). exists k2. auto.
  - apply (paths_elem o) in Hin as (m&Hin&->). destruct (Hown m Hin) as [Hpm|(k&Hk&E)].
    + apply (kept_grow _ _ _ _ Hg). by apply Hprev.
    + rewrite E. apply (own_kept _ _ _ Htheirs). exists k. auto.
Qed.

(** Sending it. *)
Lemma CommitSnapshotImpl_wp latest new statistics base dmetas cs (w : World) : good (shared w) → candidate o env theirs latest new base dmetas cs (shared w) →
  wp (CommitSnapshotImpl env new statistics)
     (λ b w', if b : bool then published o env new base dmetas cs w w'
              else good (shared w') ∧ moved o env theirs w w' ∧ ∃ s, snapshots w'.1 !! Snapshot.Id new = Some s)
     (fails w) w.
Proof.
  intros Hg Hc. unfold CommitSnapshotImpl. wp_step. apply wp_of_result.
  2: { intros (e&u&H)%foldR_fails. split; [|split; [apply Hg|done]]. right. right. left. exists (PartitionEntry.partition_ e).
    by destruct (PartitionVector env (PartitionEntry.partition_ e)). }
  intros [] _.
  eapply wp_mono; [by apply (RenamingCommit_wp o env theirs delta checked partition_ok latest new base dmetas cs)| |done].
  intros [] w' H; [done|]. destruct H as ((?&_&?)&?). by split_and!.
Qed.

Lemma published_committed latest new base dmetas cs log (made : _ → _ → Prop) df (w w' : World) st : w.2.1 ⊆ st.1 → Snapshot.Id new = next_id latest →
  made new df → MergeLiveEntries (concat cs) = apply_delta (MergeLiveEntries log) df → published o env new base dmetas cs (w.1, st) w' →
  committed latest log made w w'.
Proof.
  intros Hg Hid Hmade Hl (Ht&Hp&Hs&Hm). split_and!; [done| |].
  - etrans; [apply (grows_preserves _ _ _ _ _ Hg)|exact Hp].
  - exists new, (concat cs), df. rewrite <-Hid. split_and!; [done|done| |done]. by exists base, dmetas, cs.
Qed.
Lemma uncertain_grown (w : World) st w' : w.2.1 ⊆ st.1 → uncertain (w.1, st) w' → uncertain w w'.
Proof. intros Hg [Ht Hp]. split; [done|]. etrans; [apply (grows_preserves _ _ _ _ _ Hg)|exact Hp]. Qed.

Section Publish.
Context (prepare : M PS (Snapshot.t * list PartitionEntry.t)) (latest : option Snapshot.t) (previous : list ManifestFileMeta.t) (log : list ManifestEntry.t).
Context (made : Snapshot.t → list ManifestEntry.t → Prop) (why : Prop) (w : World).
Context (Hmade : ∀ new df, made new df → Snapshot.Id new = next_id latest ∧ once (log ++ df)).
Context (Hg : good (shared w)) (Hb : based latest (shared w)) (Hprev : Forall (λ m, kept (shared w) (ToPath (FileName m))) previous).
Context (Hprep : wp prepare (λ r s', ∃ df, made r.1 df ∧ prepared o env w.2 previous log df r.1 s'.1 s'.2) (abandoned o env w.2 why) (no_tmp, w.2)).

(** A snapshot that has been prepared can be sent. *)
Lemma made_candidate new df t st : made new df → prepared o env w.2 previous log df new t st →
  w.2.1 ⊆ st.1 ∧ good (shared (w.1, st)) ∧ Snapshot.Id new = next_id latest ∧
  ∃ base dmetas cs, candidate o env theirs latest new base dmetas cs (shared (w.1, st)) ∧ MergeLiveEntries (concat cs) = apply_delta (MergeLiveEntries log) df.
Proof.
  intros Hm Hp. pose proof (proj1 Hp) as (_&Hgr&_&_). destruct (Hmade _ _ Hm) as [Hid Ho].
  destruct (prepared_candidate _ _ _ _ _ _ _ _ (proj1 Hg) Hb Ho Hprev Hp Hid) as (base&dmetas&cs&Hc&Hl).
  split_and!; [done| |done|by exists base, dmetas, cs]. eapply preserves_good; [exact (grows_preserves _ _ _ _ _ Hgr)|exact Hg].
Qed.

Lemma PublishSnapshot_wp : wp (PublishSnapshot o env prepare) (λ b w', if b : bool then committed latest log made w w' else lost_race latest w w')
  (λ w', (trouble o env ∨ why) ∧ uncertain w w') w.
Proof.
  unfold wp, PublishSnapshot. unfold wp in Hprep. destruct (prepare (no_tmp, w.2)) as [[[new stats]|c e] [t st]]; cbn [fst snd] in Hprep.
  2: { split; [apply Hprep|]. apply grown_uncertain; [apply Hg|]. by eapply CleanUp_abandoned. }
  destruct Hprep as (df&Hm&Hp). destruct (made_candidate _ _ _ _ Hm Hp) as (Hgr&Hg1&Hid&base&dmetas&cs&Hc&Hl).
  pose proof (CommitSnapshotImpl_wp latest new stats base dmetas cs (w.1, st) Hg1 Hc) as Hcommit. unfold wp in Hcommit.
  destruct (CommitSnapshotImpl env new stats (w.1, st)) as [[[]|c e] w'].
  - by eapply published_committed.
  - destruct Hcommit as (Hg'&Hm'&Hs). eapply lost_cleanup; [apply Hg|apply Hp|done..|by rewrite <-Hid].
  - split; [left; apply Hcommit|]. eapply uncertain_grown; [done|apply Hcommit].
Qed.

(** The guard of a rollback keeps the files of a lost race. *)
Lemma PublishRollback_wp : wp (PublishRollback o env prepare)
  (λ b w', if b : bool then committed latest log made w w' else uncertain w w' ∧ ∃ s, snapshots w'.1 !! next_id latest = Some s)
  (λ w', (trouble o env ∨ why) ∧ uncertain w w') w.
Proof.
  unfold wp, PublishRollback. unfold wp in Hprep. destruct (prepare (no_tmp, w.2)) as [[[new stats]|c e] [t st]]; cbn [fst snd] in Hprep.
  2: { split; [apply Hprep|]. apply grown_uncertain; [apply Hg|]. by eapply CleanUp_abandoned. }
  destruct Hprep as (df&Hm&Hp). destruct (made_candidate _ _ _ _ Hm Hp) as (Hgr&Hg1&Hid&base&dmetas&cs&Hc&Hl).
  pose proof (CommitSnapshotImpl_wp latest new stats base dmetas cs (w.1, st) Hg1 Hc) as Hcommit. unfold wp in Hcommit.
  destruct (CommitSnapshotImpl env new stats (w.1, st)) as [[[]|c e] w'].
  - by eapply published_committed.
  - destruct Hcommit as (Hg'&Hm'&Hs). split; [|by rewrite <-Hid]. apply (uncertain_grown _ st); [done|]. split; [apply Hg'|]. exact (respects_preserves _ _ _ _ _ (proj1 Hm')).
  - split; [left; apply Hcommit|]. eapply uncertain_grown; [done|apply Hcommit].
Qed.
End Publish.

(** ** The check for conflicts *)

Lemma once_unrepeated es : once es → unrepeated es.
Proof.
  intros [Hs _]. unfold unrepeated. induction Hs as [|e es Hs IH He]; [constructor|]. cbn. constructor; [|done].
  intros (e'&E&He')%list_elem_of_fmap. rewrite Forall_forall in He. pose proof (f_equal fst E) as Hk. pose proof (f_equal snd E) as Hi. cbn in Hk, Hi.
  destruct (He e' He' Hi) as [Ha Hd]. apply (add_not_delete e'); [|done]. unfold is_add in *. congruence.
Qed.
Lemma changed_rows (P : InternalRow → Prop) entries : Forall (λ e, P (Partition e)) entries → Forall P (ChangedPartitions entries).
Proof.
  induction entries as [|x es IH] using rev_ind; [constructor|]. intros [H1 [H2 _]%Forall_cons]%Forall_app.
  unfold ChangedPartitions. rewrite foldl_app. cbn. fold (ChangedPartitions es). case_decide; [by apply IH|].
  apply Forall_app. split; [by apply IH|constructor; [exact H2|constructor]].
Qed.

Context (kind : CommitKind.t) (detect_conflicts : bool) (changelog : list ManifestEntry.t).
Abbreviation discard := (discard_duplicate_files o && bool_decide (kind = CommitKind.Append)).
(** What is left of the changes when duplicates are discarded. *)
Definition changes (log : list ManifestEntry.t) : list ManifestEntry.t :=
  if discard then filter (λ e, CreateIdentifier e ∉ CreateIdentifier <$> MergeLiveEntries log) delta else delta.

(** The filter of partitions selects them, and the statistics of the partitions
    in the manifests cover its columns. *)
Definition partitions_law : Prop :=
  ∀ ps, partition_stats_ok (partition_stats env) (partitions_filter o env ps) ∧
    ∀ row, ps ≠ [] → Forall partition_ok (row :: ps) →
      Test (partition_types o) (partition_predicate env ps) row = Ok (bool_decide (row ∈ ps)).
Context (Hlaw : partitions_law) (Hpart : Forall (λ e, partition_ok (Partition e)) delta) (Honce : once delta) (Hchangelog : Forall known changelog)
  (Hchecked : checked = discard || detect_conflicts) (Hadds : checked = false → Forall is_add delta).

Lemma keep_partition ps e : ps ≠ [] → Forall partition_ok ps → partition_ok (Partition e) →
  FilterManifestEntry (partitions_filter o env ps) no_filter e = Ok true ↔ Partition e ∈ ps.
Proof.
  intros Hne Hps He. unfold FilterManifestEntry. cbn. rewrite (proj2 (Hlaw ps)) by (done || by constructor). cbn.
  destruct (bool_decide_reflect (Partition e ∈ ps)); done.
Qed.
Lemma ReadPartitions_wp snapshot log ps (s : St) : readable s.1 snapshot log → Forall (λ e, partition_ok (Partition e)) log → Forall partition_ok ps →
  wp (ReadAllEntriesFromChangedPartitions o env snapshot ps) (λ files s', files = live_in ps log ∧ unchanged s s')
     (λ s', scan_fails (fault env) (partitions_filter o env ps) no_filter ∧ unchanged s s') s.
Proof.
  intros Hr Hlog Hps. unfold ReadAllEntriesFromChangedPartitions. destruct ps as [|p ps].
  { wp_step. split; [|done]. unfold live_in. induction (MergeLiveEntries log) as [|e es IH]; [done|].
    by rewrite filter_cons, decide_False by apply not_elem_of_nil. }
  set (qs := p :: ps) in *. rewrite Forall_forall in Hlog. assert (Hne : qs ≠ []) by done.
  eapply wp_mono; [apply (CreatePlan_wp _ _ (SizeOf env) (partition_stats env) _ _ snapshot log); [apply Hlaw|done|]| |done].
  - intros a d Ha Hd _ _ E Hk. rewrite keep_partition in Hk by auto. rewrite keep_partition by auto. unfold CreateIdentifier in E. congruence.
  - intros files s' [[= <-] Hu]. split; [|done]. unfold kept_files, live_in. apply filter_ext_in. intros e (He&_&_)%live_spec. apply keep_partition; auto.
Qed.

Lemma changes_live log : changes log = if discard then discard_duplicates (live_in (ChangedPartitions delta) log) delta else delta.
Proof.
  unfold changes. destruct discard; [|done]. unfold discard_duplicates. apply filter_ext_in. intros e He. rewrite !list_elem_of_fmap.
  apply not_iff_compat. split; intros (a&E&Ha); exists a; (split; [done|]).
  - unfold live_in. apply list_elem_of_filter. split; [|done]. unfold CreateIdentifier in E. injection E as <- _ _ _ _. by apply changed_elem.
  - by apply list_elem_of_filter in Ha as [_ ?].
Qed.
Lemma changes_sub log e : e ∈ changes log → e ∈ delta.
Proof. clear. unfold changes. destruct discard; [by intros [_ ?]%list_elem_of_filter|done]. Qed.
Lemma changes_once log : once (changes log).
Proof. unfold changes. destruct discard; [by apply once_filter|done]. Qed.
Lemma changes_nil : changes [] = delta.
Proof.
  unfold changes. destruct discard; [|done]. apply filter_all. intros e _. apply not_elem_of_nil.
Qed.

(** The snapshot that a commit starts from, and its log. *)
Definition base_log (fs : gmap string (Content Empty_set)) (latest : option Snapshot.t) (log : list ManifestEntry.t) : Prop :=
  match latest with Some s => readable fs s log | None => log = [] end.

Lemma wp_with_world {A} (m : M World A) (Q : A → CommitState → Prop) (E : CommitState → Prop) cache w :
  wp m (λ a w', Q a (cache, w')) (λ w', E (cache, w')) w → wp (with_world m) Q E (cache, w).
Proof. unfold wp, with_world. cbn. by destruct (m w) as [[a|c e] w']. Qed.
Lemma wp_with_store {A} (m : M St A) (Q : A → World → Prop) (E : World → Prop) d st :
  wp m (λ a st', Q a (d, st')) (λ st', E (d, st')) st → wp (with_store m) Q E (d, st).
Proof. unfold wp, with_store. cbn. by destruct (m st) as [[a|c e] st']. Qed.

Lemma unchecked_log latest log (w : World) : good (shared w) → based latest (shared w) → base_log w.2.1 latest log → once log →
  checked = false → once (log ++ delta).
Proof.
  intros [_ Hf] Hb Hl Ho Hc. apply once_app. split_and!; [done..|]. intros a b Ha Hin E. destruct latest as [s|]; cbn in Hl; [|rewrite Hl in Ha; by apply elem_of_nil in Ha].
  destruct (Hf _ s log Hb Hl) as [_ Hd]. specialize (Hadds Hc). rewrite Forall_forall in Hadds. destruct (Hd b Hin (Hadds b Hin)) as [_ Hn].
  destruct (Hn Hc). rewrite <-E. by apply list_elem_of_fmap_2.
Qed.

(** The check fails: it cannot read the files, or a snapshot of the table and
    the changes are in conflict. *)
Definition unreadable : Prop := ∃ ps, scan_fails (fault env) (partitions_filter o env ps) no_filter.
Definition rejected (latest : option Snapshot.t) (log : list ManifestEntry.t) (cache : Cache) : Prop :=
  (∃ s, latest = Some s ∧ is_ok (CheckConflicts (KO := key_options o) (deletion_vectors_enabled o) (bucket_unaware o) (has_primary_keys o)
     (data_evolution_enabled o) (live_in (ChangedPartitions delta) log) (changes log) (Snapshot.NextRowId s) kind cache).1 = false) ∨
  is_ok (CollectUncheckedBucketPartitions delta cache) = false ∨
  (∃ expected, CollectUncheckedBucketPartitions delta cache = Ok expected ∧
     let ps := LinkedHashMap.key_vec expected in is_ok (CheckSameBucketByTotalBuckets expected (first_buckets ps (live_in ps log) []) cache).1 = false) ∨
  is_ok (track_rows o env (next_id latest) (first_row_id_start latest) (changes log)) = false ∨
  is_ok (SequenceSnapshotProperties.MaxSequenceNumber latest) = false.
Definition refused (w : World) : Prop :=
  ∃ latest log cache, (∀ s, latest = Some s → snapshots w.1 !! Snapshot.Id s = Some s) ∧ base_log w.2.1 latest log ∧ rejected latest log cache.
(** The check has accepted the changes. *)
Definition accepted (latest : option Snapshot.t) (log : list ManifestEntry.t) : Prop :=
  ∀ s, latest = Some s → checked = true → ∃ cache cache', CheckConflicts (KO := key_options o) (deletion_vectors_enabled o) (bucket_unaware o)
    (has_primary_keys o) (data_evolution_enabled o) (live_in (ChangedPartitions delta) log) (changes log) (Snapshot.NextRowId s) kind cache = (Ok (), cache').
Lemma base_log_later latest log w w' : preserves (shared w) (shared w') → (∀ s, latest = Some s → snapshots w.1 !! Snapshot.Id s = Some s) →
  base_log w.2.1 latest log → (∀ s, latest = Some s → snapshots w'.1 !! Snapshot.Id s = Some s) ∧ base_log w'.2.1 latest log.
Proof.
  intros Hp Hs Hl. split; [intros s E; by apply Hp, Hs|]. destruct latest as [s|]; [|done]. exact (preserves_readable o env _ _ _ s log Hp (Hs s eq_refl) Hl).
Qed.
Lemma refused_later w w' : preserves (shared w) (shared w') → refused w → refused w'.
Proof.
  intros Hp (latest&log&cache&Hs&Hl&Hc). exists latest, log, cache. destruct (base_log_later latest log w w' Hp Hs Hl). by split_and!.
Qed.

Lemma collected_rows (P : InternalRow → Prop) cache entries m m' : Forall (λ e, P (Partition e)) entries → Forall P (LinkedHashMap.key_vec m) →
  foldR (collect_bucket cache) entries m = Ok m' → Forall P (LinkedHashMap.key_vec m').
Proof.
  intros Hes. revert m. induction Hes as [|e es He Hes IH]; intros m Hm; cbn; [by intros [= <-]|].
  intros (m1&H1&H2)%bind_Ok. apply (IH m1); [|done]. clear IH H2. unfold collect_bucket in H1. repeat case_match; simplify_eq; try done.
  unfold LinkedHashMap.insert. case_match; [done|]. unfold LinkedHashMap.key_vec, LinkedHashMap.unsafe_insert. rewrite fmap_app. apply Forall_app. by repeat constructor.
Qed.
Lemma same_shared w w1 : same w w1 → shared w1 = shared w.
Proof. intros [E E1]. unfold shared. by rewrite E, (proj1 E1). Qed.
Lemma same_refl (w : World) : same w w.
Proof. by split_and!. Qed.

(** The numbers of buckets, where nothing else is checked. *)
Lemma CheckSameBucket_wp latest log cache (w : World) : good (shared w) → based latest (shared w) → base_log w.2.1 latest log →
  wp (CheckSameBucketFromSnapshot o env delta latest) (λ _ s', same w s'.2) (λ s', (unreadable ∨ refused w) ∧ same w s'.2) (cache, w).
Proof.
  intros Hg Hb Hl. unfold CheckSameBucketFromSnapshot. destruct latest as [s|]; [|wp_step; apply same_refl]. cbn in Hl, Hb.
  destruct Hg as [_ Hf]. destruct (Hf _ s log Hb Hl) as [Hrows _].
  assert (Hrefused : rejected (Some s) log cache → refused w) by (intros; exists (Some s), log, cache; split_and!; [by intros ? [= <-]|done..]).
  wp_step. unfold wp at 1. cbn [fst]. destruct (CollectUncheckedBucketPartitions delta cache) as [expected|c e] eqn:Ec.
  2: { split; [|apply same_refl]. right. apply Hrefused. right. left. by rewrite Ec. }
  destruct expected as [|x expected]; [wp_step; apply same_refl|]. set (m := x :: expected) in *. clearbody m.
  assert (Hps : Forall partition_ok (LinkedHashMap.key_vec m)) by (eapply collected_rows; [exact Hpart| |exact Ec]; constructor).
  destruct w as [d st]. wp_step. apply wp_with_world, wp_with_store. unfold ReadTotalBuckets.
  apply (wp_mono _ (λ r st', r = first_buckets (LinkedHashMap.key_vec m) (live_in (LinkedHashMap.key_vec m) log) [] ∧ unchanged st st')
    _ (λ st', unreadable ∧ unchanged st st')); [| |intros st' [? Hu]; split; [by left|done]].
  - destruct (LinkedHashMap.key_vec m) as [|p ps]; [wp_step; split; [by destruct (live_in [] log)|done]|]. wp_step.
    eapply wp_mono; [by apply ReadPartitions_wp| |intros st' [? Hu]; split; [by eexists|done]]. intros files st' [-> Hu]. by wp_step.
  - intros r st' [-> Hu]. unfold wp, with_cache. cbn [fst snd].
    destruct (CheckSameBucketByTotalBuckets _ _ cache) as [[[]|c e] cache'] eqn:Hcheck; [done|]. split; [right|done].
    apply Hrefused. do 2 right. left. exists m. split; [done|]. cbn zeta. exact (f_equal (λ r, is_ok r.1) Hcheck).
Qed.

(** The conflicts. *)
Lemma CheckFiles_wp s log cache (w : World) : good (shared w) → based (Some s) (shared w) → readable w.2.1 s log → once log → checked = true →
  wp (base_data_files ← with_world (with_store (ReadAllEntriesFromChangedPartitions o env s (ChangedPartitions delta)));
      let delta_files := if discard then discard_duplicates base_data_files delta else delta in
      _ ← with_cache (CheckConflicts (KO := key_options o) (deletion_vectors_enabled o) (bucket_unaware o) (has_primary_keys o)
            (data_evolution_enabled o) base_data_files delta_files (Snapshot.NextRowId s) kind);
      mret delta_files)
     (λ df s', df = changes log ∧ once (log ++ df) ∧ accepted (Some s) log ∧ same w s'.2) (λ s', (unreadable ∨ refused w) ∧ same w s'.2) (cache, w).
Proof.
  intros [_ Hf] Hb Hl Ho Hc. destruct (Hf _ s log Hb Hl) as [Hrows Hadd]. destruct w as [d st].
  assert (Hps : Forall partition_ok (ChangedPartitions delta)) by by apply changed_rows.
  wp_step. apply wp_with_world, wp_with_store. eapply wp_mono; [by apply ReadPartitions_wp| |intros st' [Hsf Hu]; split; [left; by eexists|done]].
  intros files st' [-> Hu]. cbn zeta. rewrite <-changes_live. wp_step. unfold wp at 1, with_cache. cbn [fst snd].
  destruct (CheckConflicts _ _ _ _ _ _ _ _ cache) as [[[]|c e] cache'] eqn:Hcheck.
  2: { split; [right|done]. exists (Some s), log, cache. split_and!; [by intros ? [= <-]|done|]. left. exists s. split; [done|]. by rewrite Hcheck. }
  wp_step. split_and!; [done| |intros ? [= <-] _; by exists cache, cache'|done..].
  eapply accepted_log; [done|apply once_unrepeated, changes_once| |intros e He; by eapply changed_elem, changes_sub|exact Hcheck].
  intros e He%changes_sub Ha. by apply Hadd.
Qed.

Lemma CheckCommit_wp latest log cache (w : World) : good (shared w) → based latest (shared w) → base_log w.2.1 latest log → once log →
  wp (CheckCommit o env delta kind latest detect_conflicts) (λ df s', df = changes log ∧ once (log ++ df) ∧ accepted latest log ∧ same w s'.2)
     (λ s', (unreadable ∨ refused w) ∧ same w s'.2) (cache, w).
Proof.
  intros Hg Hb Hl Ho. unfold CheckCommit. wp_step.
  apply (wp_mono _ (λ _ s', same w s'.2) _ (λ s', (unreadable ∨ refused w) ∧ same w s'.2)); [| |done].
  { destruct (_ && ShouldCheckSameBucket o kind); [by eapply CheckSameBucket_wp|wp_step; apply same_refl]. }
  intros [] [cache1 w1] Hs. cbn [snd] in Hs. pose proof (same_shared _ _ Hs) as Es.
  destruct latest as [s|]; cbn in Hl.
  2: { subst log. wp_step. rewrite changes_nil. split_and!; [done..|by intros s|done]. }
  assert (Hc : discard || detect_conflicts = true ∨ discard || detect_conflicts = false) by (clear; destruct (_ || _); auto).
  destruct Hc as [Hc|Hc]; rewrite Hc.
  2: { wp_step. assert (discard = false) as Ed by by apply orb_false_iff in Hc as [? _]. assert (Ech : changes log = delta) by (unfold changes; by rewrite Ed).
    rewrite Ech. split_and!; [done| |intros ? _; congruence|done]. eapply (unchecked_log (Some s)); [done..|congruence]. }
  rewrite <-Es in Hg, Hb. rewrite <-(f_equal snd Es : w1.2.1 = w.2.1) in Hl.
  eapply wp_mono; [apply (CheckFiles_wp s log); [done..|congruence]| |].
  - intros df s' (?&?&?&Hs'). split_and!; [done..|by eapply same_trans].
  - intros s' [Hwhy Hs']. split; [|by eapply same_trans]. destruct Hwhy as [?|Hr]; [by left|right]. eapply refused_later; [|exact Hr]. by rewrite Es.
Qed.

(** ** An attempt *)

Context (identifier : Z) (watermark : option Z) (Hhash : ∀ ps, hash_order env ps ≡ₚ ps).

Lemma same_fresh w w1 : same w w1 → fresh w.2 → fresh w1.2.
Proof. intros (_&E&E1&E2) Hf. eapply smaller_fresh; [|exact E1|exact E2|exact Hf]. by rewrite E. Qed.

Lemma base_log_unique fs latest log log' : base_log fs latest log → base_log fs latest log' → log = log'.
Proof. destruct latest as [s|]; cbn; [apply (readable_unique o env)|congruence]. Qed.

(** What the latest snapshot of a table is. *)
Lemma base_found latest (w : World) : table_ok (shared w) → based latest (shared w) → snapshots w.1 = ∅ ∨ latest ≠ None →
  ∃ previous log, based_on o env w.2.1 latest previous log ∧ base_log w.2.1 latest log ∧ once log ∧ Forall (λ m, kept (shared w) (ToPath (FileName m))) previous.
Proof.
  intros [_ Ht] Hb Hl. destruct latest as [s|]; cbn in Hb.
  - destruct (Ht _ s Hb) as (_&log&Hr&Ho). pose proof Hr as (b&d&cs&Hm&->). exists (b ++ d), (concat cs). split_and!; [by exists b, d, cs|done..|].
    apply Forall_forall. intros m Hin. right. exists (Snapshot.Id s), s, b, d, cs. split_and!; [done..|]. right. right. apply paths_elem. by exists m.
  - exists [], []. split_and!; [done|done|by split; constructor|constructor].
Qed.

(** The base that an attempt commits to. *)
Definition commits_on (latest : option Snapshot.t) (log : list ManifestEntry.t) (w w' : World) : Prop :=
  base_log w'.2.1 latest log ∧ (∀ s, latest = Some s → snapshots w'.1 !! Snapshot.Id s = Some s) ∧
    snapshots w.1 !! next_id latest = None ∧ accepted latest log ∧ committed latest log (prepares o env latest log (changes log)) w w'.
Definition commits_to (w w' : World) : Prop := ∃ latest log, commits_on latest log w w'.

Lemma latest_based w latest : table_ok (shared w) → is_latest w.1 latest →
  based latest (shared w) ∧ (snapshots w.1 = ∅ ∨ latest ≠ None) ∧ snapshots w.1 !! next_id latest = None.
Proof.
  intros [_ Ht] Hl. destruct latest as [s|]; cbn in Hl.
  - destruct Hl as (l&Hs&Hmax). destruct (Ht l s Hs) as [E _]. cbn. rewrite E. split_and!; [done|by right|].
    apply eq_None_not_Some. intros Hx%Hmax. lia.
  - cbn. split_and!; [by left|by left|]. by rewrite Hl.
Qed.

Lemma TryCommitOnce_wp properties latest log cache (w : World) : good (shared w) → fresh w.2 → is_latest w.1 latest → base_log w.2.1 latest log →
  wp (TryCommitOnce o env delta changelog identifier watermark properties kind latest detect_conflicts)
     (λ b s', if b : bool then commits_on latest log w s'.2 else lost_race latest w s'.2)
     (λ s', (trouble o env ∨ unreadable ∨ refused s'.2) ∧ uncertain w s'.2) (cache, w).
Proof.
  intros Hg Hf Hlatest Hl. destruct (latest_based _ _ (proj1 Hg) Hlatest) as (Hb&Hne&Hfree).
  destruct (base_found latest w (proj1 Hg) Hb Hne) as (previous&log0&Hon&Hl0&Ho&Hk). rewrite (base_log_unique _ _ _ _ Hl0 Hl) in Hon, Ho. unfold TryCommitOnce. wp_step.
  eapply wp_mono; [by apply (CheckCommit_wp latest log)| |].
  2: { intros s1 [Hc Hs]. split.
    { right. destruct Hc as [?|Hc]; [by left|right]. eapply refused_later; [|exact Hc]. by rewrite (same_shared _ _ Hs). }
    unfold CommitTable.uncertain. rewrite (same_shared _ _ Hs). split; [apply Hg|done]. }
  intros df [cache1 w1] (->&Hol&Hacc&Hs). cbn in Hs. apply wp_with_world. pose proof (same_shared _ _ Hs) as Es. pose proof (f_equal snd Es) as Efs. cbn in Efs.
  set (why := is_ok (track_rows o env (next_id latest) (first_row_id_start latest) (changes log)) = false ∨ is_ok (SequenceSnapshotProperties.MaxSequenceNumber latest) = false).
  eapply wp_mono; [apply (PublishSnapshot_wp _ latest previous log (prepares o env latest log (changes log)) why); rewrite ?Es; try done| |].
  - intros new df (Hid&(nr&Htrack&_)&_). split; [done|]. by eapply tracked_once.
  - eapply PrepareSnapshot_wp; [done|by eapply same_fresh|by rewrite Efs|done|apply changes_once|done|by left|by right].
  - intros [] w2; [|unfold lost_race; rewrite Es, Efs; done]. intros (Ht&Hp&Hnew). rewrite Es in Hp. cbn [snd fst].
    destruct (base_log_later latest log w w2 Hp) as [Hs2 Hl2]; [by intros s ->|done|]. by split_and!.
  - intros w2 (Hwhy&Ht&Hp). rewrite Es in Hp. split; [|by split]. destruct Hwhy as [?|Hwhy]; [by left|]. do 2 right. exists latest, log, cache.
    destruct (base_log_later latest log w w2 Hp) as [Hs2 Hl2]; [by intros s ->|done|]. split_and!; [done..|]. unfold rejected. unfold why in Hwhy. tauto.
Qed.

(** ** The attempts *)

Lemma commits_later w w1 w' : preserves (shared w) (shared w1) → commits_to w1 w' → commits_to w w'.
Proof.
  intros Hp (latest&log&Hl&Hs&Hfree&Hacc&Ht&Hp1&Hnew). exists latest, log. split_and!; [done|done| |done|split_and!; [done|by etrans|done]].
  apply eq_None_not_Some. intros [s Hs']. apply Hp in Hs' as [Hs' _]. cbn in Hs'. congruence.
Qed.
(** Why the attempts end without success. *)
Definition gives_up (w w' : World) : Prop :=
  uncertain w w' ∧ (trouble o env ∨ unreadable ∨ refused w' ∨ ∃ id s, snapshots w.1 !! id = None ∧ snapshots w'.1 !! id = Some s).
Lemma gives_up_later w w1 w' : preserves (shared w) (shared w1) → gives_up w1 w' → gives_up w w'.
Proof.
  intros Hp [[Ht Hp1] Hwhy]. split; [split; [done|by etrans]|]. destruct Hwhy as [?|[?|[?|(id&s&Hn&Hs)]]]; [by left|right; by left|do 2 right; by left|]. do 3 right.
  exists id, s. split; [|done]. apply eq_None_not_Some. intros [s' Hs']. apply Hp in Hs' as [Hs' _]. cbn in Hs'. congruence.
Qed.

Lemma commit_loop_wp properties reset retry_on_conflict fuel start retry cache (w : World) : (Z.to_nat (commit_max_retries o - retry) < fuel)%nat → good (shared w) → fresh w.2 →
  wp (commit_loop o env fuel delta changelog identifier watermark properties kind reset detect_conflicts retry_on_conflict start retry)
     (λ _ s', commits_to w s'.2) (λ s', gives_up w s'.2) (cache, w).
Proof.
  revert retry cache w. induction fuel as [|fuel IH]; intros retry cache w Hfuel Hg Hf; cbn [commit_loop]; [lia|].
  wp_step. apply wp_with_world. eapply wp_mono; [by eapply interfere_wp| |done]. intros [] w1 [Hg1 Hm1].
  pose proof (moved_fresh _ _ _ Htheirs _ _ Hm1 Hf) as Hf1. pose proof (respects_preserves _ _ _ _ _ (proj1 Hm1)) as Hp1.
  wp_step. apply wp_with_world. eapply wp_mono; [apply wp_reads; [apply reads_LatestSnapshot|apply LatestSnapshot_wp, Hg1]| |].
  2: { intros w2 [Hfault Hs2]. apply (gives_up_later _ w1); [done|]. split; [|left; by apply some_fault_trouble].
    unfold CommitTable.uncertain. cbn [snd]. rewrite (same_shared _ _ Hs2). split; [apply Hg1|done]. }
  intros latest w2 [[Ed Hlatest] Hs2]. pose proof (same_shared _ _ Hs2) as Es2. rewrite <-Es2 in Hp1, Hg1. rewrite <-Ed in Hlatest.
  pose proof (same_fresh _ _ Hs2 Hf1) as Hf2. destruct (latest_based _ _ (proj1 Hg1) Hlatest) as (Hb2&Hne2&Hfree).
  destruct (base_found latest w2 (proj1 Hg1) Hb2 Hne2) as (_&log&_&Hl2&_&_). wp_step.
  eapply wp_mono; [by apply (TryCommitOnce_wp _ latest log)| |intros s' [Hwhy Hu]; apply (gives_up_later _ w2); [done|split; [done|tauto]]].
  intros [] [cache3 w3] H3; [wp_step; eapply commits_later; [done|by exists latest, log]|]. destruct H3 as (Hg3&Hf3&Hp3&(s3&Hs3)&_). cbn [snd] in *.
  assert (Hp : preserves (shared w) (shared w3)) by by etrans.
  assert (Hlost : gives_up w2 w3) by (split; [split; [apply Hg3|done]|do 3 right; by exists (next_id latest), s3]).
  destruct retry_on_conflict; cbn [negb]; [|wp_step; by apply (gives_up_later _ w2)]. wp_step. unfold wp at 1, clock. cbn [fst snd].
  set (w4 := (w3.1, (w3.2.1, tick w3.2.2)) : World).
  destruct (Z.leb_spec (commit_max_retries o) retry) as [Hle|Hlt]; [rewrite orb_true_r; wp_step; by apply (gives_up_later _ w2)|].
  rewrite orb_false_r. destruct (commit_timeout o <? _).
  - wp_step. by apply (gives_up_later _ w2).
  - eapply wp_mono; [apply (IH (retry + 1) cache3 w4); [lia|exact Hg3|exact Hf3]| |].
    + intros n s' H. exact (commits_later _ w4 _ Hp H).
    + intros s' H. exact (gives_up_later _ w4 _ Hp H).
Qed.

Lemma TryCommit_wp properties reset retry_on_conflict cache (w : World) : good (shared w) → fresh w.2 →
  wp (TryCommit o env delta changelog identifier watermark properties kind reset detect_conflicts retry_on_conflict)
     (λ _ s', commits_to w s'.2) (λ s', gives_up w s'.2) (cache, w).
Proof.
  intros Hg Hf. unfold TryCommit. wp_step. unfold wp at 1, clock. cbn [fst snd]. set (w1 := (w.1, (w.2.1, tick w.2.2)) : World).
  eapply wp_mono; [apply (commit_loop_wp _ _ _ _ _ 0 cache w1); [unfold commit_fuel; lia|exact Hg|exact Hf]| |].
  - intros n s' H. exact (commits_later w w1 _ (reflexivity _) H).
  - intros s' H. exact (gives_up_later w w1 _ (reflexivity _) H).
Qed.
End Outcomes.
