(* ===== verification/Rollback.v ===== *)
(** * Rollbacks, and the number of attempts of a commit

    A rollback commits a snapshot with the files of an older one. The loop over
    the attempts of a commit ends after the number of retries of the options. *)

From stdpp Require Import base list gmap strings relations.
From Stdlib Require Import ZArith Lia.
From S2P Require Import Prelude Rows DataFiles Predicates StateError Paths Manifests ManifestFiles ManifestFilesProofs ManifestMerger Snapshots ConflictDetection Scan Commit CommitProofs CommitTable CommitOutcomes.
Import ManifestEntry ManifestFileMeta ManifestListReader FileStoreScan SnapshotManager ConflictDetection.
Local Open Scope Z_scope.
#[local] Arguments wp : simpl never.

(** ** The number of attempts *)

Section Attempts.
Context (o : Options) (env : Environment) (delta changelog : list ManifestEntry.t) (identifier : Z) (watermark : option Z)
  (properties : list (string * string)) (kind : CommitKind.t) (reset detect_conflicts retry_on_conflict : bool) (start : Z).
Abbreviation commit_loop fuel := (commit_loop o env fuel delta changelog identifier watermark properties kind reset detect_conflicts retry_on_conflict start).

Lemma commit_loop_fuel fuel retry s : (Z.to_nat (commit_max_retries o - retry) < fuel)%nat → commit_loop (S fuel) retry s = commit_loop fuel retry s.
Proof.
  revert retry s. induction fuel as [|fuel IH]; intros retry s Hf; [lia|].
  cbn [Commit.commit_loop]. unfold mbind, M_bind.
  destruct (with_world (interfere env) s) as [[[]|c e] s1]; [|done]. destruct (with_world (LatestSnapshot (fault env)) s1) as [[latest|c e] s2]; [|done].
  destruct (TryCommitOnce _ _ _ _ _ _ _ _ latest detect_conflicts s2) as [[[]|c e] s3]; [done| |done]. destruct retry_on_conflict; cbn [negb]; [|done].
  destruct (clock env s3) as [[now|c e] s4]; [|done]. destruct (Z.leb_spec (commit_max_retries o) retry); [by rewrite orb_true_r|].
  rewrite orb_false_r. destruct (commit_timeout o <? now - start); [done|]. apply (IH (retry + 1) s4). lia.
Qed.
Lemma commit_loop_enough fuel fuel' retry s : (Z.to_nat (commit_max_retries o - retry) < fuel)%nat → (fuel ≤ fuel')%nat →
  commit_loop fuel' retry s = commit_loop fuel retry s.
Proof. intros Hf. induction 1 as [|fuel' Hle IH]; [done|]. rewrite commit_loop_fuel by lia. done. Qed.

Lemma commit_loop_attempts fuel retry s n s' : commit_loop fuel retry s = (Ok n, s') → retry < n ∧ (n ≤ retry + 1 ∨ n ≤ commit_max_retries o + 1).
Proof.
  revert retry s. induction fuel as [|fuel IH]; intros retry s; [done|]. cbn [Commit.commit_loop]. unfold mbind, M_bind.
  destruct (with_world (interfere env) s) as [[[]|c e] s1]; [|done]. destruct (with_world (LatestSnapshot (fault env)) s1) as [[latest|c e] s2]; [|done].
  destruct (TryCommitOnce _ _ _ _ _ _ _ _ latest detect_conflicts s2) as [[[]|c e] s3]; [| |done].
  { intros [= <- <-]. lia. }
  destruct retry_on_conflict; cbn [negb]; [|done].
  destruct (clock env s3) as [[now|c e] s4]; [|done]. destruct (Z.leb_spec (commit_max_retries o) retry); [by rewrite orb_true_r|].
  rewrite orb_false_r. destruct (commit_timeout o <? now - start); [done|]. intros H0%IH. lia.
Qed.
End Attempts.

(** ** Rolling back *)

Section Logs.
Context (o : Options).
Abbreviation ids es := (CreateIdentifier <$> es).

Lemma distinct_once es : NoDup (ids es) → Forall known es → once es.
Proof.
  intros Hnd Hk. split; [|done]. clear Hk. induction es as [|e es IH]; [constructor|]. cbn in Hnd. apply NoDup_cons in Hnd as [Hn Hnd].
  constructor; [by apply IH|]. apply Forall_forall. intros e' He' E. destruct Hn. rewrite E. by apply list_elem_of_fmap_2.
Qed.
Lemma adds_distinct es : once es → Forall is_add es → NoDup (ids es).
Proof.
  intros [Hs _] Ha. induction Hs as [|e es Hs IH He]; [constructor|]. apply Forall_cons in Ha as [Hae Ha]. cbn. constructor; [|by apply IH].
  intros (e'&E&He')%list_elem_of_fmap. rewrite Forall_forall in He, Ha. destruct (He e' He' E) as [_ Hd]. by apply (add_not_delete e'); [apply Ha|].
Qed.
Lemma live_adds log : Forall is_add (MergeLiveEntries log).
Proof. apply Forall_forall. by intros e (_&?&_)%live_spec. Qed.
Lemma live_once log : once log → once (MergeLiveEntries log).
Proof. apply once_filter. Qed.
Lemma adds_live es : Forall is_add es → MergeLiveEntries es = es.
Proof.
  intros Ha. rewrite Forall_forall in Ha. apply filter_all. intros e He. split; [by apply Ha|]. intros (d&Hd&Hdel&_)%deleted_elem.
  by apply (add_not_delete d); [apply Ha|].
Qed.
(** The entries that are left to add are those of the live files. *)
Lemma unpaired_adds log : once log → filter is_add (unpaired log) = MergeLiveEntries log.
Proof.
  intros [_ Hk]. rewrite Forall_forall in Hk. unfold unpaired, MergeLiveEntries. rewrite list_filter_filter. apply filter_ext_in. intros e He.
  rewrite deleted_elem, Forall_forall. split; intros [Ha Hx]; (split; [done|]).
  - intros (d&Hd&Hdel&E). apply (add_not_delete d); [|done]. unfold is_add. by rewrite (Hx d Hd E).
  - intros e' He' E. destruct (Hk e' He') as [Ha'|Hd]; [unfold is_add in *; congruence|]. destruct Hx. by exists e'.
Qed.

Context (la ta : list ManifestEntry.t) (Hla : Forall is_add la) (Hta : Forall is_add ta) (Hlo : once la) (Hto : once ta).
Abbreviation dels := ((λ e, with_kind FileKind.Delete (if drop_delete_stats o then DataFileMeta.CopyWithoutStats (File e) else File e) e) <$>
  filter (λ e, CreateIdentifier e ∉ CreateIdentifier <$> ta) la).
Abbreviation adds := ((λ e, with_kind FileKind.Add (File e) e) <$> filter (λ e, CreateIdentifier e ∉ CreateIdentifier <$> la) ta).

Lemma ids_dels : ids dels = ids (filter (λ e, CreateIdentifier e ∉ ids ta) la).
Proof. rewrite <-list_fmap_compose. apply list_fmap_ext. intros _ e _. cbn. unfold CreateIdentifier. cbn. by destruct (drop_delete_stats o). Qed.
Lemma ids_adds : ids adds = ids (filter (λ e, CreateIdentifier e ∉ ids la) ta).
Proof. rewrite <-list_fmap_compose. by apply list_fmap_ext. Qed.
Lemma dels_elem i : i ∈ ids dels ↔ i ∈ ids la ∧ i ∉ ids ta.
Proof.
  rewrite ids_dels, list_elem_of_fmap. setoid_rewrite list_elem_of_filter. rewrite (list_elem_of_fmap _ la). split.
  - intros (e&->&?&?). split; [by exists e|done].
  - intros [(e&->&?) ?]. by exists e.
Qed.
Lemma adds_elem i : i ∈ ids adds ↔ i ∈ ids ta ∧ i ∉ ids la.
Proof.
  rewrite ids_adds, list_elem_of_fmap. setoid_rewrite list_elem_of_filter. rewrite (list_elem_of_fmap _ ta). split.
  - intros (e&->&?&?). split; [by exists e|done].
  - intros [(e&->&?) ?]. by exists e.
Qed.
Lemma dels_delete : Forall is_delete dels.
Proof. apply Forall_fmap, Forall_true. by intros e. Qed.
Lemma adds_add : Forall is_add adds.
Proof. apply Forall_fmap, Forall_true. by intros e. Qed.

Lemma rollback_once : once (la ++ rollback_delta o la ta).
Proof.
  pose proof dels_delete as Hd. pose proof adds_add as Ha. rewrite Forall_forall in Hd.
  assert (Hin : ∀ es e, e ∈ es → CreateIdentifier e ∈ ids es) by (intros es e He; by apply list_elem_of_fmap_2).
  unfold rollback_delta. rewrite (assoc_L app), !once_app. split_and!; [done| | | |].
  - apply distinct_once; [|eapply Forall_impl; [apply dels_delete|by right]]. rewrite ids_dels. apply adds_distinct; [by apply once_filter|].
    apply Forall_forall. intros e [_ He]%list_elem_of_filter. rewrite Forall_forall in Hla. by apply Hla.
  - intros a b Hai Hb E. split; [rewrite Forall_forall in Hla; by apply Hla|by apply Hd].
  - apply distinct_once; [|eapply Forall_impl; [exact Ha|by left]]. rewrite ids_adds. apply adds_distinct; [by apply once_filter|].
    apply Forall_forall. intros e [_ He]%list_elem_of_filter. rewrite Forall_forall in Hta. by apply Hta.
  - intros a b Hai Hb E. destruct (proj1 (adds_elem (CreateIdentifier b)) (Hin _ _ Hb)) as [_ Hn]. destruct Hn. rewrite <-E.
    apply elem_of_app in Hai as [Hai|Hai]; [by apply Hin|]. by apply (dels_elem (CreateIdentifier a)), Hin.
Qed.

(** The files after the rollback are those of the target. *)
Lemma rollback_live log' : once log' → MergeLiveEntries log' = apply_delta (MergeLiveEntries la) (rollback_delta o la ta) →
  ids (MergeLiveEntries log') ≡ₚ ids ta.
Proof.
  intros Ho' E. apply NoDup_Permutation; [apply adds_distinct; [by apply live_once|apply live_adds]|by apply adds_distinct|].
  pose proof dels_delete as Hd. pose proof adds_add as Ha. rewrite Forall_forall in Hd, Ha.
  assert (Hdel : ∀ i, i ∈ deleted_identifiers (rollback_delta o la ta) ↔ i ∈ ids dels).
  { intros i. rewrite deleted_elem, list_elem_of_fmap. unfold rollback_delta. split.
    - intros (d&[Hi|Hi]%elem_of_app&Hdd&<-); [by exists d|]. by destruct (add_not_delete d); [apply Ha|].
    - intros (d&->&Hi). exists d. split_and!; [apply elem_of_app; by left|by apply Hd|done]. }
  intros i. rewrite E. unfold apply_delta. rewrite adds_live by done. rewrite fmap_app, elem_of_app, !list_elem_of_fmap. split.
  - intros [(e&->&[Hn He]%list_elem_of_filter)|(e&->&(He&Hae&_)%live_spec)].
    + rewrite Hdel, dels_elem in Hn. apply list_elem_of_fmap. destruct (decide (CreateIdentifier e ∈ ids ta)); [done|]. destruct Hn. split; [|done].
      by apply list_elem_of_fmap_2.
    + apply list_elem_of_fmap. unfold rollback_delta in He. apply elem_of_app in He as [He|He]; [by destruct (add_not_delete e); [|apply Hd]|].
      apply (adds_elem (CreateIdentifier e)). by apply list_elem_of_fmap_2.
  - intros Hi%list_elem_of_fmap. destruct (decide (i ∈ ids la)) as [Hl|Hl].
    + left. apply list_elem_of_fmap in Hl as (e&->&He). exists e. split; [done|]. apply list_elem_of_filter. split; [|done]. rewrite Hdel, dels_elem. tauto.
    + right. assert (Hx : i ∈ ids adds) by by apply adds_elem. apply list_elem_of_fmap in Hx as (e&->&He). exists e. split; [done|]. apply live_spec.
      split_and!; [apply elem_of_app; by right|by apply Ha|]. intros d Hin Hdd Ed. destruct Hl. rewrite <-Ed. apply (dels_elem (CreateIdentifier d)), Hdel, deleted_elem.
      by exists d.
Qed.
End Logs.

Section Rollback.
Context (o : Options) (env : Environment) (Huuid : no_slash (uuid_ o)).
Abbreviation St := (@St Empty_set).
Abbreviation stored := (stored (root_ o) (SizeOf env) (partition_stats env)).
Abbreviation readable := (readable (root_ o) (SizeOf env) (partition_stats env)).
Abbreviation fresh := (fresh (root_ o) (uuid_ o)).
Abbreviation trouble := (trouble o env).

Lemma ReadAll_unchanged ms cs (s s0 : St) : unchanged s0 s → Forall2 (stored s0.1) ms cs →
  wp (ManifestFileMerger.ReadAll (fault env) (root_ o) ms) (λ es s', es = concat cs ∧ unchanged s0 s') (λ s', trouble ∧ unchanged s0 s') s.
Proof.
  intros Hu Hst. revert s Hu. induction Hst as [|m es ms cs [Hm _] _ IH]; intros s Hu; cbn [ManifestFileMerger.ReadAll concat]; wp_step; [done|].
  eapply ReadManifest_unchanged; [by rewrite (proj1 Hu)| |intros Hf s' H'; split; [by apply faults_trouble|by etrans]]. intros s1 H1. wp_step.
  eapply wp_mono; [apply IH; by etrans| |done]. intros rest s2 [-> H2]. by wp_step.
Qed.
Lemma ReadAdd_wp snapshot log (s : St) : readable s.1 snapshot log → once log →
  wp (ReadAddManifestEntries o env snapshot) (λ es s', es = MergeLiveEntries log ∧ unchanged s s') (λ s', trouble ∧ unchanged s s') s.
Proof.
  intros (base&delta&cs&Hm&->) Ho. unfold ReadAddManifestEntries. wp_step. eapply wp_mono; [by eapply ReadDataManifests_wp| |intros s' [? ?]; split; [by apply faults_trouble|done]].
  intros ms s1 [-> H1]. wp_step. eapply wp_mono; [by apply (ReadAll_unchanged _ cs s1 s), Hm| |done]. intros es s2 [-> H2]. wp_step.
  rewrite MergeEntries_once by done. apply wp_of_result; [|done]. intros merged [= <-]. wp_step. split; [by apply unpaired_adds|done].
Qed.

Context (theirs : string → Prop) (Htheirs : ∀ p, theirs p → ¬ own_path o p).
Abbreviation good := (good o env [] true (λ _, True)).
Context (Hothers : others_ok o env theirs [] true (λ _, True)).

(** The files of the snapshot after [latest] are those of the target. *)
Definition rolled_back (target : Snapshot.t) (w w' : World) : Prop :=
  ∃ latest new log log', is_latest w.1 (Some latest) ∧ snapshots w'.1 !! (Snapshot.Id latest + 1) = Some new ∧
    Snapshot.NextRowId new = max_option (Snapshot.NextRowId latest) (Snapshot.NextRowId target) ∧
    readable w'.2.1 target log ∧ readable w'.2.1 new log' ∧
    CreateIdentifier <$> MergeLiveEntries log' ≡ₚ CreateIdentifier <$> MergeLiveEntries log.

Lemma table_good w : table_ok o env w → good w.
Proof.
  intros Ht. split; [done|]. intros id s log _ _. split; [by apply Forall_true|]. by intros e ?%elem_of_nil.
Qed.

Lemma RollbackToAsLatest_wp id target (w : World) : table_ok o env (shared w) → fresh w.2 → snapshots w.1 !! id = Some target →
  wp (RollbackToAsLatest o env id)
     (λ b w', uncertain o env w w' ∧ if b : bool then rolled_back target w w' else ∃ id s, snapshots w.1 !! id = None ∧ snapshots w'.1 !! id = Some s)
     (fails o env w) w.
Proof.
  intros Ht Hf Htarget. assert (Hu : ∀ w', trouble → same w w' → fails o env w w').
  { intros w' Htr Hs. split; [done|]. unfold uncertain. rewrite (same_shared _ _ Hs). by split. }
  unfold RollbackToAsLatest. wp_step. eapply wp_mono; [apply wp_reads; [apply reads_LatestSnapshot|apply LatestSnapshot_wp, Ht]| |].
  2: { intros w1 [Hf1 Hs1]. apply Hu; [by apply some_fault_trouble|done]. }
  intros latest w1 [[E1 Hl] Hs1]. destruct latest as [latest|]; [|cbn in Hl; by rewrite Hl in Htarget].
  wp_step. eapply wp_mono; [apply wp_reads; [apply reads_LoadSnapshot|apply LoadSnapshot_wp; by rewrite E1]| |].
  2: { intros w2 [Hf2 Hs2]. apply Hu; [by apply some_fault_trouble|by eapply same_trans]. }
  intros t w2 [[E2 ->] Hs2]. assert (Hs : same w w2) by by eapply same_trans. clear Hs1 Hs2 E1 E2 w1.
  destruct (latest_based _ _ _ _ Ht Hl) as (Hb&_&_). destruct (proj2 Ht _ _ Hb) as (_&llog&Hlr&Hlo). destruct (proj2 Ht _ _ Htarget) as (_&tlog&Htr&Hto).
  pose proof (same_shared _ _ Hs) as Es. pose proof (f_equal snd Es) as Efs. pose proof (f_equal fst Es) as Ed. cbn in Efs, Ed.
  destruct w2 as [d st]. cbn [fst snd] in *. wp_step. apply wp_with_store. eapply wp_mono; [apply (ReadAdd_wp latest llog); [by rewrite Efs|done]| |].
  2: { intros st1 [Hx H1]. apply Hu; [done|]. eapply same_trans; [exact Hs|]. by split. }
  intros es st1 [-> H1]. wp_step. apply wp_with_store. eapply wp_mono; [apply (ReadAdd_wp target tlog); [by rewrite (proj1 H1), Efs|done]| |].
  2: { intros st2 [Hx H2]. apply Hu; [done|]. eapply same_trans; [exact Hs|]. split; [done|]. by etrans. }
  intros es st2 [-> H2]. assert (Hs2 : same w (d, st2)) by (eapply same_trans; [exact Hs|]; split; [done|by etrans]).
  clear Es Efs Hs H1 H2 st st1. pose proof (same_shared _ _ Hs2) as Es. pose proof (same_fresh _ _ _ Hs2 Hf) as Hf2.
  set (la := MergeLiveEntries llog). set (ta := MergeLiveEntries tlog).
  assert (Hro : once (la ++ rollback_delta o la ta)) by (apply rollback_once; (by apply live_adds) || by apply live_once).
  set (made := λ new df, df = rollback_delta o la ta ∧ Snapshot.Id new = next_id (Some latest) ∧
    Snapshot.NextRowId new = max_option (Snapshot.NextRowId latest) (Snapshot.NextRowId target)).
  eapply wp_mono; [apply (PublishRollback_wp o env theirs Htheirs [] true (λ _, True) Hothers _ (Some latest) [] la made False)| |].
  - by intros new df (->&?&_).
  - apply table_good. by rewrite Es.
  - by rewrite Es.
  - constructor.
  - apply once_app in Hro as ([_ Hk1]&[_ Hk2]&_). eapply wp_mono; [by apply PrepareRollback_wp| |done].
    intros r s' (?&?&?). exists (rollback_delta o la ta). by split_and!.
  - intros b w3 Hc. unfold committed, uncertain in Hc. rewrite Es in Hc. destruct b.
  2: { destruct Hc as [Hc [s Hs]]. split; [done|]. exists (next_id (Some latest)), s. split; [|done]. by apply (latest_based _ _ _ _ Ht Hl). }
    destruct Hc as (Ht3&Hp3&new&log'&df&Hnew&(->&_&Hrow)&Hr'&Hlive). split; [by split|]. exists latest, new, tlog, log'. split_and!; [done|done|done| |done|].
    + exact (preserves_readable _ _ _ _ _ _ _ Hp3 Htarget Htr).
    + destruct (proj2 Ht3 _ _ Hnew) as (_&log2&Hr2&Ho2). pose proof (readable_unique _ _ _ _ _ _ Hr' Hr2) as <-.
      eapply (rollback_live o la ta); [..|exact Hlive]; (by apply live_adds) || (by apply live_once) || done.
  - intros w3 [[Hx|[]] Hc]. split; [done|]. unfold uncertain in *. by rewrite Es in Hc.
Qed.
End Rollback.
