(* ===== verification/LocalRename.v ===== *)
(** * Renaming in the local file system

    [LocalFileSystem::Rename] of src/paimon/fs/local/local_file_system.cpp looks
    for the destination before it calls rename(2). Each system call is a step,
    and the steps of several callers interleave. A commit relies on a rename
    that never replaces a file: that holds for a call that nothing interleaves
    with, and fails for two calls at once. *)

From stdpp Require Import base list gmap strings.
From Stdlib Require Import ZArith Lia.
From S2P Require Import Prelude.
Local Open Scope Z_scope.

Module LocalFileSystem.
Section Rename.
Context {Content : Type}.
Definition Files : Type := gmap string Content.

(** Where a call is: before it looks for the source, before it looks for the
    destination, before rename(2). *)
Inductive Pc := FindSrc | FindDst | SystemRename | Returned (status : Result unit).
Record Call := mkCall { src : string; dst : string; pc : Pc }.
Definition at_pc (p : Pc) (c : Call) : Call := mkCall (src c) (dst c) p.
Definition start (src dst : string) : Call := mkCall src dst FindSrc.

(** The directories exist and the source is a file. *)
Definition call_step (c : Call) (fs : Files) : Call * Files :=
  match pc c with
  | FindSrc => match fs !! src c with
               | Some _ => (at_pc FindDst c, fs)
               | None => (at_pc (Returned (Err NotExist "src file not exist")) c, fs)
               end
  | FindDst => match fs !! dst c with
               | Some _ => (at_pc (Returned (Err Invalid "dst file already exist")) c, fs)
               | None => (at_pc SystemRename c, fs)
               end
  | SystemRename => match fs !! src c with
                    | Some x => (at_pc (Returned (Ok ())) c, <[dst c := x]> (delete (src c) fs))
                    | None => (at_pc (Returned (Err IOError "No such file or directory")) c, fs)
                    end
  | Returned _ => (c, fs)
  end.
(** A call on its own. *)
Definition Rename (src dst : string) (fs : Files) : Call * Files :=
  let '(c, fs) := call_step (start src dst) fs in
  let '(c, fs) := call_step c fs in
  call_step c fs.

(** Several calls: the schedule names the call that makes the next step. *)
Fixpoint run (schedule : list nat) (calls : list Call) (fs : Files) : list Call * Files :=
  match schedule with
  | [] => (calls, fs)
  | i :: rest => match calls !! i with
                 | Some c => let '(c, fs) := call_step c fs in run rest (<[i := c]> calls) fs
                 | None => run rest calls fs
                 end
  end.

Lemma Rename_replaces_nothing s d (fs : Files) :
  pc (Rename s d fs).1 =
    Returned (match fs !! s, fs !! d with
              | None, _ => Err NotExist "src file not exist"
              | Some _, Some _ => Err Invalid "dst file already exist"
              | Some _, None => Ok ()
              end) ∧
  (Rename s d fs).2 = match fs !! s, fs !! d with Some x, None => <[d := x]> (delete s fs) | _, _ => fs end.
Proof.
  unfold Rename, start. cbn. destruct (fs !! s) as [x|] eqn:Es; cbn; [|done]. destruct (fs !! d) eqn:Ed; cbn; [done|]. by rewrite Es.
Qed.
End Rename.

(** Two commits of the same snapshot both succeed, and the first one is lost. *)
Theorem local_rename_race :
  let fs : @Files Z := {["tmp-a" := 1; "tmp-b" := 2]}%string in
  let '(calls, fs') := run [0; 1; 0; 1; 0; 1]%nat [start "tmp-a" "snapshot-1"; start "tmp-b" "snapshot-1"]%string fs in
  pc <$> calls = [Returned (Ok ()); Returned (Ok ())] ∧ fs' = {["snapshot-1"%string := 2]}.
Proof. vm_compute. done. Qed.
End LocalFileSystem.
