(* ===== verification/Writers.v ===== *)
(** * File writers

    [SingleFileWriter] with [KeyValueDataFileWriter]
    (src/paimon/core/io/single_file_writer.h, key_value_data_file_writer.cpp)
    and [RollingFileWriter] (rolling_file_writer.h), over a file system whose
    operations may fail at any time. The format writer, the image of its file
    and the statistics extracted from it are parameters ([DataFormat]). File
    indexes, completion callbacks, external paths, metrics and logging are left
    out; what a file holds between its creation and the end of [Close] is not
    described. *)

From stdpp Require Import base list strings gmap.
From Stdlib Require Import ZArith Lia.
From S2P Require Import Prelude Rows DataFiles KeyValues StateError Paths.
Import DataFileMeta.
Local Open Scope Z_scope.

(** ** Batches *)

(** [KeyValueBatch], with the rows in place of the Arrow array. *)
Record KeyValueBatch := mkBatch {
  batch : list KeyValue;
  b_delete_row_count : Z;
  b_min_sequence_number : Z;
  b_max_sequence_number : Z;
  b_min_key : InternalRow;
  b_max_key : InternalRow
}.
Definition int64_max : Z := 2 ^ 63 - 1.
Definition int64_min : Z := - 2 ^ 63.

(** [KeyValueMetaProjectionConsumer::NextBatch]. *)
Definition ConvertBatch (key_value_vec : list KeyValue) : Result KeyValueBatch :=
  match key_value_vec with
  | [] => Err Invalid "invalid key value batch, cannot be empty"
  | first :: _ =>
      Ok (mkBatch key_value_vec
            (Z.of_nat (length (filter (λ row, is_retract row = true) key_value_vec)))
            (foldl (λ m row, Z.min m (sequence_number row)) int64_max key_value_vec)
            (foldl (λ m row, Z.max m (sequence_number row)) int64_min key_value_vec)
            (key first)
            (key (List.last key_value_vec first)))
  end.

(** ** The environment *)

(** [Disk] is the content of a file, [Image] that of the file of a finished
    format writer; [ReadDisk] is what a reader returns for it, except for the
    level, which is not stored. *)
Class DataFormat := {
  FormatWriter : Type;
  Disk : Type;
  NewFormatWriter : FormatWriter;
  AddBatch : list KeyValue → FormatWriter → FormatWriter;
  FormatReachTargetSize : bool → Z → FormatWriter → bool;
  EmptyFile : Disk;
  Image : FormatWriter → Disk;
  DiskSize : Disk → Z;
  ExtractKeyStats : Disk → SimpleStats;
  ExtractValueStats : Disk → SimpleStats;
  ReadDisk : Disk → list (list KeyValue)
}.

(** A file holds the rows written to it, in order, without their levels. *)
Definition unleveled (kv : KeyValue) : KeyValue := mkKeyValue (value_kind kv) (sequence_number kv) UNKNOWN_LEVEL (key kv) (value kv).
Class DataFormatLaws (F : DataFormat) : Prop :=
  read_written bs : concat (ReadDisk (Image (foldl (λ f b, AddBatch b f) NewFormatWriter bs))) = unleveled <$> concat bs.

(** The operations that may fail. *)
Inductive Op := OpCreate | OpBuild | OpAddBatch | OpFlush | OpFinish | OpGetPos | OpClose | OpReachTargetSize | OpStats | OpClock
              | OpDelete | OpOpen | OpRead | OpCheckCancelled.

Section Writers.
Context {F : DataFormat}.

(** The files, the number of operations so far and the counter of the path
    factory. *)
Record Env := mkEnv { files : gmap string Disk; ticks : nat; path_count_ : Z }.
(** The outcome of an operation depends on when it is called. *)
Context (fault : Op → nat → Result unit) (clock : nat → Z).

Definition tick (e : Env) : Env := mkEnv (files e) (S (ticks e)) (path_count_ e).
Definition set_file (path : string) (d : Disk) (e : Env) : Env :=
  mkEnv (<[path := d]> (files e)) (ticks e) (path_count_ e).
(** A deletion that fails is only logged. *)
Definition Delete (path : string) (e : Env) : Env :=
  mkEnv (match fault OpDelete (ticks e) with Ok _ => delete path (files e) | Err _ _ => files e end) (S (ticks e))
    (path_count_ e).

(** ** SingleFileWriter *)

(** [fs_] and [out_] tell whether the file system is set and whether the
    output stream is open. *)
Record Writer := mkWriter {
  path_ : string;
  fs_ : bool;
  out_ : bool;
  writer_ : option FormatWriter;
  closed_ : bool;
  record_count_ : Z;
  output_bytes_ : Z;
  min_key_ : option InternalRow;
  max_key_ : option InternalRow;
  min_sequence_number_ : Z;
  max_sequence_number_ : Z;
  delete_row_count_ : Z
}.
Definition new_writer : Writer :=
  mkWriter "" false false None false 0 (-1) None None int64_max int64_min 0.

(** The part of the state that belongs to the file: path, file system,
    stream, format writer and whether it is closed. *)
Definition set_lifecycle (path : string) (fs out : bool) (writer : option FormatWriter) (closed : bool) (w : Writer) : Writer :=
  mkWriter path fs out writer closed (record_count_ w) (output_bytes_ w) (min_key_ w) (max_key_ w)
    (min_sequence_number_ w) (max_sequence_number_ w) (delete_row_count_ w).
Definition set_counts (record_count output_bytes : Z) (w : Writer) : Writer :=
  mkWriter (path_ w) (fs_ w) (out_ w) (writer_ w) (closed_ w) record_count output_bytes (min_key_ w) (max_key_ w)
    (min_sequence_number_ w) (max_sequence_number_ w) (delete_row_count_ w).

Definition WS : Type := Writer * Env.
Definition io (op : Op) : M WS unit := λ s, (fault op (ticks s.2), (s.1, tick s.2)).
Definition on_writer (f : Writer → Writer) : M WS unit := modify (λ s, (f s.1, s.2)).
Definition on_env (f : Env → Env) : M WS unit := modify (λ s, (s.1, f s.2)).

Definition Abort (s : WS) : WS :=
  let w := s.1 in
  let e := if out_ w then tick s.2 else s.2 in
  (set_lifecycle (path_ w) (fs_ w) false None (closed_ w) w, if fs_ w then Delete (path_ w) e else e).

(** [Init] with a builder that is not a [DirectWriterBuilder]. *)
Definition Init (path : string) : M WS unit :=
  guarded Abort (
    _ ← on_writer (λ w, set_lifecycle path true (out_ w) (writer_ w) (closed_ w) w);
    _ ← io OpCreate;
    found ← gets (λ s : WS, files s.2 !! path);
    match found with
    | Some _ => fail IOError "the file exists"
    | None =>
        _ ← on_env (set_file path EmptyFile);
        _ ← on_writer (λ w, set_lifecycle (path_ w) (fs_ w) true (writer_ w) (closed_ w) w);
        _ ← io OpBuild;
        on_writer (λ w, set_counts 0 (output_bytes_ w)
                          (set_lifecycle (path_ w) (fs_ w) (out_ w) (Some NewFormatWriter) false w))
    end).

Definition CheckNotClosed : M WS FormatWriter :=
  w ← gets fst;
  if closed_ w then fail Invalid "Writer has already closed!"
  else match writer_ w with None => fail Invalid "Writer has been aborted!" | Some f => mret f end.

(** [SingleFileWriter::Write], with the converter that moves the rows out of
    the batch. *)
Definition WriteRecord (b : KeyValueBatch) : M WS unit :=
  f ← CheckNotClosed;
  guarded Abort (
    _ ← io OpAddBatch;
    _ ← on_writer (λ w, set_lifecycle (path_ w) (fs_ w) (out_ w) (Some (AddBatch (batch b) f)) (closed_ w) w);
    on_writer (λ w, set_counts (record_count_ w + Z.of_nat (length (batch b))) (output_bytes_ w) w)).

(** [KeyValueDataFileWriter::Write]. *)
Definition note_batch (b : KeyValueBatch) (w : Writer) : Writer :=
  mkWriter (path_ w) (fs_ w) (out_ w) (writer_ w) (closed_ w) (record_count_ w) (output_bytes_ w)
    (match min_key_ w with None => Some (b_min_key b) | k => k end) (Some (b_max_key b))
    (Z.min (min_sequence_number_ w) (b_min_sequence_number b)) (Z.max (max_sequence_number_ w) (b_max_sequence_number b))
    (delete_row_count_ w + b_delete_row_count b).
Definition Write (b : KeyValueBatch) : M WS unit :=
  _ ← on_writer (note_batch b); _ ← CheckNotClosed; WriteRecord b.

Definition Close : M WS unit :=
  w ← gets fst;
  if closed_ w then mret () else
  match writer_ w with
  | None => fail Invalid "Writer has been aborted!"
  | Some f =>
      guarded Abort (
        _ ← io OpFlush;
        _ ← io OpFinish;
        _ ← on_env (set_file (path_ w) (Image f));
        _ ← io OpFlush;
        _ ← io OpGetPos;
        _ ← on_writer (λ w, set_counts (record_count_ w) (DiskSize (Image f)) w);
        _ ← on_writer (λ w, set_lifecycle (path_ w) (fs_ w) false (writer_ w) (closed_ w) w);
        _ ← io OpClose;
        on_writer (λ w, set_lifecycle (path_ w) (fs_ w) (out_ w) (writer_ w) true w))
  end.

Definition ReachTargetSize (suggested_check : bool) (target_size : Z) : M WS bool :=
  w ← gets fst;
  match writer_ w with
  | None => mret false
  | Some f => _ ← io OpReachTargetSize; mret (FormatReachTargetSize suggested_check target_size f)
  end.

(** The executor holds the path to be deleted. *)
Definition GetAbortExecutor : M WS string :=
  w ← gets fst; if closed_ w then mret (path_ w) else fail Invalid "Writer should be closed!".

Context (schema_id_ level_ : Z) (file_source_ : FileSource.FileSource).

(** [KeyValueDataFileWriter::GetResult] and [GetFieldStats]. The keys are null
    if nothing has been written. *)
Definition GetResult : M WS t :=
  w ← gets fst;
  if negb (closed_ w) then fail Invalid "Cannot access metric unless the writer is closed." else
  _ ← io OpStats;
  disk ← gets (λ s : WS, files s.2 !! path_ w);
  match disk, min_key_ w, max_key_ w with
  | None, _, _ => fail IOError "the file does not exist"
  | Some d, Some min_key, Some max_key =>
      _ ← io OpClock;
      local_micro ← gets (λ s : WS, clock (ticks s.2));
      mret (DataFileMeta.mk (PathUtil.GetName (path_ w)) (output_bytes_ w) (record_count_ w) min_key max_key (ExtractKeyStats d)
              (ExtractValueStats d) (min_sequence_number_ w) (max_sequence_number_ w) schema_id_ level_ []
              (mkTimestamp (Z.quot local_micro 1000) 0) (Some (delete_row_count_ w)) None (Some file_source_) None None None
              None None)
  | _, _, _ => fail UnknownError "null pointer"
  end.

(** ** RollingFileWriter *)

Record Rolling := mkRolling {
  r_record_count_ : Z;
  current_file_record_count_ : Z;
  last_need_rolling_record_count_ : Z;
  r_closed_ : bool;
  closed_writers_ : list string;
  results_ : list t;
  current_writer_ : option Writer
}.
Definition new_rolling : Rolling := mkRolling 0 0 0 false [] [] None.
Definition RS : Type := Rolling * Env.
Definition set_current (w : option Writer) (r : Rolling) : Rolling :=
  mkRolling (r_record_count_ r) (current_file_record_count_ r) (last_need_rolling_record_count_ r) (r_closed_ r)
    (closed_writers_ r) (results_ r) w.
Definition on_rolling (f : Rolling → Rolling) : M RS unit := modify (λ s, (f s.1, s.2)).

(** A call of a method of the current writer. *)
Definition on_current {A} (m : M WS A) : M RS A := λ s,
  match current_writer_ s.1 with
  | None => (Err UnknownError "null pointer", s)
  | Some w => let '(r, (w', e)) := m (w, s.2) in (r, (set_current (Some w') s.1, e))
  end.

Context (target_file_size_ target_file_row_num_ : Z).
Context (parent_ uuid_ format_identifier_ data_file_prefix_ : string).
Definition CHECK_ROLLING_RECORD_CNT : Z := 1000.

Definition SuggestCheck : M RS bool :=
  r ← gets fst;
  if CHECK_ROLLING_RECORD_CNT <=? r_record_count_ r - last_need_rolling_record_count_ r then
    _ ← on_rolling (λ r, mkRolling (r_record_count_ r) (current_file_record_count_ r) (r_record_count_ r) (r_closed_ r)
                           (closed_writers_ r) (results_ r) (current_writer_ r));
    mret true
  else mret false.

Definition NeedRollingFile : M RS bool :=
  r ← gets fst;
  if target_file_row_num_ <=? current_file_record_count_ r then mret true
  else suggested ← SuggestCheck; on_current (ReachTargetSize suggested target_file_size_).

(** [KeyValueDataFileWriterFactory::CreateWriter] gets the path from the path
    factory; a writer whose [Init] fails is not kept. *)
Definition OpenCurrentWriter : M RS unit := λ s,
  let '(path, n) := DataFilePathFactory.NewPath parent_ uuid_ format_identifier_ data_file_prefix_ (path_count_ s.2) in
  match Init path (new_writer, mkEnv (files s.2) (ticks s.2) n) with
  | (Ok _, (w, e)) => (Ok (), (set_current (Some w) s.1, e))
  | (Err c m, (_, e)) => (Err c m, (s.1, e))
  end.

Definition CloseCurrentWriter : M RS unit :=
  r ← gets fst;
  match current_writer_ r with
  | None => mret ()
  | Some _ =>
      _ ← on_current Close;
      abort_executor ← on_current GetAbortExecutor;
      _ ← on_rolling (λ r, mkRolling (r_record_count_ r) (current_file_record_count_ r) (last_need_rolling_record_count_ r)
                             (r_closed_ r) (closed_writers_ r ++ [abort_executor]) (results_ r) (current_writer_ r));
      result ← on_current GetResult;
      on_rolling (λ r, mkRolling (r_record_count_ r) 0 (last_need_rolling_record_count_ r) (r_closed_ r) (closed_writers_ r)
                         (results_ r ++ [result]) None)
  end.

Definition RollingAbort (s : RS) : RS :=
  let '(cur, e) :=
    match current_writer_ s.1 with
    | None => (None, s.2)
    | Some w => let '(w', e) := Abort (w, s.2) in (Some w', e)
    end in
  (set_current cur s.1, foldl (λ e path, Delete path e) e (closed_writers_ s.1)).

Definition RollingWrite (b : KeyValueBatch) : M RS unit :=
  guarded RollingAbort (
    r ← gets fst;
    _ ← match current_writer_ r with None => OpenCurrentWriter | Some _ => mret () end;
    _ ← on_current (Write b);
    let record_count := Z.of_nat (length (batch b)) in
    _ ← on_rolling (λ r, mkRolling (r_record_count_ r + record_count) (current_file_record_count_ r + record_count)
                           (last_need_rolling_record_count_ r) (r_closed_ r) (closed_writers_ r) (results_ r) (current_writer_ r));
    need_rolling_file ← NeedRollingFile;
    if (need_rolling_file : bool) then CloseCurrentWriter else mret ()).

Definition set_closed (r : Rolling) : Rolling :=
  mkRolling (r_record_count_ r) (current_file_record_count_ r) (last_need_rolling_record_count_ r) true (closed_writers_ r)
    (results_ r) (current_writer_ r).
Definition RollingClose : M RS unit :=
  r ← gets fst;
  if r_closed_ r then mret ()
  else _ ← guarded (λ s : RS, let '(r, e) := RollingAbort s in (set_closed r, e)) CloseCurrentWriter;
       on_rolling set_closed.

Definition RollingGetResult : M RS (list t) :=
  r ← gets fst;
  if r_closed_ r then mret (results_ r)
  else fail Invalid "Cannot access the results unless close all writers.".
End Writers.
