(* ===== verification/WritersProofs.v ===== *)
(** * Correctness of the file writers

    A rolling writer that succeeds has written every batch to exactly one file,
    in order, and the metadata of each file describes its rows; one that fails
    leaves no file behind. *)

From stdpp Require Import base list strings gmap.
From Stdlib Require Import ZArith Lia.
From S2P Require Import Prelude Rows DataFiles KeyValues StateError Paths Writers.
Import DataFileMeta.
Local Open Scope Z_scope.

Section Rows.

Definition deletes (rows : list KeyValue) : Z := Z.of_nat (length (filter (λ row, is_retract row = true) rows)).
Definition min_sequence (rows : list KeyValue) : Z := foldl (λ m row, Z.min m (sequence_number row)) int64_max rows.
Definition max_sequence (rows : list KeyValue) : Z := foldl (λ m row, Z.max m (sequence_number row)) int64_min rows.

Lemma deletes_app l1 l2 : deletes (l1 ++ l2) = deletes l1 + deletes l2.
Proof. unfold deletes. rewrite filter_app, length_app. lia. Qed.

Lemma foldl_min (rows : list KeyValue) a b :
  foldl (λ m row, Z.min m (sequence_number row)) (Z.min a b) rows =
  Z.min a (foldl (λ m row, Z.min m (sequence_number row)) b rows).
Proof. revert b. induction rows as [|x l IH]; intros b; simpl; [done|]. rewrite <-IH. f_equal. lia. Qed.
Lemma foldl_max (rows : list KeyValue) a b :
  foldl (λ m row, Z.max m (sequence_number row)) (Z.max a b) rows =
  Z.max a (foldl (λ m row, Z.max m (sequence_number row)) b rows).
Proof. revert b. induction rows as [|x l IH]; intros b; simpl; [done|]. rewrite <-IH. f_equal. lia. Qed.

Lemma min_sequence_app l1 l2 : min_sequence (l1 ++ l2) = Z.min (min_sequence l1) (min_sequence l2).
Proof.
  unfold min_sequence. rewrite foldl_app. set (m := foldl _ _ l1).
  assert (Hm : m = Z.min m int64_max); [|rewrite Hm at 1; apply foldl_min].
  symmetry. apply Z.min_l. subst m. induction l1 as [|x l1 IH] using rev_ind; [done|]. rewrite foldl_app. simpl. lia.
Qed.
Lemma max_sequence_app l1 l2 : max_sequence (l1 ++ l2) = Z.max (max_sequence l1) (max_sequence l2).
Proof.
  unfold max_sequence. rewrite foldl_app. set (m := foldl _ _ l1).
  assert (Hm : m = Z.max m int64_min); [|rewrite Hm at 1; apply foldl_max].
  symmetry. apply Z.max_l. subst m. induction l1 as [|x l1 IH] using rev_ind; [done|]. rewrite foldl_app. simpl. lia.
Qed.

(** The batches made by the converter. *)
Definition converted (b : KeyValueBatch) : Prop := ConvertBatch (batch b) = Ok b.
Definition rows (g : list KeyValueBatch) : list KeyValue := concat (map batch g).

Lemma rows_app g g' : rows (g ++ g') = rows g ++ rows g'.
Proof. unfold rows. by rewrite map_app, concat_app. Qed.
Lemma rows_snoc g b : rows (g ++ [b]) = rows g ++ batch b.
Proof. rewrite rows_app. unfold rows. simpl. by rewrite app_nil_r. Qed.

Lemma List_last_last {A} (l : list A) x : last (x :: l) = Some (List.last (x :: l) x).
Proof. revert x. induction l as [|y l IH]; intros x; [done|]. rewrite last_cons_cons, IH. f_equal. simpl.
  destruct l as [|z l]; [done|]. clear. revert x y z. induction l as [|u l IH]; intros x y z; [done|]. simpl. apply (IH x y). Qed.

Lemma converted_spec b : converted b →
  b_delete_row_count b = deletes (batch b) ∧ b_min_sequence_number b = min_sequence (batch b) ∧
  b_max_sequence_number b = max_sequence (batch b) ∧ Some (b_min_key b) = key <$> head (batch b) ∧
  Some (b_max_key b) = key <$> last (batch b).
Proof.
  unfold converted. intros E. destruct (batch b) as [|x l] eqn:Eb; [done|]. unfold ConvertBatch in E.
  apply Ok_inj in E. rewrite <-E. cbn [b_delete_row_count b_min_sequence_number b_max_sequence_number b_min_key b_max_key].
  split_and!; try done. by rewrite List_last_last.
Qed.
Lemma converted_ne b : converted b → batch b ≠ [].
Proof. unfold converted. intros E Eb. by rewrite Eb in E. Qed.

(** Nothing of this depends on the levels. *)
Lemma deletes_unleveled l : deletes (unleveled <$> l) = deletes l.
Proof.
  unfold deletes. f_equal. induction l as [|kv l IH]; [done|]. cbn [fmap list_fmap]. rewrite !filter_cons.
  assert (is_retract (unleveled kv) = is_retract kv) as -> by done. case_decide; cbn; congruence.
Qed.
Lemma min_sequence_unleveled l : min_sequence (unleveled <$> l) = min_sequence l.
Proof. unfold min_sequence. generalize int64_max. induction l as [|kv l IH]; intros m; cbn; [done|]. apply IH. Qed.
Lemma max_sequence_unleveled l : max_sequence (unleveled <$> l) = max_sequence l.
Proof. unfold max_sequence. generalize int64_min. induction l as [|kv l IH]; intros m; cbn; [done|]. apply IH. Qed.
Lemma keys_unleveled (l : list KeyValue) : key <$> (unleveled <$> l) = key <$> l.
Proof. by rewrite <-list_fmap_compose. Qed.

(** What the metadata of a file says about its rows. *)
Definition summary (m : t) (l : list KeyValue) : Prop :=
  row_count m = Z.of_nat (length l) ∧ Some (min_key m) = key <$> head l ∧ Some (max_key m) = key <$> last l ∧
  min_sequence_number m = min_sequence l ∧ max_sequence_number m = max_sequence l ∧ delete_row_count m = Some (deletes l).
Lemma summary_unleveled m l : summary m l → summary m (unleveled <$> l).
Proof.
  unfold summary. rewrite length_fmap, min_sequence_unleveled, max_sequence_unleveled, deletes_unleveled.
  intros (?&?&?&?&?&?). split_and!; try done.
  - destruct l; [done|]. done.
  - rewrite fmap_last. by destruct (last l).
Qed.
End Rows.

Section Proofs.
Context {F : DataFormat} (fault : Op → nat → Result unit) (clock : nat → Z).
Context (schema_id_ level_ : Z) (file_source_ : FileSource.FileSource) (target_file_size_ target_file_row_num_ : Z).
Context (parent_ uuid_ format_identifier_ data_file_prefix_ : string).

Abbreviation Delete := (Delete fault).
Abbreviation Abort := (Abort fault).
Abbreviation Init := (Init fault).
Abbreviation Write := (Write fault).
Abbreviation Close := (Close fault).
Abbreviation GetResult := (GetResult fault clock schema_id_ level_ file_source_).
Abbreviation RollingWrite := (RollingWrite fault clock schema_id_ level_ file_source_ target_file_size_ target_file_row_num_
  parent_ uuid_ format_identifier_ data_file_prefix_).
Abbreviation RollingClose := (RollingClose fault clock schema_id_ level_ file_source_).
Abbreviation RollingAbort := (RollingAbort fault).
Abbreviation CloseCurrentWriter := (CloseCurrentWriter fault clock schema_id_ level_ file_source_).

Definition path_at (n : Z) : string := (DataFilePathFactory.NewPath parent_ uuid_ format_identifier_ data_file_prefix_ n).1.
#[local] Arguments path_at : simpl never.

(** ** Single files *)

(** The format writer and the writer after the batches of [g]. *)
Definition format_of (g : list KeyValueBatch) : FormatWriter := foldl (λ f b, AddBatch (batch b) f) NewFormatWriter g.
Definition writer_of (path : string) (g : list KeyValueBatch) : Writer :=
  mkWriter path true true (Some (format_of g)) false (Z.of_nat (length (rows g))) (-1) (key <$> head (rows g))
    (key <$> last (rows g)) (min_sequence (rows g)) (max_sequence (rows g)) (deletes (rows g)).

(** Everything but the own file is left alone. *)
Definition framed (path : string) (e : Env) (w' : Writer) (e' : Env) : Prop :=
  path_ w' = path ∧ fs_ w' = true ∧ path_count_ e' = path_count_ e ∧
  ∀ p, p ≠ path → files e' !! p = files e !! p.

(** Some operation fails. *)
Definition faulty : Prop := ∃ op n, is_ok (fault op n) = false.
Definition fails_framed (path : string) (e : Env) (s : WS) : Prop := faulty ∧ framed path e s.1 s.2.

Lemma wp_io op (Q : unit → WS → Prop) (E : WS → Prop) (s : WS) :
  Q () (s.1, tick s.2) → (faulty → E (s.1, tick s.2)) → wp (io fault op) Q E s.
Proof.
  intros HQ HE. unfold wp, io. destruct (fault op _) as [[]|c m] eqn:Ef; [done|]. apply HE. exists op, (ticks s.2). by rewrite Ef.
Qed.

Lemma Abort_framed path e w e1 : framed path e w e1 → framed path e (Abort (w, e1)).1 (Abort (w, e1)).2.
Proof.
  intros (Hp&Hf&Hc&Hfiles). unfold Writers.Abort. cbn [fst snd]. split_and!; [done|done| |].
  - by destruct (fs_ w), (out_ w).
  - intros p Hne. rewrite Hf, Hp. unfold Writers.Delete. cbn [files].
    assert (files (if out_ w then tick e1 else e1) = files e1) as -> by (by destruct (out_ w)).
    destruct (fault _ _); [rewrite lookup_delete_ne by done|]; by apply Hfiles.
Qed.

(** [files] and the counter are those of [e], except for the given files. *)
Definition env_is (fs : gmap string Disk) (n : Z) (e : Env) : Prop := files e = fs ∧ path_count_ e = n.

Lemma env_framed path fs n w e e' : path_ w = path → fs_ w = true → env_is fs n e' → path_count_ e = n →
  (∀ p, p ≠ path → fs !! p = files e !! p) → framed path e w e'.
Proof. intros Hp Hf [<- <-] Hn Hfs. by split_and!. Qed.

Lemma framed_io op path e (Q : unit → WS → Prop) (w : Writer) e' :
  framed path e w e' → (framed path e w (tick e') → Q () (w, tick e')) →
  wp (io fault op) Q (λ s, fails_framed path e (Abort s)) (w, e').
Proof.
  intros Hf HQ. assert (framed path e w (tick e')) by done. apply wp_io; cbn [fst snd]; [by apply HQ|]. intros. split; [done|]. by apply Abort_framed.
Qed.

Definition opens (path : string) (e : Env) (s : WS) : Prop :=
  s.1 = writer_of path [] ∧ files s.2 = <[path := EmptyFile]> (files e) ∧ path_count_ s.2 = path_count_ e.

Lemma Init_wp path e : files e !! path = None →
  wp (Init path) (λ _, opens path e) (fails_framed path e) (new_writer, e).
Proof.
  intros Hnone. unfold Writers.Init, on_writer, on_env. do 3 wp_step. cbn [fst snd].
  wp_step. apply (framed_io _ path e); [done|]. intros _. do 2 wp_step. cbn [snd tick files]. rewrite Hnone.
  do 4 wp_step. cbn [fst snd]. wp_step. apply (framed_io _ path e).
  { split_and!; try done. intros p Hne. cbn. by rewrite lookup_insert_ne. }
  intros _. wp_step. by split_and!.
Qed.

Lemma Write_wp path g b e : converted b →
  wp (Write b) (λ _ s, s.1 = writer_of path (g ++ [b]) ∧ env_is (files e) (path_count_ e) s.2)
    (fails_framed path e) (writer_of path g, e).
Proof.
  intros (Hd&Hmin&Hmax&Hk1&Hk2)%converted_spec. unfold Writers.Write, WriteRecord, CheckNotClosed, on_writer.
  repeat (wp_step; cbn [fst snd closed_ writer_ writer_of note_batch]). apply (framed_io _ path e); [done|]. intros _.
  repeat wp_step. split; [|done]. cbn [fst]. unfold writer_of, set_counts, set_lifecycle, note_batch, format_of. cbn -[Z.add Z.min Z.max].
  rewrite rows_snoc, foldl_app. cbn [foldl]. rewrite length_app, deletes_app, min_sequence_app, max_sequence_app, Hd, Hmin, Hmax.
  rewrite Nat2Z.inj_add, head_app, last_app. f_equal.
  - destruct (head (rows g)); [done|]. exact Hk1.
  - rewrite Hk2. by destruct (last (batch b)).
Qed.

Lemma format_of_rows {FL : DataFormatLaws F} g : concat (ReadDisk (Image (format_of g))) = unleveled <$> rows g.
Proof.
  assert (∀ f, foldl (λ f b, AddBatch (batch b) f) f g = foldl (λ f b, AddBatch b f) f (map batch g)) as E.
  { induction g as [|b g IH]; intros f; [done|]. apply IH. }
  unfold format_of. by rewrite E, read_written.
Qed.

Definition closed_of (path : string) (g : list KeyValueBatch) : Writer :=
  set_lifecycle path true false (Some (format_of g)) true
    (set_counts (Z.of_nat (length (rows g))) (DiskSize (Image (format_of g))) (writer_of path g)).

Lemma Close_wp path g e :
  wp Close (λ _ s, s.1 = closed_of path g ∧ env_is (<[path := Image (format_of g)]> (files e)) (path_count_ e) s.2)
    (fails_framed path e) (writer_of path g, e).
Proof.
  unfold Writers.Close, on_writer, on_env. do 2 wp_step. cbn [fst closed_ writer_ writer_of path_].
  repeat (wp_step; cbn [fst snd]). apply (framed_io _ path e); [done|]. intros H1.
  repeat (wp_step; cbn [fst snd]). apply (framed_io _ path e); [done|]. intros H2.
  do 3 (wp_step; cbn [fst snd]).
  assert (H3 : framed path e (writer_of path g) (set_file path (Image (format_of g)) (tick (tick e)))).
  { split_and!; try done. intros p Hne. cbn. by rewrite lookup_insert_ne. }
  apply (framed_io _ path e); [done|]. intros H4. repeat (wp_step; cbn [fst snd]). apply (framed_io _ path e); [done|]. intros H5.
  repeat (wp_step; cbn [fst snd]). apply (framed_io _ path e); [done|]. intros H6. repeat wp_step. by split.
Qed.

(** The metadata describes the rows of the file. *)
Definition describes (m : t) (path : string) (g : list KeyValueBatch) : Prop :=
  file_name m = PathUtil.GetName path ∧ file_size m = DiskSize (Image (format_of g)) ∧ summary m (rows g) ∧
  level m = level_ ∧ schema_id m = schema_id_ ∧ file_source m = Some file_source_.

Lemma GetResult_wp path g e : rows g ≠ [] → files e !! path = Some (Image (format_of g)) →
  wp GetResult (λ m s, s.1 = closed_of path g ∧ env_is (files e) (path_count_ e) s.2 ∧ describes m path g)
    (λ s, faulty ∧ s.1 = closed_of path g ∧ env_is (files e) (path_count_ e) s.2) (closed_of path g, e).
Proof.
  intros Hne Hfile. unfold Writers.GetResult. do 2 wp_step. cbn [fst closed_ closed_of set_lifecycle negb].
  wp_step. apply wp_io; [|done]. do 2 wp_step. cbn -[Z.quot]. rewrite Hfile.
  destruct (rows g) as [|x l] eqn:Er; [done|]. destruct (last (x :: l)) as [z|] eqn:El; [|by apply last_None in El].
  cbn -[Z.quot]. wp_step. apply wp_io; [|by intros ?; unfold closed_of, writer_of; rewrite Er, El].
  do 3 wp_step. cbn -[Z.quot]. split_and!; [by unfold closed_of, writer_of; rewrite Er, El|done|].
  unfold describes, summary. rewrite Er, El. by split_and!.
Qed.

(** ** Rolling over *)

Definition deletes_ok : Prop := ∀ n, fault OpDelete n = Ok ().

Lemma Delete_files path e : deletes_ok → files (Delete path e) = delete path (files e).
Proof. intros H. unfold Writers.Delete. cbn. by rewrite H. Qed.

Lemma Abort_deletes w e : deletes_ok → fs_ w = true → files (Abort (w, e)).2 = delete (path_ w) (files e).
Proof. intros H Hf. unfold Writers.Abort. cbn [fst snd]. rewrite Hf, Delete_files by done. by destruct (out_ w). Qed.

Lemma guarded_fails {A} (m : M WS A) Q path e s : deletes_ok → files e !! path = None →
  wp (guarded Abort m) Q (fails_framed path e) s →
  wp (guarded Abort m) Q (λ s, files s.2 = files e ∧ path_count_ s.2 = path_count_ e) s.
Proof.
  intros Hd Hnone. unfold wp, guarded. destruct (m s) as [[a|c msg] [w1 e1]]; [done|]. intros (_&Hp&Hf&Hc&Hfiles).
  split; [|done]. apply map_eq. intros p. destruct (decide (p = path)) as [->|]; [|by apply Hfiles].
  rewrite Abort_deletes; [|done|exact Hf]. cbn in Hp. by rewrite Hp, lookup_delete_eq, Hnone.
Qed.

Lemma Init_fails path e : deletes_ok → files e !! path = None →
  wp (Init path) (λ _, opens path e) (λ s, files s.2 = files e ∧ path_count_ s.2 = path_count_ e) (new_writer, e).
Proof. intros Hd Hnone. by apply (guarded_fails _ _ path), (Init_wp path). Qed.

(** The files a rolling writer is responsible for. *)
Definition own (r : Rolling) : list string := closed_writers_ r ++ option_list (path_ <$> current_writer_ r).
Definition frame (fs : gmap string Disk) (s : RS) : Prop :=
  (∀ p, p ∉ own s.1 → files s.2 !! p = fs !! p) ∧ (∀ p, p ∈ own s.1 → fs !! p = None) ∧
  (∀ w, current_writer_ s.1 = Some w → fs_ w = true).

Lemma fold_Delete ps e p : deletes_ok →
  files (foldl (λ e path, Delete path e) e ps) !! p = if decide (p ∈ ps) then None else files e !! p.
Proof.
  intros Hd. revert e. induction ps as [|q ps IH]; intros e; cbn [foldl]; [done|]. rewrite IH, Delete_files by done.
  destruct (decide (p ∈ ps)) as [H|H]; [by rewrite decide_True by by right|].
  destruct (decide (p = q)) as [->|Hne]; [rewrite decide_True by left; apply lookup_delete_eq|].
  rewrite decide_False by (intros [?|?]%elem_of_cons; done). by rewrite lookup_delete_ne.
Qed.

Lemma RollingAbort_own s : own (RollingAbort s).1 = own s.1.
Proof. unfold Writers.RollingAbort, own. destruct s as [r e]. cbn [fst snd]. by destruct (current_writer_ r). Qed.

(** [Abort] removes what has been written, and can be repeated. *)
Lemma RollingAbort_restores fs s : deletes_ok → frame fs s → frame fs (RollingAbort s) ∧ files (RollingAbort s).2 = fs.
Proof.
  intros Hd (H1&H2&H3).
  assert (Hfs : files (RollingAbort s).2 = fs).
  { apply map_eq. intros p. destruct s as [r e]. unfold Writers.RollingAbort, own in *. cbn [fst snd] in *.
    destruct (current_writer_ r) as [w|] eqn:Ec; cbn [option_list fmap option_fmap option_map] in *.
    - specialize (H3 w eq_refl). destruct (Abort (w, e)) as [w' e'] eqn:Ea. cbn [fst snd].
      assert (He' : files e' = delete (path_ w) (files e)) by (rewrite <-(Abort_deletes w e Hd H3), Ea; done).
      rewrite fold_Delete, He' by done. case_decide as Hin; [symmetry; apply H2, elem_of_app; by left|].
      destruct (decide (p = path_ w)) as [->|Hne].
      + rewrite lookup_delete_eq. symmetry. apply H2, elem_of_app. right. by left.
      + rewrite lookup_delete_ne by done. apply H1. by intros [?|?%list_elem_of_singleton]%elem_of_app.
    - cbn [fst snd]. rewrite fold_Delete by done. rewrite app_nil_r in *. case_decide; [symmetry; by apply H2|by apply H1]. }
  split; [|done]. split_and!.
  - intros p _. by rewrite Hfs.
  - rewrite RollingAbort_own. exact H2.
  - unfold Writers.RollingAbort. destruct s as [r e]. cbn [fst snd] in *. destruct (current_writer_ r) as [w|] eqn:Ec; [|done].
    intros w' [= <-]. cbn. by apply H3.
Qed.

Lemma wp_on_current {A} (m : M WS A) (Q : A → RS → Prop) (E : RS → Prop) r e w : current_writer_ r = Some w →
  wp m (λ a s, Q a (set_current (Some s.1) r, s.2)) (λ s, E (set_current (Some s.1) r, s.2)) (w, e) →
  wp (on_current m) Q E (r, e).
Proof. intros Hc. unfold wp, on_current. cbn [fst snd]. rewrite Hc. by destruct (m (w, e)) as [[a|c msg] [w' e']]. Qed.

(** The files after the groups of [gs] have been written from path [n] on. *)
Fixpoint written (n : Z) (gs : list (list KeyValueBatch)) (fs : gmap string Disk) : gmap string Disk :=
  match gs with [] => fs | g :: gs' => written (n + 1) gs' (<[path_at n := Image (format_of g)]> fs) end.
Fixpoint described (n : Z) (ms : list t) (gs : list (list KeyValueBatch)) : Prop :=
  match ms, gs with
  | [], [] => True
  | m :: ms', g :: gs' => describes m (path_at n) g ∧ described (n + 1) ms' gs'
  | _, _ => False
  end.

Lemma written_snoc n gs g fs :
  written n (gs ++ [g]) fs = <[path_at (n + Z.of_nat (length gs)) := Image (format_of g)]> (written n gs fs).
Proof.
  revert n fs. induction gs as [|g' gs IH]; intros n fs; cbn [app written length]; [by rewrite Z.add_0_r|].
  rewrite IH. do 2 f_equal. lia.
Qed.
Lemma described_snoc n ms gs m g : described n ms gs → describes m (path_at (n + Z.of_nat (length gs))) g →
  described n (ms ++ [m]) (gs ++ [g]).
Proof.
  revert n gs. induction ms as [|m' ms IH]; intros n [|g' gs] H Hm; try done; cbn [app described length] in *.
  - by rewrite Z.add_0_r in Hm.
  - destruct H as [H1 H2]. split; [done|]. apply IH; [done|]. by replace (n + 1 + Z.of_nat (length gs)) with (n + Z.of_nat (S (length gs))) by lia.
Qed.
Lemma written_frame n gs fs p : p ∉ path_at <$> seqZ n (Z.of_nat (length gs)) → written n gs fs !! p = fs !! p.
Proof.
  revert n fs. induction gs as [|g gs IH]; intros n fs Hp; cbn [written]; [done|].
  cbn [length] in Hp. rewrite seqZ_cons in Hp by lia. apply not_elem_of_cons in Hp as [Hne Hp].
  rewrite IH; [by rewrite lookup_insert_ne|]. by replace (Z.succ n) with (n + 1) in Hp by lia;
    replace (Z.pred (Z.of_nat (S (length gs)))) with (Z.of_nat (length gs)) in Hp by lia.
Qed.

Context (Hu : no_slash uuid_) (Hf : no_slash format_identifier_) (Hp : no_slash data_file_prefix_).

Lemma path_at_name n : path_at n = PathUtil.JoinPath parent_ (name_at uuid_ data_file_prefix_ ("." +:+ format_identifier_) n).
Proof. done. Qed.
Lemma name_ok n : no_slash (name_at uuid_ data_file_prefix_ ("." +:+ format_identifier_) n).
Proof. apply name_at_no_slash; [done..|]. apply no_slash_app. split; [by repeat constructor|done]. Qed.
Lemma path_at_inj n m : path_at n = path_at m → n = m.
Proof.
  rewrite !path_at_name. intros E%JoinPath_inj; [by apply name_at_inj in E|apply name_at_ne..|apply name_ok|apply name_ok].
Qed.
Lemma written_lookup n gs fs i g : gs !! i = Some g → written n gs fs !! path_at (n + Z.of_nat i) = Some (Image (format_of g)).
Proof.
  revert n fs i. induction gs as [|g' gs IH]; intros n fs [|i] H; try done; cbn [written].
  - injection H as ->. rewrite Z.add_0_r, written_frame; [by rewrite lookup_insert_eq|].
    intros (k&E%path_at_inj&Hk%elem_of_seqZ)%list_elem_of_fmap. lia.
  - replace (n + Z.of_nat (S i)) with (n + 1 + Z.of_nat i) by lia. by apply IH.
Qed.

Context (fs0 : gmap string Disk) (n0 : Z) (Hfresh : ∀ k, n0 ≤ k → fs0 !! path_at k = None).

(** [gs] has been written to closed files, [g] to the current one. *)
Definition current_is (gs : list (list KeyValueBatch)) (g : list KeyValueBatch) (cur : option Writer) (e : Env) : Prop :=
  let n := n0 + Z.of_nat (length gs) in
  match cur with
  | None => g = [] ∧ env_is (written n0 gs fs0) n e
  | Some w => w = writer_of (path_at n) g ∧ env_is (<[path_at n := EmptyFile]> (written n0 gs fs0)) (n + 1) e
  end.
Definition writes (gs : list (list KeyValueBatch)) (g : list KeyValueBatch) (s : RS) : Prop :=
  closed_writers_ s.1 = path_at <$> seqZ n0 (Z.of_nat (length gs)) ∧ described n0 (results_ s.1) gs ∧ r_closed_ s.1 = false ∧
  current_is gs g (current_writer_ s.1) s.2.
Definition written_so_far (bs : list KeyValueBatch) (s : RS) : Prop :=
  ∃ gs g, bs = concat gs ++ g ∧ Forall (λ g, g ≠ []) gs ∧ Forall converted bs ∧
    (g = [] → current_writer_ s.1 = None) ∧ writes gs g s.

(** After a failure nothing is left, and the writer can be aborted again. *)
Definition failed (s : RS) : Prop := faulty ∧ (deletes_ok → frame fs0 s ∧ files s.2 = fs0).

Lemma writes_frame gs g s : writes gs g s → frame fs0 s.
Proof.
  intros (Hc&_&_&Hcur). unfold frame, own. rewrite Hc. unfold current_is in Hcur. 
  assert (Hin : ∀ p, p ∈ path_at <$> seqZ n0 (Z.of_nat (length gs)) → fs0 !! p = None).
  { intros p (k&->&Hk%elem_of_seqZ)%list_elem_of_fmap. apply Hfresh. lia. }
  destruct (current_writer_ s.1) as [w|] eqn:Ec; cbn.
  - destruct Hcur as (->&Hfiles&_). cbn. rewrite Hfiles. split_and!; [| |by intros w [= <-]].
    + intros p Hp'. rewrite not_elem_of_app, list_elem_of_singleton in Hp'. destruct Hp' as [H1 H2].
      rewrite lookup_insert_ne by done. by apply written_frame.
    + intros p [H|H]%elem_of_app; [by apply Hin|]. apply list_elem_of_singleton in H as ->. apply Hfresh. lia.
  - destruct Hcur as (_&Hfiles&_). rewrite Hfiles, app_nil_r. split_and!; [|done|done]. intros p H. by apply written_frame.
Qed.

Definition recoverable (s : RS) : Prop := faulty ∧ (deletes_ok → frame fs0 s).

Lemma recoverable_failed s : recoverable s → failed (RollingAbort s).
Proof. intros [Hf' H]. split; [done|]. intros Hd. by apply RollingAbort_restores, H. Qed.

Lemma framed_recoverable r e w w' e' : frame fs0 (r, e) → current_writer_ r = Some w → fails_framed (path_ w) e (w', e') →
  recoverable (set_current (Some w') r, e').
Proof.
  intros (H1&H2&H3) Hc (Hfault&Hpath&Hfs&_&Hfiles). split; [done|]. intros _. unfold frame, own in *. cbn [fst snd set_current closed_writers_ current_writer_] in *.
  rewrite Hc in *. cbn [fmap option_fmap option_map option_list] in *. rewrite Hpath. split_and!; [|done|by intros ? [= <-]].
  intros p Hn. rewrite Hfiles; [by apply H1|]. intros ->. apply Hn, elem_of_app. right. by left.
Qed.

(** The counters do not matter. *)
Definition same_files (r r' : Rolling) : Prop :=
  closed_writers_ r' = closed_writers_ r ∧ results_ r' = results_ r ∧ r_closed_ r' = r_closed_ r ∧
  current_writer_ r' = current_writer_ r.
Lemma writes_counts gs g r r' e : same_files r r' → writes gs g (r, e) → writes gs g (r', e).
Proof. intros (H1&H2&H3&H4) H. unfold writes in *. cbn [fst snd] in *. by rewrite H1, H2, H3, H4. Qed.

Definition writing (gs : list (list KeyValueBatch)) (g : list KeyValueBatch) (s : RS) : Prop :=
  writes gs g s ∧ is_Some (current_writer_ s.1).

Lemma OpenCurrentWriter_wp gs r e : writes gs [] (r, e) → current_writer_ r = None →
  wp (OpenCurrentWriter fault parent_ uuid_ format_identifier_ data_file_prefix_) (λ _, writing gs []) recoverable (r, e).
Proof.
  intros Hw Hc. pose proof (writes_frame _ _ _ Hw) as Hfr. destruct Hw as (H1&H2&H3&H4). cbn [fst snd] in *. rewrite Hc in H4. 
  destruct H4 as [_ [Hfiles Hcount]]. set (n := n0 + Z.of_nat (length gs)) in *.
  assert (Hnone : written n0 gs fs0 !! path_at n = None).
  { rewrite written_frame; [apply Hfresh; lia|]. intros (k&E%path_at_inj&Hk%elem_of_seqZ)%list_elem_of_fmap. lia. }
  unfold OpenCurrentWriter. rewrite <-Hfiles in Hnone. pose proof (Init_wp (path_at n) (mkEnv (files e) (ticks e) (n + 1)) Hnone) as Hi.
  pose proof (λ Hd, Init_fails (path_at n) (mkEnv (files e) (ticks e) (n + 1)) Hd Hnone) as Hi'.
  unfold wp. cbn [fst snd]. change (DataFilePathFactory.NewPath _ _ _ _ _) with (path_at (path_count_ e), path_count_ e + 1).
  rewrite Hcount. unfold wp in Hi, Hi'.
  destruct (Init (path_at n) _) as [[[]|c msg] [w' e']].
  - destruct Hi as (Hw'&Hfiles'&Hcount'). cbn [fst snd files path_count_] in *. split; [|by eexists]. unfold writes. split_and!; try done.
    cbn. split; [done|]. split; [by rewrite Hfiles', Hfiles|]. done.
  - split; [apply Hi|]. intros Hd. destruct (Hi' Hd) as [Hfiles' _]. unfold frame in *. cbn [fst snd files] in *. by rewrite Hfiles'.
Qed.

(** Taking a state with a current writer apart. *)
Lemma writing_inv gs g r e : writing gs g (r, e) →
  current_writer_ r = Some (writer_of (path_at (n0 + Z.of_nat (length gs))) g) ∧ frame fs0 (r, e) ∧ writes gs g (r, e).
Proof.
  intros [Hw [w Hc]]. pose proof (writes_frame _ _ _ Hw) as Hfr. split_and!; [|done|done].
  destruct Hw as (_&_&_&Hcur). cbn [fst snd] in *. rewrite Hc in *. by destruct Hcur as [-> _].
Qed.

Lemma on_current_Write_wp gs g b r e : converted b → writing gs g (r, e) →
  wp (on_current (Write b)) (λ _, writing gs (g ++ [b])) recoverable (r, e).
Proof.
  intros Hb (Hc&Hfr&Hw)%writing_inv. eapply wp_on_current; [exact Hc|].
  eapply wp_mono; [by apply Write_wp| |].
  - intros [] [w' e'] [-> [Hfiles Hcount]]. cbn [fst snd] in *. split; [|by eexists].
    destruct Hw as (H1&H2&H3&H4). split_and!; try done. cbn in *. rewrite Hc in H4. destruct H4 as [_ [? ?]].
    split; [done|]. split; congruence.
  - intros [w' e'] Hframed. by eapply framed_recoverable.
Qed.

Lemma on_current_ReachTargetSize_wp suggested size gs g r e : writing gs g (r, e) →
  wp (on_current (ReachTargetSize fault suggested size)) (λ _, writing gs g) recoverable (r, e).
Proof.
  intros (Hc&Hfr&Hw)%writing_inv. eapply wp_on_current; [exact Hc|]. unfold ReachTargetSize. do 2 wp_step. cbn [fst writer_ writer_of].
  wp_step. apply wp_io.
  - wp_step. split; [|by eexists]. destruct Hw as (H1&H2&H3&H4). split_and!; try done. cbn in *. by rewrite Hc in H4.
  - intros Hfault. by apply (framed_recoverable _ _ _ _ _ Hfr Hc).
Qed.

Lemma NeedRollingFile_wp gs g r e : writing gs g (r, e) →
  wp (NeedRollingFile fault target_file_size_ target_file_row_num_) (λ _, writing gs g) recoverable (r, e).
Proof.
  intros Hw. unfold NeedRollingFile, SuggestCheck, on_rolling. do 2 wp_step. cbn [fst snd].
  destruct (target_file_row_num_ <=? _); [by wp_step|]. wp_step. do 2 wp_step. cbn [fst].
  destruct (CHECK_ROLLING_RECORD_CNT <=? _); [|wp_step; by apply on_current_ReachTargetSize_wp].
  do 3 wp_step. cbn [fst snd]. apply on_current_ReachTargetSize_wp. destruct Hw as [Hw Hs]. split; [|done].
  eapply writes_counts; [|exact Hw]. done.
Qed.

Lemma CloseCurrentWriter_wp gs g r e : rows g ≠ [] → writing gs g (r, e) →
  wp CloseCurrentWriter (λ _ s, writes (gs ++ [g]) [] s ∧ current_writer_ s.1 = None) recoverable (r, e).
Proof.
  intros Hne (Hc&Hfr&Hw)%writing_inv. set (path := path_at (n0 + Z.of_nat (length gs))) in *.
  unfold Writers.CloseCurrentWriter, on_rolling. do 2 wp_step. cbn [fst]. rewrite Hc. wp_step. eapply wp_on_current; [exact Hc|].
  eapply wp_mono; [by apply Close_wp| |intros [w' e'] H; by eapply framed_recoverable].
  intros [] [w1 e1] [-> [Hfiles1 Hcount1]]. cbn [fst snd] in *. wp_step. eapply wp_on_current; [done|]. unfold GetAbortExecutor.
  do 2 wp_step. cbn [fst snd closed_ closed_of set_lifecycle]. do 2 wp_step. wp_step. cbn [fst snd].
  wp_step. eapply wp_on_current; [done|].
  assert (Hframed : framed path e (closed_of path g) e1).
  { apply (env_framed path (<[path:=Image (format_of g)]> (files e)) (path_count_ e)); try done.
    intros p Hn. by rewrite lookup_insert_ne. }
  eapply wp_mono; [apply GetResult_wp; [exact Hne|by rewrite Hfiles1, lookup_insert_eq]| |].
  - intros m [w2 e2] [-> [[Hfiles2 Hcount2] Hm]]. cbn [fst snd] in *. wp_step. split; [|done].
    destruct Hw as (H1&H2&H3&H4). cbn [fst snd] in *. rewrite Hc in H4. destruct H4 as [_ [Hfiles Hcount]].
    split_and!; cbn [fst snd closed_writers_ results_ r_closed_ current_writer_ set_current]; try done.
    + rewrite H1, length_app. cbn [length]. replace (Z.of_nat (length gs + 1)) with (Z.of_nat (length gs) + 1) by lia.
      by rewrite seqZ_app, fmap_app by lia.
    + by apply described_snoc.
    + split; [done|]. rewrite length_app, written_snoc. cbn [length]. split; [|lia].
      rewrite Hfiles2, Hfiles1, Hfiles. by rewrite insert_insert_eq.
  - intros [w2 e2] (Hfault&->&[Hfiles2 Hcount2]). split; [done|]. intros Hd.
    destruct (proj2 (framed_recoverable _ _ _ _ _ Hfr Hc (conj Hfault Hframed)) Hd) as (F1&F2&F3).
    unfold frame, own in *. cbn [fst snd closed_writers_ current_writer_ set_current fmap option_fmap option_map option_list path_ closed_of set_lifecycle] in *.
    rewrite Hfiles2. split_and!; [| |done].
    + intros p Hn. apply F1. intros [?|?]%elem_of_app; apply Hn, elem_of_app; [left; apply elem_of_app; by left|by right].
    + intros p [[?|?]%elem_of_app|?]%elem_of_app; apply F2, elem_of_app; [by left|by right..].
Qed.

Lemma converted_rows_ne g : g ≠ [] → Forall converted g → rows g ≠ [].
Proof.
  destruct g as [|b g]; [done|]. intros _ [Hb%converted_ne _]%Forall_cons. unfold rows. cbn. by destruct (batch b).
Qed.

Lemma RollingWrite_wp bs b s : converted b → written_so_far bs s →
  wp (RollingWrite b) (λ _, written_so_far (bs ++ [b])) failed s.
Proof.
  intros Hb (gs&g&->&Hgs&Hconv&Hg&Hw). destruct s as [r e]. unfold Writers.RollingWrite, on_rolling. wp_step.
  eapply (wp_mono _ _ _ recoverable); [|intros a s H; exact H|apply recoverable_failed].
  assert (Hconv' : Forall converted (g ++ [b])).
  { apply Forall_app in Hconv as [_ Hconv]. apply Forall_app. by split; [|constructor]. }
  do 3 wp_step. cbn [fst] in *.
  assert (Hopen : wp (match current_writer_ r with
                      | Some _ => mret ()
                      | None => OpenCurrentWriter fault parent_ uuid_ format_identifier_ data_file_prefix_
                      end) (λ _, writing gs g) recoverable (r, e)).
  { destruct (current_writer_ r) as [w|] eqn:Ec; [wp_step; by split; [|exists w]|].
    assert (g = []) as -> by (destruct Hw as (_&_&_&Hcur); cbn [fst snd] in Hcur; rewrite Ec in Hcur; by destruct Hcur).
    by apply OpenCurrentWriter_wp. }
  eapply wp_mono; [exact Hopen| |done]. clear Hopen Hw. intros [] [r1 e1] Hw. wp_step.
  eapply wp_mono; [by apply on_current_Write_wp| |done]. clear Hw. intros [] [r2 e2] Hw. do 2 wp_step. cbn [fst snd]. wp_step.
  eapply wp_mono; [apply (NeedRollingFile_wp gs (g ++ [b]))| |done].
  { destruct Hw as [Hw Hs]. split; [|exact Hs]. by eapply writes_counts; [|exact Hw]. }
  clear Hw r2 e2. intros need [r2 e2] Hw. destruct need.
  - eapply wp_mono; [apply (CloseCurrentWriter_wp gs (g ++ [b])); [|exact Hw]| |done].
    + apply converted_rows_ne; [by destruct g|done].
    + intros [] s' [Hw' Hnone]. exists (gs ++ [g ++ [b]]), []. split_and!; [by rewrite concat_app; cbn; rewrite !app_nil_r, app_assoc| | |done|done].
      * apply Forall_app. split; [done|]. constructor; [by destruct g|done].
      * apply Forall_app. by split; [|constructor].
  - wp_step. exists gs, (g ++ [b]). split_and!; [by rewrite app_assoc|done| |by destruct g|by destruct Hw].
    apply Forall_app. by split; [|constructor].
Qed.

(** All files are closed. *)
Definition all_closed (bs : list KeyValueBatch) (s : RS) : Prop :=
  ∃ gs, bs = concat gs ∧ Forall (λ g, g ≠ []) gs ∧ writes gs [] s ∧ current_writer_ s.1 = None.

Lemma CloseCurrentWriter_all bs s : written_so_far bs s → wp CloseCurrentWriter (λ _, all_closed bs) recoverable s.
Proof.
  intros (gs&g&->&Hgs&Hconv&Hg&Hw). destruct s as [r e]. cbn [fst] in Hg. destruct (current_writer_ r) as [w|] eqn:Ec.
  - assert (Hne : g ≠ []) by (intros E%Hg; done). eapply wp_mono; [apply (CloseCurrentWriter_wp gs g)| |done].
    + apply converted_rows_ne; [done|]. by apply Forall_app in Hconv as [_ ?].
    + by split; [|exists w].
    + intros [] s' [Hw' Hnone]. exists (gs ++ [g]). split_and!; [by rewrite concat_app; cbn; rewrite app_nil_r| |done|done].
      apply Forall_app. by split; [|constructor].
  - unfold Writers.CloseCurrentWriter. do 2 wp_step. cbn [fst]. rewrite Ec. wp_step.
    assert (g = []) as -> by (destruct Hw as (_&_&_&Hcur); cbn [fst snd] in Hcur; rewrite Ec in Hcur; by destruct Hcur).
    exists gs. by rewrite app_nil_r.
Qed.

Definition finished (bs : list KeyValueBatch) (s : RS) : Prop :=
  ∃ gs, bs = concat gs ∧ Forall (λ g, g ≠ []) gs ∧ described n0 (results_ s.1) gs ∧ r_closed_ s.1 = true ∧
    files s.2 = written n0 gs fs0 ∧ frame fs0 s.

Lemma RollingClose_wp bs s : written_so_far bs s → wp RollingClose (λ _, finished bs) failed s.
Proof.
  intros Hw. unfold Writers.RollingClose, on_rolling. do 2 wp_step.
  assert (r_closed_ s.1 = false) as -> by (by destruct Hw as (gs&g&_&_&_&_&_&_&?&_)). do 2 wp_step.
  eapply wp_mono; [by apply CloseCurrentWriter_all| |].
  - intros [] [r e] (gs&->&Hne&Hwr&Hnone). wp_step. exists gs. pose proof (writes_frame _ _ _ Hwr) as Hfr.
    destruct Hwr as (H1&H2&_&H4). cbn [fst snd] in *. rewrite Hnone in H4. destruct H4 as (_&Hfiles&_). by split_and!.
  - intros s' H%recoverable_failed. by destruct (RollingAbort s').
Qed.

(** The rows of the file of [m]. *)
Definition stored (fs : gmap string Disk) (m : t) : list KeyValue :=
  match fs !! DataFilePathFactory.ToPath parent_ (file_name m) with Some d => concat (ReadDisk d) | None => [] end.

Lemma path_of_described n m g : describes m (path_at n) g → DataFilePathFactory.ToPath parent_ (file_name m) = path_at n.
Proof.
  intros [-> _]. rewrite path_at_name, GetName_JoinPath; [done|apply name_at_ne|apply name_ok].
Qed.

Lemma described_paths n ms gs : described n ms gs →
  DataFilePathFactory.ToPath parent_ <$> (file_name <$> ms) = path_at <$> seqZ n (Z.of_nat (length gs)).
Proof.
  revert n gs. induction ms as [|m ms IH]; intros n [|g gs] H; try done. cbn [described length] in *. destruct H as [H1 H2].
  rewrite seqZ_cons by lia. cbn [fmap list_fmap]. f_equal; [by eapply path_of_described|].
  rewrite (IH _ _ H2). do 2 f_equal; lia.
Qed.

Lemma described_stored {FL : DataFormatLaws F} n ms gs fs : described n ms gs →
  (∀ i g, gs !! i = Some g → fs !! path_at (n + Z.of_nat i) = Some (Image (format_of g))) →
  concat (map (stored fs) ms) = unleveled <$> rows (concat gs) ∧
  Forall (λ m, summary m (stored fs m) ∧ level m = level_) ms.
Proof.
  revert n gs. induction ms as [|m ms IH]; intros n [|g gs] H Hfs; try done. cbn [described] in H. destruct H as [H1 H2].
  assert (Es : stored fs m = unleveled <$> rows g).
  { unfold stored. rewrite (path_of_described _ _ _ H1). specialize (Hfs 0%nat g eq_refl). rewrite Z.add_0_r in Hfs.
    by rewrite Hfs, format_of_rows. }
  destruct (IH _ _ H2) as [E1 E2].
  { intros i g' Hi. replace (n + 1 + Z.of_nat i) with (n + Z.of_nat (S i)) by lia. by apply Hfs. }
  cbn [map concat]. split.
  - by rewrite E1, Es, rows_app, fmap_app.
  - constructor; [|done]. destruct H1 as (_&_&H1&H1'&_). rewrite Es. split; [by apply summary_unleveled|done].
Qed.

(** A client that writes the batches, closes the writer and gets its
    results. *)
Definition write_all (bs : list KeyValueBatch) : M RS (list t) :=
  _ ← for_each RollingWrite bs; _ ← RollingClose; RollingGetResult.

Lemma write_all_wp bs e : files e = fs0 → path_count_ e = n0 → Forall converted bs →
  wp (write_all bs) (λ ms s, ∃ gs, bs = concat gs ∧ described n0 ms gs ∧ files s.2 = written n0 gs fs0) failed (new_rolling, e).
Proof.
  intros He Hn Hconv. unfold write_all. wp_step. eapply wp_mono; [apply (wp_for_each _ written_so_far _ bs [])| |done].
  - exists [], []. split_and!; try done. split_and!; try done. split; [done|]. split; [done|cbn; lia].
  - intros d b s Hb Hd. apply RollingWrite_wp; [|done]. rewrite Forall_forall in Hconv. by apply Hconv.
  - intros [] s Hs. wp_step. eapply wp_mono; [by apply RollingClose_wp| |done]. intros [] s' (gs&E&_&Hdesc&Hcl&Hfiles&_).
    unfold RollingGetResult. do 2 wp_step. rewrite Hcl. wp_step. by exists gs.
Qed.

Lemma written_results {FL : DataFormatLaws F} ms gs : described n0 ms gs →
  let fs := written n0 gs fs0 in
  concat (map (stored fs) ms) = unleveled <$> rows (concat gs) ∧ Forall (λ m, summary m (stored fs m) ∧ level m = level_) ms ∧
  NoDup (file_name <$> ms) ∧ ∀ p, p ∉ DataFilePathFactory.ToPath parent_ <$> (file_name <$> ms) → fs !! p = fs0 !! p.
Proof.
  intros Hd fs. pose proof (described_paths _ _ _ Hd) as Hpaths.
  destruct (described_stored _ _ _ fs Hd) as [E1 E2]; [intros i g; apply written_lookup|]. split_and!; [done|done| |].
  - apply (NoDup_fmap_1 (DataFilePathFactory.ToPath parent_)). rewrite Hpaths. apply NoDup_fmap_2_strong; [|apply NoDup_seqZ].
    intros x y _ _. apply path_at_inj.
  - intros p. rewrite Hpaths. apply written_frame.
Qed.
End Proofs.

(** ** Theorems *)

(** C19. A rolling writer stores every row exactly once and leaves nothing
    behind when it fails. If writing a sequence of batches succeeds, reading the
    resulting files one after the other gives the rows of the batches in their
    order, every file is described by its metadata (number of rows, first and
    last key, least and greatest sequence number, number of retractions), the
    files have different names, and all other files are as before. If it fails,
    then because some operation of the file system or the format writer has
    failed, and the files are exactly those there were before, provided that
    deletions succeed. *)
Theorem rolling_writer_stores {F} fault clock schema_id_ level_ file_source_ size row_num parent_ uuid_ fmt prefix bs e :
  DataFormatLaws F → no_slash uuid_ → no_slash fmt → no_slash prefix →
  (∀ k, path_count_ e ≤ k → files e !! path_at parent_ uuid_ fmt prefix k = None) → Forall converted bs →
  match write_all fault clock schema_id_ level_ file_source_ size row_num parent_ uuid_ fmt prefix bs (new_rolling, e) with
  | (Ok ms, (_, e')) =>
      concat (map (stored parent_ (files e')) ms) = unleveled <$> rows bs ∧
      Forall (λ m, summary m (stored parent_ (files e') m) ∧ level m = level_) ms ∧ NoDup (file_name <$> ms) ∧
      ∀ p, p ∉ DataFilePathFactory.ToPath parent_ <$> (file_name <$> ms) → files e' !! p = files e !! p
  | (Err _ _, (_, e')) =>
      (∃ op n, is_ok (fault op n) = false) ∧ ((∀ n, fault OpDelete n = Ok ()) → files e' = files e)
  end.
Proof.
  intros FL Hu Hf Hp Hfresh Hconv.
  pose proof (write_all_wp fault clock schema_id_ level_ file_source_ size row_num parent_ uuid_ fmt prefix Hu Hf Hp
    (files e) (path_count_ e) Hfresh bs e eq_refl eq_refl Hconv) as H.
  unfold wp in H. destruct (write_all _ _ _ _ _ _ _ _ _ _ _ bs (new_rolling, e)) as [[ms|c msg] [r e']].
  - destruct H as (gs&->&Hd&Hfiles). cbn [snd] in Hfiles. rewrite Hfiles. by eapply written_results.
  - destruct H as [Hfault H]. split; [done|]. intros Hd. by apply H.
Qed.

(** *** Witnesses *)

(** Files that hold their batches. *)
Definition example_format : DataFormat := {|
  FormatWriter := list (list KeyValue); Disk := list (list KeyValue); NewFormatWriter := []; AddBatch b f := f ++ [b];
  FormatReachTargetSize _ size f := size <=? Z.of_nat (length (concat f)); EmptyFile := []; Image f := map (map unleveled) f;
  DiskSize d := Z.of_nat (length (concat d)); ExtractKeyStats _ := EmptyStats; ExtractValueStats _ := EmptyStats;
  ReadDisk d := d
|}.
Lemma example_format_laws : DataFormatLaws example_format.
Proof.
  intros bs. cbn. assert (∀ f, foldl (λ f b, f ++ [b]) f bs = f ++ bs) as ->.
  { induction bs as [|b bs IH]; intros f; cbn; [by rewrite app_nil_r|]. by rewrite IH, <-app_assoc. }
  cbn. induction bs as [|b bs IH]; [done|]. cbn. by rewrite IH, fmap_app.
Qed.

Definition example_row (k seq : Z) (kind : RowKind.RowKind) : KeyValue := mkKeyValue kind seq 0 [VInt k] [VInt seq].
Definition example_batch (rows : list KeyValue) : KeyValueBatch :=
  match ConvertBatch rows with Ok b => b | Err _ _ => mkBatch [] 0 0 0 [] [] end.
Definition example_batches : list KeyValueBatch :=
  [example_batch [example_row 1 5 RowKind.Insert; example_row 2 6 RowKind.Delete]; example_batch [example_row 3 4 RowKind.Insert];
   example_batch [example_row 4 9 RowKind.UpdateAfter]].
(** The tenth operation fails, deletions succeed. *)
Definition example_fault (op : Op) (n : nat) : Result unit := 
  match op with OpDelete => Ok () | _ => if (n =? 10)%nat then Err IOError "fault" else Ok () end.
Definition example_env : @Env example_format := mkEnv ∅ 0 7.

(** The two batches that fit into a file, and the failure of the third. *)
Lemma rolling_writer_stores_witness :
  (∃ ms s, write_all (F := example_format) (λ _ _, Ok ()) (λ _, 0) 1 5 FileSource.Compact 3 100 "t/b" "u" "orc" "data-"
             example_batches (new_rolling, example_env) = (Ok ms, s) ∧
     file_name <$> ms = ["data-u-7.orc"; "data-u-8.orc"] ∧
     concat (map (stored "t/b" (files s.2)) ms) = unleveled <$> rows example_batches) ∧
  (∃ c msg s, write_all (F := example_format) example_fault (λ _, 0) 1 5 FileSource.Compact 3 100 "t/b" "u" "orc" "data-"
                example_batches (new_rolling, example_env) = (Err c msg, s) ∧ files s.2 = ∅).
Proof.
  assert (Hn : no_slash "u" ∧ no_slash "orc" ∧ no_slash "data-") by (split_and!; by repeat constructor).
  destruct Hn as (H1&H2&H3).
  assert (Hb : Forall converted example_batches) by (repeat constructor).
  pose proof (λ fault, rolling_writer_stores (F := example_format) fault (λ _, 0) 1 5 FileSource.Compact 3 100 "t/b" "u" "orc" "data-"
    example_batches example_env example_format_laws H1 H2 H3 (λ k _, lookup_empty _) Hb) as H.
  split.
  - specialize (H (λ _ _, Ok ())). destruct (write_all _ _ _ _ _ _ _ _ _ _ _ _ _) as [[ms|c m] [r e]] eqn:E.
    + exists ms, (r, e). split_and!; [done| |apply H]. vm_compute in E. by injection E as <- <- <-.
    + vm_compute in E. discriminate E.
  - specialize (H example_fault). destruct (write_all _ _ _ _ _ _ _ _ _ _ _ _ _) as [[ms|c m] [r e]] eqn:E.
    + vm_compute in E. discriminate E.
    + exists c, m, (r, e). split; [done|]. cbn [snd]. by apply H.
Defined.
