(* ===== verification/VisibleRows.v ===== *)
(** * Rewriting records without changing what is visible

    A list of records can be replaced by a smaller one that keeps the latest
    record of every key, or, if all other records are later or of other keys, by
    one that also forgets deletions. [keeps] and [reduces] say so; compactions
    are put together from both (TreeRows.v). *)

From stdpp Require Import base list strings sorting.
From Stdlib Require Import ZArith Lia.
From S2P Require Import Prelude Rows KeyValues Readers SortMerge SortMergeProofs MergeFunctions MergeRead Writers.
Local Open Scope Z_scope.

Section Rows.
Context (ukc : InternalRow → InternalRow → Z) (usc : option (InternalRow → InternalRow → Z)).
Context {OK : ComparatorsOK ukc usc} (ignore_delete : bool).
Implicit Types (l o out : list KeyValue) (x y kv : KeyValue).

Abbreviation visible := (visible ukc usc ignore_delete).
Abbreviation ignored := (ignored ignore_delete).
Abbreviation dedup_spec := (Reducer.spec (Deduplicate.spec ignore_delete)).

#[local] Instance rows_key : Comparator KeyValue := latest_key ukc.
#[local] Instance rows_key_laws : ComparatorLaws KeyValue := latest_key_laws ukc usc.

Lemma key_trans x y z : keq x y → keq y z → keq x z.
Proof. intros. korder. Qed.
Lemma lt_not_same x y : klt x y → ¬ keq x y.
Proof. intros ??. korder. Qed.
Lemma lt_same x y z : keq x y → klt y z → klt x z.
Proof. intros ??. korder. Qed.
Lemma key_sym x y : keq x y → keq y x.
Proof. intros. korder. Qed.

(** [x] is not later than [y]. *)
Definition earlier x y : Prop := record_compare ukc usc x y ≤ 0.
Lemma earlier_refl x : earlier x x.
Proof. apply (@kle_refl _ _ (record_laws ukc usc)). Qed.
Lemma earlier_trans x y z : earlier x y → earlier y z → earlier x z.
Proof. apply (@kle_trans _ _ (record_laws ukc usc)). Qed.
Lemma earlier_tie x y : earlier x y → earlier y x → record_compare ukc usc x y = 0.
Proof. intros H1 H2. by apply (@keq_le _ _ (record_laws ukc usc)). Qed.

(** No two records, at different places, have the same key and sequence. *)
Definition distinct l : Prop := ∀ x y l', l ≡ₚ x :: y :: l' → record_compare ukc usc x y ≠ 0.

Lemma distinct_sub l l' : l ⊆+ l' → distinct l' → distinct l.
Proof.
  intros [k Hk]%submseteq_Permutation Hd x y l1 Hp. apply (Hd x y (l1 ++ k)). by rewrite Hk, Hp.
Qed.
Lemma distinct_no_ties l : distinct l → no_ties ukc usc l.
Proof.
  intros Hd a b [l1 Ha]%elem_of_Permutation Hb Hc. rewrite Ha in Hb. apply elem_of_cons in Hb as [->|[l2 Hb]%elem_of_Permutation]; [done|].
  destruct (Hd a b l2); [by rewrite Ha, Hb|done].
Qed.

(** Of every key that counts, a latest record is kept. *)
Definition keeps l out : Prop :=
  out ⊆+ l ∧ ∀ x, x ∈ l → ignored x = false → ∃ y, y ∈ out ∧ keq x y ∧ ignored y = false ∧ earlier x y.
(** The same records are visible. *)
Definition reduces l out : Prop := out ⊆+ l ∧ ∀ kv, visible l kv ↔ visible out kv.

Definition newer l o : Prop := ∀ x y, x ∈ l → y ∈ o → keq x y → earlier x y.
Definition apart l o : Prop := ∀ x y, x ∈ l → y ∈ o → ¬ keq x y.

#[export] Instance visible_Permutation : Proper ((≡ₚ) ==> (=) ==> iff) visible.
Proof. intros l l' Hl x ? <-. split; by apply visible_perm. Qed.
#[export] Instance reduces_Permutation : Proper ((≡ₚ) ==> (≡ₚ) ==> iff) reduces.
Proof. intros l l' Hl o o' Ho. unfold reduces. rewrite Hl, Ho. setoid_rewrite Hl. by setoid_rewrite Ho. Qed.
#[export] Instance keeps_Permutation : Proper ((≡ₚ) ==> (≡ₚ) ==> iff) keeps.
Proof. intros l l' Hl o o' Ho. unfold keeps. rewrite Hl, Ho. setoid_rewrite Hl. by setoid_rewrite Ho. Qed.

Lemma keeps_refl l : keeps l l.
Proof. split; [done|]. intros x Hx Hi. exists x. split_and!; [done|apply cmp_refl|done|apply earlier_refl]. Qed.
Lemma keeps_app l1 l2 o1 o2 : keeps l1 o1 → keeps l2 o2 → keeps (l1 ++ l2) (o1 ++ o2).
Proof.
  intros [S1 K1] [S2 K2]. split; [by apply submseteq_app|]. intros x [Hx|Hx]%elem_of_app Hi.
  - destruct (K1 x Hx Hi) as (y&Hy&H). exists y. split; [apply elem_of_app; by left|done].
  - destruct (K2 x Hx Hi) as (y&Hy&H). exists y. split; [apply elem_of_app; by right|done].
Qed.

Lemma keeps_reduces l out : distinct l → keeps l out → reduces l out.
Proof.
  intros Hd%distinct_no_ties [Hsub Hk]. split; [done|]. intros kv.
  assert (Hin : ∀ x, x ∈ out → x ∈ l) by (intros x Hx; by eapply elem_of_submseteq). split; intros (H1&H2&H3).
  - destruct (Hk kv H1 (is_add_not_ignored ignore_delete kv H2)) as (y&Hy&Hky&Hi&He).
    assert (kv = y) as ->; [|split_and!; [done..|]; intros z Hz; apply H3; by apply Hin].
    apply Hd; [done|by apply Hin|]. apply earlier_tie; [done|]. apply H3; [by apply Hin|done|done].
  - split_and!; [by apply Hin|done|]. intros z Hz Hkz Hi. destruct (Hk z Hz Hi) as (y&Hy&Hky&Hiy&He).
    apply (earlier_trans z y kv He). apply H3; [done| |done]. by apply (key_trans kv z).
Qed.

Lemma reduces_refl l : reduces l l.
Proof. by split. Qed.
Lemma reduces_trans l1 l2 l3 : reduces l1 l2 → reduces l2 l3 → reduces l1 l3.
Proof. intros [S1 H1] [S2 H2]. split; [by etrans|]. intros kv. by rewrite H1. Qed.

(** Later records do not depend on what is forgotten. *)
Lemma reduces_newer l out o : reduces l out → newer l o → reduces (l ++ o) (out ++ o).
Proof.
  intros [Hsub Hv] Hn. split; [by apply submseteq_app|]. intros kv.
  assert (Hin : ∀ x, x ∈ out → x ∈ l) by (intros x Hx; by eapply elem_of_submseteq). split; intros (H1&H2&H3).
  - assert (Hm : kv ∈ out ++ o).
    { apply elem_of_app in H1 as [H1|H1]; apply elem_of_app; [left|by right]. apply Hv. split_and!; [done..|].
      intros z Hz. apply H3, elem_of_app. by left. }
    split_and!; [done..|]. intros z Hz. apply H3. apply elem_of_app in Hz as [Hz|Hz]; apply elem_of_app; [left; by apply Hin|by right].
  - apply elem_of_app in H1 as [H1|H1].
    + assert (Hvk : visible l kv).
      { apply Hv. split_and!; [done..|]. intros z Hz. apply H3, elem_of_app. by left. }
      split_and!; [apply elem_of_app; left; apply Hvk|done|]. intros z [Hz|Hz]%elem_of_app; [by apply Hvk|]. apply H3, elem_of_app. by right.
    + split_and!; [apply elem_of_app; by right|done|]. intros z [Hz|Hz]%elem_of_app Hkz Hi.
      * apply Hn; [done|done|]. by apply key_sym.
      * apply H3; [apply elem_of_app; by right|done|done].
Qed.

(** Different keys are independent. *)
Lemma visible_apart l o kv : apart l o → visible (l ++ o) kv ↔ visible l kv ∨ visible o kv.
Proof.
  intros Ha. split.
  - intros (H1&H2&H3). apply elem_of_app in H1 as [H1|H1]; [left|right]; (split_and!; [done..|]); intros z Hz; apply H3, elem_of_app; tauto.
  - intros [(H1&H2&H3)|(H1&H2&H3)].
    + split_and!; [apply elem_of_app; by left|done|]. intros z [Hz|Hz]%elem_of_app Hk Hi; [by apply H3|]. by destruct (Ha kv z).
    + split_and!; [apply elem_of_app; by right|done|]. intros z [Hz|Hz]%elem_of_app Hk Hi; [|by apply H3].
      destruct (Ha z kv); [done..|]. by apply key_sym.
Qed.
Lemma reduces_apart l1 l2 o1 o2 : apart l1 l2 → reduces l1 o1 → reduces l2 o2 → reduces (l1 ++ l2) (o1 ++ o2).
Proof.
  intros Ha [S1 H1] [S2 H2]. split; [by apply submseteq_app|]. intros kv. rewrite visible_apart by done. rewrite H1, H2.
  symmetry. apply visible_apart. intros x y Hx Hy. apply Ha; by eapply elem_of_submseteq.
Qed.

(** ** Merging *)

Lemma group_keeps k ks (o : option KeyValue) : StronglySorted (@kle KeyValue (seq_compare usc)) (k :: ks) → Forall (keq k) (k :: ks) →
  dedup_spec (k :: ks) = Ok o → keeps (k :: ks) (option_list o).
Proof.
  intros Hs Hk. set (g := k :: ks) in *. rewrite Forall_forall in Hk.
  assert (Hsame : ∀ a b, a ∈ g → b ∈ g → keq a b).
  { intros a b Ha%Hk Hb%Hk. apply (key_trans a k); [by apply key_sym|done]. }
  assert (Hmain : keeps g (option_list (last (filter (λ kv, ignored kv = false) g)))).
  { split.
    - trans (filter (λ kv, ignored kv = false) g); [|apply sublist_submseteq, sublist_filter].
      destruct (last _) as [x|] eqn:El; [|apply submseteq_nil_l]. apply singleton_submseteq_l. by apply last_Some_elem_of.
    - intros x Hx Hi. destruct (last (filter (λ kv, ignored kv = false) g)) as [y|] eqn:El.
      + pose proof (last_Some_elem_of _ _ El) as Hy. apply list_elem_of_filter in Hy as [Hyi Hy]. exists y.
        split_and!; [by left|by apply Hsame|done|]. unfold earlier, record_compare.
        replace (key_compare ukc x y =? 0) with true by (symmetry; apply Z.eqb_eq; by apply Hsame).
        change (@kle KeyValue (seq_compare usc) x y).
        eapply sorted_last_max; [| |exact El|by apply list_elem_of_filter]; [|by apply sorted_filter].
        intros a. apply (@kle_refl _ _ (seq_laws ukc usc)).
      + apply last_None in El. assert (x ∈ ([] : list KeyValue)) as []%elem_of_nil. rewrite <-El. by apply list_elem_of_filter. }
  destruct ks as [|k' ks]; [|intros [= <-]; exact Hmain]. intros [= <-]. apply keeps_refl.
Qed.

Lemma grouped_keeps gs l : grouped ukc usc gs l →
  ∃ out, merge_groups dedup_spec gs = Ok out ∧ keeps l out ∧ StronglySorted klt out.
Proof.
  induction 1 as [|k ks gs l l' Hp Hs Hk Hlt Hg (out&IH&Hkeep&Hsort)]; [exists []; split_and!; [done|apply keeps_refl|constructor]|].
  cbn [merge_groups].
  assert (∃ r : option KeyValue, dedup_spec (k :: ks) = Ok r) as [r Ho] by (destruct ks; by eexists).
  rewrite Ho, IH. cbn. eexists. split; [done|].
  assert (Hgk : keeps (k :: ks) (option_list r)).
  { eapply group_keeps; [done| |exact Ho]. constructor; [apply cmp_refl|done]. }
  split; [rewrite Hp; by apply keeps_app|]. destruct r as [x|]; [|done]. cbn. constructor; [done|]. apply Forall_forall.
  intros y Hy. assert (Hky : klt k y).
  { rewrite Forall_forall in Hlt. apply Hlt. eapply elem_of_submseteq; [exact Hy|apply Hkeep]. }
  assert (Hx : x ∈ k :: ks) by (eapply elem_of_submseteq; [|apply Hgk]; by left).
  apply elem_of_cons in Hx as [->|Hx]; [done|]. rewrite Forall_forall in Hk. specialize (Hk x Hx).
  apply (lt_same x k y); [by apply key_sym|done].
Qed.

(** What a section is rewritten to, with its deletions or without. *)
Lemma merged_keeps l : distinct l →
  ∃ out, merged ukc usc dedup_spec l = Ok out ∧ keeps l out ∧ StronglySorted klt out.
Proof.
  intros Hd%distinct_no_ties. destruct (grouped_exists ukc usc l) as [gs Hg]. unfold merged.
  rewrite <-(grouped_unique ukc usc gs l Hd Hg). by apply grouped_keeps.
Qed.
Lemma merged_reduces l : distinct l → ∃ out, merged ukc usc dedup_spec l = Ok out ∧ reduces l (filter is_add out).
Proof.
  intros Hd. destruct (merged_keeps l Hd) as (out&E&[Hsub _]&_). pose proof (distinct_no_ties l Hd) as Ht.
  destruct (merged_latest ukc usc ignore_delete l Ht) as (out'&E'&_&Hv). rewrite E in E'. injection E' as <-.
  exists out. split; [done|]. split; [etrans; [apply sublist_submseteq, sublist_filter|done]|]. intros kv. split.
  - intros Hkv. split_and!; [by apply Hv|apply Hkv|]. intros z Hz%Hv. apply Hkv, Hz.
  - intros (H1&_&_). by apply Hv.
Qed.

(** ** Levels *)

Lemma keeps_unleveled l out : keeps l out → keeps (unleveled <$> l) (unleveled <$> out).
Proof.
  intros [Hsub Hk]. split; [by apply fmap_submseteq|]. intros x' (x&->&Hx)%list_elem_of_fmap Hi.
  destruct (Hk x Hx Hi) as (y&Hy&H). exists (unleveled y). split; [by apply list_elem_of_fmap_2|done].
Qed.
Lemma visible_unleveled l z : visible (unleveled <$> l) z ↔ ∃ kv, z = unleveled kv ∧ visible l kv.
Proof.
  split.
  - intros ((kv&->&Hkv)%list_elem_of_fmap&Ha&Hm). exists kv. split; [done|]. split_and!; [done..|].
    intros y Hy. apply (Hm (unleveled y)). by apply list_elem_of_fmap_2.
  - intros (kv&->&H1&H2&H3). split_and!; [by apply list_elem_of_fmap_2|done|]. intros y' (y&->&Hy)%list_elem_of_fmap. exact (H3 y Hy).
Qed.
Lemma reduces_unleveled l out : reduces l out → reduces (unleveled <$> l) (unleveled <$> out).
Proof.
  intros [Hsub Hv]. split; [by apply fmap_submseteq|]. intros z. rewrite !visible_unleveled. by setoid_rewrite Hv.
Qed.
Lemma distinct_unleveled l : distinct (unleveled <$> l) → distinct l.
Proof. intros Hd x y l' Hp. apply (Hd (unleveled x) (unleveled y) (unleveled <$> l')). by rewrite Hp. Qed.
End Rows.
