(* ===== verification/Rewriter.v ===== *)
(** * Rewriting files

    Reading a section of sorted runs ([MergeFileSplitRead], the part of
    src/paimon/core/operation/merge_file_split_read.cpp that compactions use),
    [SortMergeReaderBatchProducer] (async_key_value_producer_and_consumer.cpp)
    and [MergeTreeCompactRewriter]
    (src/paimon/core/mergetree/compact/merge_tree_compact_rewriter.cpp).
    Deletion vectors, predicates and schema evolution are left out. The
    conversion pipeline between the reader and the writer is that of
    AsyncPipeline.v with one consumer, which delivers the batches in order; what
    it has delivered when an error is noticed is a parameter. *)

From stdpp Require Import base list strings gmap sorting.
From Stdlib Require Import ZArith Lia.
From S2P Require Import Prelude Rows DataFiles Compaction KeyValues Readers LoserTree SortMerge StateError Paths Writers.
Import DataFileMeta SortedRun.
Local Open Scope Z_scope.

(** [CoreOptions::GetSortEngine]. *)
Inductive SortEngine := MIN_HEAP | LOSER_TREE.

Definition with_level (l : Z) (kv : KeyValue) : KeyValue :=
  mkKeyValue (value_kind kv) (sequence_number kv) l (key kv) (value kv).

Section Rewriter.
Context {F : DataFormat} (fault : Op → nat → Result unit) (clock : nat → Z).
Context (key_comparator_ : InternalRow → InternalRow → Z).
Context (user_defined_seq_comparator_ : option (InternalRow → InternalRow → Z)).
Context (sort_engine : SortEngine) (asserts : bool) (merge_function : MergeFn KeyValue) (new_wrapper : MState merge_function).
Context (parent_ format_identifier_ data_file_prefix_ : string) (new_uuid : nat → string).
Context (schema_id_ target_file_size_ write_batch_size : Z) (before_error : nat → list (list KeyValue)).

(** ** Reading a section *)

(** [KeyValueDataFileRecordReader] sets the level of the file. *)
Definition file_batches (d : Disk) (f : t) : list (list KeyValue) :=
  map (map (with_level (level f))) (ReadDisk d).
Definition OpenFile (fs : gmap string Disk) (f : t) : Result RecordReader :=
  match fs !! DataFilePathFactory.ToPath parent_ (file_name f) with
  | None => Err IOError "the file does not exist"
  | Some d => Ok (reader_of (file_batches d f))
  end.
Fixpoint OpenFiles (fs : gmap string Disk) (l : list t) : Result (list RecordReader) :=
  match l with
  | [] => Ok []
  | f :: l' => r ← OpenFile fs f; rs ← OpenFiles fs l'; Ok (r :: rs)
  end.

Definition CreateReaderForRun (fs : gmap string Disk) (sorted_run : SortedRun) : Result RecordReader :=
  file_record_readers ← OpenFiles fs (files_ sorted_run);
  Ok (Concat.abs (Concat.create file_record_readers)).

Fixpoint CreateRecordReadersForSection (fs : gmap string Disk) (section : list SortedRun) : Result (list RecordReader) :=
  match section with
  | [] => Ok []
  | run :: section' =>
      run_reader ← CreateReaderForRun fs run;
      record_readers ← CreateRecordReadersForSection fs section';
      Ok (run_reader :: record_readers)
  end.

(** A reader together with its state. *)
Record OpenReader := mkOpen { reader : SortMergeReader; reader_state : RState reader }.

(** Enough fuel for all records of the readers. *)
Definition fuel_for (readers : list RecordReader) : nat :=
  S (2 * length (concat (map (λ r, concat (map (λ b, match b with Ok it => it | Err _ _ => [] end) r)) readers))).

Definition CreateSortMergeReader (record_readers : list RecordReader) : OpenReader :=
  let fuel := fuel_for record_readers in
  match sort_engine with
  | MIN_HEAP =>
      mkOpen (WithMinHeap.merge_reader key_comparator_ user_defined_seq_comparator_ merge_function fuel)
        (WithMinHeap.create record_readers new_wrapper)
  | LOSER_TREE =>
      mkOpen (WithLoserTree.reader key_comparator_ user_defined_seq_comparator_ asserts merge_function fuel)
        (WithLoserTree.create merge_function record_readers new_wrapper)
  end.

Definition CreateSortMergeReaderForSection (fs : gmap string Disk) (section : list SortedRun) (drop_delete : bool)
    : Result (OpenReader * nat) :=
  record_readers ← CreateRecordReadersForSection fs section;
  let fuel := fuel_for record_readers in
  let '(mkOpen R s) := CreateSortMergeReader record_readers in
  Ok (if drop_delete then mkOpen (DropDelete.reader R fuel) s else mkOpen R s, fuel).

(** ** SortMergeReaderBatchProducer *)

Definition MAX_PROJECTION_BATCH_SIZE : Z := 100000.
Definition NormalizeProjectionBatchSize (batch_size : Z) : Z := Z.min batch_size MAX_PROJECTION_BATCH_SIZE.

(** The batches written to the sink and the one being filled. *)
Definition push_row (batch_size_ : Z) (acc : list (list KeyValue) * list KeyValue) (kv : KeyValue)
    : list (list KeyValue) * list KeyValue :=
  let batch := acc.2 ++ [kv] in
  if batch_size_ <=? Z.of_nat (length batch) then (acc.1 ++ [batch], []) else (acc.1, batch).
Definition Produce (batch_size : Z) (r : OpenReader) (fuel : nat) : Result (list (list KeyValue)) :=
  acc ← consume (reader r) (push_row (NormalizeProjectionBatchSize batch_size)) fuel ([], []) (reader_state r);
  Ok (match acc.2 with [] => acc.1 | batch => acc.1 ++ [batch] end).

(** ** MergeTreeCompactRewriter *)

(** Whether [merge_file_split_read_] is set, and the environment. *)
Definition RWS : Type := bool * Env.

Section Writing.
Context (uuid_ : string) (output_level : Z).
Abbreviation RollingWrite := (RollingWrite fault clock schema_id_ output_level FileSource.Compact target_file_size_ int64_max
  parent_ uuid_ format_identifier_ data_file_prefix_).
Abbreviation RollingClose := (RollingClose fault clock schema_id_ output_level FileSource.Compact).

Definition rolling_io (op : Op) : M RS unit := λ s, (fault op (ticks s.2), (s.1, tick s.2)).
Definition lift {A} (r : Result A) : M RS A := λ s, (r, s).

(** One round of the loop: [IsCancelled], [NextBatch], [Write]. *)
Definition write_rows (rows : list KeyValue) : M RS unit :=
  _ ← rolling_io OpCheckCancelled;
  key_value_batch ← lift (ConvertBatch rows);
  RollingWrite key_value_batch.

(** After an error of the producer, some batches have been written before it is
    noticed. *)
Definition MergeReadAndWrite (drop_delete : bool) (section : list SortedRun) : M RS unit :=
  fs ← gets (λ s : RS, files s.2);
  n ← gets (λ s : RS, ticks s.2);
  _ ← rolling_io OpOpen;
  r ← lift (CreateSortMergeReaderForSection fs section drop_delete);
  let status := _ ← fault OpRead n; Produce write_batch_size r.1 r.2 in
  match status with
  | Ok batches => _ ← for_each write_rows batches; rolling_io OpCheckCancelled
  | Err c m => _ ← for_each write_rows (before_error n); fail c m
  end.

Definition rewrite_sections (drop_delete : bool) (sections : list (list SortedRun)) : M RS (list t) :=
  _ ← for_each (MergeReadAndWrite drop_delete) sections;
  _ ← RollingClose;
  RollingGetResult.
End Writing.

(** The notifications before and after a rewrite do nothing here, and the path
    factory is created anew for every writer. *)
Definition RewriteCompaction {D} (output_level : Z) (drop_delete : bool) (sections : list (list SortedRun))
    : M RWS (CompactResult D) := λ s,
  if negb s.1 then (Err Invalid "merge_file_split_read in MergeTreeCompactRewriter cannot be nullptr", s)
  else
    let before := ExtractFilesFromSections sections in
    let e := mkEnv (files s.2) (ticks s.2) 0 in
    match guarded (RollingAbort fault) (rewrite_sections (new_uuid (ticks e)) output_level drop_delete sections) (new_rolling, e) with
    | (Ok after, (_, e')) => (Ok (mkResult before after [] None), (true, e'))
    | (Err c m, (_, e')) => (Err c m, (false, e'))
    end.

Definition UpgradeCompaction {D} (output_level : Z) (file : t) : M RWS (CompactResult D) := λ s,
  (upgraded_file ← Upgrade file output_level; Ok (mkResult [file] [upgraded_file] [] None), s).
End Rewriter.
