(* ===== verification/RewriterProofs.v ===== *)
(** * Correctness of the rewriter

    [RewriteCompaction] stores the merged records of every section, in the
    order of the sections, and removes what it has written if it fails. *)

From stdpp Require Import base list strings gmap sorting.
From Stdlib Require Import ZArith Lia.
From S2P Require Import Prelude Rows DataFiles Compaction KeyValues Readers LoserTree SortMerge SortMergeProofs MergeFunctions MergeRead.
From S2P Require Import StateError Paths Writers WritersProofs Rewriter.
Import DataFileMeta SortedRun.
Local Open Scope Z_scope.

(** ** Batches *)

Lemma push_rows_spec size out chunks part :
  let acc := foldl (push_row size) (chunks, part) out in
  concat acc.1 ++ acc.2 = concat chunks ++ part ++ out ∧ (Forall (λ c, c ≠ []) chunks → Forall (λ c, c ≠ []) acc.1).
Proof.
  revert chunks part. induction out as [|kv out IH]; intros chunks part; cbn [foldl]; [by rewrite app_nil_r|].
  destruct (push_row size (chunks, part) kv) as [chunks' part'] eqn:Ep. unfold push_row in Ep. cbn [fst snd] in Ep.
  destruct (size <=? _); injection Ep as <- <-.
  - destruct (IH (chunks ++ [part ++ [kv]]) []) as [E H]. split.
    + rewrite E, concat_app. cbn. by rewrite app_nil_r, <-!app_assoc.
    + intros Hc. apply H, Forall_app. split; [done|]. constructor; [by destruct part|done].
  - destruct (IH chunks (part ++ [kv])) as [E H]. split; [by rewrite E, <-!app_assoc|done].
Qed.

(** The rows of a batch can be converted, and the batch is made of them. *)
Lemma ConvertBatch_ok l : l ≠ [] → ∃ b, ConvertBatch l = Ok b ∧ converted b ∧ batch b = l.
Proof. destruct l as [|kv l]; [done|]. intros _. by eexists. Qed.

Section Rewriter.
Context {F : DataFormat} {FL : DataFormatLaws F} (fault : Op → nat → Result unit) (clock : nat → Z).
Context (ukc : InternalRow → InternalRow → Z) (usc : option (InternalRow → InternalRow → Z)) {OK : ComparatorsOK ukc usc}.
Context (engine : SortEngine) (asserts : bool) (M : MergeFn KeyValue) (spec : list KeyValue → Result (option KeyValue)) {HM : Implements M spec}.
Context (new_wrapper : MState M).
Context (parent_ format_identifier_ data_file_prefix_ : string).
Context (schema_id_ target_file_size_ write_batch_size : Z) (before_error : nat → list (list KeyValue)).

(** ** Reading *)

(** The batches of a section, run by run. *)
Definition batches_of (fs : gmap string Disk) (f : t) : list (list KeyValue) :=
  match fs !! DataFilePathFactory.ToPath parent_ (file_name f) with Some d => file_batches d f | None => [] end.
Definition section_batches (fs : gmap string Disk) (section : list SortedRun) : list (list (list KeyValue)) :=
  map (λ run, concat (map (batches_of fs) (files_ run))) section.
Definition exists_in (fs : gmap string Disk) (f : t) : Prop :=
  is_Some (fs !! DataFilePathFactory.ToPath parent_ (file_name f)).

Lemma reader_of_concat (bss : list (list (list KeyValue))) : concat (map reader_of bss) = reader_of (concat bss).
Proof. induction bss as [|bs bss IH]; [done|]. cbn. rewrite IH. unfold reader_of. by rewrite map_app. Qed.

Lemma OpenFiles_ok fs l : Forall (exists_in fs) l → OpenFiles parent_ fs l = Ok (map reader_of (map (batches_of fs) l)).
Proof.
  induction 1 as [|f l [d Hd] _ IH]; [done|]. cbn [OpenFiles map]. unfold OpenFile, batches_of at 1. rewrite Hd. cbn [mbind Result_bind].
  by rewrite IH.
Qed.
Lemma CreateReaders_ok fs section : Forall (λ run, Forall (exists_in fs) (files_ run)) section →
  CreateRecordReadersForSection parent_ fs section = Ok (reader_of <$> section_batches fs section).
Proof.
  induction 1 as [|run section Hrun _ IH]; [done|]. cbn [CreateRecordReadersForSection]. unfold CreateReaderForRun.
  rewrite (OpenFiles_ok fs _ Hrun). cbn [mbind Result_bind]. rewrite IH. cbn [mbind Result_bind].
  unfold Concat.abs, Concat.create. cbn [Concat.readers_ Concat.current_]. by rewrite skipn_0, reader_of_concat.
Qed.

Lemma fuel_for_readers bs : fuel_for (reader_of <$> bs) = S (2 * length (records bs)).
Proof.
  set (rows_of := λ b : Result RecordIterator, match b with Ok it => it | Err _ _ => [] end).
  assert (E : ∀ l, concat (map rows_of (reader_of l)) = map Ok (concat l)).
  { induction l as [|b l IH]; [done|].
    change (map Ok b ++ concat (map rows_of (reader_of l)) = map Ok (b ++ concat l)). by rewrite IH, map_app. }
  assert (E' : concat (map (λ r, concat (map rows_of r)) (reader_of <$> bs)) = map Ok (concat (map (@concat _) bs))).
  { induction bs as [|b bs IH]; [done|]. cbn [fmap list_fmap map concat]. by rewrite E, map_app, IH. }
  change (S (2 * length (concat (map (λ r, concat (map rows_of r)) (reader_of <$> bs)))) = S (2 * length (records bs))).
  unfold records. by rewrite E', length_map.
Qed.

(** What a section is merged to. *)
Definition keep (drop : bool) (out : list KeyValue) : list KeyValue := if drop then filter is_add out else out.
Definition section_output (fs : gmap string Disk) (drop : bool) (section : list SortedRun) : Result (list KeyValue) :=
  out ← merged ukc usc spec (records (section_batches fs section)); Ok (keep drop out).

(** The sections that are read: at least one run, all files exist, every run is
    ascending in key, and no two records tie, those of different runs not even
    if they are equal where the loser tree asserts it. *)
Definition readable (fs : gmap string Disk) (section : list SortedRun) : Prop :=
  section ≠ [] ∧ Forall (λ run, Forall (exists_in fs) (files_ run)) section ∧
  Forall (sorted_run ukc) (section_batches fs section) ∧ no_ties ukc usc (records (section_batches fs section)) ∧
  (engine = LOSER_TREE → asserts = true → runs_distinct ukc usc (section_batches fs section)).

Abbreviation CreateReader := (CreateSortMergeReaderForSection ukc usc engine asserts M new_wrapper parent_).

Lemma Produce_spec fs drop section : readable fs section →
  ∃ r, CreateReader fs section drop = Ok r ∧
    match Produce write_batch_size r.1 r.2 with
    | Ok chunks => ∃ out, section_output fs drop section = Ok out ∧ concat chunks = out ∧ Forall (λ c, c ≠ []) chunks
    | Err _ _ => is_ok (section_output fs drop section) = false
    end.
Proof.
  intros (Hne&Hex&Hrun&Hties&Hdist). unfold CreateSortMergeReaderForSection. rewrite (CreateReaders_ok _ _ Hex). cbn [mbind Result_bind].
  set (bs := section_batches fs section) in *.
  assert (Hlen : (1 ≤ length bs)%nat) by (unfold bs, section_batches; rewrite length_map; destruct section; [done|cbn; lia]).
  set (fuel := fuel_for _). assert (HF : (length (records bs) < fuel)%nat ∧ (2 * length (records bs) < fuel)%nat).
  { unfold fuel. rewrite fuel_for_readers. lia. }
  destruct HF as [HF Hfuel].
  assert (Hread : ∀ r : OpenReader * nat, r.2 = fuel →
    (∀ size, consume (reader r.1) (push_row size) fuel ([], []) (reader_state r.1) =
       (out ← merged ukc usc spec (records bs); Ok (foldl (push_row size) ([], []) (keep drop out)))) →
    match Produce write_batch_size r.1 r.2 with
    | Ok chunks => ∃ out, section_output fs drop section = Ok out ∧ concat chunks = out ∧ Forall (λ c, c ≠ []) chunks
    | Err _ _ => is_ok (section_output fs drop section) = false
    end).
  { intros [r n] Hn Hc. cbn [fst snd] in *. subst n. unfold Produce, section_output. fold bs. rewrite Hc.
    destruct (merged ukc usc spec (records bs)) as [out|c m]; cbn [mbind Result_bind]; [|done].
    destruct (push_rows_spec (NormalizeProjectionBatchSize write_batch_size) (keep drop out) [] []) as [E H].
    destruct (foldl _ _ _) as [chunks part]. cbn [fst snd] in *. eexists. split; [done|]. specialize (H (Forall_nil_2 _)).
    destruct part as [|kv part]; [by rewrite app_nil_r in E|]. split.
    - rewrite concat_app. cbn. by rewrite app_nil_r.
    - apply Forall_app. split; [done|]. by constructor. }
  unfold CreateSortMergeReader. fold fuel. destruct engine, drop; (eexists; split; [done|apply Hread; [done|]; intros size; cbn [fst reader reader_state]]).
  - by apply (heap_consume_drop ukc usc M spec bs).
  - by apply (heap_consume ukc usc M spec bs).
  - apply (loser_consume_drop ukc usc M spec bs); auto.
  - apply (loser_consume ukc usc M spec bs); auto.
Qed.

(** Reading does not depend on other files. *)
Definition agree (fs fs' : gmap string Disk) (f : t) : Prop :=
  let path := DataFilePathFactory.ToPath parent_ (file_name f) in fs' !! path = fs !! path.
Lemma section_batches_agree fs fs' section : Forall (λ run, Forall (agree fs fs') (files_ run)) section →
  section_batches fs' section = section_batches fs section.
Proof.
  induction 1 as [|run section Hrun _ IH]; [done|]. unfold section_batches in *. cbn [map]. rewrite IH. do 2 f_equal.
  induction Hrun as [|f l Hf _ IHl]; [done|]. cbn [map]. rewrite IHl. f_equal. unfold batches_of. by rewrite Hf.
Qed.
Lemma readable_agree fs fs' section : readable fs section → (∀ f, exists_in fs f → agree fs fs' f) →
  readable fs' section ∧ ∀ drop, section_output fs' drop section = section_output fs drop section.
Proof.
  intros (Hne&Hex&Hrun&Hties&Hd) Ha.
  assert (E : section_batches fs' section = section_batches fs section).
  { apply section_batches_agree. eapply Forall_impl; [exact Hex|]. intros run Hr. eapply Forall_impl; [exact Hr|]. apply Ha. }
  unfold readable, section_output. rewrite E. split; [|done]. split_and!; [done| |done..].
  eapply Forall_impl; [exact Hex|]. intros run Hr. eapply Forall_impl; [exact Hr|]. intros f Hf. unfold exists_in. by rewrite (Ha f Hf).
Qed.

(** ** Writing *)

Section Writing.
Context (uuid_ : string) (output_level : Z).
Context (Hu : no_slash uuid_) (Hf : no_slash format_identifier_) (Hp : no_slash data_file_prefix_).
Context (fs0 : gmap string Disk).
Context (Hfresh : ∀ k, 0 ≤ k → fs0 !! path_at parent_ uuid_ format_identifier_ data_file_prefix_ k = None).

Abbreviation written_so_far := (written_so_far schema_id_ output_level FileSource.Compact parent_ uuid_ format_identifier_
  data_file_prefix_ fs0 0).
Abbreviation write_rows := (write_rows fault clock parent_ format_identifier_ data_file_prefix_ schema_id_ target_file_size_ uuid_
  output_level).
Abbreviation MergeReadAndWrite := (MergeReadAndWrite fault clock ukc usc engine asserts M new_wrapper parent_ format_identifier_
  data_file_prefix_ schema_id_ target_file_size_ write_batch_size before_error uuid_ output_level).

Definition has_written (l : list KeyValue) (s : RS) : Prop := ∃ bs, written_so_far bs s ∧ rows bs = l.
(** What has been written can still be removed. *)
Definition removable (s : RS) : Prop := deletes_ok fault → frame fs0 s.

Lemma has_written_frame l s : has_written l s → frame fs0 s.
Proof. intros (bs&(gs&g&_&_&_&_&Hw)&_). by apply writes_frame in Hw. Qed.

Lemma has_written_tick l r e : has_written l (r, e) → has_written l (r, tick e).
Proof. intros H. exact H. Qed.

Lemma rolling_io_wp op l (Q : unit → RS → Prop) (E : RS → Prop) s : has_written l s →
  (∀ s', has_written l s' → Q () s') → (∀ s', faulty fault → removable s' → E s') → wp (rolling_io fault op) Q E s.
Proof.
  intros Hl HQ HE. destruct s as [r e]. apply has_written_tick in Hl. unfold wp, rolling_io. cbn [fst snd].
  destruct (fault op (ticks e)) as [[]|c m] eqn:Ef; [by apply HQ|]. apply HE.
  - exists op, (ticks e). by rewrite Ef.
  - intros _. by eapply has_written_frame.
Qed.

Lemma write_rows_wp l rs s : has_written l s →
  wp (write_rows rs) (λ _, has_written (l ++ rs)) (λ s', (rs ≠ [] → faulty fault) ∧ removable s') s.
Proof.
  intros Hl. unfold Rewriter.write_rows. wp_step. eapply rolling_io_wp; [exact Hl| |by split]. clear s Hl. intros s Hl. wp_step.
  destruct rs as [|kv rs]; [split; [done|]; intros _; by eapply has_written_frame|].
  destruct (ConvertBatch_ok (kv :: rs)) as (b&Eb&Hb&Erows); [done|]. unfold lift, wp at 1. rewrite Eb.
  destruct Hl as (bs&Hw&<-). eapply wp_mono; [by apply RollingWrite_wp| |].
  - intros [] s' Hw'. exists (bs ++ [b]). split; [done|]. by rewrite rows_snoc, Erows.
  - intros s' [Hfault H]. split; [done|]. intros Hd. by apply H.
Qed.

Lemma write_chunks_wp l chunks s : has_written l s → Forall (λ c, c ≠ []) chunks →
  wp (for_each write_rows chunks) (λ _, has_written (l ++ concat chunks)) (λ s', faulty fault ∧ removable s') s.
Proof.
  intros Hl Hc. eapply wp_mono; [apply (wp_for_each _ (λ d, has_written (l ++ concat d)) (λ s', faulty fault ∧ removable s') chunks [])| |done].
  - by rewrite app_nil_r.
  - intros d c s' Hin Hd. eapply wp_mono; [by apply write_rows_wp| |].
    + intros [] s1 H1. rewrite concat_app. cbn. by rewrite app_nil_r, app_assoc.
    + intros s1 [H1 H2]. split; [|done]. apply H1. rewrite Forall_forall in Hc. by apply Hc.
  - done.
Qed.

Lemma write_any_wp l chunks s : has_written l s →
  wp (for_each write_rows chunks) (λ _, removable) removable s.
Proof.
  intros Hl. eapply wp_mono; [apply (wp_for_each _ (λ d, has_written (l ++ concat d)) removable chunks [])| |done].
  - by rewrite app_nil_r.
  - intros d c s' Hin Hd. eapply wp_mono; [by apply write_rows_wp| |by intros ? [_ ?]].
    intros [] s1 H1. rewrite concat_app. cbn. by rewrite app_nil_r, app_assoc.
  - intros [] s' H _. by eapply has_written_frame.
Qed.

Lemma MergeReadAndWrite_wp l drop section s : readable fs0 section → has_written l s →
  wp (MergeReadAndWrite drop section)
    (λ _ s', ∃ out, section_output fs0 drop section = Ok out ∧ has_written (l ++ out) s')
    (λ s', (faulty fault ∨ is_ok (section_output fs0 drop section) = false) ∧ removable s') s.
Proof.
  intros Hr Hl. unfold Rewriter.MergeReadAndWrite. do 4 wp_step. wp_step. eapply rolling_io_wp; [exact Hl| |by split; [left|]].
  set (fs := files s.2). set (n := ticks s.2).
  destruct (readable_agree fs0 fs section Hr) as [Hr' Hout].
  { intros f [d Hd]. destruct (has_written_frame _ _ Hl) as (H1&H2&_). apply H1. intros Hin%H2. congruence. }
  clearbody fs n. clear s Hl. intros s Hl. destruct (Produce_spec fs drop section Hr') as (r&Er&Hprod). wp_step.
  unfold lift, wp at 1. rewrite Er. rewrite (Hout drop) in Hprod.
  assert (Hfail : ∀ c m, faulty fault ∨ is_ok (section_output fs0 drop section) = false →
    wp (A := unit) (_ ← for_each write_rows (before_error n); fail c m)
      (λ _ s', ∃ out, section_output fs0 drop section = Ok out ∧ has_written (l ++ out) s')
      (λ s', (faulty fault ∨ is_ok (section_output fs0 drop section) = false) ∧ removable s') s).
  { intros c m Hwhy. wp_step. eapply wp_mono; [by eapply write_any_wp| |by split]. intros [] s' H. wp_step. by split. }
  destruct (fault OpRead n) as [[]|c m] eqn:Ef; cbn [mbind Result_bind].
  - destruct (Produce write_batch_size r.1 r.2) as [chunks|c m]; [|apply Hfail; by right].
    destruct Hprod as (out&Eout&<-&Hne). wp_step. eapply wp_mono; [by apply write_chunks_wp| |].
    + intros [] s' Hs'. eapply rolling_io_wp; [exact Hs'| |by split; [left|]]. intros s1 H1. by eexists.
    + intros s' [H1 H2]. split; [by left|done].
  - apply Hfail. left. exists OpRead, n. by rewrite Ef.
Qed.

Abbreviation rewrite_sections := (rewrite_sections fault clock ukc usc engine asserts M new_wrapper parent_ format_identifier_
  data_file_prefix_ schema_id_ target_file_size_ write_batch_size before_error uuid_ output_level).

Definition outputs (drop : bool) (sections : list (list SortedRun)) (outs : list (list KeyValue)) : Prop :=
  Forall2 (λ section out, section_output fs0 drop section = Ok out) sections outs.

Lemma rewrite_sections_wp drop sections e : files e = fs0 → path_count_ e = 0 → Forall (readable fs0) sections →
  wp (rewrite_sections drop sections)
    (λ ms s, ∃ outs gs, outputs drop sections outs ∧ rows (concat gs) = concat outs ∧
       described schema_id_ output_level FileSource.Compact parent_ uuid_ format_identifier_ data_file_prefix_ 0 ms gs ∧
       files s.2 = written parent_ uuid_ format_identifier_ data_file_prefix_ 0 gs fs0)
    (λ s, (faulty fault ∨ ∃ section, section ∈ sections ∧ is_ok (section_output fs0 drop section) = false) ∧ removable s)
    (new_rolling, e).
Proof.
  intros He Hn Hr. set (why := faulty fault ∨ _). unfold Rewriter.rewrite_sections. wp_step.
  eapply wp_mono; [apply (wp_for_each _ (λ d s, ∃ outs, outputs drop d outs ∧ has_written (concat outs) s) (λ s, why ∧ removable s) sections [])| |done].
  - exists []. split; [constructor|]. exists []. split; [|done]. exists [], []. by split_and!.
  - intros d section s Hin (outs&Ho&Hw). rewrite Forall_forall in Hr. eapply wp_mono; [by apply MergeReadAndWrite_wp, Hw; apply Hr| |].
    + intros [] s' (out&Eout&Hw'). exists (outs ++ [out]). rewrite concat_app. cbn. rewrite app_nil_r. split; [|done].
      apply Forall2_app; [done|]. by repeat constructor.
    + intros s' [[H|H] H']; (split; [|done]); [by left|]. right. by exists section.
  - intros [] s (outs&Ho&(bs&Hw&Erows)). wp_step. eapply wp_mono; [by apply RollingClose_wp| |].
    + intros [] s' (gs&->&_&Hd&Hc&Hfiles&_). unfold RollingGetResult. do 2 wp_step. rewrite Hc. wp_step. by exists outs, gs.
    + intros s' [Hfault H]. split; [by left|]. intros Hd. by apply H.
Qed.
End Writing.
End Rewriter.

(** ** Theorems *)

(** C11. A rewrite of sections replaces their files by files that hold exactly
    the merged records. If [RewriteCompaction] succeeds, the new files, read one
    after the other, contain the output of the merge function for every section,
    section by section (without the deletions if they are dropped), they are at
    the output level, their metadata describes their rows, and all other files
    are untouched. It fails only if an operation fails or the merge function
    does; then the rewriter is unusable and, provided that deletions succeed, no
    file is left over. The runs of a section are ascending in key, no two
    different records of a section have the same key and sequence (where the
    loser tree is used and asserts are compiled in, no two records of different
    runs), and the names given out by the path factory are new. *)
Theorem rewrite_compaction_stores {F} fault clock ukc usc engine asserts (M : MergeFn KeyValue) spec new_wrapper parent_ fmt prefix new_uuid
    schema_id_ size batch_size before_error {D} output_level drop sections e :
  DataFormatLaws F → ComparatorsOK ukc usc → Implements M spec →
  (∀ n, no_slash (new_uuid n)) → no_slash fmt → no_slash prefix →
  (∀ k, 0 ≤ k → files e !! path_at parent_ (new_uuid (ticks e)) fmt prefix k = None) →
  Forall (readable ukc usc engine asserts parent_ (files e)) sections →
  let output := section_output ukc usc spec parent_ (files e) drop in
  match RewriteCompaction (D := D) fault clock ukc usc engine asserts M new_wrapper parent_ fmt prefix new_uuid schema_id_ size batch_size
          before_error output_level drop sections (true, e) with
  | (Ok r, (alive, e')) =>
      alive = true ∧ before_ r = ExtractFilesFromSections sections ∧
      (∃ outs, Forall2 (λ section out, output section = Ok out) sections outs ∧
         concat (map (stored parent_ (files e')) (after_ r)) = unleveled <$> concat outs) ∧
      Forall (λ m, summary m (stored parent_ (files e') m) ∧ level m = output_level) (after_ r) ∧
      NoDup (file_name <$> after_ r) ∧
      ∀ p, p ∉ DataFilePathFactory.ToPath parent_ <$> (file_name <$> after_ r) → files e' !! p = files e !! p
  | (Err _ _, (alive, e')) =>
      alive = false ∧
      ((∃ op n, is_ok (fault op n) = false) ∨ ∃ section, section ∈ sections ∧ is_ok (output section) = false) ∧
      ((∀ n, fault OpDelete n = Ok ()) → files e' = files e)
  end.
Proof.
  intros FL OK HM Hu Hf Hp Hfresh Hr output. unfold RewriteCompaction. cbn [fst snd negb files].
  pose proof (rewrite_sections_wp fault clock ukc usc engine asserts M spec new_wrapper parent_ fmt prefix schema_id_ size batch_size
    before_error _ output_level (Hu (ticks e)) Hf Hp (files e) Hfresh drop sections (mkEnv (files e) (ticks e) 0) eq_refl eq_refl Hr) as H.
  unfold wp in H. unfold guarded. cbn [ticks].
  destruct (rewrite_sections _ _ _ _ _ _ _ _ _ _ _ _ _ _ _ _ _ _ _ _) as [[ms|c m] [r e']].
  - destruct H as (outs&gs&Ho&Erows&Hd&Hfiles). cbn [snd] in Hfiles. cbn [before_ after_]. rewrite Hfiles.
    eapply written_results in Hd as (E1&E2&E3&E4); [|done..]. split_and!; try done. exists outs. split; [done|]. by rewrite E1, Erows.
  - destruct H as [Hwhy Hrem]. destruct (RollingAbort fault (r, e')) as [r1 e1] eqn:Ea. split_and!; [done|done|]. intros Hd.
    destruct (RollingAbort_restores fault (files e) (r, e') Hd (Hrem Hd)) as [_ E]. by rewrite Ea in E.
Qed.

(** *** Witnesses *)

Definition example_meta (name : string) (lvl lo hi : Z) : t :=
  DataFileMeta.mk name 10 2 [VInt lo] [VInt hi] EmptyStats EmptyStats 0 9 0 lvl [] (mkTimestamp 0 0) (Some 0) None None None None None
    None None.
Definition example_disk : @Env example_format :=
  mkEnv (<["t/a"%string := [[unleveled (example_record 1 5 RowKind.Insert); unleveled (example_record 2 6 RowKind.Delete)]]]>
        (<["t/b"%string := [[unleveled (example_record 1 1 RowKind.Insert)]; [unleveled (example_record 2 2 RowKind.Insert);
                            unleveled (example_record 3 3 RowKind.Insert)]]]> ∅)) 4 0.
Definition example_sections : list (list SortedRun) :=
  [[FromSingle (example_meta "a" 0 1 2); FromSingle (example_meta "b" 1 1 3)]].

Lemma example_sections_readable :
  Forall (readable (F := example_format) example_comparator None LOSER_TREE true "t" (files example_disk)) example_sections.
Proof.
  constructor; [|constructor]. split_and!; [done| | | |].
  - repeat constructor; by eexists.
  - vm_compute. repeat constructor.
  - intros x y Hx Hy. vm_compute in Hx, Hy.
    repeat (apply elem_of_cons in Hx as [->|Hx]); [..|by apply elem_of_nil in Hx];
      repeat (apply elem_of_cons in Hy as [->|Hy]); try done; by apply elem_of_nil in Hy.
  - intros _ _ i j bi bj x y Hij Hi Hj. vm_compute in Hi, Hj. destruct i as [|[|i]], j as [|[|j]]; try done;
      injection Hi as <-; injection Hj as <-; intros Hx Hy; cbn in Hx, Hy;
      repeat (apply elem_of_cons in Hx as [->|Hx]); try (by apply elem_of_nil in Hx);
      repeat (apply elem_of_cons in Hy as [->|Hy]); try (by apply elem_of_nil in Hy); vm_compute; discriminate.
Qed.

Lemma example_disk_fresh k : files example_disk !! path_at "t" "u" "orc" "data-" k = None.
Proof. unfold example_disk. cbn [files]. rewrite !lookup_insert_ne by discriminate. apply lookup_empty. Qed.

Lemma rewrite_compaction_stores_witness :
  ∃ r s, RewriteCompaction (F := example_format) (D := unit) (λ _ _, Ok ()) (λ _, 0) example_comparator None LOSER_TREE true example_dedup
           example_dedup_state "t" "orc" "data-" (λ _, "u") 1 100 2 (λ _, []) 3 true example_sections (true, example_disk) = (Ok r, s) ∧
    before_ r = [example_meta "a" 0 1 2; example_meta "b" 1 1 3] ∧ file_name <$> after_ r = ["data-u-0.orc"] ∧
    (∃ outs, Forall2 (λ section out, section_output (F := example_format) example_comparator None (Reducer.spec (Deduplicate.spec false))
                                       "t" (files example_disk) true section = Ok out) example_sections outs ∧
      concat (map (stored "t" (files s.2)) (after_ r)) = unleveled <$> concat outs) ∧
    concat (map (stored "t" (files s.2)) (after_ r)) =
      [unleveled (example_record 1 5 RowKind.Insert); unleveled (example_record 3 3 RowKind.Insert)].
Proof.
  assert (Hn : no_slash "u" ∧ no_slash "orc" ∧ no_slash "data-") by (split_and!; by repeat constructor). destruct Hn as (H1&H2&H3).
  pose proof (rewrite_compaction_stores (F := example_format) (D := unit) (λ _ _, Ok ()) (λ _, 0) example_comparator None LOSER_TREE true
    example_dedup (Reducer.spec (Deduplicate.spec false)) example_dedup_state "t" "orc" "data-" (λ _, "u"%string) 1 100 2 (λ _, []) 3 true
    example_sections example_disk example_format_laws example_comparators_ok (Reducer.implements _ _) (λ _, H1) H2 H3) as H.
  specialize (H (λ k _, example_disk_fresh k) example_sections_readable).
  destruct (RewriteCompaction _ _ _ _ _ _ _ _ _ _ _ _ _ _ _ _ _ _ _ _) as [[r|c m] [alive e]] eqn:E.
  - exists r, (alive, e). destruct H as (_&Hb&Ho&_). split_and!; [done|done| |exact Ho|]; vm_compute in E; by injection E as <- <- <-.
  - vm_compute in E. discriminate E.
Defined.
