(* ===== verification/TreeRows.v ===== *)
(** * What a merge tree holds

    The records of the files of a merge tree, and what compactions do to them:
    whatever is compacted, the same records stay visible. The content of a file
    is a function [content] of its metadata; what the compaction relies on from
    the rewriter is stated by the class [StoresMerged]. *)

From stdpp Require Import base list strings gmap sorting relations.
From Stdlib Require Import ZArith Lia.
From S2P Require Import Prelude Decimal Rows Ranges DataFiles LevelsProofs IntervalPartition Compaction CompactionProofs CompactionTasks.
From S2P Require Import KeyValues Readers SortMerge SortMergeProofs MergeFunctions MergeRead Writers VisibleRows Rewriter RewriterProofs.
Import DataFileMeta SortedRun Levels.
Local Open Scope Z_scope.

Section Content.
Context (ukc : InternalRow → InternalRow → Z) (usc : option (InternalRow → InternalRow → Z)).
Context {OK : ComparatorsOK ukc usc} (ignore_delete : bool) (content : t → list KeyValue).

#[local] Instance tree_key_laws : @ComparatorLaws KeyValue (rows_key ukc) := rows_key_laws ukc usc.
Abbreviation klt := (@klt KeyValue (rows_key ukc)).
Abbreviation kle := (@kle KeyValue (rows_key ukc)).

Let L : @ComparatorLaws InternalRow ukc := user_key_laws ukc usc.

Abbreviation dedup_spec := (Reducer.spec (Deduplicate.spec ignore_delete)).
Abbreviation keeps := (keeps ukc usc ignore_delete).
Abbreviation reduces := (reduces ukc usc ignore_delete).
Abbreviation distinct := (distinct ukc usc).
Abbreviation apart := (apart ukc).
Abbreviation before := (before ukc).

Definition rows_of (fs : list t) : list KeyValue := concat (map content fs).

(** A file holds at least one record, in ascending order of the keys, and its
    metadata gives the first and the last key. Levels are not stored. *)
Definition file_ok (f : t) : Prop :=
  content f ≠ [] ∧ StronglySorted klt (content f) ∧ unleveled <$> content f = content f ∧
  Some (min_key f) = key <$> head (content f) ∧ Some (max_key f) = key <$> last (content f) ∧
  Forall (λ x, key x ≠ []) (content f).

Lemma rows_of_app fs fs' : rows_of (fs ++ fs') = rows_of fs ++ rows_of fs'.
Proof. unfold rows_of. by rewrite map_app, concat_app. Qed.
Lemma elem_of_rows x fs : x ∈ rows_of fs ↔ ∃ f, f ∈ fs ∧ x ∈ content f.
Proof.
  unfold rows_of. rewrite list_elem_of_concat. split.
  - intros (l&(f&->&Hf)%list_elem_of_fmap&Hx). eauto.
  - intros (f&Hf&Hx). exists (content f). split; [by apply list_elem_of_fmap_2|done].
Qed.
#[export] Instance rows_of_Permutation : Proper ((≡ₚ) ==> (≡ₚ)) rows_of.
Proof. intros fs fs' Hp. unfold rows_of. induction Hp as [|f l l' _ IH|f g l|l1 l2 l3 _ IH1 _ IH2]; cbn; [done|by rewrite IH| |by etrans].
  rewrite !app_assoc. apply Permutation_app_tail, Permutation_app_comm. Qed.

(** ** Keys of files *)

Lemma content_range f x : file_ok f → x ∈ content f → ukc (min_key f) (key x) ≤ 0 ∧ ukc (key x) (max_key f) ≤ 0.
Proof.
  intros (Hne&Hs&_&Hmin&Hmax&_) Hx. destruct (content f) as [|y l] eqn:E; [done|]. injection Hmin as ->. split.
  - inversion_clear Hs as [|?? _ Hy]. apply elem_of_cons in Hx as [->|Hx]; [rewrite (@cmp_refl _ _ L); lia|].
    rewrite Forall_forall in Hy. specialize (Hy x Hx). unfold Prelude.klt, CompareTo, rows_key, latest_key, key_compare in Hy. lia.
  - destruct (last (y :: l)) as [z|] eqn:El; [|by apply last_None in El]. injection Hmax as ->.
    assert (Hle : kle x z).
    { eapply (sorted_last_max kle); [|eapply sorted_impl_in; [|exact Hs]|exact El|exact Hx].
      - intros a. apply kle_refl.
      - intros a b _ _. apply klt_le. }
    exact Hle.
Qed.

Lemma file_key_range f : file_ok f → key_range_ok ukc f.
Proof.
  intros Hf. pose proof Hf as (Hne&_). destruct (content f) as [|x l] eqn:E; [done|].
  destruct (content_range f x Hf) as [H1 H2]; [rewrite E; by left|]. unfold key_range_ok.
  apply (@kle_trans _ _ L _ (key x)); [exact H1|exact H2].
Qed.
Lemma file_max_key f : file_ok f → max_key f ≠ [].
Proof.
  intros (Hne&_&_&_&Hmax&Hk). destruct (last (content f)) as [z|] eqn:El; [|by apply last_None in El]. injection Hmax as ->.
  rewrite Forall_forall in Hk. apply Hk. by apply last_Some_elem_of.
Qed.

(** Files one before the other hold different keys. *)
Lemma before_rows f g x y : file_ok f → file_ok g → before f g → x ∈ content f → y ∈ content g → klt x y.
Proof.
  intros Hf Hg Hb Hx Hy. destruct (content_range f x Hf Hx) as [_ H1]. destruct (content_range g y Hg Hy) as [H2 _].
  unfold SortedRun.before in Hb.
  assert (@Prelude.klt _ ukc (key x) (key y)); [|done].
  apply (@kle_lt_trans _ _ L _ (max_key f)); [exact H1|]. apply (@klt_le_trans _ _ L _ (min_key g)); [exact Hb|exact H2].
Qed.

Definition files_before (A B : list t) : Prop := ∀ f g, f ∈ A → g ∈ B → before f g.

Lemma files_before_lt A B x y : Forall file_ok A → Forall file_ok B → files_before A B →
  x ∈ rows_of A → y ∈ rows_of B → klt x y.
Proof.
  intros HA HB Hb (f&Hf&Hx)%elem_of_rows (g&Hg&Hy)%elem_of_rows. rewrite Forall_forall in HA, HB.
  eapply before_rows; [by apply HA|by apply HB|by apply Hb|done..].
Qed.

(** Files are one before the other if their records are. *)
Lemma rows_before fs : Forall file_ok fs → StronglySorted klt (rows_of fs) → StronglySorted before fs.
Proof.
  induction 1 as [|f fs Hf Hfs IH]; intros Hs; [constructor|]. cbn in Hs. constructor; [apply IH; by apply StronglySorted_app_1_r in Hs|].
  rewrite Forall_forall in Hfs |- *. intros g Hg. pose proof (Hfs g Hg) as (Hne&_&_&Hmin&_).
  destruct Hf as (_&_&_&_&Hmax&_). destruct (last (content f)) as [x|] eqn:El; [|done]. injection Hmax as Emax.
  destruct (content g) as [|y l] eqn:Eg; [done|]. injection Hmin as Emin. unfold SortedRun.before. rewrite Emax, Emin.
  change (klt x y). eapply StronglySorted_app_1_elem_of; [exact Hs|by apply last_Some_elem_of|].
  apply elem_of_rows. exists g. split; [done|]. rewrite Eg. by left.
Qed.

(** ** Sections *)

(** The records as they are read, with the levels of their files. *)
Definition section_rows (section : list SortedRun) : list KeyValue :=
  concat (map (λ f, with_level (level f) <$> content f) (section_files section)).
Definition section_out (drop : bool) (section : list SortedRun) : Result (list KeyValue) :=
  out ← merged ukc usc dedup_spec (section_rows section); Ok (keep drop out).

Definition section_ok (section : list SortedRun) : Prop :=
  section ≠ [] ∧ Forall (λ run, StronglySorted before (files_ run)) section ∧ Forall file_ok (section_files section) ∧
  distinct (rows_of (section_files section)).

Lemma unleveled_with_level l kv : unleveled (with_level l kv) = unleveled kv.
Proof. done. Qed.
Lemma section_rows_unleveled section : Forall file_ok (section_files section) →
  unleveled <$> section_rows section = rows_of (section_files section).
Proof.
  unfold section_rows, rows_of. induction 1 as [|f fs Hf _ IH]; [done|]. cbn [map concat]. rewrite fmap_app, IH. f_equal.
  rewrite <-list_fmap_compose. by destruct Hf as (_&_&Hu&_).
Qed.

(** The effect of replacing records: with deletions dropped or kept. *)
Definition effect (drop : bool) (l out : list KeyValue) : Prop := if drop then reduces l out else keeps l out.

#[export] Instance effect_Permutation drop : Proper ((≡ₚ) ==> (≡ₚ) ==> iff) (effect drop).
Proof. intros l l' Hl o o' Ho. destruct drop; cbn; by rewrite Hl, Ho. Qed.

Lemma effect_sub drop l out : effect drop l out → out ⊆+ l.
Proof. destruct drop; by intros [? _]. Qed.
Lemma effect_refl drop l : effect drop l l.
Proof. destruct drop; [apply reduces_refl|by apply keeps_refl]. Qed.
Lemma effect_app drop l1 l2 o1 o2 : apart l1 l2 → effect drop l1 o1 → effect drop l2 o2 → effect drop (l1 ++ l2) (o1 ++ o2).
Proof. intros Ha. destruct drop; [by apply reduces_apart|by apply keeps_app]. Qed.
Lemma effect_reduces drop l out : distinct l → effect drop l out → reduces l out.
Proof. intros Hd. destruct drop; [done|by apply keeps_reduces]. Qed.

Lemma section_out_ok drop section : section_ok section → ∃ out, section_out drop section = Ok out ∧
  effect drop (rows_of (section_files section)) (unleveled <$> out) ∧ StronglySorted klt (unleveled <$> out).
Proof.
  intros (_&_&Hf&Hd). rewrite <-(section_rows_unleveled _ Hf) in Hd |- *. apply distinct_unleveled in Hd. unfold section_out.
  destruct (merged_keeps ukc usc ignore_delete _ Hd) as (out&E&Hk&Hs). rewrite E. eexists. split; [done|]. split.
  - destruct drop; cbn [keep effect].
    + apply reduces_unleveled. destruct (merged_reduces ukc usc ignore_delete _ Hd) as (out'&E'&Hr). rewrite E in E'. by injection E' as <-.
    + by apply keeps_unleveled.
  - apply (StronglySorted_fmap unleveled klt klt); [by intros|]. destruct drop; [by apply sorted_filter|done].
Qed.

Lemma sections_effect drop sections outs : Forall section_ok sections → StronglySorted files_before (map section_files sections) →
  Forall2 (λ section o, section_out drop section = Ok o) sections outs →
  effect drop (rows_of (concat (map section_files sections))) (unleveled <$> concat outs) ∧
  StronglySorted klt (unleveled <$> concat outs).
Proof.
  intros Hok Hs Ho. induction Ho as [|section out sections outs Eo _ IH]; [split; [apply effect_refl|constructor]|].
  cbn [map concat] in *. apply Forall_cons in Hok as [Hsec Hok]. inversion_clear Hs as [|?? Hs' Hb].
  destruct (IH Hok Hs') as [He Hsort]. destruct (section_out_ok drop section Hsec) as (out'&Eo'&He'&Hsort').
  rewrite Eo in Eo'. injection Eo' as <-. rewrite fmap_app, rows_of_app.
  assert (Hlt : ∀ x y, x ∈ rows_of (section_files section) → y ∈ rows_of (concat (map section_files sections)) → klt x y).
  { intros x y Hx Hy. eapply files_before_lt; [apply Hsec| | |exact Hx|exact Hy].
    - apply Forall_concat, Forall_map. eapply Forall_impl; [exact Hok|]. intros sec Hsec'. apply Hsec'.
    - intros f g Hf (l&Hl&Hg)%list_elem_of_concat. rewrite Forall_forall in Hb. by apply (Hb l Hl). }
  split.
  - apply effect_app; [|done..]. intros x y Hx Hy. by apply (lt_not_same ukc usc x y), Hlt.
  - apply StronglySorted_app_2; [|done..]. intros x y Hx Hy.
    apply Hlt; (eapply elem_of_submseteq; [done|by eapply effect_sub]).
Qed.

(** ** The rewriter *)

Definition described_ok (f : t) : Prop :=
  content f ≠ [] ∧ Some (min_key f) = key <$> head (content f) ∧ Some (max_key f) = key <$> last (content f).

(** The contract of a rewriter: the new files hold the merged records of the
    sections, and upgraded files are as before. *)
Class StoresMerged {D} (rewriter : CompactRewriter D) : Prop := {
  rewrite_stores out drop sections r : Forall section_ok sections → Rewrite rewriter out drop sections = Ok r →
    before_ r = ExtractFilesFromSections sections ∧ Forall (λ f, level f = out ∧ described_ok f) (after_ r) ∧
    ∃ outs, Forall2 (λ section o, section_out drop section = Ok o) sections outs ∧ rows_of (after_ r) = unleveled <$> concat outs;
  upgrade_stores out f r : UpgradeFile rewriter out f = Ok r →
    before_ r = [f] ∧ ∃ f', after_ r = [f'] ∧ level f' = out ∧ content f' = content f ∧ min_key f' = min_key f ∧ max_key f' = max_key f
}.

Section Effects.
Context {D : Type} (rewriter : CompactRewriter D) {HR : StoresMerged rewriter} (out max_level : Z) (drop force : bool).
Context (sections : list (list SortedRun)) (Hsections : Forall section_ok sections).
Abbreviation did := (did rewriter out max_level drop force sections).
Abbreviation dids := (dids rewriter out max_level drop force sections).

Lemma from_sections_ok section : from_sections sections section → section_ok section.
Proof.
  rewrite Forall_forall in Hsections. intros [[Hin _]|(run&f&Hin&Hf&->)]; [by apply Hsections|].
  destruct (Hsections _ Hin) as (_&_&Hfiles&Hd). unfold section_files in *. cbn in *. rewrite app_nil_r in *.
  rewrite Forall_forall in Hfiles. split_and!; [done|by repeat constructor|by constructor; [apply Hfiles|constructor]|].
  eapply distinct_sub; [|exact Hd]. apply elem_of_Permutation in Hf as [fs ->].
  change (rows_of [f] ⊆+ rows_of ([f] ++ fs)). rewrite rows_of_app. by apply submseteq_inserts_r.
Qed.

(** The files of the output level that take the place of the atoms, in the
    order of their keys. *)
Definition takes_place (A : list (list t)) (b a : list t) (new : list t) : Prop :=
  ∃ kept, new ≡ₚ a ++ kept ∧ b ++ kept ≡ₚ concat A ∧ Forall file_ok new ∧ Forall (λ f, level f = out) new ∧
    StronglySorted klt (rows_of new) ∧ effect drop (rows_of (concat A)) (rows_of new).

Lemma rewritten_ok l fs outs : rows_of fs = unleveled <$> concat outs → Forall described_ok fs → StronglySorted klt (rows_of fs) →
  rows_of fs ⊆+ l → Forall (λ x, key x ≠ []) l → Forall file_ok fs.
Proof.
  intros Er Hd Hs Hsub Hk. rewrite Forall_forall in Hd |- *. rewrite Forall_forall in Hk. intros f Hf. destruct (Hd f Hf) as (Hne&Hmin&Hmax).
  assert (Hin : ∀ x, x ∈ content f → x ∈ rows_of fs) by (intros x Hx; apply elem_of_rows; eauto).
  split_and!; try done.
  - eapply sorted_concat; [exact Hs|]. by apply list_elem_of_fmap_2.
  - rewrite <-(list_fmap_id (content f)) at 2. apply list_fmap_ext. intros i x Hx%list_elem_of_lookup_2%Hin.
    rewrite Er in Hx. by apply list_elem_of_fmap in Hx as (y&->&_).
  - apply Forall_forall. intros x Hx%Hin. apply Hk. by eapply elem_of_submseteq.
Qed.

Lemma did_effect A b a : did A b a → Forall (Forall file_ok) A → StronglySorted files_before A → ∃ new, takes_place A b a new.
Proof.
  intros [secs r Hfrom Hr|f r _ _ Hr|f Hl _] Hok Hs.
  - assert (Hsecs : Forall section_ok secs) by (eapply Forall_impl; [exact Hfrom|apply from_sections_ok]).
    destruct (rewrite_stores _ _ _ _ Hsecs Hr) as (Hb&Ha&outs&Ho&Er). exists (after_ r), [].
    destruct (sections_effect drop secs outs Hsecs Hs Ho) as [He Hsort]. rewrite !app_nil_r, Hb, <-Er in *.
    split_and!; try done.
    + apply (rewritten_ok (rows_of (concat (map section_files secs))) _ outs); [done| |done|by eapply effect_sub|].
      * eapply Forall_impl; [exact Ha|]. by intros f [_ ?].
      * apply Forall_forall. intros x (f&Hf&Hx)%elem_of_rows. apply Forall_concat in Hok. rewrite Forall_forall in Hok.
        destruct (Hok f Hf) as (_&_&_&_&_&Hk). rewrite Forall_forall in Hk. by apply Hk.
    + eapply Forall_impl; [exact Ha|]. by intros f [? _].
  - destruct (upgrade_stores _ _ _ Hr) as (->&f'&->&Hl&Ec&Emin&Emax). exists [f'], []. cbn in *.
    apply Forall_cons in Hok as [[Hf _]%Forall_cons _].
    assert (Hf' : file_ok f') by (unfold file_ok in *; by rewrite Ec, Emin, Emax).
    unfold rows_of. cbn. rewrite Ec, !app_nil_r. split_and!; [done|done|by apply Forall_singleton|by apply Forall_singleton|apply Hf|apply effect_refl].
  - exists [f], [f]. apply Forall_cons in Hok as [[Hf _]%Forall_cons _]. unfold rows_of. cbn. rewrite app_nil_r.
    split_and!; [done|done|by apply Forall_singleton|by apply Forall_singleton|apply Hf|apply effect_refl].
Qed.

Lemma dids_effect A b a : dids A b a → Forall (Forall file_ok) A → StronglySorted files_before A → ∃ new, takes_place A b a new.
Proof.
  induction 1 as [|A b a A' b' a' _ IH Hdid]; intros Hok Hs.
  { exists [], []. split_and!; try done; [constructor|apply effect_refl]. }
  apply Forall_app in Hok as [Hok Hok']. apply StronglySorted_app in Hs as (Hb&Hs&Hs').
  destruct (IH Hok Hs) as (new&kept&Hp&Hp1&Hf&Hl&Hsort&He).
  destruct (did_effect _ _ _ Hdid Hok' Hs') as (new'&kept'&Hp'&Hp1'&Hf'&Hl'&Hsort'&He').
  assert (Hlt : ∀ x y, x ∈ rows_of (concat A) → y ∈ rows_of (concat A') → klt x y).
  { intros x y Hx Hy. eapply files_before_lt; [| | |exact Hx|exact Hy]; [by apply Forall_concat..|].
    intros f g (l&Hl1&Hf1)%list_elem_of_concat (l'&Hl2&Hg1)%list_elem_of_concat. by apply (Hb l l'). }
  exists (new ++ new'), (kept ++ kept'). rewrite concat_app, !rows_of_app. split_and!.
  - rewrite Hp, Hp'. rewrite <-!app_assoc; apply Permutation_app_head; rewrite !app_assoc; apply Permutation_app_tail, Permutation_app_comm.
  - rewrite <-Hp1, <-Hp1'. rewrite <-!app_assoc; apply Permutation_app_head; rewrite !app_assoc; apply Permutation_app_tail, Permutation_app_comm.
  - by apply Forall_app.
  - by apply Forall_app.
  - apply StronglySorted_app_2; [|done..]. intros x y Hx Hy. apply Hlt; (eapply elem_of_submseteq; [done|by eapply effect_sub]).
  - apply effect_app; [|done..]. intros x y Hx Hy. by apply (lt_not_same ukc usc x y), Hlt.
Qed.
End Effects.

(** ** Tasks *)

Lemma atoms_sorted sections : Forall (Forall (λ run, StronglySorted before (files_ run))) sections →
  StronglySorted (λ s s', files_before (section_files s) (section_files s')) sections → StronglySorted files_before (atoms sections).
Proof.
  intros Hruns Hs. induction Hs as [|section sections Hs IH Hb]; [constructor|]. apply Forall_cons in Hruns as [Hsec Hruns].
  unfold atoms. cbn [map concat]. apply StronglySorted_app_2; [| |by apply IH].
  - intros A B HA (As&(section'&->&Hin)%list_elem_of_fmap&HB)%list_elem_of_concat. rewrite Forall_forall in Hb. specialize (Hb section' Hin).
    assert (Hsub : ∀ s A f, A ∈ atoms_of s → f ∈ A → f ∈ section_files s).
    { clear. intros s A f HA Hf. rewrite <-(app_nil_r (section_files s)). change (f ∈ ExtractFilesFromSections [s]).
      rewrite <-concat_atoms. apply list_elem_of_concat. exists A. split; [|done]. unfold atoms. cbn. by rewrite app_nil_r. }
    intros f g Hf Hg. apply Hb; by eapply Hsub.
  - destruct section as [|run [|run' section]]; [constructor| |repeat constructor].
    apply Forall_cons in Hsec as [Hrun _]. cbn. eapply (StronglySorted_fmap (λ f, [f])); [|exact Hrun].
    intros f g Hfg f' g' Hf Hg. apply list_elem_of_singleton in Hf as ->, Hg as ->. done.
Qed.

Lemma partition_ok fs : Forall file_ok fs → distinct (rows_of fs) →
  let sections := IntervalPartition.Partition ukc (IntervalPartition.create ukc fs) in
  Forall section_ok sections ∧ StronglySorted files_before (atoms sections) ∧ concat (atoms sections) ≡ₚ fs ∧
  StronglySorted files_before (map section_files sections).
Proof.
  intros Hok Hd sections.
  assert (Hrange : Forall (key_range_ok ukc) fs) by (eapply Forall_impl; [exact Hok|apply file_key_range]).
  destruct (IntervalPartition.Partition_spec ukc fs L Hrange) as (Hp&Hvalid&Hs&Hne).
  { eapply Forall_impl; [exact Hok|apply file_max_key]. }
  fold sections in Hp, Hvalid, Hs, Hne.
  assert (Hc : concat (atoms sections) ≡ₚ fs).
  { rewrite concat_atoms, <-Hp. unfold ExtractFilesFromSections. clear. induction sections as [|s l IH]; [done|]. cbn.
    by rewrite IH, concat_app. }
  assert (Hin : ∀ s, s ∈ sections → section_files s ⊆+ fs).
  { intros s [l Hl]%elem_of_Permutation. rewrite <-Hp, Hl. cbn. rewrite concat_app. by apply submseteq_inserts_r. }
  assert (Hruns : Forall (Forall (λ run, StronglySorted before (files_ run))) sections).
  { rewrite Forall_forall in Hvalid |- *. intros s Hsin. specialize (Hvalid s Hsin). rewrite Forall_forall in Hvalid |- *.
    intros run Hrun. refine (proj1 (IsValid_sorted ukc (KL := L) run _) (proj2 (Hvalid run Hrun))). apply Forall_forall. intros f Hf.
    rewrite Forall_forall in Hrange. apply Hrange. eapply elem_of_submseteq; [|by apply Hin].
    apply list_elem_of_concat. exists (files_ run). split; [by apply list_elem_of_fmap_2|done]. }
  split_and!; [|by apply atoms_sorted|done|by eapply (StronglySorted_fmap section_files); [|exact Hs]].
  rewrite Forall_forall in Hne |- *. intros s Hsin. split_and!.
  - by apply Hne.
  - rewrite Forall_forall in Hruns. by apply Hruns.
  - by eapply Forall_sub; [apply Hin|].
  - eapply distinct_sub; [|exact Hd]. destruct (submseteq_Permutation _ _ (Hin s Hsin)) as [k ->].
    rewrite rows_of_app. by apply submseteq_inserts_r.
Qed.
End Content.
