(* ===== verification/TreeHistory.v ===== *)
(** * The history of a merge tree

    A merge tree that files are added to, and that is compacted while they are,
    always shows what was written: at every moment the records visible in the
    files of the tree are those visible in everything that was ever added. *)

From stdpp Require Import base list strings gmap sorting relations.
From Stdlib Require Import ZArith Lia.
From S2P Require Import Prelude Decimal Rows Ranges DataFiles LevelsProofs IntervalPartition Compaction CompactionProofs CompactionTasks.
From S2P Require Import KeyValues Readers SortMerge SortMergeProofs MergeFunctions MergeRead Writers VisibleRows Rewriter RewriterProofs TreeRows.
Import DataFileMeta SortedRun Levels MergeTreeCompactManager.
Local Open Scope Z_scope.

(** ** Updates that do not fail *)

Lemma sorted_sublist {A} (R : A → A → Prop) l l' : l `sublist_of` l' → StronglySorted R l' → StronglySorted R l.
Proof.
  induction 1 as [|x l l' Hl IH|x l l' Hl IH]; intros Hs; [done| |]; inversion_clear Hs as [|?? Hs' Hx]; [|by apply IH].
  constructor; [by apply IH|]. rewrite Forall_forall in Hx |- *. intros y Hy. apply Hx. by eapply elem_of_sublist.
Qed.
Lemma sorted_pair {A} (R : A → A → Prop) l x y k : StronglySorted R l → l ≡ₚ x :: y :: k → R x y ∨ R y x.
Proof.
  intros Hs Hp. assert (x ∈ l) as (l1&l2&->)%list_elem_of_split by (rewrite Hp; by left).
  assert (Hy : y ∈ l1 ++ l2).
  { rewrite <-Permutation_middle in Hp. apply Permutation_cons_inv in Hp. rewrite Hp. by left. }
  apply StronglySorted_app in Hs as (H12&_&Hs). inversion_clear Hs as [|?? _ Hx]. rewrite Forall_forall in Hx.
  apply elem_of_app in Hy as [Hy|Hy]; [right; apply H12; [done|by left]|left; by apply Hx].
Qed.
(** Of a list that can be sorted by [S], a permutation sorted by an order that
    does not contradict [S] is sorted by [S]. *)
Lemma sorted_transfer {A} (R S : A → A → Prop) l1 l2 : l1 ≡ₚ l2 → StronglySorted R l1 → StronglySorted S l2 →
  (∀ a b, a ∈ l1 → b ∈ l1 → R a b → S b a → False) → StronglySorted S l1.
Proof.
  intros Hp Hs1. revert l2 Hp. induction Hs1 as [|x l1 Hs1 IH Hx]; intros l2 Hp Hs2 HRS; [constructor|].
  assert (x ∈ l2) as (l3&l4&->)%list_elem_of_split by (rewrite <-Hp; by left).
  pose proof Hp as Hp'. rewrite <-Permutation_middle in Hp'. apply Permutation_cons_inv in Hp'. constructor.
  - apply (IH _ Hp'); [|intros a b Ha Hb; apply HRS; by right].
    eapply sorted_sublist; [|exact Hs2]. apply sublist_app; [done|by apply sublist_cons].
  - rewrite Forall_forall in Hx |- *. intros y Hy. destruct (elem_of_Permutation l1 y) as [[k Hk] _]; [done|].
    destruct (sorted_pair S (l3 ++ x :: l4) x y k Hs2) as [?|HS]; [by rewrite <-Hp, Hk|done|].
    destruct (HRS x y); [by left|by right|by apply Hx|done].
Qed.

Section Updates.
Context (kc : InternalRow → InternalRow → Z) {KL : @ComparatorLaws InternalRow kc}.
#[local] Instance update_kc : Comparator InternalRow := kc.
Abbreviation before := (before kc).

(** The key ranges of the files do not overlap. *)
Definition disjoint (fs : list t) : Prop := ∃ fs', fs ≡ₚ fs' ∧ StronglySorted before fs'.

#[export] Instance disjoint_Permutation : Proper ((≡ₚ) ==> iff) disjoint.
Proof. intros fs fs' Hp. unfold disjoint. by setoid_rewrite Hp. Qed.

Lemma disjoint_sub fs fs' : fs ⊆+ fs' → disjoint fs' → disjoint fs.
Proof.
  intros Hsub (l&Hp&Hs). rewrite Hp in Hsub. apply submseteq_sublist_r in Hsub as (l'&Hp'&Hl').
  exists l'. split; [done|]. by eapply sorted_sublist.
Qed.

Lemma not_after_min a b : not_after (min_key_less kc) a b ↔ kle (min_key a) (min_key b).
Proof.
  unfold not_after, min_key_less. rewrite Z.ltb_ge. split; [|intros Hle; apply Z.le_ngt; change (¬ klt (min_key b) (min_key a)); korder].
  intros Hge. apply Z.le_ngt in Hge. change (¬ klt (min_key b) (min_key a)) in Hge. korder.
Qed.
#[local] Instance min_key_total : Total (not_after (min_key_less kc)).
Proof. intros a b. rewrite !not_after_min. destruct (decide (kle (min_key a) (min_key b))); [by left|right; korder]. Qed.
#[local] Instance min_key_trans : Transitive (not_after (min_key_less kc)).
Proof. intros a b c. rewrite !not_after_min. intros. korder. Qed.

Lemma FromUnsorted_succeeds fs : Forall (key_range_ok kc) fs → disjoint fs → ∃ run, FromUnsorted kc fs = Ok run.
Proof.
  intros Hr (l&Hp&Hs). unfold FromUnsorted.
  pose proof (std_sort_Permutation (min_key_less kc) fs) as Hsp.
  assert (Hv : IsValid kc (make (std_sort (min_key_less kc) fs)) = true).
  { apply IsValid_sorted; cbn [make files_]; [done|by rewrite Hsp|].
    eapply sorted_transfer; [rewrite Hsp; exact Hp|apply std_sort_sorted; apply _|done|].
    intros a b Ha Hb Hab%not_after_min Hba. rewrite <-Hsp, Forall_forall in Hr. apply Hr in Hb.
    apply (klt_irrefl (max_key b)), (klt_le_trans _ (min_key a)); [exact Hba|]. by apply (kle_trans _ (min_key b)). }
  rewrite Hv. by eexists.
Qed.

Lemma UpdateLevel_succeeds l bef aft rest s : 0 ≤ l ≤ Z.of_nat (length s.2) → files_at s l ≡ₚ bef ++ rest →
  NoDup (names (files_at s l)) → Forall (key_range_ok kc) (rest ++ aft) → (1 ≤ l → disjoint (rest ++ aft)) →
  ∃ s', UpdateLevel kc l bef aft s = Ok s'.
Proof.
  intros Hl Hp Hn Hr Hd. destruct s as [l0 ls]. unfold UpdateLevel.
  assert (Hrun : l ≠ 0 → ∃ run, RunOfLevel l ls = Ok run ∧ files_ run = files_at (l0, ls) l).
  { intros Hl0. unfold RunOfLevel, files_at. cbn in *. destruct (Z.leb_spec l 0); [lia|]. destruct (Z.eqb_spec l 0); [lia|].
    destruct (lookup_lt_is_Some_2 ls (Z.to_nat (l - 1))) as [run ->]; [lia|]. by exists run. }
  destruct (Z.eqb_spec l 0) as [->|Hl0]; [by destruct bef, aft; eexists|].
  destruct (Hrun Hl0) as (run&->&Ef). rewrite <-Ef in Hp, Hn. pose proof (fold_erase_name _ _ _ Hn Hp) as He.
  destruct (FromUnsorted_succeeds (foldl (λ files f, erase_name (file_name f) files) (files_ run) bef ++ aft)) as [run' E].
  - by rewrite He.
  - rewrite He. apply Hd. lia.
  - destruct bef, aft; [by eexists|..]; cbn in E |- *; rewrite E; by eexists.
Qed.

Lemma Update_loop_succeeds n i bef aft rest s : 0 ≤ i → i + Z.of_nat n ≤ Z.of_nat (length s.2) + 1 → state_ok kc s →
  NoDup (names (rest ++ aft)) → Forall (key_range_ok kc) (rest ++ aft) → (∀ l, 1 ≤ l → disjoint (at_level l (rest ++ aft))) →
  (∀ l, i ≤ l < i + Z.of_nat n → files_at s l ≡ₚ at_level l bef ++ at_level l rest ∧ NoDup (names (files_at s l))) →
  ∃ s', Update_loop kc n i (GroupByLevel bef) (GroupByLevel aft) s = (s', Ok ()).
Proof.
  intros Hi Hlen Hs Hn Hr Hd. destruct (GroupByLevel_spec bef) as (_&_&Hb). destruct (GroupByLevel_spec aft) as (_&_&Ha).
  revert i s Hi Hlen Hs. induction n as [|n IH]; intros i s Hi Hlen Hs Hf; [by exists s|]. cbn [Update_loop]. rewrite Hb, Ha.
  destruct (Hf i ltac:(lia)) as [Hp Hnd].
  destruct (UpdateLevel_succeeds i (at_level i bef) (at_level i aft) (at_level i rest) s) as [s' E]; [lia|done|done| | |].
  - rewrite <-at_level_app. eapply Forall_sub; [|exact Hr]. apply sublist_submseteq, sublist_filter.
  - rewrite <-at_level_app. apply Hd.
  - rewrite E. destruct (UpdateLevel_spec kc i _ _ s s' Hi Hs (at_level_level i aft) E) as (Hs'&Hl'&Hother&_).
    apply IH; [lia|by rewrite Hl'; lia|done|]. intros l Hl. rewrite Hother by lia. apply Hf. lia.
Qed.

(** An update succeeds if the files of each level from 1 on do not overlap
    afterwards. *)
Lemma Update_succeeds bef aft rest lv : levels_ok kc lv → AllFiles lv ≡ₚ bef ++ rest → NoDup (names (AllFiles lv)) →
  NoDup (names (rest ++ aft)) → Forall (key_range_ok kc) (rest ++ aft) →
  (∀ l, 1 ≤ l → disjoint (at_level l (rest ++ aft))) → ∃ lv' notes, Update kc bef aft lv = (lv', Ok notes).
Proof.
  intros [Hs Hlen] Hp Hn Hn' Hr Hd. rewrite AllFiles_held in Hp, Hn. unfold Update.
  destruct (Update_loop_succeeds (S (length (levels_ lv))) 0 bef aft rest (level0_ lv, levels_ lv)) as [[l0 ls] E]; try done.
  - cbn [snd]. lia.
  - intros l Hl. assert (Ef : files_at (level0_ lv, levels_ lv) l = at_level l (held (level0_ lv, levels_ lv))).
    { rewrite (at_level_held kc) by done. by destruct (Z.leb_spec 0 l); [|lia]. }
    rewrite Ef. split.
    + rewrite <-at_level_app. unfold at_level. by rewrite Hp.
    + eapply names_sub; [|exact Hn]. apply sublist_submseteq, sublist_filter.
  - rewrite E. cbn. eauto.
Qed.
End Updates.

Section History.
Context (ukc : InternalRow → InternalRow → Z) (usc : option (InternalRow → InternalRow → Z)).
Context {OK : ComparatorsOK ukc usc} (ignore_delete : bool) (content : t → list KeyValue).
Context (strategy : CompactStrategy) {HS : StrategyOK strategy}.
Context (compaction_file_size : Z) (force_rewrite keep_delete : bool).

Let L : @ComparatorLaws InternalRow ukc := user_key_laws ukc usc.

Abbreviation keeps := (keeps ukc usc ignore_delete).
Abbreviation reduces := (reduces ukc usc ignore_delete).
Abbreviation distinct := (distinct ukc usc).
Abbreviation newer := (newer ukc usc).
Abbreviation before := (before ukc).
Abbreviation rows_of := (rows_of content).
Abbreviation file_ok := (file_ok ukc content).
Abbreviation visible := (visible ukc usc ignore_delete).
Abbreviation StoresMerged := (StoresMerged ukc usc ignore_delete content).
Abbreviation takes_place := (takes_place ukc usc ignore_delete content).

(** ** What a task does to the records *)

(** The files of a task: one before the other if they are rewritten one by
    one. *)
Definition task_ok (task : Submitted) : Prop :=
  Forall file_ok (unit_files (unit_ task)) ∧ distinct (rows_of (unit_files (unit_ task))) ∧
  (file_rewrite (unit_ task) = true → StronglySorted before (unit_files (unit_ task))).

Lemma execute_effect {D} (rewriter : CompactRewriter D) df task r : StoresMerged rewriter → task_ok task →
  execute ukc compaction_file_size force_rewrite rewriter df task = Ok r →
  ∃ new, takes_place (output_level (unit_ task)) (drop_delete task) [unit_files (unit_ task)] (before_ r) (after_ r) new.
Proof.
  intros HR (Hok&Hd&Hs) E. unfold execute in E.
  assert (Hgoal : ∀ sections A, Forall (section_ok ukc usc content) sections → StronglySorted (files_before ukc) A →
    concat A ≡ₚ unit_files (unit_ task) →
    dids rewriter (output_level (unit_ task)) (max_level_ task) (drop_delete task) force_rewrite sections A (before_ r) (after_ r) →
    ∃ new, takes_place (output_level (unit_ task)) (drop_delete task) [unit_files (unit_ task)] (before_ r) (after_ r) new).
  { intros sections A Hsec HA Hp Hdid.
    destruct (dids_effect ukc usc ignore_delete content rewriter _ _ _ _ sections Hsec A _ _ Hdid) as (new&kept&H1&H2&H3&H4&H5&H6).
    - apply Forall_concat. by rewrite Hp.
    - done.
    - exists new, kept. change (concat [?l]) with (l ++ []). rewrite app_nil_r, <-Hp. done. }
  destruct (file_rewrite (unit_ task)) eqn:Er.
  - eapply Hgoal; [| | |by eapply FileRewrite_did].
    + apply Forall_singleton. split_and!; [done|by apply Forall_singleton, Hs| |]; unfold section_files; cbn; by rewrite app_nil_r.
    + eapply (StronglySorted_fmap (λ f, [f])); [|by apply Hs]. intros f g Hfg f' g' Hf Hg.
      apply list_elem_of_singleton in Hf as ->, Hg as ->. done.
    + by rewrite concat_singletons.
  - destruct (partition_ok ukc usc content _ Hok Hd) as (Hsec&HA&Hp&_). eapply Hgoal; [exact Hsec|exact HA|exact Hp|].
    by eapply DoCompact_did.
Qed.

(** ** Runs of the tree *)

Abbreviation state := (State strategy).
Abbreviation levels := (levels strategy).
Abbreviation task_future := (task_future_ strategy).
Abbreviation tree s := (AllFiles (levels s)).
Abbreviation trigger := (TriggerCompaction strategy None force_rewrite keep_delete).

(** The files of a result have names of their own, or that of a file they
    replace. *)
Definition fresh_names {D} (r : CompactResult D) (fs : list t) : Prop :=
  NoDup (names (after_ r)) ∧ ∀ f, f ∈ after_ r → file_name f ∈ names fs → file_name f ∈ names (before_ r).

(** The calls of a writer, with what has been written: a flush adds a file of
    records that are not older than those of their keys written before. *)
Inductive tree_step {D} : state * list KeyValue → state * list KeyValue → Prop :=
| tree_add file s h : file_ok file → level file = 0 → file_name file ∉ names (tree s) →
    newer h (content file) → distinct (h ++ content file) →
    tree_step (s, h) ((AddNewFile ukc strategy file s).1, h ++ content file)
| tree_trigger full s h : tree_step (s, h) ((trigger full s).1, h)
| tree_collect ready (rewriter : CompactRewriter D) df s h : StoresMerged rewriter →
    (∀ task r, task_future s = Some task → execute ukc compaction_file_size force_rewrite rewriter df task = Ok r →
       fresh_names r (tree s)) →
    tree_step (s, h)
      ((GetCompactionResult ukc strategy ready (execute ukc compaction_file_size force_rewrite rewriter df) s).1, h)
| tree_cancel s h : tree_step (s, h) (RequestCancelCompaction strategy s, h)
| tree_wait s h : tree_step (s, h) (WaitForCompactionToExit strategy s, h).

(** What is known of a running task: its files are still in the tree, no other
    file is at its output level, and if it drops deletions the other files are
    newer. *)
Definition pending_ok (s : state) (task : Submitted) : Prop :=
  let unit := unit_ task in
  ∃ rest, tree s ≡ₚ unit_files unit ++ rest ∧ 1 ≤ output_level unit ≤ MaxLevel (levels s) ∧
    Forall (λ f, level f ≠ output_level unit) rest ∧
    (drop_delete task = true → newer (rows_of (unit_files unit)) (rows_of rest)) ∧
    (file_rewrite unit = true → StronglySorted before (unit_files unit)).

Definition tree_ok (p : state * list KeyValue) : Prop :=
  let '(s, h) := p in
  levels_ok ukc (levels s) ∧ NoDup (names (tree s)) ∧ Forall file_ok (tree s) ∧ distinct h ∧ reduces h (rows_of (tree s)) ∧
  ∀ task, task_future s = Some task → pending_ok s task.

Lemma run_disjoint s l : levels_ok ukc (levels s) → Forall file_ok (tree s) → 1 ≤ l → disjoint ukc (at_level l (tree s)).
Proof.
  intros [Hs _] Hf Hl. rewrite AllFiles_held in *. rewrite (at_level_held ukc) by done. destruct (Z.leb_spec 0 l); [|lia].
  assert (Hr : Forall (key_range_ok ukc) (files_at (level0_ (levels s), levels_ (levels s)) l)).
  { apply (Forall_impl file_ok); [|apply (file_key_range ukc usc content)].
    eapply Forall_sub; [|exact Hf]. pose proof (at_level_held ukc _ l Hs) as E. destruct (Z.leb_spec 0 l); [|lia].
    rewrite <-E. apply sublist_submseteq, sublist_filter. }
  exists (files_at (level0_ (levels s), levels_ (levels s)) l). split; [done|]. unfold files_at in *.
  destruct (Z.eqb_spec l 0); [lia|]. cbn in *. destruct (levels_ (levels s) !! Z.to_nat (l - 1)) as [run|] eqn:E; [|constructor].
  apply (IsValid_sorted ukc (KL := L) run); [done|]. destruct Hs as (_&_&Hs). apply (Hs _ _ E).
Qed.

(** *** Adding a file *)

Lemma add_file file s h : tree_ok (s, h) → file_ok file → level file = 0 → file_name file ∉ names (tree s) →
  ∃ lv, AddNewFile ukc strategy file s = (mk strategy lv (strategy_state strategy s) (task_future s) (cancelled_ strategy s), Ok ()) ∧
    levels_ok ukc lv ∧ MaxLevel lv = MaxLevel (levels s) ∧ AllFiles lv ≡ₚ tree s ++ [file].
Proof.
  intros (Hok&Hn&Hf&_) Hfile Hl Hname. unfold AddNewFile.
  assert (Hn' : NoDup (names (tree s ++ [file]))).
  { rewrite fmap_app. apply NoDup_app. split_and!; [done| |apply NoDup_singleton]. intros x Hx ->%list_elem_of_singleton. done. }
  destruct (Update_succeeds ukc (KL := L) [] [file] (tree s) (levels s)) as (lv&notes&E); [done..| | |].
  - apply (Forall_impl file_ok); [|apply (file_key_range ukc usc content)]. apply Forall_app. by split; [|apply Forall_singleton].
  - intros l Hl1. rewrite at_level_app, (at_level_none l [file]), app_nil_r by (apply Forall_singleton; lia). by apply run_disjoint.
  - rewrite E. cbn. destruct (Update_ok ukc _ _ _ _ _ Hok E) as [Hok' Hlen]. exists lv. split_and!; [done|done| |].
    + unfold MaxLevel. by rewrite Hlen.
    + eapply (Update_files ukc [] [file] (tree s) (levels s)); [done|exact E|done..|]. apply Forall_singleton. unfold MaxLevel. lia.
Qed.

(** *** Submitting a task *)

Lemma run_files lv r : levels_ok ukc lv → r ∈ LevelSortedRuns lv →
  Forall (λ f, level f = run_level r) (files_ (run r)) ∧ (1 ≤ run_level r → IsValid ukc (run r) = true).
Proof.
  intros [(_&H0&Hr) _]. cbn in H0, Hr. unfold LevelSortedRuns. rewrite elem_of_app. intros [(f&->&Hf)%list_elem_of_fmap|Hin].
  - rewrite Forall_forall in H0. cbn. split; [by apply Forall_singleton, H0|lia].
  - destruct (level_runs_elem 1 _ r Hin) as (j&Hj&->&_). destruct (Hr j (run r) Hj) as (Hv&_&Hl).
    split; [|done]. eapply Forall_impl; [exact Hl|]. cbn. lia.
Qed.

Lemma trigger_pending full s h task : tree_ok (s, h) → task_future s = None → task_future (trigger full s).1 = Some task →
  pending_ok s task.
Proof.
  intros (Hok&_&Hf&_) Hnone Htask. destruct (trigger full s) as [s' st] eqn:E. cbn in Htask.
  pose proof (drop_covers ukc strategy None force_rewrite keep_delete full s s' st task eq_refl Hok Hnone E Htask) as Hcov.
  destruct (TriggerCompaction_spec ukc strategy None force_rewrite keep_delete full s s' st task Hok Hnone E Htask) as (_&_&_&Hu).
  destruct Hu as [(n&_&Hunit&Hout&_&Hrest)|Hu].
  - exists (concat (map (λ r, files_ (run r)) (drop n (LevelSortedRuns (levels s))))).
    assert (Hall : tree s = unit_files (unit_ task) ++ concat (map (λ r, files_ (run r)) (drop n (LevelSortedRuns (levels s))))).
    { rewrite Hunit. cbn. rewrite <-concat_app, <-map_app, take_drop. done. }
    split_and!; [by rewrite <-Hall|lia|lia| | |by rewrite Hunit].
    + apply Forall_concat, Forall_map. rewrite Forall_forall in Hrest |- *. intros r Hr.
      assert (Hin : r ∈ LevelSortedRuns (levels s)) by (eapply elem_of_sublist; [exact Hr|apply sublist_drop]).
      destruct (run_files _ _ Hok Hin) as [Hl _]. specialize (Hrest r Hr). eapply Forall_impl; [exact Hl|]. cbn. lia.
    + intros Hd. rewrite (Hcov Hd) in Hall. apply (f_equal length) in Hall. rewrite length_app in Hall.
      rewrite (nil_length_inv (concat (map _ _))) by lia. by intros x y _ Hy%elem_of_nil.
  - pose proof (top_covers None force_rewrite _ _ eq_refl Hu) as Hall. destruct Hu as (r&Hr&Hrl&Hout&_).
    assert (Hm : 1 ≤ MaxLevel (levels s)) by (destruct Hok; unfold MaxLevel; lia).
    exists []. rewrite app_nil_r, Hall. split_and!; [done|lia|lia|constructor|by intros _ x y _ Hy%elem_of_nil|]. intros _.
    unfold AllFiles in Hf |- *. rewrite Hr in Hf |- *. cbn in Hf |- *. rewrite app_nil_r in Hf |- *.
    apply (IsValid_sorted ukc (KL := L)); [eapply Forall_impl; [exact Hf|apply (file_key_range ukc usc content)]|].
    apply (run_files (levels s)); [done|rewrite Hr; by left|lia].
Qed.

(** *** Collecting a result *)

Lemma fresh_NoDup {D} (r : CompactResult D) fs rest : fresh_names r fs → fs ≡ₚ before_ r ++ rest → NoDup (names fs) →
  NoDup (names (rest ++ after_ r)).
Proof.
  intros [Ha Hfresh] Hp Hn. rewrite Hp, fmap_app in Hn. apply NoDup_app in Hn as (_&Hdis&Hrest).
  rewrite fmap_app. apply NoDup_app. split_and!; [done| |done]. intros x Hx (f&->&Hf)%list_elem_of_fmap.
  apply (Hdis (file_name f)); [|done]. apply Hfresh; [done|]. rewrite Hp, fmap_app. apply elem_of_app. by right.
Qed.

(** The tree in which [new] has taken the place of the files [old]. *)
Lemma replaced_ok drop h old rest new : distinct h → reduces h (rows_of (old ++ rest)) →
  (drop = true → newer (rows_of old) (rows_of rest)) → effect ukc usc ignore_delete drop (rows_of old) (rows_of new) →
  reduces h (rows_of (new ++ rest)).
Proof.
  intros Hd Hr Hn He. eapply reduces_trans; [exact Hr|]. rewrite !rows_of_app. destruct drop; cbn in He.
  - apply reduces_newer; [done..|]. by apply Hn.
  - apply keeps_reduces; [done| |].
    + apply (distinct_sub ukc usc _ h); [|done]. rewrite <-rows_of_app. apply Hr.
    + apply keeps_app; [done|by apply keeps_refl].
Qed.

Lemma collect_result {D} (rewriter : CompactRewriter D) df s h task r : tree_ok (s, h) → StoresMerged rewriter →
  task_future s = Some task → execute ukc compaction_file_size force_rewrite rewriter df task = Ok r → fresh_names r (tree s) →
  ∃ lv notes, Update ukc (before_ r) (after_ r) (levels s) = (lv, Ok notes) ∧
    levels_ok ukc lv ∧ NoDup (names (AllFiles lv)) ∧ Forall file_ok (AllFiles lv) ∧ reduces h (rows_of (AllFiles lv)).
Proof.
  intros (Hok&Hn&Hf&Hd&Hr&Hpend) HR Htask E Hfresh. destruct (Hpend task Htask) as (rest&Hp&Hout&Hrest&Hdrop&Hsort).
  assert (Hsub : unit_files (unit_ task) ⊆+ tree s) by (rewrite Hp; by apply submseteq_inserts_r).
  destruct (execute_effect rewriter df task r HR) as (new&kept&Hnew&Hbk&Hfnew&Hlnew&Hs&He); [|done|].
  { split_and!; [by eapply Forall_sub| |done]. eapply distinct_sub; [|exact Hd]. etrans; [|apply Hr].
    destruct (submseteq_Permutation _ _ Hsub) as [k ->]. rewrite rows_of_app. by apply submseteq_inserts_r. }
  cbn [concat] in Hbk, He. rewrite app_nil_r in Hbk, He.
  assert (Hall : tree s ≡ₚ before_ r ++ (kept ++ rest)) by (rewrite Hp, <-Hbk, app_assoc; done).
  assert (Hafter : (kept ++ rest) ++ after_ r ≡ₚ new ++ rest).
  { rewrite Hnew, (Permutation_app_comm (kept ++ rest)), app_assoc. done. }
  pose proof (fresh_NoDup r _ _ Hfresh Hall Hn) as Hn'.
  assert (Hf' : Forall file_ok (new ++ rest)).
  { apply Forall_app. split; [done|]. eapply Forall_sub; [|exact Hf]. rewrite Hp. by apply submseteq_inserts_l. }
  assert (Hla : Forall (λ f, level f = output_level (unit_ task)) (after_ r)).
  { rewrite Hnew in Hlnew. by apply Forall_app in Hlnew as [? _]. }
  destruct (Update_succeeds ukc (KL := L) (before_ r) (after_ r) (kept ++ rest) (levels s)) as (lv&notes&Eu); [done..| | |].
  - rewrite Hafter. eapply Forall_impl; [exact Hf'|apply (file_key_range ukc usc content)].
  - intros l Hl. unfold at_level. rewrite Hafter. fold (at_level l (new ++ rest)). rewrite at_level_app.
    destruct (decide (l = output_level (unit_ task))) as [->|Hne].
    + rewrite at_level_all, at_level_none, app_nil_r by done. exists new. split; [done|]. by apply (rows_before ukc content).
    + rewrite at_level_none by (eapply Forall_impl; [exact Hlnew|]; cbn; congruence). cbn.
      apply (disjoint_sub ukc _ (at_level l (tree s))); [|by apply run_disjoint]. unfold at_level. rewrite Hp.
      rewrite filter_app. by apply submseteq_inserts_l.
  - exists lv, notes. split; [done|]. destruct (Update_ok ukc _ _ _ _ _ Hok Eu) as [Hok' _].
    assert (Hlv : AllFiles lv ≡ₚ (kept ++ rest) ++ after_ r).
    { eapply (Update_files ukc); [exact Hok|exact Eu|done..|]. eapply Forall_impl; [exact Hla|]. cbn. lia. }
    split_and!; [done|by rewrite Hlv| |]; rewrite Hafter in Hlv; [exact (Forall_sub _ _ _ (Permutation_submseteq _ _ Hlv) Hf')|].
    rewrite Hlv. eapply replaced_ok; [done|by rewrite <-Hp|exact Hdrop|done].
Qed.

(** *** Steps *)

Lemma rows_of_single f : rows_of [f] = content f.
Proof. unfold TreeRows.rows_of. cbn. apply app_nil_r. Qed.

Lemma pending_add file s h lv task : pending_ok s task → level file = 0 → newer h (content file) → rows_of (tree s) ⊆+ h →
  MaxLevel lv = MaxLevel (levels s) → AllFiles lv ≡ₚ tree s ++ [file] →
  pending_ok (mk strategy lv (strategy_state strategy s) (task_future s) (cancelled_ strategy s)) task.
Proof.
  intros (rest&Hall'&Hout&Hrest&Hdrop&Hsort) Hl Hnew Hr Hmax Hall. exists (rest ++ [file]). cbn [MergeTreeCompactManager.levels].
  rewrite Hmax. split_and!; [by rewrite Hall, Hall', app_assoc|lia|lia| | |done].
  - apply Forall_app. split; [done|]. apply Forall_singleton. lia.
  - intros Hdd x y Hx Hy. rewrite rows_of_app, rows_of_single in Hy. apply elem_of_app in Hy as [Hy|Hy]; [by apply (Hdrop Hdd)|].
    apply Hnew; [|done]. eapply elem_of_submseteq; [|exact Hr]. rewrite Hall', rows_of_app. apply elem_of_app. by left.
Qed.

Lemma tree_step_ok {D} p p' : tree_step (D := D) p p' → tree_ok p → tree_ok p'.
Proof.
  intros [file s h Hfile Hl Hname Hnew Hdis|full s h|ready rewriter df s h HR Hfresh|s h|s h] Hp; pose proof Hp as (Hok&Hn&Hf&Hd&Hr&Hpend).
  - destruct (add_file file s h Hp Hfile Hl Hname) as (lv&->&Hok'&Hmax&Hall). cbn [fst].
    split_and!; cbn [MergeTreeCompactManager.levels MergeTreeCompactManager.task_future_]; [done| | |done| |].
    + rewrite Hall, fmap_app. apply NoDup_app. split_and!; [done| |apply NoDup_singleton].
      intros x Hx Hx'. apply list_elem_of_singleton in Hx'. by subst x.
    + apply (Forall_sub _ _ _ (Permutation_submseteq _ _ Hall)), Forall_app. by split; [|apply Forall_singleton].
    + rewrite Hall, rows_of_app, rows_of_single. by apply reduces_newer.
    + intros task Htask. eapply pending_add; [by apply Hpend|done|exact Hnew|apply Hr|done..].
  - assert (El : levels (trigger full s).1 = levels s) by apply trigger_levels. unfold tree_ok, pending_ok. rewrite El. split_and!; try done.
    intros task Htask. destruct (task_future s) as [task'|] eqn:Et; [|by eapply trigger_pending].
    unfold TriggerCompaction in Htask. rewrite Et in Htask. cbn in Htask. apply Hpend. congruence.
  - unfold GetCompactionResult. destruct (task_future s) as [task|] eqn:Et; [|done]. destruct ready; [|done].
    destruct (execute _ _ _ _ _ task) as [r|c m] eqn:Ex; [|by destruct c; split_and!].
    destruct (collect_result rewriter df s h task r Hp HR Et Ex (Hfresh _ _ eq_refl Ex)) as (lv&notes&Eu&Hok'&Hn'&Hf'&Hr').
    cbn [MergeTreeCompactManager.levels]. rewrite Eu. by split_and!.
  - done.
  - by split_and!.
Qed.

Lemma created_ok input_files num_levels lv ss : Create ukc input_files num_levels = Ok lv → Forall file_ok input_files →
  NoDup (names input_files) → distinct (rows_of input_files) → tree_ok (mk strategy lv ss None false, rows_of input_files).
Proof.
  intros (Hok&Hall&_)%Create_ok Hf Hn Hd. split_and!; cbn [MergeTreeCompactManager.levels]; [done|by rewrite Hall| |done| |done].
  - exact (Forall_sub _ _ _ (Permutation_submseteq _ _ Hall) Hf).
  - rewrite Hall. apply reduces_refl.
Qed.

(** *** Reading *)

(** What a read of the files returns: the merged records of the sections, one
    section after the other, without the deletions. *)
Fixpoint read_sections (sections : list (list SortedRun)) : Result (list KeyValue) :=
  match sections with
  | [] => Ok []
  | section :: rest =>
      out ← section_out ukc usc ignore_delete content true section;
      outs ← read_sections rest;
      Ok ((unleveled <$> out) ++ outs)
  end.

Lemma read_sections_ok sections : Forall (section_ok ukc usc content) sections → ∃ outs,
  Forall2 (λ section o, section_out ukc usc ignore_delete content true section = Ok o) sections outs ∧
  read_sections sections = Ok (unleveled <$> concat outs) ∧ Forall is_add (unleveled <$> concat outs).
Proof.
  induction 1 as [|section sections Hsec _ (outs&Ho&IH&Hadd)]; [by exists []; split_and!|].
  destruct (section_out_ok ukc usc ignore_delete content true section Hsec) as (out&E&_). exists (out :: outs).
  split_and!; [by constructor|cbn [read_sections]; rewrite E; cbn; rewrite IH; cbn; by rewrite fmap_app|].
  cbn. rewrite fmap_app. apply Forall_app. split; [|done]. apply bind_Ok in E as (o&_&[= <-]). cbn.
  apply Forall_fmap, Forall_forall. by intros x [? _]%list_elem_of_filter.
Qed.


Lemma sorted_visible out kv : StronglySorted (λ a b, ukc (key a) (key b) < 0) out → Forall is_add out → visible out kv ↔ kv ∈ out.
Proof.
  intros Hs Ha. split; [by intros [? _]|]. intros Hkv. rewrite Forall_forall in Ha. split_and!; [done|by apply Ha|].
  intros z Hz Hk _. assert (z = kv) as ->; [|apply (earlier_refl ukc usc)].
  destruct (decide (z = kv)) as [|Hne]; [done|]. exfalso.
  apply elem_of_Permutation in Hkv as [l Hl]. rewrite Hl in Hz. apply elem_of_cons in Hz as [?|Hz]; [done|].
  apply elem_of_Permutation in Hz as [l' Hl']. rewrite Hl' in Hl.
  destruct (sorted_pair _ _ _ _ _ Hs Hl) as [Hlt|Hlt]; [exact (lt_not_same ukc usc kv z Hlt Hk)|].
  exact (lt_not_same ukc usc z kv Hlt (key_sym ukc usc kv z Hk)).
Qed.

Lemma reachable_ok {D} p p' : rtc (tree_step (D := D)) p p' → tree_ok p → tree_ok p'.
Proof. induction 1 as [|p p1 p2 Hstep _ IH]; [done|]. intros Hp. by eapply IH, tree_step_ok. Qed.

(** Reading the files of a tree returns the visible records, by their keys. *)
Lemma tree_reads s h : tree_ok (s, h) →
  ∃ out, read_sections (IntervalPartition.Partition ukc (IntervalPartition.create ukc (tree s))) = Ok out ∧
    StronglySorted (λ a b, ukc (key a) (key b) < 0) out ∧ ∀ kv, kv ∈ out ↔ visible h kv.
Proof.
  intros (_&_&Hf&Hd&[Hsub Hv]&_).
  destruct (partition_ok ukc usc content (tree s) Hf) as (Hsec&_&Hp&Hs); [by eapply distinct_sub|].
  destruct (read_sections_ok _ Hsec) as (outs&Ho&E&Hadd).
  destruct (sections_effect ukc usc ignore_delete content true _ outs Hsec Hs Ho) as [[_ He] Hsort].
  eexists. split; [exact E|]. split; [done|]. intros kv. rewrite <-sorted_visible by done. rewrite <-He, Hv.
  rewrite concat_atoms in Hp. fold (ExtractFilesFromSections (IntervalPartition.Partition ukc (IntervalPartition.create ukc (tree s)))). by rewrite Hp.
Qed.
End History.

(** C1. A merge tree shows what was written. Start with files that a tree can
    be created of; let a writer add files of newer records, trigger
    compactions, collect their results, whether they succeed or not, cancel them
    or wait for them, in any order. In every state reached, reading the files of
    the tree returns, by ascending keys, exactly the records visible in all that
    was ever written: those that add a row and that no later record of their
    key hides. *)
Theorem merge_tree_shows_history {D} ukc usc ignore_delete content strategy file_size force_rewrite keep_delete input_files num_levels lv ss s h :
  ComparatorsOK ukc usc → StrategyOK strategy → Create ukc input_files num_levels = Ok lv →
  Forall (file_ok ukc content) input_files → NoDup (names input_files) → distinct ukc usc (rows_of content input_files) →
  rtc (tree_step (D := D) ukc usc ignore_delete content strategy file_size force_rewrite keep_delete)
      (mk strategy lv ss None false, rows_of content input_files) (s, h) →
  ∃ out, read_sections ukc usc ignore_delete content
           (IntervalPartition.Partition ukc (IntervalPartition.create ukc (AllFiles (levels strategy s)))) = Ok out ∧
    StronglySorted (λ a b, ukc (key a) (key b) < 0) out ∧ ∀ kv, kv ∈ out ↔ visible ukc usc ignore_delete h kv.
Proof.
  intros OK HS Hlv Hf Hn Hd Hr. eapply tree_reads, reachable_ok; [done..|exact Hr|]. by apply (created_ok ukc usc _ content _ _ num_levels).
Qed.

(** C13. A merge tree accepts what belongs there: in every state reached as
    above, adding a file of level 0 with a new name succeeds, and so does
    collecting the result of a task that succeeded, whatever files were added
    while it ran. *)
Theorem merge_tree_accepts {D} ukc usc ignore_delete content strategy file_size force_rewrite keep_delete input_files num_levels lv ss s h :
  ComparatorsOK ukc usc → StrategyOK strategy → Create ukc input_files num_levels = Ok lv →
  Forall (file_ok ukc content) input_files → NoDup (names input_files) → distinct ukc usc (rows_of content input_files) →
  rtc (tree_step (D := D) ukc usc ignore_delete content strategy file_size force_rewrite keep_delete)
      (mk strategy lv ss None false, rows_of content input_files) (s, h) →
  (∀ file, file_ok ukc content file → level file = 0 → file_name file ∉ names (AllFiles (levels strategy s)) →
     (AddNewFile ukc strategy file s).2 = Ok ()) ∧
  (∀ (rewriter : CompactRewriter D) df task r, StoresMerged ukc usc ignore_delete content rewriter →
     task_future_ strategy s = Some task → execute ukc file_size force_rewrite rewriter df task = Ok r →
     fresh_names r (AllFiles (levels strategy s)) →
     (GetCompactionResult ukc strategy true (execute ukc file_size force_rewrite rewriter df) s).2 = Ok (Some r)).
Proof.
  intros OK HS Hlv Hf Hn Hd Hr.
  assert (Hok : tree_ok ukc usc ignore_delete content strategy (s, h)).
  { eapply reachable_ok; [done..|exact Hr|]. by apply (created_ok ukc usc _ content _ _ num_levels). }
  split.
  - intros file Hfile Hl Hname. by destruct (add_file _ _ _ _ _ file s h Hok Hfile Hl Hname) as (lv'&->&_).
  - intros rewriter df task r HR Ht Ex Hfresh.
    destruct (collect_result _ _ _ _ _ _ _ rewriter df s h task r Hok HR Ht Ex Hfresh) as (lv'&notes&Eu&_).
    unfold GetCompactionResult. rewrite Ht, Ex. cbn [MergeTreeCompactManager.levels]. by rewrite Eu.
Qed.

(** *** Witnesses *)

(** Two files are flushed and compacted, a third one is flushed meanwhile. *)
Definition history_content (f : t) : list KeyValue :=
  let r k seq kind := unleveled (example_record k seq kind) in
  match file_name f with
  | "a" => [r 1 1 RowKind.Insert; r 2 2 RowKind.Insert]
  | "b" => [r 1 3 RowKind.Delete; r 3 4 RowKind.Insert]
  | "c" => [r 2 2 RowKind.Insert; r 3 4 RowKind.Insert]
  | "d" => [r 1 5 RowKind.Insert]
  | _ => []
  end%string.

Definition placed (f : t) : string * Z := (file_name f, level f).
Definition history_rewriter : CompactRewriter unit := {|
  Rewrite out drop sections :=
    if drop && bool_decide (map (λ s, map placed (section_files s)) sections = [[("a"%string, 0); ("b"%string, 0)]])
    then Ok (mkResult (ExtractFilesFromSections sections) [example_meta "c" out 2 3] [] None)
    else Err NotImplemented "rewrite";
  UpgradeFile _ _ := Err NotImplemented "upgrade"
|}.

Lemma history_section_rows section : section_rows history_content section =
  concat (map (λ p, with_level p.2 <$> history_content (example_meta p.1 0 0 0)) (map placed (section_files section))).
Proof. unfold section_rows. by rewrite map_map. Qed.

Lemma history_rewriter_stores : StoresMerged example_comparator None false history_content history_rewriter.
Proof.
  split; [|done]. intros out drop sections r _. cbn. destruct drop; [|done]. cbn. case_bool_decide as Hn; [|done]. intros [= <-].
  destruct sections as [|section [|]]; [done| |done]. injection Hn as Hn. split_and!; [done| |].
  - apply Forall_singleton. split; [done|]. by split_and!.
  - exists [[example_record 2 2 RowKind.Insert; example_record 3 4 RowKind.Insert]]. split; [|reflexivity]. constructor; [|constructor]. unfold section_out. rewrite history_section_rows, Hn. reflexivity.
Defined.


Definition file_a := example_meta "a" 0 1 2.
Definition file_b := example_meta "b" 0 1 3.
Definition file_d := example_meta "d" 0 1 1.
Definition history_start : State example_strategy := mk example_strategy (mkLevels [] [Empty; Empty] []) example_strategy_state None false.
Definition history_task : State example_strategy :=
  (TriggerCompaction example_strategy None false false true
    (AddNewFile example_comparator example_strategy file_b (AddNewFile example_comparator example_strategy file_a history_start).1).1).1.
Definition history_running : State example_strategy := (AddNewFile example_comparator example_strategy file_d history_task).1.
Definition history_outcome := execute example_comparator 1000 false history_rewriter (Ok None).
Definition history_end : State example_strategy :=
  (GetCompactionResult example_comparator example_strategy true history_outcome history_running).1.
Definition history_rows : list KeyValue := history_content file_a ++ history_content file_b ++ history_content file_d.

Lemma pairwise_distinct ukc usc l : ComparatorsOK ukc usc → StronglySorted (λ x y, record_compare ukc usc x y ≠ 0) l → distinct ukc usc l.
Proof.
  intros OK Hs x y l' Hp. destruct (sorted_pair _ _ _ _ _ Hs Hp) as [?|Hne]; [done|]. intros E. apply Hne.
  apply (@keq_le _ _ (record_laws ukc usc)) in E as [H1 H2]. by apply (@keq_le _ _ (record_laws ukc usc)).
Qed.
Abbreviation history_step := (tree_step (D := unit) example_comparator None false history_content example_strategy 1000 false false).

Ltac each H := vm_compute in H; repeat (apply elem_of_cons in H as [->|H]); [..|by apply elem_of_nil in H].
Ltac add_example file := eapply rtc_l;
  [apply (tree_add _ _ _ _ _ _ _ _ file);
    [by split_and!; [|repeat constructor..]
    |done
    |by apply (bool_decide_unpack _); vm_compute
    |intros x y Hx Hy; each Hx; each Hy; by vm_compute
    |apply pairwise_distinct; [apply example_comparators_ok|repeat constructor; by vm_compute]]
  |].

Lemma history_running_reached :
  rtc history_step (history_start, []) (history_running, history_rows).
Proof.
  add_example file_a. add_example file_b. eapply rtc_l; [apply (tree_trigger _ _ _ _ _ _ _ _ true)|]. add_example file_d. apply rtc_refl.
Qed.

Lemma history_fresh task r : task_future_ example_strategy history_running = Some task → history_outcome task = Ok r →
  fresh_names r (AllFiles (levels example_strategy history_running)).
Proof.
  intros Ht E. assert (task = mkSubmitted (mkUnit 2 [file_a; file_b] false) true 2) as ->.
  { vm_compute in Ht. by injection Ht as <-. }
  vm_compute in E. injection E as <-. split; [apply NoDup_singleton|]. intros f ->%list_elem_of_singleton Hin.
  by apply (bool_decide_pack _) in Hin; vm_compute in Hin.
Qed.

Lemma merge_tree_shows_history_witness :
  ∃ out, read_sections example_comparator None false history_content
           (IntervalPartition.Partition example_comparator (IntervalPartition.create example_comparator (AllFiles (levels example_strategy history_end)))) = Ok out ∧
    out = unleveled <$> [example_record 1 5 RowKind.Insert; example_record 2 2 RowKind.Insert; example_record 3 4 RowKind.Insert] ∧
    ∀ kv, kv ∈ out ↔ visible example_comparator None false history_rows kv.
Proof.
  destruct (merge_tree_shows_history (D := unit) example_comparator None false history_content example_strategy 1000 false false [] 3
    (mkLevels [] [Empty; Empty] []) example_strategy_state history_end history_rows) as (out&E&_&Hv).
  - apply example_comparators_ok.
  - by apply force_up_ok.
  - done.
  - constructor.
  - constructor.
  - intros x y l' Hp. by apply Permutation_nil_cons in Hp.
  - eapply rtc_r; [exact history_running_reached|]. apply (tree_collect _ _ _ _ _ _ _ _ true history_rewriter (Ok None)).
    + apply history_rewriter_stores.
    + apply history_fresh.
  - exists out. split_and!; [done| |done]. vm_compute in E. by injection E as <-.
Defined.

Lemma merge_tree_accepts_witness :
  (GetCompactionResult example_comparator example_strategy true history_outcome history_running).2 =
    Ok (Some (mkResult [file_a; file_b] [example_meta "c" 2 2 3] [] None)).
Proof.
  refine (proj2 (merge_tree_accepts (D := unit) example_comparator None false history_content example_strategy 1000 false false [] 3
    (mkLevels [] [Empty; Empty] []) example_strategy_state history_running history_rows example_comparators_ok _ eq_refl _ _ _
    history_running_reached) history_rewriter (Ok None) (mkSubmitted (mkUnit 2 [file_a; file_b] false) true 2) _
    history_rewriter_stores eq_refl eq_refl (history_fresh _ _ eq_refl eq_refl)).
  - by apply force_up_ok.
  - constructor.
  - constructor.
  - intros x y l' Hp. by apply Permutation_nil_cons in Hp.
Defined.
