(* ===== verification/Changelog.v ===== *)
(** * Changelog producing merge function wrappers

    [FirstRowMergeFunctionWrapper], [FullChangelogMergeFunctionWrapper] and
    [LookupChangelogMergeFunctionWrapper] (src/paimon/core/mergetree/compact):
    besides the merged record of a key they produce the changelog that leads
    from the key's previous row to the new one. *)

From stdpp Require Import base list gmap strings sorting.
From Stdlib Require Import ZArith Lia.
From S2P Require Import Prelude Rows KeyValues Streams RowCompacted Roaring DeletionVectors MergeFunctions.
Local Open Scope Z_scope.

(** ** The value serialiser

    What the wrappers use of [RowCompactedSerializer]: a deep copy of a row by
    way of its bytes. *)
Class ValueSerializer := {
  SerializeValue : InternalRow → Result (list Z);
  DeserializeValue : list Z → Result InternalRow
}.
(** [typed] are the rows of the serialiser's schema. *)
Class ValueSerializerLaws (V : ValueSerializer) (typed : InternalRow → Prop) : Prop :=
  serialize_roundtrip : ∀ v, typed v → ∃ bytes, SerializeValue v = Ok bytes ∧ DeserializeValue bytes = Ok v.

(** [RowCompactedSerializer] keeps the contract. The kind of the value row, which
    is not the kind of the record, is left at its default. *)
Definition row_serializer {P : Platform} {A : Asserts} (s : RowCompactedSerializer) : ValueSerializer := {|
  SerializeValue row := r ← RowCompacted.SerializeToBytes RowKind.Insert row s; Ok (fst r);
  DeserializeValue bytes := r ← RowCompacted.Deserialize bytes s; Ok (snd r)
|}.
Lemma row_serializer_laws {P : Platform} {A : Asserts} types s : serializer_inv types s →
  ValueSerializerLaws (row_serializer s) (row_typed types).
Proof.
  intros Hs v Hv. cbn.
  destruct (SerializeToBytes_row_bytes types s RowKind.Insert v Hs Hv) as (s'&->&Hs').
  exists (row_bytes RowKind.Insert types v). split; [done|].
  by rewrite (Deserialize_row_bytes types s RowKind.Insert v Hs Hv).
Qed.

Record ChangelogResult := mkChangelogResult {
  result : option KeyValue;
  changelogs : list KeyValue
}.

(** [CloneKeyValue] of both changelog wrappers. *)
Definition CloneKeyValue {V : ValueSerializer} (from : KeyValue) (kind : RowKind.RowKind) : Result KeyValue :=
  bytes ← SerializeValue (value from);
  v ← DeserializeValue bytes;
  Ok (mkKeyValue kind (sequence_number from) UNKNOWN_LEVEL (key from) v).

Definition cloned (from : KeyValue) (kind : RowKind.RowKind) : KeyValue :=
  mkKeyValue kind (sequence_number from) UNKNOWN_LEVEL (key from) (value from).

Lemma set_value_kind_cloned kv k k' : set_value_kind k (cloned kv k') = cloned kv k.
Proof. done. Qed.

Lemma CloneKeyValue_ok {V : ValueSerializer} typed `{!ValueSerializerLaws V typed} from kind :
  typed (value from) → CloneKeyValue from kind = Ok (cloned from kind).
Proof. intros Ht. unfold CloneKeyValue. destruct (serialize_roundtrip _ Ht) as (b&->&Hd). cbn. by rewrite Hd. Qed.

(** ** Replaying a changelog

    The row a key holds, and what a consumer that applies the changelog to it
    ends up with; [None] when a record does not apply. *)
Definition row_of (kv : option KeyValue) : option InternalRow :=
  match kv with Some kv => if is_add kv then Some (value kv) else None | None => None end.

Definition apply_change (kv : KeyValue) (row : option InternalRow) : option (option InternalRow) :=
  match value_kind kv, row with
  | RowKind.Insert, None | RowKind.UpdateAfter, None => Some (Some (value kv))
  | RowKind.UpdateBefore, Some r | RowKind.Delete, Some r =>
      if decide (r = value kv) then Some None else None
  | _, _ => None
  end.
Fixpoint replay (changes : list KeyValue) (row : option InternalRow) : option (option InternalRow) :=
  match changes with
  | [] => Some row
  | kv :: rest => apply_change kv row ≫= replay rest
  end.

(** Rows the [value_equalizer] takes for equal; without one, equal rows. *)
Definition same_row (value_equalizer_ : option FieldComparatorFunc) (a b : option InternalRow) : Prop :=
  match a, b with
  | None, None => True
  | Some a, Some b =>
      a = b ∨ match value_equalizer_ with Some eq => eq a b = 0 | None => False end
  | _, _ => False
  end.
(** [!value_equalizer_ || value_equalizer_(a, b) != 0] *)
Definition values_differ (value_equalizer_ : option FieldComparatorFunc) (a b : InternalRow) : bool :=
  match value_equalizer_ with None => true | Some eq => negb (eq a b =? 0) end.

Definition leads_to (value_equalizer_ : option FieldComparatorFunc) (changes : list KeyValue)
    (before after : option InternalRow) : Prop :=
  ∃ row, replay changes before = Some row ∧ same_row value_equalizer_ row after.

Section LeadsTo.
Context (eqv : option FieldComparatorFunc).

Lemma same_row_refl a : same_row eqv a a.
Proof. destruct a; cbn; auto. Qed.
Lemma leads_to_nil a : leads_to eqv [] a a.
Proof. exists a. split; [done|apply same_row_refl]. Qed.
Lemma leads_to_insert a : leads_to eqv [cloned a RowKind.Insert] None (Some (value a)).
Proof. eexists. split; [done|apply same_row_refl]. Qed.
Lemma leads_to_delete b : leads_to eqv [cloned b RowKind.Delete] (Some (value b)) None.
Proof. exists None. split; [|done]. cbn. by rewrite decide_True. Qed.
Lemma leads_to_update b a :
  leads_to eqv [cloned b RowKind.UpdateBefore; cloned a RowKind.UpdateAfter]
    (Some (value b)) (Some (value a)).
Proof. eexists. split; [|apply same_row_refl]. cbn. by rewrite decide_True. Qed.
Lemma leads_to_same b a : values_differ eqv b a = false → leads_to eqv [] (Some b) (Some a).
Proof.
  unfold values_differ. intros Hd. eexists. split; [done|]. cbn. destruct eqv as [eq|]; [|done].
  right. apply negb_false_iff in Hd. lia.
Qed.
End LeadsTo.

(** ** FirstRowMergeFunctionWrapper *)

Module FirstRowWrapper.
Section FirstRowWrapper.
Context (ignore_delete_ : bool) (contains_ : InternalRow → Result bool)
        (value_serializer_ : option ValueSerializer).

Definition Reset (s : FirstRow.State) : FirstRow.State := FirstRow.Reset s.
Definition Add (kv : KeyValue) (s : FirstRow.State) : Result FirstRow.State :=
  FirstRow.Add ignore_delete_ kv s.
Definition GetResult (s : FirstRow.State) : Result (option ChangelogResult * FirstRow.State) :=
  r ← FirstRow.GetResult s;
  let '(result, s) := r in
  if FirstRow.contains_high_level_ s then
    Ok (Some (mkChangelogResult result []), Reset s)
  else
    match result with
    | None => Err Invalid "In FirstRowMergeFunctionWrapper when call GetResult, there must have a result"
    | Some kv =>
        contains ← contains_ (key kv);
        if (contains : bool) then Ok (Some (mkChangelogResult None []), Reset s)
        else
          changelogs ← (match value_serializer_ with
                        | None => Ok []
                        | Some V =>
                            bytes ← SerializeValue (value kv);
                            v ← DeserializeValue bytes;
                            Ok [mkKeyValue (value_kind kv) (sequence_number kv) (level kv) (key kv) v]
                        end);
          Ok (Some (mkChangelogResult (Some kv) changelogs), Reset s)
    end.
Definition fn : MergeFn ChangelogResult := mkMergeFn Reset Add GetResult.
End FirstRowWrapper.

(** The first row of a key and what is added to the changelog for it. *)
Definition outcome (produce : bool) (known : InternalRow → bool) (kvs : list KeyValue)
    : Result (option ChangelogResult) :=
  let adds := FirstRow.adds kvs in
  if existsb (λ kv, 0 <? level kv) adds then Ok (Some (mkChangelogResult (head adds) []))
  else match head adds with
       | None => Err Invalid "In FirstRowMergeFunctionWrapper when call GetResult, there must have a result"
       | Some kv =>
           if known (key kv) then Ok (Some (mkChangelogResult None []))
           else Ok (Some (mkChangelogResult (Some kv) (if produce then [kv] else [])))
       end.

(** First-row merging: of the records of a key that are not retractions the
    first one is kept. It is new, and goes to the changelog, exactly when no
    record of the key comes from a level above 0 and the key is not found by the
    lookup; a key that the lookup knows yields nothing. When [ignore_delete] lets
    only retractions through, the wrapper fails. *)
Theorem first_row_wrapper_outcome (known : InternalRow → bool) (V : option ValueSerializer) typed kvs s :
  (∀ S, V = Some S → ValueSerializerLaws S typed) → Forall (λ kv, typed (value kv)) kvs →
  result_of (merge_run (fn true (λ k, Ok (known k)) V) kvs s) =
  outcome (bool_decide (is_Some V)) known kvs.
Proof.
  intros HV Ht. unfold merge_run, run_from, outcome. cbn [fn MReset MAdd MGetResult].
  unfold Add. change (foldR (λ kv s, FirstRow.Add true kv s)) with (foldR (FirstRow.Add true)).
  rewrite FirstRow.foldR_Add_first. cbn [negb andb mbind Result_bind].
  unfold GetResult, FirstRow.GetResult. cbn [mbind Result_bind].
  cbn [FirstRow.contains_high_level_ FirstRow.first_kv_ Reset FirstRow.Reset orb].
  destruct (existsb _ _); [done|]. destruct (head (FirstRow.adds kvs)) as [kv|] eqn:Eh; [|done].
  cbn [mbind Result_bind]. destruct (known (key kv)); [done|].
  assert (typed (value kv)) as Hkv.
  { rewrite Forall_forall in Ht. apply Ht. apply head_Some_elem_of in Eh.
    by apply list_elem_of_filter in Eh as [_ ?]. }
  destruct V as [S|]; [|done]. specialize (HV S eq_refl).
  destruct (serialize_roundtrip _ Hkv) as (b&->&Hd). cbn. rewrite Hd. cbn. by destruct kv.
Qed.
End FirstRowWrapper.

(** ** FullChangelogMergeFunctionWrapper *)

Module FullChangelog.
Section FullChangelog.
Context (M : MergeFn KeyValue) (max_level_ : Z) {V : ValueSerializer}
        (value_equalizer_ : option FieldComparatorFunc).

Record State := mkState {
  merge_function_ : MState M;
  top_level_kv_ : option KeyValue;
  initial_kv_ : option KeyValue;
  is_initialized_ : bool
}.

Definition Reset (s : State) : State := mkState (MReset M (merge_function_ s)) None None false.

Definition RememberTopLevel (kv : KeyValue) (top : option KeyValue) : Result (option KeyValue) :=
  match top with
  | Some _ => Err Invalid "Top level key-value already exists. This is unexpected."
  | None => c ← CloneKeyValue kv (value_kind kv); Ok (Some c)
  end.
Definition remember_if_top (kv : KeyValue) (top : option KeyValue) : Result (option KeyValue) :=
  if level kv =? max_level_ then RememberTopLevel kv top else Ok top.

Definition Add (kv : KeyValue) (s : State) : Result State :=
  match initial_kv_ s with
  | None => Ok (mkState (merge_function_ s) (top_level_kv_ s) (Some kv) (is_initialized_ s))
  | Some initial =>
      s ← (if is_initialized_ s then Ok s
           else
             top ← remember_if_top initial (top_level_kv_ s);
             m ← MAdd M initial (merge_function_ s);
             Ok (mkState m top (initial_kv_ s) true));
      top ← remember_if_top kv (top_level_kv_ s);
      m ← MAdd M kv (merge_function_ s);
      Ok (mkState m top (initial_kv_ s) (is_initialized_ s))
  end.

Definition changelog_of (is_initialized : bool) (top merged : option KeyValue) : Result (list KeyValue) :=
  if is_initialized then
    match top with
    | None =>
        match merged with
        | Some m => if is_add m then c ← CloneKeyValue m RowKind.Insert; Ok [c] else Ok []
        | None => Ok []
        end
    | Some t =>
        match merged with
        | Some m =>
            if negb (is_add m) then Ok [set_value_kind RowKind.Delete t]
            else if values_differ value_equalizer_ (value t) (value m)
            then c ← CloneKeyValue m RowKind.UpdateAfter; Ok [set_value_kind RowKind.UpdateBefore t; c]
            else Ok []
        | None => Ok [set_value_kind RowKind.Delete t]
        end
    end
  else
    match merged with
    | Some m =>
        if negb (level m =? max_level_) && is_add m
        then c ← CloneKeyValue m RowKind.Insert; Ok [c] else Ok []
    | None => Ok []
    end.

Definition GetResult (s : State) : Result (option ChangelogResult * State) :=
  r ← (if is_initialized_ s then MGetResult M (merge_function_ s)
       else Ok (initial_kv_ s, merge_function_ s));
  let '(merged, m) := r in
  changelogs ← changelog_of (is_initialized_ s) (top_level_kv_ s) merged;
  let result := match merged with Some kv => if is_add kv then merged else None | None => None end in
  Ok (Some (mkChangelogResult result changelogs),
      Reset (mkState m (top_level_kv_ s) (initial_kv_ s) (is_initialized_ s))).

Definition fn : MergeFn ChangelogResult := mkMergeFn Reset Add GetResult.

(** *** The changelog of a key *)

Context (typed : InternalRow → Prop) `{!ValueSerializerLaws V typed}.

Definition is_top (kv : KeyValue) : Prop := level kv = max_level_.
#[local] Instance is_top_dec kv : Decision (is_top kv).
Proof. unfold is_top. apply _. Defined.

(** The remembered record after [kvs]: at most one record is of the top level. *)
Fixpoint remember (kvs : list KeyValue) (top : option KeyValue) : Result (option KeyValue) :=
  match kvs with
  | [] => Ok top
  | kv :: rest => top ← remember_if_top kv top; remember rest top
  end.

Lemma remember_if_top_ok kv top : typed (value kv) →
  remember_if_top kv top =
  if decide (is_top kv)
  then match top with
       | Some _ => Err Invalid "Top level key-value already exists. This is unexpected."
       | None => Ok (Some (cloned kv (value_kind kv)))
       end
  else Ok top.
Proof.
  intros Ht. unfold remember_if_top, RememberTopLevel, is_top.
  destruct (Z.eqb_spec (level kv) max_level_).
  - rewrite decide_True by done. destruct top; [done|]. by rewrite (CloneKeyValue_ok typed).
  - by rewrite decide_False.
Qed.

Lemma remember_ok kvs top : Forall (λ kv, typed (value kv)) kvs →
  (length (option_list top) + length (filter is_top kvs) ≤ 1)%nat →
  remember kvs top =
  Ok (match filter is_top kvs with kv :: _ => Some (cloned kv (value_kind kv)) | [] => top end).
Proof.
  intros Ht. revert top; induction Ht as [|kv kvs Hkv Ht IH]; intros top Hlen; [done|].
  cbn [remember]. rewrite remember_if_top_ok by done. rewrite filter_cons in *.
  case_decide as Htop; cbn [mbind Result_bind].
  - destruct top; cbn in Hlen; [lia|]. cbn [mbind Result_bind]. rewrite IH by (cbn; lia).
    destruct (filter is_top kvs); cbn in *; [done|lia].
  - by apply IH.
Qed.

Lemma remember_two kvs top : Forall (λ kv, typed (value kv)) kvs →
  (1 < length (option_list top) + length (filter is_top kvs))%nat →
  is_ok (remember kvs top) = false.
Proof.
  intros Ht. revert top; induction Ht as [|kv kvs Hkv Ht IH]; intros top Hlen.
  { destruct top; cbn in Hlen; lia. }
  cbn [remember]. rewrite remember_if_top_ok by done. rewrite filter_cons in *.
  case_decide as Htop; cbn [mbind Result_bind]; [|by apply IH].
  destruct top; cbn; [done|]. apply IH. cbn in *. lia.
Qed.

Lemma foldR_Add_full kvs m top top' kv0 : remember kvs top = Ok top' →
  foldR Add kvs (mkState m top (Some kv0) true) =
  (m' ← foldR (MAdd M) kvs m; Ok (mkState m' top' (Some kv0) true)).
Proof.
  revert m top; induction kvs as [|kv kvs IH]; intros m top; cbn [remember foldR].
  { by intros [= ->]. }
  intros (top1&Htop&Hrest)%bind_Ok. cbn [Add initial_kv_ is_initialized_ mbind Result_bind top_level_kv_].
  rewrite Htop. cbn. destruct (MAdd M kv m); cbn; [by apply IH|done].
Qed.

(** With two records or more, the merge function sees all of them. *)
Lemma foldR_Add_two kv1 kv2 kvs s top : remember (kv1 :: kv2 :: kvs) None = Ok top →
  foldR Add (kv1 :: kv2 :: kvs) (Reset s) =
  (m' ← foldR (MAdd M) (kv1 :: kv2 :: kvs) (MReset M (merge_function_ s));
   Ok (mkState m' top (Some kv1) true)).
Proof.
  cbn [remember]. intros (top1&H1&(top2&H2&H3)%bind_Ok)%bind_Ok. cbn [foldR].
  cbn [Add Reset initial_kv_ is_initialized_ merge_function_ top_level_kv_ mbind Result_bind].
  rewrite H1. cbn [mbind Result_bind].
  destruct (MAdd M kv1 _) as [m1|]; cbn; [|done]. rewrite H2. cbn [mbind Result_bind].
  destruct (MAdd M kv2 m1) as [m2|]; cbn; [|done]. by apply foldR_Add_full.
Qed.

Definition kept (merged : option KeyValue) : option KeyValue :=
  match merged with Some kv => if is_add kv then merged else None | None => None end.

(** What changes between the record of the top level and the merged one. *)
Definition changes (before after : option KeyValue) : list KeyValue :=
  match before, after with
  | None, None => []
  | None, Some a => [cloned a RowKind.Insert]
  | Some b, None => [cloned b RowKind.Delete]
  | Some b, Some a =>
      if values_differ value_equalizer_ (value b) (value a)
      then [cloned b RowKind.UpdateBefore; cloned a RowKind.UpdateAfter] else []
  end.
(** The key has only its record of the top level. *)
Definition untouched (kvs : list KeyValue) : bool :=
  match kvs with [kv] => bool_decide (is_top kv) | _ => false end.

Lemma row_of_kept merged : row_of (kept merged) = row_of merged.
Proof. destruct merged as [m|]; [|done]. cbn. destruct (is_add m) eqn:E; cbn; by rewrite ?E. Qed.

Lemma changes_lead before after :
  (∀ kv, before = Some kv → is_add kv = true) → leads_to value_equalizer_ (changes before (kept after)) (row_of before) (row_of after).
Proof.
  intros Hb. rewrite <-(row_of_kept after).
  assert (Ha : ∀ kv, kept after = Some kv → is_add kv = true).
  { intros kv. destruct after as [m|]; [|done]. cbn. destruct (is_add m) eqn:E; [|done]. by intros [= <-]. }
  generalize dependent (kept after). intros a Ha. destruct before as [b|], a as [a|]; cbn [changes row_of];
    rewrite ?(Hb _ eq_refl), ?(Ha _ eq_refl).
  - destruct (values_differ _ _ _) eqn:Ed; [apply leads_to_update|by apply leads_to_same].
  - apply leads_to_delete.
  - apply leads_to_insert.
  - apply leads_to_nil.
Qed.

Lemma changelog_of_merged top merged : (∀ kv, merged = Some kv → typed (value kv)) →
  changelog_of true ((λ kv, cloned kv (value_kind kv)) <$> top) merged = Ok (changes top (kept merged)).
Proof.
  intros Ht. destruct top as [t|], merged as [m|]; cbn [fmap option_fmap option_map changelog_of kept];
    rewrite ?set_value_kind_cloned; [|done| |done]; destruct (is_add m); cbn [negb changes]; try done.
  - cbn [cloned value]. destruct (values_differ _ _ _); [|done]. by rewrite (CloneKeyValue_ok typed) by auto.
  - by rewrite (CloneKeyValue_ok typed) by auto.
Qed.

Lemma single_changelog kv : typed (value kv) →
  changelog_of false None (Some kv) =
  Ok (if untouched [kv] then [] else changes (head (filter is_top [kv])) (kept (Some kv))).
Proof.
  intros Ht. cbn [changelog_of untouched kept]. rewrite filter_cons. unfold is_top.
  destruct (Z.eqb_spec (level kv) max_level_) as [Htop|Hntop]; cbn [negb andb].
  - by rewrite bool_decide_true.
  - rewrite bool_decide_false, decide_False by done. destruct (is_add kv); [|done].
    by rewrite (CloneKeyValue_ok typed) by done.
Qed.

Lemma top_adds kvs : Forall (λ kv, is_top kv → is_add kv = true) kvs →
  ∀ kv, head (filter is_top kvs) = Some kv → is_add kv = true.
Proof.
  intros Hadd kv Hkv%head_Some_elem_of. apply list_elem_of_filter in Hkv as [? Hin].
  rewrite Forall_forall in Hadd. auto.
Qed.

(** C35. Full-compaction changelog: for the records of a key of which at most one,
    an insertion or update, is of the top level, the wrapper returns the merged
    record unless it is a retraction. Its changelog is exactly an insertion of
    the merged row if there was no row of the top level, a deletion of that row
    if none is left, the two updates if there are both, and nothing if there is
    neither, if the equalizer takes them for equal, or if the top-level record is
    the only one. Applied to the top-level row (or no row) it gives the merged
    row. *)
Theorem full_changelog_correct spec kvs s merged :
  Implements M spec → kvs ≠ [] → Forall (λ kv, typed (value kv)) kvs →
  (length (filter is_top kvs) ≤ 1)%nat → Forall (λ kv, is_top kv → is_add kv = true) kvs →
  Reducer.spec spec kvs = Ok merged → (∀ kv, merged = Some kv → typed (value kv)) →
  let before := head (filter is_top kvs) in
  let cl := if untouched kvs then [] else changes before (kept merged) in
  (∃ s', merge_run fn kvs s = Ok (Some (mkChangelogResult (kept merged) cl), s')) ∧
  leads_to value_equalizer_ cl (row_of before) (row_of merged).
Proof.
  intros HM Hne Ht Hone Hadd Hspec Hm before cl. unfold merge_run, run_from. cbn [fn MReset MAdd MGetResult].
  destruct kvs as [|kv1 [|kv2 kvs]]; [done| |].
  - cbn in Hspec. injection Hspec as <-. split.
    + cbn [foldR Add Reset initial_kv_ mbind Result_bind merge_function_ top_level_kv_ is_initialized_].
      unfold GetResult. cbn [is_initialized_ initial_kv_ merge_function_ top_level_kv_ mbind Result_bind].
      rewrite (single_changelog kv1 (Forall_inv Ht)). by eexists.
    + subst cl before. cbn [untouched]. case_bool_decide as Htop; [|by apply changes_lead, top_adds].
      rewrite filter_cons, decide_True by done. apply leads_to_nil.
  - split; [|by apply changes_lead, top_adds].
    rewrite (foldR_Add_two _ _ _ _ _ (remember_ok _ None Ht Hone)).
    cbn [Reducer.spec] in Hspec.
    rewrite <-(merge_run_spec (M := M) _ (merge_function_ s)), result_of_Ok in Hspec.
    destruct Hspec as (s'&Hrun). unfold merge_run, run_from in Hrun.
    apply bind_Ok in Hrun as (m'&Hm'&Hres).
    set (all := kv1 :: kv2 :: kvs) in *. rewrite Hm'. cbn [mbind Result_bind].
    unfold GetResult. cbn [is_initialized_ initial_kv_ merge_function_ top_level_kv_].
    rewrite Hres. cbn [mbind Result_bind].
    assert (Heq : match filter is_top all with
                  | kv :: _ => Some (cloned kv (value_kind kv)) | [] => None end =
      (λ kv, cloned kv (value_kind kv)) <$> head (filter is_top all)) by by destruct (filter _ _).
    rewrite Heq, changelog_of_merged by done. by eexists.
Qed.
End FullChangelog.
End FullChangelog.

(** ** LookupStrategy *)

Module LookupStrategy.
Record t := mk { need_lookup : bool; is_first_row : bool; produce_changelog : bool; deletion_vector : bool }.
Definition From (is_first_row produce_changelog deletion_vector force_lookup : bool) : t :=
  mk (produce_changelog || deletion_vector || is_first_row || force_lookup)
     is_first_row produce_changelog deletion_vector.
End LookupStrategy.

(** ** LookupChangelogMergeFunctionWrapper *)

Module LookupChangelog.

(** The three instantiations of the template parameter [T]. *)
Inductive LookupResult :=
| PositionedKeyValue (key_value : KeyValue) (file_name : string) (row_position : Z)
| FilePosition (file_name : string) (row_position : Z)
| PlainKeyValue (key_value : KeyValue).

Definition found_kv (r : LookupResult) : option KeyValue :=
  match r with PositionedKeyValue kv _ _ | PlainKeyValue kv => Some kv | FilePosition _ _ => None end.
Definition found_position (r : LookupResult) : string * Z :=
  match r with
  | PositionedKeyValue _ f p | FilePosition f p => (f, p)
  | PlainKeyValue _ => (EmptyString, -1)
  end.

(** [CreateSequenceComparator]: by the user-defined sequence, then by number. *)
Definition sequence_less (user_defined_seq_comparator : option (InternalRow → InternalRow → Z))
    (o1 o2 : KeyValue) : bool :=
  match user_defined_seq_comparator with
  | None => sequence_number o1 <? sequence_number o2
  | Some cmp =>
      let r := cmp (value o1) (value o2) in
      if negb (r =? 0) then r <? 0 else sequence_number o1 <? sequence_number o2
  end.

Section LookupChangelog.
Context {B : Type} `{Roaring B} {P : Platform}.
Context (M : MergeFn KeyValue)
        (lookup_ : option InternalRow → Result (option LookupResult))
        (lookup_strategy_ : LookupStrategy.t) (should_produce_changelog_ : bool)
        (user_defined_seq_comparator : option (InternalRow → InternalRow → Z))
        {V : ValueSerializer} (value_equalizer_ : option FieldComparatorFunc).

(** The maintainer is shared with the rewriter; null without deletion vectors. *)
Record State := mkState {
  merge_function_ : Lookup.State M;
  deletion_vectors_maintainer_ : option (BucketedDvMaintainer (B := B))
}.

Definition Reset (s : State) : State :=
  mkState (Lookup.Reset M (merge_function_ s)) (deletion_vectors_maintainer_ s).
Definition Add (kv : KeyValue) (s : State) : Result State :=
  m ← Lookup.Add M kv (merge_function_ s); Ok (mkState m (deletion_vectors_maintainer_ s)).

Definition SetChangelog (before after : option KeyValue) : Result (list KeyValue) :=
  match before with
  | Some b =>
      if is_add b then
        match after with
        | Some a =>
            if is_add a then
              if values_differ value_equalizer_ (value b) (value a)
              then c ← CloneKeyValue a RowKind.UpdateAfter;
                   Ok [set_value_kind RowKind.UpdateBefore b; c]
              else Ok []
            else Ok [set_value_kind RowKind.Delete b]
        | None => Ok [set_value_kind RowKind.Delete b]
        end
      else match after with
           | Some a => if is_add a then c ← CloneKeyValue a RowKind.Insert; Ok [c] else Ok []
           | None => Ok []
           end
  | None =>
      match after with
      | Some a => if is_add a then c ← CloneKeyValue a RowKind.Insert; Ok [c] else Ok []
      | None => Ok []
      end
  end.

(** [deletion_vectors_maintainer_->NotifyNewDeletion(...)] in deletion vector mode. *)
Definition notify (r : LookupResult) (maintainer : option (BucketedDvMaintainer (B := B)))
    : Result (option (BucketedDvMaintainer (B := B))) :=
  if LookupStrategy.deletion_vector lookup_strategy_ then
    match maintainer with
    | None => Err UnknownError "null deletion vectors maintainer"
    | Some m =>
        let '(file_name, row_position) := found_position r in
        let '(m', status) := NotifyNewDeletion file_name row_position m in
        _ ← status; Ok (Some m')
    end
  else Ok maintainer.

Definition clone_if (cond : bool) (kv : option KeyValue) : Result (option KeyValue) :=
  match kv with
  | Some kv => if cond then c ← CloneKeyValue kv (value_kind kv); Ok (Some c) else Ok None
  | None => Ok None
  end.

(** Step 2: the lookup, and what it adds to the candidates. *)
Definition lookup_high_level (produce : bool) (s : State) : Result (option KeyValue * State) :=
  found ← lookup_ (Lookup.GetKey (merge_function_ s));
  match found with
  | None => Ok (None, s)
  | Some r =>
      maintainer ← notify r (deletion_vectors_maintainer_ s);
      before ← clone_if produce (found_kv r);
      Ok (before,
          mkState (Lookup.InsertInto (found_kv r) (sequence_less user_defined_seq_comparator)
                     (merge_function_ s)) maintainer)
  end.

Definition GetResult (s : State) : Result (option ChangelogResult * State) :=
  let high_level := Lookup.PickHighLevel (merge_function_ s) in
  let contain_level0 := Lookup.ContainLevel0 (merge_function_ s) in
  let produce := contain_level0 && should_produce_changelog_ in
  before ← clone_if produce high_level;
  r ← (match high_level with
       | None => lookup_high_level produce s
       | Some _ => Ok (before, s)
       end);
  let '(before, s) := r in
  r ← Lookup.GetResult M (merge_function_ s);
  let '(result, m) := r in
  changelogs ← (if produce then SetChangelog before result else Ok []);
  Ok (Some (mkChangelogResult result changelogs),
      Reset (mkState m (deletion_vectors_maintainer_ s))).

Definition fn : MergeFn ChangelogResult := mkMergeFn Reset Add GetResult.

(** [Create] refuses inconsistent parameters. *)
Definition Create (merge_function : Lookup.State M)
    (maintainer : option (BucketedDvMaintainer (B := B))) (has_value_serializer : bool) : Result State :=
  if LookupStrategy.deletion_vector lookup_strategy_ && negb (bool_decide (is_Some maintainer))
  then Err Invalid "deletionVectorsMaintainer should not be null, there is a bug."
  else if should_produce_changelog_ && negb has_value_serializer
  then Err Invalid "valueSerializer is required when producing changelog."
  else Ok (mkState merge_function maintainer).

(** *** The changelog of a key *)

Context (typed : InternalRow → Prop) `{!ValueSerializerLaws V typed}.

Lemma SetChangelog_ok before after : (∀ kv, after = Some kv → typed (value kv)) →
  ∃ cl, SetChangelog ((λ kv, cloned kv (value_kind kv)) <$> before) after = Ok cl ∧
        leads_to value_equalizer_ cl (row_of before) (row_of after).
Proof.
  intros Ht. destruct before as [b|]; cbn [fmap option_fmap option_map SetChangelog row_of].
  - rewrite !set_value_kind_cloned. change (is_add (cloned b (value_kind b))) with (is_add b).
    destruct (is_add b) eqn:Eb.
    + destruct after as [a|]; cbn [row_of]; [|eexists; split; [done|apply leads_to_delete]].
      destruct (is_add a); [|eexists; split; [done|apply leads_to_delete]]. cbn [cloned value].
      destruct (values_differ _ _ _) eqn:Ed; [|eexists; split; [done|by apply leads_to_same]].
      rewrite (CloneKeyValue_ok typed) by auto. eexists. split; [done|apply leads_to_update].
    + destruct after as [a|]; cbn [row_of]; [|eexists; split; [done|apply leads_to_nil]].
      destruct (is_add a); [|eexists; split; [done|apply leads_to_nil]].
      rewrite (CloneKeyValue_ok typed) by auto. eexists. split; [done|apply leads_to_insert].
  - destruct after as [a|]; cbn [row_of]; [|eexists; split; [done|apply leads_to_nil]].
    destruct (is_add a); [|eexists; split; [done|apply leads_to_nil]].
    rewrite (CloneKeyValue_ok typed) by auto. eexists. split; [done|apply leads_to_insert].
Qed.

Lemma clone_if_ok cond kv : (∀ k, kv = Some k → typed (value k)) →
  clone_if cond kv = Ok (if cond then (λ k, cloned k (value_kind k)) <$> kv else None).
Proof.
  intros Ht. destruct kv as [k|]; cbn; [|by destruct cond]. destruct cond; [|done].
  by rewrite (CloneKeyValue_ok typed) by auto.
Qed.

(** The record of a higher level among [kvs], the record standing for the key's
    previous row, and the candidates that are merged. *)
Definition high_level_of (kvs : list KeyValue) : option KeyValue :=
  Lookup.PickHighLevelIdx kvs ≫= λ i, kvs !! i.
Lemma high_level_elem kvs h : high_level_of kvs = Some h → h ∈ kvs.
Proof.
  unfold high_level_of. intros (i&_&Hi)%bind_Some. by eapply list_elem_of_lookup_2.
Qed.
Definition before_of (kvs : list KeyValue) (found : option LookupResult) : option KeyValue :=
  match high_level_of kvs with Some h => Some h | None => found ≫= found_kv end.
Definition candidates_of (kvs : list KeyValue) (found : option LookupResult) : list KeyValue :=
  match high_level_of kvs, found ≫= found_kv with
  | None, Some kv => std_sort (sequence_less user_defined_seq_comparator) (kvs ++ [kv])
  | _, _ => kvs
  end.
Definition notified (kvs : list KeyValue) (found : option LookupResult)
    (maintainer : option (BucketedDvMaintainer (B := B))) :=
  match high_level_of kvs, found with
  | None, Some r => notify r maintainer
  | _, _ => Ok maintainer
  end.

Lemma foldR_Add_changelog kvs s : foldR Add kvs s =
  (m ← foldR (Lookup.Add M) kvs (merge_function_ s); Ok (mkState m (deletion_vectors_maintainer_ s))).
Proof.
  revert s; induction kvs as [|kv kvs IH]; intros [m d]; [done|]. cbn. by rewrite IH.
Qed.

(** The state in which the merge function computes the result. *)
Lemma lookup_step kvs (s : State) found maintainer (produce : bool) m0 (k0 : option InternalRow) c0 :
  let s0 := mkState (Lookup.mkState m0 kvs k0 c0) (deletion_vectors_maintainer_ s) in
  lookup_ k0 = Ok found →
  notified kvs found (deletion_vectors_maintainer_ s) = Ok maintainer →
  (∀ r kv, found = Some r → found_kv r = Some kv → typed (value kv)) →
  (match high_level_of kvs with
   | None => lookup_high_level produce s0
   | Some _ => Ok (if produce then (λ k, cloned k (value_kind k)) <$> high_level_of kvs else None, s0)
   end) =
  Ok (if produce then (λ k, cloned k (value_kind k)) <$> before_of kvs found else None,
      mkState (Lookup.mkState m0 (candidates_of kvs found) k0 c0) maintainer).
Proof.
  intros s0 Hf Hn Ht. unfold notified, before_of, candidates_of in *.
  destruct (high_level_of kvs) as [h|]; [by injection Hn as <-; destruct produce|].
  unfold lookup_high_level. cbn [s0 merge_function_ Lookup.GetKey Lookup.current_key_].
  rewrite Hf. cbn [mbind Result_bind].
  destruct found as [r|]; cbn [mbind option_bind]; [|by injection Hn as <-; destruct produce].
  cbn [deletion_vectors_maintainer_ s0]. rewrite Hn. cbn [mbind Result_bind].
  rewrite clone_if_ok by eauto. cbn [mbind Result_bind]. by destruct (found_kv r).
Qed.

(** C34. Lookup changelog: the records of a key, completed by the record found in
    the upper levels when none of theirs is among them, are merged; when a record
    of level 0 takes part and changelog is produced, it leads from the key's
    previous row to the merged row, and otherwise it is empty. The deletion vectors
    are notified exactly of the record that was looked up. *)
Theorem lookup_changelog_correct spec kvs s found maintainer merged :
  Implements M spec → Forall (λ kv, typed (value kv)) kvs →
  lookup_ (key <$> last kvs) = Ok found →
  (∀ r kv, found = Some r → found_kv r = Some kv → typed (value kv)) →
  notified kvs found (deletion_vectors_maintainer_ s) = Ok maintainer →
  spec (Lookup.select (candidates_of kvs found)) = Ok merged →
  (∀ kv, merged = Some kv → typed (value kv)) →
  ∃ cl s', merge_run fn kvs s = Ok (Some (mkChangelogResult merged cl), s') ∧
    deletion_vectors_maintainer_ s' = maintainer ∧
    (if existsb (λ kv, level kv =? 0) kvs && should_produce_changelog_
     then leads_to value_equalizer_ cl (row_of (before_of kvs found)) (row_of merged)
     else cl = []).
Proof.
  intros HM Ht Hf Hft Hn Hspec Hm. unfold merge_run, run_from. cbn [fn MReset MAdd MGetResult].
  rewrite foldR_Add_changelog, Lookup.foldR_Add_lookup. cbn [mbind Result_bind].
  cbn [Reset merge_function_ deletion_vectors_maintainer_ Lookup.Reset Lookup.merge_function_
       Lookup.candidates_ Lookup.current_key_ Lookup.contain_level0_ app orb].
  set (k0 := match last kvs with Some _ => _ | None => _ end).
  assert (Hk : k0 = key <$> last kvs) by (unfold k0; by destruct (last kvs)). rewrite <-Hk in Hf.
  clearbody k0. set (c0 := existsb _ kvs). set (m0 := Lookup.merge_function_ _).
  unfold GetResult. cbn [merge_function_].
  set (ls := Lookup.mkState m0 kvs k0 c0).
  change (Lookup.PickHighLevel ls) with (high_level_of kvs). change (Lookup.ContainLevel0 ls) with c0.
  set (produce := c0 && should_produce_changelog_).
  rewrite clone_if_ok.
  2:{ intros k Hk'%high_level_elem. rewrite Forall_forall in Ht. auto. }
  cbn [mbind Result_bind].
  pose proof (lookup_step kvs s found maintainer produce m0 k0 c0 Hf Hn Hft) as Hstep. cbn zeta in Hstep. fold ls in Hstep.
  rewrite Hstep. cbn [mbind Result_bind merge_function_ deletion_vectors_maintainer_].
  pose proof (Lookup.GetResult_spec M spec (Lookup.mkState m0 (candidates_of kvs found) k0 c0)) as Hres.
  cbn [Lookup.candidates_] in Hres. rewrite Hspec, result_of_Ok in Hres. destruct Hres as (m'&->).
  cbn [mbind Result_bind]. destruct produce.
  - destruct (SetChangelog_ok (before_of kvs found) merged Hm) as (cl&->&Hlead).
    by eexists cl, _.
  - by eexists [], _.
Qed.
End LookupChangelog.
End LookupChangelog.

(** ** Examples *)

Module ChangelogExamples.
#[local] Existing Instance ListRoaring.roaring.
#[local] Instance little : Platform := PAIMON_LITTLE_ENDIAN.
#[local] Instance debug : Asserts := true.
Definition types : list ArrowType := [INT32; STRING].
Definition serializer : RowCompactedSerializer :=
  match CreateSerializer types with Ok s => s | Err _ _ => mkSerializer 0 [] [] None end.
Lemma example_serializer_ok : serializer_inv types serializer.
Proof. apply CreateSerializer_inv. reflexivity. Qed.
#[local] Instance laws : ValueSerializerLaws (row_serializer serializer) (row_typed types) :=
  row_serializer_laws types serializer example_serializer_ok.

Definition row (s : string) : InternalRow := [VInt 1; VString s].
Definition old_kv : KeyValue := mkKeyValue RowKind.Insert 1 5 [VInt 1] (row "a").
Definition new_kv : KeyValue := mkKeyValue RowKind.UpdateAfter 2 0 [VInt 1] (row "b").

Ltac typed_row :=
  split_and!; [done| |vm_compute; discriminate];
  intros j t Hj; do 2 (destruct j as [|j]; [injection Hj as <-; vm_compute; done|]); done.
Lemma row_a_typed : row_typed types (row "a").
Proof. typed_row. Qed.
Lemma row_b_typed : row_typed types (row "b").
Proof. typed_row. Qed.
Lemma kvs_typed : Forall (λ kv, row_typed types (value kv)) [old_kv; new_kv].
Proof. constructor; [apply row_a_typed|constructor; [apply row_b_typed|constructor]]. Qed.

Lemma first_row_wrapper_outcome_witness :
  result_of (merge_run (FirstRowWrapper.fn true (λ k, Ok false) (Some (row_serializer serializer)))
    [new_kv] (FirstRow.mkState true (Some old_kv))) =
  Ok (Some (mkChangelogResult (Some new_kv) [new_kv])).
Proof.
  apply (FirstRowWrapper.first_row_wrapper_outcome (λ _, false) (Some (row_serializer serializer))
    (row_typed types) [new_kv] (FirstRow.mkState true (Some old_kv))).
  - intros S [= <-]. exact laws.
  - constructor; [apply row_b_typed|constructor].
Defined.

Definition dedup : MergeFn KeyValue := Deduplicate.fn false.
Definition full_state : FullChangelog.State dedup :=
  FullChangelog.mkState dedup (None : MState dedup) None None false.

Lemma full_changelog_correct_witness :
  let cl := [cloned old_kv RowKind.UpdateBefore; cloned new_kv RowKind.UpdateAfter] in
  (∃ s', merge_run (FullChangelog.fn (V := row_serializer serializer) dedup 5 None) [old_kv; new_kv] full_state =
    Ok (Some (mkChangelogResult (Some new_kv) cl), s')) ∧
  leads_to None cl (Some (row "a")) (Some (row "b")).
Proof.
  apply (FullChangelog.full_changelog_correct dedup 5 None (row_typed types) (Deduplicate.spec false)
    [old_kv; new_kv] full_state (Some new_kv) (Deduplicate.implements false)).
  - done.
  - exact kvs_typed.
  - vm_compute. lia.
  - repeat constructor.
  - reflexivity.
  - intros kv [= <-]. apply row_b_typed.
Defined.

Definition lookup (k : option InternalRow) : Result (option LookupChangelog.LookupResult) :=
  Ok (Some (LookupChangelog.PositionedKeyValue old_kv "data-0" 7)).
Definition strategy : LookupStrategy.t := LookupStrategy.From false true true false.
Definition maintainer0 : BucketedDvMaintainer (B := list Z) := mkMaintainer ∅ false false.
Definition maintainer1 : BucketedDvMaintainer (B := list Z) :=
  mkMaintainer {[ "data-0"%string := BitmapDeletionVector [7] ]} false true.
Definition lookup_state : LookupChangelog.State (B := list Z) dedup :=
  LookupChangelog.mkState dedup (Lookup.mkState (M := dedup) None [] None false) (Some maintainer0).

Lemma lookup_changelog_correct_witness :
  ∃ cl s', merge_run (LookupChangelog.fn (V := row_serializer serializer) dedup lookup strategy true None None)
             [new_kv] lookup_state = Ok (Some (mkChangelogResult (Some new_kv) cl), s') ∧
    LookupChangelog.deletion_vectors_maintainer_ dedup s' = Some maintainer1 ∧
    leads_to None cl (Some (row "a")) (Some (row "b")).
Proof.
  apply (LookupChangelog.lookup_changelog_correct dedup lookup strategy true None None (row_typed types)
    (Deduplicate.spec false) [new_kv] lookup_state
    (Some (LookupChangelog.PositionedKeyValue old_kv "data-0" 7)) (Some maintainer1) (Some new_kv)
    (Deduplicate.implements false)).
  - constructor; [apply row_b_typed|constructor].
  - reflexivity.
  - intros r kv [= <-] [= <-]. apply row_a_typed.
  - reflexivity.
  - reflexivity.
  - intros kv [= <-]. apply row_b_typed.
Defined.
End ChangelogExamples.
