(* ===== verification/TableTheorems.v ===== *)
(** * The table: theorems

    What readers and writers of a table rely on: the snapshots and their
    manifests, the check for conflicts, the plans of scans, commits and
    rollbacks. The examples at the end are a table and its options. *)

From stdpp Require Import base list gmap strings relations.
From Stdlib Require Import ZArith Lia.
From S2P Require Import Prelude Decimal Rows DataFiles Predicates KeyValues SortMerge SortMergeProofs MergeFunctions MergeRead StateError Paths Manifests ManifestFiles ManifestFilesProofs ManifestMerger Snapshots ConflictDetection Scan KeyValueScan VisibleRows RowTracking Commit CommitTracking RowIds CommitProofs CommitTable CommitOutcomes Rollback.
Import ManifestEntry ManifestFileMeta ManifestListReader FileStoreScan SnapshotManager ConflictDetection.
Local Open Scope Z_scope.
#[local] Arguments wp : simpl never.

Section Theorems.
Context (o : Options) (env : Environment).
Abbreviation fresh := (fresh (root_ o) (uuid_ o)).
Abbreviation readable := (readable (root_ o) (SizeOf env) (partition_stats env)).
Abbreviation stored := (stored (root_ o) (SizeOf env) (partition_stats env)).

(** A commit with other writers that commit at the same time. *)
Section Attempts.
Context (theirs : string → Prop) (partition_ok : InternalRow → Prop).
Context (delta changelog : list ManifestEntry.t) (identifier : Z) (watermark : option Z) (properties : Properties.t) (kind : CommitKind.t) (detect_conflicts : bool).
Abbreviation checked := (discard_duplicate_files o && bool_decide (kind = CommitKind.Append) || detect_conflicts).
Context (Huuid : no_slash (uuid_ o)) (Htheirs : ∀ p, theirs p → ¬ own_path o p) (Hothers : others_ok o env theirs delta checked partition_ok).
Context (Hhash : ∀ ps, hash_order env ps ≡ₚ ps) (Hlaw : partitions_law o env partition_ok).
Context (Hpart : Forall (λ e, partition_ok (Partition e)) delta) (Honce : once delta) (Hchangelog : Forall known changelog).
Context (Hadds : checked = false → Forall is_add delta).
Context (w : World) (Hgood : good o env delta checked partition_ok (shared w)) (Hfresh : fresh w.2).

(** C2. A commit, with other writers that commit at the same time and with
    failures of any operation: the table stays well formed and keeps all of its
    snapshots with their manifests. If the commit succeeds, the table has a new
    snapshot that directly follows some snapshot of the table, and its live
    files are those of that snapshot with the changes applied, after the rows of
    new files have got their ids. If it fails, something that it asked for has
    failed, the check could not be made or has found a conflict, or another
    writer has committed. *)
Theorem commit_applies_changes reset retry_on_conflict cache :
  match TryCommit o env delta changelog identifier watermark properties kind reset detect_conflicts retry_on_conflict (cache, w) with
  | (Ok _, (_, w')) =>
      table_ok o env (shared w') ∧ preserves o env (shared w) (shared w') ∧
      ∃ latest log new log' next_row_id df, base_log o env w'.2.1 latest log ∧ (∀ s, latest = Some s → snapshots w'.1 !! Snapshot.Id s = Some s) ∧
        snapshots w.1 !! next_id latest = None ∧ snapshots w'.1 !! next_id latest = Some new ∧ readable w'.2.1 new log' ∧
        track_rows o env (next_id latest) (first_row_id_start latest) (changes o delta kind log) = Ok (next_row_id, df) ∧
        Snapshot.NextRowId new = Some next_row_id ∧ MergeLiveEntries log' = apply_delta (MergeLiveEntries log) df
  | (Err _ _, (_, w')) =>
      table_ok o env (shared w') ∧ preserves o env (shared w) (shared w') ∧
      (trouble o env ∨ unreadable o env ∨ refused o env delta kind w' ∨ ∃ id s, snapshots w.1 !! id = None ∧ snapshots w'.1 !! id = Some s)
  end.
Proof.
  pose proof (TryCommit_wp o env Huuid theirs Htheirs delta checked partition_ok Hothers kind detect_conflicts changelog Hlaw Hpart Honce Hchangelog eq_refl Hadds
    identifier watermark Hhash properties reset retry_on_conflict cache w Hgood Hfresh) as H.
  unfold wp in H. destruct (TryCommit _ _ _ _ _ _ _ _ _ _ _ _) as [[n|c e] [cache' w']]; cbn [fst snd] in H.
  - destruct H as (latest&log&Hl&Hs&Hfree&_&Ht&Hp&new&log'&df&Hnew&(_&(nr&Htrack&Hnr)&_)&Hr&Hlive). split_and!; [done..|].
    by exists latest, log, new, log', nr, df.
  - destruct H as [[Ht Hp] Hwhy]. by split_and!.
Qed.

Context (latest : option Snapshot.t) (Hlatest : is_latest w.1 latest).

(** C4. An attempt that loses the race for the next snapshot deletes every file
    that it has written and nothing else, so that the next attempt can use the
    same path factory. *)
Theorem lost_race_cleans_up cache : deletes_ok (fault env) →
  match TryCommitOnce o env delta changelog identifier watermark properties kind latest detect_conflicts (cache, w) with
  | (Ok false, (_, w')) =>
      is_Some (snapshots w'.1 !! next_id latest) ∧ table_ok o env (shared w') ∧ preserves o env (shared w) (shared w') ∧
      fresh w'.2 ∧ ∀ p, own_path o p → w'.2.1 !! p = w.2.1 !! p
  | (Ok true, (_, w')) => ∃ new, snapshots w.1 !! next_id latest = None ∧ snapshots w'.1 !! next_id latest = Some new
  | (Err _ _, (_, w')) => trouble o env ∨ unreadable o env ∨ refused o env delta kind w'
  end.
Proof.
  intros Hdel. destruct (latest_based o env w latest (proj1 Hgood) Hlatest) as (Hb&Hne&Hfree).
  destruct (base_found o env theirs latest w (proj1 Hgood) Hb Hne) as (_&log&_&Hl&_&_).
  pose proof (TryCommitOnce_wp o env Huuid theirs Htheirs delta checked partition_ok Hothers kind detect_conflicts changelog Hlaw Hpart Honce Hchangelog eq_refl Hadds
    identifier watermark Hhash properties latest log cache w Hgood Hfresh Hlatest Hl) as H.
  unfold wp in H. destruct (TryCommitOnce _ _ _ _ _ _ _ _ _ _ _) as [[[]|c e] [cache' w']]; cbn [fst snd] in H.
  - destruct H as (_&_&_&_&_&_&new&_&_&Hnew&_). by exists new.
  - destruct H as (Hg'&Hf'&Hp&Hs&Hown). split_and!; [done|apply Hg'|done..|]. by apply Hown.
  - apply H.
Qed.

(** What an attempt that succeeds commits to its base. *)
Context (log : list ManifestEntry.t) (Hlog : base_log o env w.2.1 latest log) (cache cache' : Cache) (w' : World).
Context (Hcommit : TryCommitOnce o env delta changelog identifier watermark properties kind latest detect_conflicts (cache, w) = (Ok true, (cache', w'))).
Lemma attempt_commits : commits_on o env delta checked kind latest log w w'.
Proof.
  pose proof (TryCommitOnce_wp o env Huuid theirs Htheirs delta checked partition_ok Hothers kind detect_conflicts changelog Hlaw Hpart Honce Hchangelog eq_refl Hadds
    identifier watermark Hhash properties latest log cache w Hgood Hfresh Hlatest Hlog) as H.
  unfold wp in H. by rewrite Hcommit in H.
Qed.

(** C17. The number that new writers start from: a commit records a sequence
    number that is at least that of every live file, if the snapshot that it
    follows does so or records none. *)
Theorem commit_records_sequence : sequence_init_snapshot o = true → Forall seq_ok (log ++ delta) → 0 ≤ next_id latest < 2 ^ 63 →
  (∀ s, latest = Some s → records_at_least s (MergeLiveEntries log)) →
  ∃ new log', snapshots w'.1 !! next_id latest = Some new ∧ readable w'.2.1 new log' ∧
    ((∃ e, e ∈ MergeLiveEntries log') → ∃ n, SequenceSnapshotProperties.MaxSequenceNumber (Some new) = Ok (Some n) ∧
       ∀ e, e ∈ MergeLiveEntries log' → DataFileMeta.max_sequence_number (File e) ≤ n).
Proof.
  intros Hinit [Hlok Hdelta]%Forall_app Hid Hold. destruct attempt_commits as (_&_&_&_&_&_&new&log'&df&Hnew&(_&(nr&Htrack&_)&Hrec)&Hr&Hlive).
  exists new, log'. split_and!; [done..|]. pose proof (live_adds log') as Hadd. rewrite Forall_forall in Hadd. intros (e&He).
  assert (Hok : Forall seq_ok (log ++ df)).
  { apply Forall_app. split; [done|]. eapply tracked_seq; [|exact Htrack|]; [lia|]. rewrite Forall_forall in Hdelta |- *. intros x Hx%changes_sub. auto. }
  pose proof (Hrec Hinit Hok Hold) as Hrecords. rewrite <-Hlive in Hrecords. destruct Hrecords as (n&Hn&Hb); [exists e; auto|]. exists n. split; [done|].
  intros e' He'. apply Hb; auto.
Qed.

(** C9. Row ids: two data files of a snapshot have the same rows or none in
    common, and the next row id is above all of them. A commit that is not a
    compaction keeps it so: the rows of its new files get ids of their own, and
    files for rows that exist have been checked to fit. *)
Theorem commit_keeps_row_ids : row_tracking_enabled o = true → data_evolution_enabled o = true → checked = true → kind ≠ CommitKind.Compact →
  0 ≤ first_row_id_start latest → first_row_id_start latest + rows delta < 2 ^ 63 → Forall (λ e, 0 < DataFileMeta.row_count (File e)) delta →
  (∀ e f, e ∈ delta → is_add e → first_row_id e = Some f → 0 ≤ f < first_row_id_start latest) →
  aligned (MergeLiveEntries log) → numbered (first_row_id_start latest) (MergeLiveEntries log) →
  ∃ new log' next, snapshots w'.1 !! next_id latest = Some new ∧ readable w'.2.1 new log' ∧ Snapshot.NextRowId new = Some next ∧
    aligned (MergeLiveEntries log') ∧ numbered next (MergeLiveEntries log').
Proof.
  intros Htrack Hevolve Hchecked Hkind Hfirst Hmax Hcount Hids Hal Hnum.
  destruct attempt_commits as (_&_&_&Hacc&_&_&new&log'&df&Hnew&(_&(nr&Hrows&Hnr)&_)&Hr&Hlive). exists new, log', nr. enough (aligned (MergeLiveEntries log') ∧ numbered nr (MergeLiveEntries log')) as [? ?] by by split_and!. rewrite Hlive.
  assert (Hcount' : Forall (λ e, 0 < DataFileMeta.row_count (File e)) (changes o delta kind log)).
  { rewrite Forall_forall in Hcount |- *. intros e He%changes_sub. auto. }
  assert (Hmax' : first_row_id_start latest + rows (changes o delta kind log) < 2 ^ 63).
  { enough (rows (changes o delta kind log) ≤ rows delta) by lia. unfold changes. destruct (_ && _); [by apply rows_filter|done]. }
  apply (tracked_aligned o env _ _ _ _ _ _ Hhash Htrack Hrows Hfirst Hcount' Hmax'); [|done..].
  intros a f Ha Hadd Hd Hfa. pose proof (Hids a f (changes_sub _ _ _ _ _ Ha) Hadd Hfa) as Hf. destruct latest as [s|]; [|cbn in Hf; lia].
  destruct (Hacc s eq_refl Hchecked) as (c1&c2&Hc). rewrite Hevolve in Hc. cbn in Hf, Hmax', Hnum. destruct (Snapshot.NextRowId s) as [next|]; [|cbn in Hf; lia].
  eapply accepted_existing; done.
Qed.
End Attempts.

(** C14. The loop over the attempts ends: more rounds than the retries allow
    change nothing, and a commit that succeeds has made at most one attempt more
    than there are retries. *)
Theorem commit_terminates delta changelog identifier watermark properties kind reset detect_conflicts retry_on_conflict start (s : CommitState) :
  (∀ fuel, (commit_fuel o ≤ fuel)%nat →
     commit_loop o env fuel delta changelog identifier watermark properties kind reset detect_conflicts retry_on_conflict start 0 s =
     commit_loop o env (commit_fuel o) delta changelog identifier watermark properties kind reset detect_conflicts retry_on_conflict start 0 s) ∧
  ∀ n s', TryCommit o env delta changelog identifier watermark properties kind reset detect_conflicts retry_on_conflict s = (Ok n, s') →
    1 ≤ n ≤ Z.max 0 (commit_max_retries o) + 1.
Proof.
  split.
  - intros fuel Hf. apply commit_loop_enough; [|done]. unfold commit_fuel. lia.
  - intros n s'. unfold TryCommit, mbind, M_bind, clock. intros H%commit_loop_attempts. lia.
Qed.

(** C8. A rollback, with other writers that commit at the same time: if it
    succeeds, the next snapshot has exactly the files of the target; whatever
    happens, no snapshot is lost. *)
Theorem rollback_restores theirs id target (w : World) :
  no_slash (uuid_ o) → (∀ p, theirs p → ¬ own_path o p) → others_ok o env theirs [] true (λ _, True) →
  table_ok o env (shared w) → fresh w.2 → snapshots w.1 !! id = Some target →
  match RollbackToAsLatest o env id w with
  | (Ok true, w') =>
      table_ok o env (shared w') ∧ preserves o env (shared w) (shared w') ∧
      ∃ latest new log log', is_latest w.1 (Some latest) ∧ snapshots w'.1 !! (Snapshot.Id latest + 1) = Some new ∧
        Snapshot.NextRowId new = max_option (Snapshot.NextRowId latest) (Snapshot.NextRowId target) ∧
        readable w'.2.1 target log ∧ readable w'.2.1 new log' ∧
        CreateIdentifier <$> MergeLiveEntries log' ≡ₚ CreateIdentifier <$> MergeLiveEntries log
  | (Ok false, w') =>
      table_ok o env (shared w') ∧ preserves o env (shared w) (shared w') ∧ ∃ id s, snapshots w.1 !! id = None ∧ snapshots w'.1 !! id = Some s
  | (Err _ _, w') => table_ok o env (shared w') ∧ preserves o env (shared w) (shared w') ∧ trouble o env
  end.
Proof.
  intros Hu Hth Hoth Ht Hf Htarget. pose proof (RollbackToAsLatest_wp o env Hu theirs Hth Hoth id target w Ht Hf Htarget) as H. unfold wp in H.
  destruct (RollbackToAsLatest o env id w) as [[[]|c e] w'].
  - destruct H as [[? ?] H]. by split_and!.
  - destruct H as [[? ?] H]. by split_and!.
  - destruct H as [? [? ?]]. by split_and!.
Qed.

(** C12. Merging manifests keeps the live files of the log, in their order; the
    files of the old manifests stay. When it fails, the new files are deleted. *)
Theorem manifest_merge_preserves all cs (s : @St Empty_set) :
  no_slash (uuid_ o) → fresh s → Forall2 (stored s.1) all cs → once (concat cs) →
  match ManifestFileMerger.Merge (fault env) (root_ o) (uuid_ o) (manifest_format o) (SizeOf env) (ReachTargetSize env) (partition_stats env) all
          (manifest_target_file_size o) (manifest_merge_min_count o) (manifest_full_compaction_size o) s with
  | (Ok out, s') =>
      s.1 ⊆ s'.1 ∧ ∃ cs', Forall2 (stored s'.1) out cs' ∧ once (concat cs') ∧ MergeLiveEntries (concat cs') = MergeLiveEntries (concat cs)
  | (Err _ _, s') => trouble o env ∧ s.1 ⊆ s'.1 ∧ (deletes_ok (fault env) → s'.1 = s.1)
  end.
Proof.
  intros Hu Hf Hst Ho. pose proof (Merge_wp (fault env) (root_ o) (uuid_ o) (manifest_format o) (SizeOf env) (ReachTargetSize env) (partition_stats env) all cs
    (manifest_target_file_size o) (manifest_merge_min_count o) (manifest_full_compaction_size o) s Hu Hf Hst Ho) as H.
  unfold wp in H. destruct (ManifestFileMerger.Merge _ _ _ _ _ _ _ _ _ _ _ _) as [[out|c e] s'].
  - destruct H as (new&He&_&_&cs'&Hst'&Hr). split; [exact (extends_grows _ _ _ _ _ He)|]. exists cs'. split; [done|]. by apply merge_steps.
  - destruct H as (H1&_&H3&H4). split_and!; [by left|done..].
Qed.
End Theorems.

(** ** Reading *)

Section Reading.
Context (fault : Op → nat → Result unit).

(** The latest snapshot is found, whether or not the hint is there and up
    to date, unless an operation on a file fails. *)
Theorem latest_snapshot_found (w : World) : dir_ok w.1 →
  match LatestSnapshot fault w with
  | (Ok r, w') => w'.1 = w.1 ∧ is_latest w.1 r
  | (Err _ _, _) => some_fault fault
  end.
Proof. exact (LatestSnapshot_wp fault w). Qed.

(** C28. The search by time ends with the last snapshot that is early enough, or
    with none if there is none, unless an operation on a file fails. *)
Theorem time_travel_finds compare ts e l (w : World) : ids_between w.1 e l → hint_ok w.1 e l → (∀ h, EARLIEST w.1 = Some h → h ≤ e) →
  times_ok compare ts w.1 →
  match FindSnapshotBeforeTimestamp fault compare ts w with
  | (Ok r, w') => w'.1 = w.1 ∧ last_early compare ts w.1 r
  | (Err _ _, _) => some_fault fault
  end.
Proof. exact (FindSnapshotBeforeTimestamp_wp fault compare ts e l w). Qed.
End Reading.

(** ** The check for conflicts *)

Section Conflicts.
Context (dv bu pk de : bool) {KO : KeyOptions}.

(** C10. Changes that the check accepts can follow the log: every file is added
    and deleted once at most, in this order, every deletion is of a file that is
    live or added by the changes, and the live files are the old ones with the
    changes applied. *)
Theorem conflict_check_keeps_log partitions log delta next_row_id kind cache cache' :
  once log → unrepeated delta → fresh_adds log delta → (∀ e, e ∈ delta → Partition e ∈ partitions) →
  CheckConflicts dv bu pk de (live_in partitions log) delta next_row_id kind cache = (Ok (), cache') →
  once (log ++ delta) ∧ MergeLiveEntries (log ++ delta) = apply_delta (MergeLiveEntries log) delta ∧
  ∀ d, d ∈ delta → is_delete d → ∃ a, a ∈ MergeLiveEntries log ++ delta ∧ is_add a ∧ CreateIdentifier a = CreateIdentifier d.
Proof.
  intros Ho Hu Hf Hp Hc. pose proof (accepted_log dv bu pk de _ _ _ _ _ _ _ Ho Hu Hf Hp Hc) as Hall. split_and!; [done|by apply live_app|].
  intros d Hd Hdel. destruct (accepted_deletes dv bu pk de _ _ _ _ _ _ _ Ho Hu Hc d Hd Hdel) as (a&[Ha|Ha]%elem_of_app&H); exists a; (split; [|done]);
    apply elem_of_app; [left|by right]. by apply list_elem_of_filter in Ha as [_ ?].
Qed.

(** C16. In a table with a primary key whose sequence field is sorted in
    ascending order, as it is by default, changes that the check accepts keep the
    levels above the first free of overlaps, for every partition and bucket. Keys
    are compared field by field in ascending order, as the writers of the files
    do. *)
Theorem conflict_check_keeps_levels types key_comparator partitions log delta next_row_id kind cache cache' :
  TrimmedPrimaryKeyFields = Ok types → Forall type_ok types → Rows.Create types true = Ok key_comparator →
  SequenceFieldSortOrderIsAscending = true →
  let KC := CompareRows key_comparator in
  once log → unrepeated delta → fresh_adds log delta → (∀ e, e ∈ delta → Partition e ∈ partitions) →
  Forall (range_ok (KC := KC)) (log ++ delta) → levels_apart (KC := KC) (MergeLiveEntries log) → pk = true →
  CheckConflicts dv bu pk de (live_in partitions log) delta next_row_id kind cache = (Ok (), cache') →
  levels_apart (KC := KC) (MergeLiveEntries (log ++ delta)).
Proof.
  intros Hf Ht Hc Hasc KC Ho Hu Hfr Hp Hr Hl Hpk. apply (accepted_levels (KL := Create_laws types true _ Ht Hc) dv bu pk de); try done.
  exists types, key_comparator. by rewrite Hasc.
Qed.

(** C18. A compaction of a table with data evolution that the check accepts
    leaves, in the partitions that it changes, data files that have the same
    rows or none in common, and every dedicated file within one of them. *)
Theorem compaction_keeps_row_ids partitions log delta next_row_id cache cache' :
  once log → unrepeated delta → fresh_adds log delta → (∀ e, e ∈ delta → Partition e ∈ partitions) →
  Forall (λ e, ∀ f, first_row_id e = Some f → Ranges.range_ok (row_range e f)) (log ++ delta) →
  CheckConflicts dv bu pk true (live_in partitions log) delta next_row_id CommitKind.Compact cache = (Ok (), cache') →
  let files := live_in partitions (log ++ delta) in aligned files ∧ covered files.
Proof. apply accepted_compaction. Qed.
End Conflicts.

(** ** Plans *)

Section AppendOnly.
Context (fault : Op → nat → Result unit) (root_ : string) (SizeOf : Content Empty_set → Z) (partition_stats : list InternalRow → Result SimpleStats).
Context (filters : Filters) (schema_ : list ArrowType) (field_names : list string) (table_schema_id : Z).
Context (OtherSchema TestFileIndex : Predicate → DataFileMeta.t → Result bool) (predicates_ : option Predicate).
Abbreviation methods := (AppendOnlyFileStoreScan.methods schema_ field_names table_schema_id OtherSchema TestFileIndex predicates_).

(** C15. The plan of a scan of a table without primary keys has the live files
    of the snapshot that pass the filters, in the order of the log: no file is
    missed because a manifest or the deletion of a file was skipped. *)
Theorem append_scan_plans_live snapshot log (s : @St Empty_set) :
  partition_stats_ok partition_stats filters → copies_ok OtherSchema TestFileIndex → readable root_ SizeOf partition_stats s.1 snapshot log →
  deletions_copy log →
  match CreatePlan fault root_ filters methods ALL false (Some snapshot) s with
  | (Ok files, s') => files = filter (λ e, FilterManifestEntry filters methods e = Ok true) (MergeLiveEntries log) ∧ s'.1 = s.1
  | (Err _ _, s') => scan_fails fault filters methods ∧ s'.1 = s.1
  end.
Proof.
  intros Hps Hc Hr Hd. pose proof (CreatePlan_wp fault root_ SizeOf partition_stats filters methods snapshot log false s Hps Hr
    (append_deletions_kept schema_ field_names table_schema_id OtherSchema TestFileIndex filters predicates_ log Hc Hd)) as H.
  unfold wp in H. destruct (CreatePlan _ _ _ _ _ _ _ _) as [[files|c e] s']; destruct H as [H [E _]]; [|done]. by injection H as <-.
Qed.
End AppendOnly.

Section PrimaryKey.
Context (ukc : InternalRow → InternalRow → Z) (usc : option (InternalRow → InternalRow → Z)) (ignore_delete : bool) {OK : ComparatorsOK ukc usc}.
Context (fault : Op → nat → Result unit) (root_ : string) (SizeOf : Content Empty_set → Z) (partition_stats : list InternalRow → Result SimpleStats).
Context (filters : Filters) (schema_ : list ArrowType) (field_names : list string) (table_schema_id : Z).
Context (OtherSchema TestFileIndex : Predicate → DataFileMeta.t → Result bool) (key_filter_ value_filter_ : option Predicate) (deletion_vectors_enabled : bool).
Context (contents : DataFileMeta.t → list KeyValue).
Abbreviation methods := (KeyValueFileStoreScan.methods schema_ field_names table_schema_id OtherSchema TestFileIndex key_filter_ value_filter_ false
  deletion_vectors_enabled).
Abbreviation ByKey := (KeyValueFileStoreScan.FilterByStats schema_ key_filter_).
Abbreviation file_ok := (file_ok schema_ field_names OtherSchema TestFileIndex key_filter_ value_filter_ contents).
Abbreviation rows es := (bucket_rows contents es).
Abbreviation visible := (visible ukc usc ignore_delete).
Abbreviation of_bucket k := (filter (λ e, bucket_key e = k)).

(** The plan of a bucket. *)
Lemma plan_bucket entries files k : whole_buckets methods entries = Ok files →
  of_bucket k files = of_bucket k entries ∨
  KeyValueFileStoreScan.FilterWholeBucketByStats schema_ field_names table_schema_id OtherSchema TestFileIndex value_filter_ false deletion_vectors_enabled
    (of_bucket k entries) = Ok (of_bucket k files).
Proof.
  unfold whole_buckets. destruct (WholeBucketFilterEnabled methods); [|intros [= <-]; by left]. intros H. right.
  pose proof (filter_groups_bucket methods (grouped_entries entries) files k (WholeBucket_sub _ _ _ _ _ _ _ _)) as Hb.
  pose proof (grouped_find entries k) as Hf. destruct (LinkedHashMap.find k (grouped_entries entries)) as [g|] eqn:E; cbn in Hf.
  - rewrite <-Hf. apply Hb; [|apply grouped_NoDup|done]. intros k' g' ->%grouped_elem. apply Forall_forall. by intros e [? _]%list_elem_of_filter.
  - rewrite <-Hf, Hb; [done| |apply grouped_NoDup|done]. intros k' g' ->%grouped_elem. apply Forall_forall. by intros e [? _]%list_elem_of_filter.
Qed.

(** C6. A scan of a table with a primary key that keeps one version of every
    row: for a bucket that is not filtered out, the rows that satisfy the
    predicate are visible in the files of the plan if and only if they are
    visible in all live files of the bucket. *)
Theorem key_value_scan_keeps_answers snapshot log k kv (s : @St Empty_set) :
  Forall type_ok schema_ → partition_stats_ok partition_stats filters → readable root_ SizeOf partition_stats s.1 snapshot log → deletions_copy log →
  Forall (λ e, FilterManifestEntry filters methods e = ByKey e ∧ is_ok (ByKey e) = true ∧ file_ok (File e)) (of_bucket k (MergeLiveEntries log)) →
  keys_ok ukc schema_ key_filter_ → levels_disjoint ukc contents (of_bucket k (MergeLiveEntries log)) →
  satisfies schema_ key_filter_ value_filter_ kv →
  match CreatePlan fault root_ filters methods ALL false (Some snapshot) s with
  | (Ok files, s') => s'.1 = s.1 ∧ (visible (rows (of_bucket k files)) kv ↔ visible (rows (of_bucket k (MergeLiveEntries log))) kv)
  | (Err _ _, s') => s'.1 = s.1 ∧ scan_fails fault filters methods
  end.
Proof.
  intros Hsch Hps Hr Hd Hall Hkeys Hdis Hsat. pose proof (CreatePlan_wp fault root_ SizeOf partition_stats filters methods snapshot log false s Hps Hr
    (kv_deletions_kept schema_ field_names table_schema_id OtherSchema TestFileIndex filters key_filter_ value_filter_ false deletion_vectors_enabled log Hd)) as H.
  unfold wp in H. destruct (CreatePlan _ _ _ _ _ _ _ _) as [[files|c e] s']; destruct H as [H [E _]]; [|done]. split; [done|].
  unfold finish in H. apply bind_Ok in H as (files'&H&[= <-]). apply (plan_bucket _ _ k) in H. set (es := of_bucket k (MergeLiveEntries log)) in *.
  assert (Hkept : of_bucket k (kept_files filters methods log) = filter (λ e, ByKey e = Ok true) es).
  { unfold kept_files, es. rewrite !list_filter_filter. apply filter_ext_in. intros e He. split; intros [H1 H2].
    - assert (Hin : e ∈ es) by by apply list_elem_of_filter. rewrite Forall_forall in Hall. destruct (Hall e Hin) as [<- _]. done.
    - assert (Hin : e ∈ es) by by apply list_elem_of_filter. rewrite Forall_forall in Hall. destruct (Hall e Hin) as [-> _]. done. }
  rewrite Hkept in H. clear Hkept. rewrite Forall_forall in Hall.
  assert (Hkey : visible (rows (filter (λ e, ByKey e = Ok true) es)) kv ↔ visible (rows es) kv).
  { apply (key_filter_keeps ukc usc ignore_delete schema_ field_names OtherSchema TestFileIndex key_filter_ value_filter_ contents Hsch); [done|..|done];
      apply Forall_forall; intros e He; apply (Hall e He). }
  rewrite <-Hkey. destruct H as [-> |H]; [done|].
  eapply (value_filter_keeps ukc usc ignore_delete schema_ field_names table_schema_id OtherSchema TestFileIndex key_filter_ value_filter_ false);
    [try done..|exact H].
  - apply Forall_forall. intros e [_ He]%list_elem_of_filter. by apply (Hall e He).
  - intros e e' x y [_ He]%list_elem_of_filter [_ He']%list_elem_of_filter. by apply Hdis.
Qed.
End PrimaryKey.

(** ** Examples *)

Module TableExamples.
Definition int_keys : KeyOptions := mkKeyOptions (Ok [INT32]) true.
Definition o : Options :=
  mkOptions "t" "u" "avro" 1000 1 1000 false false false false true true true true false false true int_keys "me" [] false 3 1000.
Definition no_faults : Op → nat → Result unit := λ _ _, Ok ().
Definition stats (rows : list InternalRow) : Result SimpleStats := Ok (mkSimpleStats [] [] []).
Definition size (c : Content Empty_set) : Z := 10.
Definition file (name : string) (level lo hi : Z) : DataFileMeta.t :=
  DataFileMeta.mk name 10 2 [VInt lo] [VInt hi] (mkSimpleStats [VInt lo] [VInt hi] [Some 0]) (mkSimpleStats [VInt lo; VInt 0] [VInt hi; VInt 9] [Some 0; Some 0])
    0 1 0 level [] (mkTimestamp 0 0) None None (Some FileSource.Append) None None None None None.
Definition entry (kind : FileKind.t) (f : DataFileMeta.t) : ManifestEntry.t := ManifestEntry.mk kind [] 0 1 f.
Definition f1 : DataFileMeta.t := DataFileMeta.AssignFirstRowId 0 (file "f1" 5 1 4).
Definition f2 : DataFileMeta.t := DataFileMeta.AssignFirstRowId 2 (file "f2" 5 5 9).
Definition f3 : DataFileMeta.t := DataFileMeta.AssignFirstRowId 4 (file "f3" 0 2 7).

(** The manifests of another writer. *)
Definition meta (name : string) (es : list ManifestEntry.t) : ManifestFileMeta.t :=
  match foldR ManifestEntryWriter.Note es ManifestEntryWriter.new with
  | Ok w => match ManifestEntryWriter.GetResult stats (ToPath "t" name) 10 w with Ok m => m | Err _ _ => ManifestFileMeta.mk "" 0 0 0 (mkSimpleStats [] [] []) 0 None None None None None None end
  | Err _ _ => ManifestFileMeta.mk "" 0 0 0 (mkSimpleStats [] [] []) 0 None None None None None None
  end.
Definition es1 : list ManifestEntry.t := [entry FileKind.Add f1; entry FileKind.Add f2].
Definition es2 : list ManifestEntry.t := [entry FileKind.Delete f1; entry FileKind.Add f3].
Definition m1 : ManifestFileMeta.t := meta "manifest-x-0" es1.
Definition m2 : ManifestFileMeta.t := meta "manifest-x-1" es2.
Definition snapshot (id : Z) (base delta : string) : Snapshot.t :=
  Snapshot.mk (Some 3) (Some "x"%string) id 0 base (Some 10) delta (Some 10) None None None "other" id CommitKind.Append (100 * id) 0 0 None None None None (Some (2 * id + 2)).
Definition s1 : Snapshot.t := snapshot 1 "manifest-list-x-0" "manifest-list-x-1".
Definition s2 : Snapshot.t := snapshot 2 "manifest-list-x-2" "manifest-list-x-3".
Definition files1 : list (string * Content Empty_set) :=
  [(ToPath "t" "manifest-list-x-0", ManifestList []); (ToPath "t" "manifest-list-x-1", ManifestList [m1]); (ToPath "t" "manifest-x-0", Manifest es1)].
Definition files2 : list (string * Content Empty_set) :=
  [(ToPath "t" "manifest-list-x-2", ManifestList [m1]); (ToPath "t" "manifest-list-x-3", ManifestList [m2]); (ToPath "t" "manifest-x-1", Manifest es2)].
Definition dir1 : SnapshotDir := mkDir {[1 := s1]} None None.
Definition dir2 : SnapshotDir := mkDir (<[2 := s2]> {[1 := s1]}) (Some 1) (Some 1).

(** It commits its first snapshot as soon as it can. *)
Definition other (n : nat) (w : Shared) : Shared :=
  if decide (snapshots w.1 = ∅) then (mkDir {[1 := s1]} (LATEST w.1) (EARLIEST w.1), list_to_map files1 ∪ w.2) else w.
Definition theirs (p : string) : Prop := p ∈ files1.*1.
Definition env : Environment :=
  mkEnvironment no_faults (λ _, false) other size (λ _, false) stats (λ _, Compound And []) (λ _, Ok 0) (λ _, Ok []) (λ _, Ok 0) (λ n, Z.of_nat n)
    (λ _, Ok "v"%string) (λ ps, ps).
Definition empty : World := (mkDir ∅ None None, (∅, mkLocal 0 0 0)).
Definition two : World := (dir2, (list_to_map (files1 ++ files2), mkLocal 0 0 0)).

Abbreviation manifests_of := (manifests_of "t" size stats).
Lemma own_not_theirs p : theirs p → ¬ own_path o p.
Proof.
  unfold theirs, files1. cbn. intros Hp (k&_&Hk). repeat (apply elem_of_cons in Hp as [->|Hp]); [..|by apply elem_of_nil in Hp];
    destruct Hk as [E|[E|E]]; cbn in E; discriminate.
Qed.
Lemma uuid_ok : no_slash (uuid_ o).
Proof. repeat constructor. Qed.

Lemma files1_manifests (fs : gmap string (Content Empty_set)) : list_to_map files1 ⊆ fs → manifests_of fs s1 [] [m1] [es1].
Proof.
  intros Hs. assert (H : ∀ p c, (p, c) ∈ files1 → fs !! p = Some c).
  { intros p c Hp. eapply lookup_weaken; [|exact Hs]. apply elem_of_list_to_map_1; [|done].
    cbn. repeat (apply NoDup_cons; split; [rewrite ?not_elem_of_cons; split_and?; try discriminate; apply not_elem_of_nil|]). constructor. }
  split_and!; [apply H; by left|apply H; right; by left|]. constructor; [|constructor]. split; [apply H; do 2 right; by left|].
  eexists. split; [reflexivity|]. by vm_compute.
Qed.
Lemma es1_once : once es1.
Proof. split; [|repeat constructor]. repeat constructor; by vm_compute. Qed.

Abbreviation in_partition := (λ row : InternalRow, row = []).
Lemma one_snapshot (fs : gmap string (Content Empty_set)) latest earliest id s : list_to_map files1 ⊆ fs →
  snapshots (mkDir {[1 := s1]} latest earliest) !! id = Some s → id = 1 ∧ s = s1 ∧ manifests_of fs s [] [m1] [es1].
Proof. cbn. intros Hf [<- <-]%lookup_singleton_Some. split_and!; [done..|]. by apply files1_manifests. Qed.

Lemma other_commits delta (P : InternalRow → Prop) w : P [] → snapshots w.1 = ∅ → good o env delta true P w →
  good o env delta true P (mkDir {[1 := s1]} (LATEST w.1) (EARLIEST w.1), list_to_map files1 ∪ w.2).
Proof.
  intros HP He [[Hd _] _]. assert (Hf : list_to_map files1 ⊆ list_to_map files1 ∪ w.2) by apply map_union_subseteq_l.
  assert (Hl : LATEST w.1 = None).
  { destruct Hd as [[_ Hl]|(e&l&[Hel Hids]&_)]; [done|]. destruct (proj2 (Hids e)) as [s Hs]; [lia|]. by rewrite He in Hs. }
  split; [split|].
  - right. exists 1, 1. split; [|intros h Hh; cbn in Hh; congruence]. split; [lia|]. intros k. cbn. rewrite lookup_singleton_is_Some. lia.
  - intros id s Hs. destruct (one_snapshot _ _ _ _ _ Hf Hs) as (->&->&Hm). split; [done|]. exists (concat [es1]).
    split; [by exists [], [m1], [es1]|exact es1_once].
  - intros id s log Hs Hr. destruct (one_snapshot _ _ _ _ _ Hf Hs) as (_&->&Hm).
    assert (log = concat [es1]) as -> by (eapply (readable_unique o env); [exact Hr|]; by exists [], [m1], [es1]).
    split; [by repeat constructor|]. intros e _ _. split; [by vm_compute; apply not_elem_of_nil|done].
Qed.
Lemma other_respects w : snapshots w.1 = ∅ →
  respects o env theirs w (mkDir {[1 := s1]} (LATEST w.1) (EARLIEST w.1), list_to_map files1 ∪ w.2).
Proof.
  intros He. assert (Hf : list_to_map files1 ⊆ list_to_map files1 ∪ w.2) by apply map_union_subseteq_l. split_and!.
  - rewrite He. apply map_empty_subseteq.
  - intros p [Hp|(id&s&b&d&cs&Hs&_)]; [|by rewrite He in Hs].
    apply (lookup_union_r (list_to_map files1)). by apply not_elem_of_list_to_map_1.
  - intros _. right. by exists s1.
  - intros p Hp (id&s&b&d&cs&Hs&Hm&Href). destruct (one_snapshot _ _ _ _ _ Hf Hs) as (_&->&Hm'). destruct Hp.
    destruct (manifests_unique o env _ _ _ _ _ _ _ _ Hm Hm') as (->&->&_). unfold theirs. cbn.
    destruct Href as [->|[->|[->|[]%elem_of_nil]%elem_of_cons]]; [by left|right; by left|do 2 right; by left].
Qed.
Lemma other_ok delta (P : InternalRow → Prop) : P [] → others_ok o env theirs delta true P.
Proof.
  intros HP n w Hg. cbn [others env]. unfold other. case_decide as He; [|by split]. split; [by apply other_commits|by apply other_respects].
Qed.

Lemma law_ok : partitions_law o env in_partition.
Proof.
  intros ps. split.
  - split; [constructor|]. by intros p rows st [= <-] _.
  - intros row Hne [-> Hps]%Forall_cons. cbn. rewrite bool_decide_eq_true_2; [done|]. destruct ps as [|q ps]; [done|].
    apply Forall_cons in Hps as [-> _]. by left.
Qed.
Lemma empty_good delta : good o env delta true in_partition (shared empty).
Proof. split; [split|]; [by left|by intros id s Hs|by intros id s log Hs]. Qed.
Lemma empty_fresh : fresh "t" "u" empty.2.
Proof. by split_and!. Qed.

Definition delta : list ManifestEntry.t := [entry FileKind.Add (file "f4" 0 1 9)].

Lemma commit_applies_changes_witness : ∃ cache' w' latest log new log' next df,
  TryCommit o env delta [] 1 None [] CommitKind.Append false true true ([], empty) = (Ok 1, (cache', w')) ∧ table_ok o env (shared w') ∧
  base_log o env w'.2.1 latest log ∧ snapshots w'.1 !! next_id latest = Some new ∧ readable "t" size stats w'.2.1 new log' ∧
  track_rows o env (next_id latest) (first_row_id_start latest) delta = Ok (next, df) ∧
  MergeLiveEntries log' = apply_delta (MergeLiveEntries log) df.
Proof.
  pose proof (commit_applies_changes o env theirs in_partition delta [] 1 None [] CommitKind.Append true uuid_ok own_not_theirs
    (other_ok delta in_partition eq_refl) (λ _, reflexivity _) law_ok ltac:(by repeat constructor) ltac:(by repeat constructor) ltac:(constructor) ltac:(done)
    empty (empty_good delta) empty_fresh false true []) as H.
  assert (E : (TryCommit o env delta [] 1 None [] CommitKind.Append false true true ([], empty)).1 = Ok 1) by by vm_compute.
  destruct (TryCommit _ _ _ _ _ _ _ _ _ _ _ _) as [[r|c e] [cache' w']]; [|done]. cbn in E. injection E as ->.
  destruct H as (Ht&_&latest&log&new&log'&nr&df&Hl&Hs&_&Hnew&Hr&Htrack&_&Hlive). by exists cache', w', latest, log, new, log', nr, df.
Defined.

Lemma lost_race_cleans_up_witness : ∃ cache' w',
  TryCommitOnce o env delta [] 1 None [] CommitKind.Append None true ([], empty) = (Ok false, (cache', w')) ∧ is_Some (snapshots w'.1 !! 1) ∧
  ∀ p, own_path o p → w'.2.1 !! p = None.
Proof.
  pose proof (lost_race_cleans_up o env theirs in_partition delta [] 1 None [] CommitKind.Append true uuid_ok own_not_theirs
    (other_ok delta in_partition eq_refl) (λ _, reflexivity _) law_ok ltac:(by repeat constructor) ltac:(by repeat constructor) ltac:(constructor) ltac:(done)
    empty (empty_good delta) empty_fresh None eq_refl [] (λ _, eq_refl)) as H.
  assert (E : (TryCommitOnce o env delta [] 1 None [] CommitKind.Append None true ([], empty)).1 = Ok false) by by vm_compute.
  destruct (TryCommitOnce _ _ _ _ _ _ _ _ _ _ _) as [[r|c e] [cache' w']]; [|done]. cbn in E. injection E as ->.
  destruct H as (Hs&_&_&_&Hown). exists cache', w'. by split_and!.
Defined.

(** Two snapshots. *)
Lemma two_stored : Forall2 (stored "t" size stats two.2.1) [m1; m2] [es1; es2].
Proof.
  constructor; [|constructor; [|constructor]]; (split; [by vm_compute|]; eexists; split; [reflexivity|]; by vm_compute).
Qed.
Lemma two_lookup id s : snapshots two.1 !! id = Some s → (id = 1 ∧ s = s1) ∨ (id = 2 ∧ s = s2).
Proof.
  cbn. intros [[<- <-]|[_ H]]%lookup_insert_Some; [by right|]. apply lookup_singleton_Some in H as [<- <-]. by left.
Qed.
Lemma two_ids : ids_between two.1 1 2.
Proof. split; [lia|]. intros k. cbn. rewrite lookup_insert_is_Some, lookup_singleton_is_Some. lia. Qed.
Lemma two_hint : hint_ok two.1 1 2.
Proof. intros h [= <-]. lia. Qed.
Lemma two_once : once (concat [es1; es2]).
Proof. split; [repeat constructor; by vm_compute|]. repeat (constructor; [by (left; reflexivity) || (right; reflexivity)|]). constructor. Qed.
Lemma two_readable : readable "t" size stats two.2.1 s2 (concat [es1; es2]).
Proof. exists [m1], [m2], [es1; es2]. split; [|done]. split_and!; [by vm_compute|by vm_compute|apply two_stored]. Qed.
Lemma two_table : table_ok o env (shared two).
Proof.
  split; [right; exists 1, 2; split; [apply two_ids|apply two_hint]|]. intros id s [[-> ->]|[-> ->]]%two_lookup; (split; [done|]).
  - exists (concat [es1]). split; [|exact es1_once]. exists [], [m1], [es1]. split; [|done]. apply files1_manifests.
    change (list_to_map files1 ⊆@{gmap string (Content Empty_set)} list_to_map (files1 ++ files2)). rewrite list_to_map_app. apply map_union_subseteq_l.
  - exists (concat [es1; es2]). split; [exact two_readable|exact two_once].
Qed.
Lemma two_fresh : fresh "t" "u" two.2.
Proof.
  assert (H : ∀ p, p ∉ (files1 ++ files2).*1 → two.2.1 !! p = None) by (intros p; apply not_elem_of_list_to_map_1).
  split_and!; [done|done|..]; intros k _; apply H; cbn; rewrite ?not_elem_of_cons; split_and!; try discriminate; apply not_elem_of_nil.
Qed.

Lemma two_latest : is_latest two.1 (Some s2).
Proof. exists 2. split; [done|]. intros k (s&[[-> _]|[-> _]]%two_lookup); lia. Qed.

(** A commit to them: a new file, and a file with other columns of the rows of
    [f2]. *)
Definition columns : list ManifestEntry.t :=
  [entry FileKind.Add (DataFileMeta.AssignFirstRowId 2 (file "f6" 0 1 9)); entry FileKind.Add (file "f4" 0 1 9)].
Definition live2 : list ManifestEntry.t := [entry FileKind.Add f2; entry FileKind.Add f3].
Lemma two_good : good o env columns true in_partition (shared two).
Proof.
  split; [exact two_table|]. intros id s log Hs Hr.
  assert (Hlog : log = concat [es1] ∨ log = concat [es1; es2]).
  { apply two_lookup in Hs as [[_ ->]|[_ ->]]; [left|right]; (eapply (readable_unique o env); [exact Hr|]); [|exact two_readable].
    exists [], [m1], [es1]. split; [|done]. apply files1_manifests.
    change (list_to_map files1 ⊆@{gmap string (Content Empty_set)} list_to_map (files1 ++ files2)). rewrite list_to_map_app. apply map_union_subseteq_l. }
  destruct Hlog as [-> | ->]; (split; [by repeat constructor|]); intros e He _; (split; [|done]);
    repeat (apply elem_of_cons in He as [->|He]); (by apply elem_of_nil in He) || by apply (bool_decide_eq_true _).
Qed.
Lemma columns_once : once columns.
Proof. split; [repeat constructor; by vm_compute|by repeat constructor]. Qed.

Lemma commit_records_sequence_witness : ∃ cache' w' new log',
  TryCommitOnce o env columns [] 1 None [] CommitKind.Append (Some s2) true ([], two) = (Ok true, (cache', w')) ∧
  snapshots w'.1 !! 3 = Some new ∧ readable "t" size stats w'.2.1 new log' ∧
  ((∃ e, e ∈ MergeLiveEntries log') → ∃ n, SequenceSnapshotProperties.MaxSequenceNumber (Some new) = Ok (Some n) ∧
     ∀ e, e ∈ MergeLiveEntries log' → DataFileMeta.max_sequence_number (File e) ≤ n).
Proof.
  assert (E : (TryCommitOnce o env columns [] 1 None [] CommitKind.Append (Some s2) true ([], two)).1 = Ok true) by by vm_compute.
  destruct (TryCommitOnce _ _ _ _ _ _ _ _ _ _ _) as [[r|c e] [cache' w']] eqn:Hc; [|done]. cbn in E. injection E as ->.
  destruct (commit_records_sequence o env theirs in_partition columns [] 1 None [] CommitKind.Append true uuid_ok own_not_theirs
    (other_ok columns in_partition eq_refl) (λ _, reflexivity _) law_ok ltac:(by repeat constructor) columns_once ltac:(constructor) ltac:(done)
    two two_good two_fresh (Some s2) two_latest (concat [es1; es2]) two_readable [] cache' w' Hc eq_refl) as (new&log'&H).
  - clear. repeat constructor; by vm_compute.
  - clear. by vm_compute.
  - clear. by intros s [= <-] n.
  - exists cache', w', new, log'. split; [reflexivity|exact H].
Defined.

Lemma commit_keeps_row_ids_witness : ∃ cache' w' new log' next,
  TryCommitOnce o env columns [] 1 None [] CommitKind.Append (Some s2) true ([], two) = (Ok true, (cache', w')) ∧
  snapshots w'.1 !! 3 = Some new ∧ readable "t" size stats w'.2.1 new log' ∧ Snapshot.NextRowId new = Some next ∧
  aligned (MergeLiveEntries log') ∧ numbered next (MergeLiveEntries log').
Proof.
  assert (E : (TryCommitOnce o env columns [] 1 None [] CommitKind.Append (Some s2) true ([], two)).1 = Ok true) by by vm_compute.
  destruct (TryCommitOnce _ _ _ _ _ _ _ _ _ _ _) as [[r|c e] [cache' w']] eqn:Hc; [|done]. cbn in E. injection E as ->.
  destruct (commit_keeps_row_ids o env theirs in_partition columns [] 1 None [] CommitKind.Append true uuid_ok own_not_theirs
    (other_ok columns in_partition eq_refl) (λ _, reflexivity _) law_ok ltac:(by repeat constructor) columns_once ltac:(constructor) ltac:(done)
    two two_good two_fresh (Some s2) two_latest (concat [es1; es2]) two_readable [] cache' w' Hc eq_refl eq_refl eq_refl) as (new&log'&next&H).
  - clear. done.
  - clear. done.
  - clear. by vm_compute.
  - clear. by repeat constructor.
  - clear. intros e f He _ Hf. repeat (apply elem_of_cons in He as [->|He]); [injection Hf as <-; by vm_compute|done|by apply elem_of_nil in He].
  - clear. intros r r' Hr Hr'. change (r ∈ data_ranges live2) in Hr. change (r' ∈ data_ranges live2) in Hr'.
    repeat (apply elem_of_cons in Hr as [->|Hr]); try (by apply elem_of_nil in Hr); repeat (apply elem_of_cons in Hr' as [->|Hr']); try (by apply elem_of_nil in Hr');
      unfold Ranges.apart; vm_compute; auto.
  - clear. change (numbered 6 live2). repeat constructor; by vm_compute.
  - exists cache', w', new, log', next. split; [reflexivity|exact H].
Defined.

Lemma rollback_restores_witness : ∃ w' latest new log log',
  RollbackToAsLatest o env 1 two = (Ok true, w') ∧ is_latest two.1 (Some latest) ∧ snapshots w'.1 !! (Snapshot.Id latest + 1) = Some new ∧
  readable "t" size stats w'.2.1 s1 log ∧ readable "t" size stats w'.2.1 new log' ∧
  CreateIdentifier <$> MergeLiveEntries log' ≡ₚ CreateIdentifier <$> MergeLiveEntries log.
Proof.
  pose proof (rollback_restores o env theirs 1 s1 two uuid_ok own_not_theirs (other_ok [] (λ _, True) I) two_table two_fresh eq_refl) as H.
  assert (E : (RollbackToAsLatest o env 1 two).1 = Ok true) by by vm_compute. destruct (RollbackToAsLatest o env 1 two) as [[r|c e] w']; [|done].
  cbn in E. injection E as ->. destruct H as (_&_&latest&new&log&log'&Hl&Hnew&_&H). by exists w', latest, new, log, log'.
Defined.

Lemma manifest_merge_preserves_witness : ∃ out s' cs',
  ManifestFileMerger.Merge no_faults "t" "u" "avro" size (λ _, false) stats [m1; m2] 1000 1 1000 two.2 = (Ok out, s') ∧ length out = 1%nat ∧
  Forall2 (stored "t" size stats s'.1) out cs' ∧ MergeLiveEntries (concat cs') = MergeLiveEntries (es1 ++ es2).
Proof.
  pose proof (manifest_merge_preserves o env [m1; m2] [es1; es2] two.2 uuid_ok two_fresh two_stored two_once) as H. cbn [o env fault root_ uuid_ manifest_format SizeOf
    ReachTargetSize partition_stats manifest_target_file_size manifest_merge_min_count manifest_full_compaction_size] in H.
  assert (E : match (ManifestFileMerger.Merge no_faults "t" "u" "avro" size (λ _, false) stats [m1; m2] 1000 1 1000 two.2).1 with
              | Ok out => length out | Err _ _ => O end = 1%nat) by by vm_compute.
  destruct (ManifestFileMerger.Merge _ _ _ _ _ _ _ _ _ _ _ _) as [[out|c e] s']; [|done]. cbn in E.
  destruct H as (_&cs'&Hst&_&Hlive). by exists out, s', cs'.
Defined.

Lemma latest_snapshot_found_witness : ∃ w', LatestSnapshot no_faults two = (Ok (Some s2), w') ∧ is_latest two.1 (Some s2).
Proof.
  pose proof (latest_snapshot_found no_faults two (proj1 two_table)) as H.
  assert (E : (LatestSnapshot no_faults two).1 = Ok (Some s2)) by by vm_compute. destruct (LatestSnapshot no_faults two) as [[r|c e] w']; [|done].
  cbn in E. injection E as ->. exists w'. split; [done|apply H].
Defined.

Lemma time_travel_finds_witness : ∃ w', FindSnapshotBeforeTimestamp no_faults Z.leb 150 two = (Ok (Some s1), w') ∧ last_early Z.leb 150 two.1 (Some s1).
Proof.
  assert (Ht : times_ok Z.leb 150 two.1).
  { intros i j a b Hij [[-> ->]|[-> ->]]%two_lookup [[-> ->]|[-> ->]]%two_lookup; by vm_compute. }
  pose proof (time_travel_finds no_faults Z.leb 150 1 2 two two_ids two_hint ltac:(by intros h [= <-]) Ht) as H.
  assert (E : (FindSnapshotBeforeTimestamp no_faults Z.leb 150 two).1 = Ok (Some s1)) by by vm_compute.
  destruct (FindSnapshotBeforeTimestamp no_faults Z.leb 150 two) as [[r|c e] w']; [|done]. cbn in E. injection E as ->. exists w'. split; [done|apply H].
Defined.

(** *** The check for conflicts *)

Definition int_comparator : FieldsComparator :=
  match Rows.Create [INT32] true with Ok c => c | Err _ _ => mkFieldsComparator true [] [] end.
Definition key_order (a b : InternalRow) : Z := cmpZ (GetInteger a 0) (GetInteger b 0).
Lemma key_order_laws : @ComparatorLaws InternalRow key_order.
Proof. apply (laws_proj (λ row, GetInteger row 0) cmpZ), laws_Z. Qed.
(** A compaction: a file of level 0 is rewritten. *)
Definition log : list ManifestEntry.t := concat [es1; es2].
Definition compaction : list ManifestEntry.t := [entry FileKind.Delete f3; entry FileKind.Add (file "f5" 5 1 4)].

Lemma compaction_fresh : unrepeated compaction ∧ fresh_adds log compaction ∧ ∀ e, e ∈ compaction → Partition e ∈ [[]].
Proof.
  split_and!.
  - unfold unrepeated. cbn. apply NoDup_cons. split; [|apply NoDup_singleton]. intros E%list_elem_of_singleton. discriminate.
  - intros e He _. cbn in He. repeat (apply elem_of_cons in He as [->|He]); [..|by apply elem_of_nil in He]; by apply (bool_decide_eq_true _).
  - intros e He. repeat (apply elem_of_cons in He as [->|He]); [by left|by left|by apply elem_of_nil in He].
Qed.

Lemma conflict_check_keeps_log_witness : ∃ cache',
  CheckConflicts (KO := int_keys) false false true false (live_in [[]] log) compaction None CommitKind.Compact [] = (Ok (), cache') ∧ once (log ++ compaction).
Proof.
  destruct compaction_fresh as (Hu&Hf&Hp).
  assert (E : is_ok (CheckConflicts (KO := int_keys) false false true false (live_in [[]] log) compaction None CommitKind.Compact []).1 = true) by by vm_compute.
  destruct (CheckConflicts _ _ _ _ _ _ _ _ _) as [[[]|c e] cache'] eqn:Hc; [|done]. exists cache'. split; [done|].
  by destruct (conflict_check_keeps_log false false true false [[]] log compaction None CommitKind.Compact [] cache' two_once Hu Hf Hp Hc).
Defined.

Lemma conflict_check_keeps_levels_witness : levels_apart (KC := CompareRows int_comparator) (MergeLiveEntries (log ++ compaction)).
Proof.
  destruct compaction_fresh as (Hu&Hf&Hp).
  assert (E : is_ok (CheckConflicts (KO := int_keys) false false true false (live_in [[]] log) compaction None CommitKind.Compact []).1 = true) by by vm_compute.
  destruct (CheckConflicts _ _ _ _ _ _ _ _ _) as [[[]|c e] cache'] eqn:Hc; [|done].
  apply (conflict_check_keeps_levels (KO := int_keys) false false true false [INT32] int_comparator [[]] log compaction None CommitKind.Compact [] cache' eq_refl
    ltac:(by repeat constructor) eq_refl eq_refl two_once Hu Hf Hp); [| |done|done].
  - repeat constructor; by vm_compute.
  - intros a b Ha Hb Hne Hl Hk. change (a ∈ [entry FileKind.Add f2; entry FileKind.Add f3]) in Ha. change (b ∈ [entry FileKind.Add f2; entry FileKind.Add f3]) in Hb.
    repeat (apply elem_of_cons in Ha as [->|Ha]); [..|by apply elem_of_nil in Ha]; repeat (apply elem_of_cons in Hb as [->|Hb]);
      try (by apply elem_of_nil in Hb); (by destruct Hne) || discriminate Hk.
Defined.

(** Under a descending sequence field files of one level that overlap are accepted. *)
Example descending_check_accepts_overlap :
  let a := entry FileKind.Add (file "a" 1 5 9) in
  let b := entry FileKind.Add (file "b" 1 1 6) in
  CheckKeyRange (KO := mkKeyOptions (Ok [INT32]) false) true [a; b] = Ok () ∧ ¬ levels_apart (KC := CompareRows int_comparator) [a; b].
Proof.
  split; [apply (descending_range_unchecked (KO := mkKeyOptions (Ok [INT32]) false) [INT32] int_comparator eq_refl eq_refl
    ltac:(by repeat constructor) eq_refl)|].
  - repeat constructor; try (intros [|i] Hi; [reflexivity|cbn in Hi; lia]); by vm_compute.
  - intros H. destruct (H (entry FileKind.Add (file "a" 1 5 9)) (entry FileKind.Add (file "b" 1 1 6))) as [E|E];
      [by left|right; by left|done|cbn; lia|done|..]; vm_compute in E; discriminate E.
Qed.

(** A compaction of the files of level 0 and 5 that keeps the row ids. *)
Definition row_compaction : list ManifestEntry.t :=
  [entry FileKind.Delete f2; entry FileKind.Delete f3; entry FileKind.Add (DataFileMeta.AssignFirstRowId 2 (DataFileMeta.mk "f7" 20 4 [VInt 2] [VInt 9]
     (mkSimpleStats [] [] []) (mkSimpleStats [] [] []) 0 1 0 5 [] (mkTimestamp 0 0) None None (Some FileSource.Compact) None None None None None))].
Lemma row_compaction_fresh : unrepeated row_compaction ∧ fresh_adds log row_compaction ∧ ∀ e, e ∈ row_compaction → Partition e ∈ [[]].
Proof.
  split_and!.
  - apply (bool_decide_eq_true _). by vm_compute.
  - intros e He _. repeat (apply elem_of_cons in He as [->|He]); [..|by apply elem_of_nil in He]; by apply (bool_decide_eq_true _).
  - intros e He. repeat (apply elem_of_cons in He as [->|He]); [by left..|by apply elem_of_nil in He].
Qed.
Lemma compaction_keeps_row_ids_witness : aligned (live_in [[]] (log ++ row_compaction)) ∧ covered (live_in [[]] (log ++ row_compaction)).
Proof.
  destruct row_compaction_fresh as (Hu&Hf&Hp).
  assert (E : is_ok (CheckConflicts (KO := int_keys) false false false true (live_in [[]] log) row_compaction (Some 6) CommitKind.Compact []).1 = true) by by vm_compute.
  destruct (CheckConflicts _ _ _ _ _ _ _ _ _) as [[[]|c e] cache'] eqn:Hc; [|done].
  refine (compaction_keeps_row_ids (KO := int_keys) false false false [[]] log row_compaction (Some 6) [] cache' two_once Hu Hf Hp _ Hc).
  clear. cbn [log row_compaction concat es1 es2 app]. repeat (constructor; [intros f [= <-]; by vm_compute|]). constructor.
Defined.

(** *** Scans *)

Definition no_filters : Filters := mkFilters [] None false None None None.
Definition schema : list ArrowType := [INT32; INT32].
Definition names : list string := ["k"; "v"]%string.
Definition pass (p : Predicate) (f : DataFileMeta.t) : Result bool := Ok true.
Definition equals (i : nat) (name : string) (n : Z) : Predicate := Leaf FEqual i name FieldType.INT [mkLiteral FieldType.INT (VInt n)].

Lemma log_copies : deletions_copy log.
Proof.
  intros a d Ha Hd Hadd Hdel E. cbn in Ha, Hd.
  repeat (apply elem_of_cons in Ha as [->|Ha]); [..|by apply elem_of_nil in Ha]; try discriminate Hadd;
    repeat (apply elem_of_cons in Hd as [->|Hd]); try (by apply elem_of_nil in Hd); try discriminate Hdel; try discriminate E; split; [done|by left].
Qed.
Lemma no_filters_ok : partition_stats_ok stats no_filters.
Proof. split; [constructor|]. by intros p rows st. Qed.

Lemma append_scan_plans_live_witness : ∃ s',
  CreatePlan no_faults "t" no_filters (AppendOnlyFileStoreScan.methods schema names 0 pass pass (Some (equals 0 "k" 3))) ALL false (Some s2) two.2 =
    (Ok [entry FileKind.Add f3], s') ∧ MergeLiveEntries log = [entry FileKind.Add f2; entry FileKind.Add f3].
Proof.
  pose proof (append_scan_plans_live no_faults "t" size stats no_filters schema names 0 pass pass (Some (equals 0 "k" 3)) s2 log two.2 no_filters_ok
    ltac:(done) two_readable log_copies) as H.
  assert (E : is_ok (CreatePlan no_faults "t" no_filters (AppendOnlyFileStoreScan.methods schema names 0 pass pass (Some (equals 0 "k" 3))) ALL false (Some s2)
    two.2).1 = true) by by vm_compute.
  destruct (CreatePlan _ _ _ _ _ _ _ _) as [[files|c e] s']; [|done]. exists s'. destruct H as [-> _]. by vm_compute.
Defined.

Definition record (k v seq : Z) : KeyValue := mkKeyValue RowKind.Insert seq 0 [VInt k] [VInt k; VInt v].
Definition contents (f : DataFileMeta.t) : list KeyValue :=
  if String.eqb (DataFileMeta.file_name f) "f2" then [record 5 1 0; record 9 7 1] else [record 2 0 0; record 7 9 1].
Abbreviation kf := (Some (equals 0 "k" 9)).
Abbreviation vf := (Some (equals 1 "v" 7)).
Abbreviation kv_methods := (KeyValueFileStoreScan.methods schema names 0 pass pass kf vf false false).

Lemma key_order_ok : ComparatorsOK key_order None.
Proof. split; [apply key_order_laws|done]. Qed.
Lemma equals_test (row : InternalRow) : Test schema (equals 0 "k" 9) row = Ok true ↔ GetInteger row 0 = 9.
Proof.
  cbn. unfold TestLeafRow, ConvertLiteralsFromRow, IsNullAt, GetInteger, field_at. destruct row as [|v row]; [done|]. cbn.
  destruct v; cbn; try done; unfold Predicates.CompareTo; cbn; unfold cmpZ; 
    (destruct (Z.eqb_spec z 9) as [->|Hne]; [done|]; by destruct (z <? 9)).
Qed.

(** The statistics of one column of one of the two files. *)
Ltac solve_covered := split; [split; [by repeat constructor|done]|]; split_and!; [done|done|];
  intros row x lo hi Hin Ev Nv Elo Ehi Nlo Nhi; cbn in Hin; repeat (apply elem_of_cons in Hin as [->|Hin]); try (by apply elem_of_nil in Hin);
  vm_compute in Ev, Elo, Ehi; injection Ev as <-; injection Elo as <-; injection Ehi as <-; done.
Lemma bucket_files_ok : Forall (λ e, FilterManifestEntry no_filters kv_methods e = KeyValueFileStoreScan.FilterByStats schema kf e ∧
  is_ok (KeyValueFileStoreScan.FilterByStats schema kf e) = true ∧ file_ok schema names pass pass kf vf contents (File e))
  [entry FileKind.Add f2; entry FileKind.Add f3].
Proof.
  constructor; [|constructor; [|constructor]]; (split; [done|]; split; [by vm_compute|]; split_and!; [| |done]);
    intros p [= <-]; cbn zeta; solve_covered.
Qed.

Lemma key_value_scan_keeps_answers_witness : ∃ s',
  CreatePlan no_faults "t" no_filters kv_methods ALL false (Some s2) two.2 = (Ok [entry FileKind.Add f2], s') ∧
  (visible key_order None false (contents f2) (record 9 7 1) ↔ visible key_order None false (contents f2 ++ contents f3) (record 9 7 1)).
Proof.
  assert (Hkeys : keys_ok key_order schema kf).
  { intros p k k' [= <-] E. rewrite !equals_test. unfold key_order, cmpZ in E. destruct (Z.eqb_spec (GetInteger k 0) (GetInteger k' 0)); [congruence|].
    by destruct (_ <? _). }
  assert (Hdis : levels_disjoint key_order contents [entry FileKind.Add f2; entry FileKind.Add f3]).
  { intros e e' x y He He' Hne Hl El.
    repeat (apply elem_of_cons in He as [->|He]); [..|by apply elem_of_nil in He]; repeat (apply elem_of_cons in He' as [->|He']);
      try (by apply elem_of_nil in He'); (by destruct Hne) || discriminate El. }
  assert (Hsat : satisfies schema kf vf (record 9 7 1)) by (split; by intros p [= <-]).
  pose proof (key_value_scan_keeps_answers key_order None false (OK := key_order_ok) no_faults "t" size stats no_filters schema names 0 pass pass kf vf false
    contents s2 log ([], 0) (record 9 7 1) two.2 ltac:(by repeat constructor) no_filters_ok two_readable log_copies bucket_files_ok Hkeys Hdis Hsat) as H.
  assert (E : match (CreatePlan no_faults "t" no_filters kv_methods ALL false (Some s2) two.2).1 with
              | Ok files => bool_decide (files = [entry FileKind.Add f2]) | Err _ _ => false end = true) by by vm_compute.
  destruct (CreatePlan _ _ _ _ _ _ _ _) as [[files|c e] s']; [|done]. exists s'. cbn in E. apply bool_decide_eq_true in E as ->. split; [done|]. apply H.
Defined.

(** *** What does not hold *)

(** When a manifest list cannot be written completely, the part that was
    written stays, although deleting works: the guard deletes another path. *)
Definition add_batch_fails (op : Op) (n : nat) : Result unit := match op with OpAddBatch => Err IOError "disk full" | _ => Ok () end.
Theorem manifest_list_write_leaks :
  deletes_ok add_batch_fails ∧
  let '(r, s') := WriteManifestList (Other := Empty_set) add_batch_fails "t" "u" "avro" size [] (∅, mkLocal 0 0 0) in
  r = Err IOError "disk full" ∧ s'.1 = {[ "t/manifest/manifest-list-u-0"%string := Partial ]}.
Proof. split; [done|]. vm_compute. done. Qed.

(** The filter by key of a table (v INT, k DECIMAL(10, 2)) with the primary key
    k: its field is the first of the key, and its type is looked up in the first
    column of the table, so that every scan with the filter fails. *)
Definition price (n : Z) : VariantType := VDecimal (Decimal.mkDecimal 10 2 n).
Definition priced : ManifestEntry.t :=
  entry FileKind.Add (DataFileMeta.mk "f6" 10 1 [price 100] [price 200] (mkSimpleStats [price 100] [price 200] [Some 0]) (mkSimpleStats [] [] [])
    0 1 0 5 [] (mkTimestamp 0 0) None None None None None None None None).
Theorem key_filter_wrong_schema :
  let p i := Leaf FEqual i "k" FieldType.DECIMAL [mkLiteral FieldType.DECIMAL (price 150)] in
  CreatePickedFieldFilter {[ "k"%string := 0%nat ]} (p 1%nat) = Ok (Some (p 0%nat)) ∧
  is_ok (KeyValueFileStoreScan.FilterByStats [INT32; DECIMAL128 10 2] (Some (p 0%nat)) priced) = false ∧
  KeyValueFileStoreScan.FilterByStats [DECIMAL128 10 2] (Some (p 0%nat)) priced = Ok true.
Proof. vm_compute. done. Qed.
End TableExamples.
